(* ===== verification/_CoqProject ===== *)
-Q . S2P
Prelude.v
Buffer.v
Deku.v
Protos.v
Packets.v
Quotation.v
Wire.v
Config.v
Tls.v
Channel.v
Link.v
Quic.v
Process.v
ProcessFacts.v
EndToEnd.v
Client.v
ClientFacts.v
Server.v
ServerFacts.v
Hub.v
HubFacts.v
Session.v
SessionFacts.v
Calls.v
Serving.v
ServingFacts.v
ExampleServer.v
ExampleServerFacts.v
Broadcast.v
Consuming.v
ConsumingFacts.v
Reconnect.v
ExampleClient.v
ExampleClientFacts.v
System.v
SystemFacts.v
SystemLive.v
Transport.v
TransportFacts.v
Connect.v
Entry.v
EntryFacts.v
Tasks.v
TasksFacts.v
Metrics.v
