(* ===== verification/Prelude.v ===== *)
(** * quote-link-rs: a QUIC link for market data, its model and its correctness

    The program is a library ([src/link/src]) that carries packets (requests, responses,
    pushes) between one server and many clients, each on one QUIC stream, and a small crate
    of metrics ([src/metrics/src]). This development translates it, part by part, into
    executable definitions, and proves what makes each part correct.

    ** How the program works

    - A packet is serialised by a bit-level codec ([packets.rs], derived by deku).
    - On each side of a connection five tasks talk through bounded channels
      ([transport/]): the UDP read loop, the QUIC task ([quic_process_loop]), the link read
      loop (bytes to packets), the link write loop (packets to bytes), the UDP write loop.
      [Transport::connect] and [accept_new_conn] do the handshake and start them;
      [listen_at] dispatches the datagrams of the server's socket to the connections.
    - [client.rs]: the link task owns the connection (heartbeats, authentication,
      subscriptions, time-outs, reconnection), the consumer task runs the user's callbacks
      and answers the callers of [send_request]; they share the map of waiters.
    - [server.rs]: a registry task knows who is connected and broadcasts; each connection has
      a main loop (heartbeats, authentication, forwarding) and a callback loop.
    - The user's side is two traits, [ConnHandler] and [LinkConsumer], and a factory for each.
      [src/link/examples] has a server and three clients written against them.

    ** Files

    - [Prelude] (this file): the outcome of fallible code ([Ok], [Err], and [Panic] for a
      Rust panic), the state-and-error monad [SM], checked machine integers, slices, bits and
      bytes, the tactics and hint databases, the generic lemmas.
    - [Buffer]: [simple_buf.rs], the byte buffer, against a FIFO specification.
    - [Deku]: the interface of the deku library the codec is derived with. [Protos]: the
      control messages, and the interface [Message] of the protobuf library.
    - [Packets]: [packets.rs], data, constructors and derived codec. [Quotation]: its texts,
      [parse_quotation], and [packet_utils.rs]. [Wire]: the correctness of the codec.
    - [Config]: [config.rs], and the [Transport] record of [transport/transport.rs].
      [Tls]: [tls_utils.rs], over the interface [Boring] of the BoringSSL binding.
    - [Channel], [Quic]: the interfaces of the channels and of the QUIC connection: what
      the code calls, the documented facts it relies on ([SenderLaws], [QuicLaws], ...), and a
      concrete instance of each, which the witnesses evaluate.
    - [Link]: [link_read_loop], [parse_packet_buf] ([transport/link.rs]) with their theorems.
    - [Process]: [quic_process_loop] and [link_write_loop] ([transport/link.rs]);
      [ProcessFacts]: their correctness; [EndToEnd]: two ends composed.
    - [Client], [ClientFacts]: [client.rs]. [Server], [ServerFacts]: [server.rs].
    - [Hub], [HubFacts]: [serve_linker] as a whole, its tasks interleaved, against the
      abstract server [presence]. [Session], [SessionFacts]: a client and its connection to
      the server, both ends interleaved. [Calls]: a call from one end to the other.
    - [Transport], [TransportFacts]: [transport/transport.rs], [transport/server.rs],
      [transport/client.rs], [utils.rs]. [Connect]: [Transport::connect] as a whole.
    - [Serving], [ServingFacts]: a connection on the server with the user's handler, the trait
      [ConnHandler] as a class: the two loops and the tasks they spawn, interleaved.
      [ExampleServer], [ExampleServerFacts]: the handler of [examples/server.rs] on it.
    - [Consuming], [ConsumingFacts]: a client with the user's consumer, the trait
      [LinkConsumer] as a class. [Reconnect]: what a waiter left from a broken connection does
      to the next one. [Broadcast]: the interface of the broadcast channel.
      [ExampleClient], [ExampleClientFacts]: the three example clients, consumers and reading
      tasks, on both.
    - [System], [SystemFacts], [SystemLive]: the program with its users, [Consuming] and
      [Serving] at the two ends of one link.
    - [Entry], [EntryFacts]: [Client::link] and [Server::serve_linker] from the configuration
      to the running tasks, and the [main] functions of the examples.
    - [Tasks], [TasksFacts]: the tasks of a connection together, seen from their channels:
      who waits for whom, and who ends when. [quic_turn_silent] checks the least obvious
      line of [allowed] against [process_step].
    - [Metrics]: [metrics/src].

    ** How code becomes definitions

    A task is a step function on the record of its variables, in [SM] or an analogous monad:
    one event of its [select!] in, the new variables and how it left the loop out; the loop is
    the fold over the events, and theorems quantify over all event sequences, so over all
    interleavings. What a task does to the outside (callbacks, signals, metrics) is recorded
    in a trace. Clock readings come with the events that read the clock. Sending on a channel
    goes through the interfaces of [Channel]. The files that put tasks together ([Hub],
    [Session], [Tasks]) have one event per turn of one task, so that an event list is an
    interleaving; in [Hub], [Session] and [System] a turn is one step, in [Tasks] each message
    sent is. [Serving] and [Consuming] play the traces of the loops on an instance of the user's
    trait: a callback is one step, and a panic in it ends the task that called it. Arithmetic
    on [usize], [u32] and [i64] is checked as under overflow checks; wrapping counters wrap.
    Names are those of the source; an arm of a [select!] is a definition of its own
    ([on_udp_data], [on_packet], ...).

    ** What the theorems show

    - The codec: parsing inverts serialising, on exactly the well-formed packets, in the
      byte layout documented; the header alone decides length and success ([Wire]).
    - The buffer is a bounded FIFO ([Buffer]).
    - The link: parsing is independent of how the bytes are cut ([link_read_loop_reassembles],
      and on arbitrary input [link_read_loop_sound]); the QUIC task sends every message
      whole, in order, through partial sends and back-pressure ([process_run_fifo]), never
      panics, and ends each turn when its read buffer is not empty ([process_run_total]);
      composed, what arrives is always a prefix of what was kept of what was written
      ([link_end_to_end_safe]), and is all of it, in order, once the sender is done and the
      stream has delivered, for traffic of any size in bursts that fit the read buffer
      ([link_end_to_end_delivers]).
    - The client: a reply goes to the caller registered last under its id, and to the consumer
      when there is none ([replies_match_registrations]), in order of arrival
      ([deliveries_in_order]); ids are distinct up to 2^32 draws, on the wire up to 2^24
      ([request_ids_distinct]); time-outs, authentication and retries behave as configured
      ([ClientFacts]).
    - The server: broadcasts reach who is registered, the registry after a connection ends,
      what is forwarded, when a connection is closed ([ServerFacts]).
    - The server as a whole refines an abstract one, where connections come under a name,
      leave only when they ended or the user closed them, and have put in their broadcast
      channel exactly what the user publishes while they are there
      ([hub_refines_presence]); when nothing is on its way the registry tells the truth
      ([registry_settles]). Both suppose that no two connections share an address and that
      each uses one name; [stale_exit_unregisters] is what happens otherwise.
    - A client and its connection agree on who is connected, round trips are true and
      neither side panics, with callers, a clock and a handler that behave
      ([session_agreement], whose [fair] says how; the answers of [examples/server.rs] do);
      a call reaches the handler and its answer the caller ([call_returns_answer]).
    - The whole, both users' code included: callers and consumer are told only what is owed to
      them, answers once and pushes in order ([program_end_to_end]); while the connection
      holds, all that the server sent can be taken and is delivered but for the drops that
      were counted ([program_goes_on]).
    - With the user's code: each packet a connection passes on is given to the handler exactly
      once ([handler_given_each_once]), so that the example server answers each request
      ([example_server_answers_all]); a consumer that panics is never called again and no
      connection authenticates after it ([consumer_panic_is_final]); what the readers of the
      example clients are told accounts for all that was received
      ([example_readers_tell_all], [example_client_echoes]).
    - Start-up: what starts, and how the rest fails ([server_start_up], [client_start_up]).
    - The transport: no crosstalk between clients, live connections keep their channel, a
      handshake takes bounded work for each datagram and the server's waits for datagrams
      without a time-out, UDP writes are complete, tokens ([TransportFacts]); what [connect]
      starts, and when ([connect_correct]).
    - The tasks of a connection settle whatever the scheduling, by a lexicographic measure on
      what is under way; but for one deadlock, and for the UDP tasks, they end together
      ([connection_comes_to_rest]); they can reach that deadlock whatever the sizes of the
      channels ([tasks_can_deadlock]).
    - Quotations, configuration and metrics, each in its file.

    Some theorems state behaviour that is a defect: [read_loop_misses_compaction],
    [stale_waiter_swallows_auth], [task_errors_end_client], [stale_exit_unregisters],
    [empty_read_spins],
    [tasks_can_deadlock], [consumer_panic_is_final], parts of [registry_after_exit],
    [server_start_up], [client_start_up], [example_server_answers_all], [example_client_echoes],
    [heartbeat_tick_verdict], [data_step_panics_iff], [quiche_config_conversion].

    ** Fuel

    Loops that are not structural take fuel and report when it runs out, and theorems show it
    never does: [parse_loop] and [send_new_fuel], [udp_write_fuel], [hs_recv_fuel] are given
    one more than the length of their bytes, each turn consuming at least one;
    [send_pending_fuel] one more than what the buffer holds; [conn_send_fuel],
    [hs_send_fuel] and [stream_read_fuel] one more than the bounds of [QuicConn]
    ([send_bound], [read_bound]), which the laws make decrease. The last is enough only for a
    read buffer that is not empty: with none, [empty_read_spins] shows that no fuel is.

    ** Not modelled

    Sockets, DNS, the clock, files, logging, the runtime's scheduling fairness; the internals
    of quiche, prost, serde, BoringSSL, axum and prometheus, which are interfaces or
    arguments; waiting for the signals that stop the process; the statics that hold the
    metric families beyond their names; crate roots, tests, and the examples that only show the
    scheduler ([communicate.rs]) or the metrics server. Sizes so large that tokio refuses the
    channel, or that [HashMap::with_capacity] cannot allocate the map ([signal_chan_size] for the
    client's waiters, [peer_conn_init_size] for the server's maps), are not: the model panics
    for channels of no capacity only. Datagrams that a task still holds when the listening loop
    ends are not followed further. In [Session] and [System] the
    link between the two ends is a queue each way, which is what [EndToEnd] shows of it; in
    [Session] the callback loop is left to [Calls]; in [Hub] a main loop has no callback loop
    behind it but its channel. [Serving], [Consuming] and [System] have one connection at a
    time, and what the registry gives it to broadcast is an event. What a consumer's callback
    sends through the client it was made with is an event of its own, not tied to the callback. *)

From Stdlib Require Import ZArith Lia Strings.Byte.
From stdpp Require Import base list strings gmap.

Open Scope Z_scope.

(** * Outcomes

    [Ok]/[Err] are the constructors of [anyhow::Result]; [Panic] stands for a Rust
    panic: an index out of range, or an arithmetic overflow under overflow checks. *)

Inductive outcome (E A : Type) : Type :=
| Ok (a : A)
| Err (e : E)
| Panic.

Arguments Ok {E A} a.
Arguments Err {E A} e.
Arguments Panic {E A}.

#[export] Instance outcome_ret E : MRet (outcome E) := fun A a => Ok a.

#[export] Instance outcome_bind E : MBind (outcome E) := fun A B f m =>
  match m with
  | Ok a => f a
  | Err e => Err e
  | Panic => Panic
  end.

#[export] Instance Ok_inj {E A} : Inj (=) (=) (@Ok E A).
Proof. by intros a b [= ->]. Qed.

Definition is_ok {E A} (m : outcome E A) : bool :=
  match m with Ok _ => true | _ => false end.

(** * Machine integers

    [usize] is the 64-bit one. Checked operations: a result outside of the range is a
    panic. [wrap_u32] is the value of an [as u32] cast and of a wrapping counter. *)

Definition usize_bound : Z := 2 ^ 64.
Definition u32_bound : Z := 2 ^ 32.
Definition u24_bound : Z := 2 ^ 24.

Definition in_u24 (x : Z) : Prop := 0 <= x < u24_bound.
Definition in_u32 (x : Z) : Prop := 0 <= x < u32_bound.

Definition uadd {E} (a b : Z) : outcome E Z :=
  if a + b <? usize_bound then Ok (a + b) else Panic.

Definition usub {E} (a b : Z) : outcome E Z :=
  if b <=? a then Ok (a - b) else Panic.

Definition wrap_u32 (x : Z) : Z := x mod u32_bound.

(** [a - b] on [i64], [a += 1] on [u32], both checked. *)
Definition isub64 {E} (a b : Z) : outcome E Z :=
  if (- 2 ^ 63 <=? a - b) && (a - b <? 2 ^ 63) then Ok (a - b) else Panic.

Definition incr_u32 {E} (a : Z) : outcome E Z :=
  if a + 1 <? u32_bound then Ok (a + 1) else Panic.

(** [as u64] of an [i64]. *)
Definition wrap_u64 (x : Z) : Z := x mod usize_bound.

(** [Instant::elapsed], which saturates. *)
Definition elapsed (now at_ : Z) : Z := Z.max 0 (now - at_).

(** * Slices *)

Definition zlen {A} (l : list A) : Z := Z.of_nat (length l).

(** [l[i..j]] *)
Definition slice {E A} (l : list A) (i j : Z) : outcome E (list A) :=
  if (0 <=? i) && (i <=? j) && (j <=? zlen l)
  then Ok (take (Z.to_nat (j - i)) (drop (Z.to_nat i) l))
  else Panic.

(** [l[i..i + src.len()].copy_from_slice(src)] *)
Definition write_at {A} (l : list A) (i : nat) (src : list A) : list A :=
  take i l ++ src ++ drop (i + length src) l.

Definition copy_from_slice {E A} (l : list A) (i j : Z) (src : list A) : outcome E (list A) :=
  if (0 <=? i) && (i <=? j) && (j <=? zlen l) && (j - i =? zlen src)
  then Ok (write_at l (Z.to_nat i) src)
  else Panic.

(** [l.copy_within(i..j, dest)] *)
Definition copy_within {E A} (l : list A) (i j dest : Z) : outcome E (list A) :=
  s ← slice l i j;
  if (0 <=? dest) && (dest + zlen s <=? zlen l)
  then Ok (write_at l (Z.to_nat dest) s)
  else Panic.

(** * State and errors

    A computation that reads and changes a state and may fail: the state survives a
    failure. *)

Definition SM (S E A : Type) : Type := S -> S * outcome E A.

#[export] Instance SM_ret S E : MRet (SM S E) := fun A a s => (s, Ok a).
#[export] Instance SM_bind S E : MBind (SM S E) := fun A B f m s =>
  match m s with
  | (s, Ok a) => f a s
  | (s, Err e) => (s, Err e)
  | (s, Panic) => (s, Panic)
  end.

Definition sfail {S E A} (e : E) : SM S E A := fun s => (s, Err e).
Definition sget {S E A} (f : S -> A) : SM S E A := fun s => (s, Ok (f s)).
Definition smodify {S E} (f : S -> S) : SM S E unit := fun s => (f s, Ok tt).
Definition slift {S E A} (m : outcome E A) : SM S E A := fun s => (s, m).

(** [for a in l { f(a)? }] *)
Fixpoint sfor {S E A} (f : A -> SM S E unit) (l : list A) : SM S E unit :=
  match l with
  | [] => mret tt
  | a :: l => f a ≫= fun _ => sfor f l
  end.

(** * Tactics *)

Create HintDb link_db discriminated.
Create Rewrite HintDb link_rw.

(** Turns the boolean comparisons of the context and of the goal into their [Z] facts. *)
Ltac zbool :=
  repeat match goal with
  | H : _ && _ = true |- _ => apply andb_true_iff in H as [? ?]
  | H : _ || _ = false |- _ => apply orb_false_iff in H as [? ?]
  | H : (_ <=? _) = true |- _ => apply Z.leb_le in H
  | H : (_ <=? _) = false |- _ => apply Z.leb_gt in H
  | H : (_ <? _) = true |- _ => apply Z.ltb_lt in H
  | H : (_ <? _) = false |- _ => apply Z.ltb_ge in H
  | H : (_ =? _) = true |- _ => apply Z.eqb_eq in H
  | H : (_ =? _) = false |- _ => apply Z.eqb_neq in H
  end.

(** Splits on a boolean comparison of the goal and keeps what it says. *)
Ltac zcase :=
  match goal with
  | |- context [?a <=? ?b] => destruct (Z.leb_spec a b)
  | |- context [?a <? ?b] => destruct (Z.ltb_spec a b)
  | |- context [?a =? ?b] => destruct (Z.eqb_spec a b)
  end.

(** Decides a conjunction of closed comparisons by evaluation. *)
Ltac concrete := vm_compute; repeat split; first [reflexivity | discriminate].

(** Splits a successful bind of the context into its steps. *)
Ltac inv_bind H :=
  match type of H with
  | (?m ≫= _) = Ok _ =>
      let a := fresh "a" in let Ha := fresh "Hstep" in
      destruct m as [a| |] eqn:Ha; cbn in H; [inv_bind H | discriminate H | discriminate H]
  | _ => idtac
  end.

(** * Lemmas on lists and slices *)

Lemma zlen_nonneg {A} (l : list A) : 0 <= zlen l.
Proof. unfold zlen. lia. Qed.

Lemma zlen_nil {A} : zlen (@nil A) = 0.
Proof. reflexivity. Qed.

Lemma zlen_app {A} (l k : list A) : zlen (l ++ k) = zlen l + zlen k.
Proof. unfold zlen. rewrite length_app. lia. Qed.

Lemma zlen_drop {A} (l : list A) (n : nat) :
  (n <= length l)%nat -> zlen (drop n l) = zlen l - Z.of_nat n.
Proof. intros. unfold zlen. rewrite length_drop. lia. Qed.

#[export] Hint Rewrite @zlen_app @zlen_nil : link_rw.
#[export] Hint Resolve zlen_nonneg : link_db.

Lemma slice_ok {E A} (l : list A) i j :
  0 <= i -> i <= j -> j <= zlen l ->
  slice (E:=E) l i j = Ok (take (Z.to_nat (j - i)) (drop (Z.to_nat i) l)).
Proof. intros. unfold slice. repeat zcase; done || lia. Qed.

Lemma slice_length {E A} (l s : list A) i j : slice (E:=E) l i j = Ok s -> zlen s = j - i.
Proof.
  unfold slice, zlen. repeat zcase; simpl; intros; simplify_eq.
  rewrite length_take, length_drop. unfold zlen in *. lia.
Qed.

Lemma length_write_at {A} (l src : list A) i :
  (i + length src <= length l)%nat -> length (write_at l i src) = length l.
Proof. intros. unfold write_at. rewrite !length_app, length_take, length_drop. lia. Qed.

Lemma take_write_at {A} (l src : list A) i :
  (i <= length l)%nat -> take (i + length src) (write_at l i src) = take i l ++ src.
Proof.
  intros. unfold write_at. rewrite app_assoc, take_app_le; [|rewrite length_app, length_take; lia].
  rewrite take_ge; [done|]. rewrite length_app, length_take. lia.
Qed.

Lemma copy_from_slice_ok {E A} (l src : list A) i :
  0 <= i -> i + zlen src <= zlen l ->
  copy_from_slice (E:=E) l i (i + zlen src) src = Ok (write_at l (Z.to_nat i) src).
Proof.
  intros. pose proof (zlen_nonneg src). unfold copy_from_slice.
  repeat zcase; done || lia.
Qed.

Lemma copy_within_ok {E A} (l : list A) i j :
  0 <= i -> i <= j -> j <= zlen l ->
  copy_within (E:=E) l i j 0 = Ok (write_at l 0 (take (Z.to_nat (j - i)) (drop (Z.to_nat i) l))).
Proof.
  intros. unfold copy_within. rewrite slice_ok by lia. simpl.
  repeat zcase; try done; try lia.
  exfalso. revert H2. unfold zlen in *. rewrite length_take, length_drop. lia.
Qed.

(** * Bits and bytes

    Bits are listed most significant first, which is the order deku's [Msb0] readers and
    writers use. *)

Abbreviation bits := (list bool).

Fixpoint bits_val (bs : bits) : Z :=
  match bs with
  | [] => 0
  | b :: bs => Z.b2z b * 2 ^ zlen bs + bits_val bs
  end.

Fixpoint val_bits (n : nat) (v : Z) : bits :=
  match n with
  | O => []
  | S n => Z.testbit v (Z.of_nat n) :: val_bits n v
  end.

Definition byte_bits (b : byte) : bits :=
  let '(b0, (b1, (b2, (b3, (b4, (b5, (b6, b7))))))) := Byte.to_bits b in
  [b7; b6; b5; b4; b3; b2; b1; b0].

Fixpoint bytes_bits (l : list byte) : bits :=
  match l with
  | [] => []
  | b :: l => byte_bits b ++ bytes_bits l
  end.

Fixpoint bits_bytes (bs : bits) : list byte :=
  match bs with
  | b7 :: b6 :: b5 :: b4 :: b3 :: b2 :: b1 :: b0 :: bs =>
      Byte.of_bits (b0, (b1, (b2, (b3, (b4, (b5, (b6, b7))))))) :: bits_bytes bs
  | _ => []
  end.

(** The [n] bytes of [v], most significant first. *)
Definition be_bytes (n : nat) (v : Z) : list byte := bits_bytes (val_bits (8 * n) v).

(** The 8-bit value of a byte, and the byte of an 8-bit value. *)
Definition u8_val (b : byte) : Z := bits_val (byte_bits b).

#[export] Instance byte_eq_dec : EqDecision byte := Byte.byte_eq_dec.

Lemma bits_val_bound bs : 0 <= bits_val bs < 2 ^ zlen bs.
Proof.
  induction bs as [|b bs IH]; simpl; [unfold zlen; simpl; lia|].
  replace (zlen (b :: bs)) with (Z.succ (zlen bs)) by (unfold zlen; simpl; lia).
  rewrite Z.pow_succ_r by apply zlen_nonneg.
  destruct b; cbn [Z.b2z]; lia.
Qed.

Lemma length_val_bits n v : length (val_bits n v) = n.
Proof. induction n; simpl; auto. Qed.

Lemma bits_val_val_bits n v : bits_val (val_bits n v) = v mod 2 ^ Z.of_nat n.
Proof.
  induction n as [|n IH]; [simpl; by rewrite Z.mod_1_r|].
  cbn [val_bits bits_val]. rewrite IH. unfold zlen. rewrite length_val_bits.
  rewrite Z.testbit_spec' by lia.
  rewrite Nat2Z.inj_succ, Z.pow_succ_r by lia.
  set (p := 2 ^ Z.of_nat n). assert (0 < p) by (apply Z.pow_pos_nonneg; lia).
  rewrite (Z.mul_comm 2 p), Z.rem_mul_r by lia. lia.
Qed.

Lemma bits_val_val_bits_fits n v : 0 <= v < 2 ^ Z.of_nat n -> bits_val (val_bits n v) = v.
Proof. intros. by rewrite bits_val_val_bits, Z.mod_small. Qed.

Lemma val_bits_mod n m v : (n <= m)%nat -> val_bits n (v mod 2 ^ Z.of_nat m) = val_bits n v.
Proof.
  induction n as [|n IH]; intros; [done|]. cbn [val_bits].
  rewrite IH by lia. f_equal. apply Z.mod_pow2_bits_low. lia.
Qed.

Lemma val_bits_app n m v : val_bits (n + m) v = val_bits n (v / 2 ^ Z.of_nat m) ++ val_bits m v.
Proof.
  induction n as [|n IH]; [done|]. cbn [val_bits Nat.add app]. rewrite <- IH. f_equal.
  rewrite Z.div_pow2_bits by lia. f_equal. lia.
Qed.

Lemma val_bits_bits_val bs : val_bits (length bs) (bits_val bs) = bs.
Proof.
  induction bs as [|b bs IH]; [done|]. cbn [length val_bits bits_val].
  pose proof (bits_val_bound bs) as Hb. unfold zlen in *.
  set (p := 2 ^ Z.of_nat (length bs)) in *. assert (0 < p) by (apply Z.pow_pos_nonneg; lia).
  f_equal.
  - apply Z.b2z_inj. rewrite Z.testbit_spec' by lia. fold p.
    rewrite Z.add_comm, Z.div_add, Z.div_small by lia. destruct b; reflexivity.
  - rewrite <- (val_bits_mod (length bs) (length bs)) by lia. fold p.
    rewrite Z.add_comm, Z_mod_plus_full, Z.mod_small by lia. apply IH.
Qed.

Lemma length_byte_bits b : length (byte_bits b) = 8%nat.
Proof. by destruct b. Qed.

Lemma u8_val_bound b : 0 <= u8_val b < 256.
Proof. pose proof (bits_val_bound (byte_bits b)). by destruct b. Qed.

Lemma length_bytes_bits l : length (bytes_bits l) = (8 * length l)%nat.
Proof.
  induction l as [|b l IH]; [done|].
  cbn [bytes_bits]. rewrite length_app, length_byte_bits, IH. simpl. lia.
Qed.

Lemma zlen_bytes_bits l : zlen (bytes_bits l) = 8 * zlen l.
Proof. unfold zlen. rewrite length_bytes_bits. lia. Qed.

Lemma bytes_bits_app l k : bytes_bits (l ++ k) = bytes_bits l ++ bytes_bits k.
Proof. induction l as [|b l IH]; [done|]. simpl. by rewrite IH, app_assoc. Qed.

Lemma drop_bytes_bits n l : drop (8 * n) (bytes_bits l) = bytes_bits (drop n l).
Proof.
  revert l. induction n as [|n IH]; intros [|b l]; try done.
  replace (8 * S n)%nat with (8 + 8 * n)%nat by lia. cbn [bytes_bits drop].
  rewrite <- drop_drop, (drop_app_length' (byte_bits b)) by (symmetry; apply length_byte_bits).
  apply IH.
Qed.

Lemma bits_bytes_app_byte b r : bits_bytes (byte_bits b ++ r) = b :: bits_bytes r.
Proof.
  pose proof (Byte.of_bits_to_bits b) as Hb. unfold byte_bits.
  destruct (Byte.to_bits b) as (b0&b1&b2&b3&b4&b5&b6&b7) eqn:E. cbn [app bits_bytes]. by rewrite Hb.
Qed.

Lemma bits_bytes_bytes_bits l r : bits_bytes (bytes_bits l ++ r) = l ++ bits_bytes r.
Proof.
  induction l as [|b l IH]; [done|]. cbn [bytes_bits].
  by rewrite <- app_assoc, bits_bytes_app_byte, IH.
Qed.

Lemma bytes_bits_inj l k : bytes_bits l = bytes_bits k -> l = k.
Proof.
  intros H. pose proof (bits_bytes_bytes_bits l []) as E. rewrite H in E.
  rewrite bits_bytes_bytes_bits in E. simpl in E. by rewrite !app_nil_r in E.
Qed.

(** A whole number of bytes survives the trip through [bits_bytes]. *)
Lemma bytes_bits_bits_bytes k bs : length bs = (8 * k)%nat -> bytes_bits (bits_bytes bs) = bs.
Proof.
  revert bs. induction k as [|k IH]; intros bs H.
  - destruct bs; [done|simpl in H; lia].
  - do 8 (destruct bs as [|? bs]; [simpl in H; lia|]).
    cbn [bits_bytes bytes_bits]. rewrite IH by (simpl in H; lia).
    unfold byte_bits. by rewrite Byte.to_bits_of_bits.
Qed.

Lemma length_bits_bytes k bs : length bs = (8 * k)%nat -> length (bits_bytes bs) = k.
Proof.
  intros H. pose proof (bytes_bits_bits_bytes k bs H) as E.
  apply (f_equal length) in E. rewrite length_bytes_bits in E. lia.
Qed.

Lemma bytes_bits_be_bytes n v : bytes_bits (be_bytes n v) = val_bits (8 * n) v.
Proof. apply bytes_bits_bits_bytes with n. by rewrite length_val_bits. Qed.

Lemma length_be_bytes n v : length (be_bytes n v) = n.
Proof. apply length_bits_bytes. by rewrite length_val_bits. Qed.

#[export] Hint Rewrite length_val_bits length_bytes_bits bytes_bits_app length_be_bytes
  bytes_bits_be_bytes : link_rw.
#[export] Hint Resolve bits_val_bound u8_val_bound : link_db.

(** * What a stateful computation keeps

    [keeps I m]: from any state, however [m] ends, the state it leaves is related to the one
    it found. [I] is a preorder, so it composes. *)

Section Keeps.
Context {S E : Type} (I : relation S) `{!PreOrder I}.

Definition keeps {A} (m : SM S E A) : Prop := forall s, I s (m s).1.

Lemma keeps_ret {A} (a : A) : keeps (mret a).
Proof. intros s. cbn. reflexivity. Qed.

Lemma keeps_fail {A} (e : E) : keeps (sfail (A:=A) e).
Proof. intros s. cbn. reflexivity. Qed.

Lemma keeps_lift {A} (m : outcome E A) : keeps (slift m).
Proof. intros s. cbn. reflexivity. Qed.

Lemma keeps_modify (f : S -> S) : (forall s, I s (f s)) -> keeps (smodify f).
Proof. intros Hf s. apply Hf. Qed.

Lemma keeps_bind {A B} (m : SM S E A) (f : A -> SM S E B) :
  keeps m -> (forall a, keeps (f a)) -> keeps (m ≫= f).
Proof.
  intros Hm Hf s. specialize (Hm s). unfold mbind, SM_bind.
  destruct (m s) as [s1 [a|e|]]; cbn [fst] in *; [|done..].
  etrans; [exact Hm|apply Hf].
Qed.

(** Reading the state: the rest may use what was read. *)
Lemma keeps_get {A B} (g : S -> A) (f : A -> SM S E B) :
  (forall s, I s (f (g s) s).1) -> keeps (sget g ≫= f).
Proof. intros Hf s. apply Hf. Qed.

Lemma keeps_for_all {A} (f : A -> SM S E unit) l : Forall (fun a => keeps (f a)) l ->
  keeps (sfor f l).
Proof.
  induction 1 as [|a l Ha _ IH]; cbn [sfor]; [apply keeps_ret|]. by apply keeps_bind.
Qed.

Lemma keeps_for {A} (f : A -> SM S E unit) l : (forall a, keeps (f a)) -> keeps (sfor f l).
Proof. intros Hf. by apply keeps_for_all, Forall_true. Qed.

End Keeps.
