(* ===== verification/Buffer.v ===== *)
(** [link/src/simple_buf.rs]: the contiguous byte buffer of the link loops, its
    well-formedness invariant, and its refinement of a bounded FIFO of bytes. *)

From Stdlib Require Import ZArith Lia Strings.Byte.
From stdpp Require Import base list strings pretty.
From S2P Require Import Prelude.

Module SimpleBuf.

(** * State and operations *)

Record t : Type := mk {
  data_vec : list byte;
  capacity : Z;
  vacant_idx : Z;
  occupied_idx : Z
}.

(** The two [anyhow::bail!] of the file, with the values they print. *)
Inductive error : Type :=
| VacantTooSmall (usable b_len : Z)
| FreeBeyondVacant (occupied_idx new_occupied_idx vacant_idx : Z).

Abbreviation M := (outcome error).

Definition new (capacity : Z) : t :=
  {| data_vec := replicate (Z.to_nat capacity) x00;
     capacity := capacity; vacant_idx := 0; occupied_idx := 0 |}.

Definition len {E} (self : t) : outcome E Z := usub (vacant_idx self) (occupied_idx self).

Definition is_empty {E} (self : t) : outcome E bool :=
  n ← len self; Ok (n =? 0).

Definition max_len {E} (self : t) : outcome E Z :=
  n ← usub (vacant_idx self) (occupied_idx self); usub (capacity self) n.

Definition vacant_slice {E} (self : t) : outcome E (list byte) :=
  slice (data_vec self) (vacant_idx self) (zlen (data_vec self)).

Definition occupied_slice {E} (self : t) : outcome E (list byte) :=
  slice (data_vec self) (occupied_idx self) (vacant_idx self).

Definition push_slice (self : t) (b : list byte) : M t :=
  vacant ← vacant_slice self;
  let usable := zlen vacant in
  if usable <? zlen b then Err (VacantTooSmall usable (zlen b))
  else
    end_idx ← uadd (vacant_idx self) (zlen b);
    data ← copy_from_slice (data_vec self) (vacant_idx self) end_idx b;
    Ok {| data_vec := data; capacity := capacity self;
          vacant_idx := end_idx; occupied_idx := occupied_idx self |}.

Definition reuse {E} (self : t) : outcome E t :=
  data ← copy_within (data_vec self) (occupied_idx self) (vacant_idx self) 0;
  vacant ← usub (vacant_idx self) (occupied_idx self);
  Ok {| data_vec := data; capacity := capacity self;
        vacant_idx := vacant; occupied_idx := 0 |}.

Definition reuse_if {E} (self : t) : outcome E (t * bool) :=
  if vacant_idx self =? capacity self
  then self ← reuse self; Ok (self, true)
  else Ok (self, false).

Definition free (self : t) (consumed : Z) : M t :=
  new_occupied_idx ← uadd (occupied_idx self) consumed;
  if vacant_idx self <? new_occupied_idx
  then Err (FreeBeyondVacant (occupied_idx self) new_occupied_idx (vacant_idx self))
  else Ok {| data_vec := data_vec self; capacity := capacity self;
             vacant_idx := vacant_idx self; occupied_idx := new_occupied_idx |}.

(** [impl Display]: ["SimpleBuf([0..{}..{}..{}] = {})"]. *)
Definition fmt {E} (self : t) : outcome E string :=
  n ← usub (vacant_idx self) (occupied_idx self);
  Ok ("SimpleBuf([0.." +:+ pretty (occupied_idx self) +:+ ".." +:+ pretty (vacant_idx self)
      +:+ ".." +:+ pretty (capacity self) +:+ "] = " +:+ pretty n +:+ ")")%string.

(** * Invariant and abstract view *)

(** A [Vec] never exceeds [isize::MAX] bytes. *)
Definition isize_max : Z := 2 ^ 63 - 1.

Record wf (b : t) : Prop := {
  wf_len : zlen (data_vec b) = capacity b;
  wf_occ : 0 <= occupied_idx b;
  wf_vac : occupied_idx b <= vacant_idx b;
  wf_cap : vacant_idx b <= capacity b;
  wf_max : capacity b <= isize_max
}.

(** The bytes between the two indices: what the buffer holds. *)
Definition contents (b : t) : list byte :=
  take (Z.to_nat (vacant_idx b - occupied_idx b)) (drop (Z.to_nat (occupied_idx b)) (data_vec b)).

(** The bytes that can be appended without moving anything. *)
Definition room (b : t) : Z := capacity b - vacant_idx b.

(** The specification: a FIFO of bytes in a strip of [cap] cells, the first [wasted] of
    which are consumed bytes not yet reclaimed. *)
Record fifo : Type := { queue : list byte; wasted : Z }.

Inductive cmd : Type :=
| CPush (b : list byte)
| CFree (n : Z)
| CReuse
| CReuseIf.

Definition fifo_step (cap : Z) (s : fifo) (c : cmd) : outcome error fifo :=
  let tail_room := cap - wasted s - zlen (queue s) in
  match c with
  | CPush b =>
      if tail_room <? zlen b then Err (VacantTooSmall tail_room (zlen b))
      else Ok {| queue := queue s ++ b; wasted := wasted s |}
  | CFree n =>
      if zlen (queue s) <? n
      then Err (FreeBeyondVacant (wasted s) (wasted s + n) (wasted s + zlen (queue s)))
      else Ok {| queue := drop (Z.to_nat n) (queue s); wasted := wasted s + n |}
  | CReuse => Ok {| queue := queue s; wasted := 0 |}
  | CReuseIf =>
      if tail_room =? 0 then Ok {| queue := queue s; wasted := 0 |} else Ok s
  end.

Definition exec (b : t) (c : cmd) : M t :=
  match c with
  | CPush s => push_slice b s
  | CFree n => free b n
  | CReuse => reuse b
  | CReuseIf => r ← reuse_if b; Ok r.1
  end.

Fixpoint run {S} (f : S -> cmd -> M S) (s : S) (cs : list cmd) : M S :=
  match cs with
  | [] => Ok s
  | c :: cs => s ← f s c; run f s cs
  end.

(** The command is one Rust can express: lengths of slices and consumed counts. *)
Definition cmd_ok (c : cmd) : Prop :=
  match c with
  | CPush b => zlen b <= isize_max
  | CFree n => 0 <= n <= isize_max
  | _ => True
  end.

Definition abs (b : t) : fifo := {| queue := contents b; wasted := occupied_idx b |}.

Definition map_outcome {E A B} (f : A -> B) (m : outcome E A) : outcome E B :=
  match m with Ok a => Ok (f a) | Err e => Err e | Panic => Panic end.

(** * Lemmas *)

Lemma zlen_contents b : wf b -> zlen (contents b) = vacant_idx b - occupied_idx b.
Proof.
  intros []. unfold contents, zlen in *. rewrite length_take, length_drop. lia.
Qed.

Lemma len_ok {E} b : wf b -> len (E:=E) b = Ok (zlen (contents b)).
Proof.
  intros H. rewrite zlen_contents by done. destruct H. unfold len, usub.
  zcase; [done|lia].
Qed.

Lemma is_empty_ok {E} b : wf b -> is_empty (E:=E) b = Ok (zlen (contents b) =? 0).
Proof. intros H. unfold is_empty. by rewrite len_ok. Qed.

Lemma max_len_ok {E} b : wf b -> max_len (E:=E) b = Ok (capacity b - zlen (contents b)).
Proof.
  intros H. rewrite zlen_contents by done. destruct H. unfold max_len, usub.
  zcase; [|lia]. simpl. zcase; [done|lia].
Qed.

Lemma occupied_slice_ok {E} b : wf b -> occupied_slice (E:=E) b = Ok (contents b).
Proof. intros []. unfold occupied_slice. by rewrite slice_ok by lia. Qed.

Lemma zlen_vacant_slice {E} b : wf b ->
  exists s, vacant_slice (E:=E) b = Ok s /\ zlen s = room b.
Proof.
  intros []. unfold vacant_slice. rewrite slice_ok by lia.
  eexists; split; [done|]. unfold room, zlen in *. rewrite length_take, length_drop. lia.
Qed.

(** Writing [src] right after the held bytes appends it to them. *)
Lemma contents_after_write (d src : list byte) (o v : Z) :
  0 <= o -> o <= v -> v + zlen src <= zlen d ->
  take (Z.to_nat (v + zlen src - o)) (drop (Z.to_nat o) (write_at d (Z.to_nat v) src)) =
  take (Z.to_nat (v - o)) (drop (Z.to_nat o) d) ++ src.
Proof.
  intros. unfold zlen in *.
  replace (Z.to_nat (v + Z.of_nat (length src) - o))
    with ((Z.to_nat v + length src) - Z.to_nat o)%nat by lia.
  rewrite <- skipn_firstn_comm, take_write_at by lia.
  rewrite drop_app_le by (rewrite length_take; lia).
  rewrite skipn_firstn_comm. f_equal. f_equal. lia.
Qed.

Lemma push_slice_ok b src : wf b -> zlen src <= room b ->
  exists b', push_slice b src = Ok b' /\ wf b' /\ contents b' = contents b ++ src /\
    occupied_idx b' = occupied_idx b /\ vacant_idx b' = vacant_idx b + zlen src /\
    capacity b' = capacity b.
Proof.
  intros H Hr. destruct (zlen_vacant_slice (E:=error) b H) as (s & Hs & Hl).
  destruct H. unfold push_slice. rewrite Hs. cbn [mbind outcome_bind].
  pose proof (zlen_nonneg src). unfold room, isize_max in *.
  zcase; [lia|]. unfold uadd, usize_bound. zcase; [|lia]. cbn [mbind outcome_bind].
  rewrite copy_from_slice_ok by lia. cbn [mbind outcome_bind].
  eexists; split; [done|]. unfold contents. cbn.
  split; [|split; [by apply contents_after_write; lia|done]].
  constructor; cbn; unfold zlen, isize_max in *; rewrite ?length_write_at; lia.
Qed.

Lemma push_slice_err b src : wf b -> room b < zlen src ->
  push_slice b src = Err (VacantTooSmall (room b) (zlen src)).
Proof.
  intros H Hr. destruct (zlen_vacant_slice (E:=error) b H) as (s & Hs & Hl).
  unfold push_slice. rewrite Hs. cbn [mbind outcome_bind]. rewrite Hl. by zcase; [|lia].
Qed.

Lemma free_ok b n : wf b -> 0 <= n <= zlen (contents b) ->
  exists b', free b n = Ok b' /\ wf b' /\ contents b' = drop (Z.to_nat n) (contents b) /\
    occupied_idx b' = occupied_idx b + n /\ vacant_idx b' = vacant_idx b /\
    capacity b' = capacity b.
Proof.
  intros H Hn. rewrite zlen_contents in Hn by done. destruct H. unfold free, uadd, usize_bound.
  unfold isize_max in *. zcase; [|lia]. cbn [mbind outcome_bind]. zcase; [lia|].
  eexists; split; [done|]. unfold contents. cbn.
  split; [by constructor; cbn; unfold isize_max; lia|]. split; [|done].
  rewrite skipn_firstn_comm, drop_drop. f_equal; [lia|]. f_equal. lia.
Qed.

Lemma free_err b n : wf b -> zlen (contents b) < n <= isize_max ->
  free b n = Err (FreeBeyondVacant (occupied_idx b) (occupied_idx b + n) (vacant_idx b)).
Proof.
  intros H Hn. rewrite zlen_contents in Hn by done. destruct H. unfold free, uadd, usize_bound.
  unfold isize_max in *. zcase; [|lia]. cbn [mbind outcome_bind]. by zcase; [|lia].
Qed.

Lemma reuse_ok {E} b : wf b ->
  exists b', reuse (E:=E) b = Ok b' /\ wf b' /\ contents b' = contents b /\
    occupied_idx b' = 0 /\ vacant_idx b' = zlen (contents b) /\ capacity b' = capacity b.
Proof.
  intros H. pose proof (zlen_contents b H) as Hc. destruct H. unfold reuse.
  rewrite copy_within_ok by lia. cbn [mbind outcome_bind]. unfold usub. zcase; [|lia].
  cbn [mbind outcome_bind]. fold (contents b). pose proof (zlen_nonneg (contents b)).
  eexists; split; [done|]. cbn. split; [|split; [|split; [done|split; [by rewrite Hc|done]]]].
  - constructor; cbn; unfold zlen, isize_max in *; rewrite ?length_write_at; lia.
  - unfold contents at 1. cbn. rewrite drop_0, Z.sub_0_r, <- Hc.
    pose proof (take_write_at (data_vec b) (contents b) 0) as Ht. simpl in Ht.
    unfold zlen. rewrite Nat2Z.id. apply Ht. lia.
Qed.

(** Nothing moves when nothing is in front. *)
Lemma reuse_front {E} b : wf b -> occupied_idx b = 0 -> reuse (E:=E) b = Ok b.
Proof.
  intros [] Ho. unfold reuse. rewrite copy_within_ok by lia. cbn [mbind outcome_bind].
  unfold usub. zcase; [|lia]. cbn [mbind outcome_bind]. destruct b as [d c v o]. cbn in *. subst o.
  rewrite drop_0, Z.sub_0_r. unfold write_at. cbn. rewrite length_take, Nat.min_l by (unfold zlen in *; lia).
  by rewrite take_drop.
Qed.

Lemma reuse_if_ok {E} b : wf b ->
  exists b', reuse_if (E:=E) b = Ok (b', room b =? 0) /\ wf b' /\ contents b' = contents b /\
    occupied_idx b' = (if room b =? 0 then 0 else occupied_idx b) /\
    capacity b' = capacity b /\ vacant_idx b' <= vacant_idx b.
Proof.
  intros H. pose proof (zlen_contents b H) as Hl. pose proof (wf_occ b H).
  unfold reuse_if, room. replace (capacity b - vacant_idx b =? 0)
    with (vacant_idx b =? capacity b) by (repeat zcase; lia).
  zcase; [|eexists; split_and!; done].
  destruct (reuse_ok (E:=E) b H) as (b' & -> & Hw & Hc & Ho & Hv & Hcap). eexists.
  cbn [mbind outcome_bind]. split_and!; done || lia.
Qed.

Lemma new_wf c : 0 <= c <= isize_max -> wf (new c) /\ contents (new c) = [].
Proof.
  intros Hc. split; [|done].
  constructor; cbn; unfold zlen; rewrite ?length_replicate; lia.
Qed.

Lemma room_abs b : wf b -> capacity b - wasted (abs b) - zlen (queue (abs b)) = room b.
Proof. intros H. cbn. rewrite zlen_contents by done. unfold room. lia. Qed.

(** One operation refines one step of the FIFO, errors included, and never panics. *)
Lemma exec_refines b c : wf b -> cmd_ok c ->
  map_outcome abs (exec b c) = fifo_step (capacity b) (abs b) c /\
  forall b', exec b c = Ok b' -> wf b' /\ capacity b' = capacity b.
Proof.
  intros H Hc. unfold fifo_step. rewrite room_abs by done. destruct c as [src|n| |]; cbn [exec].
  - zcase.
    + rewrite push_slice_err by done. by split.
    + destruct (push_slice_ok b src H) as (b' & -> & Hw & Hct & Ho & _ & Hcap); [lia|].
      split; [unfold abs; cbn; by rewrite Hct, Ho|]. by intros ? [= <-].
  - cbn in Hc. cbn [abs queue wasted]. zcase.
    + rewrite free_err by lia || done. split; [|done]. rewrite zlen_contents by done.
      cbn. do 2 f_equal. lia.
    + destruct (free_ok b n H) as (b' & -> & Hw & Hct & Ho & _ & Hcap); [lia|].
      split; [unfold abs; cbn; by rewrite Hct, Ho|]. by intros ? [= <-].
  - destruct (reuse_ok (E:=error) b H) as (b' & -> & Hw & Hct & Ho & _ & Hcap).
    split; [unfold abs; cbn; by rewrite Hct, Ho|]. by intros ? [= <-].
  - destruct (reuse_if_ok (E:=error) b H) as (b' & -> & Hw & Hct & Ho & Hcap & _).
    cbn. split; [|by intros ? [= <-]]. unfold abs. rewrite Hct, Ho. by destruct (room b =? 0).
Qed.

#[export] Hint Rewrite @len_ok @is_empty_ok @max_len_ok @occupied_slice_ok
  using assumption : link_rw.

(** * Properties *)

(** C31. The buffer refines the bounded FIFO: from a fresh buffer of any capacity Rust can
    allocate, any sequence of [push_slice], [free], [reuse] and [reuse_if] gives exactly the
    FIFO's result, the same error at the same command when one is refused, and no sequence
    panics (no index out of range, no overflow). *)
Theorem simple_buf_refines_fifo (c : Z) (cs : list cmd)
    (Hc : 0 <= c <= isize_max) (Hcs : Forall cmd_ok cs) :
  map_outcome abs (run exec (new c) cs) =
  run (fifo_step c) {| queue := []; wasted := 0 |} cs.
Proof.
  destruct (new_wf c Hc) as [Hw Hn].
  assert (forall b, wf b -> capacity b = c ->
    map_outcome abs (run exec b cs) = run (fifo_step c) (abs b) cs) as Hgen.
  { clear Hw Hn. induction Hcs as [|k ks Hk Hks IH]; intros b Hw Hcap; [done|]. cbn [run].
    destruct (exec_refines b k Hw Hk) as [Hr Hp]. rewrite Hcap in Hr. rewrite <- Hr.
    destruct (exec b k) as [b'| |]; try done. cbn [map_outcome mbind outcome_bind].
    destruct (Hp b' eq_refl). apply IH; [done|congruence]. }
  rewrite Hgen by done. f_equal.
Qed.

Lemma simple_buf_refines_fifo_witness :
  map_outcome abs (run exec (new 4) [CPush [x01; x02]; CFree 1; CReuseIf; CPush [x03; x04; x05]]) =
  run (fifo_step 4) {| queue := []; wasted := 0 |}
    [CPush [x01; x02]; CFree 1; CReuseIf; CPush [x03; x04; x05]].
Proof.
  apply (simple_buf_refines_fifo 4); [unfold isize_max; lia |].
  repeat (apply List.Forall_cons || apply List.Forall_nil); unfold cmd_ok, isize_max, zlen; simpl; lia.
Defined.

End SimpleBuf.
