(* ===== verification/Deku.v ===== *)
(** The interface of the serialisation library the wire format is derived with (deku).

    [DekuOps] holds the library operations the derived code calls, [DekuLaws] what its
    documentation says of them, and only in the cases this program relies on: reading a
    field of a given bit width, writing a value that fits its width, [from_bytes] on a
    slice and a bit offset, and flushing a whole number of bytes. Everything about the
    derived code is proved against the two classes. [ref_deku] is one concrete
    implementation, used to evaluate the model. *)

From Stdlib Require Import ZArith Lia Strings.Byte.
From stdpp Require Import base list.
From S2P Require Import Prelude.

(** The code distinguishes [DekuError::Incomplete] from every other error. *)
Inductive DekuError : Type :=
| Incomplete
| OtherError.

Abbreviation deku_result := (outcome DekuError).

(** A reader consumes bits and returns a value with the bits left. *)
Definition reader (A : Type) : Type := bits -> deku_result (A * bits).

#[export] Instance reader_ret : MRet reader := fun A a bs => Ok (a, bs).
#[export] Instance reader_bind : MBind reader := fun A B f m bs =>
  match m bs with
  | Ok (a, bs) => f a bs
  | Err e => Err e
  | Panic => Panic
  end.

Definition reader_fail {A} (e : DekuError) : reader A := fun _ => Err e.

(** The traits [DekuReader] and [DekuWriter]. *)
Class DekuReader (A : Type) := from_reader : reader A.
Class DekuWriter (A : Type) := to_writer : A -> deku_result bits.

Class DekuOps := {
  (** an unsigned integer field of [n] bits *)
  read_uint : nat -> reader Z;
  write_uint : nat -> Z -> deku_result bits;
  (** [DekuContainerRead::from_bytes((slice, bit_offset))]: the bytes left, the bit
      offset in them, and the value *)
  from_bytes : forall {A}, reader A -> list byte * Z -> deku_result ((list byte * Z) * A);
  (** the bytes of a finished writer *)
  finish : bits -> list byte
}.

Class DekuLaws `{DekuOps} : Prop := {
  read_uint_enough n bs : (n <= length bs)%nat ->
    read_uint n bs = Ok (bits_val (take n bs), drop n bs);
  read_uint_short n bs : (length bs < n)%nat -> read_uint n bs = Err Incomplete;
  write_uint_fits n v : 0 <= v < 2 ^ Z.of_nat n -> write_uint n v = Ok (val_bits n v);
  from_bytes_ok {A} (rd : reader A) inp i a rest :
    0 <= i <= 8 * zlen inp ->
    rd (drop (Z.to_nat i) (bytes_bits inp)) = Ok (a, rest) ->
    from_bytes rd (inp, i) =
      let read := 8 * zlen inp - zlen rest in
      Ok ((drop (Z.to_nat (read / 8)) inp, read mod 8), a);
  from_bytes_err {A} (rd : reader A) inp i e :
    0 <= i <= 8 * zlen inp ->
    rd (drop (Z.to_nat i) (bytes_bits inp)) = Err e -> from_bytes rd (inp, i) = Err e;
  finish_aligned bs k : length bs = (8 * k)%nat -> finish bs = bits_bytes bs
}.

(** A [Vec<u8>] field with [count = n]: [n] reads of one byte. *)
Fixpoint read_vec `{DekuOps} (n : nat) : reader (list byte) :=
  match n with
  | O => mret []
  | S n =>
      v ← read_uint 8;
      l ← read_vec n;
      mret (bits_bytes (val_bits 8 v) ++ l)
  end.

Fixpoint write_vec `{DekuOps} (l : list byte) : deku_result bits :=
  match l with
  | [] => Ok []
  | b :: l => h ← write_uint 8 (u8_val b); t ← write_vec l; Ok (h ++ t)
  end.

(** [DekuContainerWrite::to_bytes]. *)
Definition to_bytes `{DekuOps, DekuWriter A} (a : A) : deku_result (list byte) :=
  bs ← to_writer a; Ok (finish bs).

(** * A concrete instance *)

#[export] Instance ref_deku : DekuOps := {|
  read_uint n bs :=
    if (n <=? length bs)%nat then Ok (bits_val (take n bs), drop n bs) else Err Incomplete;
  write_uint n v :=
    if (0 <=? v) && (v <? 2 ^ Z.of_nat n) then Ok (val_bits n v) else Err OtherError;
  from_bytes A rd '(inp, i) :=
    match rd (drop (Z.to_nat i) (bytes_bits inp)) with
    | Ok (a, rest) =>
        let read := 8 * zlen inp - zlen rest in
        Ok ((drop (Z.to_nat (read / 8)) inp, read mod 8), a)
    | Err e => Err e
    | Panic => Panic
    end;
  finish := bits_bytes
|}.

#[export] Instance ref_deku_laws : DekuLaws (H := ref_deku).
Proof.
  constructor; cbn.
  - intros n bs Hn. by apply Nat.leb_le in Hn as ->.
  - intros n bs Hn. by apply Nat.leb_gt in Hn as ->.
  - intros n v [H0 H1]. apply Z.leb_le in H0 as ->. by apply Z.ltb_lt in H1 as ->.
  - intros A rd inp i a rest _ ->. done.
  - intros A rd inp i e _ ->. done.
  - done.
Qed.

(** * Reading and writing a field *)

Section Lemmas.
Context `{DekuLaws}.

Lemma read_uint_app n bs rest : length bs = n ->
  read_uint n (bs ++ rest) = Ok (bits_val bs, rest).
Proof.
  intros Hn. rewrite read_uint_enough by (rewrite length_app; lia).
  by rewrite take_app_length', drop_app_length' by lia.
Qed.

Lemma read_uint_val_bits n v rest : 0 <= v < 2 ^ Z.of_nat n ->
  read_uint n (val_bits n v ++ rest) = Ok (v, rest).
Proof.
  intros Hv. rewrite read_uint_app by apply length_val_bits.
  by rewrite bits_val_val_bits_fits.
Qed.

Lemma read_vec_app l rest :
  read_vec (length l) (bytes_bits l ++ rest) = Ok (l, rest).
Proof.
  induction l as [|b l IH]; [done|]. cbn [length read_vec bytes_bits].
  rewrite <- app_assoc. unfold mbind, reader_bind.
  rewrite read_uint_app by apply length_byte_bits. rewrite IH.
  pose proof (val_bits_bits_val (byte_bits b)) as Hb. rewrite length_byte_bits in Hb.
  rewrite Hb. pose proof (bits_bytes_app_byte b []) as E. rewrite app_nil_r in E.
  by rewrite E.
Qed.

Lemma read_vec_short n bs : (length bs < 8 * n)%nat -> read_vec n bs = Err Incomplete.
Proof.
  revert bs. induction n as [|n IH]; intros bs Hn; [lia|]. cbn [read_vec].
  unfold mbind, reader_bind. destruct (decide (length bs < 8)%nat).
  - by rewrite read_uint_short.
  - rewrite read_uint_enough by lia. rewrite IH; [done|]. rewrite length_drop. lia.
Qed.

Lemma write_vec_ok l : write_vec l = Ok (bytes_bits l).
Proof.
  induction l as [|b l IH]; [done|]. cbn [write_vec].
  pose proof (u8_val_bound b). rewrite write_uint_fits by (simpl; lia).
  cbn [mbind outcome_bind]. rewrite IH. cbn [mbind outcome_bind bytes_bits].
  do 2 f_equal. unfold u8_val. pose proof (val_bits_bits_val (byte_bits b)) as E.
  by rewrite length_byte_bits in E.
Qed.

End Lemmas.

#[export] Hint Rewrite @write_vec_ok using typeclasses eauto : link_rw.
