(* ===== verification/Protos.v ===== *)
(** The control messages of [link/protos/control.proto], and the interface of the protobuf
    library (prost) that encodes them. *)

From Stdlib Require Import ZArith Lia Strings.Byte.
From stdpp Require Import base list strings countable.
From S2P Require Import Prelude.

(** [prost::Message]: encoding always succeeds, decoding may fail. The code never looks
    into a [DecodeError]. *)
Class Message (A : Type) := {
  encode_to_vec : A -> list byte;
  decode : list byte -> option A
}.

(** What the code relies on: decoding reads back what was encoded. *)
Class MessageLaws (A : Type) `{Message A} : Prop :=
  decode_encode (a : A) : decode (encode_to_vec a) = Some a.

Record Heartbeat : Type := { timestamp : Z }.

Record AuthInfo : Type := {
  user_name : string;
  password : string;
  client_name : string
}.

Record AuthRequest : Type := { auth_info : option AuthInfo }.

Record AuthResponse : Type := { auth_response_info : option AuthInfo }.

Record SubscribeRequest : Type := {
  all : bool;
  counter_ids : list string;
  span_index : Z
}.

Record SubscribeResponse : Type := {
  sub_success : list string;
  sub_failed : list string
}.

Record UnsubscribeResponse : Type := {
  unsub_success : list string;
  unsub_failed : list string
}.

Record LinkError : Type := { code : Z; msg : string }.

(** [AuthInfo::default()]: every field at its proto3 default. *)
Definition AuthInfo_default : AuthInfo :=
  {| user_name := ""; password := ""; client_name := "" |}.

#[export] Instance AuthInfo_eq_dec : EqDecision AuthInfo.
Proof. solve_decision. Defined.

(** * A concrete codec

    Not protobuf, but a codec that satisfies the laws: the stdpp encoding of a countable
    type, one byte per binary digit. *)

Fixpoint pos_bytes (p : positive) : list byte :=
  match p with
  | xH => []
  | xO p => x00 :: pos_bytes p
  | xI p => x01 :: pos_bytes p
  end.

Fixpoint bytes_pos (l : list byte) : option positive :=
  match l with
  | [] => Some 1%positive
  | x00 :: l => xO <$> bytes_pos l
  | x01 :: l => xI <$> bytes_pos l
  | _ => None
  end.

Lemma bytes_pos_bytes p : bytes_pos (pos_bytes p) = Some p.
Proof. induction p as [p IH|p IH|]; cbn; by rewrite ?IH. Qed.

Definition countable_message (A : Type) `{Countable A} : Message A :=
  {| encode_to_vec a := pos_bytes (countable.encode a);
     decode l := bytes_pos l ≫= countable.decode |}.

Lemma countable_message_laws A `{Countable A} : @MessageLaws A (countable_message A).
Proof. intros a. cbn. rewrite bytes_pos_bytes. cbn. apply countable.decode_encode. Qed.

#[export] Instance Heartbeat_eq_dec : EqDecision Heartbeat.
Proof. solve_decision. Defined.
#[export] Instance Heartbeat_countable : Countable Heartbeat.
Proof. refine (inj_countable' timestamp Build_Heartbeat _). by intros []. Defined.

#[export] Instance AuthInfo_countable : Countable AuthInfo.
Proof.
  refine (inj_countable' (fun i => (user_name i, password i, client_name i))
    (fun '(u, p, c) => Build_AuthInfo u p c) _). by intros [].
Defined.

#[export] Instance AuthRequest_eq_dec : EqDecision AuthRequest.
Proof. solve_decision. Defined.
#[export] Instance AuthRequest_countable : Countable AuthRequest.
Proof. refine (inj_countable' auth_info Build_AuthRequest _). by intros []. Defined.

#[export] Instance AuthResponse_eq_dec : EqDecision AuthResponse.
Proof. solve_decision. Defined.
#[export] Instance AuthResponse_countable : Countable AuthResponse.
Proof. refine (inj_countable' auth_response_info Build_AuthResponse _). by intros []. Defined.

#[export] Instance SubscribeRequest_eq_dec : EqDecision SubscribeRequest.
Proof. solve_decision. Defined.
#[export] Instance SubscribeRequest_countable : Countable SubscribeRequest.
Proof.
  refine (inj_countable' (fun i => (all i, counter_ids i, span_index i))
    (fun '(a, c, s) => Build_SubscribeRequest a c s) _). by intros [].
Defined.

#[export] Instance SubscribeResponse_eq_dec : EqDecision SubscribeResponse.
Proof. solve_decision. Defined.
#[export] Instance SubscribeResponse_countable : Countable SubscribeResponse.
Proof.
  refine (inj_countable' (fun i => (sub_success i, sub_failed i))
    (fun '(a, c) => Build_SubscribeResponse a c) _). by intros [].
Defined.

#[export] Instance UnsubscribeResponse_eq_dec : EqDecision UnsubscribeResponse.
Proof. solve_decision. Defined.
#[export] Instance UnsubscribeResponse_countable : Countable UnsubscribeResponse.
Proof.
  refine (inj_countable' (fun i => (unsub_success i, unsub_failed i))
    (fun '(a, c) => Build_UnsubscribeResponse a c) _). by intros [].
Defined.

#[export] Instance LinkError_eq_dec : EqDecision LinkError.
Proof. solve_decision. Defined.
#[export] Instance LinkError_countable : Countable LinkError.
Proof.
  refine (inj_countable' (fun i => (code i, msg i)) (fun '(a, c) => Build_LinkError a c) _).
  by intros [].
Defined.
