(* ===== verification/Packets.v ===== *)
(** [link/src/packets.rs]: the packet types, their derived bit-level codec, the packet
    constructors, and the quotation payloads. *)

From Stdlib Require Import ZArith Lia Strings.Byte.
From stdpp Require Import base list strings pretty.
From S2P Require Import Prelude Deku Protos.

Definition DEFAULT_REQUEST_TIMEOUT : Z := 5.
Definition REQUEST_HEADER_SIZE : Z := 8.
Definition RESPONSE_HEADER_SIZE : Z := 8.
Definition PUSH_HEADER_SIZE : Z := 5.
Definition MIN_PACKET_HEADER_SIZE : Z := 5.

Definition request_id_trim (id : Z) : Z := Z.land id 0x00ffffff.

(** * Data *)

Inductive Command : Type :=
| Auth | Heartbeat_ | Close | Reconnect
| CmdSubAllType | CmdUnSubAllType | CmdSubOrderBook | CmdUnSubOrderBook
| CmdSubTrades | CmdSubBrokers | CmdSubDepth | CmdUnSubDepth
| CmdSubMarketInfo | CmdUnSubBrokers.

Inductive MsgType : Type :=
| MtUnknown | MtSnapshot | MtTrade | MtDepths | MtBrokers | MtMarketInfo | MtOrderBook | MtKline.

Inductive ResponseStatus : Type :=
| Success | ServerTimeout | ClientTimeout | BadRequest | BadResponse | Unauthenticated
| PermissionDenied | ServerInternalError | ClientInternalError.

#[export] Instance Command_eq_dec : EqDecision Command.
Proof. solve_decision. Defined.
#[export] Instance MsgType_eq_dec : EqDecision MsgType.
Proof. solve_decision. Defined.
#[export] Instance ResponseStatus_eq_dec : EqDecision ResponseStatus.
Proof. solve_decision. Defined.

Record Request : Type := {
  req_reserved : Z;
  req_command : Command;
  req_id : Z;
  req_timeout : Z;
  req_body_len : Z;
  req_body : list byte
}.

Record Response : Type := {
  resp_reserved : Z;
  resp_command : Command;
  resp_id : Z;
  resp_status : ResponseStatus;
  resp_body_len : Z;
  resp_body : list byte
}.

Record Push : Type := {
  push_reserved : Z;
  push_command : Command;
  push_msg_type : MsgType;
  push_body_len : Z;
  push_body : list byte
}.

Inductive Packet : Type :=
| PRequest (r : Request)
| PResponse (r : Response)
| PPush (p : Push).

Record RequestHeader : Type := {
  rqh_reserved : Z;
  rqh_command : Command;
  rqh_id : Z;
  rqh_timeout : Z;
  rqh_body_len : Z
}.

Record ResponseHeader : Type := {
  rsh_reserved : Z;
  rsh_command : Command;
  rsh_id : Z;
  rsh_status : ResponseStatus;
  rsh_body_len : Z
}.

Record PushHeader : Type := {
  psh_reserved : Z;
  psh_command : Command;
  psh_msg_type : MsgType;
  psh_body_len : Z
}.

Inductive PacketHeader : Type :=
| HRequest (h : RequestHeader)
| HResponse (h : ResponseHeader)
| HPush (h : PushHeader).

(** * Discriminants *)

Definition Command_id (c : Command) : Z :=
  match c with
  | Auth => 0 | Heartbeat_ => 1 | Close => 2 | Reconnect => 3
  | CmdSubAllType => 4 | CmdUnSubAllType => 5 | CmdSubOrderBook => 6 | CmdUnSubOrderBook => 7
  | CmdSubTrades => 8 | CmdSubBrokers => 9 | CmdSubDepth => 10 | CmdUnSubDepth => 11
  | CmdSubMarketInfo => 12 | CmdUnSubBrokers => 13
  end.

Definition MsgType_id (m : MsgType) : Z :=
  match m with
  | MtUnknown => 0 | MtSnapshot => 1 | MtTrade => 2 | MtDepths => 3 | MtBrokers => 4
  | MtMarketInfo => 5 | MtOrderBook => 6 | MtKline => 7
  end.

Definition ResponseStatus_id (s : ResponseStatus) : Z :=
  match s with
  | Success => 0 | ServerTimeout => 1 | ClientTimeout => 2 | BadRequest => 3 | BadResponse => 4
  | Unauthenticated => 5 | PermissionDenied => 6 | ServerInternalError => 7
  | ClientInternalError => 8
  end.

Definition all_commands : list Command :=
  [Auth; Heartbeat_; Close; Reconnect; CmdSubAllType; CmdUnSubAllType; CmdSubOrderBook;
   CmdUnSubOrderBook; CmdSubTrades; CmdSubBrokers; CmdSubDepth; CmdUnSubDepth;
   CmdSubMarketInfo; CmdUnSubBrokers].

Definition all_msg_types : list MsgType :=
  [MtUnknown; MtSnapshot; MtTrade; MtDepths; MtBrokers; MtMarketInfo; MtOrderBook; MtKline].

Definition all_statuses : list ResponseStatus :=
  [Success; ServerTimeout; ClientTimeout; BadRequest; BadResponse; Unauthenticated;
   PermissionDenied; ServerInternalError; ClientInternalError].

(** The variant a derived reader picks for an identifier, if any. *)
Definition variant_of_id {A} (id_of : A -> Z) (variants : list A) (id : Z) : option A :=
  snd <$> list_find (fun a => id_of a = id) variants.

Definition Command_of_id : Z -> option Command := variant_of_id Command_id all_commands.
Definition MsgType_of_id : Z -> option MsgType := variant_of_id MsgType_id all_msg_types.
Definition ResponseStatus_of_id : Z -> option ResponseStatus :=
  variant_of_id ResponseStatus_id all_statuses.

(** * The derived codec: readers in field order, writers in field order *)

Section Codec.
Context `{DekuOps}.

(** An enum with [id_type = "u8"] on [n] bits: an identifier of no variant is an error. *)
Definition read_variant {A} (n : nat) (of_id : Z -> option A) : reader A :=
  id ← read_uint n;
  match of_id id with Some a => mret a | None => reader_fail OtherError end.

#[export] Instance Command_reader : DekuReader Command := read_variant 4 Command_of_id.
#[export] Instance MsgType_reader : DekuReader MsgType := read_variant 8 MsgType_of_id.
#[export] Instance ResponseStatus_reader : DekuReader ResponseStatus :=
  read_variant 8 ResponseStatus_of_id.

#[export] Instance Request_reader : DekuReader Request :=
  reserved ← read_uint 2;
  command ← from_reader (A:=Command);
  id ← read_uint 24;
  timeout ← read_uint 8;
  body_len ← read_uint 24;
  body ← read_vec (Z.to_nat body_len);
  mret {| req_reserved := reserved; req_command := command; req_id := id;
          req_timeout := timeout; req_body_len := body_len; req_body := body |}.

#[export] Instance Response_reader : DekuReader Response :=
  reserved ← read_uint 2;
  command ← from_reader (A:=Command);
  id ← read_uint 24;
  status ← from_reader (A:=ResponseStatus);
  body_len ← read_uint 24;
  body ← read_vec (Z.to_nat body_len);
  mret {| resp_reserved := reserved; resp_command := command; resp_id := id;
          resp_status := status; resp_body_len := body_len; resp_body := body |}.

#[export] Instance Push_reader : DekuReader Push :=
  reserved ← read_uint 2;
  command ← from_reader (A:=Command);
  msg_type ← from_reader (A:=MsgType);
  body_len ← read_uint 24;
  body ← read_vec (Z.to_nat body_len);
  mret {| push_reserved := reserved; push_command := command; push_msg_type := msg_type;
          push_body_len := body_len; push_body := body |}.

#[export] Instance Packet_reader : DekuReader Packet :=
  id ← read_uint 2;
  match id with
  | 0 => r ← from_reader (A:=Request); mret (PRequest r)
  | 1 => r ← from_reader (A:=Response); mret (PResponse r)
  | 2 => p ← from_reader (A:=Push); mret (PPush p)
  | _ => reader_fail OtherError
  end.

#[export] Instance RequestHeader_reader : DekuReader RequestHeader :=
  reserved ← read_uint 2;
  command ← from_reader (A:=Command);
  id ← read_uint 24;
  timeout ← read_uint 8;
  body_len ← read_uint 24;
  mret {| rqh_reserved := reserved; rqh_command := command; rqh_id := id;
          rqh_timeout := timeout; rqh_body_len := body_len |}.

#[export] Instance ResponseHeader_reader : DekuReader ResponseHeader :=
  reserved ← read_uint 2;
  command ← from_reader (A:=Command);
  id ← read_uint 24;
  status ← from_reader (A:=ResponseStatus);
  body_len ← read_uint 24;
  mret {| rsh_reserved := reserved; rsh_command := command; rsh_id := id;
          rsh_status := status; rsh_body_len := body_len |}.

#[export] Instance PushHeader_reader : DekuReader PushHeader :=
  reserved ← read_uint 2;
  command ← from_reader (A:=Command);
  msg_type ← from_reader (A:=MsgType);
  body_len ← read_uint 24;
  mret {| psh_reserved := reserved; psh_command := command; psh_msg_type := msg_type;
          psh_body_len := body_len |}.

#[export] Instance PacketHeader_reader : DekuReader PacketHeader :=
  id ← read_uint 2;
  match id with
  | 0 => h ← from_reader (A:=RequestHeader); mret (HRequest h)
  | 1 => h ← from_reader (A:=ResponseHeader); mret (HResponse h)
  | 2 => h ← from_reader (A:=PushHeader); mret (HPush h)
  | _ => reader_fail OtherError
  end.

#[export] Instance Command_writer : DekuWriter Command := fun c => write_uint 4 (Command_id c).
#[export] Instance MsgType_writer : DekuWriter MsgType := fun m => write_uint 8 (MsgType_id m).
#[export] Instance ResponseStatus_writer : DekuWriter ResponseStatus :=
  fun s => write_uint 8 (ResponseStatus_id s).

#[export] Instance Request_writer : DekuWriter Request := fun r =>
  b0 ← write_uint 2 (req_reserved r);
  b1 ← to_writer (req_command r);
  b2 ← write_uint 24 (req_id r);
  b3 ← write_uint 8 (req_timeout r);
  b4 ← write_uint 24 (req_body_len r);
  b5 ← write_vec (req_body r);
  Ok (b0 ++ b1 ++ b2 ++ b3 ++ b4 ++ b5).

#[export] Instance Response_writer : DekuWriter Response := fun r =>
  b0 ← write_uint 2 (resp_reserved r);
  b1 ← to_writer (resp_command r);
  b2 ← write_uint 24 (resp_id r);
  b3 ← to_writer (resp_status r);
  b4 ← write_uint 24 (resp_body_len r);
  b5 ← write_vec (resp_body r);
  Ok (b0 ++ b1 ++ b2 ++ b3 ++ b4 ++ b5).

#[export] Instance Push_writer : DekuWriter Push := fun p =>
  b0 ← write_uint 2 (push_reserved p);
  b1 ← to_writer (push_command p);
  b2 ← to_writer (push_msg_type p);
  b3 ← write_uint 24 (push_body_len p);
  b4 ← write_vec (push_body p);
  Ok (b0 ++ b1 ++ b2 ++ b3 ++ b4).

#[export] Instance Packet_writer : DekuWriter Packet := fun p =>
  match p with
  | PRequest r => b ← write_uint 2 0; bs ← to_writer r; Ok (b ++ bs)
  | PResponse r => b ← write_uint 2 1; bs ← to_writer r; Ok (b ++ bs)
  | PPush r => b ← write_uint 2 2; bs ← to_writer r; Ok (b ++ bs)
  end.

End Codec.

(** * Operations *)

Definition get_request_id (p : Packet) : Z :=
  match p with
  | PRequest v => req_id v
  | PResponse v => resp_id v
  | PPush _ => 0
  end.

Definition total_bytes (p : Packet) : Z :=
  match p with
  | PRequest r => req_body_len r + REQUEST_HEADER_SIZE
  | PResponse r => resp_body_len r + RESPONSE_HEADER_SIZE
  | PPush r => push_body_len r + PUSH_HEADER_SIZE
  end.

Definition need_bytes (h : PacketHeader) : Z :=
  match h with
  | HRequest r => rqh_body_len r + REQUEST_HEADER_SIZE
  | HResponse r => rsh_body_len r + RESPONSE_HEADER_SIZE
  | HPush r => psh_body_len r + PUSH_HEADER_SIZE
  end.

(** [body.len() as u32] *)
Definition len_u32 (body : list byte) : Z := wrap_u32 (zlen body).

Definition new_request (cmd : Command) (id : Z) (body : list byte) : Packet :=
  PRequest {| req_reserved := 0; req_command := cmd; req_id := request_id_trim id;
              req_timeout := DEFAULT_REQUEST_TIMEOUT; req_body_len := len_u32 body;
              req_body := body |}.

Definition new_response_from (req : Request) (status : ResponseStatus) (body : list byte) : Packet :=
  PResponse {| resp_reserved := 0; resp_command := req_command req; resp_id := req_id req;
               resp_status := status; resp_body_len := len_u32 body; resp_body := body |}.

Definition Response_new (cmd : Command) (id : Z) (status : ResponseStatus) (body : list byte)
    : Response :=
  {| resp_reserved := 0; resp_command := cmd; resp_id := id; resp_status := status;
     resp_body_len := len_u32 body; resp_body := body |}.

Definition new_heartbeat_response (req : Request) : Packet :=
  PResponse {| resp_reserved := 0; resp_command := Heartbeat_; resp_id := req_id req;
               resp_status := Success; resp_body_len := req_body_len req;
               resp_body := req_body req |}.

Section Constructors.
Context `{Message AuthRequest, Message SubscribeRequest, Message Heartbeat}.

Definition new_auth (id : Z) (username password client_name : string) : Packet :=
  let auth := encode_to_vec {| auth_info := Some {| user_name := username;
    Protos.password := password; Protos.client_name := client_name |} |} in
  PRequest {| req_reserved := 0; req_command := Auth; req_id := request_id_trim id;
              req_timeout := DEFAULT_REQUEST_TIMEOUT; req_body_len := len_u32 auth;
              req_body := auth |}.

Definition new_subscribe (cmd : Command) (id : Z) (sub_all : bool) (span_idx : Z) : Packet :=
  let sub := encode_to_vec {| all := sub_all; counter_ids := []; span_index := span_idx |} in
  PRequest {| req_reserved := 0; req_command := cmd; req_id := request_id_trim id;
              req_timeout := DEFAULT_REQUEST_TIMEOUT; req_body_len := len_u32 sub;
              req_body := sub |}.

(** [unix_micros ()] is the reading of the clock. *)
Definition new_heartbeat (unix_micros : Z) (id : Z) : Packet :=
  let raw_body := encode_to_vec {| timestamp := unix_micros |} in
  PRequest {| req_reserved := 0; req_command := Heartbeat_; req_id := request_id_trim id;
              req_timeout := DEFAULT_REQUEST_TIMEOUT; req_body_len := len_u32 raw_body;
              req_body := raw_body |}.

End Constructors.
