(* ===== verification/Quotation.v ===== *)
(** The payloads of packets: the quotations a push carries ([link/src/packets.rs], from
    [Quotation] on), the conversions of a response to the message it carries
    ([link/src/packet_utils.rs]), and the [Display] of packets.

    The quotation messages themselves are generated from protobuf files that are not part
    of the repository: their types are parameters. *)

From Stdlib Require Import ZArith Lia Strings.Byte.
From stdpp Require Import base list strings pretty.
From S2P Require Import Prelude Deku Protos Packets.

(** * [Debug] and [Display] *)

(** [derive(Debug)] of the enums. *)
Definition Command_debug (c : Command) : string :=
  match c with
  | Auth => "Auth" | Heartbeat_ => "Heartbeat" | Close => "Close" | Reconnect => "Reconnect"
  | CmdSubAllType => "CmdSubAllType" | CmdUnSubAllType => "CmdUnSubAllType"
  | CmdSubOrderBook => "CmdSubOrderBook" | CmdUnSubOrderBook => "CmdUnSubOrderBook"
  | CmdSubTrades => "CmdSubTrades" | CmdSubBrokers => "CmdSubBrokers"
  | CmdSubDepth => "CmdSubDepth" | CmdUnSubDepth => "CmdUnSubDepth"
  | CmdSubMarketInfo => "CmdSubMarketInfo" | CmdUnSubBrokers => "CmdUnSubBrokers"
  end.

Definition MsgType_debug (m : MsgType) : string :=
  match m with
  | MtUnknown => "Unknown" | MtSnapshot => "Snapshot" | MtTrade => "Trade"
  | MtDepths => "Depths" | MtBrokers => "Brokers" | MtMarketInfo => "MarketInfo"
  | MtOrderBook => "OrderBook" | MtKline => "Kline"
  end.

Definition ResponseStatus_debug (s : ResponseStatus) : string :=
  match s with
  | Success => "Success" | ServerTimeout => "ServerTimeout" | ClientTimeout => "ClientTimeout"
  | BadRequest => "BadRequest" | BadResponse => "BadResponse"
  | Unauthenticated => "Unauthenticated" | PermissionDenied => "PermissionDenied"
  | ServerInternalError => "ServerInternalError" | ClientInternalError => "ClientInternalError"
  end.

Definition Packet_fmt (p : Packet) : string :=
  match p with
  | PRequest r =>
      "Packet(Request{ cmd:" +:+ Command_debug (req_command r) +:+ " body_len:"
      +:+ pretty (req_body_len r) +:+ " body:[..] })"
  | PResponse r =>
      "Packet(Response{ cmd:" +:+ Command_debug (resp_command r) +:+ " status:"
      +:+ ResponseStatus_debug (resp_status r) +:+ " body_len:"
      +:+ pretty (resp_body_len r) +:+ " body:[..] })"
  | PPush r =>
      "Packet(Push{ cmd:" +:+ Command_debug (push_command r) +:+ " msg_type:"
      +:+ MsgType_debug (push_msg_type r) +:+ " body_len:"
      +:+ pretty (push_body_len r) +:+ " body:[..] })"
  end%string.

Definition Request_fmt (r : Request) : string :=
  ("Request{ cmd:" +:+ Command_debug (req_command r) +:+ " id:" +:+ pretty (req_id r)
   +:+ " body_len:" +:+ pretty (req_body_len r) +:+ " body:[..] }")%string.

Definition Response_fmt (r : Response) : string :=
  ("Response{ cmd:" +:+ Command_debug (resp_command r) +:+ " id:" +:+ pretty (resp_id r)
   +:+ " status:" +:+ ResponseStatus_debug (resp_status r)
   +:+ " body_len:" +:+ pretty (resp_body_len r) +:+ " body: [..]}")%string.

(** * Quotations *)

Section Quotations.
Context {TradePrice Snapshot Depths Brokers Kline OrderBookV2 : Type}.
Context `{Message TradePrice, Message Snapshot, Message Depths, Message Brokers,
  Message Kline, Message OrderBookV2}.

Inductive Quotation : Type :=
| QTrade (data : TradePrice)
| QPrice (data : Snapshot)
| QDepth (data : Depths)
| QBroker (data : Brokers)
| QKLine (data : Kline)
| QOrderBook (data : OrderBookV2).

Definition msg_type (q : Quotation) : MsgType :=
  match q with
  | QTrade _ => MtTrade
  | QPrice _ => MtSnapshot
  | QDepth _ => MtDepths
  | QBroker _ => MtBrokers
  | QKLine _ => MtKline
  | QOrderBook _ => MtOrderBook
  end.

Definition quotation_encode_to_vec (q : Quotation) : list byte :=
  match q with
  | QTrade data => encode_to_vec data
  | QPrice data => encode_to_vec data
  | QDepth data => encode_to_vec data
  | QBroker data => encode_to_vec data
  | QKLine data => encode_to_vec data
  | QOrderBook data => encode_to_vec data
  end.

Definition parse_quotation (mt : MsgType) (data : list byte) : option Quotation :=
  match mt with
  | MtUnknown => None
  | MtSnapshot => QPrice <$> decode data
  | MtTrade => QTrade <$> decode data
  | MtDepths => QDepth <$> decode data
  | MtBrokers => QBroker <$> decode data
  | MtMarketInfo => None
  | MtOrderBook => QOrderBook <$> decode data
  | MtKline => QKLine <$> decode data
  end.

(** Quotations survive the payload encoding: what [encode_to_vec] produced parses back
    under the type [msg_type] announces; whatever parses has the announced type, so a
    payload is never read as another kind of quotation; and the types without a payload
    message never parse. *)
Theorem quotation_roundtrip
    (L1 : MessageLaws TradePrice) (L2 : MessageLaws Snapshot) (L3 : MessageLaws Depths)
    (L4 : MessageLaws Brokers) (L5 : MessageLaws Kline) (L6 : MessageLaws OrderBookV2)
    (q : Quotation) (mt : MsgType) (data : list byte) :
  parse_quotation (msg_type q) (quotation_encode_to_vec q) = Some q /\
  (forall q', parse_quotation mt data = Some q' -> msg_type q' = mt) /\
  (mt = MtUnknown \/ mt = MtMarketInfo -> parse_quotation mt data = None).
Proof.
  split_and!.
  - destruct q; cbn; by rewrite decode_encode.
  - intros q' E. by destruct mt; cbn in E; try apply fmap_Some in E as (? & _ & ->).
  - by intros [-> | ->].
Qed.

End Quotations.

Arguments Quotation : clear implicits.

(** * Conversions of responses *)

Inductive convert_error : Type :=
| DecodeFailed
| UnsupportedCommand (c : Command).

Section Convert.
Context `{Message SubscribeResponse, Message AuthResponse, Message UnsubscribeResponse}.

Definition decode_body {A} `{Message A} (r : Response) : outcome convert_error A :=
  match decode (resp_body r) with Some a => Ok a | None => Err DecodeFailed end.

Definition SubscribeResponse_try_from (r : Response) : outcome convert_error SubscribeResponse :=
  match resp_command r with
  | CmdSubAllType | CmdSubOrderBook | CmdSubTrades | CmdSubBrokers | CmdSubDepth
  | CmdSubMarketInfo => decode_body r
  | _ => Err (UnsupportedCommand (resp_command r))
  end.

Definition AuthResponse_try_from (r : Response) : outcome convert_error AuthResponse :=
  match resp_command r with
  | Auth => decode_body r
  | _ => Err (UnsupportedCommand (resp_command r))
  end.

Definition UnsubscribeResponse_try_from (r : Response)
    : outcome convert_error UnsubscribeResponse :=
  match resp_command r with
  | CmdUnSubAllType | CmdUnSubOrderBook | CmdUnSubDepth | CmdUnSubBrokers => decode_body r
  | _ => Err (UnsupportedCommand (resp_command r))
  end.

Definition unsupported {A} (m : outcome convert_error A) : bool :=
  match m with Err (UnsupportedCommand _) => true | _ => false end.

(** The three conversions partition the commands: on a response to any command at most
    one of them does more than refuse, none does for heartbeats, [Close] and [Reconnect],
    and the one that answers reads back the message the responder encoded. *)
Theorem conversions_partition (L1 : MessageLaws SubscribeResponse)
    (L2 : MessageLaws AuthResponse) (L3 : MessageLaws UnsubscribeResponse)
    (req : Request) (r : Response) (st : ResponseStatus) :
  (length (filter (fun b => b = false) [unsupported (SubscribeResponse_try_from r);
    unsupported (AuthResponse_try_from r); unsupported (UnsubscribeResponse_try_from r)])
   = if bool_decide (resp_command r ∈ [Heartbeat_; Close; Reconnect]) then 0 else 1)%nat /\
  (forall m, unsupported (SubscribeResponse_try_from
      (Response_new (req_command req) (req_id req) st (encode_to_vec m))) = false ->
    SubscribeResponse_try_from
      (Response_new (req_command req) (req_id req) st (encode_to_vec m)) = Ok m) /\
  (forall m, unsupported (UnsubscribeResponse_try_from
      (Response_new (req_command req) (req_id req) st (encode_to_vec m))) = false ->
    UnsubscribeResponse_try_from
      (Response_new (req_command req) (req_id req) st (encode_to_vec m)) = Ok m) /\
  (forall m, req_command req = Auth -> AuthResponse_try_from
      (Response_new (req_command req) (req_id req) st (encode_to_vec m)) = Ok m).
Proof.
  split_and!.
  - unfold SubscribeResponse_try_from, AuthResponse_try_from, UnsubscribeResponse_try_from,
      decode_body.
    destruct (resp_command r); cbn; try reflexivity; by destruct (decode (resp_body r)).
  - intros m. unfold SubscribeResponse_try_from, decode_body. cbn.
    destruct (req_command req); cbn; try done; by rewrite decode_encode.
  - intros m. unfold UnsubscribeResponse_try_from, decode_body. cbn.
    destruct (req_command req); cbn; try done; by rewrite decode_encode.
  - intros m ->. unfold AuthResponse_try_from, decode_body. cbn. by rewrite decode_encode.
Qed.

End Convert.

(** * Witnesses

    A toy message type: one byte, encoded as itself, refusing anything else. *)

Definition one_byte (A : Type) (f : byte -> A) (g : A -> byte) : Message A :=
  {| encode_to_vec a := [g a]; decode l := match l with [b] => Some (f b) | _ => None end |}.

Definition byte_message : Message byte := one_byte byte (fun b => b) (fun b => b).

Lemma byte_message_laws : @MessageLaws byte byte_message.
Proof. by intros a. Qed.

Lemma quotation_roundtrip_witness :
  let parse := @parse_quotation byte byte byte byte byte byte byte_message byte_message
    byte_message byte_message byte_message byte_message in
  parse MtDepths [x05] = Some (QDepth x05) /\
  (forall q', parse MtTrade [x01; x02] = Some q' -> msg_type q' = MtTrade) /\
  (MtTrade = MtUnknown \/ MtTrade = MtMarketInfo -> parse MtTrade [x01; x02] = None).
Proof.
  apply (@quotation_roundtrip byte byte byte byte byte byte byte_message byte_message
    byte_message byte_message byte_message byte_message byte_message_laws byte_message_laws
    byte_message_laws byte_message_laws byte_message_laws byte_message_laws
    (QDepth x05) MtTrade [x01; x02]).
Defined.

Lemma conversions_partition_witness :
  let H := countable_message SubscribeResponse in
  let H0 := countable_message AuthResponse in
  let H1 := countable_message UnsubscribeResponse in
  let req := {| req_reserved := 0; req_command := CmdUnSubDepth; req_id := 9;
                req_timeout := 5; req_body_len := 0; req_body := [] |} in
  let r := Response_new Close 3 Success [x07] in
  (length (filter (fun b => b = false) [unsupported (SubscribeResponse_try_from r);
    unsupported (AuthResponse_try_from r); unsupported (UnsubscribeResponse_try_from r)])
   = if bool_decide (resp_command r ∈ [Heartbeat_; Close; Reconnect]) then 0 else 1)%nat /\
  (forall m, unsupported (SubscribeResponse_try_from
      (Response_new (req_command req) (req_id req) Success (encode_to_vec m))) = false ->
    SubscribeResponse_try_from
      (Response_new (req_command req) (req_id req) Success (encode_to_vec m)) = Ok m) /\
  (forall m, unsupported (UnsubscribeResponse_try_from
      (Response_new (req_command req) (req_id req) Success (encode_to_vec m))) = false ->
    UnsubscribeResponse_try_from
      (Response_new (req_command req) (req_id req) Success (encode_to_vec m)) = Ok m) /\
  (forall m, req_command req = Auth -> AuthResponse_try_from
      (Response_new (req_command req) (req_id req) Success (encode_to_vec m)) = Ok m).
Proof.
  intros H H0 H1 req r.
  apply (conversions_partition (countable_message_laws SubscribeResponse)
    (countable_message_laws AuthResponse) (countable_message_laws UnsubscribeResponse) req r).
Defined.
