(* ===== verification/Wire.v ===== *)
(** The wire format of [link/src/packets.rs] as bytes, and the correctness of the derived
    codec against it: layout, round trip, canonicity, agreement of the header-only parse
    with the full one, and the streaming behaviour of the readers. *)

From Stdlib Require Import ZArith Lia Strings.Byte.
From stdpp Require Import base list.
From S2P Require Import Prelude Deku Protos Packets.

(** * The format *)

Definition header_of (p : Packet) : PacketHeader :=
  match p with
  | PRequest r => HRequest {| rqh_reserved := req_reserved r; rqh_command := req_command r;
      rqh_id := req_id r; rqh_timeout := req_timeout r; rqh_body_len := req_body_len r |}
  | PResponse r => HResponse {| rsh_reserved := resp_reserved r; rsh_command := resp_command r;
      rsh_id := resp_id r; rsh_status := resp_status r; rsh_body_len := resp_body_len r |}
  | PPush r => HPush {| psh_reserved := push_reserved r; psh_command := push_command r;
      psh_msg_type := push_msg_type r; psh_body_len := push_body_len r |}
  end.

Definition body_of (p : Packet) : list byte :=
  match p with
  | PRequest r => req_body r
  | PResponse r => resp_body r
  | PPush r => push_body r
  end.

Definition with_body (h : PacketHeader) (body : list byte) : Packet :=
  match h with
  | HRequest r => PRequest {| req_reserved := rqh_reserved r; req_command := rqh_command r;
      req_id := rqh_id r; req_timeout := rqh_timeout r; req_body_len := rqh_body_len r;
      req_body := body |}
  | HResponse r => PResponse {| resp_reserved := rsh_reserved r; resp_command := rsh_command r;
      resp_id := rsh_id r; resp_status := rsh_status r; resp_body_len := rsh_body_len r;
      resp_body := body |}
  | HPush r => PPush {| push_reserved := psh_reserved r; push_command := psh_command r;
      push_msg_type := psh_msg_type r; push_body_len := psh_body_len r; push_body := body |}
  end.

Definition header_body_len (h : PacketHeader) : Z :=
  match h with
  | HRequest r => rqh_body_len r
  | HResponse r => rsh_body_len r
  | HPush r => psh_body_len r
  end.

(** The first byte: two bits of packet type, two reserved bits, four of command. *)
Definition first_byte (typ reserved : Z) (c : Command) : list byte :=
  be_bytes 1 (typ * 64 + reserved * 16 + Command_id c).

Definition header_wire (h : PacketHeader) : list byte :=
  match h with
  | HRequest r => first_byte 0 (rqh_reserved r) (rqh_command r) ++ be_bytes 3 (rqh_id r)
      ++ be_bytes 1 (rqh_timeout r) ++ be_bytes 3 (rqh_body_len r)
  | HResponse r => first_byte 1 (rsh_reserved r) (rsh_command r) ++ be_bytes 3 (rsh_id r)
      ++ be_bytes 1 (ResponseStatus_id (rsh_status r)) ++ be_bytes 3 (rsh_body_len r)
  | HPush r => first_byte 2 (psh_reserved r) (psh_command r)
      ++ be_bytes 1 (MsgType_id (psh_msg_type r)) ++ be_bytes 3 (psh_body_len r)
  end.

Definition wire (p : Packet) : list byte := header_wire (header_of p) ++ body_of p.

(** Every field fits its width. *)
Definition header_ok (h : PacketHeader) : Prop :=
  0 <= header_body_len h < u24_bound /\
  match h with
  | HRequest r => 0 <= rqh_reserved r < 4 /\ in_u24 (rqh_id r) /\ 0 <= rqh_timeout r < 256
  | HResponse r => 0 <= rsh_reserved r < 4 /\ in_u24 (rsh_id r)
  | HPush r => 0 <= psh_reserved r < 4
  end.

(** The packet can be put on the wire: its fields fit and [body_len] is the length of
    the body. *)
Definition wire_ok (p : Packet) : Prop :=
  header_ok (header_of p) /\ header_body_len (header_of p) = zlen (body_of p).

(** * Streaming readers

    A reader that consumes a prefix, does not look beyond it, and asks for more input
    ([Incomplete]) on every shorter prefix. *)

Class Streaming {A} (rd : reader A) : Prop := {
  streaming_ok bs a rest : rd bs = Ok (a, rest) -> exists used, bs = used ++ rest /\
    (forall r, rd (used ++ r) = Ok (a, r)) /\
    (forall p s, used = p ++ s -> s <> [] -> rd p = Err Incomplete);
  streaming_other bs : rd bs = Err OtherError -> forall r, rd (bs ++ r) = Err OtherError;
  streaming_no_panic bs : rd bs <> Panic
}.

Section Streaming.
Context `{DekuLaws}.

#[export] Instance streaming_ret {A} (a : A) : Streaming (mret a).
Proof.
  constructor; [|done|done]. intros bs a' rest [= <- <-]. exists []. split_and!; try done.
  intros p s E Hs. symmetry in E. apply app_eq_nil in E as [_ ?]. done.
Qed.

#[export] Instance streaming_fail {A} : Streaming (reader_fail (A:=A) OtherError).
Proof. by constructor. Qed.

#[export] Instance streaming_read_uint n : Streaming (read_uint n).
Proof.
  assert (forall bs, (n <= length bs)%nat ->
    read_uint n bs = Ok (bits_val (take n bs), drop n bs)) as Hok
    by (intros; by apply read_uint_enough).
  constructor.
  - intros bs a rest E. destruct (decide (n <= length bs)%nat) as [Hn|Hn];
      [|rewrite read_uint_short in E by lia; done].
    rewrite Hok in E by done. simplify_eq. exists (take n bs). split_and!.
    + by rewrite take_drop.
    + intros r. apply read_uint_app. rewrite length_take. lia.
    + intros p s Hp Hs. apply read_uint_short. apply (f_equal length) in Hp.
      rewrite length_app, length_take in Hp. destruct s; [done|simpl in Hp; lia].
  - intros bs E. destruct (decide (n <= length bs)%nat);
      [rewrite Hok in E by done|rewrite read_uint_short in E by lia]; done.
  - intros bs E. destruct (decide (n <= length bs)%nat);
      [rewrite Hok in E by done|rewrite read_uint_short in E by lia]; done.
Qed.

#[export] Instance streaming_bind {A B} (m : reader A) (f : A -> reader B) :
  Streaming m -> (forall a, Streaming (f a)) -> Streaming (m ≫= f).
Proof.
  intros Hm Hf. unfold mbind, reader_bind. constructor.
  - intros bs b rest E. destruct (m bs) as [[a r1]|?|] eqn:Em; try done.
    apply streaming_ok in Em as (u1 & -> & Hu1 & Hp1).
    apply streaming_ok in E as (u2 & -> & Hu2 & Hp2).
    exists (u1 ++ u2). split_and!; [by rewrite app_assoc| |].
    + intros r. by rewrite <- app_assoc, Hu1, Hu2.
    + intros p s E Hs. apply app_eq_app in E as (l & [[Ep El]|[Ep El]]).
      * destruct l as [|x l].
        -- rewrite app_nil_r in Ep. subst u1. simpl in El. subst s.
           specialize (Hu1 []). rewrite app_nil_r in Hu1. rewrite Hu1. by apply (Hp2 [] u2).
        -- by rewrite (Hp1 p (x :: l)).
      * subst p. rewrite Hu1. by apply (Hp2 l s).
  - intros bs E r. destruct (m bs) as [[a r1]|e|] eqn:Em; try done.
    + apply streaming_ok in Em as (u1 & -> & Hu1 & _). rewrite <- app_assoc, Hu1.
      by apply streaming_other.
    + simplify_eq. by rewrite (streaming_other _ Em).
  - intros bs E. destruct (m bs) as [[a r1]|e|] eqn:Em; try done.
    + by apply streaming_no_panic in E.
    + by apply streaming_no_panic in Em.
Qed.

#[export] Instance streaming_read_variant {A} n (of_id : Z -> option A) :
  Streaming (read_variant n of_id).
Proof. unfold read_variant. apply streaming_bind; [apply _|]. intros id. destruct (of_id id); apply _. Qed.

#[export] Instance streaming_read_vec n : Streaming (read_vec n).
Proof. induction n; cbn [read_vec]; apply _. Qed.

#[export] Instance streaming_header : Streaming (from_reader (A:=PacketHeader)).
Proof.
  unfold from_reader, PacketHeader_reader. apply streaming_bind; [apply _|].
  intros [|[p|[p|p|]|]|]; unfold from_reader, RequestHeader_reader, ResponseHeader_reader,
    PushHeader_reader, from_reader, Command_reader, MsgType_reader, ResponseStatus_reader;
    apply _.
Qed.

#[export] Instance streaming_packet : Streaming (from_reader (A:=Packet)).
Proof.
  unfold from_reader, Packet_reader. apply streaming_bind; [apply _|].
  intros [|[p|[p|p|]|]|]; unfold from_reader, Request_reader, Response_reader,
    Push_reader, from_reader, Command_reader, MsgType_reader, ResponseStatus_reader;
    apply _.
Qed.

(** A streaming reader on an extended input. *)
Lemma streaming_app {A} (rd : reader A) `{!Streaming rd} bs a rest r :
  rd bs = Ok (a, rest) -> rd (bs ++ r) = Ok (a, rest ++ r).
Proof.
  intros E. apply streaming_ok in E as (u & -> & Hu & _). by rewrite <- app_assoc, Hu.
Qed.

End Streaming.

(** * Identifiers *)

Lemma variant_of_id_sound {A} (id_of : A -> Z) vs i a :
  variant_of_id id_of vs i = Some a -> id_of a = i.
Proof.
  unfold variant_of_id. destruct (list_find _ _) as [[k x]|] eqn:E; [|done].
  intros [= <-]. by apply list_find_Some in E as (_ & ? & _).
Qed.

Lemma Command_of_id_id c : Command_of_id (Command_id c) = Some c.
Proof. by destruct c. Qed.
Lemma MsgType_of_id_id m : MsgType_of_id (MsgType_id m) = Some m.
Proof. by destruct m. Qed.
Lemma ResponseStatus_of_id_id s : ResponseStatus_of_id (ResponseStatus_id s) = Some s.
Proof. by destruct s. Qed.

Lemma Command_id_bound c : 0 <= Command_id c < 16.
Proof. destruct c; simpl; lia. Qed.
Lemma MsgType_id_bound m : 0 <= MsgType_id m < 256.
Proof. destruct m; simpl; lia. Qed.
Lemma ResponseStatus_id_bound s : 0 <= ResponseStatus_id s < 256.
Proof. destruct s; simpl; lia. Qed.

#[export] Hint Resolve Command_id_bound MsgType_id_bound ResponseStatus_id_bound : link_db.

Lemma bits_first_byte typ res c : 0 <= typ < 4 -> 0 <= res < 4 ->
  bytes_bits (first_byte typ res c) = val_bits 2 typ ++ val_bits 2 res ++ val_bits 4 (Command_id c).
Proof.
  intros Ht Hr. pose proof (Command_id_bound c) as Hc. unfold first_byte.
  rewrite bytes_bits_be_bytes. change (8 * 1)%nat with (2 + (2 + 4))%nat.
  rewrite !val_bits_app. f_equal; [|f_equal].
  - rewrite <- (val_bits_mod 2 2) by lia. f_equal. simpl Z.of_nat. change (2 ^ 2) with 4.
    change (2 ^ 6) with 64. Z.div_mod_to_equations. lia.
  - rewrite <- (val_bits_mod 2 2) by lia. f_equal. simpl Z.of_nat. change (2 ^ 2) with 4.
    change (2 ^ 4) with 16. Z.div_mod_to_equations. lia.
  - rewrite <- (val_bits_mod 4 4) by lia. f_equal. simpl Z.of_nat.
    change (2 ^ 4) with 16. Z.div_mod_to_equations. lia.
Qed.

Lemma header_of_with_body h body : header_of (with_body h body) = h.
Proof. by destruct h as [[]|[]|[]]. Qed.
Lemma body_of_with_body h body : body_of (with_body h body) = body.
Proof. by destruct h. Qed.
Lemma with_body_header_of p : with_body (header_of p) (body_of p) = p.
Proof. by destruct p as [[]|[]|[]]. Qed.

Lemma need_bytes_header h : need_bytes h = header_body_len h + zlen (header_wire h).
Proof.
  destruct h; unfold header_wire, first_byte; rewrite !zlen_app; unfold zlen;
    rewrite !length_be_bytes; reflexivity.
Qed.

Lemma total_bytes_header p : total_bytes p = need_bytes (header_of p).
Proof. by destruct p. Qed.

Lemma wire_length p : wire_ok p -> zlen (wire p) = total_bytes p.
Proof.
  intros [_ Hb]. unfold wire. rewrite zlen_app, <- Hb, total_bytes_header, need_bytes_header. lia.
Qed.

Lemma header_wire_length h : MIN_PACKET_HEADER_SIZE <= zlen (header_wire h) <= 8.
Proof.
  unfold MIN_PACKET_HEADER_SIZE. destruct h; unfold header_wire, first_byte; rewrite !zlen_app;
    unfold zlen; rewrite !length_be_bytes; lia.
Qed.

Lemma wire_length_pos p : wire_ok p -> 5 <= zlen (wire p).
Proof.
  intros [[? _] Hb]. unfold wire. rewrite zlen_app. pose proof (header_wire_length (header_of p)).
  pose proof (zlen_nonneg (body_of p)). unfold MIN_PACKET_HEADER_SIZE in *. lia.
Qed.

(** * The readers against the format *)

(** Opens the first step of a reader that succeeded. *)
Ltac rstep H :=
  match type of H with
  | (?m ≫= ?f) ?bs = Ok _ =>
      unfold mbind at 1, reader_bind at 1 in H;
      let E := fresh "E" in
      destruct (m bs) as [[? ?]|?|] eqn:E; [|discriminate H|discriminate H]
  end.

Section Codec.
Context `{DekuLaws}.

Lemma read_uint_inv n bs v rest : read_uint n bs = Ok (v, rest) ->
  0 <= v < 2 ^ Z.of_nat n /\ bs = val_bits n v ++ rest.
Proof.
  intros E. destruct (decide (n <= length bs)%nat) as [Hn|Hn];
    [|rewrite read_uint_short in E by lia; done].
  rewrite read_uint_enough in E by done. simplify_eq.
  assert (length (take n bs) = n) as Hl by (rewrite length_take; lia).
  pose proof (bits_val_bound (take n bs)) as Hb. unfold zlen in Hb. rewrite Hl in Hb.
  split; [done|]. pose proof (val_bits_bits_val (take n bs)) as E. rewrite Hl in E.
  by rewrite E, take_drop.
Qed.

Lemma read_variant_inv {A} n (id_of : A -> Z) vs bs (a : A) rest :
  read_variant n (variant_of_id id_of vs) bs = Ok (a, rest) ->
  0 <= id_of a < 2 ^ Z.of_nat n /\ bs = val_bits n (id_of a) ++ rest.
Proof.
  unfold read_variant. intros E. rstep E. apply read_uint_inv in E0 as [? ->].
  destruct (variant_of_id _ _ z) eqn:Ev; [|done]. apply variant_of_id_sound in Ev.
  injection E as <- <-. by subst.
Qed.

Lemma read_vec_inv n bs v rest : read_vec n bs = Ok (v, rest) ->
  length v = n /\ bs = bytes_bits v ++ rest.
Proof.
  revert bs v rest. induction n as [|n IH]; intros bs v rest E.
  - by injection E as <- <-.
  - cbn [read_vec] in E. rstep E. apply read_uint_inv in E0 as [Hz ->]. rstep E.
    apply IH in E0 as [Hl ->]. unfold mret, reader_ret in E.
    apply (inj Ok) in E. apply pair_equal_spec in E as [Ev Er]. subst v rest.
    rewrite length_app, (length_bits_bytes 1) by apply length_val_bits.
    split; [lia|]. rewrite bytes_bits_app.
    rewrite (bytes_bits_bits_bytes 1) by apply length_val_bits. by rewrite app_assoc.
Qed.

Lemma read_variant_val_bits {A} n (of_id : Z -> option A) i a rest :
  0 <= i < 2 ^ Z.of_nat n -> of_id i = Some a ->
  read_variant n of_id (val_bits n i ++ rest) = Ok (a, rest).
Proof.
  intros Hi Hv. unfold read_variant, mbind, reader_bind.
  by rewrite read_uint_val_bits, Hv.
Qed.

Lemma rbind_uint {B} n v (f : Z -> reader B) rest : 0 <= v < 2 ^ Z.of_nat n ->
  (read_uint n ≫= f) (val_bits n v ++ rest) = f v rest.
Proof. intros. unfold mbind, reader_bind. by rewrite read_uint_val_bits. Qed.

Lemma rbind_Command {B} c (f : Command -> reader B) rest :
  (from_reader (A:=Command) ≫= f) (val_bits 4 (Command_id c) ++ rest) = f c rest.
Proof.
  unfold mbind, reader_bind, from_reader, Command_reader.
  erewrite read_variant_val_bits; [done|apply Command_id_bound|apply Command_of_id_id].
Qed.

Lemma rbind_MsgType {B} m (f : MsgType -> reader B) rest :
  (from_reader (A:=MsgType) ≫= f) (val_bits 8 (MsgType_id m) ++ rest) = f m rest.
Proof.
  unfold mbind, reader_bind, from_reader, MsgType_reader.
  erewrite read_variant_val_bits; [done|apply MsgType_id_bound|apply MsgType_of_id_id].
Qed.

Lemma rbind_ResponseStatus {B} s (f : ResponseStatus -> reader B) rest :
  (from_reader (A:=ResponseStatus) ≫= f) (val_bits 8 (ResponseStatus_id s) ++ rest) = f s rest.
Proof.
  unfold mbind, reader_bind, from_reader, ResponseStatus_reader.
  erewrite read_variant_val_bits;
    [done|apply ResponseStatus_id_bound|apply ResponseStatus_of_id_id].
Qed.

(** Runs a reader over the bits of its fields. *)
Ltac rrun :=
  repeat (rewrite rbind_Command || rewrite rbind_MsgType || rewrite rbind_ResponseStatus
          || (rewrite rbind_uint by (simpl Z.of_nat; lia)); cbv beta iota).

Ltac wire_bits :=
  unfold header_wire;
  cbn [rqh_reserved rqh_command rqh_id rqh_timeout rqh_body_len
       rsh_reserved rsh_command rsh_id rsh_status rsh_body_len
       psh_reserved psh_command psh_msg_type psh_body_len];
  rewrite ?bytes_bits_app, ?bits_first_byte, ?bytes_bits_be_bytes by lia;
  rewrite <- ?app_assoc; cbn [Nat.mul Nat.add].

Lemma header_reader_wire h rest : header_ok h ->
  from_reader (A:=PacketHeader) (bytes_bits (header_wire h) ++ rest) = Ok (h, rest).
Proof.
  intros [Hb Hf]. unfold header_body_len, in_u24, u24_bound in *.
  unfold from_reader, PacketHeader_reader.
  destruct h as [[res c i t n]|[res c i s n]|[res c m n]]; cbn in Hb, Hf; wire_bits;
    rrun; unfold mbind at 1, reader_bind at 1; unfold from_reader at 1;
    unfold RequestHeader_reader, ResponseHeader_reader, PushHeader_reader; by rrun.
Qed.

(** Inverts a reader step by step, turning each field read into its bits. *)
Ltac rinv H :=
  repeat (rstep H;
    match goal with
    | E : read_uint _ _ = Ok _ |- _ => apply read_uint_inv in E as [? ->]
    | E : from_reader (A:=Command) _ = Ok _ |- _ => apply read_variant_inv in E as [? ->]
    | E : from_reader (A:=MsgType) _ = Ok _ |- _ => apply read_variant_inv in E as [? ->]
    | E : from_reader (A:=ResponseStatus) _ = Ok _ |- _ => apply read_variant_inv in E as [? ->]
    end).

Lemma header_reader_inv bs h rest : from_reader (A:=PacketHeader) bs = Ok (h, rest) ->
  header_ok h /\ bs = bytes_bits (header_wire h) ++ rest.
Proof.
  unfold from_reader, PacketHeader_reader. intros E. rinv E.
  unfold header_ok, in_u24, u24_bound.
  destruct z as [|[?|[?|?|]|]|]; try discriminate E;
    rstep E; unfold from_reader, RequestHeader_reader, ResponseHeader_reader,
      PushHeader_reader in E0; rinv E0; injection E as <- <-; injection E0 as <- <-;
    simpl Z.of_nat in *; (split; [cbn; lia|]); wire_bits; done.
Qed.
(** The full parse is the header parse followed by the body. *)
Lemma packet_reader_factor bs :
  from_reader (A:=Packet) bs =
  (h ← from_reader (A:=PacketHeader);
   body ← read_vec (Z.to_nat (header_body_len h));
   mret (with_body h body)) bs.
Proof.
  unfold from_reader, Packet_reader, PacketHeader_reader, from_reader, Request_reader,
    RequestHeader_reader, Response_reader, ResponseHeader_reader, Push_reader,
    PushHeader_reader, from_reader, mbind, reader_bind.
  destruct (read_uint 2 bs) as [[z r]|?|]; [|done|done].
  destruct z as [|[?|[?|?|]|]|]; try done;
  repeat match goal with
  | |- context [read_uint ?n ?b] => destruct (read_uint n b) as [[? ?]|?|]; try done
  | |- context [Command_reader ?b] => destruct (Command_reader b) as [[? ?]|?|]; try done
  | |- context [MsgType_reader ?b] => destruct (MsgType_reader b) as [[? ?]|?|]; try done
  | |- context [ResponseStatus_reader ?b] =>
      destruct (ResponseStatus_reader b) as [[? ?]|?|]; try done
  end;
  unfold mret, reader_ret; cbn [header_body_len rqh_body_len rsh_body_len psh_body_len];
  by destruct (read_vec _ _) as [[? ?]|?|].
Qed.

Lemma packet_reader_wire p rest : wire_ok p ->
  from_reader (A:=Packet) (bytes_bits (wire p) ++ rest) = Ok (p, rest).
Proof.
  intros [Hh Hb]. rewrite packet_reader_factor. unfold wire. rewrite bytes_bits_app, <- app_assoc.
  unfold mbind, reader_bind. rewrite header_reader_wire, Hb by done.
  unfold zlen. rewrite Nat2Z.id, read_vec_app. by rewrite <- (with_body_header_of p) at 3.
Qed.

Lemma packet_reader_inv bs p rest : from_reader (A:=Packet) bs = Ok (p, rest) ->
  wire_ok p /\ bs = bytes_bits (wire p) ++ rest.
Proof.
  rewrite packet_reader_factor. intros E. rstep E. apply header_reader_inv in E0 as [Hh ->].
  rstep E. apply read_vec_inv in E0 as [Hl ->]. injection E as <- <-.
  unfold wire_ok, wire. rewrite header_of_with_body, body_of_with_body. destruct Hh as [Hb Hf].
  split; [split; [done|unfold zlen; lia]|]. by rewrite bytes_bits_app, app_assoc.
Qed.

Lemma packet_writer_wire p : header_ok (header_of p) ->
  to_writer (A:=Packet) p = Ok (bytes_bits (wire p)).
Proof.
  intros [Hb Hf]. unfold in_u24, u24_bound in *. unfold wire.
  destruct p as [[res c i t n b]|[res c i s n b]|[res c m n b]]; cbn in Hb, Hf;
    cbn [header_of req_reserved req_command req_id req_timeout req_body_len
      resp_reserved resp_command resp_id resp_status resp_body_len
      push_reserved push_command push_msg_type push_body_len body_of req_body resp_body push_body];
    wire_bits; unfold to_writer, Packet_writer, to_writer, Request_writer, Response_writer,
      Push_writer, to_writer, Command_writer, ResponseStatus_writer, MsgType_writer;
    cbn [req_reserved req_command req_id req_timeout req_body_len req_body
      resp_reserved resp_command resp_id resp_status resp_body_len resp_body
      push_reserved push_command push_msg_type push_body_len push_body];
    pose proof (Command_id_bound c); rewrite write_vec_ok;
    rewrite ?write_uint_fits by (simpl Z.of_nat; first
      [ lia | pose proof (ResponseStatus_id_bound s); lia | pose proof (MsgType_id_bound m); lia ]);
    done.
Qed.

(** * [from_bytes] at offset 0, the only offset the program uses *)

Lemma packet_from_bytes_wire p rest : wire_ok p ->
  from_bytes (from_reader (A:=Packet)) (wire p ++ rest, 0) = Ok ((rest, 0), p).
Proof.
  intros Hp. pose proof (zlen_nonneg (wire p ++ rest)). erewrite from_bytes_ok.
  2: lia. 2: { rewrite drop_0, bytes_bits_app. by apply packet_reader_wire. }
  cbn zeta. rewrite zlen_bytes_bits, zlen_app.
  replace (8 * (zlen (wire p) + zlen rest) - 8 * zlen rest) with (zlen (wire p) * 8) by lia.
  rewrite Z.div_mul, Z.mod_mul by lia. unfold zlen. rewrite Nat2Z.id.
  by rewrite drop_app_length.
Qed.

Lemma header_from_bytes_wire h rest : header_ok h ->
  exists s, from_bytes (from_reader (A:=PacketHeader)) (header_wire h ++ rest, 0) = Ok (s, h).
Proof.
  intros Hh. pose proof (zlen_nonneg (header_wire h ++ rest)). eexists. erewrite from_bytes_ok.
  2: lia. 2: { rewrite drop_0, bytes_bits_app. by apply header_reader_wire. } done.
Qed.

End Codec.

(** * Streams of bytes *)

(** A strict prefix of a packet. *)
Definition partial (tail : list byte) : Prop :=
  exists q s, wire_ok q /\ s <> [] /\ wire q = tail ++ s.

(** No packet is complete at the head. *)
Definition no_packet (l : list byte) : Prop :=
  forall p rest, wire_ok p -> l <> wire p ++ rest.

(** Whatever follows [l], a packet starting at its head has at least [n] bytes. *)
Definition needs (n : Z) (l : list byte) : Prop :=
  forall ext p rest, wire_ok p -> l ++ ext = wire p ++ rest -> n <= zlen (wire p).

Definition wire_all (ps : list Packet) : list byte := concat (map wire ps).

Lemma wire_all_app ps qs : wire_all (ps ++ qs) = wire_all ps ++ wire_all qs.
Proof. unfold wire_all. by rewrite map_app, concat_app. Qed.

Lemma wire_all_cons p ps : wire_all (p :: ps) = wire p ++ wire_all ps.
Proof. done. Qed.

Lemma bytes_bits_prefix w inp r : bytes_bits inp = bytes_bits w ++ r ->
  exists k, inp = w ++ k /\ r = bytes_bits k.
Proof.
  revert inp. induction w as [|b w IH]; intros inp E; [by exists inp|].
  destruct inp as [|c inp].
  - apply (f_equal length) in E. rewrite length_app, !length_bytes_bits in E. simpl in E. lia.
  - cbn [bytes_bits] in E. rewrite <- app_assoc in E.
    apply app_inj_1 in E as [Eb E]; [|by rewrite !length_byte_bits].
    apply IH in E as (k & -> & ->). exists k. split; [|done]. simpl. f_equal.
    pose proof (bits_bytes_app_byte c []) as E1. rewrite Eb, bits_bytes_app_byte in E1.
    by injection E1.
Qed.

Lemma partial_nil : partial [].
Proof.
  exists (PPush {| push_reserved := 0; push_command := Auth; push_msg_type := MtUnknown;
    push_body_len := 0; push_body := [] |}).
  eexists. split; [|split; [|done]].
  - unfold wire_ok, header_ok; cbn. unfold u24_bound, zlen. simpl. lia.
  - vm_compute. discriminate.
Qed.

Section Stream.
Context `{DekuLaws}.

(** Two packets that start the same input are the same packet. *)
Lemma wire_prefix_unique p q r s : wire_ok p -> wire_ok q ->
  wire p ++ r = wire q ++ s -> p = q /\ r = s.
Proof.
  intros Hp Hq E.
  pose proof (packet_from_bytes_wire p r Hp) as Ep.
  rewrite E, (packet_from_bytes_wire q s Hq) in Ep. by simplify_eq.
Qed.

Lemma partial_no_packet l : partial l -> no_packet l.
Proof.
  intros (q & s & Hq & Hs & E) p rest Hp ->. rewrite <- app_assoc in E.
  rewrite <- (app_nil_r (wire q)) in E. apply wire_prefix_unique in E as [_ E]; [|done|done].
  symmetry in E. apply app_eq_nil in E as [_ ?]. done.
Qed.

(** What the two parses of the read loop give on any input. *)
Inductive head_view (inp : list byte) : Prop :=
| head_incomplete :
    from_reader (A:=PacketHeader) (bytes_bits inp) = Err Incomplete ->
    from_bytes (from_reader (A:=PacketHeader)) (inp, 0) = Err Incomplete -> head_view inp
| head_bad :
    from_reader (A:=PacketHeader) (bytes_bits inp) = Err OtherError ->
    from_bytes (from_reader (A:=PacketHeader)) (inp, 0) = Err OtherError -> head_view inp
| head_short h s k :
    from_bytes (from_reader (A:=PacketHeader)) (inp, 0) = Ok (s, h) ->
    header_ok h -> inp = header_wire h ++ k -> zlen inp < need_bytes h -> head_view inp
| head_packet p rest s :
    from_bytes (from_reader (A:=PacketHeader)) (inp, 0) = Ok (s, header_of p) ->
    from_bytes (from_reader (A:=Packet)) (inp, 0) = Ok ((rest, 0), p) ->
    wire_ok p -> inp = wire p ++ rest -> head_view inp.

Lemma split_body h k : header_ok h -> header_body_len h <= zlen k ->
  exists p rest, header_of p = h /\ wire_ok p /\ header_wire h ++ k = wire p ++ rest.
Proof.
  intros Hh Hk. destruct (Hh) as [Hb _].
  exists (with_body h (take (Z.to_nat (header_body_len h)) k)),
    (drop (Z.to_nat (header_body_len h)) k).
  unfold wire_ok, wire. rewrite header_of_with_body, body_of_with_body. split_and!; try done.
  - unfold zlen in *. rewrite length_take. lia.
  - by rewrite <- app_assoc, take_drop.
Qed.

Lemma head_cases inp : head_view inp.
Proof.
  pose proof (zlen_nonneg inp).
  destruct (from_reader (A:=PacketHeader) (bytes_bits inp)) as [[h r]|[]|] eqn:E.
  - apply header_reader_inv in E as [Hh E]. apply bytes_bits_prefix in E as (k & -> & ->).
    destruct (header_from_bytes_wire h k Hh) as [s Hs].
    destruct (Z.lt_ge_cases (zlen (header_wire h ++ k)) (need_bytes h)) as [Hlt|Hge].
    + by apply head_short with h s k.
    + rewrite need_bytes_header, zlen_app in Hge.
      destruct (split_body h k Hh) as (p & rest & <- & Hp & Ew); [lia|].
      rewrite Ew in *. apply head_packet with p rest s; try done.
      by apply packet_from_bytes_wire.
  - apply head_incomplete; [done|]. apply from_bytes_err; [lia|]. by rewrite drop_0.
  - apply head_bad; [done|]. apply from_bytes_err; [lia|]. by rewrite drop_0.
  - by apply streaming_no_panic in E.
Qed.

Lemma incomplete_no_packet inp :
  from_reader (A:=PacketHeader) (bytes_bits inp) = Err Incomplete -> no_packet inp.
Proof.
  intros E p rest [Hh _] ->. unfold wire in E.
  rewrite !bytes_bits_app, <- !app_assoc, header_reader_wire in E; done.
Qed.

Lemma bad_not_partial inp :
  from_reader (A:=PacketHeader) (bytes_bits inp) = Err OtherError ->
  ~ partial inp /\ no_packet inp.
Proof.
  intros E. split.
  - intros (q & s & [Hh _] & _ & Eq).
    apply (streaming_other _) with (r := bytes_bits s) in E.
    rewrite <- bytes_bits_app, <- Eq in E. unfold wire in E.
    rewrite bytes_bits_app, header_reader_wire in E; done.
  - intros p rest [Hh _] ->. unfold wire in E.
    rewrite !bytes_bits_app, <- !app_assoc, header_reader_wire in E; done.
Qed.

(** A packet that starts with a given header has the size the header announces. *)
Lemma header_determines_size h k ext p rest : header_ok h -> wire_ok p ->
  (header_wire h ++ k) ++ ext = wire p ++ rest -> zlen (wire p) = need_bytes h.
Proof.
  intros Hh Hp E. rewrite wire_length, total_bytes_header by done. f_equal.
  destruct (header_from_bytes_wire h (k ++ ext) Hh) as [s Hs].
  destruct Hp as [Hh' _]. unfold wire in E. rewrite <- !app_assoc in E.
  destruct (header_from_bytes_wire (header_of p) (body_of p ++ rest) Hh') as [s' Hs'].
  rewrite E, Hs' in Hs. by simplify_eq.
Qed.

Lemma short_no_packet h k : header_ok h -> zlen (header_wire h ++ k) < need_bytes h ->
  no_packet (header_wire h ++ k) /\ needs (need_bytes h) (header_wire h ++ k).
Proof.
  intros Hh Hl. split.
  - intros p rest Hp E. rewrite <- (app_nil_r (header_wire h ++ k)) in E.
    pose proof E as E'. apply header_determines_size in E; [|done|done].
    apply (f_equal zlen) in E'. rewrite app_nil_r, (zlen_app (wire p)) in E'.
    pose proof (zlen_nonneg rest). lia.
  - intros ext p rest Hp E. apply header_determines_size in E; [lia|done|done].
Qed.

Lemma needs_min l : needs MIN_PACKET_HEADER_SIZE l.
Proof. intros ext p rest Hp _. by apply wire_length_pos. Qed.

Lemma to_bytes_wire p : header_ok (header_of p) -> to_bytes p = Ok (wire p).
Proof.
  intros Hp. unfold to_bytes. rewrite packet_writer_wire by done. cbn [mbind outcome_bind].
  rewrite (finish_aligned _ (length (wire p))) by apply length_bytes_bits.
  pose proof (bits_bytes_bytes_bits (wire p) []) as E. rewrite !app_nil_r in E. by rewrite E.
Qed.

Lemma packet_from_bytes_inv inp rest i p :
  from_bytes (from_reader (A:=Packet)) (inp, 0) = Ok ((rest, i), p) ->
  i = 0 /\ wire_ok p /\ inp = wire p ++ rest.
Proof.
  intros E. pose proof (zlen_nonneg inp).
  destruct (from_reader (A:=Packet) (bytes_bits inp)) as [[q r]|e|] eqn:Er.
  - apply packet_reader_inv in Er as [Hq Er]. apply bytes_bits_prefix in Er as (k & -> & _).
    rewrite packet_from_bytes_wire in E by done. by simplify_eq.
  - erewrite from_bytes_err in E; [done|lia|by rewrite drop_0].
  - by apply streaming_no_panic in Er.
Qed.

Lemma packet_from_bytes_short h k : header_ok h -> zlen (header_wire h ++ k) < need_bytes h ->
  from_bytes (from_reader (A:=Packet)) (header_wire h ++ k, 0) = Err Incomplete.
Proof.
  intros Hh Hl. pose proof (zlen_nonneg (header_wire h ++ k)).
  apply from_bytes_err; [lia|]. rewrite drop_0, packet_reader_factor, bytes_bits_app.
  unfold mbind, reader_bind. rewrite header_reader_wire by done.
  rewrite read_vec_short; [done|]. rewrite need_bytes_header, zlen_app in Hl.
  rewrite length_bytes_bits. unfold zlen in Hl. destruct Hh as [? _]. lia.
Qed.

Lemma request_id_trim_mod id : request_id_trim id = id mod u24_bound.
Proof. unfold request_id_trim. change 0x00ffffff with (Z.ones 24). by rewrite Z.land_ones. Qed.

(** * Properties *)

(** Layout: a packet whose fields fit their widths serialises, and to exactly the bytes
    of the diagram in the source: type, reserved bits and command in the first byte, the
    big-endian request id (not for a push), the time-out or status or message type, the
    24-bit body length, the body. *)
Theorem to_bytes_layout (p : Packet) (Hp : header_ok (header_of p)) :
  to_bytes p = Ok (wire p).
Proof. by apply to_bytes_wire. Qed.

(** C28. Round trip: every well-formed packet serialises, and parsing its bytes followed by
    anything returns that packet, the bytes that followed it and bit offset 0. *)
Theorem packet_roundtrip (p : Packet) (rest : list byte) (Hp : wire_ok p) :
  exists data, to_bytes p = Ok data /\ zlen data = total_bytes p /\
    from_bytes (from_reader (A:=Packet)) (data ++ rest, 0) = Ok ((rest, 0), p).
Proof.
  exists (wire p). split_and!;
    [by apply to_bytes_wire, Hp|by apply wire_length|by apply packet_from_bytes_wire].
Qed.

(** C29. Canonicity: whatever bytes parse as a packet are the serialisation of that packet
    followed by the bytes returned; the bit offset is 0 again (the cursor of the read loop
    never moves) and [total_bytes] is the number of bytes consumed. *)
Theorem packet_parse_canonical (inp rest : list byte) (i : Z) (p : Packet)
    (E : from_bytes (from_reader (A:=Packet)) (inp, 0) = Ok ((rest, i), p)) :
  i = 0 /\ wire_ok p /\ to_bytes p = Ok (wire p) /\ inp = wire p ++ rest /\
  total_bytes p = zlen inp - zlen rest.
Proof.
  apply packet_from_bytes_inv in E as (-> & Hp & ->). split_and!; try done.
  - by apply to_bytes_wire, Hp.
  - rewrite zlen_app, wire_length by done. lia.
Qed.

(** C30. The header-only parse predicts the full parse: with fewer than [need_bytes] bytes
    the packet parse is [Incomplete]; with at least that many it succeeds, on a packet with
    that header, and [total_bytes] of the packet is [need_bytes] of the header. *)
Theorem header_predicts_packet (inp : list byte) (s : list byte * Z) (h : PacketHeader)
    (E : from_bytes (from_reader (A:=PacketHeader)) (inp, 0) = Ok (s, h)) :
  (zlen inp < need_bytes h ->
     from_bytes (from_reader (A:=Packet)) (inp, 0) = Err Incomplete) /\
  (need_bytes h <= zlen inp -> exists p rest,
     from_bytes (from_reader (A:=Packet)) (inp, 0) = Ok ((rest, 0), p) /\
     header_of p = h /\ total_bytes p = need_bytes h /\ inp = wire p ++ rest).
Proof.
  destruct (head_cases inp) as [_ E'|_ E'|h' s' k E' Hh -> Hl|p rest s' E' Ep Hp ->];
    rewrite E' in E; simplify_eq.
  - split; [|lia]. intros _. by apply packet_from_bytes_short.
  - split; [|by exists p, rest; rewrite total_bytes_header].
    rewrite zlen_app, wire_length, total_bytes_header by done. pose proof (zlen_nonneg rest). lia.
Qed.

(** Width of the body length: [new_request] takes any [u32] id (it is cut to 24 bits)
    and gives a packet the wire can carry exactly when the body is shorter than 2^24. *)
Theorem new_request_wire_ok (cmd : Command) (id : Z) (body : list byte) (Hid : in_u32 id) :
  (wire_ok (new_request cmd id body) <-> zlen body < u24_bound) /\
  get_request_id (new_request cmd id body) = id mod u24_bound.
Proof.
  pose proof (zlen_nonneg body). split; [|apply request_id_trim_mod].
  unfold wire_ok, header_ok, new_request, len_u32, wrap_u32; cbn.
  rewrite request_id_trim_mod. unfold in_u24, u24_bound, u32_bound, DEFAULT_REQUEST_TIMEOUT.
  pose proof (Z.mod_pos_bound id (2 ^ 24) eq_refl). split.
  - intros [[? _] E]. lia.
  - intros Hb. rewrite (Z.mod_small (zlen body)) by lia. split_and!; lia.
Qed.

(** Replies correlate: a heartbeat reply and a reply built with [new_response_from] carry
    the request's id; the heartbeat reply echoes the body and is well formed when the
    request was. *)
Theorem replies_correlate (r : Request) (st : ResponseStatus) (body : list byte)
    (Hr : wire_ok (PRequest r)) :
  get_request_id (new_heartbeat_response r) = req_id r /\
  get_request_id (new_response_from r st body) = req_id r /\
  body_of (new_heartbeat_response r) = req_body r /\
  wire_ok (new_heartbeat_response r) /\
  (zlen body < u24_bound -> wire_ok (new_response_from r st body)).
Proof.
  destruct Hr as [[Hb (Hres & Hid & _)] Hl]. pose proof (zlen_nonneg body).
  unfold wire_ok, header_ok, new_response_from, len_u32, wrap_u32, u24_bound, u32_bound in *.
  cbn in *. split_and!; try done; try lia.
  intros ?. rewrite (Z.mod_small (zlen body)) by lia. split_and!; done || lia.
Qed.

End Stream.

(** * Witnesses *)

Definition sample_request : Packet := PRequest {| req_reserved := 0; req_command := Heartbeat_;
  req_id := 1; req_timeout := 2; req_body_len := 3; req_body := [x00; x01; x02] |}.

Lemma sample_request_ok : wire_ok sample_request.
Proof. unfold wire_ok, header_ok, in_u24, u24_bound, zlen; cbn. lia. Qed.

(** The bytes of the repository's own test ([link/tests/packets.rs]). *)
Example sample_request_bytes :
  to_bytes sample_request = Ok [x01; x00; x00; x01; x02; x00; x00; x03; x00; x01; x02].
Proof. reflexivity. Qed.

Lemma to_bytes_layout_witness : to_bytes sample_request = Ok (wire sample_request).
Proof. apply (to_bytes_layout sample_request), sample_request_ok. Defined.

Lemma packet_roundtrip_witness : exists data, to_bytes sample_request = Ok data /\
  zlen data = total_bytes sample_request /\
  from_bytes (from_reader (A:=Packet)) (data ++ [x10; x11; x12], 0) =
    Ok (([x10; x11; x12], 0), sample_request).
Proof. apply (packet_roundtrip sample_request [x10; x11; x12]), sample_request_ok. Defined.

Lemma packet_parse_canonical_witness :
  total_bytes sample_request =
    zlen [x01; x00; x00; x01; x02; x00; x00; x03; x00; x01; x02; x10] - zlen [x10].
Proof.
  apply (packet_parse_canonical
    [x01; x00; x00; x01; x02; x00; x00; x03; x00; x01; x02; x10] [x10] 0 sample_request).
  vm_compute. reflexivity.
Defined.

Lemma header_predicts_packet_witness :
  from_bytes (from_reader (A:=Packet)) ([x01; x00; x00; x01; x02; x00; x00; x03; x00], 0) =
    Err Incomplete.
Proof.
  refine (proj1 (header_predicts_packet _ ([x00], 0) (header_of sample_request) _) _);
    vm_compute; reflexivity.
Defined.

Lemma new_request_wire_ok_witness : wire_ok (new_request Close (2 ^ 32 - 1) [x00]).
Proof. apply (new_request_wire_ok Close (2 ^ 32 - 1) [x00]);
  [vm_compute; split; [discriminate|reflexivity]|vm_compute; reflexivity]. Defined.

Lemma replies_correlate_witness :
  wire_ok (new_heartbeat_response {| req_reserved := 0; req_command := Heartbeat_;
    req_id := 1; req_timeout := 2; req_body_len := 3; req_body := [x00; x01; x02] |}).
Proof. apply (replies_correlate _ Success []), sample_request_ok. Defined.
