(* ===== verification/Config.v ===== *)
(** [link/src/config.rs]: the configuration records, their defaults, what deserialising a
    section with missing fields gives, and the translation into quiche's configuration;
    and [Transport::from_client_config], [from_server_config] ([transport/transport.rs]). *)

From Stdlib Require Import ZArith Lia Strings.Byte.
From stdpp Require Import base list strings.
From S2P Require Import Prelude Packets Wire.

(** A [Duration], in nanoseconds. *)
Definition duration : Type := Z.
Definition from_millis (n : Z) : duration := n * 1000000.
Definition from_secs (n : Z) : duration := n * 1000000000.

Definition DEFAULT_MAX_PACKET_SIZE : Z := Z.shiftl 1 23 + 8.
Definition DEFAULT_MAX_STREAM_WINDOW : Z := 64 * Z.shiftl 1 20.
Definition DEFAULT_MAX_CONNECTION_WINDOW : Z := 64 * Z.shiftl 1 20.
Definition DEFAULT_MAX_IDLE_TIMEOUT : Z := 10000.
Definition DEFAULT_MAX_DATA_BUF_SIZE : Z := 64 * Z.shiftl 1 20.
Definition DEFAULT_MAX_STREAM_CONN : Z := 100.
Definition DEFAULT_MAX_UDP_PACKET_SIZE : Z := Z.shiftl 1 16 - 1.
Definition DEFAULT_ACTIVE_CONNECTION_ID_LIMIT : Z := 8.
Definition DEFAULT_MAX_ACK_DELAY : Z := 25.
Definition DEFAULT_MAX_SEND_UDP_PAYLOAD_SIZE : Z := 1200.

(** * The records *)

Record HealthyConfig : Type := {
  heartbeat_interval : duration;
  heartbeat_timeout : duration;
  auth_timeout : duration;
  conf_retry_times : Z;
  retry_interval : duration
}.

Record BackupConfig : Type := { backup_addr : string; failover_threshold : Z }.

Record Subscribe : Type := { sub_cmd : Command; sub_all : bool; sub_span_index : Z }.

Inductive MultiAddrMode : Type := OnlyOne | ColdBackup | HotBackup.

Record QuicheConfig : Type := {
  application_protos : option (list string);
  enable_pacing : option bool;
  discover_pmtu : option bool;
  enable_early_data : option bool;
  verify_peer : option bool;
  disable_active_migration : option bool;
  max_stream_window : option Z;
  max_connection_window : option Z;
  max_idle_timeout : option Z;
  max_recv_udp_payload_size : option Z;
  max_send_udp_payload_size : option Z;
  initial_max_data : option Z;
  initial_max_stream_data_uni : option Z;
  initial_max_stream_data_bidi_local : option Z;
  initial_max_stream_data_bidi_remote : option Z;
  initial_max_streams_bidi : option Z;
  initial_max_streams_uni : option Z;
  active_connection_id_limit : option Z;
  max_ack_delay : option Z
}.

Record BufferConfig : Type := {
  max_udp_read_size : Z;
  max_udp_write_size : Z;
  max_stream_read_size : Z;
  max_stream_send_size : Z;
  peer_conn_init_size : Z
}.

Record ChannelConfig : Type := {
  recv_chan_size : Z;
  send_chan_size : Z;
  signal_chan_size : Z;
  process_chan_size : Z
}.

Record TimeoutConfig : Type := {
  timeout_request : duration;
  timeout_response : duration;
  idle_interval : duration;
  handshake_timeout : duration
}.

Record LinkClientConfig : Type := {
  addr : string;
  username : string;
  conf_password : string;
  conf_client_name : string;
  subscribes : list Subscribe;
  backup_config : option BackupConfig;
  healthy_config : HealthyConfig;
  channel_config : ChannelConfig;
  buffer_config : BufferConfig;
  quiche_config : QuicheConfig;
  timeout_config : TimeoutConfig
}.

Record LinkServerConfig : Type := {
  listen_addr : string;
  srv_healthy_config : HealthyConfig;
  srv_channel_config : ChannelConfig;
  srv_buffer_config : BufferConfig;
  srv_quiche_config : QuicheConfig;
  srv_timeout_config : TimeoutConfig
}.

(** * Defaults *)

Definition default_failover_threshold : Z := 3.
Definition MultiAddrMode_default : MultiAddrMode := OnlyOne.

(** [pod_name]: the variable [POD_NAME] of the environment, if set. *)
Definition pod_name (env : option string) : string := default "" env.

Definition default_heartbeat_interval : duration := from_millis 500.
Definition default_heartbeat_timeout : duration := from_secs 3.
Definition default_auth_timeout : duration := from_secs 10.
Definition default_retry_interval : duration := from_secs 3.

Definition HealthyConfig_default : HealthyConfig :=
  {| heartbeat_interval := default_heartbeat_interval;
     heartbeat_timeout := default_heartbeat_timeout; auth_timeout := default_auth_timeout;
     conf_retry_times := 0; retry_interval := default_retry_interval |}.

Definition QuicheConfig_default : QuicheConfig :=
  {| application_protos := Some ["quic-echo-example"];
     enable_pacing := Some true;
     discover_pmtu := Some false;
     enable_early_data := Some false;
     verify_peer := Some false;
     disable_active_migration := Some true;
     max_stream_window := Some DEFAULT_MAX_STREAM_WINDOW;
     max_connection_window := Some DEFAULT_MAX_CONNECTION_WINDOW;
     max_idle_timeout := Some DEFAULT_MAX_IDLE_TIMEOUT;
     max_recv_udp_payload_size := Some DEFAULT_MAX_UDP_PACKET_SIZE;
     max_send_udp_payload_size := Some DEFAULT_MAX_SEND_UDP_PAYLOAD_SIZE;
     initial_max_data := Some DEFAULT_MAX_DATA_BUF_SIZE;
     initial_max_stream_data_uni := Some DEFAULT_MAX_DATA_BUF_SIZE;
     initial_max_stream_data_bidi_local := Some DEFAULT_MAX_DATA_BUF_SIZE;
     initial_max_stream_data_bidi_remote := Some DEFAULT_MAX_DATA_BUF_SIZE;
     initial_max_streams_bidi := Some DEFAULT_MAX_STREAM_CONN;
     initial_max_streams_uni := Some DEFAULT_MAX_STREAM_CONN;
     active_connection_id_limit := Some DEFAULT_ACTIVE_CONNECTION_ID_LIMIT;
     max_ack_delay := Some DEFAULT_MAX_ACK_DELAY |}.

Definition default_max_udp_read_size : Z := DEFAULT_MAX_UDP_PACKET_SIZE.
Definition default_max_udp_write_size : Z := DEFAULT_MAX_UDP_PACKET_SIZE.
Definition default_max_stream_read_size : Z := DEFAULT_MAX_PACKET_SIZE.
Definition default_max_stream_send_size : Z := DEFAULT_MAX_PACKET_SIZE.
Definition default_peer_conn_init_size : Z := 64.

Definition BufferConfig_default : BufferConfig :=
  {| max_udp_read_size := default_max_udp_read_size;
     max_udp_write_size := default_max_udp_write_size;
     max_stream_read_size := default_max_stream_read_size;
     max_stream_send_size := default_max_stream_send_size;
     peer_conn_init_size := default_peer_conn_init_size |}.

Definition default_recv_chan_size : Z := 8192.
Definition default_send_chan_size : Z := 8192.
Definition default_signal_chan_size : Z := 1024.
Definition default_process_chan_size : Z := 8192.

Definition ChannelConfig_default : ChannelConfig :=
  {| recv_chan_size := default_recv_chan_size; send_chan_size := default_send_chan_size;
     signal_chan_size := default_signal_chan_size;
     process_chan_size := default_process_chan_size |}.

Definition default_request_timeout : duration := from_secs 3.
Definition default_response_timeout : duration := from_secs 5.
Definition default_idle_interval : duration := from_millis DEFAULT_MAX_IDLE_TIMEOUT.
Definition default_handshake_timeout : duration := from_secs 3.

Definition TimeoutConfig_default : TimeoutConfig :=
  {| timeout_request := default_request_timeout; timeout_response := default_response_timeout;
     idle_interval := default_idle_interval;
     handshake_timeout := default_handshake_timeout |}.

(** * Deserialising a section

    [serde] gives a missing field its [default] function, a missing [Option] field [None],
    and a missing section its [Default::default()]. The YAML reader itself is a library: a
    section is the fields it found. *)

Record HealthyFields : Type := {
  f_heartbeat_interval : option duration;
  f_heartbeat_timeout : option duration;
  f_auth_timeout : option duration;
  f_retry_times : option Z;
  f_retry_interval : option duration
}.

Definition HealthyConfig_de (f : HealthyFields) : HealthyConfig :=
  {| heartbeat_interval := default default_heartbeat_interval (f_heartbeat_interval f);
     heartbeat_timeout := default default_heartbeat_timeout (f_heartbeat_timeout f);
     auth_timeout := default default_auth_timeout (f_auth_timeout f);
     conf_retry_times := default 0 (f_retry_times f);
     retry_interval := default default_retry_interval (f_retry_interval f) |}.

Record BufferFields : Type := {
  f_max_udp_read_size : option Z;
  f_max_udp_write_size : option Z;
  f_max_stream_read_size : option Z;
  f_max_stream_send_size : option Z;
  f_peer_conn_init_size : option Z
}.

Definition BufferConfig_de (f : BufferFields) : BufferConfig :=
  {| max_udp_read_size := default default_max_udp_read_size (f_max_udp_read_size f);
     max_udp_write_size := default default_max_udp_write_size (f_max_udp_write_size f);
     max_stream_read_size := default default_max_stream_read_size (f_max_stream_read_size f);
     max_stream_send_size := default default_max_stream_send_size (f_max_stream_send_size f);
     peer_conn_init_size := default default_peer_conn_init_size (f_peer_conn_init_size f) |}.

Record ChannelFields : Type := {
  f_recv_chan_size : option Z;
  f_send_chan_size : option Z;
  f_signal_chan_size : option Z;
  f_process_chan_size : option Z
}.

Definition ChannelConfig_de (f : ChannelFields) : ChannelConfig :=
  {| recv_chan_size := default default_recv_chan_size (f_recv_chan_size f);
     send_chan_size := default default_send_chan_size (f_send_chan_size f);
     signal_chan_size := default default_signal_chan_size (f_signal_chan_size f);
     process_chan_size := default default_process_chan_size (f_process_chan_size f) |}.

Record TimeoutFields : Type := {
  f_request : option duration;
  f_response : option duration;
  f_idle_interval : option duration;
  f_handshake_timeout : option duration
}.

Definition TimeoutConfig_de (f : TimeoutFields) : TimeoutConfig :=
  {| timeout_request := default default_request_timeout (f_request f);
     timeout_response := default default_response_timeout (f_response f);
     idle_interval := default default_idle_interval (f_idle_interval f);
     handshake_timeout := default default_handshake_timeout (f_handshake_timeout f) |}.

(** The fields of [QuicheConfig] are options without a default. *)
Definition QuicheConfig_de (f : QuicheConfig) : QuicheConfig := f.

Definition BackupConfig_de (addr : string) (f_failover_threshold : option Z) : BackupConfig :=
  {| backup_addr := addr;
     failover_threshold := default default_failover_threshold f_failover_threshold |}.

Definition Subscribe_de (cmd : Command) (f_sub_all : option bool) (f_span_index : option Z)
    : Subscribe :=
  {| sub_cmd := cmd; sub_all := default false f_sub_all;
     sub_span_index := default 0 f_span_index |}.

(** [#[serde(default)]] on a section. *)
Definition section {F A} (de : F -> A) (dflt : A) (f : option F) : A :=
  match f with Some f => de f | None => dflt end.

Definition no_healthy : HealthyFields := Build_HealthyFields None None None None None.
Definition no_buffer : BufferFields := Build_BufferFields None None None None None.
Definition no_channel : ChannelFields := Build_ChannelFields None None None None.
Definition no_timeout : TimeoutFields := Build_TimeoutFields None None None None.
Definition no_quiche : QuicheConfig :=
  Build_QuicheConfig None None None None None None None None None None None None None None
    None None None None None.

(** * quiche's configuration

    The library's configuration value is a parameter with its setters. *)

Inductive quiche_setting : Type :=
| EnablePacing (v : bool)
| VerifyPeer (v : bool)
| SetDisableActiveMigration (v : bool)
| SetMaxStreamWindow (v : Z)
| SetMaxConnectionWindow (v : Z)
| SetMaxIdleTimeout (v : Z)
| SetMaxRecvUdpPayloadSize (v : Z)
| SetMaxSendUdpPayloadSize (v : Z)
| SetInitialMaxData (v : Z)
| SetInitialMaxStreamDataUni (v : Z)
| SetInitialMaxStreamDataBidiLocal (v : Z)
| SetInitialMaxStreamDataBidiRemote (v : Z)
| SetInitialMaxStreamsBidi (v : Z)
| SetInitialMaxStreamsUni (v : Z)
| SetActiveConnectionIdLimit (v : Z)
| SetMaxAckDelay (v : Z).

Class QuicheCfg (K : Type) := {
  (** [with_boring_ssl_ctx_builder] on the link's TLS context *)
  cfg_new : option K;
  cfg_set_application_protos : list (list byte) -> K -> option K;
  cfg_set : quiche_setting -> K -> K
}.

Section Quiche.
Context {K : Type} `{QuicheCfg K}.

Definition unwrap {A} (o : option A) : outcome unit A :=
  match o with Some a => Ok a | None => Panic end.

Definition set_if_some {A} (v : option A) (setter : A -> quiche_setting) (cfg : K) : K :=
  match v with Some v => cfg_set (setter v) cfg | None => cfg end.

Definition quiche_Config_from (config : QuicheConfig) : outcome unit K :=
  cfg ← unwrap cfg_new;
  cfg ← match application_protos config with
        | Some protos =>
            unwrap (cfg_set_application_protos (map String.list_byte_of_string protos) cfg)
        | None => Ok cfg
        end;
  let cfg := set_if_some (enable_pacing config) EnablePacing cfg in
  let cfg := set_if_some (verify_peer config) VerifyPeer cfg in
  let cfg := set_if_some (disable_active_migration config) SetDisableActiveMigration cfg in
  let cfg := set_if_some (max_stream_window config) SetMaxStreamWindow cfg in
  let cfg := set_if_some (max_connection_window config) SetMaxConnectionWindow cfg in
  let cfg := set_if_some (max_idle_timeout config) SetMaxIdleTimeout cfg in
  let cfg := set_if_some (max_recv_udp_payload_size config) SetMaxRecvUdpPayloadSize cfg in
  let cfg := set_if_some (max_send_udp_payload_size config) SetMaxSendUdpPayloadSize cfg in
  let cfg := set_if_some (initial_max_data config) SetInitialMaxData cfg in
  let cfg := set_if_some (initial_max_stream_data_uni config) SetInitialMaxStreamDataUni cfg in
  let cfg := set_if_some (initial_max_stream_data_bidi_local config)
    SetInitialMaxStreamDataBidiLocal cfg in
  let cfg := set_if_some (initial_max_stream_data_bidi_remote config)
    SetInitialMaxStreamDataBidiRemote cfg in
  let cfg := set_if_some (initial_max_streams_bidi config) SetInitialMaxStreamsBidi cfg in
  let cfg := set_if_some (initial_max_streams_uni config) SetInitialMaxStreamsUni cfg in
  let cfg := set_if_some (active_connection_id_limit config) SetActiveConnectionIdLimit cfg in
  let cfg := set_if_some (max_ack_delay config) SetMaxAckDelay cfg in
  Ok cfg.

Definition recommend_quiche_config (protos : list (list byte)) : outcome unit K :=
  cfg ← quiche_Config_from QuicheConfig_default;
  unwrap (cfg_set_application_protos protos cfg).

Definition link_recommend_quiche_config : outcome unit K :=
  recommend_quiche_config [String.list_byte_of_string "quic-echo-example"].

End Quiche.

(** * Reading a configuration

    The file system and the YAML parser are arguments. *)

Inductive config_error : Type :=
| ReadFileFailed
| YamlFailed (content : string).

Definition read_from_filepath {T} (read_to_string : string -> option string)
    (from_str : string -> option T) (path : string) : outcome config_error T :=
  match read_to_string path with
  | Some content =>
      match from_str content with Some a => Ok a | None => Err (YamlFailed content) end
  | None => Err ReadFileFailed
  end.

(** * [Transport] *)

Record Transport : Type := {
  tr_buffer_config : BufferConfig;
  tr_channel_config : ChannelConfig;
  tr_quiche_config : QuicheConfig;
  tr_timeout_config : TimeoutConfig
}.

Definition from_client_config (cfg : LinkClientConfig) : Transport :=
  {| tr_buffer_config := buffer_config cfg; tr_channel_config := channel_config cfg;
     tr_quiche_config := quiche_config cfg; tr_timeout_config := timeout_config cfg |}.

Definition from_server_config (cfg : LinkServerConfig) : Transport :=
  {| tr_buffer_config := srv_buffer_config cfg; tr_channel_config := srv_channel_config cfg;
     tr_quiche_config := srv_quiche_config cfg; tr_timeout_config := srv_timeout_config cfg |}.

(** * A configuration that records its setters *)

Record recorder : Type := {
  rec_protos : option (list (list byte));
  rec_settings : list quiche_setting
}.

#[export] Instance recorder_cfg : QuicheCfg recorder := {|
  cfg_new := Some {| rec_protos := None; rec_settings := [] |};
  cfg_set_application_protos ps k :=
    Some {| rec_protos := Some ps; rec_settings := rec_settings k |};
  cfg_set s k := {| rec_protos := rec_protos k; rec_settings := rec_settings k ++ [s] |}
|}.

Definition opt_setting {A} (f : A -> quiche_setting) (v : option A) : list quiche_setting :=
  match v with Some v => [f v] | None => [] end.

Definition settings_of (c : QuicheConfig) : list quiche_setting :=
  opt_setting EnablePacing (enable_pacing c) ++ opt_setting VerifyPeer (verify_peer c) ++
  opt_setting SetDisableActiveMigration (disable_active_migration c) ++
  opt_setting SetMaxStreamWindow (max_stream_window c) ++
  opt_setting SetMaxConnectionWindow (max_connection_window c) ++
  opt_setting SetMaxIdleTimeout (max_idle_timeout c) ++
  opt_setting SetMaxRecvUdpPayloadSize (max_recv_udp_payload_size c) ++
  opt_setting SetMaxSendUdpPayloadSize (max_send_udp_payload_size c) ++
  opt_setting SetInitialMaxData (initial_max_data c) ++
  opt_setting SetInitialMaxStreamDataUni (initial_max_stream_data_uni c) ++
  opt_setting SetInitialMaxStreamDataBidiLocal (initial_max_stream_data_bidi_local c) ++
  opt_setting SetInitialMaxStreamDataBidiRemote (initial_max_stream_data_bidi_remote c) ++
  opt_setting SetInitialMaxStreamsBidi (initial_max_streams_bidi c) ++
  opt_setting SetInitialMaxStreamsUni (initial_max_streams_uni c) ++
  opt_setting SetActiveConnectionIdLimit (active_connection_id_limit c) ++
  opt_setting SetMaxAckDelay (max_ack_delay c).

Lemma set_if_some_recorder {A} (v : option A) f ps l :
  set_if_some v f {| rec_protos := ps; rec_settings := l |} =
    {| rec_protos := ps; rec_settings := l ++ opt_setting f v |}.
Proof. destruct v; cbn; [done|]. by rewrite app_nil_r. Qed.

Lemma quiche_recorded c : quiche_Config_from c =
  Ok {| rec_protos := map String.list_byte_of_string <$> application_protos c;
        rec_settings := settings_of c |}.
Proof.
  unfold quiche_Config_from. cbn [unwrap cfg_new recorder_cfg mbind outcome_bind].
  destruct (application_protos c) as [ps|]; cbn [unwrap cfg_set_application_protos recorder_cfg
    mbind outcome_bind option_fmap option_map fmap]; cbv zeta;
    rewrite !set_if_some_recorder; unfold settings_of; by rewrite <- !app_assoc.
Qed.

Lemma list_byte_of_string_inj : Inj (=) (=) String.list_byte_of_string.
Proof.
  intros x y E. rewrite <- (String.string_of_list_byte_of_string x), E.
  apply String.string_of_list_byte_of_string.
Qed.

Lemma map_inj {A B} (f : A -> B) : Inj (=) (=) f -> Inj (=) (=) (map f).
Proof.
  intros Hf l. induction l as [|x l IH]; intros [|y k]; cbn; try done.
  intros [= ->%Hf E%IH]. by subst.
Qed.

Lemma option_fmap_inj {A B} (f : A -> B) (x y : option A) : f <$> x = f <$> y ->
  Inj (=) (=) f -> x = y.
Proof. destruct x, y; cbn; try done. by intros [= E] Hf; apply Hf in E as ->. Qed.

(** The value a field has in a list of settings. *)
Definition picked {A} (g : quiche_setting -> option A) (l : list quiche_setting) : list A :=
  omap g l.

Lemma picked_opt {A B} (g : quiche_setting -> option B) (f : A -> quiche_setting) v :
  picked g (opt_setting f v) = match v with Some a => option_list (g (f a)) | None => [] end.
Proof. destruct v as [a|]; [|done]. cbn. by destruct (g (f a)). Qed.

Lemma picked_app {B} (g : quiche_setting -> option B) l k :
  picked g (l ++ k) = picked g l ++ picked g k.
Proof. apply omap_app. Qed.

Lemma opt_none {A B} (v : option A) : match v with Some _ => @nil B | None => [] end = [].
Proof. by destruct v. Qed.

Lemma opt_list_inj {A} (v w : option A) :
  match v with Some a => [a] | None => [] end = match w with Some a => [a] | None => [] end ->
  v = w.
Proof. destruct v, w; congruence. Qed.

(** Reads one field off two equal lists of settings. *)
Ltac read_field H g :=
  let E := fresh in
  assert (E := f_equal (picked g) H); unfold settings_of in E; rewrite !picked_app, !picked_opt in E;
  cbn [option_list] in E; rewrite !opt_none in E; cbn [app] in E; rewrite ?app_nil_r in E;
  apply opt_list_inj in E.

(** The translation into quiche's configuration applies every field except two: it does
    not depend on [discover_pmtu] and [enable_early_data], whatever quiche's setters do, and
    a configuration that records its setters determines every other field. *)
Theorem quiche_config_conversion :
  (forall K (Q : QuicheCfg K) (c : QuicheConfig) (d e : option bool),
    quiche_Config_from (K := K) {| application_protos := application_protos c;
      enable_pacing := enable_pacing c; discover_pmtu := d; enable_early_data := e;
      verify_peer := verify_peer c; disable_active_migration := disable_active_migration c;
      max_stream_window := max_stream_window c;
      max_connection_window := max_connection_window c; max_idle_timeout := max_idle_timeout c;
      max_recv_udp_payload_size := max_recv_udp_payload_size c;
      max_send_udp_payload_size := max_send_udp_payload_size c;
      initial_max_data := initial_max_data c;
      initial_max_stream_data_uni := initial_max_stream_data_uni c;
      initial_max_stream_data_bidi_local := initial_max_stream_data_bidi_local c;
      initial_max_stream_data_bidi_remote := initial_max_stream_data_bidi_remote c;
      initial_max_streams_bidi := initial_max_streams_bidi c;
      initial_max_streams_uni := initial_max_streams_uni c;
      active_connection_id_limit := active_connection_id_limit c;
      max_ack_delay := max_ack_delay c |} = quiche_Config_from c) /\
  (forall c c' : QuicheConfig, discover_pmtu c = discover_pmtu c' ->
    enable_early_data c = enable_early_data c' ->
    quiche_Config_from (K := recorder) c = quiche_Config_from c' -> c = c').
Proof.
  split; [done|]. intros c c' Hd He E. rewrite !quiche_recorded in E.
  assert (map String.list_byte_of_string <$> application_protos c =
    map String.list_byte_of_string <$> application_protos c') as Hp by congruence.
  assert (settings_of c = settings_of c') as H by congruence. clear E.
  apply option_fmap_inj in Hp; [|apply map_inj, list_byte_of_string_inj].
  read_field H (fun s => match s with EnablePacing v => Some v | _ => None end).
  read_field H (fun s => match s with VerifyPeer v => Some v | _ => None end).
  read_field H (fun s => match s with SetDisableActiveMigration v => Some v | _ => None end).
  read_field H (fun s => match s with SetMaxStreamWindow v => Some v | _ => None end).
  read_field H (fun s => match s with SetMaxConnectionWindow v => Some v | _ => None end).
  read_field H (fun s => match s with SetMaxIdleTimeout v => Some v | _ => None end).
  read_field H (fun s => match s with SetMaxRecvUdpPayloadSize v => Some v | _ => None end).
  read_field H (fun s => match s with SetMaxSendUdpPayloadSize v => Some v | _ => None end).
  read_field H (fun s => match s with SetInitialMaxData v => Some v | _ => None end).
  read_field H (fun s => match s with SetInitialMaxStreamDataUni v => Some v | _ => None end).
  read_field H (fun s =>
    match s with SetInitialMaxStreamDataBidiLocal v => Some v | _ => None end).
  read_field H (fun s =>
    match s with SetInitialMaxStreamDataBidiRemote v => Some v | _ => None end).
  read_field H (fun s => match s with SetInitialMaxStreamsBidi v => Some v | _ => None end).
  read_field H (fun s => match s with SetInitialMaxStreamsUni v => Some v | _ => None end).
  read_field H (fun s => match s with SetActiveConnectionIdLimit v => Some v | _ => None end).
  read_field H (fun s => match s with SetMaxAckDelay v => Some v | _ => None end).
  clear H. destruct c, c'. cbn in *. by subst.
Qed.

(** Missing fields and missing sections agree for the sections whose fields have default
    functions: an empty section reads as its [Default]. The quiche section is the
    exception: missing it keeps every default, but a section that sets a single field
    (here the idle time-out) reads as that field and nothing else, so that the stream
    windows, the flow-control limits and the protocol list fall back to quiche's own. *)
Theorem missing_sections :
  section HealthyConfig_de HealthyConfig_default (Some no_healthy) = HealthyConfig_default /\
  section BufferConfig_de BufferConfig_default (Some no_buffer) = BufferConfig_default /\
  section ChannelConfig_de ChannelConfig_default (Some no_channel) = ChannelConfig_default /\
  section TimeoutConfig_de TimeoutConfig_default (Some no_timeout) = TimeoutConfig_default /\
  (forall t, let f := Build_QuicheConfig None None None None None None None None (Some t) None
      None None None None None None None None None in
    quiche_Config_from (section QuicheConfig_de QuicheConfig_default (Some f)) =
      Ok {| rec_protos := None; rec_settings := [SetMaxIdleTimeout t] |}) /\
  (forall k, quiche_Config_from (K := recorder)
      (section QuicheConfig_de QuicheConfig_default None) = Ok k ->
    length (rec_settings k) = 16%nat).
Proof. split_and!; try reflexivity. intros k [= <-]. reflexivity. Qed.

(** The largest push of the protocol. *)
Definition largest_push : Packet :=
  PPush {| push_reserved := 0; push_command := CmdSubAllType; push_msg_type := MtDepths;
           push_body_len := u24_bound - 1;
           push_body := replicate (Z.to_nat (u24_bound - 1)) x00 |}.

Lemma largest_push_ok : wire_ok largest_push.
Proof.
  unfold wire_ok, header_ok, largest_push, header_of, header_body_len, body_of, psh_body_len,
    psh_reserved, push_body_len, push_reserved, push_body, zlen.
  rewrite length_replicate, Z2Nat.id; unfold u24_bound; lia.
Qed.

(** The default read buffer and the protocol's limits: a request or response that fits
    the wire fits the default read buffer exactly when its body has at most 2^23 bytes, half
    of what the length field allows, and so for pushes up to three bytes more; the largest
    packets of the protocol exist and do not fit. *)
Theorem default_read_buffer_limit (p : Packet) (Hp : wire_ok p) :
  (total_bytes p <= max_stream_read_size BufferConfig_default <->
   zlen (body_of p) <= 2 ^ 23 + match p with PPush _ => 3 | _ => 0 end) /\
  (exists q, wire_ok q /\ max_stream_read_size BufferConfig_default < total_bytes q).
Proof.
  assert (max_stream_read_size BufferConfig_default = 2 ^ 23 + 8) as -> by reflexivity. split.
  - destruct Hp as [_ Hl]. destruct p; cbn in *;
      unfold REQUEST_HEADER_SIZE, RESPONSE_HEADER_SIZE, PUSH_HEADER_SIZE; lia.
  - exists (largest_push). split; [apply largest_push_ok|].
    unfold largest_push, total_bytes, push_body_len, PUSH_HEADER_SIZE, u24_bound. lia.
Qed.

Lemma default_read_buffer_limit_witness :
  let p := new_request Close 7 [x01] in
  (total_bytes p <= max_stream_read_size BufferConfig_default <->
   zlen (body_of p) <= 2 ^ 23 + match p with PPush _ => 3 | _ => 0 end) /\
  (exists q, wire_ok q /\ max_stream_read_size BufferConfig_default < total_bytes q).
Proof.
  apply (default_read_buffer_limit (new_request Close 7 [x01])).
  unfold wire_ok, header_ok; concrete.
Defined.
