(* ===== verification/Tls.v ===== *)
(** [link/src/tls_utils.rs]: the self-signed certificate and the TLS context of a QUIC
    configuration. The BoringSSL binding is an interface: each of its calls may fail; what
    the code tells it is recorded in the certificate and in the context. *)

From Stdlib Require Import ZArith Lia Strings.Byte.
From stdpp Require Import base list strings sets.
From S2P Require Import Prelude Config.

Inductive digest : Type := Sha256.
Inductive tls_version : Type := TLS1_2 | TLS1_3.
Inductive verify_mode : Type := VerifyPeerCert | VerifyNone.

Inductive extension : Type :=
| BasicConstraints (critical ca : bool)
| KeyUsage (critical digital_signature key_encipherment : bool)
| ExtendedKeyUsage (server_auth : bool)
| SubjectKeyIdentifier.

(** The fallible calls. *)
Inductive tls_call : Type :=
| RsaGenerate (bits : Z) | PKeyFromRsa
| X509NameBuilderNew | AppendEntryByText (field value : string)
| X509Builder | SetVersion (version : Z)
| BigNumNew | BigNumRand (bits : Z) (odd : bool) | ToAsn1Integer | SetSerialNumber
| SetSubjectName | SetIssuerName | SetPubkey
| DaysFromNow (days : Z) | SetNotBefore | SetNotAfter
| BuildExtension (e : extension) | AppendExtension (e : extension)
| SignCert (d : digest)
| SslContextBuilderNew | SetMinProtoVersion (v : tls_version) | SetMaxProtoVersion (v : tls_version)
| SetCertificate | SetPrivateKey | CheckPrivateKey | SetAlpnProtos (protos : list byte).

(** The library: its state, and the key pair [generate] makes. *)
Class Boring (B K : Type) := {
  tls_do : tls_call -> B -> B * bool;
  key_of : B -> K
}.

Record certificate (K : Type) : Type := {
  cert_version : Z;
  serial_bits : Z;
  subject_name : list (string * string);
  issuer_name : list (string * string);
  pubkey : K;
  not_before : Z;
  not_after : Z;
  extensions : list extension;
  signed_by : K * digest
}.
Arguments cert_version {K}.
Arguments serial_bits {K}.
Arguments subject_name {K}.
Arguments issuer_name {K}.
Arguments pubkey {K}.
Arguments not_before {K}.
Arguments not_after {K}.
Arguments extensions {K}.
Arguments signed_by {K}.

Record ssl_context (K : Type) : Type := {
  min_proto : tls_version;
  max_proto : tls_version;
  ctx_cert : certificate K;
  ctx_key : K;
  ctx_verify : verify_mode;
  alpn : list byte
}.
Arguments min_proto {K}.
Arguments max_proto {K}.
Arguments ctx_cert {K}.
Arguments ctx_key {K}.
Arguments ctx_verify {K}.
Arguments alpn {K}.

Section Tls.
Context {B K : Type} `{Boring B K}.

Abbreviation TM := (SM B tls_call).

(** A call of the library, with [?]. *)
Definition boring (c : tls_call) : TM unit := fun b =>
  let '(b, ok) := tls_do c b in (b, if ok : bool then Ok tt else Err c).

Definition append_entries : list (string * string) -> TM unit :=
  sfor (fun e => boring (AppendEntryByText e.1 e.2)).

Definition append_extension (e : extension) : TM unit :=
  boring (BuildExtension e) ≫= fun _ => boring (AppendExtension e).

Definition x509_name : list (string * string) :=
  [("C", "CN"); ("ST", "TX"); ("O", "Longbridge organization"); ("CN", "quote-link-server.rs")]%string.

Definition mk_ca_cert : TM (certificate K * K) :=
  boring (RsaGenerate 2048) ≫= fun _ =>
  boring PKeyFromRsa ≫= fun _ =>
  privkey ← sget key_of;
  boring X509NameBuilderNew ≫= fun _ =>
  append_entries x509_name ≫= fun _ =>
  boring X509Builder ≫= fun _ =>
  boring (SetVersion 2) ≫= fun _ =>
  boring BigNumNew ≫= fun _ =>
  boring (BigNumRand 159 false) ≫= fun _ =>
  boring ToAsn1Integer ≫= fun _ =>
  boring SetSerialNumber ≫= fun _ =>
  boring SetSubjectName ≫= fun _ =>
  boring SetIssuerName ≫= fun _ =>
  boring SetPubkey ≫= fun _ =>
  boring (DaysFromNow 0) ≫= fun _ =>
  boring SetNotBefore ≫= fun _ =>
  boring (DaysFromNow 365) ≫= fun _ =>
  boring SetNotAfter ≫= fun _ =>
  let extensions := [BasicConstraints true false; KeyUsage true true true; ExtendedKeyUsage true;
                     SubjectKeyIdentifier] in
  sfor append_extension extensions ≫= fun _ =>
  boring (SignCert Sha256) ≫= fun _ =>
  mret ({| cert_version := 2; serial_bits := 159; subject_name := x509_name;
           issuer_name := x509_name; pubkey := privkey; not_before := 0; not_after := 365;
           extensions := extensions; signed_by := (privkey, Sha256) |}, privkey).

(** [b"\x11quic-echo-example"] *)
Definition alpn_protos : list byte := x11 :: String.list_byte_of_string "quic-echo-example".

Definition new_tls_context_builder : TM (ssl_context K) :=
  boring SslContextBuilderNew ≫= fun _ =>
  boring (SetMinProtoVersion TLS1_3) ≫= fun _ =>
  boring (SetMaxProtoVersion TLS1_3) ≫= fun _ =>
  ck ← mk_ca_cert;
  boring SetCertificate ≫= fun _ =>
  boring SetPrivateKey ≫= fun _ =>
  boring CheckPrivateKey ≫= fun _ =>
  boring (SetAlpnProtos alpn_protos) ≫= fun _ =>
  mret {| min_proto := TLS1_3; max_proto := TLS1_3; ctx_cert := ck.1; ctx_key := ck.2;
          ctx_verify := VerifyNone; alpn := alpn_protos |}.

End Tls.

(** The list of protocols in the form TLS sends it: each after its length in a byte. *)
Fixpoint alpn_wire (protos : list (list byte)) : list byte :=
  match protos with
  | [] => []
  | p :: protos => be_bytes 1 (zlen p) ++ p ++ alpn_wire protos
  end.

(** * What the context is *)

Section Facts.
Context {B K : Type} `{Boring B K}.

(** A computation that can only go on while every call succeeds. *)
Definition yields {A} (m : SM B tls_call A) (P : A -> Prop) : Prop := forall b,
  match (m b).2 with Ok a => P a | Err c => exists b0, (tls_do c b0).2 = false | Panic => False end.

Lemma yields_bind {A C} (m : SM B tls_call A) (f : A -> SM B tls_call C) P Q :
  yields m P -> (forall a, P a -> yields (f a) Q) -> yields (m ≫= f) Q.
Proof.
  intros Hm Hf b. specialize (Hm b). unfold mbind, SM_bind.
  destruct (m b) as [b1 [a|c|]]; cbn in *; [by apply Hf|done..].
Qed.

Lemma yields_boring c : yields (boring c) (fun _ => True).
Proof.
  intros b. unfold boring. destruct (tls_do c b) as [b1 []] eqn:E; cbn; [done|]. exists b. by rewrite E.
Qed.

Lemma yields_sfor {A} (f : A -> SM B tls_call unit) l : (forall a, yields (f a) (fun _ => True)) ->
  yields (sfor f l) (fun _ => True).
Proof.
  intros Hf. induction l as [|a l IH]; cbn [sfor]; [by intros b|]. by eapply yields_bind; [apply Hf|].
Qed.

Ltac calls :=
  repeat (eapply yields_bind; [first [apply yields_boring|apply yields_sfor; intros ?;
    first [apply yields_boring|unfold append_extension; eapply yields_bind; [apply yields_boring|intros _ _; apply yields_boring]]]
    |intros _ _]).

(** The certificate names itself as issuer, is signed with the key it certifies, is no CA's,
    and is valid for a year from now. *)
Definition self_signed (ck : certificate K * K) : Prop :=
  subject_name ck.1 = issuer_name ck.1 /\ pubkey ck.1 = ck.2 /\ signed_by ck.1 = (ck.2, Sha256) /\
  cert_version ck.1 = 2 /\ not_before ck.1 = 0 /\ not_after ck.1 = 365 /\
  BasicConstraints true false ∈ extensions ck.1 /\
  (forall c, BasicConstraints c true ∉ extensions ck.1).

Lemma mk_ca_cert_spec : yields mk_ca_cert self_signed.
Proof.
  unfold mk_ca_cert. do 2 (eapply yields_bind; [apply yields_boring|intros _ _]).
  apply (yields_bind _ _ (fun _ => True)); [by intros b|]. intros k _. cbn zeta. calls.
  intros b. cbn. split_and!; try done; [by left|]. intros c Hin. cbn in Hin.
  rewrite !elem_of_cons in Hin. by destruct_or! Hin; [..|apply not_elem_of_nil in Hin].
Qed.

(** Whatever the library answers: the set-up fails only because one of its calls did, and
    otherwise it speaks TLS 1.3 only, presents a certificate made by [mk_ca_cert] and signed
    with its own key, verifies no peer, and offers the protocol of the default
    configuration. *)
Theorem tls_context_spec : yields new_tls_context_builder (fun ctx =>
  min_proto ctx = TLS1_3 /\ max_proto ctx = TLS1_3 /\ self_signed (ctx_cert ctx, ctx_key ctx) /\
  ctx_verify ctx = VerifyNone /\
  Some (alpn ctx) = (fun ps => alpn_wire (map String.list_byte_of_string ps)) <$>
    application_protos QuicheConfig_default).
Proof.
  unfold new_tls_context_builder. do 3 (eapply yields_bind; [apply yields_boring|intros _ _]).
  eapply yields_bind; [apply mk_ca_cert_spec|]. intros [cert key] Hc. calls.
  intros b. cbn. split_and!; try done.
Qed.

End Facts.
