(* ===== verification/Channel.v ===== *)
(** The interface of the bounded channels the tasks talk through ([tokio::sync::mpsc]).

    [send] is [Sender::send(..).await] seen from the task: it waits for capacity and then
    either hands the value over or fails because the receiver is gone. The laws are the two
    documented facts the code relies on; [limited] is a concrete sender whose receiver goes
    away after a number of messages. *)

From stdpp Require Import base list.
From S2P Require Import Prelude.

Class Sender (S A : Type) := {
  send : A -> S -> option S;
  (** the messages handed over so far, oldest first *)
  accepted : S -> list A
}.

Class SenderLaws (S A : Type) `{Sender S A} : Prop := {
  send_accepted a s s' : send a s = Some s' -> accepted s' = accepted s ++ [a]
}.

(** The receiver outlives the task. *)
Class ReliableSender (S A : Type) `{Sender S A} : Prop := {
  send_reliable a s : is_Some (send a s)
}.

Record limited (A : Type) : Type := { items : list A; budget : option nat }.
Arguments items {A}.
Arguments budget {A}.

#[export] Instance limited_sender A : Sender (limited A) A := {|
  send a s :=
    match budget s with
    | Some O => None
    | Some (S n) => Some {| items := items s ++ [a]; budget := Some n |}
    | None => Some {| items := items s ++ [a]; budget := None |}
    end;
  accepted := items
|}.

#[export] Instance limited_sender_laws A : SenderLaws (limited A) A.
Proof. constructor. intros a [l [[|n]|]] s'; simpl; intros; by simplify_eq. Qed.

Definition unlimited (A : Type) : Type := list A.

#[export] Instance unlimited_sender A : Sender (unlimited A) A := {|
  send a s := Some (s ++ [a]);
  accepted s := s
|}.

#[export] Instance unlimited_sender_laws A : SenderLaws (unlimited A) A.
Proof. constructor. intros a s s'. simpl. by intros [= <-]. Qed.

#[export] Instance unlimited_reliable A : ReliableSender (unlimited A) A.
Proof. constructor. intros a s. by eexists. Qed.

(** * Sending without waiting ([try_send]) *)

Inductive try_result : Type := TrySent | TryFull | TryClosed.

Class TrySender (S A : Type) `{Sender S A} := {
  try_send : A -> S -> S * try_result
}.

Class TrySenderLaws (S A : Type) `{TrySender S A} : Prop := {
  try_send_sent a s s' : try_send a s = (s', TrySent) -> accepted s' = accepted s ++ [a];
  try_send_other a s s' r : try_send a s = (s', r) -> r <> TrySent -> accepted s' = accepted s
}.

(** A channel with [bd_room] free places, [bd_open] while its receiver lives. [send] waits
    for the receiver to make room. *)
Record bounded (A : Type) : Type := {
  bd_items : list A;
  bd_room : nat;
  bd_open : bool
}.
Arguments bd_items {A}.
Arguments bd_room {A}.
Arguments bd_open {A}.

Definition bd_push {A} (a : A) (s : bounded A) : bounded A :=
  {| bd_items := bd_items s ++ [a]; bd_room := Nat.pred (bd_room s); bd_open := bd_open s |}.

#[export] Instance bounded_sender A : Sender (bounded A) A := {|
  send a s := if bd_open s then Some (bd_push a s) else None;
  accepted := bd_items
|}.

#[export] Instance bounded_try_sender A : TrySender (bounded A) A := {|
  try_send a s :=
    if bd_open s
    then match bd_room s with O => (s, TryFull) | _ => (bd_push a s, TrySent) end
    else (s, TryClosed)
|}.

#[export] Instance bounded_sender_laws A : SenderLaws (bounded A) A.
Proof. constructor. intros a [l n []] s'; cbn; intros; by simplify_eq. Qed.

#[export] Instance bounded_try_sender_laws A : TrySenderLaws (bounded A) A.
Proof.
  constructor; intros a [l n []] s'; cbn; destruct n; intros; by simplify_eq.
Qed.

(** The receiver outlives the sender, which may be asked not to wait. *)
Class OpenSender (S A : Type) `{TrySender S A} : Prop := {
  open_send a s : is_Some (send a s);
  open_try_send a s : (try_send a s).2 <> TryClosed
}.

(** A channel whose receiver lives: its messages and its free places. *)
Definition counted (A : Type) : Type := list A * nat.

#[export] Instance counted_sender A : Sender (counted A) A := {|
  send a s := Some (s.1 ++ [a], Nat.pred s.2);
  accepted s := s.1
|}.

#[export] Instance counted_try_sender A : TrySender (counted A) A := {|
  try_send a s := match s.2 with O => (s, TryFull) | S n => ((s.1 ++ [a], n), TrySent) end
|}.

#[export] Instance counted_sender_laws A : SenderLaws (counted A) A.
Proof. constructor. intros a [l n] s'. cbn. by intros [= <-]. Qed.

#[export] Instance counted_try_sender_laws A : TrySenderLaws (counted A) A.
Proof. constructor; intros a [l [|n]] s'; cbn; intros; by simplify_eq. Qed.

#[export] Instance counted_open A : OpenSender (counted A) A.
Proof. constructor; [by eexists|]. by intros a [l [|n]]. Qed.

(** * Channels whose receiver may go

    [hang_up]: the receiver is dropped. Until then sending succeeds, [try_send] for lack of
    room apart; from then on nothing gets in. *)

Class Closable (S A : Type) `{TrySender S A} := {
  is_open : S -> bool;
  hang_up : S -> S
}.

Class ClosableLaws (S A : Type) `{Closable S A} : Prop := {
  open_send_some a s : is_open s = true -> exists s', send a s = Some s' /\ is_open s' = true;
  open_try a s : is_open s = true ->
    (try_send a s).2 <> TryClosed /\ is_open (try_send a s).1 = true;
  closed_send a s : is_open s = false -> send a s = None;
  closed_try a s : is_open s = false -> try_send a s = (s, TryClosed);
  hang_up_closed s : is_open (hang_up s) = false;
  hang_up_accepted s : accepted (hang_up s) = accepted s
}.

#[export] Instance bounded_closable A : Closable (bounded A) A := {|
  is_open := bd_open;
  hang_up s := {| bd_items := bd_items s; bd_room := bd_room s; bd_open := false |}
|}.

#[export] Instance bounded_closable_laws A : ClosableLaws (bounded A) A.
Proof.
  constructor; try done.
  - intros a [l n []]; cbn; intros; [by eexists|done].
  - intros a [l [|n] []]; cbn; intros; by split.
  - intros a [l n []]; by cbn.
  - intros a [l n []]; by cbn.
Qed.
