(* ===== verification/Link.v ===== *)
(** [link/src/transport/link.rs], receiving side: [parse_packet_buf] and
    [link_read_loop]. *)

From Stdlib Require Import ZArith Lia Strings.Byte.
From stdpp Require Import base list.
From S2P Require Import Prelude Buffer Deku Channel Protos Packets Wire.

(** * [parse_packet_buf] *)

Inductive parse_error : Type :=
| ParseHeaderFailed
| ParsePacketFailed
| ResponseTxClosed.

(** The local variables of the loop, and the channel it sends to. *)
Record parse_state (S : Type) : Type := mk_parse_state {
  response_tx : S;
  packet_buffer : list byte;
  consumed_bytes : Z;
  occupied_bytes : Z;
  need_size : Z;
  cursor : Z
}.
Arguments mk_parse_state {S}.
Arguments response_tx {S}.
Arguments packet_buffer {S}.
Arguments consumed_bytes {S}.
Arguments occupied_bytes {S}.
Arguments need_size {S}.
Arguments cursor {S}.

(** What leaving the loop gives: the channel, and [(consumed, need)] or an error. *)
Abbreviation parse_exit S := (S * outcome parse_error (Z * Z))%type.

Section Parse.
Context `{DekuOps} {S : Type} `{Sender S Packet}.

(** From the parse of a whole packet to the end of the iteration. *)
Definition parse_body (st : parse_state S) : parse_state S + parse_exit S :=
  let exit r := inr (response_tx st, r) in
  match from_bytes (from_reader (A:=Packet)) (packet_buffer st, cursor st) with
  | Ok ((rest, i), packet) =>
      let packet_size := total_bytes packet in
      match usub (E:=parse_error) (occupied_bytes st) packet_size,
            uadd (E:=parse_error) (consumed_bytes st) packet_size with
      | Ok occupied, Ok consumed =>
          match send packet (response_tx st) with
          | Some tx => inl (mk_parse_state tx rest consumed occupied MIN_PACKET_HEADER_SIZE i)
          | None => exit (Err ResponseTxClosed)
          end
      | _, _ => exit Panic
      end
  | Err Incomplete => exit (Ok (consumed_bytes st, MIN_PACKET_HEADER_SIZE))
  | Err OtherError => exit (Err ParsePacketFailed)
  | Panic => exit Panic
  end.

(** One iteration of the loop. *)
Definition parse_iter (st : parse_state S) : parse_state S + parse_exit S :=
  let exit r := inr (response_tx st, r) in
  match from_bytes (from_reader (A:=PacketHeader)) (packet_buffer st, cursor st) with
  | Ok (_, header) =>
      let need := need_bytes header in
      if occupied_bytes st <? need
      then exit (Ok (consumed_bytes st, need))
      else parse_body st
  | Err Incomplete => exit (Ok (consumed_bytes st, need_size st))
  | Err OtherError => exit (Err ParseHeaderFailed)
  | Panic => exit Panic
  end.

Fixpoint parse_loop (fuel : nat) (st : parse_state S) : option (parse_exit S) :=
  match fuel with
  | O => None
  | Datatypes.S fuel =>
      match parse_iter st with
      | inl st => parse_loop fuel st
      | inr r => Some r
      end
  end.

(** Each iteration consumes at least one byte: one more than the length is enough fuel. *)
Definition parse_fuel (buf : list byte) : nat := Datatypes.S (length buf).

Definition parse_packet_buf (tx : S) (buf : list byte) : option (parse_exit S) :=
  parse_loop (parse_fuel buf) (mk_parse_state tx buf 0 (zlen buf) MIN_PACKET_HEADER_SIZE 0).

End Parse.

(** * [link_read_loop] *)

Inductive read_error : Type :=
| BufferTooSmall (max_len b_len : Z)
| PushFailed (e : SimpleBuf.error)
| FreeFailed (e : SimpleBuf.error)
| ParseFailed (e : parse_error)
| RecvClosed.

(** The state the loop carries between two chunks. *)
Record read_state (S : Type) : Type := mk_read_state {
  rd_tx : S;
  rd_buffer : SimpleBuf.t;
  rd_need : Z
}.
Arguments mk_read_state {S}.
Arguments rd_tx {S}.
Arguments rd_buffer {S}.
Arguments rd_need {S}.

(** An error of the loop comes with the channel, to which packets were sent before it. *)
Abbreviation read_exit S := (S * read_error)%type.

Definition or_exit {S E A} (tx : S) (f : E -> read_error) (m : outcome E A)
    : outcome (read_exit S) A :=
  match m with
  | Ok a => Ok a
  | Err e => Err (tx, f e)
  | Panic => Panic
  end.

Section ReadLoop.
Context `{DekuOps} {S : Type} `{Sender S Packet}.

Abbreviation RM := (outcome (read_exit S)).

(** Making room for the chunk [b]. *)
Definition read_make_room (tx : S) (buf : SimpleBuf.t) (b : list byte) : RM SimpleBuf.t :=
  n ← SimpleBuf.len buf;
  if n <? zlen b then
    m ← SimpleBuf.max_len buf;
    if m <? zlen b then Err (tx, BufferTooSmall m (zlen b)) else SimpleBuf.reuse buf
  else Ok buf.

(** Parsing what the buffer holds, when it may hold a packet. *)
Definition read_parse (tx : S) (buf : SimpleBuf.t) (need : Z) : RM (read_state S) :=
  n ← SimpleBuf.len buf;
  if need <=? n then
    occupied ← SimpleBuf.occupied_slice buf;
    match parse_packet_buf tx occupied with
    | Some (tx, Ok (c, n)) =>
        buf ← or_exit tx FreeFailed (SimpleBuf.free buf c);
        Ok (mk_read_state tx buf n)
    | Some (tx, Err e) => Err (tx, ParseFailed e)
    | Some (_, Panic) | None => Panic
    end
  else Ok (mk_read_state tx buf need).

(** The handling of one chunk received from [quic_data_recv_rx]. *)
Definition link_read_recv (st : read_state S) (b : list byte) : RM (read_state S) :=
  buf ← read_make_room (rd_tx st) (rd_buffer st) b;
  buf ← or_exit (rd_tx st) PushFailed (SimpleBuf.push_slice buf b);
  st ← read_parse (rd_tx st) buf (rd_need st);
  r ← SimpleBuf.reuse_if (rd_buffer st);
  Ok (mk_read_state (rd_tx st) r.1 (rd_need st)).

Fixpoint link_read_chunks (st : read_state S) (chunks : list (list byte)) : RM (read_state S) :=
  match chunks with
  | [] => Ok st
  | b :: chunks => st ← link_read_recv st b; link_read_chunks st chunks
  end.

Definition link_read_init (tx : S) (stream_read_buffer_size : Z) : read_state S :=
  mk_read_state tx (SimpleBuf.new stream_read_buffer_size) MIN_PACKET_HEADER_SIZE.

(** The loop on the chunks the channel yields until it closes: it ends with an error only,
    [RecvClosed] when every chunk was handled. *)
Definition link_read_loop (tx : S) (stream_read_buffer_size : Z) (chunks : list (list byte))
    : RM unit :=
  st ← link_read_chunks (link_read_init tx stream_read_buffer_size) chunks;
  Err (rd_tx st, RecvClosed).

End ReadLoop.

(** * Lemmas on [parse_packet_buf] *)

Section ParseFacts.
Context `{DekuLaws} {S : Type} `{SenderLaws S Packet}.

(** What an exit of the parse loop says of the buffer [buf] it was given: the packets [ps]
    were sent in order, and they are the head of the buffer. *)
Definition parse_post (tx : S) (consumed : Z) (buf : list byte) (r : parse_exit S) : Prop :=
  exists ps rest, Forall wire_ok ps /\ buf = wire_all ps ++ rest /\
    accepted r.1 = accepted tx ++ ps /\
    match r.2 with
    | Ok (c, n) => c = consumed + zlen (wire_all ps) /\ no_packet rest /\ needs n rest /\
        MIN_PACKET_HEADER_SIZE <= n
    | Err ParseHeaderFailed => ~ partial rest /\ no_packet rest
    | Err ResponseTxClosed => exists p k, wire_ok p /\ rest = wire p ++ k /\ send p r.1 = None
    | Err ParsePacketFailed | Panic => False
    end.

Lemma parse_post_cons tx tx' c buf p r : wire_ok p -> accepted tx' = accepted tx ++ [p] ->
  parse_post tx' (c + zlen (wire p)) buf r -> parse_post tx c (wire p ++ buf) r.
Proof.
  intros Hp Ha (ps & rest & Hps & -> & Hacc & Hr). exists (p :: ps), rest. split_and!.
  - by constructor.
  - by rewrite wire_all_cons, app_assoc.
  - by rewrite Hacc, Ha, <- app_assoc.
  - destruct r.2 as [[c' n]|[]|]; try done. rewrite wire_all_cons, zlen_app.
    destruct Hr as (-> & ?). split; [lia|done].
Qed.

Lemma parse_post_nil tx c buf r :
  match r with
  | Ok (c', n) => c' = c /\ no_packet buf /\ needs n buf /\ MIN_PACKET_HEADER_SIZE <= n
  | Err ParseHeaderFailed => ~ partial buf /\ no_packet buf
  | Err ResponseTxClosed => exists p k, wire_ok p /\ buf = wire p ++ k /\ send p tx = None
  | Err ParsePacketFailed | Panic => False
  end -> parse_post tx c buf (tx, r).
Proof.
  intros Hr. exists [], buf. rewrite app_nil_r. split_and!; try done. cbn [snd fst].
  destruct r as [[c' n]|[]|]; try done. destruct Hr as (-> & ?). split; [|done].
  change (zlen (wire_all [])) with 0. lia.
Qed.

Lemma parse_loop_post fuel tx buf c : (length buf < fuel)%nat -> 0 <= c ->
  c + zlen buf < usize_bound ->
  exists r, parse_loop fuel (mk_parse_state tx buf c (zlen buf) MIN_PACKET_HEADER_SIZE 0) = Some r /\
    parse_post tx c buf r.
Proof.
  revert tx buf c. induction fuel as [|fuel IH]; intros tx buf c Hf Hc Hu; [lia|].
  cbn [parse_loop]. unfold parse_iter. cbn [packet_buffer Link.cursor].
  destruct (head_cases buf) as [Ei E|Eb E|h s k E Hh -> Hl|p rest s E Ep Hp ->];
    rewrite E; cbn [response_tx consumed_bytes need_size occupied_bytes].
  - eexists; split; [done|]. apply parse_post_nil. split_and!; try done.
    + by apply incomplete_no_packet.
    + apply needs_min.
  - eexists; split; [done|]. apply parse_post_nil. by apply bad_not_partial.
  - apply Z.ltb_lt in Hl as Hl'. rewrite Hl'. eexists; split; [done|]. apply parse_post_nil.
    destruct (short_no_packet h k Hh Hl). split_and!; try done.
    rewrite need_bytes_header. pose proof (header_wire_length h). destruct Hh as [? _]. lia.
  - pose proof (wire_length p Hp) as Hw. pose proof (wire_length_pos p Hp).
    rewrite total_bytes_header in Hw. rewrite zlen_app in *. pose proof (zlen_nonneg rest).
    zcase; [lia|]. unfold parse_body. cbn [packet_buffer Link.cursor]. rewrite Ep.
    rewrite total_bytes_header. unfold usub, uadd. cbn [occupied_bytes consumed_bytes response_tx].
    zcase; [|lia]. zcase; [|lia]. destruct (send p tx) as [tx'|] eqn:Es.
    + replace (zlen (wire p) + zlen rest - need_bytes (header_of p)) with (zlen rest) by lia.
      destruct (IH tx' rest (c + need_bytes (header_of p))) as (r & Hr & Hpost); try lia.
      { rewrite length_app in Hf. unfold zlen in *. lia. }
      exists r. split; [done|]. rewrite <- Hw in Hpost.
      apply (parse_post_cons tx tx'); [done| |done]. by apply send_accepted.
    + eexists; split; [done|]. apply parse_post_nil. by exists p, rest.
Qed.

Lemma parse_packet_buf_post tx buf : zlen buf < usize_bound ->
  exists r, parse_packet_buf tx buf = Some r /\ parse_post tx 0 buf r.
Proof. intros. apply parse_loop_post; unfold parse_fuel; lia. Qed.

(** A stream splits in one way only into packets and a tail that holds none. *)
Lemma wire_all_unique ps qs r s : Forall wire_ok ps -> Forall wire_ok qs ->
  no_packet r -> no_packet s -> wire_all ps ++ r = wire_all qs ++ s -> ps = qs /\ r = s.
Proof.
  intros Hps. revert qs. induction Hps as [|p ps Hp Hps IH]; intros qs Hqs Hr Hs E.
  - destruct Hqs as [|q qs Hq _]; [done|]. rewrite wire_all_cons, <- app_assoc in E.
    by apply Hr in E.
  - destruct Hqs as [|q qs Hq Hqs]; rewrite wire_all_cons, <- app_assoc in E.
    + symmetry in E. by apply Hs in E.
    + rewrite wire_all_cons, <- app_assoc in E.
      apply wire_prefix_unique in E as [-> E]; [|done|done].
      by destruct (IH qs Hqs Hr Hs E) as [-> ->].
Qed.

End ParseFacts.

(** * Lemmas on the read loop *)

Section ReadFacts.
Context `{DekuLaws} {S : Type} `{SenderLaws S Packet}.

Abbreviation cont st := (SimpleBuf.contents (rd_buffer st)).

(** The space test of the code: a chunk longer than the pending bytes is given the whole
    free space (the buffer is compacted first), any other only what is left after the
    pending bytes. *)
Definition chunk_fits (buf : SimpleBuf.t) (b : list byte) : Prop :=
  let n := zlen (SimpleBuf.contents buf) in
  if n <? zlen b then n + zlen b <= SimpleBuf.capacity buf else zlen b <= SimpleBuf.room buf.

Lemma read_make_room_post (tx : S) buf b : SimpleBuf.wf buf ->
  let n := zlen (SimpleBuf.contents buf) in
  match read_make_room tx buf b with
  | Ok buf' => SimpleBuf.wf buf' /\ SimpleBuf.contents buf' = SimpleBuf.contents buf /\
      SimpleBuf.capacity buf' = SimpleBuf.capacity buf /\
      SimpleBuf.vacant_idx buf' <= SimpleBuf.vacant_idx buf /\
      (chunk_fits buf b <-> zlen b <= SimpleBuf.room buf')
  | Err (tx', e) => tx' = tx /\ ~ chunk_fits buf b /\
      e = BufferTooSmall (SimpleBuf.capacity buf - n) (zlen b)
  | Panic => False
  end.
Proof.
  intros Hw n. unfold read_make_room, chunk_fits.
  rewrite SimpleBuf.len_ok by done. cbn [mbind outcome_bind]. fold n. zcase; [|done].
  rewrite SimpleBuf.max_len_ok by done. cbn [mbind outcome_bind]. fold n. zcase.
  - split_and!; [done| lia|done].
  - destruct (SimpleBuf.reuse_ok (E:=read_exit S) buf Hw) as (buf' & -> & ? & Hc & _ & Hv & Hcap).
    pose proof (SimpleBuf.zlen_contents buf Hw). pose proof (SimpleBuf.wf_occ buf Hw).
    split_and!; try done; [lia|]. unfold SimpleBuf.room. rewrite Hv, Hcap. fold n. lia.
Qed.

Lemma needs_app n l b : needs n l -> needs n (l ++ b).
Proof. intros Hn ext p rest Hp E. rewrite <- app_assoc in E. by apply (Hn (b ++ ext) p rest). Qed.

Lemma needs_no_packet n l : needs n l -> zlen l < n -> no_packet l.
Proof.
  intros Hn Hl p rest Hp ->. specialize (Hn [] p rest Hp). rewrite app_nil_r in Hn.
  specialize (Hn eq_refl). rewrite zlen_app in Hl. pose proof (zlen_nonneg rest). lia.
Qed.

(** The packets [ps] were sent, in order, and [rest] is what is left of [l]. *)
Definition delivered (tx : S) (l : list byte) (tx' : S) (rest : list byte) : Prop :=
  exists ps, Forall wire_ok ps /\ l = wire_all ps ++ rest /\ accepted tx' = accepted tx ++ ps /\
    Forall (fun p => zlen (wire p) <= zlen l) ps.

Lemma wire_all_sizes ps rest :
  Forall (fun p => zlen (wire p) <= zlen (wire_all ps ++ rest)) ps.
Proof.
  induction ps as [|p ps IH]; constructor.
  - rewrite wire_all_cons, !zlen_app. pose proof (zlen_nonneg (wire_all ps)).
    pose proof (zlen_nonneg rest). lia.
  - eapply Forall_impl; [exact IH|]. intros q Hq. cbv beta in *. rewrite wire_all_cons, <- app_assoc, zlen_app.
    pose proof (zlen_nonneg (wire p)). lia.
Qed.

Lemma read_parse_post (tx : S) buf need : SimpleBuf.wf buf ->
  needs need (SimpleBuf.contents buf) -> MIN_PACKET_HEADER_SIZE <= need ->
  match read_parse tx buf need with
  | Ok st => SimpleBuf.wf (rd_buffer st) /\
      SimpleBuf.capacity (rd_buffer st) = SimpleBuf.capacity buf /\
      SimpleBuf.vacant_idx (rd_buffer st) = SimpleBuf.vacant_idx buf /\
      MIN_PACKET_HEADER_SIZE <= rd_need st /\
      delivered tx (SimpleBuf.contents buf) (rd_tx st) (cont st) /\
      no_packet (cont st) /\ needs (rd_need st) (cont st)
  | Err (tx', ParseFailed e) => parse_post tx 0 (SimpleBuf.contents buf) (tx', Err e)
  | _ => False
  end.
Proof.
  intros Hw Hn Hmin. unfold read_parse. rewrite SimpleBuf.len_ok by done.
  cbn [mbind outcome_bind]. zcase; cbn [rd_buffer rd_need rd_tx].
  - rewrite SimpleBuf.occupied_slice_ok by done. cbn [mbind outcome_bind].
    pose proof (SimpleBuf.zlen_contents buf Hw) as Hl.
    assert (zlen (SimpleBuf.contents buf) < usize_bound) as Hu.
    { destruct Hw. unfold SimpleBuf.isize_max, usize_bound in *. lia. }
    destruct (parse_packet_buf_post tx _ Hu) as ([tx' [[c n]|e|]] & -> & Hp); [|exact Hp|].
    + destruct Hp as (ps & rest & Hps & Hc & Hacc & Hz & Hno & Hne & Hm).
      assert (c = zlen (wire_all ps)) as -> by lia.
      pose proof (zlen_nonneg (wire_all ps)). pose proof (zlen_nonneg rest).
      assert (0 <= zlen (wire_all ps) <= zlen (SimpleBuf.contents buf)) as Hle
        by (rewrite Hc, zlen_app; lia).
      destruct (SimpleBuf.free_ok buf _ Hw Hle) as (buf' & -> & Hw' & Hc' & _ & Hv & Hcap).
      cbn [or_exit mbind outcome_bind rd_buffer rd_need rd_tx].
      rewrite Hc in Hc'. unfold zlen in Hc'. rewrite Nat2Z.id, drop_app_length in Hc'.
      rewrite Hc'. split_and!; try done. exists ps. split_and!; try done.
      rewrite Hc. apply wire_all_sizes.
    + destruct Hp as (? & ? & ? & ? & ? & []).
  - split_and!; try done; [|by apply needs_no_packet with need].
    exists []. split_and!; try done. by rewrite app_nil_r.
Qed.

(** The invariant of the loop after the bytes [all] were received. *)
Definition read_inv (tx : S) (cap : Z) (all : list byte) (st : read_state S) : Prop :=
  SimpleBuf.wf (rd_buffer st) /\ SimpleBuf.capacity (rd_buffer st) = cap /\
  MIN_PACKET_HEADER_SIZE <= rd_need st /\ no_packet (cont st) /\ needs (rd_need st) (cont st) /\
  SimpleBuf.vacant_idx (rd_buffer st) <= zlen all /\
  exists ps, Forall wire_ok ps /\ all = wire_all ps ++ cont st /\
    accepted (rd_tx st) = accepted tx ++ ps /\ Forall (fun p => zlen (wire p) <= cap) ps.

Lemma read_init_inv (tx : S) cap : 0 <= cap <= SimpleBuf.isize_max ->
  read_inv tx cap [] (link_read_init tx cap).
Proof.
  intros Hc. destruct (SimpleBuf.new_wf cap Hc) as [Hw Hn]. unfold read_inv. cbn [link_read_init
    rd_buffer rd_need rd_tx]. rewrite Hn. split_and!; try done.
  - intros p rest Hp E. apply wire_length_pos in Hp. apply (f_equal zlen) in E.
    rewrite zlen_app in E. pose proof (zlen_nonneg rest). change (zlen []) with 0 in E. lia.
  - apply needs_min.
  - exists []. split_and!; try done. by rewrite app_nil_r.
Qed.

Lemma read_recv_post tx cap all st b : read_inv tx cap all st ->
  match link_read_recv st b with
  | Ok st' => chunk_fits (rd_buffer st) b /\ read_inv tx cap (all ++ b) st'
  | Err (tx', ParseFailed e) => chunk_fits (rd_buffer st) b /\
      parse_post (rd_tx st) 0 (cont st ++ b) (tx', Err e)
  | Err (tx', BufferTooSmall m n) => tx' = rd_tx st /\ ~ chunk_fits (rd_buffer st) b
  | Err (tx', PushFailed e) => tx' = rd_tx st /\ ~ chunk_fits (rd_buffer st) b
  | _ => False
  end.
Proof.
  intros (Hw & Hcap & Hmin & Hno & Hne & Hvac & ps & Hps & Hall & Hacc & Hsz). unfold link_read_recv.
  pose proof (read_make_room_post (rd_tx st) (rd_buffer st) b Hw) as Hr. cbn zeta in Hr.
  destruct (read_make_room _ _ _) as [buf|[tx' e]|]; [|by destruct Hr as (-> & ? & ->)|done].
  destruct Hr as (Hwb & Hcb & Hcapb & Hvb & Hfit). cbn [mbind outcome_bind].
  destruct (Z.le_gt_cases (zlen b) (SimpleBuf.room buf)) as [Hle|Hgt].
  2:{ rewrite SimpleBuf.push_slice_err by done. cbn. split; [done|]. rewrite Hfit. lia. }
  destruct (SimpleBuf.push_slice_ok buf b Hwb Hle) as (buf2 & -> & Hw2 & Hc2 & _ & Hv2 & Hcap2).
  cbn [or_exit mbind outcome_bind].
  assert (needs (rd_need st) (SimpleBuf.contents buf2)) as Hne2
    by (rewrite Hc2, Hcb; by apply needs_app).
  pose proof (read_parse_post (rd_tx st) buf2 (rd_need st) Hw2 Hne2 Hmin) as Hp.
  destruct (read_parse _ _ _) as [st2|[tx' []]|]; try done; cycle 1.
  { cbn [mbind outcome_bind]. rewrite Hc2, Hcb in Hp. split; [by apply Hfit|done]. }
  destruct Hp as (Hw3 & Hcap3 & Hv3 & Hm3 & (qs & Hqs & Hq & Hqacc & Hqsz) & Hno3 & Hne3).
  cbn [mbind outcome_bind].
  destruct (SimpleBuf.reuse_if_ok (E:=read_exit S) (rd_buffer st2) Hw3)
    as (buf4 & -> & Hw4 & Hc4 & _ & Hcap4 & Hv4). cbn [mbind outcome_bind].
  split; [by apply Hfit|]. unfold read_inv. cbn [rd_buffer rd_need rd_tx fst]. rewrite Hc4.
  split_and!; try done; [congruence|rewrite zlen_app; lia|]. exists (ps ++ qs). split_and!.
  - by apply Forall_app.
  - rewrite wire_all_app, <- app_assoc, <- Hq, Hc2, Hcb, Hall. by rewrite app_assoc.
  - by rewrite Hqacc, Hacc, app_assoc.
  - apply Forall_app; split; [done|]. eapply Forall_impl; [exact Hqsz|]. cbn. intros q Hl.
    rewrite (SimpleBuf.zlen_contents buf2 Hw2) in Hl. destruct Hw2. lia.
Qed.

(** A prefix of a valid stream is a valid stream. *)
Lemma valid_prefix ps tail l k : Forall wire_ok ps -> partial tail ->
  l ++ k = wire_all ps ++ tail ->
  exists qs r, Forall wire_ok qs /\ partial r /\ l = wire_all qs ++ r.
Proof.
  intros Hps Ht. revert l. induction Hps as [|p ps Hp Hps IH]; intros l E.
  - exists [], l. split_and!; try done. destruct Ht as (q & s & Hq & Hs & Eq).
    change (l ++ k = tail) in E. exists q, (k ++ s). split_and!; [done| |].
    + by intros [_ ?]%app_eq_nil.
    + by rewrite Eq, <- E, <- app_assoc.
  - rewrite wire_all_cons, <- app_assoc in E. apply app_eq_app in E as (m & [[-> E]|[E ->]]).
    + destruct (IH m) as (qs & r & Hqs & Hr & ->); [done|].
      exists (p :: qs), r. split_and!; [by constructor|done|].
      by rewrite wire_all_cons, app_assoc.
    + destruct m as [|x m].
      * exists [p], []. rewrite !app_nil_r in *. split_and!; [by constructor| apply partial_nil|].
        by rewrite wire_all_cons, E, app_nil_r.
      * exists [], l. split_and!; try done. by exists p, (x :: m).
Qed.

(** No valid stream starts with these bytes. *)
Definition malformed (l : list byte) : Prop :=
  forall ps tail, Forall wire_ok ps -> partial tail -> l <> wire_all ps ++ tail.

Lemma malformed_app l k : no_packet l -> ~ partial l -> malformed (l ++ k).
Proof.
  intros Hno Hp ps tail Hps Ht E.
  destruct (valid_prefix _ _ _ _ Hps Ht E) as (qs & r & Hqs & Hr & ->).
  destruct Hqs as [|q qs Hq Hqs]; [done|]. rewrite wire_all_cons, <- app_assoc in Hno.
  by apply (Hno q (wire_all qs ++ r)).
Qed.

(** The whole run: what each way of ending says of the bytes received. *)
Lemma read_chunks_post tx cap chunks all st : read_inv tx cap all st ->
  match link_read_chunks st chunks with
  | Ok st' => read_inv tx cap (all ++ concat chunks) st'
  | Err (tx', e) => exists ps rest, Forall wire_ok ps /\
      all ++ concat chunks = wire_all ps ++ rest /\ accepted tx' = accepted tx ++ ps /\
      match e with
      | BufferTooSmall _ _ | PushFailed _ => True
      | ParseFailed ParseHeaderFailed => malformed rest
      | ParseFailed ResponseTxClosed => exists p, send p tx' = None
      | _ => False
      end
  | Panic => False
  end.
Proof.
  revert all st. induction chunks as [|b chunks IH]; intros all st Hinv; cbn [link_read_chunks concat].
  { by rewrite app_nil_r. }
  pose proof (read_recv_post tx cap all st b Hinv) as Hr.
  destruct Hinv as (_ & _ & _ & _ & _ & _ & ps & Hps & Hall & Hacc & _).
  destruct (link_read_recv st b) as [st'|[tx' e]|]; [| |done].
  - destruct Hr as [_ Hr]. apply IH in Hr. cbn [mbind outcome_bind]. by rewrite app_assoc.
  - cbn [mbind outcome_bind].
    destruct e as [m n|e|e|e|]; try done.
    + destruct Hr as [-> _]. exists ps, (cont st ++ b ++ concat chunks).
      split_and!; try done. by rewrite Hall, <- app_assoc.
    + destruct Hr as [-> _]. exists ps, (cont st ++ b ++ concat chunks).
      split_and!; try done. by rewrite Hall, <- app_assoc.
    + destruct Hr as (_ & qs & rest & Hqs & Hq & Hqacc & Hend). cbn [fst snd] in *.
      exists (ps ++ qs), (rest ++ concat chunks). split_and!.
      * by apply Forall_app.
      * rewrite Hall, wire_all_app, <- !app_assoc. f_equal. by rewrite !app_assoc, Hq.
      * by rewrite Hqacc, Hacc, app_assoc.
      * destruct e; try done.
        -- destruct Hend as [Hnp Hno]. by apply malformed_app.
        -- destruct Hend as (p & _ & _ & _ & Hs). by exists p.
Qed.

(** On a valid stream with a live consumer, handling a chunk fails only for lack of space. *)
Lemma read_recv_ok `{!ReliableSender S Packet} (tx : S) cap all st b ps tail :
  read_inv tx cap all st -> Forall wire_ok ps -> partial tail ->
  cont st ++ b = wire_all ps ++ tail -> chunk_fits (rd_buffer st) b ->
  is_ok (link_read_recv st b) = true.
Proof.
  intros Hinv Hps Ht E Hfit. pose proof (read_recv_post tx cap all st b Hinv) as Hr.
  destruct (link_read_recv st b) as [st'|[tx' []]|]; try done; try (by destruct Hr).
  destruct Hr as (_ & qs & rest & Hqs & Hq & _ & Hend). cbn [snd fst] in Hend.
  destruct e; try done.
  - destruct Hend as [Hnp Hno]. rewrite E in Hq.
    pose proof (partial_no_packet _ Ht). by apply wire_all_unique in Hq as [_ ->].
  - destruct Hend as (p & _ & _ & _ & Hs). destruct (send_reliable p tx') as [x Hx].
    by rewrite Hx in Hs.
Qed.

Lemma wire_all_strip qs rs l r : Forall wire_ok qs -> Forall wire_ok rs -> no_packet r ->
  wire_all qs ++ l = wire_all rs ++ r ->
  exists xs, Forall wire_ok xs /\ l = wire_all xs ++ r.
Proof.
  intros Hqs. revert rs. induction Hqs as [|q qs Hq Hqs IH]; intros rs Hrs Hr E; [by exists rs|].
  rewrite wire_all_cons, <- app_assoc in E. destruct Hrs as [|x rs Hx Hrs].
  - symmetry in E. by apply Hr in E.
  - rewrite wire_all_cons, <- app_assoc in E. apply wire_prefix_unique in E as [_ E]; eauto.
Qed.

Lemma read_chunks_ok `{!ReliableSender S Packet} (tx : S) cap chunks all st ps tail :
  read_inv tx cap all st -> Forall wire_ok ps -> partial tail ->
  all ++ concat chunks = wire_all ps ++ tail -> zlen (all ++ concat chunks) <= cap ->
  is_ok (link_read_chunks st chunks) = true.
Proof.
  intros Hinv Hps Ht. revert all st Hinv.
  induction chunks as [|b chunks IH]; intros all st Hinv E Hl; [done|].
  cbn [link_read_chunks concat] in *. rewrite app_assoc in E, Hl.
  pose proof (read_recv_post tx cap all st b Hinv) as Hpost.
  assert (is_ok (link_read_recv st b) = true) as Hok.
  { destruct (Hinv) as (Hw & Hcap & _ & Hno & _ & Hv & qs & Hqs & Hall & _).
    destruct (valid_prefix _ _ _ _ Hps Ht E) as (rs & r & Hrs & Hr & Er).
    rewrite Hall, <- app_assoc in Er.
    pose proof (partial_no_packet _ Hr).
    apply wire_all_strip in Er as (xs & Hxs & Ex); try done.
    eapply read_recv_ok; eauto. unfold chunk_fits. pose proof (SimpleBuf.zlen_contents _ Hw).
    pose proof (SimpleBuf.wf_occ _ Hw). rewrite !zlen_app in Hl.
    pose proof (zlen_nonneg (concat chunks)). unfold SimpleBuf.room. zcase; lia. }
  destruct (link_read_recv st b) as [st'|?|]; try done. cbn [mbind outcome_bind].
  by apply IH with (all ++ b); [apply Hpost|..].
Qed.

(** ** Bursts

    With nothing pending, any chunk that is not empty has the buffer compacted first. *)

Lemma read_inv_rebase tx cap all st : read_inv tx cap all st -> cont st = [] ->
  exists st', read_inv (rd_tx st) cap [] st' /\ rd_tx st' = rd_tx st /\
    forall b, b <> [] -> link_read_recv st b = link_read_recv st' b.
Proof.
  intros (Hw & Hcap & Hmin & Hno & Hne & _ & _) Hc.
  destruct (SimpleBuf.reuse_ok (E:=read_exit S) _ Hw) as (buf & Er & Hwb & Hcb & Ho & Hv & Hcapb).
  exists (mk_read_state (rd_tx st) buf (rd_need st)). split_and!; [|done|].
  - unfold read_inv. cbn [rd_buffer rd_need rd_tx]. rewrite Hcb, Hv, Hc, Hcapb in *. split_and!; try done.
    exists []. split_and!; [constructor|done|by rewrite app_nil_r|constructor].
  - intros b Hb. assert (0 < zlen b) as Hlb by (destruct b; [done|unfold zlen; cbn [length]; lia]).
    unfold link_read_recv. cbn [rd_buffer rd_need rd_tx]. f_equal. unfold read_make_room.
    rewrite !SimpleBuf.len_ok by done. cbn [mbind outcome_bind]. rewrite Hcb, Hc. change (zlen []) with 0.
    apply Z.ltb_lt in Hlb as ->. rewrite !SimpleBuf.max_len_ok by done. cbn [mbind outcome_bind].
    rewrite Hcb, Hc, Hcapb. zcase; [done|]. by rewrite Er, SimpleBuf.reuse_front.
Qed.

(** A burst: chunks that bring whole packets, together no larger than the buffer. *)
Definition burst (size : Z) (chunks : list (list byte)) : Prop :=
  zlen (concat chunks) <= size /\ exists ps, Forall wire_ok ps /\ concat chunks = wire_all ps.

(** The chunks come in bursts. *)
Definition in_bursts (size : Z) (chunks : list (list byte)) : Prop :=
  exists bursts, chunks = concat bursts /\ Forall (burst size) bursts.

(** Ready for a packet: what the loop is at first, and after each burst. *)
Definition settled (size : Z) (st : read_state S) : Prop :=
  cont st = [] /\ exists tx all, read_inv tx size all st.

Lemma link_read_chunks_app (st : read_state S) xs ys :
  link_read_chunks st (xs ++ ys) = (st ← link_read_chunks st xs; link_read_chunks st ys).
Proof.
  revert st. induction xs as [|x xs IH]; intros st; [done|]. cbn [app link_read_chunks].
  destruct (link_read_recv st x) as [st1| |]; cbn [mbind outcome_bind]; [apply IH|done..].
Qed.

Lemma read_inv_settled tx size ps st : Forall wire_ok ps -> read_inv tx size (wire_all ps) st ->
  settled size st.
Proof.
  intros Hps Hinv. pose proof Hinv as (_ & _ & _ & Hno & _ & _ & qs & Hqs & E & _). split; [|by eauto].
  rewrite <- (app_nil_r (wire_all ps)) in E.
  apply wire_all_unique in E as [_ E]; [done|done|done| |done]. apply partial_no_packet, partial_nil.
Qed.

Lemma read_nothing `{!ReliableSender S Packet} size st : settled size st ->
  exists st', link_read_recv st [] = Ok st' /\ settled size st'.
Proof.
  intros (Hc & tx & all & Hinv). pose proof (read_recv_post tx size all st [] Hinv) as Hpost.
  assert (is_ok (link_read_recv st []) = true) as Hok.
  { apply (read_recv_ok tx size all st [] [] []); [done|constructor|apply partial_nil|by rewrite Hc|].
    unfold chunk_fits. rewrite Hc. change (zlen []) with 0. destruct (Hinv) as ([] & _).
    unfold SimpleBuf.room. cbn. lia. }
  destruct (link_read_recv st []) as [st'| |]; [|done..]. exists st'. split; [done|].
  destruct Hpost as [_ Hinv']. pose proof Hinv as (_ & _ & _ & _ & _ & _ & ps & Hps & E & _).
  rewrite Hc, app_nil_r in E. rewrite E, app_nil_r in Hinv'. by eapply read_inv_settled.
Qed.

Lemma read_burst `{!ReliableSender S Packet} size chunks st : settled size st -> burst size chunks ->
  exists st', link_read_chunks st chunks = Ok st' /\ settled size st'.
Proof.
  intros Hst (Hl & ps & Hps & E). revert st Hst.
  induction chunks as [|b chunks IH]; intros st Hst; [by exists st|].
  destruct (decide (b = [])) as [->|Hb].
  - cbn [link_read_chunks]. destruct (read_nothing size st Hst) as (st1 & -> & Hst1).
    by apply IH.
  - destruct Hst as (Hc & tx & all & Hinv). destruct (read_inv_rebase tx size all st Hinv Hc)
      as (st1 & Hinv1 & _ & Hsame).
    assert (link_read_chunks st (b :: chunks) = link_read_chunks st1 (b :: chunks)) as ->
      by (cbn [link_read_chunks]; by rewrite Hsame).
    pose proof (read_chunks_post _ size (b :: chunks) [] st1 Hinv1) as Hpost.
    pose proof (read_chunks_ok _ size (b :: chunks) [] st1 ps [] Hinv1 Hps partial_nil) as Hok.
    cbn [app] in Hpost, Hok. rewrite app_nil_r in Hok. specialize (Hok E Hl).
    destruct (link_read_chunks st1 (b :: chunks)) as [st2| |]; [|done..]. exists st2. split; [done|].
    rewrite E in Hpost. by eapply read_inv_settled.
Qed.

(** Bursts are read whatever their number. *)
Lemma read_bursts `{!ReliableSender S Packet} size chunks st : settled size st ->
  in_bursts size chunks -> is_ok (link_read_chunks st chunks) = true.
Proof.
  intros Hst (bursts & -> & Hb). revert st Hst. induction Hb as [|x bursts Hx Hb IH]; intros st Hst; [done|].
  cbn [concat]. rewrite link_read_chunks_app. destruct (read_burst size x st Hst Hx) as (st1 & -> & Hst1).
  by apply IH.
Qed.

Lemma init_settled (tx : S) size : 0 <= size <= SimpleBuf.isize_max ->
  settled size (link_read_init tx size).
Proof.
  intros Hs. split; [by destruct (SimpleBuf.new_wf size Hs)|]. exists tx, [].
  by apply read_init_inv.
Qed.

(** How a run that handled all its chunks ends. *)
Lemma read_all_ends `{!ReliableSender S Packet} (tx : S) size chunks ps tail :
  0 <= size <= SimpleBuf.isize_max -> Forall wire_ok ps -> no_packet tail ->
  concat chunks = wire_all ps ++ tail ->
  is_ok (link_read_chunks (link_read_init tx size) chunks) = true ->
  exists tx', link_read_loop tx size chunks = Err (tx', RecvClosed) /\ accepted tx' = accepted tx ++ ps.
Proof.
  intros Hs Hps Ht E Hok. pose proof (read_chunks_post tx size chunks [] _ (read_init_inv tx size Hs)) as Hp.
  unfold link_read_loop. destruct (link_read_chunks _ _) as [st|?|]; [|done..]. cbn [mbind outcome_bind].
  exists (rd_tx st). split; [done|]. destruct Hp as (_ & _ & _ & Hno & _ & _ & qs & Hqs & Hall & -> & _).
  cbn [app] in Hall. rewrite E in Hall. by apply wire_all_unique in Hall as [-> _].
Qed.

(** The first chunk lies at the front of the buffer. *)
Lemma read_first_chunk (tx : S) size a : 0 < zlen a < size -> size <= SimpleBuf.isize_max ->
  forall st, link_read_recv (link_read_init tx size) a = Ok st ->
    SimpleBuf.vacant_idx (rd_buffer st) = zlen a.
Proof.
  intros Ha Hs st. destruct (SimpleBuf.new_wf size) as [Hw Hc]; [lia|].
  assert (needs MIN_PACKET_HEADER_SIZE a) as Hne by apply needs_min.
  unfold link_read_recv, read_make_room. cbn [link_read_init rd_buffer rd_need rd_tx].
  rewrite SimpleBuf.len_ok, Hc by done. cbn [mbind outcome_bind]. change (zlen []) with 0.
  rewrite SimpleBuf.max_len_ok, Hc, SimpleBuf.reuse_front by done. cbn [mbind outcome_bind].
  change (zlen []) with 0. zcase; [|lia]. cbn [SimpleBuf.capacity SimpleBuf.new]. zcase; [lia|].
  cbn [mbind outcome_bind].
  destruct (SimpleBuf.push_slice_ok _ a Hw) as (buf & -> & Hwb & Hcb & _ & Hv & Hcap).
  { unfold SimpleBuf.room. cbn. lia. }
  cbn [or_exit mbind outcome_bind]. rewrite Hc in Hcb. cbn [app] in Hcb.
  pose proof (read_parse_post tx buf MIN_PACKET_HEADER_SIZE Hwb) as Hp. rewrite Hcb in Hp.
  specialize (Hp Hne (Z.le_refl _)).
  destruct (read_parse _ _ _) as [st1|[]|]; [|done..]. cbn [mbind outcome_bind].
  destruct Hp as (_ & Hcap1 & Hv1 & _). unfold SimpleBuf.reuse_if. cbn in Hv, Hcap. zcase; [lia|].
  cbn. intros [= <-]. cbn. lia.
Qed.

End ReadFacts.

(** * Properties *)

Section Properties.
Context `{DekuLaws} {S : Type} `{SenderLaws S Packet}.

(** C16. [parse_packet_buf] on any buffer: it returns (the fuel of the model is enough), it
    never panics ([occupied_bytes -= packet_size] does not underflow) and the full parse
    never fails after the header check. On success the packets sent are exactly the
    complete packets at the head of the buffer, in order, [consumed] is their total size,
    no complete packet is left, and the returned [need] is at least the minimal header and
    never more than the size of the packet to come. On a bad header or a closed channel the
    packets before it were sent. *)
Theorem parse_packet_buf_correct (tx : S) (buf : list byte) (Hb : zlen buf < usize_bound) :
  exists tx' r ps rest, parse_packet_buf tx buf = Some (tx', r) /\
    Forall wire_ok ps /\ buf = wire_all ps ++ rest /\ accepted tx' = accepted tx ++ ps /\
    match r with
    | Ok (consumed, need) => consumed = zlen (wire_all ps) /\ no_packet rest /\
        MIN_PACKET_HEADER_SIZE <= need /\ needs need rest
    | Err ParseHeaderFailed => ~ partial rest /\ no_packet rest
    | Err ResponseTxClosed => exists p k, wire_ok p /\ rest = wire p ++ k /\ send p tx' = None
    | Err ParsePacketFailed | Panic => False
    end.
Proof.
  destruct (parse_packet_buf_post tx buf Hb) as ([tx' r] & E & ps & rest & Hps & Hbuf & Ha & Hr).
  exists tx', r, ps, rest. split_and!; try done. cbn [snd fst] in Hr.
  destruct r as [[c n]|[]|]; try done. destruct Hr as (-> & ? & ? & ?). split_and!; done || lia.
Qed.

(** C12. Reassembly is independent of chunking: when the bytes of a list of packets, followed
    by an incomplete packet or nothing, arrive cut into chunks in any way and fit the buffer,
    the read loop hands over exactly those packets in order, and ends only because its
    input channel closed. *)
Theorem link_read_loop_reassembles `{!ReliableSender S Packet} (tx : S) (size : Z)
    (chunks : list (list byte)) (ps : list Packet) (tail : list byte)
    (Hps : Forall wire_ok ps) (Ht : partial tail)
    (Hc : concat chunks = wire_all ps ++ tail)
    (Hl : zlen (concat chunks) <= size <= SimpleBuf.isize_max) :
  exists tx', link_read_loop tx size chunks = Err (tx', RecvClosed) /\
    accepted tx' = accepted tx ++ ps.
Proof.
  pose proof (zlen_nonneg (concat chunks)).
  assert (read_inv tx size [] (link_read_init tx size)) as Hi by (apply read_init_inv; lia).
  pose proof (read_chunks_ok tx size chunks [] _ ps tail Hi Hps Ht Hc ltac:(simpl; lia)) as Hok.
  pose proof (read_chunks_post tx size chunks [] _ Hi) as Hp. unfold link_read_loop.
  destruct (link_read_chunks _ _) as [st|?|]; try done. cbn [mbind outcome_bind].
  exists (rd_tx st). split; [done|].
  destruct Hp as (_ & _ & _ & Hno & _ & _ & qs & Hqs & Hall & -> & _).
  change ([] ++ concat chunks) with (concat chunks) in Hall. rewrite Hc in Hall.
  pose proof (partial_no_packet _ Ht). by apply wire_all_unique in Hall as [-> _].
Qed.

(** C13. Safety of the read loop for any input, valid or not, any chunking and any consumer:
    it never panics, what it hands over is a prefix, packet by packet, of what it received
    (nothing lost, duplicated, reordered or altered), each packet handed over fits the
    buffer, and the way it ends is one of: input closed with no complete packet left, no
    space for a chunk, bytes no stream of packets starts with, or a closed consumer. *)
Theorem link_read_loop_sound (tx : S) (size : Z) (chunks : list (list byte))
    (Hs : 0 <= size <= SimpleBuf.isize_max) :
  exists tx' e ps rest, link_read_loop tx size chunks = Err (tx', e) /\
    Forall wire_ok ps /\ concat chunks = wire_all ps ++ rest /\
    accepted tx' = accepted tx ++ ps /\
    match e with
    | RecvClosed => no_packet rest /\ Forall (fun p => total_bytes p <= size) ps
    | BufferTooSmall _ _ | PushFailed _ => True
    | ParseFailed ParseHeaderFailed => malformed rest
    | ParseFailed ResponseTxClosed => exists p, send p tx' = None
    | FreeFailed _ | ParseFailed ParsePacketFailed => False
    end.
Proof.
  pose proof (read_chunks_post tx size chunks [] _ (read_init_inv tx size Hs)) as Hp.
  unfold link_read_loop. destruct (link_read_chunks _ _) as [st|[tx' e]|]; [| |done].
  - destruct Hp as (_ & _ & _ & Hno & _ & _ & ps & Hps & Hall & Ha & Hsz).
    exists (rd_tx st), RecvClosed, ps, (SimpleBuf.contents (rd_buffer st)). split_and!; try done.
    apply Forall_forall. intros p Hp. rewrite Forall_forall in Hsz, Hps.
    rewrite <- wire_length by auto. auto.
  - destruct Hp as (ps & rest & Hps & Hall & Ha & He). exists tx', e, ps, rest.
    split_and!; try done. by destruct e as [| | |[]|].
Qed.

(** When the space test lets a chunk in: on a valid stream with a live consumer, from
    any state the loop can be in, a chunk is handled exactly when, if it is longer than the
    pending bytes, the two together fit the buffer, and if it is not, it fits what is left
    of the buffer after the pending bytes, consumed bytes in front of them not counted. *)
Theorem link_read_recv_succeeds_iff `{!ReliableSender S Packet} (tx : S) (cap : Z)
    (all b : list byte) (st : read_state S) (ps : list Packet) (tail : list byte)
    (Hst : read_inv tx cap all st) (Hps : Forall wire_ok ps) (Ht : partial tail)
    (E : SimpleBuf.contents (rd_buffer st) ++ b = wire_all ps ++ tail) :
  is_ok (link_read_recv st b) = true <-> chunk_fits (rd_buffer st) b.
Proof.
  split; [|by eapply read_recv_ok]. intros Hok.
  pose proof (read_recv_post tx cap all st b Hst) as Hp.
  destruct (link_read_recv st b); try done. by destruct Hp.
Qed.


End Properties.

(** * Witnesses and the compaction defect *)

Definition push_packet (c : Command) (m : MsgType) (body : list byte) : Packet :=
  PPush {| push_reserved := 0; push_command := c; push_msg_type := m;
           push_body_len := len_u32 body; push_body := body |}.

Definition tick : Packet := push_packet CmdSubAllType MtTrade [].
Definition quote : Packet := push_packet CmdSubAllType MtDepths [x01; x02; x03; x04; x05; x06].

Lemma tick_quote_ok : Forall wire_ok [tick; quote].
Proof.
  repeat (apply List.Forall_cons || apply List.Forall_nil);
    unfold wire_ok, header_ok; concrete.
Qed.

(** The stream [tick; quote] cut after 11 bytes: five of [tick], six of [quote]. *)
Definition cut_chunks : list (list byte) :=
  [take 11 (wire_all [tick; quote]); drop 11 (wire_all [tick; quote])].


Lemma parse_packet_buf_correct_witness : exists tx' r ps rest,
  parse_packet_buf (S := unlimited Packet) [] (wire tick ++ [x24]) = Some (tx', r) /\
  Forall wire_ok ps /\ wire tick ++ [x24] = wire_all ps ++ rest /\
  accepted tx' = accepted (A := Packet) (S := unlimited Packet) [] ++ ps.
Proof.
  destruct (parse_packet_buf_correct (S := unlimited Packet) [] (wire tick ++ [x24]))
    as (tx' & r & ps & rest & E & H1 & H2 & H3 & _); [vm_compute; reflexivity|].
  by exists tx', r, ps, rest.
Defined.

Lemma link_read_loop_reassembles_witness : exists tx',
  link_read_loop (S := unlimited Packet) [] 16 cut_chunks = Err (tx', RecvClosed) /\
  accepted tx' = accepted (A := Packet) (S := unlimited Packet) [] ++ [tick; quote].
Proof.
  apply (link_read_loop_reassembles (S := unlimited Packet) [] 16 cut_chunks [tick; quote] []).
  - apply tick_quote_ok.
  - apply partial_nil.
  - vm_compute. reflexivity.
  - split; vm_compute; discriminate.
Defined.

Lemma link_read_loop_sound_witness : exists tx' e ps rest,
  link_read_loop (S := unlimited Packet) [] 14 cut_chunks = Err (tx', e) /\
  Forall wire_ok ps /\ concat cut_chunks = wire_all ps ++ rest /\
  accepted tx' = accepted (A := Packet) (S := unlimited Packet) [] ++ ps.
Proof.
  destruct (link_read_loop_sound (S := unlimited Packet) [] 14 cut_chunks)
    as (tx' & e & ps & rest & E & H1 & H2 & H3 & _); [split; vm_compute; discriminate|].
  by exists tx', e, ps, rest.
Defined.

Lemma link_read_recv_succeeds_iff_witness :
  is_ok (link_read_recv (link_read_init (S := unlimited Packet) [] 14) (wire tick)) = true <->
  chunk_fits (SimpleBuf.new 14) (wire tick).
Proof.
  apply (link_read_recv_succeeds_iff (S := unlimited Packet) [] 14 [] (wire tick)
    (link_read_init [] 14) [tick] []).
  - apply read_init_inv. split; vm_compute; discriminate.
  - apply (Forall_inv tick_quote_ok) || (constructor; [apply (Forall_inv tick_quote_ok)|constructor]).
  - apply partial_nil.
  - vm_compute. reflexivity.
Defined.
