(* ===== verification/Quic.v ===== *)
(** The interface of the QUIC library (quiche): the operations of [quiche::Connection] the
    link uses, and the documented facts about them the link relies on. [loopback] is a
    concrete connection used to evaluate the model. *)

From Stdlib Require Import ZArith Lia Strings.Byte.
From stdpp Require Import base list.
From S2P Require Import Prelude.

(** [Ok(v)], [Err(quiche::Error::Done)], any other error. *)
Inductive quic_result (A : Type) : Type :=
| QOk (a : A)
| QDone
| QErr.
Arguments QOk {A} a.
Arguments QDone {A}.
Arguments QErr {A}.

Class QuicConn (C : Type) := {
  (** [send(&mut buf)] with a buffer of the given size: the datagram to transmit *)
  conn_send : Z -> C -> C * quic_result (list byte);
  (** [recv(&mut data, info)]: how many bytes of [data] were processed *)
  conn_recv : list byte -> C -> C * quic_result Z;
  (** [readable()]: a snapshot of the streams with data *)
  conn_readable : C -> list Z;
  (** [stream_recv(id, &mut buf)] with a buffer of the given size: the data and [fin] *)
  conn_stream_recv : Z -> Z -> C -> C * quic_result (list byte * bool);
  (** [stream_send(id, data, false)]: how many bytes were accepted *)
  conn_stream_send : Z -> list byte -> C -> C * quic_result Z;
  conn_on_timeout : C -> C;
  (** [timeout()], in nanoseconds *)
  conn_timeout : C -> option Z;
  conn_is_timed_out : C -> bool;
  conn_is_closed : C -> bool;
  conn_is_established : C -> bool;
  (** bounds used as fuel: how many datagrams [send] can still produce, and how many reads
      a stream can still give, before [Done] *)
  send_bound : C -> nat;
  read_bound : Z -> C -> nat;
  (** what was accepted for the outgoing stream [0], and what the streams gave, so far *)
  stream_sent : C -> list byte;
  stream_read : C -> list byte
}.

(** [stream_send] refuses any data: the peer's flow control leaves no capacity. *)
Definition blocked `{QuicConn C} (id : Z) (c : C) : Prop :=
  forall b, b <> [] -> (conn_stream_send id b c).2 = QDone.

Class QuicLaws (C : Type) `{QuicConn C} : Prop := {
  stream_send_ok b c c' n : conn_stream_send 0 b c = (c', QOk n) ->
    0 <= n <= zlen b /\ (b <> [] -> 0 < n) /\
    stream_sent c' = stream_sent c ++ take (Z.to_nat n) b;
  (** [Done] on some data means no capacity, until the connection is used again *)
  stream_send_done b c c' : conn_stream_send 0 b c = (c', QDone) -> b <> [] ->
    stream_sent c' = stream_sent c /\ blocked 0 c';
  stream_send_read b c : stream_read (conn_stream_send 0 b c).1 = stream_read c;
  conn_send_frame n c : stream_sent (conn_send n c).1 = stream_sent c /\
    stream_read (conn_send n c).1 = stream_read c;
  conn_recv_frame b c : stream_sent (conn_recv b c).1 = stream_sent c /\
    stream_read (conn_recv b c).1 = stream_read c;
  on_timeout_frame c : stream_sent (conn_on_timeout c) = stream_sent c /\
    stream_read (conn_on_timeout c) = stream_read c;
  conn_recv_ok b c c' n : conn_recv b c = (c', QOk n) -> 0 <= n <= zlen b /\ (b <> [] -> 0 < n);
  stream_recv_sent id n c : stream_sent (conn_stream_recv id n c).1 = stream_sent c;
  stream_recv_ok id n c c' d fin : conn_stream_recv id n c = (c', QOk (d, fin)) ->
    zlen d <= n /\ stream_read c' = stream_read c ++ d;
  stream_recv_else id n c c' r : conn_stream_recv id n c = (c', r) ->
    (forall x, r <> QOk x) -> stream_read c' = stream_read c;
  (** a datagram fits the buffer it is written to *)
  conn_send_fits n c c' d : conn_send n c = (c', QOk d) -> 0 <= n -> zlen d <= n;
  (** each datagram produced, and each read into a buffer that is not empty, brings [Done]
      nearer; reading nothing into an empty buffer succeeds as often as it is done *)
  conn_send_bound n c c' d : conn_send n c = (c', QOk d) -> (send_bound c' < send_bound c)%nat;
  conn_send_read_bound id n c : (read_bound id (conn_send n c).1 <= read_bound id c)%nat;
  stream_recv_bound id n c c' x : 0 < n -> conn_stream_recv id n c = (c', QOk x) ->
    (read_bound id c' < read_bound id c)%nat
}.

(** * A concrete connection

    It accepts [credit] more bytes on its stream, owes [owed] datagrams of one byte, and what
    it receives becomes readable on stream 0, [fin] never set. It is established when it has
    received something. *)
Record loopback : Type := {
  credit : nat;
  owed : nat;
  lb_sent : list byte;
  lb_read : list byte;
  inbox : list byte
}.

#[export] Instance loopback_conn : QuicConn loopback := {|
  conn_send k c :=
    match owed c with
    | O => (c, QDone)
    | S n =>
        if 1 <=? k
        then ({| credit := credit c; owed := n; lb_sent := lb_sent c; lb_read := lb_read c;
                 inbox := inbox c |}, QOk [x40])
        else (c, QErr)
    end;
  conn_recv b c :=
    ({| credit := credit c; owed := S (owed c); lb_sent := lb_sent c; lb_read := lb_read c;
        inbox := inbox c ++ b |}, QOk (zlen b));
  conn_readable c := match inbox c with [] => [] | _ => [0] end;
  conn_stream_recv id n c :=
    let d := take (Z.to_nat n) (inbox c) in
    match inbox c with
    | [] => (c, QDone)
    | _ => if n <? 0 then (c, QErr) else
           ({| credit := credit c; owed := owed c; lb_sent := lb_sent c;
               lb_read := lb_read c ++ d; inbox := drop (Z.to_nat n) (inbox c) |}, QOk (d, false))
    end;
  conn_stream_send id b c :=
    let d := take (credit c) b in
    match b, d with
    | _ :: _, [] => (c, QDone)
    | _, _ => ({| credit := credit c - length d; owed := S (owed c);
                  lb_sent := if id =? 0 then lb_sent c ++ d else lb_sent c;
                  lb_read := lb_read c; inbox := inbox c |}, QOk (zlen d))
    end;
  conn_on_timeout c := c;
  conn_timeout c := None;
  conn_is_timed_out c := false;
  conn_is_closed c := false;
  conn_is_established c := match lb_read c ++ inbox c with [] => false | _ => true end;
  send_bound := owed;
  read_bound id c := length (inbox c);
  stream_sent := lb_sent;
  stream_read := lb_read
|}.

#[export] Instance loopback_laws : QuicLaws loopback.
Proof.
  constructor; cbn.
  - intros b c c' n E. destruct b as [|x b].
    + rewrite take_nil in E. simplify_eq. cbn. split_and!; done || lia.
    + destruct (take (credit c) (x :: b)) as [|y d] eqn:Et; simplify_eq. cbn.
      assert (length (y :: d) <= length (x :: b))%nat
        by (rewrite <- Et, length_take; lia).
      split_and!; [unfold zlen; lia|unfold zlen; simpl in *; lia|unfold zlen; simpl in *; lia|].
      f_equal. rewrite <- Et. unfold zlen. rewrite Nat2Z.id, length_take.
      destruct (Nat.min_spec (credit c) (length (x :: b))) as [[? ->]|[? ->]]; [done|].
      by rewrite !take_ge by lia.
  - intros b c c' E Hb. destruct b as [|x b]; [done|].
    destruct (take (credit c) (x :: b)) as [|y d] eqn:Et; simplify_eq. split; [done|].
    intros b' Hb'. destruct b' as [|z b']; [done|]. cbn.
    by destruct (credit c').
  - intros b c. destruct b; [by rewrite take_nil|]. by destruct (take _ _).
  - intros n c. destruct (owed c); [done|]. by zcase.
  - done.
  - done.
  - intros b c c' n [= <- <-]. pose proof (zlen_nonneg b). split; [lia|].
    intros Hb. destruct b; [done|]. unfold zlen. simpl. lia.
  - intros id n c. destruct (inbox c); [done|]. by zcase.
  - intros id n c c' d fin E. destruct (inbox c) as [|y l]; [done|]. revert E. zcase; [done|].
    intros E. simplify_eq. cbn [lb_read]. split; [|done]. unfold zlen. rewrite length_take. lia.
  - intros id n c c' r E Hr. destruct (inbox c); simplify_eq; [done|]. revert E. zcase; intros; simplify_eq; [done|].
    by destruct (Hr _ eq_refl).
  - intros n c c' d E. destruct (owed c); [done|]. revert E. zcase; [|done].
    intros [= <- <-] _. unfold zlen. cbn. lia.
  - intros n c c' d E. destruct (owed c) eqn:Eo; [done|]. revert E. zcase; [|done].
    intros [= <- <-]. cbn. lia.
  - intros id n c. destruct (owed c); [done|]. by zcase.
  - intros id n c c' x Hn E. destruct (inbox c) as [|y l]; [done|]. revert E. zcase; [done|].
    intros E. simplify_eq. cbn [inbox]. rewrite length_drop. cbn [length]. lia.
Qed.
