(* ===== verification/Process.v ===== *)
(** [link/src/transport/link.rs], the QUIC task: [quic_process_loop] with its
    [conn_send_loop!] macro, and [link_write_loop].

    Each arm of the [select!] is one handler in a state and error monad over the
    connection, the two outgoing channels, the buffer of unsent bytes and the timers spawned;
    [process_step] is one turn of the loop on the event [select!] picked. *)

From Stdlib Require Import ZArith Lia Strings.Byte.
From stdpp Require Import base list.
From S2P Require Import Prelude Buffer Deku Channel Packets Wire Quic.

(** [client.rs]: the stream everything is sent on. *)
Definition DEFAULT_CLIENT_BI_STREAM_ID : Z := 0.

Inductive process_error : Type :=
| ConnSendFailed
| UdpTxClosed
| ConnRecvFailed
| QuicTxClosed
| StreamFin
| StreamRecvFailed
| StreamSendFailed
| SendBufferFree (e : SimpleBuf.error)
| SendBufferTooSmall (max_len b_len : Z)
| SendBufferPush (e : SimpleBuf.error)
| ConnTimedOut
| ConnClosed
| TimeoutSignalClosed
| UdpRxClosed
| QuicRxClosed
(** the fuel of the model ran out: the code would not end this turn; see [process_run_total] *)
| OutOfFuel.

(** The variables of the loop. [timers] lists the sleeps spawned towards the time-out
    signal, in nanoseconds; [dropped] the messages given up with an error log. *)
Record proc (C U Q : Type) : Type := mk_proc {
  conn : C;
  udp_tx : U;
  quic_tx : Q;
  send_buf : SimpleBuf.t;
  timers : list Z;
  dropped : list (list byte)
}.
Arguments mk_proc {C U Q}.
Arguments conn {C U Q}.
Arguments udp_tx {C U Q}.
Arguments quic_tx {C U Q}.
Arguments send_buf {C U Q}.
Arguments timers {C U Q}.
Arguments dropped {C U Q}.

(** The buffer sizes the task is started with. *)
Record proc_cfg : Type := {
  udp_data_buffer_size : Z;
  stream_read_buffer_size : Z;
  stream_send_buffer_size : Z
}.

Definition PM (C U Q A : Type) : Type := proc C U Q -> proc C U Q * outcome process_error A.

#[export] Instance PM_ret C U Q : MRet (PM C U Q) := fun A a s => (s, Ok a).
#[export] Instance PM_bind C U Q : MBind (PM C U Q) := fun A B f m s =>
  match m s with
  | (s, Ok a) => f a s
  | (s, Err e) => (s, Err e)
  | (s, Panic) => (s, Panic)
  end.

Section Monad.
Context {C U Q : Type}.

Definition pfail {A} (e : process_error) : PM C U Q A := fun s => (s, Err e).

Definition pget {A} (f : proc C U Q -> A) : PM C U Q A := fun s => (s, Ok (f s)).

(** Runs an operation on the connection. *)
Definition on_conn {A} (f : C -> C * A) : PM C U Q A := fun s =>
  let '(c, a) := f (conn s) in
  (mk_proc c (udp_tx s) (quic_tx s) (send_buf s) (timers s) (dropped s), Ok a).

Definition set_buf (b : SimpleBuf.t) : PM C U Q unit := fun s =>
  (mk_proc (conn s) (udp_tx s) (quic_tx s) b (timers s) (dropped s), Ok tt).

Definition add_timer (d : Z) : PM C U Q unit := fun s =>
  (mk_proc (conn s) (udp_tx s) (quic_tx s) (send_buf s) (timers s ++ [d]) (dropped s), Ok tt).

Definition drop_message (b : list byte) : PM C U Q unit := fun s =>
  (mk_proc (conn s) (udp_tx s) (quic_tx s) (send_buf s) (timers s) (dropped s ++ [b]), Ok tt).

(** A pure computation that may fail. *)
Definition plift {E A} (f : E -> process_error) (m : outcome E A) : PM C U Q A := fun s =>
  (s, match m with Ok a => Ok a | Err e => Err (f e) | Panic => Panic end).

Definition send_udp `{Sender U (list byte)} (d : list byte) : PM C U Q unit := fun s =>
  match send d (udp_tx s) with
  | Some tx => (mk_proc (conn s) tx (quic_tx s) (send_buf s) (timers s) (dropped s), Ok tt)
  | None => (s, Err UdpTxClosed)
  end.

Definition send_quic `{Sender Q (list byte)} (d : list byte) : PM C U Q unit := fun s =>
  match send d (quic_tx s) with
  | Some tx => (mk_proc (conn s) (udp_tx s) tx (send_buf s) (timers s) (dropped s), Ok tt)
  | None => (s, Err QuicTxClosed)
  end.

End Monad.

Section Process.
Context {C U Q : Type} `{QuicConn C} `{!Sender U (list byte)} `{!Sender Q (list byte)}.
Context (cfg : proc_cfg).

Abbreviation P := (PM C U Q).

(** [conn_send_loop!]: sends the connection's datagrams until [Done]. With [timed] (the
    four-argument form) a time-out due in less than a millisecond spawns a timer. *)
Fixpoint conn_send_fuel (fuel : nat) (timed : bool) : P unit :=
  match fuel with
  | O => pfail OutOfFuel
  | S fuel =>
      r ← on_conn (conn_send (udp_data_buffer_size cfg));
      match r with
      | QDone => mret tt
      | QErr => pfail ConnSendFailed
      | QOk data =>
          (if timed then
             t ← pget (fun s => conn_timeout (conn s));
             match t with
             | Some d => if (d / 1000000 <? 1) && negb (d =? 0) then add_timer d else mret tt
             | None => mret tt
             end
           else mret tt) ≫= fun _ =>
          send_udp data ≫= fun _ => conn_send_fuel fuel timed
      end
  end.

Definition conn_send_loop (timed : bool) : P unit :=
  n ← pget (fun s => send_bound (conn s)); conn_send_fuel (S n) timed.

(** The arm of [timeout_signal_rx]. *)
Definition on_timeout_signal : P unit :=
  on_conn (fun c => (conn_on_timeout c, tt)) ≫= fun _ => conn_send_loop false.

(** [while sent < b.len() { conn.recv(&mut b[sent..]) }]. *)
Fixpoint recv_fuel (fuel : nat) (b : list byte) (sent : Z) : P unit :=
  match fuel with
  | O => pfail OutOfFuel
  | S fuel =>
      if sent <? zlen b then
        rest ← plift (E:=process_error) id (slice b sent (zlen b));
        r ← on_conn (conn_recv rest);
        match r with
        | QOk read => n ← plift (E:=process_error) id (uadd sent read); recv_fuel fuel b n
        | _ => pfail ConnRecvFailed
        end
      else mret tt
  end.

(** ['stream_read: loop] on one stream. *)
Fixpoint stream_read_fuel (fuel : nat) (id : Z) : P unit :=
  match fuel with
  | O => pfail OutOfFuel
  | S fuel =>
      r ← on_conn (conn_stream_recv id (stream_read_buffer_size cfg));
      match r with
      | QOk (data, fin) =>
          send_quic data ≫= fun _ =>
          if fin : bool then pfail StreamFin
          else conn_send_loop true ≫= fun _ => stream_read_fuel fuel id
      | QDone => mret tt
      | QErr => pfail StreamRecvFailed
      end
  end.

Fixpoint read_streams (ids : list Z) : P unit :=
  match ids with
  | [] => mret tt
  | id :: ids =>
      n ← pget (fun s => read_bound id (conn s));
      stream_read_fuel (S n) id ≫= fun _ => read_streams ids
  end.

(** The arm of [udp_data_recv_rx]. *)
Definition on_udp_data (b : list byte) : P unit :=
  recv_fuel (S (length b)) b 0 ≫= fun _ =>
  conn_send_loop true ≫= fun _ =>
  ids ← pget (fun s => conn_readable (conn s));
  read_streams ids.

(** ['stream_send: while !stream_send_buffer.is_empty()]: what earlier turns left. *)
Fixpoint send_pending_fuel (fuel : nat) : P unit :=
  match fuel with
  | O => pfail OutOfFuel
  | S fuel =>
      buf ← pget send_buf;
      empty ← plift (E:=process_error) id (SimpleBuf.is_empty buf);
      if empty : bool then mret tt
      else
        data ← plift (E:=process_error) id (SimpleBuf.occupied_slice buf);
        r ← on_conn (conn_stream_send DEFAULT_CLIENT_BI_STREAM_ID data);
        match r with
        | QOk sent =>
            buf ← plift SendBufferFree (SimpleBuf.free buf sent);
            set_buf buf ≫= fun _ =>
            conn_send_loop true ≫= fun _ => send_pending_fuel fuel
        | QDone => mret tt
        | QErr => pfail StreamSendFailed
        end
  end.

Definition send_pending : P unit :=
  n ← pget (fun s => length (SimpleBuf.contents (send_buf s))); send_pending_fuel (S n).

(** The arm of the ticker. *)
Definition on_tick : P unit :=
  send_pending ≫= fun _ =>
  t ← pget (fun s => conn_timeout (conn s));
  (match t with
   | Some d =>
       if d =? 0
       then on_conn (fun c => (conn_on_timeout c, tt)) ≫= fun _ => conn_send_loop false
       else mret tt
   | None => mret tt
   end) ≫= fun _ =>
  timed_out ← pget (fun s => conn_is_timed_out (conn s));
  if timed_out : bool then pfail ConnTimedOut
  else
    closed ← pget (fun s => conn_is_closed (conn s));
    if closed : bool then pfail ConnClosed else mret tt.

(** ['stream_send: while sent < b.len()]: the new message. Returns [sent]. *)
Fixpoint send_new_fuel (fuel : nat) (b : list byte) (sent : Z) : P Z :=
  match fuel with
  | O => pfail OutOfFuel
  | S fuel =>
      if sent <? zlen b then
        rest ← plift (E:=process_error) id (slice b sent (zlen b));
        r ← on_conn (conn_stream_send DEFAULT_CLIENT_BI_STREAM_ID rest);
        match r with
        | QOk v =>
            n ← plift (E:=process_error) id (uadd sent v);
            conn_send_loop true ≫= fun _ => send_new_fuel fuel b n
        | QDone => mret sent
        | QErr => pfail StreamSendFailed
        end
      else mret sent
  end.

(** The space test before the message is sent: [false] when it is dropped. *)
Definition make_room_or_drop (b : list byte) : P bool :=
  buf ← pget send_buf;
  n ← plift (E:=process_error) id (SimpleBuf.len buf);
  if n <? zlen b then
    m ← plift (E:=process_error) id (SimpleBuf.max_len buf);
    if m <? zlen b
    then drop_message b ≫= fun _ => mret false
    else buf ← plift (E:=process_error) id (SimpleBuf.reuse buf); set_buf buf ≫= fun _ => mret true
  else mret true.

(** Keeping what the stream did not take. *)
Definition keep_unsent (b : list byte) (sent : Z) : P unit :=
  if negb (sent =? zlen b) then
    buf ← pget send_buf;
    n ← plift (E:=process_error) id (SimpleBuf.len buf);
    (if n <? zlen b then
       m ← plift (E:=process_error) id (SimpleBuf.max_len buf);
       if m <? zlen b then pfail (SendBufferTooSmall m (zlen b))
       else buf ← plift (E:=process_error) id (SimpleBuf.reuse buf); set_buf buf
     else mret tt) ≫= fun _ =>
    buf ← pget send_buf;
    rest ← plift (E:=process_error) id (slice b sent (zlen b));
    buf ← plift SendBufferPush (SimpleBuf.push_slice buf rest);
    set_buf buf
  else mret tt.

(** The arm of [quic_data_send_rx]. *)
Definition on_quic_data (b : list byte) : P unit :=
  send_pending ≫= fun _ =>
  buf ← pget send_buf;
  r ← plift (E:=process_error) id (SimpleBuf.reuse_if buf);
  set_buf r.1 ≫= fun _ =>
  ok ← make_room_or_drop b;
  if ok : bool then
    sent ← send_new_fuel (S (length b)) b 0;
    keep_unsent b sent
  else mret tt.

(** What [select!] can pick. *)
Inductive process_event : Type :=
| TimeoutSignal           (* Ok or Lagged *)
| TimeoutSignalEnd
| UdpData (b : list byte)
| UdpEnd
| Tick
| QuicData (b : list byte)
| QuicEnd.

Definition process_step (e : process_event) : P unit :=
  match e with
  | TimeoutSignal => on_timeout_signal
  | TimeoutSignalEnd => pfail TimeoutSignalClosed
  | UdpData b => on_udp_data b
  | UdpEnd => pfail UdpRxClosed
  | Tick => on_tick
  | QuicData b => on_quic_data b
  | QuicEnd => pfail QuicRxClosed
  end.

(** [quic_process_loop] along the events picked: it goes on until a turn fails. *)
Fixpoint process_run (es : list process_event) : P unit :=
  match es with
  | [] => mret tt
  | e :: es => process_step e ≫= fun _ => process_run es
  end.

Definition process_init (c : C) (u : U) (q : Q) : proc C U Q :=
  mk_proc c u q (SimpleBuf.new (stream_send_buffer_size cfg)) [] [].

End Process.

(** * [link_write_loop] *)

Inductive write_error : Type :=
| QuicDataTxClosed
| PacketToBytesFailed
| RequestRxClosed.

Section Write.
Context `{DekuOps} {S : Type} `{Sender S (list byte)}.

(** One packet taken from [request_rx]. *)
Definition link_write_one (tx : S) (packet : Packet) : outcome (S * write_error) S :=
  match to_bytes packet with
  | Ok data =>
      match send data tx with
      | Some tx => Ok tx
      | None => Err (tx, QuicDataTxClosed)
      end
  | Err _ => Err (tx, PacketToBytesFailed)
  | Panic => Panic
  end.

Fixpoint link_write_packets (tx : S) (packets : list Packet) : outcome (S * write_error) S :=
  match packets with
  | [] => Ok tx
  | p :: packets => tx ← link_write_one tx p; link_write_packets tx packets
  end.

Definition link_write_loop (tx : S) (packets : list Packet) : outcome (S * write_error) unit :=
  tx ← link_write_packets tx packets; Err (tx, RequestRxClosed).

End Write.
