(* ===== verification/ProcessFacts.v ===== *)
(** The correctness of the QUIC task: every turn terminates without a panic, the outgoing
    stream is the accepted messages in order, and what the streams give is handed to the
    read loop in order. *)

From Stdlib Require Import ZArith Lia Strings.Byte.
From stdpp Require Import base list.
From S2P Require Import Prelude Buffer Deku Channel Packets Wire Quic Process.

(** * Weakest preconditions of the task monad

    [wp cfg m R s]: run from [s], [m] does not panic, does not run out of fuel unless the read
    buffer is empty, and if it succeeds its result and final state satisfy [R]. *)

Section Wp.
Context {C U Q : Type} (cfg : proc_cfg).

Definition wp {A} (m : PM C U Q A) (R : A -> proc C U Q -> Prop) (s : proc C U Q) : Prop :=
  match m s with
  | (s', Ok a) => R a s'
  | (_, Err e) => 0 < stream_read_buffer_size cfg -> e <> OutOfFuel
  | (_, Panic) => False
  end.

Lemma wp_ret {A} (a : A) R s : R a s -> wp (mret a) R s.
Proof. done. Qed.

Lemma wp_bind {A B} (m : PM C U Q A) (f : A -> PM C U Q B) R s :
  wp m (fun a => wp (f a) R) s -> wp (m ≫= f) R s.
Proof. unfold wp, mbind, PM_bind. destruct (m s) as [s' [a|e|]]; done. Qed.

Lemma wp_mono {A} (m : PM C U Q A) (R R' : A -> proc C U Q -> Prop) s :
  wp m R s -> (forall a s', R a s' -> R' a s') -> wp m R' s.
Proof. unfold wp. destruct (m s) as [s' [a|e|]]; auto. Qed.

Lemma wp_fail {A} e (R : A -> proc C U Q -> Prop) s : e <> OutOfFuel -> wp (pfail e) R s.
Proof. by intros He _. Qed.

Lemma wp_get {A} (f : proc C U Q -> A) R s : R (f s) s -> wp (pget f) R s.
Proof. done. Qed.

Lemma wp_lift_ok {E A} (f : E -> process_error) (m : outcome E A) a R s :
  m = Ok a -> R a s -> wp (plift f m : PM C U Q A) R s.
Proof. intros -> H. exact H. Qed.

Definition with_conn (s : proc C U Q) (c : C) : proc C U Q :=
  mk_proc c (udp_tx s) (quic_tx s) (send_buf s) (timers s) (dropped s).

Lemma wp_on_conn {A} (f : C -> C * A) R s :
  R (f (conn s)).2 (with_conn s (f (conn s)).1) -> wp (on_conn f) R s.
Proof. unfold wp, on_conn. by destruct (f (conn s)). Qed.

Definition with_buf (s : proc C U Q) (b : SimpleBuf.t) : proc C U Q :=
  mk_proc (conn s) (udp_tx s) (quic_tx s) b (timers s) (dropped s).

Lemma wp_set_buf b (R : unit -> proc C U Q -> Prop) s : R tt (with_buf s b) -> wp (set_buf b) R s.
Proof. done. Qed.

End Wp.

(** One step along the head of the program; the match is syntactic. *)
Ltac wp_step :=
  lazymatch goal with
  | |- wp _ (_ ≫= _) _ _ => apply wp_bind
  | |- wp _ (pget _) _ _ => apply wp_get
  | |- wp _ (on_conn _) _ _ => apply wp_on_conn
  | |- wp _ (set_buf _) _ _ => apply wp_set_buf
  | |- wp _ (mret _) _ _ => apply wp_ret
  end.

Section Facts.
Context {C U Q : Type} `{QuicLaws C} `{!Sender U (list byte)} `{SenderLaws Q (list byte)}.
Context (cfg : proc_cfg).
Implicit Types s : proc C U Q.

Abbreviation sent s := (stream_sent (conn s)).
Abbreviation pending s := (SimpleBuf.contents (send_buf s)).
Abbreviation given s := (stream_read (conn s)).

(** Only datagrams went out and timers were spawned. *)
Record quiet (s s' : proc C U Q) : Prop := {
  quiet_sent : sent s' = sent s;
  quiet_given : given s' = given s;
  quiet_quic : quic_tx s' = quic_tx s;
  quiet_buf : send_buf s' = send_buf s;
  quiet_dropped : dropped s' = dropped s;
  quiet_bound id : (read_bound id (conn s') <= read_bound id (conn s))%nat
}.

Lemma quiet_refl s : quiet s s.
Proof. by constructor. Qed.

Lemma quiet_trans s s' s'' : quiet s s' -> quiet s' s'' -> quiet s s''.
Proof. intros [] []. constructor; try congruence. intros id. etrans; eauto. Qed.

Lemma wp_send_udp d (R : unit -> proc C U Q -> Prop) s :
  (forall tx, R tt (mk_proc (conn s) tx (quic_tx s) (send_buf s) (timers s) (dropped s))) ->
  wp cfg (send_udp d) R s.
Proof. intros HR. unfold wp, send_udp. by destruct (send d (udp_tx s)). Qed.

Lemma conn_send_fuel_spec fuel timed s : (send_bound (conn s) < fuel)%nat ->
  wp cfg (conn_send_fuel cfg fuel timed) (fun _ s' => quiet s s') s.
Proof.
  revert s. induction fuel as [|fuel IH]; intros s Hf; [lia|]. cbn [conn_send_fuel].
  wp_step. wp_step.
  pose proof (conn_send_frame (udp_data_buffer_size cfg) (conn s)) as [Hs Hg].
  pose proof (conn_send_read_bound) as Hb. specialize (fun id => Hb id (udp_data_buffer_size cfg) (conn s)).
  destruct (conn_send (udp_data_buffer_size cfg) (conn s)) as [c' r] eqn:E. cbn [fst snd] in *.
  assert (quiet s (with_conn s c')) as Hq by (by constructor).
  destruct r as [d| |]; [|by wp_step|by apply wp_fail].
  apply conn_send_bound in E. wp_step.
  assert (forall s1, conn s1 = c' -> quiet s s1 ->
    wp cfg (send_udp d ≫= fun _ => conn_send_fuel cfg fuel timed) (fun _ s' => quiet s s') s1) as Hrest.
  { intros s1 Hc Hq1. wp_step. apply wp_send_udp. intros tx.
    eapply wp_mono; [apply IH; cbn; rewrite Hc; lia|]. cbn. intros _ s' Hq'.
    eapply quiet_trans; [exact Hq1|]. destruct Hq'. by constructor. }
  destruct timed; [|by wp_step; apply Hrest].
  wp_step. wp_step. destruct (conn_timeout _) as [t|]; [|by wp_step; apply Hrest].
  destruct (_ && _); [|by wp_step; apply Hrest].
  unfold wp, add_timer. apply Hrest; [done|]. destruct Hq. by constructor.
Qed.

Lemma conn_send_loop_spec timed s :
  wp cfg (conn_send_loop cfg timed) (fun _ s' => quiet s s') s.
Proof. unfold conn_send_loop. wp_step. wp_step. apply conn_send_fuel_spec. lia. Qed.

(** * The outgoing stream *)

(** What an arm that sends keeps: the channel to the read loop and what was read. *)
Record sending (s s' : proc C U Q) : Prop := {
  sending_wf : SimpleBuf.wf (send_buf s');
  sending_cap : SimpleBuf.capacity (send_buf s') = SimpleBuf.capacity (send_buf s);
  sending_given : given s' = given s;
  sending_quic : quic_tx s' = quic_tx s
}.

Lemma sending_trans s s' s'' : sending s s' -> sending s' s'' -> sending s s''.
Proof. intros [] []. constructor; congruence || done. Qed.

Lemma send_pending_fuel_spec fuel s : SimpleBuf.wf (send_buf s) ->
  (length (pending s) < fuel)%nat ->
  wp cfg (send_pending_fuel cfg fuel) (fun _ s' => sending s s' /\ dropped s' = dropped s /\
    sent s' ++ pending s' = sent s ++ pending s /\ (pending s' = [] \/ blocked 0 (conn s'))) s.
Proof.
  revert s. induction fuel as [|fuel IH]; intros s Hw Hf; [lia|]. cbn [send_pending_fuel].
  wp_step. wp_step. wp_step. eapply wp_lift_ok; [by apply SimpleBuf.is_empty_ok|].
  zcase.
  { wp_step. split_and!; try done. left. destruct (pending s); [done|unfold zlen in *; simpl in *; lia]. }
  wp_step. eapply wp_lift_ok; [by apply SimpleBuf.occupied_slice_ok|].
  assert (pending s <> []) as Hne by (intros E; by rewrite E in *).
  wp_step. wp_step. unfold DEFAULT_CLIENT_BI_STREAM_ID.
  pose proof (stream_send_read (pending s) (conn s)) as Hg.
  destruct (conn_stream_send 0 (pending s) (conn s)) as [c' r] eqn:E. cbn [fst snd] in *.
  destruct r as [v| |]; [| |by apply wp_fail].
  - apply stream_send_ok in E as (Hn & Hpos & Hs). specialize (Hpos Hne).
    destruct (SimpleBuf.free_ok (send_buf s) v Hw Hn) as (b' & Hfr & Hw' & Hc' & _ & _ & Hcap).
    wp_step. eapply wp_lift_ok; [exact Hfr|]. wp_step. wp_step. wp_step.
    eapply wp_mono; [apply conn_send_loop_spec|]. cbn beta. intros _ s1 [Q1 Q2 Q3 Q4 Q5 _].
    cbn in Q1, Q2, Q3, Q4, Q5.
    eapply wp_mono; [apply IH; rewrite Q4; [done|]|].
    { rewrite Hc', length_drop. unfold zlen in *. lia. }
    cbn beta. intros _ s2 (Hsend & Hd & Hss & Hbl). split_and!.
    + eapply sending_trans; [|exact Hsend]. constructor; rewrite ?Q4; congruence || done.
    + congruence.
    + rewrite Hss, Q1, Q4, Hc', Hs, <- app_assoc. by rewrite take_drop.
    + done.
  - apply stream_send_done in E as [Hs Hbl]; [|done]. wp_step.
    split_and!; [by constructor|done|by cbn; rewrite Hs|by right].
Qed.

Lemma send_pending_spec s : SimpleBuf.wf (send_buf s) ->
  wp cfg (send_pending cfg) (fun _ s' => sending s s' /\ dropped s' = dropped s /\
    sent s' ++ pending s' = sent s ++ pending s /\ (pending s' = [] \/ blocked 0 (conn s'))) s.
Proof. intros. unfold send_pending. wp_step. wp_step. apply send_pending_fuel_spec; [done|lia]. Qed.

Lemma send_new_fuel_spec fuel b n s : SimpleBuf.wf (send_buf s) ->
  zlen b < usize_bound -> 0 <= n <= zlen b -> (Z.to_nat (zlen b - n) < fuel)%nat ->
  wp cfg (send_new_fuel cfg fuel b n) (fun m s' => n <= m <= zlen b /\ sending s s' /\
    dropped s' = dropped s /\ send_buf s' = send_buf s /\
    sent s' ++ drop (Z.to_nat m) b = sent s ++ drop (Z.to_nat n) b /\
    (blocked 0 (conn s) -> m = n)) s.
Proof.
  revert n s. induction fuel as [|fuel IH]; intros n s Hw Hb Hn Hf; [lia|]. cbn [send_new_fuel].
  zcase; [|wp_step; split_and!; done || lia].
  wp_step. eapply wp_lift_ok; [by apply slice_ok; lia|].
  assert (take (Z.to_nat (zlen b - n)) (drop (Z.to_nat n) b) = drop (Z.to_nat n) b) as ->
    by (apply take_ge; rewrite length_drop; unfold zlen; lia).
  set (rest := drop (Z.to_nat n) b) in *.
  assert (zlen rest = zlen b - n) as Hl
    by (subst rest; rewrite zlen_drop; unfold zlen in *; lia).
  assert (rest <> []) as Hne by (intros E; rewrite E in Hl; change (zlen []) with 0 in Hl; lia).
  wp_step. wp_step. unfold DEFAULT_CLIENT_BI_STREAM_ID.
  pose proof (stream_send_read rest (conn s)) as Hg.
  assert (blocked 0 (conn s) -> (conn_stream_send 0 rest (conn s)).2 = QDone) as Hblk by auto.
  destruct (conn_stream_send 0 rest (conn s)) as [c' r] eqn:E. cbn [fst snd] in *.
  destruct r as [v| |]; [| |by apply wp_fail].
  - apply stream_send_ok in E as (Hv & Hpos & Hs). specialize (Hpos Hne).
    wp_step. eapply wp_lift_ok; [unfold uadd; by zcase; [|lia]|]. wp_step.
    eapply wp_mono; [apply conn_send_loop_spec|]. cbn beta. intros _ s1 [Q1 Q2 Q3 Q4 Q5 _].
    cbn in Q1, Q2, Q3, Q4, Q5.
    eapply wp_mono; [apply IH; rewrite ?Q4; done || lia|]. cbn beta.
    intros m s2 (Hm & Hsend & Hd & Hbuf & Hss & _). split_and!; try lia.
    + eapply sending_trans; [|exact Hsend]. constructor; rewrite ?Q4; congruence || done.
    + congruence.
    + congruence.
    + rewrite Hss, Q1, Hs, <- app_assoc. f_equal.
      replace (Z.to_nat (n + v)) with (Z.to_nat n + Z.to_nat v)%nat by lia.
      rewrite <- drop_drop. fold rest. by rewrite take_drop.
    + intros Hbk. by specialize (Hblk Hbk).
  - apply stream_send_done in E as [Hs _]; [|done]. wp_step.
    split_and!; try done || lia. by cbn; rewrite Hs.
Qed.

(** The buffer was rearranged or a message dropped; the connection was not touched. *)
Lemma make_room_spec b s : SimpleBuf.wf (send_buf s) ->
  wp cfg (make_room_or_drop b) (fun ok s' => sending s s' /\ conn s' = conn s /\
    pending s' = pending s /\ dropped s' = if ok : bool then dropped s else dropped s ++ [b]) s.
Proof.
  intros Hw. unfold make_room_or_drop. wp_step. wp_step. wp_step.
  eapply wp_lift_ok; [by apply SimpleBuf.len_ok|]. zcase; [|by wp_step].
  wp_step. eapply wp_lift_ok; [by apply SimpleBuf.max_len_ok|]. zcase; [by wp_step|].
  destruct (SimpleBuf.reuse_ok (E:=process_error) (send_buf s) Hw)
    as (b' & Hr & Hw' & Hc' & _ & _ & Hcap).
  wp_step. eapply wp_lift_ok; [exact Hr|]. wp_step. wp_step. wp_step. by split_and!.
Qed.

Lemma keep_unsent_spec b m s : SimpleBuf.wf (send_buf s) -> 0 <= m <= zlen b ->
  wp cfg (keep_unsent b m) (fun _ s' => sending s s' /\ conn s' = conn s /\
    pending s' = pending s ++ drop (Z.to_nat m) b /\ dropped s' = dropped s) s.
Proof.
  intros Hw Hm. unfold keep_unsent. zcase; cbn [negb].
  { wp_step. split_and!; try done. rewrite drop_ge by (unfold zlen in *; lia). by rewrite app_nil_r. }
  assert (forall s1, sending s s1 -> conn s1 = conn s -> pending s1 = pending s ->
    dropped s1 = dropped s -> wp cfg
      (buf ← pget send_buf; rest ← plift (E:=process_error) id (slice b m (zlen b));
       buf ← plift SendBufferPush (SimpleBuf.push_slice buf rest); set_buf buf)
      (fun _ s' => sending s s' /\ conn s' = conn s /\
        pending s' = pending s ++ drop (Z.to_nat m) b /\ dropped s' = dropped s) s1) as Hpush.
  { intros s1 Hs1 Hc1 Hp1 Hd1. wp_step. wp_step. wp_step.
    eapply wp_lift_ok; [by apply slice_ok; lia|].
    assert (take (Z.to_nat (zlen b - m)) (drop (Z.to_nat m) b) = drop (Z.to_nat m) b) as ->
      by (apply take_ge; rewrite length_drop; unfold zlen; lia).
    wp_step. destruct (Z.le_gt_cases (zlen (drop (Z.to_nat m) b)) (SimpleBuf.room (send_buf s1))).
    - destruct (SimpleBuf.push_slice_ok (send_buf s1) (drop (Z.to_nat m) b))
        as (b' & Hb' & Hw' & Hc' & _ & _ & Hcap); [by apply Hs1|done|].
      eapply wp_lift_ok; [exact Hb'|]. wp_step. cbn. split_and!; try done; [|congruence].
      destruct Hs1. constructor; cbn; congruence || done.
    - unfold wp, plift. rewrite SimpleBuf.push_slice_err by (apply Hs1 || done). done. }
  wp_step. wp_step. wp_step. eapply wp_lift_ok; [by apply SimpleBuf.len_ok|].
  wp_step. zcase; [|wp_step; by apply Hpush].
  wp_step. eapply wp_lift_ok; [by apply SimpleBuf.max_len_ok|]. zcase; [by apply wp_fail|].
  destruct (SimpleBuf.reuse_ok (E:=process_error) (send_buf s) Hw)
    as (b' & Hr & Hw' & Hc' & _ & _ & Hcap).
  wp_step. eapply wp_lift_ok; [exact Hr|]. wp_step. by apply Hpush.
Qed.

Lemma on_quic_data_spec b s : SimpleBuf.wf (send_buf s) -> zlen b < usize_bound ->
  wp cfg (on_quic_data cfg b) (fun _ s' => sending s s' /\
    ((dropped s' = dropped s /\ sent s' ++ pending s' = sent s ++ pending s ++ b) \/
     (dropped s' = dropped s ++ [b] /\ sent s' ++ pending s' = sent s ++ pending s))) s.
Proof.
  intros Hw Hb. unfold on_quic_data. wp_step.
  eapply wp_mono; [by apply send_pending_spec|]. cbn beta. intros _ s1 (K1 & D1 & S1 & B1).
  wp_step. wp_step. wp_step.
  destruct (SimpleBuf.reuse_if_ok (E:=process_error) (send_buf s1) (sending_wf _ _ K1))
    as (b2 & Hr & Hw2 & Hc2 & _ & Hcap2 & _).
  eapply wp_lift_ok; [exact Hr|]. wp_step. wp_step. cbn [fst]. wp_step.
  eapply wp_mono; [by apply make_room_spec|]. cbn beta. intros ok s3 (K3 & C3 & P3 & D3).
  assert (sending s s3) as K13.
  { eapply sending_trans; [exact K1|]. destruct K3. by constructor; cbn in *; congruence || done. }
  cbn [send_buf with_buf conn dropped] in C3, P3, D3. rewrite Hc2 in P3.
  destruct ok; cycle 1.
  { wp_step. split; [done|]. right. split; [congruence|]. by rewrite C3, P3, S1. }
  wp_step. pose proof (zlen_nonneg b).
  eapply wp_mono; [apply send_new_fuel_spec; [apply K3|done|lia|unfold zlen in *; lia]|].
  cbn beta. intros m s4 (Hm & K4 & D4 & F4 & S4 & B4).
  eapply wp_mono; [apply keep_unsent_spec; [apply K4|done]|].
  cbn beta. intros _ s5 (K5 & C5 & P5 & D5). split.
  { eapply sending_trans; [exact K13|]. by eapply sending_trans. }
  left. split; [congruence|]. rewrite C5, P5, F4, P3. rewrite C3 in B4, S4.
  change (Z.to_nat 0) with 0%nat in S4. rewrite drop_0 in S4. destruct B1 as [B1|B1].
  - rewrite B1 in *. rewrite app_nil_r in S1. simpl. rewrite S4, S1. by rewrite app_assoc.
  - rewrite (B4 B1) in *. change (Z.to_nat 0) with 0%nat in *. rewrite drop_0 in *.
    apply app_inv_tail in S4. by rewrite S4, app_assoc, S1, <- app_assoc.
Qed.

Lemma on_tick_spec s : SimpleBuf.wf (send_buf s) ->
  wp cfg (on_tick cfg) (fun _ s' => sending s s' /\ dropped s' = dropped s /\
    sent s' ++ pending s' = sent s ++ pending s) s.
Proof.
  intros Hw. unfold on_tick. wp_step. eapply wp_mono; [by apply send_pending_spec|].
  cbn beta. intros _ s1 (K1 & D1 & S1 & _). wp_step. wp_step. wp_step.
  assert (forall s2, sending s s2 -> dropped s2 = dropped s ->
    sent s2 ++ pending s2 = sent s ++ pending s -> wp cfg
      (timed_out ← pget (fun s : proc C U Q => conn_is_timed_out (conn s));
       if timed_out : bool then pfail ConnTimedOut
       else closed ← pget (fun s : proc C U Q => conn_is_closed (conn s));
         if closed : bool then pfail ConnClosed else mret tt)
      (fun _ s' => sending s s' /\ dropped s' = dropped s /\
        sent s' ++ pending s' = sent s ++ pending s) s2) as Hend.
  { intros. wp_step. wp_step. destruct (conn_is_timed_out _); [by apply wp_fail|].
    wp_step. wp_step. destruct (conn_is_closed _); [by apply wp_fail|]. by wp_step. }
  destruct (conn_timeout (conn s1)) as [d|]; [|wp_step; by apply Hend].
  zcase; [|wp_step; by apply Hend]. wp_step. wp_step. cbn [fst snd].
  eapply wp_mono; [apply conn_send_loop_spec|]. cbn beta. intros _ s2 [Q1 Q2 Q3 Q4 Q5 _].
  pose proof (on_timeout_frame (conn s1)) as [T1 T2]. cbn in Q1, Q2, Q3, Q4, Q5.
  apply Hend; [|congruence|by rewrite Q1, Q4, T1].
  eapply sending_trans; [exact K1|]. constructor; rewrite ?Q4; try congruence; apply K1.
Qed.

(** * The incoming streams *)

(** What an arm that reads keeps; the chunks handed to the read loop are, in order, what the
    streams gave, none longer than the read buffer. *)
Definition reading (s s' : proc C U Q) : Prop :=
  send_buf s' = send_buf s /\ dropped s' = dropped s /\ sent s' = sent s /\
  exists chunks, accepted (quic_tx s') = accepted (quic_tx s) ++ chunks /\
    given s' = given s ++ concat chunks /\
    Forall (fun d => zlen d <= stream_read_buffer_size cfg) chunks.

Lemma reading_trans s s' s'' : reading s s' -> reading s' s'' -> reading s s''.
Proof.
  intros (? & ? & ? & k & E & G & F) (? & ? & ? & k' & E' & G' & F').
  split_and!; try congruence. exists (k ++ k').
  rewrite E', E, G', G, concat_app, !app_assoc. split_and!; try done. by apply Forall_app.
Qed.

Lemma quiet_reading s s' : quiet s s' -> reading s s'.
Proof.
  intros [Q1 Q2 Q3 Q4 Q5 _]. split_and!; try done. exists []. rewrite Q3, Q2. simpl.
  rewrite !app_nil_r. done.
Qed.

Lemma recv_fuel_spec fuel b n s : zlen b < usize_bound -> 0 <= n <= zlen b ->
  (Z.to_nat (zlen b - n) < fuel)%nat ->
  wp cfg (recv_fuel (C:=C) (U:=U) (Q:=Q) fuel b n) (fun _ s' => reading s s') s.
Proof.
  revert n s. induction fuel as [|fuel IH]; intros n s Hb Hn Hf; [lia|]. cbn [recv_fuel].
  zcase; [|wp_step; apply quiet_reading, quiet_refl].
  wp_step. eapply wp_lift_ok; [by apply slice_ok; lia|].
  assert (take (Z.to_nat (zlen b - n)) (drop (Z.to_nat n) b) = drop (Z.to_nat n) b) as ->
    by (apply take_ge; rewrite length_drop; unfold zlen; lia).
  set (rest := drop (Z.to_nat n) b) in *.
  assert (zlen rest = zlen b - n) as Hl
    by (subst rest; rewrite zlen_drop; unfold zlen in *; lia).
  assert (rest <> []) as Hne by (intros E; rewrite E in Hl; change (zlen []) with 0 in Hl; lia).
  wp_step. wp_step. pose proof (conn_recv_frame rest (conn s)) as [Hs Hg].
  destruct (conn_recv rest (conn s)) as [c' r] eqn:E. cbn [fst snd] in *.
  destruct r as [v| |]; [|by apply wp_fail|by apply wp_fail].
  apply conn_recv_ok in E as [Hv Hpos]. specialize (Hpos Hne).
  wp_step. eapply wp_lift_ok; [unfold uadd; by zcase; [|lia]|].
  eapply wp_mono; [apply IH; lia|]. cbn beta. intros _ s' Hr.
  eapply reading_trans; [|exact Hr]. split_and!; try done. exists []. cbn.
  rewrite Hg, !app_nil_r. done.
Qed.

Lemma wp_send_quic d (R : unit -> proc C U Q -> Prop) s :
  (forall tx, accepted tx = accepted (quic_tx s) ++ [d] ->
    R tt (mk_proc (conn s) (udp_tx s) tx (send_buf s) (timers s) (dropped s))) ->
  wp cfg (send_quic d) R s.
Proof.
  intros HR. unfold wp, send_quic. destruct (send d (quic_tx s)) as [tx|] eqn:E; [|done].
  apply HR. by apply send_accepted.
Qed.

Lemma stream_read_fuel_spec fuel id s :
  (0 < stream_read_buffer_size cfg -> (read_bound id (conn s) < fuel)%nat) ->
  wp cfg (stream_read_fuel cfg fuel id) (fun _ s' => reading s s') s.
Proof.
  revert s. induction fuel as [|fuel IH]; intros s Hf; cbn [stream_read_fuel].
  { intros Hpos. specialize (Hf Hpos). lia. }
  wp_step. wp_step.
  pose proof (stream_recv_sent id (stream_read_buffer_size cfg) (conn s)) as Hs.
  destruct (conn_stream_recv id (stream_read_buffer_size cfg) (conn s)) as [c' r] eqn:E.
  cbn [fst snd] in *. destruct r as [[d fin]| |]; [| |by apply wp_fail].
  - pose proof (fun Hpos => stream_recv_bound _ _ _ _ _ Hpos E) as Hbd. apply stream_recv_ok in E as [Hd Hg].
    wp_step. apply wp_send_quic. intros tx Htx. destruct fin; [by apply wp_fail|].
    wp_step. eapply wp_mono; [apply conn_send_loop_spec|]. cbn beta. intros _ s1 Hq.
    eapply wp_mono; [apply IH; intros Hpos; specialize (Hf Hpos); specialize (Hbd Hpos);
      pose proof (quiet_bound _ _ Hq id); cbn in *; lia|].
    cbn beta. intros _ s2 Hr. eapply reading_trans; [|exact Hr].
    destruct Hq as [Q1 Q2 Q3 Q4 Q5 _]. cbn in Q1, Q2, Q3, Q4, Q5.
    split_and!; try congruence. exists [d]. rewrite Q3, Q2. cbn. rewrite app_nil_r.
    split_and!; try done. by constructor.
  - wp_step. split_and!; try done. exists []. cbn. rewrite !app_nil_r.
    split_and!; try done. by eapply stream_recv_else.
Qed.

Lemma read_streams_spec ids s : wp cfg (read_streams cfg ids) (fun _ s' => reading s s') s.
Proof.
  revert s. induction ids as [|id ids IH]; intros s; cbn [read_streams].
  { wp_step. apply quiet_reading, quiet_refl. }
  wp_step. wp_step. wp_step. eapply wp_mono; [apply stream_read_fuel_spec; lia|].
  cbn beta. intros _ s1 K1. eapply wp_mono; [apply IH|]. cbn beta. intros _ s2.
  by apply reading_trans.
Qed.

Lemma on_udp_data_spec b s : zlen b < usize_bound ->
  wp cfg (on_udp_data cfg b) (fun _ s' => reading s s') s.
Proof.
  intros Hb. unfold on_udp_data. wp_step. pose proof (zlen_nonneg b).
  eapply wp_mono; [apply recv_fuel_spec; [done|lia|unfold zlen in *; lia]|].
  cbn beta. intros _ s1 K1. wp_step. eapply wp_mono; [apply conn_send_loop_spec|].
  cbn beta. intros _ s2 K2%quiet_reading. wp_step. wp_step.
  eapply wp_mono; [apply read_streams_spec|]. cbn beta. intros _ s3 K3.
  eapply reading_trans; [exact K1|]. by eapply reading_trans.
Qed.

Lemma on_timeout_signal_spec s : wp cfg (on_timeout_signal cfg) (fun _ s' => reading s s') s.
Proof.
  unfold on_timeout_signal. wp_step. wp_step. cbn [fst snd].
  eapply wp_mono; [apply conn_send_loop_spec|]. cbn beta. intros _ s' [Q1 Q2 Q3 Q4 Q5 _].
  pose proof (on_timeout_frame (conn s)) as [T1 T2]. cbn in Q1, Q2, Q3, Q4, Q5.
  split_and!; try congruence. exists []. cbn. rewrite Q3, Q2, T2, !app_nil_r. done.
Qed.

(** * Turns and runs *)

Definition event_ok (e : process_event) : Prop :=
  match e with
  | QuicData b | UdpData b => zlen b < usize_bound
  | _ => True
  end.

Definition messages_of (e : process_event) : list (list byte) :=
  match e with QuicData b => [b] | _ => [] end.

(** The messages [msgs] were split, each kept in order or dropped. *)
Definition split_messages (msgs kept gone : list (list byte)) : Prop :=
  kept `sublist_of` msgs /\ kept ++ gone ≡ₚ msgs.

Record turns (msgs : list (list byte)) (s s' : proc C U Q) : Prop := {
  turns_wf : SimpleBuf.wf (send_buf s');
  turns_out : exists kept gone, split_messages msgs kept gone /\
    dropped s' = dropped s ++ gone /\
    sent s' ++ pending s' = sent s ++ pending s ++ concat kept;
  turns_in : exists chunks, accepted (quic_tx s') = accepted (quic_tx s) ++ chunks /\
    given s' = given s ++ concat chunks /\
    Forall (fun d => zlen d <= stream_read_buffer_size cfg) chunks
}.

Lemma turns_refl s : SimpleBuf.wf (send_buf s) -> turns [] s s.
Proof.
  intros Hw. constructor; [done| |]; [exists [], []|exists []]; simpl; rewrite !app_nil_r; done.
Qed.

Lemma turns_trans ms ms' s s' s'' : turns ms s s' -> turns ms' s' s'' -> turns (ms ++ ms') s s''.
Proof.
  intros [_ (k & g & [Hk Hp] & D & S) (c & A & G & F)]
    [W (k' & g' & [Hk' Hp'] & D' & S') (c' & A' & G' & F')].
  constructor; [done| |].
  - exists (k ++ k'), (g ++ g'). split_and!.
    + split; [by apply sublist_app|]. rewrite <- Hp, <- Hp'. solve_Permutation.
    + by rewrite D', D, app_assoc.
    + rewrite S', app_assoc, S, concat_app. by rewrite !app_assoc.
  - exists (c ++ c'). rewrite A', A, G', G, concat_app, !app_assoc.
    split_and!; try done. by apply Forall_app.
Qed.

Lemma sending_turns msgs kept gone s s' : sending s s' -> split_messages msgs kept gone ->
  dropped s' = dropped s ++ gone -> sent s' ++ pending s' = sent s ++ pending s ++ concat kept ->
  turns msgs s s'.
Proof.
  intros [W _ G A] Hs D S. constructor; [done|by exists kept, gone|].
  exists []. rewrite A, G. simpl. by rewrite !app_nil_r.
Qed.

Lemma reading_turns s s' : SimpleBuf.wf (send_buf s) -> reading s s' -> turns [] s s'.
Proof.
  intros Hw (B & D & S & Hc). constructor; [by rewrite B| |done].
  exists [], []. simpl. by rewrite B, D, S, !app_nil_r.
Qed.

Lemma process_step_spec e s : SimpleBuf.wf (send_buf s) -> event_ok e ->
  wp cfg (process_step cfg e) (fun _ s' => turns (messages_of e) s s') s.
Proof.
  intros Hw He. destruct e as [| |b| | |b|]; cbn [process_step messages_of];
    try (by apply wp_fail).
  - eapply wp_mono; [apply on_timeout_signal_spec|]. cbn beta. intros _ s'. by apply reading_turns.
  - eapply wp_mono; [by apply on_udp_data_spec|]. cbn beta. intros _ s'. by apply reading_turns.
  - eapply wp_mono; [by apply on_tick_spec|]. cbn beta. intros _ s' (K & D & S).
    apply (sending_turns [] [] []); try done; simpl; by rewrite ?app_nil_r.
  - eapply wp_mono; [by apply on_quic_data_spec|]. cbn beta. intros _ s' (K & [[D S]|[D S]]).
    + apply (sending_turns [b] [b] []); simpl; rewrite ?app_nil_r; try done.
    + apply (sending_turns [b] [] [b]); simpl; rewrite ?app_nil_r; try done.
      split; [apply sublist_nil_l|done].
Qed.

Lemma process_run_spec es s : SimpleBuf.wf (send_buf s) -> Forall event_ok es ->
  wp cfg (process_run cfg es) (fun _ s' => turns (es ≫= messages_of) s s') s.
Proof.
  intros Hw Hes. revert s Hw. induction Hes as [|e es He Hes IH]; intros s Hw.
  { by apply wp_ret, turns_refl. }
  cbn [process_run]. wp_step. eapply wp_mono; [by apply process_step_spec|].
  cbn beta. intros _ s1 T1. eapply wp_mono; [apply IH, T1|]. cbn beta. intros _ s2 T2.
  by eapply turns_trans.
Qed.

(** * Properties *)

(** C15. No turn of the QUIC task panics, and every turn terminates when the read buffer is not
    empty: from a fresh task, along any sequence of events, no buffer index or slice is out of
    range, and no loop of a handler runs for ever (the fuel of the model never runs out, given
    that the connection produces finitely many datagrams, and gives finitely many reads into a
    buffer that holds something), whatever the connection and the channels answer. *)
Theorem process_run_total (c : C) (u : U) (q : Q) (es : list process_event)
    (Hsize : 0 <= stream_send_buffer_size cfg <= SimpleBuf.isize_max)
    (Hes : Forall event_ok es) :
  match (process_run cfg es (process_init cfg c u q)).2 with
  | Ok _ => True
  | Err e => 0 < stream_read_buffer_size cfg -> e <> OutOfFuel
  | Panic => False
  end.
Proof.
  pose proof (process_run_spec es (process_init cfg c u q)) as Hr.
  specialize (Hr (proj1 (SimpleBuf.new_wf _ Hsize)) Hes). unfold wp in Hr.
  by destruct (process_run _ _ _) as [s' [?|?|]].
Qed.

(** C14. The outgoing stream is a FIFO of whole messages: after any run of the task that has
    not failed, the bytes accepted by the QUIC stream followed by the bytes still buffered
    are the concatenation, in order, of the messages received and not dropped; every
    message is either among them or in the drop log. Partial sends, back-pressure, buffer
    compaction and retries by the ticker never lose, reorder or interleave bytes. *)
Theorem process_run_fifo (c : C) (u : U) (q : Q) (es : list process_event) (s' : proc C U Q)
    (Hsize : 0 <= stream_send_buffer_size cfg <= SimpleBuf.isize_max)
    (Hes : Forall event_ok es) (Hc : stream_sent c = [])
    (Hrun : process_run cfg es (process_init cfg c u q) = (s', Ok tt)) :
  exists kept, kept `sublist_of` (es ≫= messages_of) /\
    kept ++ dropped s' ≡ₚ (es ≫= messages_of) /\
    stream_sent (conn s') ++ SimpleBuf.contents (send_buf s') = concat kept.
Proof.
  destruct (SimpleBuf.new_wf _ Hsize) as [Hw Hn].
  pose proof (process_run_spec es (process_init cfg c u q) Hw Hes) as Hr.
  unfold wp in Hr. rewrite Hrun in Hr. destruct Hr as [_ (kept & gone & [Hk Hp] & D & S) _].
  exists kept. cbn in D, S. rewrite D, S, Hc. cbn [process_init send_buf] in *.
  by rewrite Hn.
Qed.

(** Incoming data is handed on in order: after any run that has not failed, the chunks
    given to the read loop are, concatenated, exactly what the connection's streams gave,
    and none is longer than the stream read buffer. *)
Theorem process_run_delivers (c : C) (u : U) (q : Q) (es : list process_event)
    (s' : proc C U Q)
    (Hsize : 0 <= stream_send_buffer_size cfg <= SimpleBuf.isize_max)
    (Hes : Forall event_ok es)
    (Hrun : process_run cfg es (process_init cfg c u q) = (s', Ok tt)) :
  exists chunks, accepted (quic_tx s') = accepted q ++ chunks /\
    stream_read (conn s') = stream_read c ++ concat chunks /\
    Forall (fun d => zlen d <= stream_read_buffer_size cfg) chunks.
Proof.
  destruct (SimpleBuf.new_wf _ Hsize) as [Hw Hn].
  pose proof (process_run_spec es (process_init cfg c u q) Hw Hes) as Hr.
  unfold wp in Hr. rewrite Hrun in Hr. by destruct Hr as [_ _ Hin].
Qed.

End Facts.

(** * The write loop *)

Section WriteFacts.
Context `{DekuLaws} {S : Type} `{SenderLaws S (list byte)}.

(** The write loop turns packets into wire bytes, one message per packet: on packets
    whose fields fit, with a live consumer, it ends only because its input closed, having
    sent the serialisation of each packet, in order. *)
Theorem link_write_loop_correct `{!ReliableSender S (list byte)} (tx : S) (ps : list Packet)
    (Hps : Forall (fun p => header_ok (header_of p)) ps) :
  exists tx', link_write_loop tx ps = Err (tx', RequestRxClosed) /\
    accepted tx' = accepted tx ++ map wire ps.
Proof.
  assert (exists tx', link_write_packets tx ps = Ok tx' /\
    accepted tx' = accepted tx ++ map wire ps) as (tx' & E & A).
  { revert tx. induction Hps as [|p ps Hp Hps IH]; intros tx; cbn [link_write_packets map].
    { exists tx. by rewrite app_nil_r. }
    unfold link_write_one. rewrite to_bytes_wire by done.
    destruct (send_reliable (wire p) tx) as [tx1 E1]. rewrite E1. cbn [mbind outcome_bind].
    destruct (IH tx1) as (tx2 & E2 & A2). exists tx2. split; [done|].
    rewrite A2, (send_accepted _ _ _ E1), <- app_assoc. done. }
  exists tx'. unfold link_write_loop. by rewrite E.
Qed.

End WriteFacts.

(** * Witnesses

    A connection with little credit: a first message goes out in part, a second is queued. *)

Definition small_cfg : proc_cfg :=
  {| udp_data_buffer_size := 16; stream_read_buffer_size := 4; stream_send_buffer_size := 8 |}.

Definition fresh (n : nat) : loopback :=
  {| credit := n; owed := 0; lb_sent := []; lb_read := []; inbox := [] |}.

Definition sample_events : list process_event :=
  [QuicData [x01; x02; x03]; QuicData [x04; x05]; Tick; UdpData [x06; x07; x08; x09; x0a];
   QuicData [x0b; x0b; x0b; x0b; x0b; x0b; x0b; x0b; x0b]].

Lemma events_ok_dec es :
  forallb (fun e => match e with QuicData b | UdpData b => zlen b <? usize_bound | _ => true end)
    es = true -> Forall event_ok es.
Proof.
  rewrite List.forallb_forall, List.Forall_forall.
  intros Hes e He. apply Hes in He. by destruct e; zbool.
Qed.

Lemma sample_events_ok : Forall event_ok sample_events.
Proof. apply events_ok_dec. vm_compute. reflexivity. Qed.

Abbreviation bytes_tx := (unlimited (list byte)).

Definition sample_run : proc loopback bytes_tx bytes_tx * outcome process_error unit :=
  process_run small_cfg sample_events (process_init small_cfg (fresh 2) [] []).

Example sample_run_result :
  let s := sample_run.1 in
  sample_run.2 = Ok tt /\ stream_sent (conn s) = [x01; x02] /\
  SimpleBuf.contents (send_buf s) = [x03; x04; x05] /\
  dropped s = [[x0b; x0b; x0b; x0b; x0b; x0b; x0b; x0b; x0b]] /\
  accepted (quic_tx s) = [[x06; x07; x08; x09]; [x0a]].
Proof. vm_compute. done. Qed.

Lemma process_run_total_witness :
  match sample_run.2 with
  | Ok _ => True
  | Err e => 0 < stream_read_buffer_size small_cfg -> e <> OutOfFuel
  | Panic => False
  end.
Proof.
  apply (process_run_total small_cfg (fresh 2) ([] : bytes_tx) ([] : bytes_tx));
    [concrete|apply sample_events_ok].
Defined.

(** A read buffer of no bytes, which the configuration allows: reading nothing from a stream
    that has data succeeds again and again, so that the loop of the stream never ends. *)
Lemma empty_read_spins cfg fuel id (s : proc loopback bytes_tx bytes_tx) :
  stream_read_buffer_size cfg = 0 -> inbox (conn s) <> [] -> owed (conn s) = O ->
  (stream_read_fuel cfg fuel id s).2 = Err OutOfFuel.
Proof.
  intros Hcfg. revert s. induction fuel as [|fuel IH]; intros s Hin Ho; [done|].
  cbn [stream_read_fuel]. unfold mbind at 1, PM_bind at 1, on_conn. rewrite Hcfg. cbn.
  destruct (inbox (conn s)) as [|x l] eqn:Ei; [done|]. cbn. rewrite Ho. by apply IH.
Qed.

Lemma process_run_fifo_witness : exists kept, kept `sublist_of` (sample_events ≫= messages_of) /\
  kept ++ dropped sample_run.1 ≡ₚ (sample_events ≫= messages_of) /\
  stream_sent (conn sample_run.1) ++ SimpleBuf.contents (send_buf sample_run.1) = concat kept.
Proof.
  apply (process_run_fifo small_cfg (fresh 2) ([] : bytes_tx) ([] : bytes_tx) sample_events);
    [concrete|apply sample_events_ok|reflexivity|vm_compute; reflexivity].
Defined.

Lemma process_run_delivers_witness : exists chunks,
  accepted (quic_tx sample_run.1) = accepted ([] : bytes_tx) ++ chunks /\
  stream_read (conn sample_run.1) = stream_read (fresh 2) ++ concat chunks /\
  Forall (fun d => zlen d <= stream_read_buffer_size small_cfg) chunks.
Proof.
  apply (process_run_delivers small_cfg (fresh 2) ([] : bytes_tx) ([] : bytes_tx) sample_events);
    [concrete|apply sample_events_ok|vm_compute; reflexivity].
Defined.

Lemma link_write_loop_correct_witness : exists tx',
  link_write_loop ([] : bytes_tx) [sample_request] = Err (tx', RequestRxClosed) /\
  accepted tx' = accepted ([] : bytes_tx) ++ map wire [sample_request].
Proof.
  apply (link_write_loop_correct ([] : bytes_tx) [sample_request]).
  constructor; [apply sample_request_ok|constructor].
Defined.
