(* ===== verification/EndToEnd.v ===== *)
(** One direction of a link, from the packets written at one end to the packets handed to
    the consumer at the other: [link_write_loop], the sender's QUIC task, the stream, the
    receiver's QUIC task and [link_read_loop], composed as [Transport::connect] and
    [accept_new_conn] compose them. *)

From Stdlib Require Import ZArith Lia Strings.Byte.
From stdpp Require Import base list.
From S2P Require Import Prelude Buffer Deku Channel Packets Wire Link Quic Process ProcessFacts.

Section Pieces.
Context `{DekuLaws}.

(** A message list drawn in order from serialised packets is itself serialised packets. *)
Lemma sublist_wire msgs ps : msgs `sublist_of` map wire ps ->
  exists qs, qs `sublist_of` ps /\ msgs = map wire qs.
Proof.
  revert msgs. induction ps as [|p ps IH]; cbn [map]; intros msgs Hm.
  - apply sublist_nil_r in Hm as ->. by exists [].
  - apply sublist_cons_r in Hm as [Hm|(m & -> & Hm)]; apply IH in Hm as (qs & Hqs & ->).
    + exists qs. split; [by apply sublist_cons|done].
    + exists (p :: qs). split; [by apply sublist_skip|done].
Qed.

Lemma prefix_wire msgs ps : msgs `prefix_of` map wire ps ->
  exists qs, qs `prefix_of` ps /\ msgs = map wire qs.
Proof.
  intros [k E]. apply map_eq_app in E as (qs & rs & -> & <- & <-).
  exists qs. split; [by exists rs|done].
Qed.

Lemma prefix_sublist {A} (l k : list A) : l `prefix_of` k -> l `sublist_of` k.
Proof. intros [x ->]. by apply sublist_inserts_r. Qed.

Lemma Forall_sublist {A} (P : A -> Prop) l k : l `sublist_of` k -> Forall P k -> Forall P l.
Proof. rewrite !Forall_forall. intros Hs HP x Hx. apply HP. by eapply elem_of_sublist. Qed.

Lemma sublist_full {A} (l k : list A) : l `sublist_of` k -> length l = length k -> l = k.
Proof.
  induction 1 as [|x l k Hs IH|x l k Hs IH]; cbn [length]; intros E; [done| |].
  - f_equal. apply IH. lia.
  - apply sublist_length in Hs. lia.
Qed.

(** A prefix of the bytes of [ps] is the bytes of a prefix of [ps] and part of the next. *)
Lemma prefix_wire_all l ps : Forall wire_ok ps -> l `prefix_of` wire_all ps ->
  exists qs tail, qs `prefix_of` ps /\ partial tail /\ l = wire_all qs ++ tail.
Proof.
  intros Hps. revert l. induction Hps as [|p ps Hp Hps IH]; intros l [k E].
  - symmetry in E. apply app_eq_nil in E as [-> ->]. exists [], [].
    split_and!; [done|apply partial_nil|done].
  - rewrite wire_all_cons in E. symmetry in E.
    apply app_eq_app in E as (m & [[-> E]|[E ->]]).
    + destruct (IH m) as (qs & r & Hqs & Hr & ->); [by exists k|].
      exists (p :: qs), r. split_and!; [by apply prefix_cons|done|].
      by rewrite wire_all_cons, app_assoc.
    + destruct m as [|x m].
      * exists [p], []. rewrite app_nil_r in E. subst l.
        split_and!; [by exists ps|apply partial_nil|].
        by rewrite wire_all_cons, !app_nil_r.
      * exists [], l. split_and!; [by exists (p :: ps)| |done]. by exists p, (x :: m).
Qed.

(** The packets at the head of a valid stream are its own. *)
Lemma wire_all_head qs tail rs rest : Forall wire_ok qs -> Forall wire_ok rs ->
  no_packet tail -> wire_all qs ++ tail = wire_all rs ++ rest ->
  exists xs, qs = rs ++ xs /\ rest = wire_all xs ++ tail.
Proof.
  intros Hqs Hrs Ht. revert qs Hqs. induction Hrs as [|r rs Hr Hrs IH]; intros qs Hqs E.
  { by exists qs. }
  rewrite (wire_all_cons r), <- app_assoc in E. destruct Hqs as [|q qs Hq Hqs].
  { by apply Ht in E. }
  rewrite wire_all_cons, <- app_assoc in E. apply wire_prefix_unique in E as [-> E]; [|done|done].
  destruct (IH qs Hqs E) as (xs & -> & ->). by exists xs.
Qed.

Context {W : Type} `{SenderLaws W (list byte)}.

(** What the write loop sent, however it ended. *)
Lemma link_write_sent (tx : W) ps tx' e : Forall wire_ok ps ->
  link_write_loop tx ps = Err (tx', e) ->
  exists qs, qs `prefix_of` ps /\ accepted tx' = accepted tx ++ map wire qs.
Proof.
  intros Hps. unfold link_write_loop. revert tx.
  induction Hps as [|p ps Hp Hps IH]; intros tx; cbn [link_write_packets].
  - cbn. intros [= <- _]. exists []. by rewrite app_nil_r.
  - unfold link_write_one. rewrite to_bytes_wire by apply Hp.
    destruct (send (wire p) tx) as [tx1|] eqn:E; cbn [mbind outcome_bind].
    + intros Hr. apply IH in Hr as (qs & Hqs & Ha). exists (p :: qs).
      split; [by apply prefix_cons|]. by rewrite Ha, (send_accepted _ _ _ E), <- app_assoc.
    + intros [= <- _]. exists []. split; [by exists (p :: ps)|]. by rewrite app_nil_r.
Qed.

End Pieces.

Section EndToEnd.
Context `{DekuLaws}.
Context {C U Q : Type} `{QuicLaws C} `{!Sender U (list byte)} `{SenderLaws Q (list byte)}.
Context {W : Type} `{SenderLaws W (list byte)}.
Context {S : Type} `{SenderLaws S Packet}.

(** The two ends after their tasks ran. Ends are fresh; every channel is drained in order;
    what the receiver's connection gave is a prefix of what the sender's took: QUIC
    delivers a stream reliably and in order. *)
Record linked (ps : list Packet) (snd rcv : proc C U Q) (wtx : W) : Prop := {
  linked_wire_ok : Forall wire_ok ps;
  linked_write : exists w0 e, accepted w0 = [] /\ link_write_loop w0 ps = Err (wtx, e);
  linked_send : exists cfg c u q es,
    0 <= stream_send_buffer_size cfg <= SimpleBuf.isize_max /\ Forall event_ok es /\
    stream_sent c = [] /\ (es ≫= messages_of) `prefix_of` accepted wtx /\
    process_run cfg es (process_init cfg c u q) = (snd, Ok tt);
  linked_recv : exists cfg c u q es,
    0 <= stream_send_buffer_size cfg <= SimpleBuf.isize_max /\ Forall event_ok es /\
    stream_read c = [] /\ accepted q = [] /\
    process_run cfg es (process_init cfg c u q) = (rcv, Ok tt);
  linked_stream : stream_read (conn rcv) `prefix_of` stream_sent (conn snd)
}.

Lemma linked_sent ps snd rcv wtx : linked ps snd rcv wtx ->
  exists kept, kept `sublist_of` ps /\ (dropped snd = [] -> kept `prefix_of` ps) /\
    stream_sent (conn snd) ++ SimpleBuf.contents (send_buf snd) = wire_all kept.
Proof.
  intros [Hok (w0 & e & Hw0 & Hw) (cfg & c & u & q & es & Hsize & Hes & Hc & Hpre & Hrun) _ _].
  destruct (link_write_sent _ _ _ _ Hok Hw) as (qs & Hqs & Ha). rewrite Hw0 in Ha.
  cbn [app] in Ha. rewrite Ha in Hpre. apply prefix_wire in Hpre as (ms & Hms & Em).
  pose proof (process_run_spec cfg es (process_init cfg c u q)) as Hr.
  destruct (SimpleBuf.new_wf _ Hsize) as [Hwf Hnew]. specialize (Hr Hwf Hes).
  unfold wp in Hr. rewrite Hrun in Hr. destruct Hr as [_ (kept & gone & [Hk Hp] & D & E) _].
  cbn [process_init dropped send_buf conn] in D, E. rewrite Hc, Hnew in E. cbn [app] in D, E.
  rewrite Em in Hk, Hp. destruct (sublist_wire _ _ Hk) as (ks & Hks & ->).
  exists ks. split_and!.
  - etrans; [exact Hks|]. apply prefix_sublist. by etrans.
  - rewrite D. intros ->. rewrite app_nil_r in Hp. apply Permutation_length in Hp.
    rewrite !length_map in Hp.
    rewrite (sublist_full ks ms Hks Hp). by etrans.
  - exact E.
Qed.

Lemma linked_received ps snd rcv wtx : linked ps snd rcv wtx ->
  concat (accepted (quic_tx rcv)) = stream_read (conn rcv).
Proof.
  intros [_ _ _ (cfg & c & u & q & es & Hsize & Hes & Hc & Hq & Hrun) _].
  pose proof (process_run_spec cfg es (process_init cfg c u q)) as Hr.
  destruct (SimpleBuf.new_wf _ Hsize) as [Hwf Hnew]. specialize (Hr Hwf Hes).
  unfold wp in Hr. rewrite Hrun in Hr. destruct Hr as [_ _ (chunks & Ha & Hg & _)].
  cbn [process_init quic_tx conn] in Ha, Hg. by rewrite Ha, Hg, Hq, Hc.
Qed.

(** C4. Safety of a link, end to end: whatever the two QUIC tasks, the stream and the
    chunking do, the packets handed to the receiver's consumer are a prefix of the packets
    kept by the sender, which are a sublist of the packets written and, when no message was
    dropped, a prefix of them. Dropped messages never break the framing: the receiver never
    fails on the bytes themselves, only for lack of buffer space or of a consumer, and when
    its input ends what is left is part of one packet. *)
Theorem link_end_to_end_safe (ps : list Packet) (snd rcv : proc C U Q) (wtx : W)
    (rtx : S) (size : Z) (Hl : linked ps snd rcv wtx)
    (Hs : 0 <= size <= SimpleBuf.isize_max) :
  exists kept got rtx' e,
    kept `sublist_of` ps /\ (dropped snd = [] -> kept `prefix_of` ps) /\
    got `prefix_of` kept /\
    link_read_loop rtx size (accepted (quic_tx rcv)) = Err (rtx', e) /\
    accepted rtx' = accepted rtx ++ got /\
    match e with
    | RecvClosed => exists tail, partial tail /\ stream_read (conn rcv) = wire_all got ++ tail
    | BufferTooSmall _ _ | PushFailed _ => True
    | ParseFailed ResponseTxClosed => exists p, send p rtx' = None
    | FreeFailed _ | ParseFailed _ => False
    end.
Proof.
  destruct (linked_sent _ _ _ _ Hl) as (kept & Hk & Hpre & E).
  pose proof (linked_received _ _ _ _ Hl) as Er.
  pose proof (linked_wire_ok _ _ _ _ Hl) as Hok.
  assert (Forall wire_ok kept) as Hkok by (by eapply Forall_sublist).
  destruct (prefix_wire_all (stream_read (conn rcv)) kept Hkok) as (qs & tail & Hqs & Ht & Eq).
  { etrans; [apply Hl|]. by eexists. }
  assert (Forall wire_ok qs) as Hqok by (eapply Forall_sublist; [by apply prefix_sublist|done]).
  pose proof (partial_no_packet _ Ht) as Hnt.
  pose proof (read_chunks_post rtx size (accepted (quic_tx rcv)) [] _ (read_init_inv rtx size Hs))
    as Hp.
  cbn [app] in Hp. rewrite Er, Eq in Hp. unfold link_read_loop.
  destruct (link_read_chunks _ _) as [st|[rtx' e]|]; [| |done].
  - destruct Hp as (_ & _ & _ & Hno & _ & _ & rs & Hrs & Hall & Ha & _).
    apply wire_all_unique in Hall as [-> Htl]; try done.
    exists kept, rs, (rd_tx st), RecvClosed. split_and!; try done. by exists tail.
  - destruct Hp as (rs & rest & Hrs & Hall & Ha & He).
    destruct (wire_all_head _ _ _ _ Hqok Hrs Hnt Hall) as (xs & -> & ->).
    exists kept, rs, rtx', e. split_and!; try done.
    { etrans; [|exact Hqs]. by eexists. }
    destruct e as [| |e|[]|]; try done. apply Forall_app in Hqok as [_ Hxs].
    by apply (He xs tail).
Qed.

(** C3. Delivery, end to end. Let the sender's task have taken every message, dropped none and
    have nothing left to send, let the stream have delivered all it took, and let the receiver's
    consumer live. Then the receiver's read loop hands over exactly the packets written, in
    order, or it ends for lack of room in its buffer, and for nothing else. It does not lack room
    when the chunks read from the stream come in bursts: in groups, each of which brings whole
    packets, of no more bytes than the buffer has. The traffic as a whole may be of any size. *)
Theorem link_end_to_end_delivers `{!ReliableSender S Packet} (ps : list Packet)
    (snd rcv : proc C U Q) (wtx : W) (rtx : S) (size : Z) (Hl : linked ps snd rcv wtx)
    (Hall : accepted wtx = map wire ps) (Hdrop : dropped snd = [])
    (Hflush : SimpleBuf.contents (send_buf snd) = [])
    (Htaken : zlen (wire_all ps) <= zlen (stream_sent (conn snd)))
    (Hstream : stream_read (conn rcv) = stream_sent (conn snd))
    (Hs : 0 <= size <= SimpleBuf.isize_max) :
  let chunks := accepted (quic_tx rcv) in
  exists rtx' e, link_read_loop rtx size chunks = Err (rtx', e) /\
    match e with
    | RecvClosed => accepted rtx' = accepted rtx ++ ps
    | BufferTooSmall _ _ | PushFailed _ => ~ in_bursts size chunks
    | FreeFailed _ | ParseFailed _ => False
    end.
Proof.
  intros chunks. destruct (linked_sent _ _ _ _ Hl) as (kept & _ & Hpre & E). specialize (Hpre Hdrop).
  pose proof (linked_received _ _ _ _ Hl) as Er.
  pose proof (linked_wire_ok _ _ _ _ Hl) as Hok. rewrite Hflush, app_nil_r in E.
  destruct Hpre as [xs ->]. apply Forall_app in Hok as [Hk Hx]. rewrite wire_all_app in *.
  assert (xs = []) as ->.
  { destruct Hx as [|x xs Hx Hxs]; [done|]. apply wire_length_pos in Hx.
    rewrite wire_all_cons, E, !zlen_app in Htaken. pose proof (zlen_nonneg (wire_all xs)). lia. }
  rewrite app_nil_r in *. fold chunks in Er.
  assert (concat chunks = wire_all kept ++ []) as Ec by (by rewrite Er, Hstream, E, app_nil_r).
  pose proof (partial_no_packet [] partial_nil) as Hnil.
  destruct (is_ok (link_read_chunks (link_read_init rtx size) chunks)) eqn:Hgo.
  - destruct (read_all_ends rtx size chunks kept [] Hs Hk Hnil Ec Hgo) as (rtx' & -> & Ha).
    by exists rtx', RecvClosed.
  - pose proof (read_chunks_post rtx size chunks [] _ (read_init_inv rtx size Hs)) as Hp.
    pose proof (read_bursts size chunks _ (init_settled rtx size Hs)) as Hb. rewrite Hgo in Hb.
    unfold link_read_loop. destruct (link_read_chunks _ _) as [|[rtx' e]|]; [done| |done].
    exists rtx', e. split; [done|]. destruct Hp as (qs & rest & Hqs & Hq & _ & He).
    cbn [app] in Hq. rewrite Ec in Hq. destruct (wire_all_head _ _ _ _ Hk Hqs Hnil Hq) as (ys & -> & ->).
    destruct e as [| |e|[]|]; try done; [by intros ?%Hb..| |].
    + apply Forall_app in Hk as [_ Hys]. by apply (He ys []); [|apply partial_nil|].
    + destruct He as [p Hsend]. destruct (send_reliable p rtx') as [x Hx']. by rewrite Hx' in Hsend.
Qed.

End EndToEnd.

(** * A run of the whole chain

    Two packets written; the sender has credit for both; the receiver gets the stream as
    three datagrams and reads it four bytes at a time. *)

Definition sample_link_packets : list Packet := [tick; quote].

Definition link_cfg : proc_cfg :=
  {| udp_data_buffer_size := 16; stream_read_buffer_size := 4; stream_send_buffer_size := 32 |}.

Definition sender_events : list process_event := map QuicData (map wire sample_link_packets).

Definition sender_end : proc loopback bytes_tx bytes_tx :=
  (process_run link_cfg sender_events (process_init link_cfg (fresh 64) [] [])).1.

Definition receiver_events : list process_event :=
  let b := wire_all sample_link_packets in
  [UdpData (take 5 b); Tick; UdpData (take 6 (drop 5 b)); UdpData (drop 11 b)].

Definition receiver_end : proc loopback bytes_tx bytes_tx :=
  (process_run link_cfg receiver_events (process_init link_cfg (fresh 0) [] [])).1.

Lemma sample_linked : linked (W := bytes_tx) sample_link_packets sender_end receiver_end
  (map wire sample_link_packets).
Proof.
  constructor.
  - apply tick_quote_ok.
  - exists [], RequestRxClosed. split; vm_compute; reflexivity.
  - exists link_cfg, (fresh 64), [], [], sender_events.
    split_and!; [vm_compute; discriminate..|apply events_ok_dec|reflexivity|exists []|]; vm_compute; reflexivity.
  - exists link_cfg, (fresh 0), [], [], receiver_events.
    split_and!; [vm_compute; discriminate..|apply events_ok_dec|reflexivity|reflexivity|]; vm_compute; reflexivity.
  - exists []. vm_compute. reflexivity.
Qed.

Lemma link_end_to_end_safe_witness : exists kept got rtx' e,
  kept `sublist_of` sample_link_packets /\
  (dropped sender_end = [] -> kept `prefix_of` sample_link_packets) /\
  got `prefix_of` kept /\
  link_read_loop ([] : unlimited Packet) 16 (accepted (quic_tx receiver_end)) = Err (rtx', e) /\
  accepted rtx' = accepted ([] : unlimited Packet) ++ got /\
  match e with
  | RecvClosed => exists tail, partial tail /\
      stream_read (conn receiver_end) = wire_all got ++ tail
  | BufferTooSmall _ _ | PushFailed _ => True
  | ParseFailed ResponseTxClosed => exists p, send p rtx' = None
  | FreeFailed _ | ParseFailed _ => False
  end.
Proof.
  apply (link_end_to_end_safe sample_link_packets sender_end receiver_end
    (map wire sample_link_packets : bytes_tx)); [apply sample_linked|concrete].
Defined.

(** The chunks come in two bursts; a buffer of 11 bytes carries the 16. *)
Lemma receiver_bursts : in_bursts 11 (accepted (quic_tx receiver_end)).
Proof.
  destruct (proj1 (Forall_app _ [tick] [quote]) tick_quote_ok) as [Ht Hq].
  exists [take 2 (accepted (quic_tx receiver_end)); drop 2 (accepted (quic_tx receiver_end))].
  split; [vm_compute; reflexivity|]. repeat (apply List.Forall_cons || apply List.Forall_nil).
  - split; [vm_compute; discriminate|]. exists [tick]. split; [exact Ht|vm_compute; reflexivity].
  - split; [vm_compute; discriminate|]. exists [quote]. split; [exact Hq|vm_compute; reflexivity].
Qed.

Lemma link_end_to_end_delivers_witness : exists rtx',
  link_read_loop ([] : unlimited Packet) 11 (accepted (quic_tx receiver_end)) =
    Err (rtx', RecvClosed) /\ accepted rtx' = accepted ([] : unlimited Packet) ++ [tick; quote].
Proof.
  destruct (link_end_to_end_delivers sample_link_packets sender_end receiver_end
    (map wire sample_link_packets : bytes_tx) ([] : unlimited Packet) 11) as (rtx' & e & E & He);
    [apply sample_linked|concrete..|].
  exists rtx'. destruct e; [destruct (He receiver_bursts)|destruct (He receiver_bursts)|destruct He|destruct He|]. split; [exact E|exact He].
Defined.
