(* ===== verification/Client.v ===== *)
(** [link/src/client.rs]: the client. [Client::link] runs two tasks. The link task ([conn_*],
    [client_link]) owns the connection: heartbeats, authentication, subscriptions, time-outs
    and reconnection. The consumer task ([consume]) hands received packets to the user's
    callbacks and responses to the callers that wait for them. They share the map
    [requests] from request ids to waiters. [send_request] is the caller's side.

    A waiter ([oneshot::Sender]) is a value of the type [R]. What the client does towards the
    user and the transport is recorded in the trace [acts], oldest first. *)

From Stdlib Require Import ZArith Lia Strings.Byte.
From stdpp Require Import base list strings gmap.
From S2P Require Import Prelude Deku Protos Packets Quotation Channel Config.

Definition DEFAULT_SERVER_BI_STREAM_ID : Z := 1.

Inductive ClientSignal : Type := Exit (msg : string).

(** Why a connection ended: the errors of the loop ['data]. *)
Inductive data_error : Type :=
| TransportFailed
| TransportAborted
| AuthDoneTimeout
| HeartbeatTimedOut
| HeartbeatSendFailed
| HeartbeatDecodeFailed
| AuthFailed (e : LinkError)
| AuthProcessSendFailed
| SubscribeSendFailed
| ProcessChanClosed
| ResponseChanClosed.

(** Why the link task ended. *)
Inductive conn_error : Type :=
| RandomCidFailed
| RetriesExceeded (e : data_error) (retry_times max_retry_times : Z).

(** The texts of the events are built from these values. *)
Inductive ClientConnEvent : Type :=
| ConnErrorEvent (e : data_error)
| DisconnectedForever (why : string + conn_error).

(** How the loop ['data] is left: [return Ok(())], or [break 'data]. *)
Inductive data_exit : Type :=
| Quit
| Broke (e : data_error).

(** What awaiting the transport task gave: its result, or an error of its own. *)
Inductive transport_rest : Type := TransportOk | TransportErr | TransportJoinErr.

(** The link task's select picks one of these. Clock readings come with the events that
    read the clock ([Instant] as [now], the wall clock in microseconds as [unix]). *)
Inductive data_event (R : Type) : Type :=
| CtrlC
| TransportDone (rest : transport_rest)
| PingTick (now unix : Z)
| SignalRecv (signal : ClientSignal)
(** a packet sent by the user; [locked]: the map was locked before the time-out *)
| SendPacket (packet : Packet) (response_tx : option R) (locked : bool)
| Recv (packet : Packet) (now unix : Z)
| RecvEnd
(** the transport, after its handshake, sends the authentication request it was given *)
| SendAuth
(** another task draws a request id ([send_request]) *)
| DrawId.
Arguments CtrlC {R}.
Arguments TransportDone {R}.
Arguments PingTick {R}.
Arguments SignalRecv {R}.
Arguments SendPacket {R}.
Arguments Recv {R}.
Arguments RecvEnd {R}.
Arguments SendAuth {R}.
Arguments DrawId {R}.

Inductive action (R : Type) : Type :=
| OnConnEvent (e : ClientConnEvent)
| OnConnected
| OnPush (p : Push)
| OnResponse (r : Response)
| OnRequest (r : Request)
(** the response handed to a waiter *)
| Reply (response_tx : R) (r : Response)
(** the waiter put in the map *)
| Registered (id : Z) (response_tx : R)
(** an id drawn from the counter *)
| Drew (id : Z)
| Connect (auth_packet : Packet)
| Sleep (d : duration)
| ReceiveCount (sample : string)
| ExceptionCount (sample msg : string)
| RttCost (micros : Z).
Arguments OnConnEvent {R}.
Arguments OnConnected {R}.
Arguments OnPush {R}.
Arguments OnResponse {R}.
Arguments OnRequest {R}.
Arguments Reply {R}.
Arguments Registered {R}.
Arguments Drew {R}.
Arguments Connect {R}.
Arguments Sleep {R}.
Arguments ReceiveCount {R}.
Arguments ExceptionCount {R}.
Arguments RttCost {R}.

(** The variables of the two tasks. [PT] is the channel to the consumer task, [IT] the
    channel to the transport, renewed with each connection; [consumed] counts the packets
    the consumer task has taken. *)
Record client_state (R PT IT : Type) : Type := mk_client {
  request_id_gen : Z;
  requests : gmap Z R;
  packet_process_tx : PT;
  consumed : nat;
  acts : list (action R);
  inner_request_tx : IT;
  conn_auth_packet : Packet;
  is_authed : bool;
  conn_created_at : Z;
  last_pong_at : Z
}.
Arguments mk_client {R PT IT}.
Arguments request_id_gen {R PT IT}.
Arguments requests {R PT IT}.
Arguments packet_process_tx {R PT IT}.
Arguments consumed {R PT IT}.
Arguments acts {R PT IT}.
Arguments inner_request_tx {R PT IT}.
Arguments conn_auth_packet {R PT IT}.
Arguments is_authed {R PT IT}.
Arguments conn_created_at {R PT IT}.
Arguments last_pong_at {R PT IT}.

Section Setters.
Context {R PT IT : Type}.
Implicit Types s : client_state R PT IT.

Definition set_id_gen g s := mk_client g (requests s) (packet_process_tx s) (consumed s)
  (acts s) (inner_request_tx s) (conn_auth_packet s) (is_authed s) (conn_created_at s)
  (last_pong_at s).
Definition set_requests m s := mk_client (request_id_gen s) m (packet_process_tx s) (consumed s)
  (acts s) (inner_request_tx s) (conn_auth_packet s) (is_authed s) (conn_created_at s)
  (last_pong_at s).
Definition set_process (p : PT) s := mk_client (request_id_gen s) (requests s) p (consumed s)
  (acts s) (inner_request_tx s) (conn_auth_packet s) (is_authed s) (conn_created_at s)
  (last_pong_at s).
Definition set_consumed n s := mk_client (request_id_gen s) (requests s) (packet_process_tx s) n
  (acts s) (inner_request_tx s) (conn_auth_packet s) (is_authed s) (conn_created_at s)
  (last_pong_at s).
Definition add_act (a : action R) s := mk_client (request_id_gen s) (requests s)
  (packet_process_tx s) (consumed s) (acts s ++ [a]) (inner_request_tx s) (conn_auth_packet s)
  (is_authed s) (conn_created_at s) (last_pong_at s).
Definition set_inner (i : IT) s := mk_client (request_id_gen s) (requests s) (packet_process_tx s)
  (consumed s) (acts s) i (conn_auth_packet s) (is_authed s) (conn_created_at s) (last_pong_at s).
Definition set_authed b s := mk_client (request_id_gen s) (requests s) (packet_process_tx s)
  (consumed s) (acts s) (inner_request_tx s) (conn_auth_packet s) b (conn_created_at s)
  (last_pong_at s).
Definition set_pong t s := mk_client (request_id_gen s) (requests s) (packet_process_tx s)
  (consumed s) (acts s) (inner_request_tx s) (conn_auth_packet s) (is_authed s)
  (conn_created_at s) t.

End Setters.

Section Client.
Context {R PT IT : Type} `{TrySender PT Packet} `{!Sender IT Packet}.
Context `{!Message AuthRequest, !Message SubscribeRequest, !Message Heartbeat,
  !Message LinkError}.
Context (conf : LinkClientConfig).

Abbreviation St := (client_state R PT IT).
Abbreviation CM := (SM St data_exit).

Definition broke {A} (e : data_error) : CM A := sfail (Broke e).
Definition act {E} (a : action R) : SM St E unit := smodify (add_act a).

(** [request_id_gen.fetch_add(1)]: the counter wraps. *)
Definition draw_id {E} : SM St E Z :=
  id ← sget request_id_gen;
  smodify (set_id_gen (wrap_u32 (id + 1))) ≫= fun _ =>
  act (Drew id) ≫= fun _ => mret id.

(** [inner_request_tx.send(..)]: whether the transport took the packet. *)
Definition inner_send (p : Packet) : CM bool :=
  tx ← sget inner_request_tx;
  match send p tx with
  | Some tx => smodify (set_inner tx) ≫= fun _ => mret true
  | None => mret false
  end.

Definition process_send (p : Packet) : CM bool :=
  tx ← sget packet_process_tx;
  match send p tx with
  | Some tx => smodify (set_process tx) ≫= fun _ => mret true
  | None => mret false
  end.

(** The ticker. *)
Definition on_ping_tick (now unix : Z) : CM unit :=
  s ← sget (fun s => s);
  (if is_authed s
   then if heartbeat_timeout (healthy_config conf) <? elapsed now (last_pong_at s)
        then broke HeartbeatTimedOut else mret tt
   else if auth_timeout (healthy_config conf) <? elapsed now (conn_created_at s)
        then broke AuthDoneTimeout else mret tt) ≫= fun _ =>
  id ← draw_id;
  ok ← inner_send (new_heartbeat unix id);
  if ok : bool then mret tt else broke HeartbeatSendFailed.

(** A packet from the user. *)
Definition on_send_packet (packet : Packet) (response_tx : option R) (locked : bool) : CM unit :=
  ok ← inner_send packet;
  if ok : bool then
    match locked, packet, response_tx with
    | true, PRequest request, Some tx =>
        smodify (fun s => set_requests (<[req_id request := tx]> (requests s)) s) ≫= fun _ =>
        act (Registered (req_id request) tx)
    | _, _, _ => mret tt
    end
  else mret tt.

(** Drawing the ids of the subscriptions: the [map] is collected before any is sent. *)
Fixpoint new_subscribes (subs : list Subscribe) : CM (list Packet) :=
  match subs with
  | [] => mret []
  | sub :: subs =>
      id ← draw_id;
      ps ← new_subscribes subs;
      mret (new_subscribe (sub_cmd sub) id (sub_all sub) (sub_span_index sub) :: ps)
  end.

Definition send_subscribe (p : Packet) : CM unit :=
  ok ← inner_send p; if ok : bool then mret tt else broke SubscribeSendFailed.

(** Any other packet goes to the consumer task, or is lost when that task is behind. *)
Definition try_process (packet : Packet) : CM unit :=
  tx ← sget packet_process_tx;
  let r := try_send packet tx in
  smodify (set_process r.1) ≫= fun _ =>
  match r.2 with
  | TrySent => mret tt
  | TryFull => act (ExceptionCount "client_broadcast_rx" "consume_slowly")
  | TryClosed => broke ProcessChanClosed
  end.

(** A packet from the peer. *)
Definition on_recv (packet : Packet) (now unix : Z) : CM unit :=
  smodify (set_pong now) ≫= fun _ =>
  match packet with
  | PResponse response =>
      match resp_command response with
      | Heartbeat_ =>
          match decode (resp_body response) with
          | Some heartbeat =>
              d ← slift (isub64 unix (timestamp heartbeat)); act (RttCost (wrap_u64 d))
          | None => broke HeartbeatDecodeFailed
          end
      | Auth =>
          if bool_decide (resp_status response = Success) then
            smodify (set_authed true) ≫= fun _ =>
            ok ← process_send packet;
            if ok : bool then
              sub_packets ← new_subscribes (subscribes conf);
              sfor send_subscribe sub_packets
            else broke AuthProcessSendFailed
          else
            broke (AuthFailed (default {| code := 0; msg := "unknown error" |}
              (decode (resp_body response))))
      | _ => try_process packet
      end
  | _ => try_process packet
  end.

Definition on_signal (signal : ClientSignal) : CM unit :=
  match signal with
  | Exit msg => act (OnConnEvent (DisconnectedForever (inl msg))) ≫= fun _ => sfail Quit
  end.

(** One turn of the loop ['data]. The last two events are other tasks at work on the shared
    counter and on the channel to the transport. *)
Definition data_step (e : data_event R) : CM unit :=
  match e with
  | CtrlC => sfail Quit
  | TransportDone TransportOk => sfail Quit
  | TransportDone TransportErr => broke TransportFailed
  | TransportDone TransportJoinErr => broke TransportAborted
  | PingTick now unix => on_ping_tick now unix
  | SignalRecv signal => on_signal signal
  | SendPacket packet response_tx locked => on_send_packet packet response_tx locked
  | Recv packet now unix => on_recv packet now unix
  | RecvEnd => broke ResponseChanClosed
  | SendAuth => p ← sget conn_auth_packet; inner_send p ≫= fun _ => mret tt
  | DrawId => draw_id ≫= fun _ => mret tt
  end.

(** The consumer task takes the next packet. *)
Definition consume_packet (packet : Packet) : CM unit :=
  match packet with
  | PRequest request => act (OnRequest request)
  | PResponse response =>
      m ← sget requests;
      smodify (set_requests (delete (resp_id response) m)) ≫= fun _ =>
      match m !! resp_id response with
      | Some response_tx => act (Reply response_tx response)
      | None =>
          if bool_decide (resp_command response = Auth) &&
             bool_decide (resp_status response = Success)
          then act OnConnected
          else act (OnResponse response)
      end
  | PPush push =>
      act (ReceiveCount ("on_push_" +:+ MsgType_debug (push_msg_type push))) ≫= fun _ =>
      act (OnPush push)
  end.

Definition consume : CM unit :=
  s ← sget (fun s => s);
  match accepted (packet_process_tx s) !! consumed s with
  | Some packet => smodify (set_consumed (S (consumed s))) ≫= fun _ => consume_packet packet
  | None => mret tt
  end.

(** The two tasks interleaved on one connection. *)
Definition link_step (e : option (data_event R)) : CM unit :=
  match e with Some e => data_step e | None => consume end.

Definition link_run : list (option (data_event R)) -> CM unit := sfor link_step.

(** A connection: how many request ids callers draw before it is made, whether a
    connection id could be drawn, when it is created, the new channel to the transport, and
    what happens on it. *)
Record connection : Type := {
  idle_draws : nat;
  cid_ok : bool;
  created_at : Z;
  inner_channel : IT;
  events : list (option (data_event R))
}.

Definition start_conn (c : connection) (auth_packet : Packet) (s : St) : St :=
  mk_client (request_id_gen s) (requests s) (packet_process_tx s) (consumed s) (acts s)
    (inner_channel c) auth_packet false (created_at c) (created_at c).

(** What follows a connection that ended with [e]: [None] to reconnect. *)
Definition end_conn (e : data_error) (retry_times : Z) : SM St conn_error Z :=
  smodify (set_id_gen 1) ≫= fun _ =>
  retry_times ← slift (incr_u32 retry_times);
  let max_retry_times := conf_retry_times (healthy_config conf) in
  if (0 <? max_retry_times) && (max_retry_times <=? retry_times)
  then sfail (RetriesExceeded e retry_times max_retry_times)
  else
    act (ExceptionCount "link_connection" "reconnect") ≫= fun _ =>
    act (OnConnEvent (ConnErrorEvent e)) ≫= fun _ =>
    act (Sleep (retry_interval (healthy_config conf))) ≫= fun _ => mret retry_times.

(** How the link task stands after the connections given: still on the last one, returned
    [Ok], or ended with an error. *)
Inductive link_status : Type := Running | Returned | Ended (e : conn_error).

(** Callers at work while there is no connection. *)
Definition idle (n : nat) : SM St conn_error unit :=
  sfor (fun _ => draw_id ≫= fun _ => mret tt) (replicate n tt).

(** The loop ['conn]. *)
Fixpoint conn_loop (retry_times : Z) (cs : list connection) : SM St conn_error link_status :=
  match cs with
  | [] => mret Running
  | c :: cs =>
      idle (idle_draws c) ≫= fun _ =>
      if cid_ok c then
        id ← draw_id;
        let auth_packet := new_auth id (username conf) (conf_password conf)
          (conf_client_name conf) in
        act (Connect auth_packet) ≫= fun _ =>
        smodify (start_conn c auth_packet) ≫= fun _ =>
        s ← sget (fun s => s);
        let r := link_run (events c) s in
        smodify (fun _ => r.1) ≫= fun _ =>
        match r.2 with
        | Ok _ => mret Running
        | Err Quit => mret Returned
        | Err (Broke e) => retry_times ← end_conn e retry_times; conn_loop retry_times cs
        | Panic => slift Panic
        end
      else sfail RandomCidFailed
  end.

(** The link task: its error is reported as the last event. *)
Definition client_link (cs : list connection) (s : St) : St * outcome conn_error link_status :=
  match conn_loop 0 cs s with
  | (s, Err e) => (add_act (OnConnEvent (DisconnectedForever (inr e))) s, Ok (Ended e))
  | r => r
  end.

(** [Client::new] and the set-up of [link]: the counter at 1, no waiter. *)
Definition client_init (tx : PT) (itx : IT) (auth_packet : Packet) : St :=
  mk_client 1 ∅ tx 0 [] itx auth_packet false 0 0.

End Client.

Arguments connection : clear implicits.

(** * The caller's side

    The state is the shared counter and [request_tx], [None] until [link] is called. What
    the runtime decides is an argument: whether the send completed in time ([sent]), and how
    the wait ended: elapsed, sender dropped, or a response. *)

Inductive request_error (CE : Type) : Type :=
| NotSupported (cmd : Command)
| NotInit
| SendTimedOut
| WaitTimedOut
| WaiterDropped
| LinkErrorReply (e : LinkError)
| ConvertFailed (e : CE)
| ChanClosed.
Arguments NotSupported {CE}.
Arguments NotInit {CE}.
Arguments SendTimedOut {CE}.
Arguments WaitTimedOut {CE}.
Arguments WaiterDropped {CE}.
Arguments LinkErrorReply {CE}.
Arguments ConvertFailed {CE}.
Arguments ChanClosed {CE}.

Inductive wait_result : Type := WaitElapsed | WaitDropped | WaitGot (r : Response).

Section Api.
Context {R TX : Type} `{!Sender TX (Packet * option R)} `{!Message LinkError}.

Definition api_state : Type := Z * option TX.

(** What a response means to the caller. *)
Definition read_response {CE Resp} (try_from : Response -> outcome CE Resp) (resp : Response)
    : outcome (request_error CE) Resp :=
  match
    (if bool_decide (resp_status resp = Success) then None
     else decode (A := LinkError) (resp_body resp))
  with
  | Some link_err => Err (LinkErrorReply link_err)
  | None =>
      match try_from resp with
      | Ok a => Ok a
      | Err e => Err (ConvertFailed e)
      | Panic => Panic
      end
  end.

Definition send_request {Req CE Resp} `{Message Req}
    (try_from : Response -> outcome CE Resp) (req : Req) (cmd : Command) (response_tx : R)
    (sent : bool) (waited : wait_result) : SM api_state (request_error CE) Resp :=
  if bool_decide (cmd = Heartbeat_) || bool_decide (cmd = Auth) then sfail (NotSupported cmd)
  else
    request_tx ← sget snd;
    match request_tx with
    | Some tx =>
        req_id ← sget fst;
        smodify (fun s => (wrap_u32 (req_id + 1), s.2)) ≫= fun _ =>
        let packet := new_request cmd req_id (encode_to_vec req) in
        if sent then
          match send (packet, Some response_tx) tx with
          | Some tx =>
              smodify (fun s => (s.1, Some tx)) ≫= fun _ =>
              match waited with
              | WaitElapsed => sfail WaitTimedOut
              | WaitDropped => sfail WaiterDropped
              | WaitGot resp => slift (read_response try_from resp)
              end
          (* the error of the channel is discarded; the waiter was dropped with it *)
          | None => sfail WaiterDropped
          end
        else sfail SendTimedOut
    | None => sfail NotInit
    end.

Definition send_to_link (packet : Packet) : SM api_state (request_error unit) unit :=
  request_tx ← sget snd;
  match request_tx with
  | Some tx =>
      match send (packet, None) tx with
      | Some tx => smodify (fun s => (s.1, Some tx))
      | None => sfail ChanClosed
      end
  | None => sfail NotInit
  end.

Definition send_push (push : Push) := send_to_link (PPush push).
Definition send_response (response : Response) := send_to_link (PResponse response).

End Api.
