(* ===== verification/ClientFacts.v ===== *)
(** The correctness of the client: which waiter gets which response, in which order the
    user's callbacks see packets, when a connection is given up, what authentication
    triggers, how often the client reconnects, and what a caller of [send_request] gets. *)

From Stdlib Require Import ZArith Lia Strings.Byte.
From stdpp Require Import base list strings gmap.
From S2P Require Import Prelude Deku Protos Packets Wire Quotation Channel Config Client.

#[local] Set Warnings "-clear-no-such-hyp".

(** * What every turn of the client keeps

    A preorder on states kept by the elementary changes the two tasks make is kept by every
    run of the loop, however it ends. *)

(** Actions that are neither callbacks nor changes of the counter or of the waiters: on a
    connection, and around connections. *)
Definition quiet_action {R} (a : action R) : bool :=
  match a with
  | OnConnEvent (DisconnectedForever _) | ReceiveCount _ | ExceptionCount _ _ | RttCost _ => true
  | _ => false
  end.

Definition outer_action {R} (a : action R) : bool :=
  match a with
  | OnConnEvent _ | Connect _ | Sleep _ | ReceiveCount _ | ExceptionCount _ _ | RttCost _ => true
  | _ => false
  end.

Section Keep.
Context {R PT IT : Type} `{TrySender PT Packet} `{!Sender IT Packet}.
Context `{!SenderLaws PT Packet, !TrySenderLaws PT Packet}.
Context `{!Message AuthRequest, !Message SubscribeRequest, !Message Heartbeat,
  !Message LinkError}.
Context (conf : LinkClientConfig).

Abbreviation St := (client_state R PT IT).
Implicit Types s : St.

(** The elementary changes: packets handed to the consumer task satisfy [P], and the clock
    of the last packet and the authentication mark may move if [T]. *)
Record stable (P : Packet -> Prop) (T : Prop) (I : relation St) : Prop := {
  closed_order : PreOrder I;
  closed_pong s t : T -> I s (set_pong t s);
  closed_authed s b : T -> I s (set_authed b s);
  closed_draw s : I s (add_act (Drew (request_id_gen s))
    (set_id_gen (wrap_u32 (request_id_gen s + 1)) s));
  closed_inner s p tx : send p (inner_request_tx s) = Some tx -> I s (set_inner tx s);
  closed_process s tx l : Forall P l -> accepted tx = accepted (packet_process_tx s) ++ l ->
    I s (set_process tx s);
  closed_act s a : quiet_action a = true -> I s (add_act a s);
  closed_register s id w : I s (add_act (Registered id w)
    (set_requests (<[id := w]> (requests s)) s))
}.

(** With a turn of the consumer task. *)
Record closed (P : Packet -> Prop) (T : Prop) (I : relation St) : Prop := {
  closed_stable :> stable P T I;
  closed_consume s : I s (consume s).1
}.

Context (P : Packet -> Prop) (T : Prop) (I : relation St) (HI : stable P T I).

#[local] Instance I_order : PreOrder I := closed_order P T I HI.

Ltac keep_step :=
  match goal with
  | |- keeps _ (sget _ ≫= _) => apply keeps_get; intros ?s; cbn beta
  | |- keeps _ (_ ≫= _) => apply keeps_bind; [apply _| |intros ?]
  | |- keeps _ (mret _) => apply keeps_ret, _
  | |- keeps _ (sfail _) => apply keeps_fail, _
  | |- keeps _ (broke _) => apply keeps_fail, _
  | |- keeps _ (slift _) => apply keeps_lift, _
  | |- keeps _ (act _) => apply keeps_modify; intros ?; by apply (closed_act P T I HI)
  | |- keeps _ (if ?b then _ else _) => destruct b
  end.

Lemma draw_id_keeps {E} : keeps I (draw_id (E := E) : SM St E Z).
Proof. intros s. apply (closed_draw P T I HI s). Qed.

Lemma inner_send_keeps p : keeps I (inner_send p).
Proof.
  apply keeps_get. intros s. destruct (send p (inner_request_tx s)) eqn:E; [|apply I_order].
  by apply (closed_inner P T I HI s p).
Qed.

Lemma process_send_keeps p : P p -> keeps I (process_send p).
Proof.
  intros Hp. apply keeps_get. intros s.
  destruct (send p (packet_process_tx s)) eqn:E; [|apply I_order].
  apply (closed_process P T I HI s _ [p]); [by constructor|]. by apply send_accepted.
Qed.

Lemma try_process_keeps p : P p -> keeps I (try_process p).
Proof.
  intros Hp. apply keeps_get. intros s. cbn zeta.
  destruct (try_send p (packet_process_tx s)) as [tx r] eqn:E.
  assert (I s (set_process tx s)) as Hs.
  { destruct r; [apply (closed_process P T I HI s tx [p]); [by constructor|by apply try_send_sent]|..];
      (apply (closed_process P T I HI s tx []); [by constructor|]); rewrite app_nil_r;
      by eapply try_send_other. }
  destruct r; [exact Hs| |exact Hs]. etrans; [exact Hs|]. by apply (closed_act P T I HI).
Qed.

Lemma new_subscribes_keeps subs : keeps I (new_subscribes subs).
Proof.
  induction subs as [|sub subs IH]; cbn [new_subscribes]; [keep_step|].
  keep_step; [apply draw_id_keeps|]. keep_step; [apply IH|keep_step].
Qed.

(** The packets an event brings from the peer. *)
Definition received (e : data_event R) : list Packet :=
  match e with Recv p _ _ => [p] | _ => [] end.

Lemma send_subscribe_keeps p : keeps I (send_subscribe p).
Proof. apply keeps_bind; [apply _|apply inner_send_keeps|]. intros []; keep_step. Qed.

Lemma data_step_keeps e : Forall (fun p => P p /\ T) (received e) -> keeps I (data_step conf e).
Proof.
  intros Hrecv. destruct e as [|[]|now unix|[m]|p w locked|p now unix| | |]; cbn [data_step on_signal];
    try (by repeat keep_step).
  - unfold on_ping_tick. apply keeps_get. intros s. cbn beta.
    apply keeps_bind; [apply _|by repeat keep_step|]. intros _.
    apply keeps_bind; [apply _|apply draw_id_keeps|]. intros id.
    apply keeps_bind; [apply _|apply inner_send_keeps|]. intros ok. by keep_step; keep_step.
  - apply keeps_bind; [apply _|apply inner_send_keeps|]. intros [].
    + destruct locked, p, w; try (apply keeps_ret, _). intros s. apply (closed_register P T I HI).
    + keep_step.
  - apply Forall_singleton in Hrecv as [Hp HT].
    unfold on_recv. apply keeps_bind; [apply _| |intros _].
    { apply keeps_modify. intros s. by apply (closed_pong P T I HI). }
    destruct p as [?|r|?]; try by apply try_process_keeps.
    destruct (resp_command r); try by apply try_process_keeps.
    + destruct (bool_decide _); [|keep_step].
      apply keeps_bind; [apply _| |intros _].
      { apply keeps_modify. intros s. by apply (closed_authed P T I HI). }
      apply keeps_bind; [apply _|by apply process_send_keeps|]. intros []; [|keep_step].
      apply keeps_bind; [apply _|apply new_subscribes_keeps|]. intros ps.
      apply keeps_for; [apply _|]. apply send_subscribe_keeps.
    + destruct (decode _); repeat keep_step.
  - apply keeps_get. intros s. apply keeps_bind; [apply _|apply inner_send_keeps|].
    intros ?. keep_step.
  - apply keeps_bind; [apply _|apply draw_id_keeps|]. intros ?. keep_step.
Qed.

Lemma idle_keeps n : keeps I (idle n).
Proof.
  apply keeps_for; [apply _|]. intros _.
  apply keeps_bind; [apply _|apply draw_id_keeps|]. intros _. apply keeps_ret, _.
Qed.

End Keep.

Arguments stable {R PT IT _ _}.
Arguments closed {R PT IT _ _}.

(** A whole life of the link task. *)
Section Life.
Context {R PT IT : Type} `{TrySender PT Packet} `{!Sender IT Packet}.
Context `{!SenderLaws PT Packet, !TrySenderLaws PT Packet}.
Context `{!Message AuthRequest, !Message SubscribeRequest, !Message Heartbeat,
  !Message LinkError}.
Context (conf : LinkClientConfig).
Abbreviation St := (client_state R PT IT).
Context (I : relation St) (HI : closed (fun _ => True) True I).
#[local] Instance I_order' : PreOrder I := closed_order _ _ I (closed_stable _ _ I HI).

Lemma link_run_keeps es : keeps I (link_run conf es).
Proof.
  apply keeps_for; [apply _|]. intros [e|].
  { eapply data_step_keeps; [apply HI|]. by destruct e; repeat constructor. }
  intros s. apply (closed_consume _ _ I HI).
Qed.

(** A whole life of the link task, when a new connection and a reset counter are kept. *)
Lemma conn_loop_keeps n cs : (forall s a, outer_action a = true -> I s (add_act a s)) ->
  (forall s c p, I s (start_conn c p s)) -> (forall s, I s (set_id_gen 1 s)) ->
  keeps I (conn_loop conf n cs).
Proof.
  intros Hact Hstart Hreset. revert n. induction cs as [|c cs IH]; intros n; cbn [conn_loop];
    [apply keeps_ret, _|].
  apply keeps_bind; [apply _|apply (idle_keeps _ _ I HI)|]. intros _.
  destruct (cid_ok c); [|apply keeps_fail, _].
  apply keeps_bind; [apply _|apply (draw_id_keeps _ _ I HI)|]. intros id. cbn zeta.
  apply keeps_bind; [apply _|apply keeps_modify; intros ?; by apply Hact|]. intros _.
  apply keeps_bind; [apply _|by apply keeps_modify|]. intros _.
  apply keeps_get. intros s. cbn zeta. unfold mbind, SM_bind, smodify.
  pose proof (link_run_keeps (events c) s) as Hrun.
  destruct (link_run conf (events c) s) as [s1 [[]|[|e]|]]; cbn [fst snd] in *; try done.
  etrans; [exact Hrun|]. revert s1 Hrun. 
  assert (keeps I (retry_times ← end_conn conf e n; conn_loop conf retry_times cs)) as Hk.
  { apply keeps_bind; [apply _| |done]. unfold end_conn.
    apply keeps_bind; [apply _|by apply keeps_modify|]. intros _. cbn zeta.
    apply keeps_bind; [apply _|apply keeps_lift, _|]. intros k.
    destruct (_ && _); [apply keeps_fail, _|].
    do 3 (apply keeps_bind; [apply _|apply keeps_modify; intros ?;
      by apply Hact|intros _]). apply keeps_ret, _. }
  intros s1 _. apply (Hk s1).
Qed.

Lemma client_link_keeps cs : (forall s a, outer_action a = true -> I s (add_act a s)) ->
  (forall s c p, I s (start_conn c p s)) -> (forall s, I s (set_id_gen 1 s)) ->
  forall s, I s (client_link conf cs s).1.
Proof.
  intros Hact Hstart Hreset s. unfold client_link.
  pose proof (conn_loop_keeps 0 cs Hact Hstart Hreset s).
  destruct (conn_loop conf 0 cs s) as [s' [|e|]]; cbn [fst] in *; try done.
  etrans; [done|]. by apply Hact.
Qed.

End Life.

(** * Views of the trace *)

Section Views.
Context {R : Type}.

(** The responses handed to waiters, with the id they carry. *)
Definition replies : list (action R) -> list (Z * R) :=
  omap (fun a => match a with Reply w r => Some (resp_id r, w) | _ => None end).

Definition registered : list (action R) -> list (Z * R) :=
  omap (fun a => match a with Registered id w => Some (id, w) | _ => None end).

Definition drawn : list (action R) -> list Z :=
  omap (fun a => match a with Drew id => Some id | _ => None end).

(** The callbacks and replies, in the order made. *)
Definition deliveries : list (action R) -> list (action R) :=
  omap (fun a => match a with
                 | OnConnected | OnPush _ | OnResponse _ | OnRequest _ | Reply _ _ => Some a
                 | _ => None
                 end).

Definition connects : list (action R) -> list Packet :=
  omap (fun a => match a with Connect p => Some p | _ => None end).

Definition error_events : list (action R) -> list data_error :=
  omap (fun a => match a with OnConnEvent (ConnErrorEvent e) => Some e | _ => None end).

(** How the consumer task may treat a packet. *)
Definition delivered_as (p : Packet) (a : action R) : Prop :=
  match p with
  | PRequest r => a = OnRequest r
  | PPush r => a = OnPush r
  | PResponse r =>
      (exists w, a = Reply w r) \/
      (a = OnConnected /\ resp_command r = Auth /\ resp_status r = Success) \/
      (a = OnResponse r /\ ~ (resp_command r = Auth /\ resp_status r = Success))
  end.

Lemma deliveries_app l k : deliveries (l ++ k) = deliveries l ++ deliveries k.
Proof. apply omap_app. Qed.

Lemma submseteq_chain {A} (a b a' b' m m' m'' : list A) :
  a ++ m' ⊆+ b ++ m -> a' ++ m'' ⊆+ b' ++ m' -> (a ++ a') ++ m'' ⊆+ (b ++ b') ++ m.
Proof.
  intros E E'. rewrite <- !app_assoc. etrans; [by apply submseteq_skips_l|].
  rewrite !(Permutation_app_swap_app _ b'). by apply submseteq_skips_l.
Qed.

Lemma insert_submseteq (m : gmap Z R) id w :
  map_to_list (<[id := w]> m) ⊆+ (id, w) :: map_to_list m.
Proof.
  rewrite <- insert_delete_eq, map_to_list_insert by apply lookup_delete_eq.
  apply submseteq_skip, map_to_list_submseteq, delete_subseteq.
Qed.

End Views.

(** * What taking a packet does *)

Section Consume.
Context {R PT IT : Type} `{Sender PT Packet}.
Implicit Types s : client_state R PT IT.

Definition drawn_once s : client_state R PT IT :=
  add_act (Drew (request_id_gen s)) (set_id_gen (wrap_u32 (request_id_gen s + 1)) s).

Lemma draw_id_eq {E} s : draw_id (E := E) s = (drawn_once s, Ok (request_id_gen s)).
Proof. done. Qed.

Lemma idle_eq n s : idle n s = (Nat.iter n drawn_once s, Ok tt).
Proof.
  revert s. induction n as [|n IH]; intros s; [done|]. unfold idle in *.
  cbn [replicate sfor]. unfold mbind, SM_bind in *. rewrite draw_id_eq. cbn [mret SM_ret].
  by rewrite IH, Nat.iter_succ_r.
Qed.

(** The callback for a response no one waits for. *)
Definition unclaimed (r : Response) : action R :=
  if bool_decide (resp_command r = Auth) && bool_decide (resp_status r = Success)
  then OnConnected else OnResponse r.

Definition consume_state s (p : Packet) : client_state R PT IT :=
  let s := set_consumed (S (consumed s)) s in
  match p with
  | PRequest r => add_act (OnRequest r) s
  | PResponse r =>
      let a := match requests s !! resp_id r with
               | Some w => Reply w r
               | None => unclaimed r
               end in
      add_act a (set_requests (delete (resp_id r) (requests s)) s)
  | PPush r => add_act (OnPush r)
      (add_act (ReceiveCount ("on_push_" +:+ MsgType_debug (push_msg_type r))) s)
  end.

Lemma consume_eq s : consume s =
  (match accepted (packet_process_tx s) !! consumed s with
   | Some p => consume_state s p
   | None => s
   end, Ok tt).
Proof.
  unfold consume, mbind, SM_bind, sget, smodify.
  destruct (_ !! _) as [[r|r|p]|]; [done| |done|done].
  unfold consume_packet, consume_state, unclaimed, act, mbind, SM_bind, sget, smodify.
  cbn [set_consumed requests]. destruct (requests s !! resp_id r); [done|].
  by destruct (_ && _).
Qed.

Lemma unclaimed_delivered r : delivered_as (PResponse r) (unclaimed r).
Proof.
  unfold unclaimed, delivered_as. right.
  destruct (bool_decide_reflect (resp_command r = Auth)) as [Hc|Hc]; cbn.
  - destruct (bool_decide_reflect (resp_status r = Success)) as [Hs|Hs]; [by left|].
    right. split; [done|]. by intros [_ ?].
  - right. split; [done|]. by intros [? _].
Qed.

End Consume.

(** * Responses and waiters *)

Section Routing.
Context {R PT IT : Type} `{TrySender PT Packet} `{!Sender IT Packet}.
Context `{!SenderLaws PT Packet, !TrySenderLaws PT Packet}.
Context `{!Message AuthRequest, !Message SubscribeRequest, !Message Heartbeat,
  !Message LinkError}.
Context (conf : LinkClientConfig).
Abbreviation St := (client_state R PT IT).
Implicit Types s : St.

Definition answered (s s' : St) : Prop :=
  exists new, acts s' = acts s ++ new /\
    replies new ++ map_to_list (requests s') ⊆+ registered new ++ map_to_list (requests s).

#[local] Instance answered_order : PreOrder answered.
Proof.
  split.
  - intros s. exists []. by rewrite app_nil_r.
  - intros s s' s'' (n & A & B) (n' & A' & B'). exists (n ++ n').
    rewrite A', A, app_assoc. split; [done|]. unfold replies, registered in *.
    rewrite !omap_app. by eapply submseteq_chain.
Qed.

Lemma answered_act s a : replies [a] = [] -> registered [a] = [] -> answered s (add_act a s).
Proof. intros A B. exists [a]. by rewrite A, B. Qed.

Lemma answered_closed : closed (fun _ => True) True answered.
Proof.
  assert (forall s s' : St, acts s' = acts s -> requests s' = requests s -> answered s s') as Hsame.
  { intros s s' A B. exists []. by rewrite A, B, app_nil_r. }
  pose proof answered_act as Hact.
  constructor; [constructor|]; try (by intros; apply Hsame).
  - apply _.
  - intros s. exists [Drew (request_id_gen s)]. done.
  - intros s a Ha. apply Hact; by destruct a.
  - intros s id w. exists [Registered id w]. split; [done|]. apply insert_submseteq.
  - intros s. rewrite consume_eq. cbn [fst]. destruct (_ !! _) as [[r|r|p]|]; [| | |done].
    + by apply (Hact (set_consumed _ s)).
    + cbn [consume_state set_consumed requests]. destruct (requests s !! resp_id r) as [w|] eqn:E.
      * exists [Reply w r]. split; [done|]. cbn. by rewrite (map_to_list_delete _ _ _ E).
      * exists [unclaimed r]. split; [done|]. unfold unclaimed.
        destruct (_ && _); cbn; by rewrite (delete_id _ _ E).
    + by exists [ReceiveCount ("on_push_" +:+ MsgType_debug (push_msg_type p)); OnPush p];
        cbn; rewrite <- app_assoc.
Qed.

(** ** Who is answered

    The map of waiters, read off the trace: who registered last under an id and was not
    answered since. *)
Definition waiters (l : list (action R)) : gmap Z R := fold_left (fun m a =>
  match a with
  | Registered id w => <[id := w]> m
  | Reply _ r => delete (resp_id r) m
  | _ => m
  end) l ∅.

Definition about (id : Z) (a : action R) : Prop :=
  match a with Registered id' _ => id' = id | Reply _ r => resp_id r = id | _ => False end.

(** [w] registered under [id], and since then nobody did, and no answer under [id] came. *)
Definition waits (id : Z) (w : R) (l : list (action R)) : Prop :=
  exists before since, l = before ++ Registered id w :: since /\ Forall (fun a => ~ about id a) since.

Lemma waiters_snoc l a : waiters (l ++ [a]) =
  match a with
  | Registered id w => <[id := w]> (waiters l)
  | Reply _ r => delete (resp_id r) (waiters l)
  | _ => waiters l
  end.
Proof. unfold waiters. by rewrite fold_left_app. Qed.

Lemma waits_snoc id w l a : waits id w (l ++ [a]) <->
  match a with
  | Registered id' w' => if decide (id' = id) then w' = w else waits id w l
  | Reply _ r => resp_id r <> id /\ waits id w l
  | _ => waits id w l
  end.
Proof.
  assert (~ about id a -> waits id w l -> waits id w (l ++ [a])) as Hkeep.
  { intros Ha (b & k & -> & Hk). exists b, (k ++ [a]). rewrite <- app_assoc. split; [done|].
    apply Forall_app. split; [done|by constructor]. }
  assert (waits id w (l ++ [a]) -> a = Registered id w \/ ~ about id a /\ waits id w l) as Hback.
  { intros (b & k & E & Hk). destruct k as [|x k _] using rev_ind.
    - apply app_inj_tail in E as [_ ->]. by left.
    - rewrite (app_comm_cons k), app_assoc in E. apply app_inj_tail in E as [-> ->].
      apply Forall_app in Hk as [Hk [Ha _]%Forall_cons]. right. split; [done|]. by exists b, k. }
  split.
  - intros [->|[Ha Hw]]%Hback; [by rewrite decide_True|]. destruct a; try done.
    case_decide; [by destruct Ha|done].
  - destruct a as [| | | | |w' r'|id' w'| | | | | |]; try (intros Hw; apply Hkeep; [by intros []|done]).
    + intros [Hr Hw]. by apply Hkeep.
    + case_decide as Hid; [|intros Hw; by apply Hkeep]. intros ->. subst id'. exists l, []. by split.
Qed.

Lemma waiters_waits l id w : waiters l !! id = Some w <-> waits id w l.
Proof.
  induction l as [|a l IH] using rev_ind.
  { change (waiters []) with (∅ : gmap Z R). rewrite lookup_empty. split; [done|].
    intros (b & k & E & _). by destruct b. }
  rewrite waiters_snoc, waits_snoc. destruct a as [| | | | |w' r'|id' w'| | | | | |]; try exact IH.
  - by rewrite lookup_delete_Some, IH.
  - case_decide as Hid; [subst id'; rewrite lookup_insert_eq|by rewrite lookup_insert_ne].
    split; congruence.
Qed.

(** A response went to the last who asked, and to the consumer only when nobody waited. *)
Definition routed_as (l : list (action R)) (a : action R) : Prop :=
  match a with
  | Reply w r => waiters l !! resp_id r = Some w
  | OnResponse r => waiters l !! resp_id r = None
  | _ => True
  end.

Definition routed s : Prop := requests s = waiters (acts s) /\
  forall before a since, acts s = before ++ a :: since -> routed_as before a.

Definition routed_kept (s s' : St) : Prop := routed s -> routed s'.

#[local] Instance routed_kept_order : PreOrder routed_kept.
Proof. split; unfold routed_kept; [by intros s|]. naive_solver. Qed.

Lemma routed_act a s m : routed s -> routed_as (acts s) a ->
  m = waiters (acts s ++ [a]) -> routed (add_act a (set_requests m s)).
Proof.
  intros [Hm Hl] Ha ->. split; [done|]. cbn. intros b x k E.
  destruct k as [|y k _] using rev_ind; [by apply app_inj_tail in E as [<- <-]|].
  rewrite (app_comm_cons k), app_assoc in E. apply app_inj_tail in E as [E _]. by apply (Hl b x k).
Qed.

Lemma routed_same s s' : requests s' = requests s -> acts s' = acts s -> routed_kept s s'.
Proof. intros E E' [A B]. split; [by rewrite E, E'|]. by rewrite E'. Qed.

Lemma routed_plain s a : routed_as (acts s) a -> (forall l, waiters (l ++ [a]) = waiters l) ->
  routed_kept s (add_act a s).
Proof.
  intros Ha Hw Hs. apply (routed_same (add_act a (set_requests (requests s) s))); [done..|].
  apply routed_act; [done..|]. rewrite Hw. apply Hs.
Qed.

Lemma routed_closed : closed (fun _ => True) True routed_kept.
Proof.
  constructor; [constructor|]; try (by intros; apply routed_same).
  - apply _.
  - intros s. etrans; [by apply (routed_same s (set_id_gen (wrap_u32 (request_id_gen s + 1)) s))|].
    apply routed_plain; [done|]. intros l. by rewrite waiters_snoc.
  - intros s a Ha. apply routed_plain; [by destruct a|]. intros l. rewrite waiters_snoc. by destruct a.
  - intros s id w Hs. apply routed_act; [done..|]. rewrite waiters_snoc. by rewrite (proj1 Hs).
  - intros s. rewrite consume_eq. cbn [fst]. destruct (_ !! _) as [p|]; [|done].
    set (t := set_consumed (S (consumed s)) s). assert (routed_kept s t) as Ht by (by apply routed_same).
    etrans; [exact Ht|]. unfold consume_state. fold t. destruct p as [r|r|p].
    + apply routed_plain; [done|]. intros l. by rewrite waiters_snoc.
    + intros Hr. assert (requests s = waiters (acts s)) as Em by apply Hr.
      subst t. cbn [set_consumed requests].
      destruct (requests s !! resp_id r) as [w|] eqn:E; (apply routed_act; [done|..]; cbn [set_consumed acts]).
      * unfold routed_as. by rewrite <- Em.
      * by rewrite waiters_snoc, <- Em.
      * unfold unclaimed. destruct (_ && _); [done|]. unfold routed_as. by rewrite <- Em.
      * rewrite waiters_snoc, delete_id, Em by done. unfold unclaimed. by destruct (_ && _).
    + etrans; [eapply (routed_plain t (ReceiveCount _))|eapply (routed_plain _ (OnPush p))]; try done;
        intros l; by rewrite waiters_snoc.
Qed.

(** C17. A waiter only gets the response it waits for, and once: over the whole life of a
    client, all its connections and reconnections, however callers, the peer and the two
    tasks interleave, a response handed to a waiter goes to the one who registered last
    under its id, no answer under that id having come since; a response goes to the consumer
    only when nobody waits for it; and the responses handed to waiters, as pairs of response
    id and waiter, are a sub-multiset of the registrations. *)
Theorem replies_match_registrations (tx : PT) (itx : IT) (p : Packet)
    (cs : list (connection R IT)) :
  let trace := acts (client_link conf cs (client_init tx itx p)).1 in
  (forall before w r since, trace = before ++ Reply w r :: since -> waits (resp_id r) w before) /\
  (forall before r since, trace = before ++ OnResponse r :: since ->
     forall w, ~ waits (resp_id r) w before) /\
  replies trace ⊆+ registered trace.
Proof.
  assert (routed (client_link conf cs (client_init tx itx p)).1) as [_ Hr].
  { apply (client_link_keeps conf routed_kept routed_closed cs).
    - intros s a Ha. apply routed_plain; [by destruct a|]. intros l. rewrite waiters_snoc. by destruct a.
    - intros s c q. by apply routed_same.
    - intros s. by apply routed_same.
    - split; [done|]. intros b a k E. by destruct b. }
  split_and!.
  - intros b w r k E. apply waiters_waits. exact (Hr _ _ _ E).
  - intros b r k E w Hw%waiters_waits. pose proof (Hr _ _ _ E) as Hn. cbn in Hn. congruence.
  - pose proof (client_link_keeps conf answered answered_closed cs) as Hk.
    destruct (Hk ltac:(intros ? a Ha; apply answered_act; by destruct a)
      ltac:(intros; by exists []; rewrite app_nil_r) ltac:(intros; by exists []; rewrite app_nil_r)
      (client_init tx itx p)) as (new & A & B). rewrite A. cbn [client_init acts requests app] in *.
    rewrite map_to_list_empty, app_nil_r in B. etrans; [|exact B].
    by apply submseteq_inserts_r.
Qed.

End Routing.

(** * The order of the callbacks *)

Section Order.
Context {R PT IT : Type} `{TrySender PT Packet} `{!Sender IT Packet}.
Context `{!SenderLaws PT Packet, !TrySenderLaws PT Packet}.
Context `{!Message AuthRequest, !Message SubscribeRequest, !Message Heartbeat,
  !Message LinkError}.
Context (conf : LinkClientConfig).
Abbreviation St := (client_state R PT IT).
Implicit Types s : St.

Abbreviation queue s := (accepted (packet_process_tx s)).

(** The deliveries made are those of the packets taken. *)
Definition in_order s : Prop :=
  (consumed s <= length (queue s))%nat /\
  Forall2 delivered_as (take (consumed s) (queue s)) (deliveries (acts s)).

Definition order_kept (s s' : St) : Prop := in_order s -> in_order s'.

#[local] Instance order_kept_order : PreOrder order_kept.
Proof. split; unfold order_kept; [by intros s|]; naive_solver. Qed.

Lemma in_order_consume s p a t : in_order s -> queue s !! consumed s = Some p ->
  delivered_as p a -> deliveries (acts t) = deliveries (acts s) ++ [a] ->
  queue t = queue s -> consumed t = S (consumed s) -> in_order t.
Proof.
  intros [Hl Hd] Hp Ha Hacts Hq Hc. unfold in_order. rewrite Hq, Hc, Hacts.
  apply lookup_lt_Some in Hp as Hlt. split; [lia|].
  rewrite (take_S_r _ _ _ Hp). by apply Forall2_app; [|constructor].
Qed.

Lemma order_kept_act s a : deliveries [a] = [] -> order_kept s (add_act a s).
Proof.
  intros Ha [Hl Hd]. split; [done|]. cbn. by rewrite deliveries_app, Ha, app_nil_r.
Qed.

Lemma order_kept_closed : closed (fun _ => True) True order_kept.
Proof.
  pose proof order_kept_act as Hact.
  constructor; [constructor|]; try (by intros; intros Hs; exact Hs).
  - apply _.
  - intros s. exact (Hact (set_id_gen _ s) (Drew (request_id_gen s)) eq_refl).
  - intros s tx l _ E [Hl Hd]. split; cbn; rewrite E.
    + rewrite length_app. lia.
    + by rewrite take_app_le.
  - intros s a Ha. apply Hact. by destruct a.
  - intros s id w. exact (Hact (set_requests _ s) (Registered id w) eq_refl).
  - intros s Hs. rewrite consume_eq. cbn [fst]. destruct (_ !! _) as [p|] eqn:E; [|done].
    destruct p as [r|r|r].
    + eapply in_order_consume; try done. exact (deliveries_app (acts s) [_]).
    + eapply (in_order_consume _ _
        (match requests s !! resp_id r with Some w => Reply w r | None => unclaimed r end));
        try done.
      * cbn. destruct (requests s !! resp_id r); [left; by eexists|apply unclaimed_delivered].
      * etrans; [exact (deliveries_app (acts s) [_])|]. f_equal.
        cbn. destruct (requests s !! resp_id r); [done|].
        unfold unclaimed. by destruct (_ && _).
    + eapply in_order_consume; try done.
      etrans; [exact (deliveries_app (acts s ++ [_]) [_])|].
      by rewrite deliveries_app, app_nil_r.
Qed.

(** What a piece of the run hands to the consumer task. *)
Definition same_queue (s s' : St) : Prop := queue s' = queue s.

#[local] Instance same_queue_order : PreOrder same_queue.
Proof. split; unfold same_queue; congruence. Qed.

Lemma same_queue_closed T : closed (fun _ => False) T same_queue.
Proof.
  constructor; [constructor|]; try done; [apply _| |].
  - intros s tx [|p l] Hl E; [|by inversion Hl]. unfold same_queue. cbn. by rewrite E, app_nil_r.
  - intros s. rewrite consume_eq. cbn [fst]. destruct (_ !! _) as [[]|]; try done.
Qed.

Lemma then_same_queue {A B} (m : SM St data_exit A) (f : A -> SM St data_exit B) s l :
  (exists qs, queue (m s).1 = queue s ++ qs /\ qs `sublist_of` l) ->
  (forall a, keeps same_queue (f a)) ->
  exists qs, queue ((m ≫= f) s).1 = queue s ++ qs /\ qs `sublist_of` l.
Proof.
  intros (qs & E & Hl) Hf. exists qs. split; [|done]. unfold mbind, SM_bind.
  destruct (m s) as [s1 [a|e|]]; cbn [fst] in *; [|done..]. by rewrite (Hf a s1).
Qed.

Lemma data_step_queue e s :
  exists qs, queue (data_step conf e s).1 = queue s ++ qs /\ qs `sublist_of` received e.
Proof.
  pose proof (same_queue_closed True) as HI.
  assert (received e = [] -> exists qs,
    queue (data_step conf e s).1 = queue s ++ qs /\ qs `sublist_of` received e) as Hno.
  { intros Hr. exists []. rewrite app_nil_r. split; [|apply sublist_nil_l].
    refine (data_step_keeps conf _ _ _ HI e _ s). rewrite Hr. constructor. }
  destruct e; try by apply Hno. cbn [data_step received]. clear Hno.
  assert (forall s', queue s' = queue s -> exists qs, queue (try_process packet s').1 =
    queue s ++ qs /\ qs `sublist_of` [packet]) as Htry.
  { intros s' Hs'. unfold try_process, mbind, SM_bind, sget, smodify.
    destruct (try_send packet (packet_process_tx s')) as [tx r] eqn:E. cbn [fst snd].
    destruct r; [exists [packet]|exists []..]; rewrite ?app_nil_r; cbn.
    - apply try_send_sent in E. by rewrite E, Hs'.
    - apply try_send_other in E; [|done]. rewrite E, Hs'. split; [done|apply sublist_nil_l].
    - apply try_send_other in E; [|done]. rewrite E, Hs'. split; [done|apply sublist_nil_l]. }
  unfold on_recv. unfold mbind at 1, SM_bind at 1, smodify at 1.
  destruct packet as [?|r|?]; try by apply Htry.
  destruct (resp_command r); try by apply Htry.
  - destruct (bool_decide _); cycle 1.
    { exists []. rewrite app_nil_r. split; [done|apply sublist_nil_l]. }
    unfold mbind at 1, SM_bind at 1, smodify at 1.
    apply (then_same_queue _ _ (set_authed true (set_pong now s))).
    + unfold process_send, mbind, SM_bind, sget, smodify.
      destruct (send _ _) as [tx|] eqn:E; [exists [PResponse r]|exists []]; cbn.
      * apply send_accepted in E. by rewrite E.
      * rewrite app_nil_r. split; [done|apply sublist_nil_l].
    + intros []; [|apply keeps_fail, _].
      apply keeps_bind; [apply _|apply (new_subscribes_keeps _ _ _ HI)|]. intros ps.
      apply keeps_for; [apply _|]. apply (send_subscribe_keeps _ _ _ HI).
  - exists []. rewrite app_nil_r. split; [|apply sublist_nil_l].
    destruct (decode _); [|done]. unfold mbind, SM_bind, slift.
    by destruct (isub64 _ _).
Qed.

(** What a run brings from the peer. *)
Definition incoming (es : list (option (data_event R))) : list Packet :=
  es ≫= fun e => match e with Some e => received e | None => [] end.

Definition grows (l : list Packet) (s s' : St) : Prop :=
  exists qs, queue s' = queue s ++ qs /\ qs `sublist_of` l.

Lemma grows_trans l k s s' s'' : grows l s s' -> grows k s' s'' -> grows (l ++ k) s s''.
Proof.
  intros (qs & E & Hl) (rs & E' & Hk). exists (qs ++ rs). split.
  - by rewrite E', E, app_assoc.
  - by apply sublist_app.
Qed.

Lemma grows_nil l s s' : queue s' = queue s -> grows l s s'.
Proof. intros E. exists []. rewrite app_nil_r. split; [done|apply sublist_nil_l]. Qed.

Lemma grows_from l s t u : queue t = queue s -> grows l t u -> grows l s u.
Proof. intros E (qs & Eq & Hl). exists qs. by rewrite Eq, E. Qed.

Lemma grows_weaken l k s s' : grows l s s' -> grows (l ++ k) s s'.
Proof. intros G. eapply grows_trans; [done|by apply grows_nil]. Qed.

Lemma link_run_queue es s : grows (incoming es) s (link_run conf es s).1.
Proof.
  revert s. induction es as [|e es IH]; intros s; [by apply grows_nil|].
  unfold link_run. cbn [sfor]. unfold mbind, SM_bind.
  change (incoming (e :: es)) with
    ((match e with Some e => received e | None => [] end) ++ incoming es).
  assert (grows (match e with Some e => received e | None => [] end) s (link_step conf e s).1)
    as Hs.
  { destruct e as [e|]; [apply data_step_queue|]. apply grows_nil.
    exact (closed_consume _ _ _ (same_queue_closed True) s). }
  destruct (link_step conf e s) as [s1 [[]|?|]]; cbn [fst] in *; [|by apply grows_weaken..].
  eapply grows_trans; [exact Hs|apply IH].
Qed.

Definition all_incoming (cs : list (connection R IT)) : list Packet :=
  cs ≫= fun c => incoming (events c).

Lemma conn_loop_queue n cs s : grows (all_incoming cs) s (conn_loop conf n cs s).1.
Proof.
  revert n s. induction cs as [|c cs IH]; intros n s; cbn [conn_loop]; [by apply grows_nil|].
  pose proof (idle_keeps _ _ _ (same_queue_closed True) (idle_draws c) s) as Hi.
  unfold mbind at 1, SM_bind at 1. rewrite (idle_eq (idle_draws c) s) in *. cbn [fst] in Hi.
  revert Hi. generalize (Nat.iter (idle_draws c) drawn_once s). intros t Hi.
  apply (grows_from _ _ _ _ Hi). clear s Hi. rename t into s.
  destruct (cid_ok c); [|by apply grows_nil]. cbn zeta.
  unfold draw_id, act, mbind, SM_bind, sget, smodify, mret, SM_ret. cbn [fst snd].
  set (s0 := start_conn _ _ _). change (all_incoming (c :: cs)) with
    (incoming (events c) ++ all_incoming cs).
  pose proof (link_run_queue (events c) s0) as Hg.
  assert (queue s0 = queue s) as E0 by done.
  assert (grows (incoming (events c)) s (link_run conf (events c) s0).1) as Hg0
    by (destruct Hg as (qs & E & Hq); exists qs; by rewrite E, E0).
  destruct (link_run conf (events c) s0) as [s1 [[]|[|e]|]]; cbn [fst snd] in *;
    try by apply grows_weaken.
  assert (queue (end_conn conf e n s1).1 = queue s1) as Ee.
  { unfold end_conn, act, mbind, SM_bind, smodify, slift.
    destruct (incr_u32 n); try done. cbn zeta. by destruct (_ && _). }
  assert (grows (incoming (events c)) s (end_conn conf e n s1).1) as Hg1
    by (destruct Hg0 as (qs & E & Hq); exists qs; by rewrite Ee, E).
  change (grows (incoming (events c) ++ all_incoming cs) s
    ((retry_times ← end_conn conf e n; conn_loop conf retry_times cs) s1).1).
  unfold mbind, SM_bind. destruct (end_conn conf e n s1) as [s2 [m|?|]]; cbn [fst] in *;
    [|by apply grows_weaken..].
  eapply grows_trans; [exact Hg1|apply IH].
Qed.

(** C18. The user sees packets in order: over the whole life of a client whose queue starts
    empty, the callbacks and replies made are, one for one and in order, those of the first
    packets of a sub-sequence of the packets the peer sent: none is delivered twice, none
    out of order; a response goes to its waiter, or to [on_connected] when it is a
    successful authentication, or else to [on_response]. *)
Theorem deliveries_in_order (tx : PT) (itx : IT) (p : Packet) (cs : list (connection R IT))
    (Htx : accepted tx = []) :
  let s := (client_link conf cs (client_init tx itx p)).1 in
  exists qs, qs `sublist_of` all_incoming cs /\ (consumed s <= length qs)%nat /\
    Forall2 delivered_as (take (consumed s) qs) (deliveries (acts s)).
Proof.
  intros s. set (s0 := client_init tx itx p) in *.
  assert (in_order s) as [Hl Hd].
  { apply (client_link_keeps conf order_kept order_kept_closed cs);
      [intros ? a Ha; apply order_kept_act; by destruct a|intros ? ? ? Hs; exact Hs
      |intros ? Hs; exact Hs|]. split; [apply Nat.le_0_l|constructor]. }
  assert (grows (all_incoming cs) s0 s) as (qs & E & Hq).
  { subst s. unfold client_link. pose proof (conn_loop_queue 0 cs s0) as Hg.
    by destruct (conn_loop conf 0 cs s0) as [s1 [|?|]]. }
  exists qs. change (queue s0) with (accepted tx) in E. rewrite Htx in E. cbn [app] in E.
  subst qs. by split_and!.
Qed.

End Order.

(** * Request ids *)

Definition successive (g : Z) (n : nat) : list Z :=
  map (fun i => wrap_u32 (g + Z.of_nat i)) (seq 0 n).

Lemma length_successive g n : length (successive g n) = n.
Proof. unfold successive. by rewrite length_map, length_seq. Qed.

Lemma wrap_u32_wrap a b : wrap_u32 (wrap_u32 a + b) = wrap_u32 (a + b).
Proof. unfold wrap_u32. by rewrite Z.add_mod_idemp_l by (unfold u32_bound; lia). Qed.

Lemma wrap_u32_bound a : in_u32 (wrap_u32 a).
Proof. unfold in_u32, wrap_u32. apply Z.mod_pos_bound. unfold u32_bound. lia. Qed.

Lemma map_seq_add {A} (f : nat -> A) n m :
  map f (seq (0 + n) m) = map (fun i => f (n + i)%nat) (seq 0 m).
Proof. induction m as [|m IH]; [done|]. by rewrite !seq_S, !map_app, IH. Qed.

Lemma successive_app g n m :
  successive g (n + m) = successive g n ++ successive (wrap_u32 (g + Z.of_nat n)) m.
Proof.
  unfold successive. rewrite seq_app, map_app. f_equal.
  rewrite map_seq_add. apply map_ext. intros i. rewrite wrap_u32_wrap. f_equal. lia.
Qed.

Lemma trim_wrap a : request_id_trim (wrap_u32 a) = a mod u24_bound.
Proof.
  rewrite request_id_trim_mod. unfold wrap_u32, u32_bound, u24_bound.
  change (2 ^ 32) with (2 ^ 24 * 2 ^ 8). rewrite Z.rem_mul_r by lia.
  rewrite Z.add_mod, (Z.mul_comm (2 ^ 24)), Z.mod_mul, Z.add_0_r by lia.
  by rewrite !Z.mod_mod by lia.
Qed.

(** The counter repeats after 2^32 draws, the trims after 2^24. *)
Lemma successive_no_dup (f : Z -> Z) (period : Z) g n : 0 < period ->
  (forall i j, f (wrap_u32 (g + i)) = f (wrap_u32 (g + j)) <-> (i - j) mod period = 0) ->
  NoDup (map f (successive g n)) <-> Z.of_nat n <= period.
Proof.
  intros Hp Hf. unfold successive. rewrite map_map. split.
  - intros Hnd. destruct (Z.le_gt_cases (Z.of_nat n) period) as [|Hgt]; [done|].
    set (h := fun i : nat => f (wrap_u32 (g + Z.of_nat i))) in *.
    assert (map h (seq 0 n) !! 0%nat = Some (h 0%nat)) as H0.
    { apply list_lookup_fmap_Some. exists 0%nat. split; [done|]. apply lookup_seq. lia. }
    assert (map h (seq 0 n) !! Z.to_nat period = Some (h 0%nat)) as H1.
    { apply list_lookup_fmap_Some. exists (Z.to_nat period). split; [|apply lookup_seq; lia].
      symmetry. apply Hf. rewrite Z2Nat.id, Z.sub_0_r by lia. by apply Z.mod_same; lia. }
    pose proof (NoDup_lookup _ _ _ _ Hnd H0 H1). lia.
  - intros Hn. apply NoDup_fmap_2_strong; [|apply NoDup_seq].
    intros i j Hi%elem_of_seq Hj%elem_of_seq E. apply Hf in E.
    apply Z.mod_divide in E as [k Ek]; [|lia].
    assert (k <= -1 \/ k = 0 \/ 1 <= k) as [Hk|[->|Hk]] by lia; [|lia|].
    + assert (k * period <= -1 * period) by (apply Z.mul_le_mono_nonneg_r; lia). lia.
    + assert (1 * period <= k * period) by (apply Z.mul_le_mono_nonneg_r; lia). lia.
Qed.

Lemma mod_eq_iff a b m : 0 < m -> a mod m = b mod m <-> (a - b) mod m = 0.
Proof.
  intros Hm. split.
  - intros E. by rewrite Zminus_mod, E, Z.sub_diag.
  - intros [k Ek]%Z.mod_divide; [|lia]. replace a with (b + k * m) by lia. by apply Z.mod_add; lia.
Qed.

Lemma successive_ids_distinct g n : NoDup (successive g n) <-> Z.of_nat n <= u32_bound.
Proof.
  rewrite <- (map_id (successive g n)) at 1. apply successive_no_dup; [done|]. intros i j.
  unfold wrap_u32. rewrite mod_eq_iff by done. by replace (g + i - (g + j)) with (i - j) by lia.
Qed.

Lemma successive_trims_distinct g n :
  NoDup (map request_id_trim (successive g n)) <-> Z.of_nat n <= u24_bound.
Proof.
  apply successive_no_dup; [done|]. intros i j. rewrite !trim_wrap.
  rewrite mod_eq_iff by done. by replace (g + i - (g + j)) with (i - j) by lia.
Qed.

Section Ids.
Context {R PT IT : Type} `{TrySender PT Packet} `{!Sender IT Packet}.
Context `{!SenderLaws PT Packet, !TrySenderLaws PT Packet}.
Context `{!Message AuthRequest, !Message SubscribeRequest, !Message Heartbeat,
  !Message LinkError}.
Context (conf : LinkClientConfig).
Abbreviation St := (client_state R PT IT).
Implicit Types s : St.

(** Along a run the counter hands out successive ids. *)
Definition draws (s s' : St) : Prop := in_u32 (request_id_gen s) -> exists n,
  drawn (acts s') = drawn (acts s) ++ successive (request_id_gen s) n /\
  request_id_gen s' = wrap_u32 (request_id_gen s + Z.of_nat n).

#[local] Instance draws_order : PreOrder draws.
Proof.
  split.
  - intros s Hs. exists O. rewrite app_nil_r. split; [done|].
    unfold wrap_u32. rewrite Z.add_0_r, Z.mod_small; done.
  - intros s s' s'' Hd Hd' Hs. destruct (Hd Hs) as (n & D & G).
    destruct Hd' as (m & D' & G'); [rewrite G; apply wrap_u32_bound|].
    exists (n + m)%nat. rewrite successive_app, D', D, G', <- !app_assoc, G, wrap_u32_wrap.
    split; [done|]. f_equal. lia.
Qed.

Lemma drawn_app l k : drawn (R := R) (l ++ k) = drawn l ++ drawn k.
Proof. apply omap_app. Qed.

Lemma draws_same s s' : drawn (acts s') = drawn (acts s) ->
  request_id_gen s' = request_id_gen s -> draws s s'.
Proof. intros D G Hs. destruct (draws_order.(PreOrder_Reflexive) s Hs) as (n & ? & ?).
  exists n. by rewrite D, G. Qed.

Lemma draws_closed : closed (fun _ => True) True draws.
Proof.
  constructor; [constructor|]; try (by intros; apply draws_same).
  - apply _.
  - intros s Hs. exists 1%nat. cbn [add_act acts request_id_gen set_id_gen]. rewrite drawn_app.
    split; [|done]. f_equal. cbn. rewrite Z.add_0_r. unfold wrap_u32. by rewrite Z.mod_small.
  - intros s a Ha. apply draws_same; [|done]. cbn. rewrite drawn_app. destruct a; try done;
      apply app_nil_r.
  - intros s id w. apply draws_same; [|done]. cbn. rewrite drawn_app. apply app_nil_r.
  - intros s. rewrite consume_eq. cbn [fst]. destruct (_ !! _) as [[r|r|r]|]; apply draws_same;
      try done; cbn -[drawn]; rewrite ?drawn_app; cbn; rewrite ?app_nil_r; try done.
    destruct (_ !! _); [by rewrite app_nil_r|]. unfold unclaimed.
    by destruct (_ && _); rewrite app_nil_r.
Qed.

(** C19. Request ids do not collide on a connection before the counter comes round: from any
    state, whatever happens on a connection, the ids drawn are successive values of the
    wrapping counter. They are pairwise different exactly as long as no more than 2^32 of
    them are drawn; their 24-bit trims, which are the ids on the wire and the keys of the
    waiters, exactly as long as no more than 2^24 are. *)
Theorem request_ids_distinct (es : list (option (data_event R))) (s : St)
    (Hs : in_u32 (request_id_gen s)) :
  exists n, let s' := (link_run conf es s).1 in
    drawn (acts s') = drawn (acts s) ++ successive (request_id_gen s) n /\
    request_id_gen s' = wrap_u32 (request_id_gen s + Z.of_nat n) /\
    (NoDup (successive (request_id_gen s) n) <-> Z.of_nat n <= u32_bound) /\
    (NoDup (map request_id_trim (successive (request_id_gen s) n)) <-> Z.of_nat n <= u24_bound).
Proof.
  destruct (link_run_keeps conf draws draws_closed es s Hs) as (n & D & G).
  exists n. cbn zeta. split_and!; [done|done|apply successive_ids_distinct|apply successive_trims_distinct].
Qed.

End Ids.

(** * Time-outs and authentication *)

Section Timing.
Context {R PT IT : Type} `{TrySender PT Packet} `{!Sender IT Packet}.
Context `{!SenderLaws PT Packet, !TrySenderLaws PT Packet}.
Context `{!Message AuthRequest, !Message SubscribeRequest, !Message Heartbeat,
  !Message LinkError}.
Context `{!SenderLaws IT Packet}.
Context (conf : LinkClientConfig).
Abbreviation St := (client_state R PT IT).
Implicit Types s : St.

Definition auth_success (p : Packet) : bool :=
  match p with
  | PResponse r => bool_decide (resp_command r = Auth) && bool_decide (resp_status r = Success)
  | _ => false
  end.

(** Whether a successful authentication response was received, and when the last packet
    was, from what was the case before. *)
Fixpoint authed_after (b : bool) (es : list (option (data_event R))) : bool :=
  match es with
  | [] => b
  | Some (Recv p _ _) :: es => authed_after (b || auth_success p) es
  | _ :: es => authed_after b es
  end.

Fixpoint last_recv_after (t : Z) (es : list (option (data_event R))) : Z :=
  match es with
  | [] => t
  | Some (Recv _ now _) :: es => last_recv_after now es
  | _ :: es => last_recv_after t es
  end.

Abbreviation clocks s := (is_authed s, last_pong_at s, conn_created_at s).

Definition same_clocks s s' : Prop := clocks s' = clocks s.

#[local] Instance same_clocks_order : PreOrder same_clocks.
Proof. split; unfold same_clocks; congruence. Qed.

Lemma same_clocks_closed : closed (fun _ => True) False same_clocks.
Proof.
  constructor; [constructor|]; try done; [apply _|].
  intros s. rewrite consume_eq. cbn [fst]. by destruct (_ !! _) as [[]|].
Qed.

Lemma ok_then {A B} (m : SM St data_exit A) (f : A -> SM St data_exit B) s s' b :
  (m ≫= f) s = (s', Ok b) -> exists s1 a, m s = (s1, Ok a) /\ f a s1 = (s', Ok b).
Proof. unfold mbind, SM_bind. destruct (m s) as [s1 [a|?|]]; [|done..]. by exists s1, a. Qed.

Lemma keeps_run (I : relation St) {A} (m : SM St data_exit A) s s' r :
  keeps I m -> m s = (s', r) -> I s s'.
Proof. intros Hm E. specialize (Hm s). by rewrite E in Hm. Qed.

Lemma on_recv_clocks p now unix s s' : on_recv conf p now unix s = (s', Ok tt) ->
  clocks s' = (is_authed s || auth_success p, now, conn_created_at s).
Proof.
  intros (s1 & [] & [= <-] & E)%ok_then.
  pose proof same_clocks_closed as HI.
  assert (forall q, keeps same_clocks (try_process q)) as Htry
    by (intros q; by apply (try_process_keeps _ _ _ HI)).
  destruct p as [?|r|?]; cbn [auth_success];
    try (by apply (keeps_run _ _ _ _ _ (Htry _)) in E; rewrite E, orb_false_r).
  destruct (resp_command r) eqn:Hc; cbn [bool_decide decide_rel Command_eq_dec];
    try (by apply (keeps_run _ _ _ _ _ (Htry _)) in E; rewrite E, orb_false_r).
  - rewrite (bool_decide_eq_true_2 (Auth = Auth)) by done. cbn [andb].
    destruct (bool_decide (resp_status r = Success)); [|done].
    apply ok_then in E as (s2 & [] & [= <-] & E).
    assert (same_clocks (set_authed true (set_pong now s)) s') as Hk; cycle 1.
    { rewrite Hk. cbn. by rewrite orb_true_r. }
    revert E. apply keeps_run.
    apply keeps_bind; [apply _|by apply (process_send_keeps _ _ _ HI)|].
    intros []; [|apply keeps_fail, _].
    apply keeps_bind; [apply _|apply (new_subscribes_keeps _ _ _ HI)|]. intros ps.
    apply keeps_for; [apply _|]. apply (send_subscribe_keeps _ _ _ HI).
  - destruct (decode _); [|done]. apply ok_then in E as (s2 & d & [= <- _] & [= <-]).
    by rewrite orb_false_r.
Qed.

Lemma link_run_clocks es s s' : link_run conf es s = (s', Ok tt) ->
  clocks s' = (authed_after (is_authed s) es, last_recv_after (last_pong_at s) es,
    conn_created_at s).
Proof.
  revert s. induction es as [|e es IH]; intros s; [by intros [= <-]|].
  unfold link_run. cbn [sfor]. intros (s1 & [] & E1 & E2)%ok_then.
  apply IH in E2. rewrite E2.
  assert (same_clocks s s1 -> forall x y z, clocks s = (x, y, z) ->
    clocks s1 = (x, y, z)) as Hsame by (intros -> x y z; done).
  destruct e as [e|]; cbn [link_step] in E1; cycle 1.
  { pose proof (closed_consume _ _ _ same_clocks_closed s) as Hk. rewrite E1 in Hk.
    by injection (Hsame Hk _ _ _ eq_refl) as -> -> ->. }
  assert (received e = [] -> same_clocks s s1) as Hk.
  { intros Hr. eapply keeps_run; [|exact E1].
    eapply data_step_keeps; [apply same_clocks_closed|]. by rewrite Hr. }
  destruct e; try (by injection (Hsame (Hk eq_refl) _ _ _ eq_refl) as -> -> ->).
  cbn [data_step] in E1. apply on_recv_clocks in E1. by injection E1 as -> -> ->.
Qed.

(** C37. A dead peer is given up in time: if a connection survives a tick of its ticker, then
    either a successful authentication response was received on it and the last packet came
    no longer than the heartbeat time-out before the tick, or none was and the connection
    is no older than the authentication time-out. *)
Theorem survived_tick_is_fresh (c : connection R IT) (auth_packet : Packet) (s s' : St)
    (es : list (option (data_event R))) (now unix : Z)
    (Hrun : link_run conf (es ++ [Some (PingTick now unix)]) (start_conn c auth_packet s) =
      (s', Ok tt)) :
  if authed_after false es
  then elapsed now (last_recv_after (created_at c) es) <= heartbeat_timeout (healthy_config conf)
  else elapsed now (created_at c) <= auth_timeout (healthy_config conf).
Proof.
  assert (forall es s0, link_run conf (es ++ [Some (PingTick now unix)]) s0 = (s', Ok tt) ->
    exists s1 u, link_run conf es s0 = (s1, Ok u) /\
      on_ping_tick conf now unix s1 = (s', Ok tt)) as Hsplit.
  { clear. induction es as [|e es IH]; intros s0; unfold link_run; cbn [app sfor].
    - intros (s1 & [] & E & [= ->])%ok_then. by exists s0, tt.
    - intros (s1 & [] & E & (s2 & u & E2 & Et)%IH)%ok_then. exists s2, u.
      split; [|done]. unfold mbind, SM_bind. by rewrite E. }
  destruct (Hsplit _ _ Hrun) as (s1 & [] & E & Et). apply link_run_clocks in E.
  cbn [start_conn is_authed last_pong_at conn_created_at] in E. injection E as Ha Hp Hc.
  unfold on_ping_tick in Et. unfold mbind at 1, SM_bind at 1, sget in Et.
  apply ok_then in Et as (s2 & [] & Et & _). rewrite Ha, Hp, Hc in Et.
  destruct (authed_after false es); revert Et; by zcase.
Qed.

(** The subscription packet of a configured entry, under an id. *)
Definition sub_packet (sub : Subscribe) (id : Z) : Packet :=
  new_subscribe (sub_cmd sub) id (sub_all sub) (sub_span_index sub).

Lemma new_subscribes_eq subs s : in_u32 (request_id_gen s) ->
  exists s', new_subscribes subs s =
      (s', Ok (zip_with sub_packet subs (successive (request_id_gen s) (length subs)))) /\
    clocks s' = clocks s /\ inner_request_tx s' = inner_request_tx s /\
    packet_process_tx s' = packet_process_tx s.
Proof.
  revert s. induction subs as [|sub subs IH]; intros s Hs; [by exists s|].
  cbn [new_subscribes length]. unfold draw_id, act, mbind, SM_bind, sget, smodify.
  cbn [mret SM_ret].
  set (s1 := add_act _ _). destruct (IH s1 (wrap_u32_bound _)) as (s2 & E & K & I & P).
  rewrite E. exists s2. split_and!; try done. do 2 f_equal.
  rewrite (successive_app _ 1 (length subs)). cbn [successive seq map app zip_with].
  change (Z.of_nat 1) with 1. subst s1. cbn [add_act set_id_gen request_id_gen]. f_equal.
  assert (wrap_u32 (request_id_gen s + Z.of_nat 0) = request_id_gen s) as ->; [|done].
  unfold wrap_u32. rewrite Z.add_0_r. by rewrite Z.mod_small.
Qed.

Lemma send_subscribes_eq `{!ReliableSender IT Packet} ps s :
  exists s', sfor send_subscribe ps s = (s', Ok tt) /\ clocks s' = clocks s /\
    packet_process_tx s' = packet_process_tx s /\
    accepted (inner_request_tx s') = accepted (inner_request_tx s) ++ ps.
Proof.
  revert s. induction ps as [|p ps IH]; intros s; [exists s; by rewrite app_nil_r|].
  cbn [sfor]. unfold send_subscribe, inner_send, mbind, SM_bind, sget, smodify.
  destruct (send_reliable p (inner_request_tx s)) as [tx E]. rewrite E. cbn [mret SM_ret].
  destruct (IH (set_inner tx s)) as (s' & E' & K & P & A). exists s'.
  split_and!; [exact E'|done|done|]. rewrite A. cbn. by rewrite (send_accepted _ _ _ E), <- app_assoc.
Qed.

(** C35. What an authentication response does, on every branch. Refused: the connection ends
    with the peer's error, or the stock one when the body does not decode, and nothing is
    sent. Accepted, with a live transport: the response is queued for the consumer task,
    then one subscription per configured entry is sent, in order, with successive fresh ids;
    nothing else is sent. With a dead consumer task the connection ends. *)
Theorem auth_response_effect `{!ReliableSender IT Packet} (r : Response) (now unix : Z) (s : St)
    (Hr : resp_command r = Auth) (Hs : in_u32 (request_id_gen s)) :
  let ids := successive (request_id_gen s) (length (subscribes conf)) in
  let '(s', res) := data_step conf (Recv (PResponse r) now unix) s in
  if bool_decide (resp_status r = Success) then
    is_authed s' = true /\ last_pong_at s' = now /\
    match send (PResponse r) (packet_process_tx s) with
    | Some tx => res = Ok tt /\ packet_process_tx s' = tx /\
        accepted (inner_request_tx s') = accepted (inner_request_tx s) ++
          zip_with sub_packet (subscribes conf) ids
    | None => res = Err (Broke AuthProcessSendFailed) /\
        inner_request_tx s' = inner_request_tx s
    end
  else s' = set_pong now s /\
    res = Err (Broke (AuthFailed match decode (resp_body r) with
      | Some e => e | None => {| code := 0; msg := "unknown error" |} end)).
Proof.
  cbn [data_step]. unfold on_recv. rewrite Hr. unfold mbind at 1, SM_bind at 1, smodify at 1.
  destruct (bool_decide (resp_status r = Success)); cycle 1.
  { split; [done|]. by destruct (decode (resp_body r)). }
  unfold mbind at 1, SM_bind at 1, smodify at 1.
  set (s1 := set_authed true (set_pong now s)).
  unfold process_send, mbind, SM_bind, sget, smodify.
  change (packet_process_tx s1) with (packet_process_tx s).
  destruct (send (PResponse r) (packet_process_tx s)) as [tx|] eqn:E; [|done].
  cbn [mret SM_ret].
  destruct (new_subscribes_eq (subscribes conf) (set_process tx s1) Hs) as (s2 & -> & K2 & I2 & P2).
  destruct (send_subscribes_eq (zip_with sub_packet (subscribes conf)
    (successive (request_id_gen s) (length (subscribes conf)))) s2) as (s3 & E3 & K3 & P3 & A3).
  change (request_id_gen (set_process tx s1)) with (request_id_gen s). rewrite E3.
  injection (eq_trans K3 K2) as -> -> _. split_and!; try done.
  - by rewrite P3, P2.
  - by rewrite A3, I2.
Qed.

End Timing.

(** * Reconnection *)

Section Retry.
Context {R PT IT : Type} `{TrySender PT Packet} `{!Sender IT Packet}.
Context `{!SenderLaws PT Packet, !TrySenderLaws PT Packet}.
Context `{!Message AuthRequest, !Message SubscribeRequest, !Message Heartbeat,
  !Message LinkError}.
Context (conf : LinkClientConfig).
Abbreviation St := (client_state R PT IT).
Implicit Types s : St.

Abbreviation attempts s := (length (connects (acts s))).
Abbreviation reports s := (length (error_events (acts s))).

Definition same_attempts s s' : Prop := attempts s' = attempts s /\ reports s' = reports s.

#[local] Instance same_attempts_order : PreOrder same_attempts.
Proof. split; unfold same_attempts; [done|]. intros ? ? ? [] []. by split; etrans. Qed.

Lemma attempts_add a s :
  attempts (add_act a s) = (attempts s + length (connects [a]))%nat /\
  reports (add_act a s) = (reports s + length (error_events [a]))%nat.
Proof.
  cbn [add_act acts]. unfold connects, error_events. by rewrite !omap_app, !length_app.
Qed.

Lemma same_attempts_act s t a : acts t = acts s -> connects [a] = [] -> error_events [a] = [] ->
  same_attempts s (add_act a t).
Proof.
  intros E A B. unfold same_attempts. rewrite !(proj1 (attempts_add _ _)), !(proj2 (attempts_add _ _)).
  rewrite A, B, E. cbn. lia.
Qed.

Lemma same_attempts_closed : closed (fun _ => True) True same_attempts.
Proof.
  constructor; [constructor|]; try done.
  - apply _.
  - intros s. by apply same_attempts_act.
  - intros s a Ha. apply same_attempts_act; [done|..]; by destruct a as [[]| | | | | | | | | | | |].
  - intros s id w. by apply same_attempts_act.
  - intros s. rewrite consume_eq. cbn [fst]. destruct (_ !! _) as [[r|r|r]|]; [| | |done].
    + by apply same_attempts_act.
    + cbn [consume_state set_consumed requests]. destruct (requests s !! resp_id r) as [w|].
      * by apply same_attempts_act.
      * apply same_attempts_act; [done|..]; unfold unclaimed; by destruct (_ && _).
    + etrans; [|by apply same_attempts_act]. by apply same_attempts_act.
Qed.

(** A connection that gets a connection id and later breaks. *)
Definition breaks (c : connection R IT) : Prop :=
  cid_ok c = true /\
  forall s, exists e, (link_run conf (events c) s).2 = Err (Broke e).

Abbreviation max_retry := (conf_retry_times (healthy_config conf)).

Lemma conn_loop_step n c cs s : breaks c -> exists s' e,
  attempts s' = S (attempts s) /\ reports s' = reports s /\
  conn_loop conf n (c :: cs) s =
    (retry_times ← end_conn conf e n; conn_loop conf retry_times cs) s'.
Proof.
  intros [Hc Hb]. cbn [conn_loop].
  pose proof (idle_keeps _ _ _ same_attempts_closed (idle_draws c) s) as [Hi Hj].
  unfold mbind at 1, SM_bind at 1. rewrite (idle_eq (idle_draws c) s) in *. cbn [fst] in Hi, Hj.
  revert Hi Hj. generalize (Nat.iter (idle_draws c) drawn_once s). intros t Hi Hj.
  rewrite Hc. cbn zeta. rewrite <- Hi, <- Hj. clear s Hi Hj. rename t into s.
  unfold mbind at 1, SM_bind at 1. rewrite draw_id_eq.
  unfold act, sget, smodify. unfold mbind at 1 2 3 4, SM_bind at 1 2 3 4. cbn [fst snd].
  match goal with |- context [link_run conf (events c) ?t] => set (s0 := t) end.
  destruct (Hb s0) as [e E].
  pose proof (link_run_keeps conf same_attempts same_attempts_closed (events c) s0) as [Ha Hr].
  assert (attempts s0 = S (attempts s) /\ reports s0 = reports s) as [Ha0 Hr0].
  { subst s0. cbn [start_conn drawn_once set_id_gen acts add_act]. unfold connects, error_events.
    rewrite !omap_app, !length_app. cbn. lia. }
  exists (link_run conf (events c) s0).1, e. split_and!; [congruence|congruence|].
  unfold mbind, SM_bind. by rewrite E.
Qed.

Lemma end_conn_eq e n s : 0 <= n -> n + 1 < u32_bound ->
  end_conn conf e n s =
    if (0 <? max_retry) && (max_retry <=? n + 1)
    then (set_id_gen 1 s, Err (RetriesExceeded e (n + 1) max_retry))
    else (add_act (Sleep (retry_interval (healthy_config conf)))
           (add_act (OnConnEvent (ConnErrorEvent e))
             (add_act (ExceptionCount "link_connection" "reconnect") (set_id_gen 1 s))),
          Ok (n + 1)).
Proof.
  intros Hn Hb. unfold end_conn, act, mbind, SM_bind, smodify, slift, incr_u32.
  rewrite (proj2 (Z.ltb_lt _ _) Hb). cbn zeta. by destruct (_ && _).
Qed.

Lemma conn_loop_breaks n cs s : Forall breaks cs -> 0 <= n -> 0 <= max_retry ->
  n + zlen cs < u32_bound -> (max_retry = 0 \/ n < max_retry) ->
  let '(s', res) := conn_loop conf n cs s in
  if (0 <? max_retry) && (max_retry <=? n + zlen cs) then
    (exists e, res = Err (RetriesExceeded e max_retry max_retry)) /\
    Z.of_nat (attempts s') = Z.of_nat (attempts s) + (max_retry - n) /\
    Z.of_nat (reports s') = Z.of_nat (reports s) + (max_retry - n) - 1
  else
    res = Ok Running /\ Z.of_nat (attempts s') = Z.of_nat (attempts s) + zlen cs /\
    Z.of_nat (reports s') = Z.of_nat (reports s) + zlen cs.
Proof.
  intros Hcs. revert n s. induction Hcs as [|c cs Hc Hcs IH]; intros n s Hn Hm Hl Hlt.
  - cbn [conn_loop]. unfold zlen in *. cbn [length] in *.
    assert ((0 <? max_retry) && (max_retry <=? n + Z.of_nat 0) = false) as ->
      by (repeat zcase; cbn; lia). split_and!; [done|lia..].
  - assert (zlen (c :: cs) = zlen cs + 1) as El by (unfold zlen; cbn [length]; lia).
    rewrite El in *. pose proof (zlen_nonneg cs).
    destruct (conn_loop_step n c cs s Hc) as (s1 & e & A1 & R1 & ->).
    unfold mbind, SM_bind. rewrite end_conn_eq by lia.
    destruct ((0 <? max_retry) && (max_retry <=? n + 1)) eqn:Eb.
    + apply andb_true_iff in Eb as [Hpos Hle]. zbool.
      assert (max_retry = n + 1) as Em by lia. rewrite <- Em.
      assert ((0 <? max_retry) && (max_retry <=? n + (zlen cs + 1)) = true) as ->
        by (repeat zcase; cbn; lia).
      split_and!; [by exists e|cbn [set_id_gen acts] in *; lia..].
    + match goal with |- context [conn_loop conf (n + 1) cs ?t] => set (s2 := t) end.
      assert (attempts s2 = attempts s1 /\ reports s2 = S (reports s1)) as [A2 R2].
      { subst s2. rewrite !(proj1 (attempts_add _ _)), !(proj2 (attempts_add _ _)). cbn. lia. }
      assert (max_retry = 0 \/ n + 1 < max_retry) as Hlt' by
        (destruct Hlt as [->|Hlt]; [by left|]; right; apply andb_false_iff in Eb as [Eb|Eb];
         zbool; lia).
      specialize (IH (n + 1) s2 ltac:(lia) Hm ltac:(lia) Hlt').
      replace (n + 1 + zlen cs) with (n + (zlen cs + 1)) in IH by lia.
      destruct (conn_loop conf (n + 1) cs s2) as [s' res].
      destruct ((0 <? max_retry) && (max_retry <=? n + (zlen cs + 1))).
      * destruct IH as (He & A & B). split_and!; [done|lia..].
      * destruct IH as (He & A & B). split_and!; [done|lia..].
Qed.

(** C36. The retry limit: on connections that all break, with a limit [m > 0] the client
    connects exactly [m] times, reports the first [m - 1] failures as errors, then reports
    the last one as final and stops; with the limit 0 it never stops: it connects and reports
    once per connection. *)
Theorem retry_limit (cs : list (connection R IT)) (s : St) (Hcs : Forall breaks cs)
    (Hm : 0 <= max_retry) (Hl : zlen cs < u32_bound)
    (Hs : attempts s = O /\ reports s = O) :
  let '(s', res) := client_link conf cs s in
  if (0 <? max_retry) && (max_retry <=? zlen cs) then
    Z.of_nat (attempts s') = max_retry /\ Z.of_nat (reports s') = max_retry - 1 /\
    (exists e before, let why := RetriesExceeded e max_retry max_retry in
      res = Ok (Ended why) /\ acts s' = before ++ [OnConnEvent (DisconnectedForever (inr why))])
  else res = Ok Running /\ Z.of_nat (attempts s') = zlen cs /\ Z.of_nat (reports s') = zlen cs.
Proof.
  destruct Hs as [Ha Hr]. unfold client_link.
  pose proof (conn_loop_breaks 0 cs s Hcs ltac:(lia) Hm ltac:(lia) ltac:(lia)) as Hp.
  rewrite Ha, Hr in Hp. change (0 + zlen cs) with (zlen cs) in Hp.
  destruct (conn_loop conf 0 cs s) as [s' res].
  destruct ((0 <? max_retry) && (max_retry <=? zlen cs)).
  - destruct Hp as ((e & ->) & A & B). rewrite !(proj1 (attempts_add _ _)), !(proj2 (attempts_add _ _)).
    cbn [connects error_events omap list_omap length]. split_and!; [lia..|].
    by exists e, (acts s').
  - destruct Hp as (-> & A & B). split_and!; [done|lia..].
Qed.

End Retry.

(** * Panics *)

Section Panics.
Context {R PT IT : Type} `{TrySender PT Packet} `{!Sender IT Packet}.
Context `{!Message AuthRequest, !Message SubscribeRequest, !Message Heartbeat,
  !Message LinkError}.
Context (conf : LinkClientConfig).
Abbreviation St := (client_state R PT IT).
Implicit Types s : St.

Definition calm {A} (m : SM St data_exit A) : Prop := forall s, (m s).2 <> Panic.

Lemma calm_bind {A B} (m : SM St data_exit A) (f : A -> SM St data_exit B) :
  calm m -> (forall a, calm (f a)) -> calm (m ≫= f).
Proof.
  intros Hm Hf s. specialize (Hm s). unfold mbind, SM_bind.
  destruct (m s) as [s1 [a|e|]]; cbn [snd] in *; [apply Hf|done..].
Qed.

Lemma calm_get {A B} (g : St -> A) (f : A -> SM St data_exit B) :
  (forall a, calm (f a)) -> calm (sget g ≫= f).
Proof. intros Hf s. apply Hf. Qed.

Lemma calm_inner_send p : calm (inner_send p).
Proof. apply calm_get. intros tx s. by destruct (send p tx). Qed.

Lemma calm_process_send p : calm (process_send p).
Proof. apply calm_get. intros tx s. by destruct (send p tx). Qed.

Lemma calm_try_process p : calm (try_process p).
Proof.
  apply calm_get. intros tx s. cbn zeta. unfold mbind, SM_bind, smodify.
  by destruct (try_send p tx) as [tx' []].
Qed.

Lemma calm_new_subscribes subs : calm (new_subscribes subs).
Proof.
  induction subs as [|sub subs IH]; [done|]. cbn [new_subscribes].
  apply calm_bind; [done|]. intros id. apply calm_bind; [done|]. by intros ps.
Qed.

Lemma calm_for {A} (f : A -> SM St data_exit unit) l : (forall a, calm (f a)) -> calm (sfor f l).
Proof. intros Hf. induction l as [|a l IH]; cbn [sfor]; [done|]. by apply calm_bind. Qed.

Lemma calm_ok_or (b : bool) e : calm (if b then mret tt else broke e).
Proof. by destruct b. Qed.

(** A panic comes from the time-stamp of a heartbeat response. *)
Lemma data_step_panic (e : data_event R) (s : St) : (data_step conf e s).2 = Panic ->
  exists r now unix hb, e = Recv (PResponse r) now unix /\ resp_command r = Heartbeat_ /\
    decode (resp_body r) = Some hb /\ ~ (- 2 ^ 63 <= unix - timestamp hb < 2 ^ 63).
Proof.
  assert (calm (data_step conf e) -> (data_step conf e s).2 = Panic -> forall P, P) as Habs
    by (intros Hc Hp; by destruct (Hc s)).
  destruct e as [|[]|now unix|[m]|p w locked|p now unix| | |]; try done.
  - intros Hp; refine (Habs _ Hp _); clear Hp. cbn [data_step]. apply calm_get. intros t.
    apply calm_bind; [destruct (is_authed t); by destruct (_ <? _)|]. intros _.
    apply calm_bind; [done|]. intros id.
    apply calm_bind; [apply calm_inner_send|]. intros b. apply calm_ok_or.
  - intros Hp; refine (Habs _ Hp _); clear Hp. apply calm_bind; [apply calm_inner_send|]. intros []; [|done].
    by destruct locked, p, w.
  - cbn [data_step]. unfold on_recv, mbind at 1, SM_bind at 1, smodify at 1.
    assert (forall q t, (try_process q t).2 = Panic -> False) as Htry
      by (intros q t Hp; by destruct (calm_try_process q t)).
    destruct p as [?|r|?]; [intros Hp; by apply Htry in Hp| |intros Hp; by apply Htry in Hp].
    destruct (resp_command r) eqn:Hc; try (intros Hp; by apply Htry in Hp).
    + intros Hp. exfalso. revert Hp. destruct (bool_decide _); [|done].
      apply (calm_bind (smodify (set_authed true))); [done|]. intros _.
      apply calm_bind; [apply calm_process_send|]. intros []; [|done].
      apply calm_bind; [apply calm_new_subscribes|]. intros ps. apply calm_for. intros q.
      apply calm_bind; [apply calm_inner_send|]. intros b. apply calm_ok_or.
    + destruct (decode (resp_body r)) as [hb|] eqn:Ed; [|done].
      unfold mbind, SM_bind, slift, isub64. intros Hp.
      exists r, now, unix, hb. split_and!; try done. intros [H1 H2].
      revert Hp. apply Z.leb_le in H1 as ->. by apply Z.ltb_lt in H2 as ->.
  - intros Hp; refine (Habs _ Hp _); clear Hp. apply calm_get. intros p. apply calm_bind; [apply calm_inner_send|done].
Qed.

(** The only panic of the link task: under overflow checks, a turn panics exactly when
    the peer answers a heartbeat with a time-stamp further from the clock than an [i64] can
    tell, which the peer is free to send. *)
Theorem data_step_panics_iff (e : data_event R) (s : St) :
  (data_step conf e s).2 = Panic <->
  exists r now unix hb, e = Recv (PResponse r) now unix /\ resp_command r = Heartbeat_ /\
    decode (resp_body r) = Some hb /\ ~ (- 2 ^ 63 <= unix - timestamp hb < 2 ^ 63).
Proof.
  split.
  - apply data_step_panic.
  - intros (r & now & unix & hb & -> & Hc & Hd & Hno). cbn [data_step].
    unfold on_recv, mbind at 1, SM_bind at 1, smodify at 1. rewrite Hc, Hd.
    unfold mbind, SM_bind, slift, isub64.
    destruct (_ && _) eqn:E; [|done]. destruct Hno. zbool. lia.
Qed.

End Panics.

(** * The caller of [send_request] *)

Section SendRequest.
Context {R TX : Type} `{!Sender TX (Packet * option R)} `{!Message LinkError}.
Context {Req CE Resp : Type} `{!Message Req}.

(** What a caller of [send_request] gets, exactly. It gets a value if and only if the
    command is not one the client manages itself, the link was started and took the request
    in time, under the next id trimmed to 24 bits, a response came in time that is a success
    or carries no error message, and it converts. The counter moves on by one whenever the
    request is built, even if it is not sent. *)
Theorem send_request_spec (try_from : Response -> outcome CE Resp) (req : Req) (cmd : Command)
    (w : R) (sent : bool) (waited : wait_result) (g : Z) (tx : option TX) :
  let '(st, res) := send_request try_from req cmd w sent waited (g, tx) in
  let managed := cmd = Heartbeat_ \/ cmd = Auth in
  (forall a, res = Ok a <-> ~ managed /\ exists t t' resp,
    tx = Some t /\ sent = true /\
    send (new_request cmd g (encode_to_vec req), Some w) t = Some t' /\ st.2 = Some t' /\
    waited = WaitGot resp /\
    (resp_status resp = Success \/ decode (A := LinkError) (resp_body resp) = None) /\
    try_from resp = Ok a) /\
  (managed -> st = (g, tx) /\ res = Err (NotSupported cmd)) /\
  (~ managed -> tx = None -> st = (g, None) /\ res = Err NotInit) /\
  (~ managed -> tx <> None -> st.1 = wrap_u32 (g + 1)).
Proof.
  unfold send_request.
  assert (bool_decide (cmd = Heartbeat_) || bool_decide (cmd = Auth) =
    bool_decide (cmd = Heartbeat_ \/ cmd = Auth)) as -> by (by destruct cmd).
  case_bool_decide as Hm; [cbn; naive_solver|].
  destruct tx as [t|]; [|cbn; naive_solver].
  unfold mbind, SM_bind, sget, smodify. cbn [fst snd].
  destruct sent; [|cbn; naive_solver].
  destruct (send _ t) as [t'|] eqn:E; [|cbn; naive_solver]. cbn [fst snd].
  destruct waited as [| |resp]; [cbn; naive_solver|cbn; naive_solver|].
  unfold slift. cbn. split_and!; [|done|done|done]. intros a. unfold read_response.
  split.
  - intros Hr. split; [done|]. exists t, t', resp. split_and!; try done.
    + destruct (bool_decide_reflect (resp_status resp = Success)); [by left|].
      right. by destruct (decode _).
    + destruct (if bool_decide _ then _ else _); [done|]. by destruct (try_from resp); simplify_eq.
  - intros (_ & ? & ? & resp' & [= <-] & _ & _ & _ & [= <-] & Hs & ->).
    destruct (bool_decide_reflect (resp_status resp = Success)); [done|].
    destruct Hs as [?| ->]; done.
Qed.

End SendRequest.

(** * Concrete runs

    Waiters are numbers; the consumer task has room for eight packets; the transport takes
    everything. *)

#[local] Instance auth_message : Message AuthRequest := countable_message AuthRequest.
#[local] Instance subscribe_message : Message SubscribeRequest :=
  countable_message SubscribeRequest.
#[local] Instance heartbeat_message : Message Heartbeat := countable_message Heartbeat.
#[local] Instance link_error_message : Message LinkError := countable_message LinkError.

Definition sample_conf (retries : Z) : LinkClientConfig :=
  {| addr := "127.0.0.1:9494"; username := "u"; conf_password := "p"; conf_client_name := "c";
     subscribes := [Subscribe_de CmdSubAllType (Some true) None]; backup_config := None;
     healthy_config := HealthyConfig_de (Build_HealthyFields None None None (Some retries) None);
     channel_config := ChannelConfig_default; buffer_config := BufferConfig_default;
     quiche_config := QuicheConfig_default; timeout_config := TimeoutConfig_default |}.

Abbreviation consumer_chan := (bounded Packet).
Abbreviation transport_chan := (unlimited Packet).

Definition consumer_tx : consumer_chan := {| bd_items := []; bd_room := 8; bd_open := true |}.

Definition client0 : client_state nat consumer_chan transport_chan :=
  client_init consumer_tx [] sample_request.

(** The peer's answers: to the authentication request, to a caller. *)
Definition auth_ok : Packet := PResponse (Response_new Auth 1 Success []).
Definition answer (id : Z) : Packet := PResponse (Response_new CmdSubDepth id Success []).

Definition conn_with (idle : nat) (es : list (option (data_event nat))) :
    connection nat transport_chan :=
  {| idle_draws := idle; cid_ok := true; created_at := 0; inner_channel := []; events := es |}.

(** Waiter [7] asks, under id 3 (the subscription has 2), after the authentication; it is answered. *)
Definition good_conn : connection nat transport_chan :=
  conn_with 0 [Some SendAuth; Some (Recv auth_ok 100 0); None; Some DrawId;
    Some (SendPacket (new_request CmdSubDepth 3 []) (Some 7%nat) true);
    Some (Recv (answer 3) 200 0); None; Some (PingTick 300 0)].

(** Waiter [7] asks while there is no connection, under id 1; the connection breaks before
    it is answered. *)
Definition broken_conn : connection nat transport_chan :=
  conn_with 1 [Some SendAuth;
    Some (SendPacket (new_request CmdSubDepth 1 []) (Some 7%nat) true); Some RecvEnd].

(** Nobody asks anything. *)
Definition quiet_conn : connection nat transport_chan :=
  conn_with 0 [Some SendAuth; Some (Recv auth_ok 100 0); None].

Example good_conn_deliveries :
  deliveries (acts (client_link (sample_conf 0) [good_conn] client0).1) =
    [OnConnected; Reply 7%nat (Response_new CmdSubDepth 3 Success [])].
Proof. vm_compute. reflexivity. Qed.

(** The waiter that asked under id 3 is the one answered. *)
Lemma replies_match_registrations_witness :
  let trace := acts (client_link (sample_conf 0) [good_conn] client0).1 in
  waits 3 7%nat (take 6 trace) /\ replies trace ⊆+ registered trace.
Proof.
  intros trace. destruct (replies_match_registrations (sample_conf 0) consumer_tx ([] : transport_chan)
    sample_request [good_conn]) as (Hw & _ & Hr).
  split; [|exact Hr]. apply (Hw (take 6 trace) 7%nat (Response_new CmdSubDepth 3 Success []) (drop 7 trace)).
  vm_compute. reflexivity.
Defined.

Lemma deliveries_in_order_witness :
  let s := (client_link (sample_conf 0) [good_conn] client0).1 in
  exists qs, qs `sublist_of` all_incoming [good_conn] /\ (consumed s <= length qs)%nat /\
    Forall2 delivered_as (take (consumed s) qs) (deliveries (acts s)).
Proof.
  apply (deliveries_in_order (sample_conf 0) consumer_tx [] sample_request [good_conn]).
  reflexivity.
Defined.

Lemma request_ids_distinct_witness :
  exists n, let s' := (link_run (sample_conf 0) (events good_conn) client0).1 in
    drawn (acts s') = drawn (acts client0) ++ successive 1 n /\
    request_id_gen s' = wrap_u32 (1 + Z.of_nat n) /\
    (NoDup (successive 1 n) <-> Z.of_nat n <= u32_bound) /\
    (NoDup (map request_id_trim (successive 1 n)) <-> Z.of_nat n <= u24_bound).
Proof.
  apply (request_ids_distinct (sample_conf 0) (events good_conn) client0).
  cbn. unfold in_u32. concrete.
Defined.

Definition ticked : list (option (data_event nat)) := [Some SendAuth; Some (Recv auth_ok 100 0)].

Lemma survived_tick_is_fresh_witness :
  if authed_after false ticked
  then elapsed 300 (last_recv_after 0 ticked) <= heartbeat_timeout (healthy_config (sample_conf 0))
  else elapsed 300 0 <= auth_timeout (healthy_config (sample_conf 0)).
Proof.
  eapply (survived_tick_is_fresh (sample_conf 0) good_conn sample_request client0 _ ticked 300 7).
  vm_compute. reflexivity.
Defined.

Lemma auth_response_effect_witness :
  let conf := sample_conf 0 in
  let r := Response_new Auth 1 Success [] in
  let ids := successive (request_id_gen client0) (length (subscribes conf)) in
  let '(s', res) := data_step conf (Recv (PResponse r) 100 0) client0 in
  if bool_decide (resp_status r = Success) then
    is_authed s' = true /\ last_pong_at s' = 100 /\
    match send (PResponse r) (packet_process_tx client0) with
    | Some tx => res = Ok tt /\ packet_process_tx s' = tx /\
        accepted (inner_request_tx s') = accepted (inner_request_tx client0) ++
          zip_with sub_packet (subscribes conf) ids
    | None => res = Err (Broke AuthProcessSendFailed) /\
        inner_request_tx s' = inner_request_tx client0
    end
  else s' = set_pong 100 client0 /\
    res = Err (Broke (AuthFailed match decode (resp_body r) with
      | Some e => e | None => {| code := 0; msg := "unknown error" |} end)).
Proof.
  apply (auth_response_effect (sample_conf 0) (Response_new Auth 1 Success []) 100 0 client0);
    [reflexivity|]. cbn. unfold in_u32. concrete.
Defined.

Lemma recv_end_breaks : breaks (PT := consumer_chan) (sample_conf 2) (conn_with 0 [Some RecvEnd]).
Proof. split; [done|]. intros s. by eexists. Qed.

Lemma retry_limit_witness :
  let cs := [conn_with 0 [Some RecvEnd]; conn_with 0 [Some RecvEnd]; conn_with 0 [Some RecvEnd]] in
  let '(s', res) := client_link (sample_conf 2) cs client0 in
  if (0 <? 2) && (2 <=? zlen cs) then
    Z.of_nat (length (connects (acts s'))) = 2 /\
    Z.of_nat (length (error_events (acts s'))) = 2 - 1 /\
    (exists e before, let why := RetriesExceeded e 2 2 in
      res = Ok (Ended why) /\ acts s' = before ++ [OnConnEvent (DisconnectedForever (inr why))])
  else res = Ok Running /\ Z.of_nat (length (connects (acts s'))) = zlen cs /\
    Z.of_nat (length (error_events (acts s'))) = zlen cs.
Proof.
  apply (retry_limit (sample_conf 2) [conn_with 0 [Some RecvEnd]; conn_with 0 [Some RecvEnd];
    conn_with 0 [Some RecvEnd]] client0).
  - repeat (apply List.Forall_cons; [apply recv_end_breaks|]). apply List.Forall_nil.
  - concrete.
  - concrete.
  - split; reflexivity.
Defined.
