(* ===== verification/Server.v ===== *)
(** [link/src/server.rs]: the server. [Server::serve_linker] starts the registry task
    ([mgmt_*]: who is connected, broadcasting to them) and, for each accepted connection, the
    main loop ([main_*]: heartbeats, authentication, forwarding) and the callback loop
    ([callback_*]: the user's handler). The tasks talk by signals: [New] and [Exit] from a
    main loop to the registry, the exit signal back.

    The two channels of a connection kept in the registry are identified with a connection
    number [nat]. What a task does to the outside is recorded in a trace, oldest first. *)

From Stdlib Require Import ZArith Lia Strings.Byte.
From stdpp Require Import base list strings gmap pretty.
From S2P Require Import Prelude Deku Protos Packets Quotation Channel Config.

(** * The API *)

Inductive ServerSignal : Type :=
| CloseClient (name : string)
| Shutdown.

Record Server (TX SX : Type) : Type := mk_server {
  srv_conf : LinkServerConfig;
  send_tx : option TX;
  signal_tx : option SX
}.
Arguments mk_server {TX SX}.
Arguments srv_conf {TX SX}.
Arguments send_tx {TX SX}.
Arguments signal_tx {TX SX}.

Inductive server_error : Type := SrvNotInit | SrvSendFailed.

Section Api.
Context {TX SX : Type} `{!Sender TX Packet} `{!Sender SX ServerSignal}.

Definition Server_new (conf : LinkServerConfig) : Server TX SX := mk_server conf None None.

Definition get_sender (self : Server TX SX) : outcome server_error TX :=
  match send_tx self with Some tx => Ok tx | None => Err SrvNotInit end.

Definition send_packet (packet : Packet) : SM (Server TX SX) server_error unit :=
  tx ← sget send_tx;
  match tx with
  | Some tx =>
      match send packet tx with
      | Some tx => smodify (fun s => mk_server (srv_conf s) (Some tx) (signal_tx s))
      | None => sfail SrvSendFailed
      end
  | None => sfail SrvNotInit
  end.

Definition quotation_packet (raw_data : list byte) (cmd : Command) (mt : MsgType) : Packet :=
  PPush {| push_reserved := 0; push_command := cmd; push_msg_type := mt;
           push_body_len := len_u32 raw_data; push_body := raw_data |}.

Definition send_quotation {A} `{Message A} (quotation : A) (cmd : Command) (mt : MsgType)
    : SM (Server TX SX) server_error unit :=
  let raw_data := encode_to_vec quotation in
  send_packet (quotation_packet raw_data cmd mt).

Definition send_signal (signal : ServerSignal) : SM (Server TX SX) server_error unit :=
  tx ← sget signal_tx;
  match tx with
  | Some tx =>
      match send signal tx with
      | Some tx => smodify (fun s => mk_server (srv_conf s) (send_tx s) (Some tx))
      | None => sfail SrvSendFailed
      end
  | None => sfail SrvNotInit
  end.

(** The set-up of [serve_linker]. *)
Definition serve_linker_init (tx : TX) (sx : SX) (s : Server TX SX) : Server TX SX :=
  mk_server (srv_conf s) (Some tx) (Some sx).

End Api.

(** * The registry task *)

(** The private [ClientSignal]. *)
Inductive client_signal : Type :=
| SigNew (name : string) (conn : nat)
| SigExit (name : string).

Inductive mgmt_event : Type :=
| MgmtSignal (s : ServerSignal)
| MgmtClient (s : client_signal)
| MgmtTick
| MgmtSend (packet : Packet).

Inductive mgmt_action : Type :=
(** the exit signal is sent to a connection (an error of the channel is logged) *)
| CloseConn (conn : nat)
| Gauge (clients : Z)
(** a packet put in a connection's broadcast channel (an error is logged) *)
| Broadcast (conn : nat) (packet : Packet).

Record mgmt : Type := mk_mgmt {
  clients : gmap string nat;
  mgmt_acts : list mgmt_action
}.

Definition mgmt_add (l : list mgmt_action) (s : mgmt) : mgmt :=
  mk_mgmt (clients s) (mgmt_acts s ++ l).

Definition mgmt_map (f : gmap string nat -> gmap string nat) (s : mgmt) : mgmt :=
  mk_mgmt (f (clients s)) (mgmt_acts s).

(** The task ends, with success, on [Shutdown] only. *)
Definition mgmt_step (e : mgmt_event) : SM mgmt unit unit :=
  match e with
  | MgmtSignal (CloseClient client_name) =>
      m ← sget clients;
      smodify (mgmt_map (delete client_name)) ≫= fun _ =>
      match m !! client_name with
      | Some conn => smodify (mgmt_add [CloseConn conn])
      | None => mret tt
      end
  | MgmtSignal Shutdown => sfail tt
  | MgmtClient (SigNew client_name conn) => smodify (mgmt_map (<[client_name := conn]>))
  | MgmtClient (SigExit client_name) => smodify (mgmt_map (delete client_name))
  | MgmtTick => m ← sget clients; smodify (mgmt_add [Gauge (Z.of_nat (size m))])
  | MgmtSend packet =>
      m ← sget clients;
      smodify (mgmt_add (map (fun kv => Broadcast kv.2 packet) (map_to_list m)))
  end.

Definition mgmt_run : list mgmt_event -> SM mgmt unit unit := sfor mgmt_step.

Definition mgmt_init : mgmt := mk_mgmt ∅ [].

(** * The main loop of a connection *)

Inductive main_event : Type :=
| HeartbeatTick (now : Z)
| ExitSignal
| RecvPacket (packet : Packet) (now : Z)
| RecvClosed.

Inductive main_action : Type :=
(** a packet sent to the peer (an error of the channel is logged) *)
| SendPeer (packet : Packet)
(** the user's verdict on an authentication request *)
| OnAuth (request_id : Z) (info : AuthInfo) (ok : bool)
| SendSignal (s : client_signal)
(** a packet handed over to the callback loop by a task of its own, the channel being full *)
| Deferred (packet : Packet)
| OnDisconnect (info : AuthInfo).

Inductive main_error : Type :=
| MainHeartbeatTimeout
| MainAuthTimeout
| MainExitSignal
| MainAuthDecode
| MainRecvClosed.

(** The variables of the loop; [QT] is the channel to the callback loop. *)
Record main_state (QT : Type) : Type := mk_main {
  is_auth_ok : bool;
  main_client_name : string;
  last_ping_at : Z;
  main_auth_info : AuthInfo;
  recved_packet_tx : QT;
  main_acts : list main_action
}.
Arguments mk_main {QT}.
Arguments is_auth_ok {QT}.
Arguments main_client_name {QT}.
Arguments last_ping_at {QT}.
Arguments main_auth_info {QT}.
Arguments recved_packet_tx {QT}.
Arguments main_acts {QT}.

Section Main.
Context {QT : Type} `{TrySender QT Packet} `{!Message AuthRequest}.
(** The configuration, the connection: its number and its address as printed, and the
    user's [on_auth]. *)
Context (conf : HealthyConfig) (conn : nat) (peer_addr : string).
Context (on_auth : Z -> AuthInfo -> bool).

Abbreviation MS := (main_state QT).
Abbreviation MM := (SM MS main_error).

Definition main_add (a : main_action) : MM unit := smodify (fun s =>
  mk_main (is_auth_ok s) (main_client_name s) (last_ping_at s) (main_auth_info s)
    (recved_packet_tx s) (main_acts s ++ [a])).

Definition main_queue (tx : QT) : MM unit := smodify (fun s =>
  mk_main (is_auth_ok s) (main_client_name s) (last_ping_at s) (main_auth_info s) tx
    (main_acts s)).

Definition set_ping (now : Z) : MM unit := smodify (fun s =>
  mk_main (is_auth_ok s) (main_client_name s) now (main_auth_info s) (recved_packet_tx s)
    (main_acts s)).

Definition set_info (name : string) (info : AuthInfo) : MM unit := smodify (fun s =>
  mk_main (is_auth_ok s) name (last_ping_at s) info (recved_packet_tx s) (main_acts s)).

Definition set_auth_ok : MM unit := smodify (fun s =>
  mk_main true (main_client_name s) (last_ping_at s) (main_auth_info s) (recved_packet_tx s)
    (main_acts s)).

(** [format!("{}@{}", name, peer_addr)] *)
Definition full_name (name : string) : string := (name +:+ "@" +:+ peer_addr)%string.

Definition on_heartbeat_tick (now : Z) : MM unit :=
  s ← sget (fun s => s);
  if is_auth_ok s
  then if heartbeat_timeout conf <? elapsed now (last_ping_at s)
       then sfail MainHeartbeatTimeout else mret tt
  else if auth_timeout conf <? elapsed now (last_ping_at s)
       then sfail MainAuthTimeout else mret tt.

(** [recved_packet_tx.send(..).await], an error is logged. *)
Definition forward_wait (packet : Packet) : MM unit :=
  tx ← sget recved_packet_tx;
  match send packet tx with Some tx => main_queue tx | None => mret tt end.

Definition forward (packet : Packet) : MM unit :=
  tx ← sget recved_packet_tx;
  let r := try_send packet tx in
  main_queue r.1 ≫= fun _ =>
  match r.2 with
  | TryFull => main_add (Deferred packet)
  | _ => mret tt
  end.

Definition on_auth_request (request : Request) : MM unit :=
  match decode (req_body request) with
  | None => sfail MainAuthDecode
  | Some auth_req =>
      let auth_info := default AuthInfo_default (auth_info auth_req) in
      let client_name := full_name (client_name auth_info) in
      set_info client_name auth_info ≫= fun _ =>
      let ok := on_auth (req_id request) auth_info in
      main_add (OnAuth (req_id request) auth_info ok) ≫= fun _ =>
      if ok then
        set_auth_ok ≫= fun _ =>
        main_add (SendSignal (SigNew client_name conn)) ≫= fun _ =>
        forward_wait (PRequest request)
      else mret tt
  end.

Definition on_packet (packet : Packet) (now : Z) : MM unit :=
  set_ping now ≫= fun _ =>
  match packet with
  | PRequest request =>
      match req_command request with
      | Heartbeat_ => main_add (SendPeer (new_heartbeat_response request))
      | Auth => on_auth_request request
      | _ => forward packet
      end
  | _ => forward packet
  end.

Definition main_step (e : main_event) : MM unit :=
  match e with
  | HeartbeatTick now => on_heartbeat_tick now
  | ExitSignal => sfail MainExitSignal
  | RecvPacket packet now => on_packet packet now
  | RecvClosed => sfail MainRecvClosed
  end.

Definition main_run : list main_event -> MM unit := sfor main_step.

(** What follows the loop. *)
Definition main_end (s : MS) : MS :=
  let s := if is_auth_ok s
           then (main_add (OnDisconnect (main_auth_info s)) s).1 else s in
  (main_add (SendSignal (SigExit (main_client_name s))) s).1.

(** The task: [None] while the loop runs. *)
Definition client_main (es : list main_event) (s : MS) : MS * option main_error :=
  match main_run es s with
  | (s, Ok _) => (s, None)
  | (s, Err e) => (main_end s, Some e)
  | (s, Panic) => (s, None)
  end.

Definition main_init (now : Z) (tx : QT) : MS :=
  mk_main false (full_name "waitAuth") now AuthInfo_default tx [].

End Main.

(** * The callback loop of a connection *)

Inductive callback_event : Type :=
| CbPacket (packet : Packet)
| CbPacketsClosed
| CbBroadcast (packet : Packet)
| CbLagged
| CbBroadcastClosed.

(** [on_request], [on_response] and [on_push] run in tasks of their own, [on_send] in the
    loop. *)
Inductive callback_action : Type :=
| SpawnOnRequest (r : Request)
| SpawnOnResponse (r : Response)
| SpawnOnPush (p : Push)
| OnSend (packet : Packet)
| SendCount (client_name sample : string).

Inductive callback_error : Type :=
| CbAuthDecode
| CbRecvClosed
| CbSendClosed.

Record callback_state : Type := mk_callback {
  cb_client_name : string;
  cb_acts : list callback_action
}.

Section Callback.
Context `{!Message AuthRequest} (peer_addr : string).

Definition cb_add (l : list callback_action) (s : callback_state) : callback_state :=
  mk_callback (cb_client_name s) (cb_acts s ++ l).

Definition on_callback_packet (packet : Packet) : SM callback_state callback_error unit :=
  match packet with
  | PRequest request =>
      if bool_decide (req_command request = Auth) then
        match decode (req_body request) with
        | None => sfail CbAuthDecode
        | Some auth_request =>
            let name := match auth_info auth_request with
                        | Some info => client_name info
                        | None => "lackAuthInfo"%string
                        end in
            smodify (fun s => mk_callback (full_name peer_addr name) (cb_acts s))
        end
      else smodify (cb_add [SpawnOnRequest request])
  | PResponse response => smodify (cb_add [SpawnOnResponse response])
  | PPush push => smodify (cb_add [SpawnOnPush push])
  end.

Definition callback_step (e : callback_event) : SM callback_state callback_error unit :=
  match e with
  | CbPacket packet => on_callback_packet packet
  | CbPacketsClosed => sfail CbRecvClosed
  | CbBroadcast packet =>
      name ← sget cb_client_name;
      (match packet with
       | PPush push =>
           smodify (cb_add [SendCount name ("on_send_" +:+ MsgType_debug (push_msg_type push))])
       | _ => mret tt
       end) ≫= fun _ =>
      smodify (cb_add [OnSend packet])
  | CbLagged =>
      name ← sget cb_client_name; smodify (cb_add [SendCount name "consume_slowly_on_send"])
  | CbBroadcastClosed => sfail CbSendClosed
  end.

Definition callback_run : list callback_event -> SM callback_state callback_error unit :=
  sfor callback_step.

Definition callback_init : callback_state := mk_callback (full_name peer_addr "waitAuth") [].

End Callback.

(** * The listening loop

    It ends with the listening task or with the registry task, or on ctrl-c; until then each
    accepted connection gets a number and its two loops. The tasks already started are not
    stopped by its end. *)

(** How a task that was waited for ended. *)
Inductive task_end : Type := TaskOk | TaskErr | TaskPanicked.

Inductive serve_event : Type :=
| CtrlC
| ListenTaskEnd (t : task_end)
| MgmtTaskEnd (t : task_end)
| AcceptConn (peer_addr : string).

Inductive serve_end : Type :=
| ServeOk
| ServeListenFailed
| ServeListenPanicked
| ServeMgmtFailed
| ServeMgmtPanicked.

(** The connections started, by number. *)
Definition serve_state : Type := list string.

Section Serve.
Context (conf : LinkServerConfig).

(** The channels of a connection are of no capacity: a panic. *)
Definition conn_channels_ok : bool :=
  negb (signal_chan_size (srv_channel_config conf) =? 0)
  && negb (process_chan_size (srv_channel_config conf) =? 0).

Definition serve_step (e : serve_event) : SM serve_state serve_end unit :=
  match e with
  | CtrlC => sfail ServeOk
  | ListenTaskEnd TaskOk => sfail ServeOk
  | ListenTaskEnd TaskErr => sfail ServeListenFailed
  | ListenTaskEnd TaskPanicked => sfail ServeListenPanicked
  | MgmtTaskEnd TaskOk => sfail ServeOk
  | MgmtTaskEnd TaskErr => sfail ServeMgmtFailed
  | MgmtTaskEnd TaskPanicked => sfail ServeMgmtPanicked
  | AcceptConn peer_addr =>
      if conn_channels_ok then smodify (fun s => s ++ [peer_addr]) else slift Panic
  end.

Definition serve_run : list serve_event -> SM serve_state serve_end unit := sfor serve_step.

End Serve.
