(* ===== verification/ServerFacts.v ===== *)
(** The correctness of the server: whom a broadcast reaches, the life of a connection and
    what it leaves in the registry, its time-outs, what is forwarded to the user, and
    quotations from the server to a client. *)

From Stdlib Require Import ZArith Lia Strings.Byte.
From stdpp Require Import base list strings gmap.
From S2P Require Import Prelude Deku Protos Packets Quotation Wire Channel Config Server.

#[local] Set Warnings "-clear-no-such-hyp".

(** * The registry *)

(** Who is connected under [name], from the last event about that name; [k] before. *)
Fixpoint registered_as (name : string) (k : option nat) (es : list mgmt_event) : option nat :=
  match es with
  | [] => k
  | e :: es =>
      registered_as name
        (match e with
         | MgmtSignal (CloseClient n) | MgmtClient (SigExit n) =>
             if bool_decide (n = name) then None else k
         | MgmtClient (SigNew n conn) => if bool_decide (n = name) then Some conn else k
         | _ => k
         end) es
  end.

Definition is_shutdown (e : mgmt_event) : bool :=
  match e with MgmtSignal Shutdown => true | _ => false end.

Lemma sfor_app {St Er A} (f : A -> SM St Er unit) l k s :
  sfor f (l ++ k) s =
  match sfor f l s with
  | (s, Ok _) => sfor f k s
  | (s, Err e) => (s, Err e)
  | (s, Panic) => (s, Panic)
  end.
Proof.
  revert s. induction l as [|a l IH]; intros s; [done|]. cbn [app sfor].
  unfold mbind, SM_bind. destruct (f a s) as [s1 [[]|e|]]; [apply IH|done..].
Qed.

Lemma mgmt_step_clients e s : is_shutdown e = false ->
  exists s', mgmt_step e s = (s', Ok tt) /\
    (forall name, clients s' !! name = registered_as name (clients s !! name) [e]) /\
    (forall conn p, Broadcast conn p ∈ mgmt_acts s' <-> Broadcast conn p ∈ mgmt_acts s \/
      e = MgmtSend p /\ exists name, clients s !! name = Some conn).
Proof.
  intros He. destruct e as [[n|]|[n c|n]| |p]; try done; cbn [mgmt_step registered_as];
    unfold mbind, SM_bind, sget, smodify.
  - destruct (clients s !! n) as [c|] eqn:E; eexists; (split; [done|split]); cbn.
    + intros name. case_bool_decide as Hn; [subst; apply lookup_delete_eq|by rewrite lookup_delete_ne].
    + intros c' p. rewrite elem_of_app, list_elem_of_singleton. naive_solver.
    + intros name. case_bool_decide as Hn; [subst; apply lookup_delete_eq|by rewrite lookup_delete_ne].
    + naive_solver.
  - eexists; (split; [done|split]); cbn; [|naive_solver].
    intros name. case_bool_decide as Hn; [subst; apply lookup_insert_eq|by rewrite lookup_insert_ne].
  - eexists; (split; [done|split]); cbn; [|naive_solver].
    intros name. case_bool_decide as Hn; [subst; apply lookup_delete_eq|by rewrite lookup_delete_ne].
  - eexists; (split; [done|split]); cbn; [done|].
    intros c p. rewrite elem_of_app, list_elem_of_singleton. naive_solver.
  - eexists; (split; [done|split]); cbn; [done|].
    intros c q. rewrite elem_of_app, list_elem_of_fmap. split.
    + intros [?|([n k] & [= -> ->] & Hk)]; [by left|right]. split; [done|]. exists n.
      by apply elem_of_map_to_list in Hk.
    + intros [?|[[= ->] (n & Hn)]]; [by left|right]. exists (n, c).
      split; [done|]. by apply elem_of_map_to_list.
Qed.

Lemma registered_as_app name k es es' :
  registered_as name k (es ++ es') = registered_as name (registered_as name k es) es'.
Proof. revert k. induction es as [|e es IH]; intros k; [done|]. apply IH. Qed.

Lemma mgmt_run_clients es s : Forall (fun e => is_shutdown e = false) es ->
  exists s', mgmt_run es s = (s', Ok tt) /\
    forall name, clients s' !! name = registered_as name (clients s !! name) es.
Proof.
  intros Hes. revert s. induction Hes as [|e es He Hes IH]; intros s; [by exists s|].
  destruct (mgmt_step_clients e s He) as (s1 & E & Hc & _). destruct (IH s1) as (s2 & E2 & Hc2).
  exists s2. split.
  - unfold mgmt_run. cbn [sfor]. unfold mbind, SM_bind. by rewrite E.
  - intros name. rewrite Hc2, Hc. by rewrite <- (registered_as_app _ _ [e] es).
Qed.

(** The registry follows the signals and a broadcast reaches exactly the registered: after
    any events without a shut-down, a name is registered to the connection of the last
    [New] under it that no [Exit] or [CloseClient] followed; a packet to broadcast is then
    put in the channel of each of these connections, once per name, and of no other; and a
    shut-down ends the task, whatever comes after it. *)
Theorem broadcast_reaches_registered (es rest : list mgmt_event) (p : Packet)
    (Hes : Forall (fun e => is_shutdown e = false) es) :
  exists s s', mgmt_run es mgmt_init = (s, Ok tt) /\
    (forall name, clients s !! name = registered_as name None es) /\
    mgmt_run (es ++ [MgmtSend p]) mgmt_init = (s', Ok tt) /\ clients s' = clients s /\
    (exists conns, mgmt_acts s' = mgmt_acts s ++ map (fun kv => Broadcast kv.2 p) conns /\
      NoDup (map fst conns) /\
      forall name conn, (name, conn) ∈ conns <-> registered_as name None es = Some conn) /\
    mgmt_run (es ++ MgmtSignal Shutdown :: rest) mgmt_init = (s, Err tt).
Proof.
  destruct (mgmt_run_clients es mgmt_init Hes) as (s & E & Hc).
  exists s, (mgmt_add (map (fun kv => Broadcast kv.2 p) (map_to_list (clients s))) s).
  unfold mgmt_run in *. rewrite !sfor_app, E. split_and!; try done.
  exists (map_to_list (clients s)). split_and!; [done|apply NoDup_fst_map_to_list|].
  intros name conn. rewrite elem_of_map_to_list, Hc. done.
Qed.

(** * The life of a connection *)

Section Main.
Context {QT : Type} `{TrySender QT Packet} `{!Message AuthRequest}.
Context (conf : HealthyConfig) (conn : nat) (peer_addr : string).
Context (on_auth : Z -> AuthInfo -> bool).
Abbreviation MS := (main_state QT).
Implicit Types s : MS.

(** The authentication verdicts, the names announced, and the rest, in order. *)
Definition verdicts : list main_action -> list (AuthInfo * bool) :=
  omap (fun a => match a with OnAuth _ info ok => Some (info, ok) | _ => None end).

Definition signals : list main_action -> list client_signal :=
  omap (fun a => match a with SendSignal s => Some s | _ => None end).

Definition disconnects : list main_action -> list AuthInfo :=
  omap (fun a => match a with OnDisconnect info => Some info | _ => None end).

Definition replies_to_peer : list main_action -> list Packet :=
  omap (fun a => match a with SendPeer p => Some p | _ => None end).

Definition deferred : list main_action -> list Packet :=
  omap (fun a => match a with Deferred p => Some p | _ => None end).

Definition accepted_names (l : list (AuthInfo * bool)) : list string :=
  omap (fun v : AuthInfo * bool =>
    if v.2 then Some (full_name peer_addr (client_name v.1)) else None) l.

(** The name and the data of the last request, accepted or not. *)
Definition current (l : list (AuthInfo * bool)) : string * AuthInfo :=
  match last l with
  | Some (info, _) => (full_name peer_addr (client_name info), info)
  | None => (full_name peer_addr "waitAuth", AuthInfo_default)
  end.

(** A connection that goes on. *)
Record living s : Prop := {
  living_auth : is_auth_ok s = existsb snd (verdicts (main_acts s));
  living_current : (main_client_name s, main_auth_info s) = current (verdicts (main_acts s));
  living_signals : signals (main_acts s) =
    map (fun n => SigNew n conn) (accepted_names (verdicts (main_acts s)));
  living_quiet : disconnects (main_acts s) = []
}.

Lemma living_same s s' : living s -> is_auth_ok s' = is_auth_ok s ->
  main_client_name s' = main_client_name s -> main_auth_info s' = main_auth_info s ->
  verdicts (main_acts s') = verdicts (main_acts s) -> signals (main_acts s') = signals (main_acts s) ->
  disconnects (main_acts s') = disconnects (main_acts s) -> living s'.
Proof. intros [] A B C D F G. constructor; rewrite ?A, ?B, ?C, ?D, ?F, ?G; done. Qed.

(** What an authentication request that decodes leaves. *)
Definition auth_state s (request : Request) (info : AuthInfo) : MS :=
  let ok := on_auth (req_id request) info in
  let name := full_name peer_addr (client_name info) in
  mk_main (is_auth_ok s || ok) name (last_ping_at s) info
    (if ok then default (recved_packet_tx s) (send (PRequest request) (recved_packet_tx s))
     else recved_packet_tx s)
    (main_acts s ++ OnAuth (req_id request) info ok ::
      if ok then [SendSignal (SigNew name conn)] else []).

Lemma on_auth_request_eq s request :
  on_auth_request conn peer_addr on_auth request s =
  match decode (req_body request) with
  | Some r => (auth_state s request (default AuthInfo_default (auth_info r)), Ok tt)
  | None => (s, Err MainAuthDecode)
  end.
Proof.
  unfold on_auth_request. destruct (decode (req_body request)) as [r|]; [|done].
  cbn zeta. generalize (default AuthInfo_default (auth_info r)). intros info. unfold auth_state.
  unfold set_info, main_add, set_auth_ok, forward_wait, main_queue, mbind, SM_bind, sget, smodify.
  destruct (on_auth (req_id request) info); cbn.
  - destruct (send (PRequest request) (recved_packet_tx s)); cbn;
      by rewrite orb_true_r, <- app_assoc.
  - by rewrite orb_false_r.
Qed.

Lemma auth_state_living s request info : living s -> living (auth_state s request info).
Proof.
  intros [A B C D]. constructor; unfold auth_state in *; cbn [main_acts is_auth_ok main_client_name
    main_auth_info]; unfold verdicts, signals, disconnects in *; rewrite ?omap_app; cbn.
  - rewrite A, existsb_app. cbn. by destruct (on_auth _ _).
  - unfold current. destruct (on_auth _ _); cbn; by rewrite last_snoc.
  - rewrite C. unfold accepted_names. destruct (on_auth _ _); cbn;
      by rewrite omap_app, map_app.
  - rewrite D. by destruct (on_auth _ _).
Qed.

Lemma forward_living p : forall s, living s -> living (forward p s).1.
Proof.
  intros s Hs. unfold forward, main_queue, main_add, mbind, SM_bind, sget, smodify.
  destruct (try_send p (recved_packet_tx s)) as [tx []]; cbn; try (by eapply living_same).
  eapply living_same; try done; cbn; unfold verdicts, signals, disconnects;
    by rewrite omap_app, app_nil_r.
Qed.

Lemma main_step_living e s : living s -> living (main_step conf conn peer_addr on_auth e s).1.
Proof.
  intros Hs. destruct e as [now| |p now|]; cbn [main_step]; try done.
  - unfold on_heartbeat_tick, mbind, SM_bind, sget. destruct (is_auth_ok s); by destruct (_ <? _).
  - unfold on_packet, set_ping, mbind, SM_bind, smodify.
    set (s1 := mk_main _ _ _ _ _ _). assert (living s1) as H1 by (by eapply living_same).
    destruct p as [r|r|r]; try by apply forward_living.
    destruct (req_command r); try by apply forward_living.
    + rewrite on_auth_request_eq. destruct (decode _); [by apply auth_state_living|done].
    + unfold main_add, smodify. cbn. eapply living_same; try done; cbn;
        unfold verdicts, signals, disconnects; by rewrite omap_app, app_nil_r.
Qed.

Lemma main_run_living es s : living s -> living (main_run conf conn peer_addr on_auth es s).1.
Proof.
  revert s. induction es as [|e es IH]; intros s Hs; [done|]. unfold main_run. cbn [sfor].
  unfold mbind, SM_bind. pose proof (main_step_living e s Hs).
  destruct (main_step conf conn peer_addr on_auth e s) as [s1 [[]|?|]]; cbn [fst] in *; [|done..].
  by apply IH.
Qed.

Lemma main_init_living now tx : living (main_init peer_addr now tx).
Proof. by constructor. Qed.

(** The life of a connection, from accept to end, whatever the peer sends: when its main
    loop ends, it has announced itself to the registry once per accepted authentication, in
    order, under the name of that authentication, and then left it once, under the name of
    the last authentication request, accepted or not; [on_disconnect] is called exactly
    when some authentication was accepted, once, with the data of the last request. While
    the loop runs neither has happened. *)
Theorem main_loop_lifecycle (es : list main_event) (now : Z) (tx : QT) :
  let '(s', ended) :=
    client_main conf conn peer_addr on_auth es (main_init peer_addr now tx) in
  let vs := verdicts (main_acts s') in
  let news := map (fun n => SigNew n conn) (accepted_names vs) in
  match ended with
  | Some _ => signals (main_acts s') = news ++ [SigExit (current vs).1] /\
      disconnects (main_acts s') = if existsb snd vs then [(current vs).2] else []
  | None => signals (main_acts s') = news /\ disconnects (main_acts s') = []
  end.
Proof.
  pose proof (main_run_living es _ (main_init_living now tx)) as Hl. unfold client_main.
  destruct (main_run _ _ _ _ _ _) as [s [[]|e|]]; cbn [fst] in Hl; destruct Hl as [A B C D];
    [done| |done].
  unfold main_end, main_add, smodify. cbn [fst].
  destruct (is_auth_ok s) eqn:Ea; cbn [main_acts main_client_name];
    unfold verdicts, signals, disconnects in *; rewrite !omap_app, ?app_nil_r; cbn;
    rewrite ?app_nil_r, C, D, <- B, <- A; done.
Qed.

End Main.

(** * What a connection leaves in the registry *)

Section Leave.
Context {QT : Type} `{TrySender QT Packet} `{!Message AuthRequest}.
Context (conf : HealthyConfig) (conn : nat) (peer_addr : string).
Context (on_auth : Z -> AuthInfo -> bool).

Lemma registered_as_news name k names :
  registered_as name k (map MgmtClient (map (fun n => SigNew n conn) names)) =
  if bool_decide (name ∈ names) then Some conn else k.
Proof.
  revert k. induction names as [|n names IH]; intros k; [done|]. cbn [map registered_as]. rewrite IH.
  destruct (decide (n = name)) as [->|Hn].
  - rewrite (bool_decide_eq_true_2 (name = name)) by done.
    rewrite (bool_decide_eq_true_2 (name ∈ name :: names)) by (left).
    by destruct (bool_decide _).
  - rewrite (bool_decide_eq_false_2 (n = name)) by done.
    rewrite (bool_decide_ext (name ∈ n :: names) (name ∈ names)); [done|].
    rewrite elem_of_cons. naive_solver.
Qed.

(** C22. What a connection that ended leaves in the registry, exactly: once its signals were
    handled by a registry that did not know it, it is still registered under a name if and
    only if one of its accepted authentications had a name other than that of its last
    authentication request. In particular a connection that only ever used one name leaves
    nothing; one that authenticated again under another name, or tried to, leaves a dead
    entry, which broadcasts keep being sent to. *)
Theorem registry_after_exit (es : list main_event) (now : Z) (tx : QT) (s' : main_state QT)
    (e : main_error) (m : gmap string nat) (acts : list mgmt_action)
    (Hend : client_main conf conn peer_addr on_auth es (main_init peer_addr now tx) = (s', Some e))
    (Hm : forall name, m !! name <> Some conn) :
  exists s, mgmt_run (map MgmtClient (signals (main_acts s'))) (mk_mgmt m acts) = (s, Ok tt) /\
    (forall name, clients s !! name = Some conn <->
      name ∈ accepted_names peer_addr (verdicts (main_acts s')) /\
      name <> (current peer_addr (verdicts (main_acts s'))).1) /\
    (forall name, name ∉ accepted_names peer_addr (verdicts (main_acts s')) ->
      name <> (current peer_addr (verdicts (main_acts s'))).1 -> clients s !! name = m !! name).
Proof.
  assert (signals (main_acts s') = map (fun n => SigNew n conn)
      (accepted_names peer_addr (verdicts (main_acts s'))) ++
      [SigExit (current peer_addr (verdicts (main_acts s'))).1]) as Hsig.
  { pose proof (main_run_living conf conn peer_addr on_auth es _
      (main_init_living conn peer_addr now tx)) as Hl. revert Hend. unfold client_main.
    destruct (main_run _ _ _ _ _ _) as [s [[]|e'|]]; cbn [fst] in Hl; try done.
    destruct Hl as [A B C D]. intros [= <- _]. unfold main_end, main_add, smodify. cbn [fst].
    destruct (is_auth_ok s); cbn [main_acts main_client_name]; unfold verdicts, signals in *;
      rewrite !omap_app, ?app_nil_r; cbn; rewrite ?app_nil_r, C, <- B; done. }
  rewrite Hsig, map_app.
  set (names := accepted_names _ _) in *. set (final := (current _ _).1) in *.
  destruct (mgmt_run_clients (map MgmtClient (map (fun n => SigNew n conn) names) ++
    map MgmtClient [SigExit final]) (mk_mgmt m acts)) as (s & E & Hc).
  { apply Forall_app. split; [|by constructor]. rewrite !Forall_map. apply Forall_true. done. }
  exists s. split; [exact E|]. cbn [clients] in Hc.
  assert (forall name, clients s !! name =
    if bool_decide (final = name) then None
    else if bool_decide (name ∈ names) then Some conn else m !! name) as Hl.
  { intros name. by rewrite Hc, registered_as_app, registered_as_news. }
  split; intros name; rewrite Hl.
  - destruct (bool_decide_reflect (final = name)) as [->|]; [naive_solver|].
    destruct (bool_decide_reflect (name ∈ names)); [naive_solver|]. split; [by intros ?%Hm|naive_solver].
  - intros Hn Hf. rewrite bool_decide_eq_false_2 by done. by rewrite bool_decide_eq_false_2.
Qed.

(** * Time-outs and forwarding *)

Definition last_packet_at (t : Z) (es : list main_event) : Z :=
  foldl (fun t e => match e with RecvPacket _ now => now | _ => t end) t es.

Definition peer_packets (es : list main_event) : list Packet :=
  omap (fun e => match e with RecvPacket p _ => Some p | _ => None end) es.

(** The authentication requests accepted, and the packets meant for the user's handler. *)
Definition accepted_auth (p : Packet) : bool :=
  match p with
  | PRequest r =>
      bool_decide (req_command r = Auth) &&
      match decode (req_body r) with
      | Some a => on_auth (req_id r) (default AuthInfo_default (auth_info a))
      | None => false
      end
  | _ => false
  end.

Definition for_handler (p : Packet) : bool :=
  match p with
  | PRequest r =>
      if bool_decide (req_command r = Auth) then accepted_auth p
      else negb (bool_decide (req_command r = Heartbeat_))
  | _ => true
  end.

Definition heartbeat_reply (p : Packet) : option Packet :=
  match p with
  | PRequest r => if bool_decide (req_command r = Heartbeat_)
                  then Some (new_heartbeat_response r) else None
  | _ => None
  end.

(** What the packets [ps] of the peer do to a connection that goes on. *)
Record forwarded (ps : list Packet) (s s' : main_state QT) : Prop := {
  forwarded_auth : is_auth_ok s' = is_auth_ok s || existsb accepted_auth ps;
  forwarded_queue : exists q d,
    accepted (recved_packet_tx s') = accepted (recved_packet_tx s) ++ q /\
    deferred (main_acts s') = deferred (main_acts s) ++ d /\ q ++ d ≡ₚ filter for_handler ps;
  forwarded_replies : replies_to_peer (main_acts s') =
    replies_to_peer (main_acts s) ++ omap heartbeat_reply ps
}.

Lemma forwarded_trans ps ps' s s' s'' : forwarded ps s s' -> forwarded ps' s' s'' ->
  forwarded (ps ++ ps') s s''.
Proof.
  intros [A (q & d & Q & D & F) B] [A' (q' & d' & Q' & D' & F') B']. constructor.
  - by rewrite A', A, existsb_app, orb_assoc.
  - exists (q ++ q'), (d ++ d'). rewrite Q', Q, D', D, !app_assoc, filter_app, <- F, <- F'.
    split_and!; try done. solve_Permutation.
  - by rewrite B', B, omap_app, app_assoc.
Qed.

Lemma forwarded_refl s t : forwarded [] s (mk_main (is_auth_ok s) (main_client_name s) t
  (main_auth_info s) (recved_packet_tx s) (main_acts s)).
Proof.
  constructor; cbn; rewrite ?orb_false_r, ?app_nil_r; try done.
  exists [], []. by rewrite !app_nil_r.
Qed.

Context `{!SenderLaws QT Packet, !TrySenderLaws QT Packet, !OpenSender QT Packet}.

Lemma forward_forwarded p s : accepted_auth p = false -> for_handler p = true ->
  heartbeat_reply p = None -> exists s', forward p s = (s', Ok tt) /\ forwarded [p] s s' /\
    last_ping_at s' = last_ping_at s.
Proof.
  intros Ha Hf Hh. unfold forward, main_queue, main_add, mbind, SM_bind, sget, smodify.
  pose proof (open_try_send p (recved_packet_tx s)) as Ho.
  destruct (try_send p (recved_packet_tx s)) as [tx r] eqn:E. cbn [fst snd] in *.
  destruct r; [| |done]; (eexists; split; [done|]; split; [|done]); constructor; cbn -[filter];
    rewrite ?Ha, ?Hh, ?orb_false_r, ?app_nil_r; try done.
  - apply try_send_sent in E. exists [p], []. rewrite app_nil_r. split_and!; [done|done|].
    rewrite filter_cons_True by (by rewrite Hf). by rewrite filter_nil.
  - apply try_send_other in E; [|done]. exists [], [p]. rewrite app_nil_r.
    unfold deferred. rewrite omap_app. split_and!; [done|done|].
    rewrite filter_cons_True by (by rewrite Hf). by rewrite filter_nil.
  - unfold replies_to_peer. by rewrite omap_app, app_nil_r.
Qed.

Lemma main_step_forwarded e s s' : main_step conf conn peer_addr on_auth e s = (s', Ok tt) ->
  forwarded (peer_packets [e]) s s' /\ last_ping_at s' = last_packet_at (last_ping_at s) [e].
Proof.
  destruct e as [now| |p now|]; cbn [main_step]; try done.
  - unfold on_heartbeat_tick, mbind, SM_bind, sget.
    pose proof (forwarded_refl s (last_ping_at s)) as Hr. replace (mk_main _ _ _ _ _ _) with s in Hr
      by (by destruct s).
    destruct (is_auth_ok s), (_ <? _); intros [= <-]; done.
  - unfold on_packet, set_ping, mbind, SM_bind, smodify. cbn [peer_packets omap list_omap last_packet_at foldl].
    pose proof (forwarded_refl s now) as Hr. set (s1 := mk_main _ _ _ _ _ _) in *.
    assert (accepted_auth p = false -> for_handler p = true -> heartbeat_reply p = None ->
      forward p s1 = (s', Ok tt) -> forwarded [p] s s' /\ last_ping_at s' = now) as Hf.
    { intros Ha Hf Hh E. destruct (forward_forwarded p s1 Ha Hf Hh) as (s2 & E2 & F & L).
      rewrite E in E2. injection E2 as <-. split; [|done]. exact (forwarded_trans _ _ _ _ _ Hr F). }
    destruct p as [r|r|r]; try by apply Hf.
    destruct (req_command r) eqn:Hc;
      try (apply Hf; unfold accepted_auth, for_handler, heartbeat_reply; by rewrite Hc).
    + rewrite on_auth_request_eq. destruct (decode (req_body r)) as [a|] eqn:Ed; [|done].
      intros [= <-]. split; [|done].
      assert (accepted_auth (PRequest r) = on_auth (req_id r) (default AuthInfo_default (auth_info a)))
        as Ha by (unfold accepted_auth; by rewrite Hc, Ed).
      assert (for_handler (PRequest r) = accepted_auth (PRequest r)) as Hh
        by (unfold for_handler; by rewrite Hc).
      constructor; cbn -[accepted_auth filter].
      * by rewrite Ha, orb_false_r.
      * destruct (open_send (PRequest r) (recved_packet_tx s)) as [tx Et]. rewrite Et.
        rewrite Ha in Hh. destruct (on_auth _ _); unfold deferred; rewrite omap_app; cbn -[filter];
          [exists [PRequest r], []|exists [], []]; rewrite ?app_nil_r; split_and!; try done.
        -- by apply send_accepted.
        -- rewrite filter_cons_True by (by rewrite Hh). by rewrite filter_nil.
        -- rewrite filter_cons_False by (rewrite Hh; by intros []). by rewrite filter_nil.
      * unfold replies_to_peer. rewrite omap_app. destruct (on_auth _ _); cbn;
          by rewrite Hc.
    + unfold main_add, smodify. intros [= <-]. split; [|done].
      constructor; cbn -[filter]; unfold accepted_auth, heartbeat_reply, deferred, replies_to_peer;
        rewrite ?omap_app, ?Hc; cbn -[filter]; rewrite ?orb_false_r; try done.
      exists [], []. rewrite !app_nil_r. split_and!; try done.
      rewrite filter_cons_False; [by rewrite filter_nil|]. unfold for_handler. rewrite Hc. by intros [].
Qed.

Lemma main_run_forwarded es s s' : main_run conf conn peer_addr on_auth es s = (s', Ok tt) ->
  forwarded (peer_packets es) s s' /\ last_ping_at s' = last_packet_at (last_ping_at s) es.
Proof.
  revert s. induction es as [|e es IH]; intros s.
  { intros [= <-]. pose proof (forwarded_refl s (last_ping_at s)) as Hr.
    split; [|done]. by destruct s. }
  unfold main_run. cbn [sfor]. unfold mbind, SM_bind.
  destruct (main_step conf conn peer_addr on_auth e s) as [s1 [[]|?|]] eqn:E; [|done..].
  intros E2. apply main_step_forwarded in E as [F L]. apply IH in E2 as [F2 L2].
  change (peer_packets (e :: es)) with (omap (fun e => match e with RecvPacket p _ => Some p
    | _ => None end) ([e] ++ es)). rewrite omap_app. split; [by eapply forwarded_trans|].
  by rewrite L2, L.
Qed.

(** What the main loop does with the peer's packets, while it runs and the callback loop
    lives: every heartbeat is answered, in order, with its id and body; every other packet
    goes to the user's handler, exactly once, through the channel or, when it is full, by a
    task of its own, except the authentication requests the handler refused. Whether the
    peer is authenticated makes no difference to either. *)
Theorem main_loop_forwards (es : list main_event) (now : Z) (tx : QT) (s : main_state QT)
    (Hrun : main_run conf conn peer_addr on_auth es (main_init peer_addr now tx) = (s, Ok tt)) :
  replies_to_peer (main_acts s) = omap heartbeat_reply (peer_packets es) /\
  exists q, accepted (recved_packet_tx s) = accepted tx ++ q /\
    q ++ deferred (main_acts s) ≡ₚ filter for_handler (peer_packets es).
Proof.
  apply main_run_forwarded in Hrun as [[_ (q & d & Q & D & F) B] _]. cbn in D, B.
  split; [done|]. exists q. by rewrite D.
Qed.

(** When a connection is given up: at a tick, the loop goes on if and only if the peer's
    last packet, of any kind, is recent enough: within the heartbeat time-out once an
    authentication was accepted, within the authentication time-out before. A peer that
    never authenticates but keeps sending is never given up. *)
Theorem heartbeat_tick_verdict (es : list main_event) (now t : Z) (tx : QT) (s : main_state QT)
    (Hrun : main_run conf conn peer_addr on_auth es (main_init peer_addr now tx) = (s, Ok tt)) :
  (main_step conf conn peer_addr on_auth (HeartbeatTick t) s).2 = Ok tt <->
  elapsed t (last_packet_at now es) <=
    if existsb accepted_auth (peer_packets es) then heartbeat_timeout conf else auth_timeout conf.
Proof.
  apply main_run_forwarded in Hrun as [[A _ _] L]. cbn in A, L. rewrite <- A, <- L.
  cbn [main_step]. unfold on_heartbeat_tick, mbind, SM_bind, sget.
  destruct (is_auth_ok s); zcase; cbn; split; done || lia.
Qed.

End Leave.

(** * Quotations, from the server to a client *)

Section Quotations.
Context `{DekuLaws}.
Context {TX SX : Type} `{!Sender TX Packet, !SenderLaws TX Packet} `{!Sender SX ServerSignal}.
Context {TradePrice Snapshot Depths Brokers Kline OrderBookV2 : Type}.
Context `{!Message TradePrice, !Message Snapshot, !Message Depths, !Message Brokers,
  !Message Kline, !Message OrderBookV2}.
Abbreviation Quote := (Quotation TradePrice Snapshot Depths Brokers Kline OrderBookV2).

(** C23. A quotation arrives as it was sent: what [send_quotation] hands over on a started
    server, for a payload message [a] and the type of the quotation [wrap a], is one push
    packet; if the payload is shorter than 2^24 bytes the packet can be put on the wire and
    read back from any stream that starts with it, and its payload parses to the quotation. *)
Theorem quotation_arrives
    (L1 : MessageLaws TradePrice) (L2 : MessageLaws Snapshot) (L3 : MessageLaws Depths)
    (L4 : MessageLaws Brokers) (L5 : MessageLaws Kline) (L6 : MessageLaws OrderBookV2)
    {A : Type} (MA : Message A) (a : A) (wrap : A -> Quote) (cmd : Command)
    (srv srv' : Server TX SX) (tx : TX)
    (Hwrap : quotation_encode_to_vec (wrap a) = encode_to_vec a)
    (Htx : send_tx srv = Some tx)
    (Hsend : send_quotation a cmd (msg_type (wrap a)) srv = (srv', Ok tt))
    (Hlen : zlen (encode_to_vec a) < u24_bound) :
  exists tx' push data, send_tx srv' = Some tx' /\ accepted tx' = accepted tx ++ [PPush push] /\
    to_bytes (PPush push) = Ok data /\
    (forall rest, from_bytes (from_reader (A:=Packet)) (data ++ rest, 0) =
      Ok ((rest, 0), PPush push)) /\
    parse_quotation (push_msg_type push) (push_body push) = Some (wrap a).
Proof.
  unfold send_quotation, send_packet, quotation_packet, mbind, SM_bind, sget, smodify in Hsend.
  rewrite Htx in Hsend. pose proof (zlen_nonneg (encode_to_vec a)).
  destruct (send _ tx) as [tx'|] eqn:E; [|done]. injection Hsend as <-.
  apply send_accepted in E. eexists tx', _, _. split; [done|]. split; [exact E|].
  set (p := PPush _) in *.
  assert (wire_ok p) as Hp.
  { unfold wire_ok, header_ok. cbn. unfold len_u32, wrap_u32, u32_bound, u24_bound in *.
    rewrite Z.mod_small by lia. lia. }
  split_and!; [apply to_bytes_wire, Hp| |].
  - intros rest. by apply packet_from_bytes_wire.
  - cbn. rewrite <- Hwrap. destruct (wrap a); cbn; by rewrite decode_encode.
Qed.

End Quotations.

(** * Concrete runs *)

#[local] Instance srv_auth_message : Message AuthRequest := countable_message AuthRequest.

Definition auth_as (name : string) (id : Z) : Packet :=
  PRequest {| req_reserved := 0; req_command := Auth; req_id := id; req_timeout := 5;
    req_body_len := len_u32 (encode_to_vec {| auth_info := Some (Build_AuthInfo "u" "p" name) |});
    req_body := encode_to_vec {| auth_info := Some (Build_AuthInfo "u" "p" name) |} |}.

(** The user's handler accepts everyone but ["eve"]. *)
Definition handler (id : Z) (info : AuthInfo) : bool := negb (bool_decide (client_name info = "eve"%string)).

Definition subscribe_all (id : Z) : Packet := new_request CmdSubAllType id [].

Definition two_names : list main_event :=
  [RecvPacket (auth_as "a" 1) 10; RecvPacket sample_request 20; RecvPacket (auth_as "b" 3) 30;
   RecvPacket (subscribe_all 4) 40; HeartbeatTick 50; RecvClosed].

Definition strangers : list main_event :=
  [RecvPacket (auth_as "eve" 1) 10; RecvPacket (subscribe_all 2) 20; RecvPacket (auth_as "a" 3) 30].

Abbreviation run_main es := (client_main HealthyConfig_default 7 "1.2.3.4:5" handler es
  (main_init "1.2.3.4:5" 0 (([], 1%nat) : counted Packet))).

(** A refused peer is not closed, and its requests reach the handler. *)
Example refused_peer_is_served :
  let '(s, ended) := run_main strangers in
  ended = None /\ verdicts (main_acts s) =
    [(Build_AuthInfo "u" "p" "eve", false); (Build_AuthInfo "u" "p" "a", true)] /\
  accepted (recved_packet_tx s) = [subscribe_all 2; auth_as "a" 3].
Proof. vm_compute. done. Qed.

Lemma broadcast_reaches_registered_witness :
  let es := [MgmtClient (SigNew "a" 1); MgmtClient (SigNew "b" 2); MgmtClient (SigExit "a");
    MgmtTick] in
  exists s s', mgmt_run es mgmt_init = (s, Ok tt) /\
    (forall name, clients s !! name = registered_as name None es) /\
    mgmt_run (es ++ [MgmtSend sample_request]) mgmt_init = (s', Ok tt) /\
    clients s' = clients s /\
    (exists conns, mgmt_acts s' = mgmt_acts s ++ map (fun kv => Broadcast kv.2 sample_request) conns /\
      NoDup (map fst conns) /\
      forall name conn, (name, conn) ∈ conns <-> registered_as name None es = Some conn) /\
    mgmt_run (es ++ MgmtSignal Shutdown :: [MgmtTick]) mgmt_init = (s, Err tt).
Proof.
  apply (broadcast_reaches_registered [MgmtClient (SigNew "a" 1); MgmtClient (SigNew "b" 2);
    MgmtClient (SigExit "a"); MgmtTick] [MgmtTick] sample_request).
  repeat (apply List.Forall_cons; [reflexivity|]). apply List.Forall_nil.
Defined.

(** A connection that used two names: dead under the first, gone under the second. *)
Lemma registry_after_exit_witness :
  let s' := (run_main two_names).1 in
  exists s, mgmt_run (map MgmtClient (signals (main_acts s'))) mgmt_init = (s, Ok tt) /\
    (forall name, clients s !! name = Some 7%nat <->
      name ∈ accepted_names "1.2.3.4:5" (verdicts (main_acts s')) /\
      name <> (current "1.2.3.4:5" (verdicts (main_acts s'))).1) /\
    (forall name, name ∉ accepted_names "1.2.3.4:5" (verdicts (main_acts s')) ->
      name <> (current "1.2.3.4:5" (verdicts (main_acts s'))).1 ->
      clients s !! name = clients mgmt_init !! name).
Proof.
  apply (registry_after_exit HealthyConfig_default 7 "1.2.3.4:5" handler two_names 0
    (([], 1%nat) : counted Packet) (run_main two_names).1 MainRecvClosed ∅ []).
  - vm_compute. reflexivity.
  - intros name. rewrite lookup_empty. discriminate.
Defined.

Example two_names_leave_one :
  accepted_names "1.2.3.4:5" (verdicts (main_acts (run_main two_names).1)) =
    ["a@1.2.3.4:5"; "b@1.2.3.4:5"] /\
  (current "1.2.3.4:5" (verdicts (main_acts (run_main two_names).1))).1 = "b@1.2.3.4:5".
Proof. vm_compute. done. Qed.

Definition main_run0 (es : list main_event) :=
  main_run HealthyConfig_default 7 "1.2.3.4:5" handler es
    (main_init "1.2.3.4:5" 0 (([], 1%nat) : counted Packet)).

Lemma main_loop_forwards_witness :
  let s := (main_run0 strangers).1 in
  replies_to_peer (main_acts s) = omap heartbeat_reply (peer_packets strangers) /\
  exists q, accepted (recved_packet_tx s) = accepted (([], 1%nat) : counted Packet) ++ q /\
    q ++ deferred (main_acts s) ≡ₚ filter (for_handler handler) (peer_packets strangers).
Proof.
  apply (main_loop_forwards HealthyConfig_default 7 "1.2.3.4:5" handler strangers 0
    (([], 1%nat) : counted Packet)). vm_compute. reflexivity.
Defined.

Lemma heartbeat_tick_verdict_witness :
  let s := (main_run0 strangers).1 in
  (main_step HealthyConfig_default 7 "1.2.3.4:5" handler (HeartbeatTick 99) s).2 = Ok tt <->
  elapsed 99 (last_packet_at 0 strangers) <=
    if existsb (accepted_auth handler) (peer_packets strangers)
    then heartbeat_timeout HealthyConfig_default else auth_timeout HealthyConfig_default.
Proof.
  apply (heartbeat_tick_verdict HealthyConfig_default 7 "1.2.3.4:5" handler strangers 0 99
    (([], 1%nat) : counted Packet)). vm_compute. reflexivity.
Defined.

Definition srv0 : Server (unlimited Packet) (unlimited ServerSignal) :=
  serve_linker_init [] [] (Server_new {| listen_addr := "0.0.0.0:9494";
    srv_healthy_config := HealthyConfig_default; srv_channel_config := ChannelConfig_default;
    srv_buffer_config := BufferConfig_default; srv_quiche_config := QuicheConfig_default;
    srv_timeout_config := TimeoutConfig_default |}).

Lemma quotation_arrives_witness :
  let M := byte_message in
  let q := @QDepth byte byte byte byte byte byte x2a in
  exists tx' push data,
    send_tx (send_quotation (H := M) x2a CmdSubDepth MtDepths srv0).1 = Some tx' /\
    accepted tx' = accepted ([] : unlimited Packet) ++ [PPush push] /\
    to_bytes (PPush push) = Ok data /\
    (forall rest, from_bytes (from_reader (A:=Packet)) (data ++ rest, 0) =
      Ok ((rest, 0), PPush push)) /\
    @parse_quotation byte byte byte byte byte byte M M M M M M (push_msg_type push)
      (push_body push) = Some q.
Proof.
  apply (@quotation_arrives _ _ (unlimited Packet) (unlimited ServerSignal) _ _
    byte byte byte byte byte byte byte_message byte_message byte_message byte_message
    byte_message byte_message byte_message_laws byte_message_laws byte_message_laws
    byte_message_laws byte_message_laws byte_message_laws byte byte_message x2a
    QDepth CmdSubDepth srv0 _ []); [reflexivity..|concrete].
Defined.

(** * The listening loop *)

(** Every connection accepted before the first end of a task is started, in order; that end
    ends the loop, and what came after it is not looked at. *)
Lemma serve_run_spec (conf : LinkServerConfig) (ps : list string) (e : serve_event)
    (es : list serve_event) (s : serve_state) :
  conn_channels_ok conf = true ->
  serve_run conf (map AcceptConn ps) s = (s ++ ps, Ok tt) /\
  match e with
  | AcceptConn _ => True
  | _ => exists r, serve_run conf (map AcceptConn ps ++ e :: es) s = (s ++ ps, Err r) /\
      (r = ServeOk <-> e = CtrlC \/ e = ListenTaskEnd TaskOk \/ e = MgmtTaskEnd TaskOk)
  end.
Proof.
  intros Hc. unfold serve_run. revert s. induction ps as [|p ps IH]; intros s.
  - rewrite app_nil_r. split; [done|].
    destruct e as [|[]|[]|]; try done; eexists; (split; [reflexivity|]); naive_solver.
  - cbn [map app sfor]. unfold mbind, SM_bind. cbn [serve_step]. rewrite Hc. cbn [smodify].
    specialize (IH (s ++ [p])). by rewrite <- app_assoc in IH.
Qed.
