(* ===== verification/Hub.v ===== *)
(** The server as a whole ([serve_linker] of [link/src/server.rs]): the listening loop, the
    main loops of the connections it accepted and the registry task, running together. The
    main loops send their signals through one channel to the registry, which sends exit
    signals back.

    [hub_step] interleaves the tasks: an event is one turn of one of them. An event that
    its task cannot take (the loop ended, nothing waits in the channel) does nothing. *)

From Stdlib Require Import ZArith Lia Strings.Byte.
From stdpp Require Import base list strings gmap.
From S2P Require Import Prelude Deku Protos Packets Channel Config Server.

Inductive hub_event (QT : Type) : Type :=
(** a connection is accepted: its address, the time, its channel to its callback loop *)
| HubAccept (peer_addr : string) (now : Z) (tx : QT)
(** a turn of the main loop of a connection *)
| HubMain (conn : nat) (e : main_event)
(** the registry takes the next signal of the connections *)
| HubClient
(** the registry takes a signal of the user, its ticker, a packet to broadcast *)
| HubServer (s : ServerSignal)
| HubTick
| HubPublish (packet : Packet).
Arguments HubAccept {QT}.
Arguments HubMain {QT}.
Arguments HubClient {QT}.
Arguments HubServer {QT}.
Arguments HubTick {QT}.
Arguments HubPublish {QT}.

(** The connections accepted, by number; the main loops that run; the signals waiting for the
    registry, oldest first; the registry; the exit signals waiting for their connection. *)
Record hub (QT : Type) : Type := mk_hub {
  h_peers : list string;
  h_loops : gmap nat (main_state QT);
  h_signals : list client_signal;
  h_mgmt : mgmt;
  h_exits : list nat
}.
Arguments mk_hub {QT}.
Arguments h_peers {QT}.
Arguments h_loops {QT}.
Arguments h_signals {QT}.
Arguments h_mgmt {QT}.
Arguments h_exits {QT}.

(** What a task did since its trace was [n] long. *)
Definition new_signals (n : nat) (acts : list main_action) : list client_signal :=
  omap (fun a => match a with SendSignal s => Some s | _ => None end) (drop n acts).

Definition new_closes (n : nat) (acts : list mgmt_action) : list nat :=
  omap (fun a => match a with CloseConn c => Some c | _ => None end) (drop n acts).

Section Hub.
Context {QT : Type} `{TrySender QT Packet} `{!Message AuthRequest}.
(** The configuration, and the user's [on_auth], by connection: each has a handler of its own. *)
Context (conf : LinkServerConfig) (on_auth : nat -> Z -> AuthInfo -> bool).

Abbreviation HM := (SM (hub QT) unit unit).

Definition hub_peer (conn : nat) (h : hub QT) : string := default EmptyString (h_peers h !! conn).

Definition hub_accept (peer_addr : string) (now : Z) (tx : QT) (h : hub QT)
    : hub QT * outcome unit unit :=
  match serve_step conf (AcceptConn peer_addr) (h_peers h) with
  | (peers, Ok _) =>
      (mk_hub peers (<[length (h_peers h) := main_init peer_addr now tx]> (h_loops h))
         (h_signals h) (h_mgmt h) (h_exits h), Ok tt)
  | (_, Err _) => (h, Err tt)
  | (_, Panic) => (h, Panic)
  end.

(** The exit signal is there only if the registry sent it; taking it ends the loop. *)
Definition can_take (conn : nat) (e : main_event) (h : hub QT) : bool :=
  match e with ExitSignal => bool_decide (conn ∈ h_exits h) | _ => true end.

Definition hub_main (conn : nat) (e : main_event) (h : hub QT) : hub QT * outcome unit unit :=
  match h_loops h !! conn with
  | Some s =>
      if can_take conn e h then
        let n := length (main_acts s) in
        match client_main (srv_healthy_config conf) conn (hub_peer conn h) (on_auth conn) [e] s with
        | (s, None) =>
            (mk_hub (h_peers h) (<[conn := s]> (h_loops h))
               (h_signals h ++ new_signals n (main_acts s)) (h_mgmt h) (h_exits h), Ok tt)
        | (s, Some _) =>
            (mk_hub (h_peers h) (delete conn (h_loops h))
               (h_signals h ++ new_signals n (main_acts s)) (h_mgmt h) (h_exits h), Ok tt)
        end
      else (h, Ok tt)
  | None => (h, Ok tt)
  end.

Definition hub_mgmt (e : mgmt_event) : HM := fun h =>
  let n := length (mgmt_acts (h_mgmt h)) in
  let r := mgmt_step e (h_mgmt h) in
  (mk_hub (h_peers h) (h_loops h) (h_signals h) r.1 (h_exits h ++ new_closes n (mgmt_acts r.1)),
   r.2).

Definition hub_step (e : hub_event QT) : HM :=
  match e with
  | HubAccept peer_addr now tx => hub_accept peer_addr now tx
  | HubMain conn e => hub_main conn e
  | HubClient => fun h =>
      match h_signals h with
      | s :: signals =>
          hub_mgmt (MgmtClient s)
            (mk_hub (h_peers h) (h_loops h) signals (h_mgmt h) (h_exits h))
      | [] => (h, Ok tt)
      end
  | HubServer s => hub_mgmt (MgmtSignal s)
  | HubTick => hub_mgmt MgmtTick
  | HubPublish packet => hub_mgmt (MgmtSend packet)
  end.

Definition hub_run : list (hub_event QT) -> HM := sfor hub_step.

Definition hub_init : hub QT := mk_hub [] ∅ [] mgmt_init [].

Definition went_on (o : outcome unit unit) : bool := match o with Ok _ => true | _ => false end.

(** The events of a run that were handled: those before the one that stopped it, if any. *)
Fixpoint hub_handled (es : list (hub_event QT)) (h : hub QT) : list (hub_event QT) :=
  match es with
  | [] => []
  | e :: es =>
      let r := hub_step e h in
      if went_on r.2 then e :: hub_handled es r.1 else []
  end.

(** The packets the user published, in order. *)
Definition published : list (hub_event QT) -> list Packet :=
  omap (fun e => match e with HubPublish packet => Some packet | _ => None end).

End Hub.

(** * The abstract server

    Connections come under a name, unique among those present; one that is over, because it
    ended or its user closed it, may leave, and no other; a packet that is published is handed
    to exactly those present. A step is labelled with what it publishes. *)

Record presence : Type := mk_presence {
  members : gmap nat string;
  over : gset nat;
  inboxes : nat -> list Packet
}.

Inductive presence_step : presence -> list Packet -> presence -> Prop :=
| presence_join P conn name :
    members P !! conn = None -> (forall c, members P !! c <> Some name) ->
    presence_step P [] (mk_presence (<[conn := name]> (members P)) (over P) (inboxes P))
| presence_over P conn :
    presence_step P [] (mk_presence (members P) ({[conn]} ∪ over P) (inboxes P))
| presence_leave P conn name : members P !! conn = Some name -> conn ∈ over P ->
    presence_step P [] (mk_presence (delete conn (members P)) (over P) (inboxes P))
| presence_publish P inboxes' p :
    (forall c, inboxes' c = inboxes P c ++ if decide (is_Some (members P !! c)) then [p] else []) ->
    presence_step P [p] (mk_presence (members P) (over P) inboxes').

(** Runs, labelled with all they publish, in order. *)
Inductive presence_run : presence -> list Packet -> presence -> Prop :=
| presence_refl P : presence_run P [] P
| presence_snoc P ps P' ps' P'' :
    presence_run P ps P' -> presence_step P' ps' P'' -> presence_run P (ps ++ ps') P''.

Definition presence_init : presence := mk_presence ∅ ∅ (fun _ => []).
