(* ===== verification/HubFacts.v ===== *)
(** The server as a whole implements the abstract server: its registry is a directory of the
    connections present, only connections that are over leave it, and broadcasts are put in the
    channels of exactly those present; once its signals are handled the registry holds exactly
    the authenticated connections that run and that the user did not close. Both need that no
    two connections ever shared an address and that each used one name; the last theorem is
    what happens otherwise. *)

From Stdlib Require Import ZArith Lia Strings.Byte Strings.Ascii.
From stdpp Require Import base list strings gmap relations.
From S2P Require Import Prelude Deku Protos Packets Wire Channel Config Server ServerFacts Hub.

#[local] Set Warnings "-clear-no-such-hyp".

(** * Names

    A printed socket address has no ["@"], so a full name determines both its parts. *)

Fixpoint plain (s : string) : bool :=
  match s with
  | EmptyString => true
  | String a s => negb (bool_decide (a = "@"%char)) && plain s
  end.

Lemma append_cons a (m k : string) : String a m +:+ k = String a (m +:+ k).
Proof. reflexivity. Qed.

Lemma plain_no_at (m b : string) : plain (m +:+ String "@" b) = false.
Proof.
  induction m as [|a m IH].
  - change (plain (String "@" b) = false). cbn. done.
  - rewrite append_cons. cbn [plain]. rewrite IH. apply andb_false_r.
Qed.

Lemma full_name_inj a b n m : plain a = true -> plain b = true ->
  full_name a n = full_name b m -> n = m /\ a = b.
Proof.
  unfold full_name. change ("@" +:+ a) with (String "@" a). change ("@" +:+ b) with (String "@" b).
  intros Ha Hb. revert m.
  induction n as [|x n IH]; intros [|y m]; rewrite ?append_cons; intros E.
  - by injection E as ->.
  - injection E as _ ->. by rewrite plain_no_at in Ha.
  - injection E as _ <-. by rewrite plain_no_at in Hb.
  - injection E as -> E. destruct (IH m E) as [-> ->]. done.
Qed.

(** * What the registry holds after some signals *)

Abbreviation sigs l := (map MgmtClient l).

Lemma registered_as_from name k es c : registered_as name k es = Some c ->
  k = Some c \/ MgmtClient (SigNew name c) ∈ es.
Proof.
  revert k. induction es as [|e es IH]; cbn [registered_as]; intros k Hr; [by left|].
  apply IH in Hr as [Hk|Hin]; [|right; by right].
  destruct e as [[n|]|[n c'|n]| |]; try (by left); case_bool_decide as Hn; simplify_eq;
    try (by left). right. left.
Qed.

(** The last event about a name decides, whatever was there before. *)
Lemma registered_as_none name k es c : registered_as name None es = Some c ->
  registered_as name k es = Some c.
Proof.
  destruct k as [c'|]; [|done]. induction es as [|e es IH]; cbn [registered_as]; [done|].
  destruct e as [[n|]|[n d|n]| |]; try done; by case_bool_decide.
Qed.

(** Signals about other names change nothing. *)
Definition sig_name (s : client_signal) : string :=
  match s with SigNew n _ | SigExit n => n end.

Lemma registered_as_other name k l : Forall (fun s => sig_name s <> name) l ->
  registered_as name k (sigs l) = k.
Proof.
  intros Hl. revert k. induction Hl as [|s l Hs Hl IH]; intros k; [done|]. cbn [map registered_as].
  rewrite IH. destruct s; cbn in Hs; by rewrite bool_decide_eq_false_2.
Qed.

(** * One turn of a main loop *)

Section Turn.
Context {QT : Type} `{TrySender QT Packet} `{!Message AuthRequest}.
Context (conf : HealthyConfig) (conn : nat) (peer_addr : string).
Context (on_auth : Z -> AuthInfo -> bool) (who : string).
Implicit Types s : main_state QT.

Definition extends : relation (main_state QT) :=
  fun s s' => main_acts s `prefix_of` main_acts s'.

#[local] Instance extends_preorder : PreOrder extends.
Proof. constructor; [intros s; exists []; by rewrite app_nil_r|]. intros s1 s2 s3. apply (transitivity (R:=prefix)). Qed.

Lemma keeps_main_add a : keeps extends (main_add (QT:=QT) a).
Proof. apply keeps_modify. intros s. by exists [a]. Qed.

Lemma keeps_main_queue tx : keeps extends (main_queue (QT:=QT) tx).
Proof. apply keeps_modify. intros s. by exists []; rewrite app_nil_r. Qed.

Lemma main_step_extends e : keeps extends (main_step conf conn peer_addr on_auth e).
Proof.
  assert (forall p, keeps extends (forward (QT:=QT) p)) as Hf.
  { intros p. unfold forward. apply keeps_get. intros s. apply keeps_bind; [apply _|apply keeps_main_queue|].
    intros _. destruct (try_send p (recved_packet_tx s)).2; try (apply keeps_ret; apply _).
    apply keeps_main_add. }
  destruct e as [now| |p now|]; cbn [main_step]; try (apply keeps_fail; apply _).
  - apply keeps_get. intros s. destruct (is_auth_ok s), (_ <? _);
      first [apply keeps_ret|apply keeps_fail]; apply _.
  - apply keeps_bind; [apply _|apply keeps_modify; intros s; by exists []; rewrite app_nil_r|].
    intros _. destruct p as [r|r|r]; try done.
    destruct (req_command r); try done; [|apply keeps_main_add].
    intros s. rewrite on_auth_request_eq. destruct (decode _); [by eexists|]. by exists []; rewrite app_nil_r.
Qed.

(** The peer authenticates under the name [who] only. *)
Definition steady (e : main_event) : Prop :=
  match e with
  | RecvPacket (PRequest r) _ => req_command r = Auth -> forall a, decode (req_body r) = Some a ->
      client_name (default AuthInfo_default (auth_info a)) = who
  | _ => True
  end.

Abbreviation own_name := (full_name peer_addr who).

Definition named_who (v : AuthInfo * bool) : Prop := client_name v.1 = who.

Record loop_ok s : Prop := {
  loop_living : living conn peer_addr s;
  loop_names : Forall named_who (verdicts (main_acts s))
}.

Lemma forward_verdicts p s :
  verdicts (main_acts (forward (QT:=QT) p s).1) = verdicts (main_acts s).
Proof.
  unfold forward, main_queue, main_add, mbind, SM_bind, sget, smodify.
  destruct (try_send p (recved_packet_tx s)) as [tx []]; cbn; try done.
  unfold verdicts. by rewrite omap_app, app_nil_r.
Qed.

Lemma main_step_names e s : steady e -> Forall named_who (verdicts (main_acts s)) ->
  Forall named_who (verdicts (main_acts (main_step conf conn peer_addr on_auth e s).1)).
Proof.
  intros He Hs. destruct e as [now| |p now|]; cbn [main_step]; try done.
  - unfold on_heartbeat_tick, mbind, SM_bind, sget. destruct (is_auth_ok s); by destruct (_ <? _).
  - unfold on_packet, set_ping, mbind, SM_bind, smodify. cbn in He.
    destruct p as [r|r|r]; try by rewrite forward_verdicts.
    destruct (req_command r) eqn:Hc; try by rewrite forward_verdicts.
    + rewrite on_auth_request_eq. destruct (decode (req_body r)) as [a|] eqn:Ed; [|done].
      specialize (He eq_refl a eq_refl). cbn. unfold verdicts in *. rewrite omap_app. cbn.
      apply Forall_app. split; [done|]. constructor; [done|]. by destruct (on_auth _ _).
    + unfold main_add, smodify. cbn. unfold verdicts in *. by rewrite omap_app, app_nil_r.
Qed.

Lemma accepted_names_who vs : Forall named_who vs ->
  accepted_names peer_addr vs = replicate (length (accepted_names peer_addr vs)) own_name /\
  existsb snd vs = bool_decide (accepted_names peer_addr vs <> []).
Proof.
  induction 1 as [|[info ok] vs Hv _ [IH1 IH2]]; [done|]. unfold named_who in Hv. cbn in Hv.
  unfold accepted_names in *. destruct ok; cbn; rewrite ?Hv; (split; [|done]).
  - by f_equal.
  - done.
Qed.

(** What a turn that leaves the trace longer sent to the registry. *)
Lemma new_signals_turn s s' : loop_ok s -> loop_ok s' -> extends s s' -> exists k,
  new_signals (length (main_acts s)) (main_acts s') = replicate k (SigNew own_name conn) /\
  is_auth_ok s' = is_auth_ok s || bool_decide (k <> 0)%nat.
Proof.
  intros [[A _ C _] N] [[A' _ C' _] N'] [l E]. unfold new_signals. rewrite E, drop_app_length.
  rewrite E in A', C', N'. unfold verdicts, signals in *. rewrite !omap_app in *.
  apply Forall_app in N' as [_ Nl]. set (vl := omap _ l) in *.
  destruct (accepted_names_who vl Nl) as [Hn Hb]. exists (length (accepted_names peer_addr vl)). split.
  - rewrite C in C'. unfold accepted_names in C'. rewrite omap_app, map_app in C'.
    apply app_inv_head in C'. unfold accepted_names in Hn. rewrite C', Hn at 1.
    change (map ?f) with (fmap (M:=list) f). by rewrite fmap_replicate.
  - rewrite A', A, existsb_app, Hb. f_equal. apply bool_decide_ext.
    by destruct (accepted_names peer_addr vl).
Qed.

(** A turn, seen by the registry. *)
Lemma client_main_turn e s : loop_ok s -> steady e ->
  match client_main conf conn peer_addr on_auth [e] s with
  | (s', None) => loop_ok s' /\ exists k,
      new_signals (length (main_acts s)) (main_acts s') = replicate k (SigNew own_name conn) /\
      is_auth_ok s' = is_auth_ok s || bool_decide (k <> 0)%nat
  | (s', Some _) => exists k n,
      new_signals (length (main_acts s)) (main_acts s') =
        replicate k (SigNew own_name conn) ++ [SigExit (full_name peer_addr n)] /\
      (n = who \/ is_auth_ok s = false /\ k = 0%nat)
  end.
Proof.
  intros Hs He. pose proof (main_step_extends e s) as Hx.
  assert (loop_ok (main_step conf conn peer_addr on_auth e s).1) as H1.
  { destruct Hs. constructor; [by apply main_step_living|by apply main_step_names]. }
  destruct (new_signals_turn _ _ Hs H1 Hx) as (k & Hn & Ha).
  unfold client_main, main_run. cbn [sfor]. unfold mbind, SM_bind.
  destruct (main_step conf conn peer_addr on_auth e s) as [s1 [[]|er|]]; cbn [fst] in *;
    [split; [done|by exists k]| |split; [done|by exists k]].
  destruct Hx as [l Hl]. assert (main_client_name s1 = (current peer_addr (verdicts (main_acts s1))).1) as Hc
    by (by rewrite <- (living_current _ _ _ (loop_living _ H1))).
  exists k, (match last (verdicts (main_acts s1)) with Some _ => who | None => "waitAuth"%string end).
  split.
  - assert (exists d, main_acts (main_end s1) = main_acts s1 ++ d ++ [SendSignal (SigExit (main_client_name s1))]
      /\ omap (fun a => match a with SendSignal s => Some s | _ => None end) d = ([] : list client_signal))
      as (d & Hd & Hd0).
    { unfold main_end, main_add, smodify. destruct (is_auth_ok s1); cbn.
      - exists [OnDisconnect (main_auth_info s1)]. by rewrite <- app_assoc.
      - by exists []. }
    unfold new_signals in *. rewrite Hd, Hl in *. rewrite <- app_assoc, drop_app_length in *.
    rewrite !omap_app, Hd0, Hn. cbn. do 3 f_equal. rewrite Hc.
    unfold current. pose proof (loop_names _ H1) as HN. rewrite Hl in HN.
    destruct (last (verdicts (main_acts s ++ l))) as [[info ok]|] eqn:El; [|done]. cbn.
    apply last_Some in El as [vs Ev]. rewrite Ev in HN. apply Forall_app in HN as [_ HN].
    rewrite Forall_singleton in HN. unfold named_who in HN. cbn in HN. by rewrite HN.
  - destruct (last (verdicts (main_acts s1))) as [v|] eqn:El; [by left|right].
    apply last_None in El. pose proof (living_auth _ _ _ (loop_living _ H1)) as Ha1.
    rewrite El in Ha1. cbn in Ha1. rewrite Ha1 in Ha. symmetry in Ha.
    apply orb_false_iff in Ha as [Ha Hk]. split; [done|]. apply bool_decide_eq_false in Hk. lia.
Qed.

End Turn.

(** * The invariants of the server *)

Section Inv.
Context {QT : Type} `{TrySender QT Packet} `{!Message AuthRequest}.
Context (conf : LinkServerConfig) (on_auth : nat -> Z -> AuthInfo -> bool).
(** The name each connection authenticates under. *)
Context (who : nat -> string).
Implicit Types h : hub QT.

Definition known h (c : nat) : Prop := (c < length (h_peers h))%nat.
Definition nm h (c : nat) : string := full_name (hub_peer c h) (who c).

Definition steady_hub (e : hub_event QT) : Prop :=
  match e with HubMain c e => steady (who c) e | _ => True end.

Definition accepted_peer (e : hub_event QT) : list string :=
  match e with HubAccept p _ _ => [p] | _ => [] end.

Definition accepted_peers (es : list (hub_event QT)) : list string :=
  concat (map accepted_peer es).

Record hub_ok h : Prop := {
  ok_loops c s : h_loops h !! c = Some s -> known h c /\ loop_ok c (hub_peer c h) (who c) s;
  ok_signals n c : SigNew n c ∈ h_signals h -> known h c /\ n = nm h c;
  ok_clients n c : clients (h_mgmt h) !! n = Some c -> known h c /\ n = nm h c
}.

(** Addresses that were never shared, as the runtime prints them. *)
Definition peers_ok (ps : list string) : Prop := NoDup ps /\ Forall (fun p => plain p = true) ps.

Lemma hub_peer_lookup h c : known h c -> h_peers h !! c = Some (hub_peer c h).
Proof.
  intros Hc. unfold hub_peer. by destruct (lookup_lt_is_Some_2 _ _ Hc) as [p ->].
Qed.

Lemma full_name_known h c c' n n' : peers_ok (h_peers h) -> known h c -> known h c' ->
  full_name (hub_peer c h) n = full_name (hub_peer c' h) n' -> c = c'.
Proof.
  intros [Hnd Hp] Hc%hub_peer_lookup Hc'%hub_peer_lookup E. rewrite Forall_lookup in Hp.
  apply full_name_inj in E as [_ E]; [|by eapply Hp..].
  rewrite E in Hc. by eapply NoDup_lookup.
Qed.

(** Accepting more connections changes nothing for those already known. *)
Lemma known_mono h h' l c : h_peers h' = h_peers h ++ l -> known h c ->
  known h' c /\ hub_peer c h' = hub_peer c h.
Proof.
  unfold known, hub_peer. intros E Hc. rewrite E, length_app, lookup_app_l by done.
  split; [lia|done].
Qed.

Lemma hub_ok_grow h peers loops : peers = h_peers h \/ (exists p, peers = h_peers h ++ [p]) ->
  hub_ok h ->
  (forall c s, loops !! c = Some s ->
    (c < length peers)%nat /\ loop_ok c (default EmptyString (peers !! c)) (who c) s) ->
  hub_ok (mk_hub peers loops (h_signals h) (h_mgmt h) (h_exits h)).
Proof.
  intros Hp [Hl Hs Hc] Hloops.
  assert (exists l, peers = h_peers h ++ l) as [l E]
    by (destruct Hp as [->|[p ->]]; [by exists []; rewrite app_nil_r|by eexists]).
  set (h' := mk_hub _ _ _ _ _). assert (forall c, known h c -> known h' c /\ hub_peer c h' = hub_peer c h)
    as Hk by (intros c; by apply (known_mono h h' l)).
  constructor; [exact Hloops|..]; intros n c Hin; cbn in Hin.
  - destruct (Hs n c Hin) as [Hkc ->]. destruct (Hk c Hkc) as [? E']. split; [done|].
    unfold nm. by rewrite E'.
  - destruct (Hc n c Hin) as [Hkc ->]. destruct (Hk c Hkc) as [? E']. split; [done|].
    unfold nm. by rewrite E'.
Qed.

Lemma hub_ok_accept p now tx h : hub_ok h -> hub_ok (hub_step conf on_auth (HubAccept p now tx) h).1.
Proof.
  intros Hh. cbn [hub_step]. unfold hub_accept, serve_step.
  destruct (conn_channels_ok conf); cbn [smodify slift]; [|done].
  apply hub_ok_grow; [right; by eexists|done|]. intros c s Hl.
  rewrite length_app. cbn [length].
  destruct (decide (c = length (h_peers h))) as [->|Hne].
  - rewrite lookup_insert_eq in Hl. injection Hl as <-. split; [lia|].
    rewrite list_lookup_middle by done. cbn. constructor; [apply main_init_living|constructor].
  - rewrite lookup_insert_ne in Hl by done. apply (ok_loops _ Hh) in Hl as [Hk Hl].
    split; [unfold known in Hk; lia|]. by rewrite lookup_app_l.
Qed.

Lemma hub_ok_main c e h : steady (who c) e -> hub_ok h ->
  hub_ok (hub_step conf on_auth (HubMain c e) h).1.
Proof.
  intros He Hh. cbn [hub_step]. unfold hub_main. destruct (h_loops h !! c) as [s|] eqn:El; [|done].
  destruct (can_take c e h); [|done]. destruct (ok_loops _ Hh c s El) as [Hk Hs].
  pose proof (client_main_turn (srv_healthy_config conf) c (hub_peer c h) (on_auth c) (who c) e s Hs He)
    as Ht.
  destruct (client_main _ _ _ _ _ s) as [s' [er|]]; cbn [fst].
  - destruct Ht as (k & n & Hn & _). constructor; cbn.
    + intros c' s1 Hl. apply lookup_delete_Some in Hl as [_ Hl]. by apply (ok_loops _ Hh).
    + intros m c'. rewrite Hn, !elem_of_app, list_elem_of_singleton. intros [Hin|[Hin|Hin]]; [|..|done].
      * by apply (ok_signals _ Hh).
      * by apply elem_of_replicate_inv in Hin as [= -> ->].
    + apply (ok_clients _ Hh).
  - destruct Ht as (Hs' & k & Hn & _). constructor; cbn.
    + intros c' s1 Hl. destruct (decide (c = c')) as [<-|Hne].
      * rewrite lookup_insert_eq in Hl. by injection Hl as <-.
      * rewrite lookup_insert_ne in Hl by done. by apply (ok_loops _ Hh).
    + intros m c'. rewrite Hn, elem_of_app. intros [Hin|Hin]; [by apply (ok_signals _ Hh)|].
      by apply elem_of_replicate_inv in Hin as [= -> ->].
    + apply (ok_clients _ Hh).
Qed.

(** What the registry does to its map. *)
Lemma mgmt_step_lookup e s n c : clients (mgmt_step e s).1 !! n = Some c ->
  clients s !! n = Some c \/ e = MgmtClient (SigNew n c).
Proof.
  destruct (is_shutdown e) eqn:Es; [destruct e as [[]| | |]; try done; by left|].
  destruct (mgmt_step_clients e s Es) as (s' & -> & Hc & _). cbn [fst]. rewrite Hc.
  intros [?|Hin]%registered_as_from; [by left|right]. by apply list_elem_of_singleton in Hin.
Qed.

Lemma hub_ok_mgmt e h : hub_ok h ->
  (forall n c, e = MgmtClient (SigNew n c) -> known h c /\ n = nm h c) ->
  hub_ok (hub_mgmt e h).1.
Proof.
  intros Hh He. constructor; cbn.
  - apply (ok_loops _ Hh).
  - apply (ok_signals _ Hh).
  - intros n c [Hc|Hc]%mgmt_step_lookup; [by apply (ok_clients _ Hh)|by apply He].
Qed.

Lemma hub_step_ok e h : steady_hub e -> hub_ok h -> hub_ok (hub_step conf on_auth e h).1.
Proof.
  intros He Hh. destruct e as [p now tx|c e| |sg| |p].
  - by apply hub_ok_accept.
  - by apply hub_ok_main.
  - cbn [hub_step]. destruct (h_signals h) as [|sg l] eqn:E; [done|].
    apply hub_ok_mgmt.
    + destruct Hh as [A B C]. constructor; try done. intros n c Hin. apply B. rewrite E. by right.
    + intros n c [= ->]. apply (ok_signals _ Hh). rewrite E. left.
  - by apply hub_ok_mgmt.
  - by apply hub_ok_mgmt.
  - by apply hub_ok_mgmt.
Qed.

Lemma hub_step_peers e h : h_peers (hub_step conf on_auth e h).1 = h_peers h \/
  exists p, accepted_peer e = [p] /\ h_peers (hub_step conf on_auth e h).1 = h_peers h ++ [p].
Proof.
  destruct e as [p now tx|c e| |sg| |p]; cbn [hub_step]; try by left.
  - unfold hub_accept, serve_step. destruct (conn_channels_ok conf); [right; by exists p|by left].
  - left. unfold hub_main. destruct (h_loops h !! c) as [s|]; [|done]. destruct (can_take c e h); [|done].
    by destruct (client_main _ _ _ _ _ s) as [s' []].
  - left. by destruct (h_signals h).
Qed.

Lemma hub_init_ok : hub_ok hub_init.
Proof.
  constructor; cbn.
  - intros c s Hl. by rewrite lookup_empty in Hl.
  - by intros n c ?%not_elem_of_nil.
  - intros n c Hl. by rewrite lookup_empty in Hl.
Qed.

(** ** The abstract server is implemented *)

Definition broadcasts (c : nat) : list mgmt_action -> list Packet :=
  omap (fun a => match a with
                 | Broadcast c' p => if decide (c' = c) then Some p else None
                 | _ => None
                 end).

Definition closed_by_user h (c : nat) : Prop := CloseConn c ∈ mgmt_acts (h_mgmt h).

(** The main loop of the connection ended. *)
Definition ended h (c : nat) : Prop := known h c /\ h_loops h !! c = None.

(** The abstract server seen in the concrete one: its members are the map of the registry, read
    backwards; a connection is over when its main loop ended or the user closed it; the inbox
    of a connection is what the registry put in its broadcast channel. *)
Record implements h (P : presence) : Prop := {
  impl_members c n : members P !! c = Some n <-> clients (h_mgmt h) !! n = Some c;
  impl_over c : c ∈ over P <-> ended h c \/ closed_by_user h c;
  impl_inboxes c : inboxes P c = broadcasts c (mgmt_acts (h_mgmt h))
}.

(** The end of a connection is announced after it ended, under a name with its address. *)
Definition announces_end h (n : string) : Prop :=
  exists c m, ended h c /\ n = full_name (hub_peer c h) m.

Definition exits_ok h : Prop := forall n, SigExit n ∈ h_signals h -> announces_end h n.

Lemma broadcasts_app c l k : broadcasts c (l ++ k) = broadcasts c l ++ broadcasts c k.
Proof. apply omap_app. Qed.

(** A name is the only one of its connection. *)
Definition one_name (m : gmap string nat) : Prop :=
  forall n n' c, m !! n = Some c -> m !! n' = Some c -> n = n'.

Lemma hub_one_name h : hub_ok h -> one_name (clients (h_mgmt h)).
Proof. by intros Hh n n' c [_ ->]%(ok_clients _ Hh) [_ ->]%(ok_clients _ Hh). Qed.

Lemma broadcasts_none c p (l : list (string * nat)) : (forall n, (n, c) ∉ l) ->
  broadcasts c (map (fun kv => Broadcast kv.2 p) l) = [].
Proof.
  induction l as [|[n k] l IH]; intros Hl; [done|]. cbn. rewrite decide_False.
  - apply IH. intros n' Hin. apply (Hl n'). by right.
  - intros ->. apply (Hl n). left.
Qed.

Lemma broadcasts_one c n p m : one_name m -> m !! n = Some c ->
  broadcasts c (map (fun kv => Broadcast kv.2 p) (map_to_list m)) = [p].
Proof.
  intros Hm Hn%elem_of_map_to_list. pose proof (NoDup_map_to_list m) as Hnd.
  assert (forall n', (n', c) ∈ map_to_list m -> n' = n) as H1.
  { intros n' Hn'. apply elem_of_map_to_list in Hn, Hn'. by eapply Hm. }
  apply list_elem_of_split in Hn as (l1 & l2 & E). rewrite E in *.
  apply NoDup_app in Hnd as (_ & Hd1 & Hnd). apply NoDup_cons in Hnd as [Hd2 _].
  rewrite map_app, broadcasts_app, broadcasts_none.
  - cbn [map]. change (?a :: ?l) with ([a] ++ l). rewrite broadcasts_app, broadcasts_none.
    + cbn. by rewrite decide_True.
    + intros n' Hin. assert (n' = n) as -> by (apply H1; set_solver). done.
  - intros n' Hin. assert (n' = n) as -> by (apply H1; set_solver).
    apply (Hd1 _ Hin). left.
Qed.

Ltac unfold_mgmt :=
  cbn [mgmt_step]; unfold mbind, SM_bind, mret, SM_ret, sget, smodify, mgmt_add, mgmt_map;
  cbn [fst clients mgmt_acts].

Lemma presence_once P ps P' : presence_step P ps P' -> presence_run P ps P'.
Proof. intros Hs. apply (presence_snoc P [] P ps P'); [apply presence_refl|done]. Qed.

Lemma presence_run_app P ps P' ps' P'' :
  presence_run P ps P' -> presence_run P' ps' P'' -> presence_run P (ps ++ ps') P''.
Proof.
  intros H1 H2. revert H1. induction H2 as [|? ? ? ? ? _ IH]; intros Hr; [by rewrite app_nil_r|].
  rewrite app_assoc. by eapply presence_snoc; [apply IH|].
Qed.

(** Whom a turn of the registry closes for the user. *)
Lemma closed_mgmt e h c : closed_by_user (hub_mgmt e h).1 c <->
  closed_by_user h c \/ exists n, e = MgmtSignal (CloseClient n) /\ clients (h_mgmt h) !! n = Some c.
Proof.
  unfold closed_by_user. cbn [hub_mgmt h_mgmt fst].
  assert (forall l, (forall c', CloseConn c' ∉ l) -> (forall n, e <> MgmtSignal (CloseClient n)) ->
    CloseConn c ∈ mgmt_acts (h_mgmt h) ++ l <->
    CloseConn c ∈ mgmt_acts (h_mgmt h) \/ exists n, e = MgmtSignal (CloseClient n) /\
      clients (h_mgmt h) !! n = Some c) as Hno.
  { intros l Hl He. rewrite elem_of_app. split; [intros [?|Hin]; [by left|by destruct (Hl c)]|].
    intros [?|(n & -> & _)]; [by left|by destruct (He n)]. }
  destruct e as [[n|]|[n c'|n]| |p];
    try (specialize (Hno [] (fun c' => not_elem_of_nil _) ltac:(done)); rewrite app_nil_r in Hno; exact Hno).
  - unfold_mgmt. destruct (clients (h_mgmt h) !! n) as [c'|] eqn:E; cbn [fst mgmt_acts mgmt_add mgmt_map];
      [rewrite elem_of_app, list_elem_of_singleton|]; split; try naive_solver.
  - unfold_mgmt. cbn [mgmt_add mgmt_acts]. apply Hno; [|done]. set_solver.
  - unfold_mgmt. cbn [mgmt_add mgmt_acts]. apply Hno; [|done].
    intros c' (x & E & _)%list_elem_of_fmap. done.
Qed.

Lemma closed_kept e h c : (forall n, e <> MgmtSignal (CloseClient n)) ->
  closed_by_user (hub_mgmt e h).1 c <-> closed_by_user h c.
Proof. intros He. rewrite closed_mgmt. split; [intros [?|(n & -> & _)]; [done|by destruct (He n)]|by left]. Qed.

(** Taking a name off the registry, when its connection is over, is a leave. *)
Lemma leaves h P n : hub_ok h ->
  (forall c m, members P !! c = Some m <-> clients (h_mgmt h) !! m = Some c) ->
  (forall c, clients (h_mgmt h) !! n = Some c -> c ∈ over P) ->
  exists P', presence_run P [] P' /\
    (forall c m, members P' !! c = Some m <-> delete n (clients (h_mgmt h)) !! m = Some c) /\
    over P' = over P /\ inboxes P' = inboxes P.
Proof.
  intros Hh Hm Ho. destruct (clients (h_mgmt h) !! n) as [c0|] eqn:E.
  - exists (mk_presence (delete c0 (members P)) (over P) (inboxes P)).
    split; [apply presence_once, (presence_leave P c0 n); [by apply Hm|by apply Ho]|].
    split; [|done]. intros c m. cbn. rewrite !lookup_delete_Some, Hm. split; intros [Hne Hc]; (split; [|done]).
    + intros ->. rewrite E in Hc. congruence.
    + intros ->. destruct Hne. by apply (hub_one_name h Hh n m c).
  - exists P. split; [apply presence_refl|]. split; [|done]. intros c m. rewrite Hm.
    rewrite lookup_delete_Some. split; [intros Hc; split; [congruence|done]|naive_solver].
Qed.

(** Putting a name in the registry is a join, or nothing when it was there. *)
Lemma joins h P c : hub_ok h -> peers_ok (h_peers h) -> known h c ->
  (forall c' m, members P !! c' = Some m <-> clients (h_mgmt h) !! m = Some c') ->
  exists P', presence_run P [] P' /\
    (forall c' m, members P' !! c' = Some m <-> <[nm h c := c]> (clients (h_mgmt h)) !! m = Some c') /\
    over P' = over P /\ inboxes P' = inboxes P.
Proof.
  intros Hh Hp Hk Hm. destruct (clients (h_mgmt h) !! nm h c) as [c0|] eqn:E.
  - destruct (ok_clients _ Hh _ _ E) as [Hk0 E0]. apply (full_name_known h c c0) in E0 as <-; try done.
    exists P. split; [apply presence_refl|]. split; [|done]. intros c' m. by rewrite insert_id.
  - exists (mk_presence (<[c := nm h c]> (members P)) (over P) (inboxes P)).
    assert (members P !! c = None) as Hn.
    { apply eq_None_not_Some. intros [m Hc]. apply Hm in Hc. pose proof (ok_clients _ Hh _ _ Hc) as [_ ->].
      by rewrite E in Hc. }
    split; [apply presence_once, presence_join; [done|]|].
    { intros c' Hc'%Hm. by rewrite E in Hc'. }
    split; [|done]. intros c' m. cbn. rewrite !lookup_insert_Some, Hm.
    split; intros [[<- <-]|[Hne Hc]]; try (by left); right; (split; [|done]).
    + intros <-. congruence.
    + intros <-. apply Hm in Hc. congruence.
Qed.

(** What remains to say of a turn of the registry. *)
Lemma implements_mgmt e h P P' : implements h P ->
  (forall c m, members P' !! c = Some m <-> clients (mgmt_step e (h_mgmt h)).1 !! m = Some c) ->
  (forall c, c ∈ over P' <-> c ∈ over P \/
    exists n, e = MgmtSignal (CloseClient n) /\ clients (h_mgmt h) !! n = Some c) ->
  (forall c, inboxes P' c = broadcasts c (mgmt_acts (mgmt_step e (h_mgmt h)).1)) ->
  implements (hub_mgmt e h).1 P'.
Proof.
  intros [_ Ho _] Hm Ho' Hb. constructor; [exact Hm| |exact Hb].
  intros c. rewrite closed_mgmt, Ho', Ho. unfold ended, known. cbn [hub_mgmt h_peers h_loops fst].
  tauto.
Qed.

(** The signals and the ticks of the registry publish nothing. *)
Lemma broadcasts_quiet e m c : (forall p, e <> MgmtSend p) ->
  broadcasts c (mgmt_acts (mgmt_step e m).1) = broadcasts c (mgmt_acts m).
Proof.
  intros He. destruct e as [[n|]|[n c'|n]| |p]; unfold_mgmt; try done.
  - destruct (clients m !! n); cbn [fst mgmt_acts mgmt_add]; [|done].
    by rewrite broadcasts_app, app_nil_r.
  - cbn [mgmt_add mgmt_acts]. by rewrite broadcasts_app, app_nil_r.
  - by destruct (He p).
Qed.

(** The user closes a client: its connection is over, then it leaves. *)
Lemma close_implements n h P : hub_ok h -> implements h P ->
  exists P', presence_run P [] P' /\ implements (hub_mgmt (MgmtSignal (CloseClient n)) h).1 P'.
Proof.
  intros Hh Hi. pose proof Hi as [Hm Ho Hb].
  set (over' := match clients (h_mgmt h) !! n with Some c => {[c]} ∪ over P | None => over P end).
  destruct (leaves h (mk_presence (members P) over' (inboxes P)) n Hh Hm) as (P' & Hr & Hm' & Ho' & Hb').
  { cbn. subst over'. intros c ->. set_solver. }
  exists P'. split.
  - apply (presence_run_app P [] (mk_presence (members P) over' (inboxes P)) []); [|done].
    subst over'. destruct (clients (h_mgmt h) !! n); [apply presence_once, presence_over|].
    destruct P. apply presence_refl.
  - apply (implements_mgmt _ _ P); [done|..]; intros c.
    + intros m. rewrite Hm'. unfold_mgmt. by destruct (clients (h_mgmt h) !! n).
    + rewrite Ho'. subst over'. cbn. destruct (clients (h_mgmt h) !! n) eqn:E; set_solver.
    + rewrite Hb', broadcasts_quiet by done. apply Hb.
Qed.

(** A packet published goes to those in the registry, once each. *)
Lemma publish_implements p h P : hub_ok h -> implements h P ->
  exists P', presence_run P [p] P' /\ implements (hub_mgmt (MgmtSend p) h).1 P'.
Proof.
  intros Hh Hi. pose proof Hi as [Hm Ho Hb].
  exists (mk_presence (members P) (over P)
    (fun c => broadcasts c (mgmt_acts (mgmt_step (MgmtSend p) (h_mgmt h)).1))). split.
  - apply presence_once, presence_publish. intros c. rewrite Hb. unfold_mgmt. cbn [mgmt_add mgmt_acts].
    rewrite broadcasts_app. f_equal. destruct (decide _) as [[n Hn]|Hn].
    + apply Hm in Hn. by eapply broadcasts_one; [apply hub_one_name|].
    + apply broadcasts_none. intros n Hin%elem_of_map_to_list. apply Hn. exists n. by apply Hm.
  - apply (implements_mgmt _ _ P); [done|..]; [exact Hm| |done].
    cbn [over]. naive_solver.
Qed.

(** A turn of the registry is at most two steps of the abstract server, which publish what the
    registry is given to broadcast. *)
Lemma hub_mgmt_implements e h P : hub_ok h -> peers_ok (h_peers h) ->
  (forall n c, e = MgmtClient (SigNew n c) -> known h c /\ n = nm h c) ->
  (forall n, e = MgmtClient (SigExit n) -> announces_end h n) ->
  implements h P ->
  exists P', presence_run P (match e with MgmtSend p => [p] | _ => [] end) P' /\
    implements (hub_mgmt e h).1 P'.
Proof.
  intros Hh Hp He Hx Hi. pose proof Hi as [Hm Ho Hb].
  assert (forall sg P', e = MgmtClient sg -> over P' = over P -> inboxes P' = inboxes P ->
    (forall c m, members P' !! c = Some m <-> clients (mgmt_step e (h_mgmt h)).1 !! m = Some c) ->
    implements (hub_mgmt e h).1 P') as Hsg.
  { intros sg P' -> Ho' Hb' Hm'. apply (implements_mgmt _ _ P); [done|exact Hm'|..]; intros c.
    - rewrite Ho'. naive_solver.
    - rewrite Hb', broadcasts_quiet by done. apply Hb. }
  destruct e as [[n|]|[n c|n]| |p].
  - by apply close_implements.
  - exists P. split; [apply presence_refl|]. constructor; [exact Hm| |exact Hb].
    intros c. rewrite closed_kept by done. apply Ho.
  - destruct (He n c eq_refl) as [Hk ->].
    destruct (joins h P c Hh Hp Hk Hm) as (P' & Hr & Hm' & Ho' & Hb'). exists P'. split; [done|].
    by eapply Hsg.
  - destruct (Hx n eq_refl) as (c & m & Hend & ->).
    destruct (leaves h P (full_name (hub_peer c h) m) Hh Hm) as (P' & Hr & Hm' & Ho' & Hb').
    { intros c' Hc'. destruct (ok_clients _ Hh _ _ Hc') as [Hk' E].
      apply (full_name_known h c c') in E as <-; [apply Ho; by left|done| |done]. apply Hend. }
    exists P'. split; [done|]. by eapply Hsg.
  - exists P. split; [apply presence_refl|]. apply (implements_mgmt _ _ P); [done|exact Hm| |];
      intros c; [naive_solver|]. rewrite broadcasts_quiet by done. apply Hb.
  - by apply publish_implements.
Qed.

(** *** The turns of the tasks *)

(** What an announced end rests on lasts. *)
Lemma announces_grow h h' l : h_peers h' = h_peers h ++ l ->
  (forall c, ended h c -> ended h' c) ->
  forall n, announces_end h n -> announces_end h' n.
Proof.
  intros Hp He n (c & m & Hc & ->). exists c, m. split; [by apply He|].
  destruct Hc as [Hk _]. by destruct (known_mono h h' l c Hp Hk) as [_ ->].
Qed.

Lemma hub_accept_turn p now tx h :
  let h' := (hub_step conf on_auth (HubAccept p now tx) h).1 in
  hub_ok h -> h_mgmt h' = h_mgmt h /\ h_signals h' = h_signals h /\
    (exists l, h_peers h' = h_peers h ++ l) /\ forall c, ended h' c <-> ended h c.
Proof.
  cbn [hub_step]. unfold hub_accept, serve_step. intros Hh.
  destruct (conn_channels_ok conf); cbn [smodify slift fst]; [|].
  - split_and!; [done..|by eexists|]. intros c. unfold ended, known. cbn [h_peers h_loops].
    rewrite length_app. cbn [length]. destruct (decide (c = length (h_peers h))) as [->|Hne].
    + rewrite lookup_insert_eq. split; [by intros [_ ?]|intros [? _]; lia].
    + rewrite lookup_insert_ne by done. split; intros [? ?]; (split; [lia|done]).
  - split_and!; [done..|by exists []; rewrite app_nil_r|done].
Qed.

(** A turn of a main loop: its end is what is announced. *)
Lemma hub_main_turn c e h : steady (who c) e -> hub_ok h ->
  let h' := (hub_step conf on_auth (HubMain c e) h).1 in
  h_mgmt h' = h_mgmt h /\ h_peers h' = h_peers h /\
  exists l (b : bool), h_signals h' = h_signals h ++ l /\
    (forall c', ended h' c' <-> ended h c' \/ b = true /\ c' = c) /\
    (b = true -> known h c) /\
    forall n, SigExit n ∈ l -> b = true /\ exists m, n = full_name (hub_peer c h) m.
Proof.
  intros He Hh. cbn [hub_step]. unfold hub_main.
  destruct (h_loops h !! c) as [s|] eqn:El; cycle 1.
  { split_and!; [done..|]. exists [], false. split_and!; [by rewrite app_nil_r|naive_solver|done|set_solver]. }
  destruct (can_take c e h); cycle 1.
  { split_and!; [done..|]. exists [], false. split_and!; [by rewrite app_nil_r|naive_solver|done|set_solver]. }
  destruct (ok_loops _ Hh c s El) as [Hk Hs].
  pose proof (client_main_turn (srv_healthy_config conf) c (hub_peer c h) (on_auth c) (who c) e s Hs He)
    as Hturn.
  destruct (client_main _ _ _ _ _ s) as [s' [er|]]; cbn [fst]; (split; [done|split; [done|]]);
    unfold ended, known in *; cbn [h_peers h_loops h_signals].
  - destruct Hturn as (k & n & -> & _). eexists _, true. split_and!; [done| |done|].
    + intros c'. rewrite lookup_delete_None. naive_solver.
    + intros n' [Hin%elem_of_replicate_inv|Hin%list_elem_of_singleton]%elem_of_app; [done|].
      injection Hin as ->. split; [done|by eexists].
  - destruct Hturn as (_ & k & -> & _). eexists _, false. split_and!; [done| |done|].
    + intros c'. destruct (decide (c' = c)) as [->|Hne]; [rewrite lookup_insert_eq, El|
        rewrite lookup_insert_ne by done]; naive_solver.
    + by intros n' Hin%elem_of_replicate_inv.
Qed.

(** An end that is announced did happen. *)
Lemma hub_step_exits e h : steady_hub e -> hub_ok h -> exits_ok h ->
  exits_ok (hub_step conf on_auth e h).1.
Proof.
  intros He Hh Hx. destruct e as [p now tx|c e| |sg| |p]; try done.
  - destruct (hub_accept_turn p now tx h Hh) as (_ & Hs & [l Hl] & Hend). intros n. rewrite Hs.
    intros Hin%Hx. eapply announces_grow; [exact Hl| |done]. intros c. by rewrite Hend.
  - destruct (hub_main_turn c e h He Hh) as (_ & Hp & l & b & Hs & Hend & Hk & Hl).
    intros n. rewrite Hs, elem_of_app. intros [Hin%Hx|Hin].
    + eapply (announces_grow h _ []); [by rewrite app_nil_r| |done]. intros c' ?. apply Hend. by left.
    + destruct (Hl n Hin) as (Hb & m & ->). exists c, m. unfold hub_peer. rewrite Hp.
      split; [|done]. apply Hend. by right.
  - cbn [hub_step]. destruct (h_signals h) as [|sg l] eqn:E; [done|].
    intros n Hin. cbn in Hin. apply Hx. rewrite E. by right.
Qed.

Lemma hub_step_implements e h P : steady_hub e -> hub_ok h -> exits_ok h -> peers_ok (h_peers h) ->
  implements h P ->
  exists P', presence_run P (published [e]) P' /\ implements (hub_step conf on_auth e h).1 P'.
Proof.
  intros He Hh Hx Hp Hi. pose proof Hi as [Hm Ho Hb]. destruct e as [p now tx|c e| |sg| |p].
  - exists P. split; [apply presence_refl|].
    destruct (hub_accept_turn p now tx h Hh) as (E & _ & _ & Hend).
    constructor; unfold closed_by_user; rewrite ?E; [done| |done]. intros c. by rewrite Hend, Ho.
  - destruct (hub_main_turn c e h He Hh) as (E & _ & l & b & _ & Hend & _).
    exists (mk_presence (members P) (if b then {[c]} ∪ over P else over P) (inboxes P)). split.
    + destruct b; [apply presence_once, presence_over|]. destruct P. apply presence_refl.
    + constructor; unfold closed_by_user; cbn [members over inboxes]; rewrite ?E; [done| |done].
      intros c'. rewrite Hend. pose proof (Ho c') as Ho'. unfold closed_by_user in Ho'.
      destruct b; [rewrite elem_of_union, elem_of_singleton|]; naive_solver.
  - cbn [hub_step]. destruct (h_signals h) as [|sg l] eqn:E.
    { exists P. split; [apply presence_refl|done]. }
    set (h1 := mk_hub _ _ _ _ _).
    assert (hub_ok h1) as Hh1.
    { destruct Hh as [A B C]. constructor; try done. intros n c Hin. apply B. rewrite E. by right. }
    apply (hub_mgmt_implements (MgmtClient sg) h1 P Hh1 Hp); [..|by destruct Hi].
    + intros n c [= ->]. apply (ok_signals _ Hh). rewrite E. left.
    + intros n [= ->]. apply Hx. rewrite E. left.
  - by apply (hub_mgmt_implements (MgmtSignal sg) h P).
  - by apply (hub_mgmt_implements MgmtTick h P).
  - by apply (hub_mgmt_implements (MgmtSend p) h P).
Qed.

(** ** The registry tells the truth *)

(** What the registry will hold under the name of a connection once the waiting signals are
    handled, and whether the connection runs and is authenticated. *)
Definition present h (c : nat) : option nat :=
  registered_as (nm h c) (clients (h_mgmt h) !! nm h c) (sigs (h_signals h)).

Definition online h (c : nat) : Prop :=
  exists s, h_loops h !! c = Some s /\ is_auth_ok s = true.

Definition truthful h : Prop := forall c, known h c ->
  (present h c = Some c -> online h c) /\
  (online h c -> present h c = Some c \/ closed_by_user h c).

Lemma replicate_new_present name c k o :
  registered_as name o (sigs (replicate k (SigNew name c))) =
  if bool_decide (k <> 0)%nat then Some c else o.
Proof.
  revert o. induction k as [|k IH]; intros o; [done|]. cbn [replicate map registered_as].
  rewrite IH, (bool_decide_eq_true_2 (S k <> 0)%nat), (bool_decide_eq_true_2 (name = name)) by done.
  by destruct (bool_decide _).
Qed.

Lemma present_grow h c c' l : peers_ok (h_peers h) -> known h c -> known h c' -> c' <> c ->
  Forall (fun s => exists n, sig_name s = full_name (hub_peer c' h) n) l ->
  forall o, registered_as (nm h c) o (sigs l) = o.
Proof.
  intros Hp Hc Hc' Hne Hl o. apply registered_as_other. eapply Forall_impl; [exact Hl|].
  intros s [n ->] E. by apply full_name_known in E.
Qed.

Lemma present_signals h loops l exits c :
  present (mk_hub (h_peers h) loops (h_signals h ++ l) (h_mgmt h) exits) c =
  registered_as (nm h c) (present h c) (sigs l).
Proof. unfold present. cbn [h_signals h_mgmt]. by rewrite map_app, registered_as_app. Qed.

(** A turn of a main loop, for the connection itself and for the others. *)
Lemma truthful_main c e h : steady (who c) e -> hub_ok h -> peers_ok (h_peers h) -> truthful h ->
  truthful (hub_step conf on_auth (HubMain c e) h).1.
Proof.
  intros He Hh Hp Ht. cbn [hub_step]. unfold hub_main.
  destruct (h_loops h !! c) as [s|] eqn:El; [|done]. destruct (can_take c e h); [|done].
  destruct (ok_loops _ Hh c s El) as [Hk Hs]. pose proof (Ht c Hk) as [Ht1 Ht2].
  pose proof (client_main_turn (srv_healthy_config conf) c (hub_peer c h) (on_auth c) (who c) e s Hs He)
    as Hturn.
  destruct (client_main _ _ _ _ _ s) as [s' [er|]]; cbn [fst].
  - destruct Hturn as (k & n & Hn & Hcase). intros c' Hk'. change (known h c') in Hk'.
    rewrite present_signals. unfold online at 1 2. cbn [h_loops].
    destruct (decide (c' = c)) as [->|Hne].
    + rewrite lookup_delete_eq. split; [|by intros (? & ? & ?)]. intros Hr. exfalso. revert Hr.
      rewrite Hn, map_app, registered_as_app. fold (nm h c).
      destruct Hcase as [->|[Ha ->]]; cbn [replicate app map registered_as].
      * by rewrite bool_decide_eq_true_2.
      * case_bool_decide; [done|]. intros (s1 & Hl & Ha1)%Ht1. congruence.
    + rewrite lookup_delete_ne by done. rewrite (present_grow h c' c); [by apply Ht|done..|].
      rewrite Hn. apply Forall_app. split; [apply Forall_replicate; by eexists|].
      constructor; [by eexists|done].
  - destruct Hturn as (Hs' & k & Hn & Ha). intros c' Hk'. change (known h c') in Hk'.
    rewrite present_signals. unfold online at 1 2. cbn [h_loops].
    destruct (decide (c' = c)) as [->|Hne].
    + rewrite lookup_insert_eq, Hn. fold (nm h c). rewrite replicate_new_present. split.
      * intros Hr. exists s'. split; [done|]. rewrite Ha. case_bool_decide; [apply orb_true_r|].
        destruct (Ht1 Hr) as (s1 & Hl & Ha1). simplify_eq. by rewrite Ha1.
      * intros (s1 & [= <-] & Ha1). case_bool_decide; [by left|]. rewrite Ha, orb_false_r in Ha1.
        apply Ht2. by exists s.
    + rewrite lookup_insert_ne by done. rewrite (present_grow h c' c); [by apply Ht|done..|].
      rewrite Hn. apply Forall_replicate. by eexists.
Qed.

Lemma truthful_accept p now tx h : hub_ok h -> truthful h ->
  truthful (hub_step conf on_auth (HubAccept p now tx) h).1.
Proof.
  intros Hh Ht. cbn [hub_step]. unfold hub_accept, serve_step.
  destruct (conn_channels_ok conf); cbn [smodify slift fst]; [|done].
  intros c Hk. unfold known in Hk. cbn [h_peers] in Hk. rewrite length_app in Hk. cbn in Hk.
  destruct (decide (c = length (h_peers h))) as [->|Hne].
  - unfold present, online. cbn [h_loops h_signals h_mgmt]. rewrite lookup_insert_eq. split.
    + intros [Hc|Hin]%registered_as_from.
      * apply (ok_clients _ Hh) in Hc as [Hk1 _]. unfold known in Hk1. lia.
      * apply list_elem_of_fmap in Hin as (s & [= <-] & Hin).
        apply (ok_signals _ Hh) in Hin as [Hk1 _]. unfold known in Hk1. lia.
    + by intros (s & [= <-] & ?).
  - assert (known h c) as Hc by (unfold known; lia). specialize (Ht c Hc).
    set (h' := mk_hub _ _ _ _ _). destruct (known_mono h h' [p] c eq_refl Hc) as [_ Hpeer].
    unfold present, online, closed_by_user, nm in *. rewrite Hpeer. subst h'.
    cbn [h_loops h_signals h_mgmt]. by rewrite lookup_insert_ne.
Qed.

(** The registry's own turns: its map changes only by closing, the connections do not. *)
Lemma mgmt_step_user e m : (forall sg, e <> MgmtClient sg) ->
  (forall x, clients (mgmt_step e m).1 !! x = clients m !! x \/
    clients (mgmt_step e m).1 !! x = None /\
    forall c, clients m !! x = Some c -> CloseConn c ∈ mgmt_acts (mgmt_step e m).1) /\
  (forall a, a ∈ mgmt_acts m -> a ∈ mgmt_acts (mgmt_step e m).1).
Proof.
  intros He. destruct e as [[n|]|sg| |p].
  - unfold_mgmt. destruct (clients m !! n) as [c|] eqn:E; cbn [fst clients mgmt_acts];
      (split; [intros x; destruct (decide (n = x)) as [<-|Hne]|set_solver]).
    + right. rewrite lookup_delete_eq. split; [done|]. intros c' E'. simplify_eq. set_solver.
    + left. by rewrite lookup_delete_ne.
    + right. rewrite lookup_delete_eq. split; [done|]. intros c' E'. simplify_eq.
    + left. by rewrite lookup_delete_ne.
  - split; [by left|done].
  - by destruct (He sg).
  - unfold_mgmt. split; [by left|set_solver].
  - unfold_mgmt. split; [by left|set_solver].
Qed.

Lemma truthful_mgmt e h : hub_ok h -> peers_ok (h_peers h) ->
  (forall sg, e <> MgmtClient sg) -> truthful h -> truthful (hub_mgmt e h).1.
Proof.
  intros Hh Hp He Ht c Hk. change (known h c) in Hk. specialize (Ht c Hk) as [Ht1 Ht2].
  destruct (mgmt_step_user e (h_mgmt h) He) as [Hc Hacts]. specialize (Hc (nm h c)).
  unfold present, online, closed_by_user in *. unfold hub_mgmt. cbn [fst].
  change (nm (mk_hub _ _ _ _ _) c) with (nm h c). cbn [h_loops h_signals h_mgmt].
  destruct Hc as [->|[-> Hclose]].
  - split; [exact Ht1|]. intros [Hr|Hx]%Ht2; [by left|right; by apply Hacts].
  - split; [intros Hr; by apply Ht1, registered_as_none|].
    intros [Hr|Hx]%Ht2; [|right; by apply Hacts].
    destruct (clients (h_mgmt h) !! nm h c) as [c'|] eqn:E; [right|by left].
    destruct (ok_clients _ Hh _ _ E) as [Hk' E']. apply (full_name_known h c c') in E' as <-; try done.
    by apply Hclose.
Qed.

Lemma hub_step_truthful e h : steady_hub e -> hub_ok h -> peers_ok (h_peers h) -> truthful h ->
  truthful (hub_step conf on_auth e h).1.
Proof.
  intros He Hh Hp Ht. destruct e as [p now tx|c e| |sg| |p].
  - by apply truthful_accept.
  - by apply truthful_main.
  - cbn [hub_step]. destruct (h_signals h) as [|sg l] eqn:E; [done|].
    intros c Hk. change (known h c) in Hk. destruct (Ht c Hk) as [Ht1 Ht2].
    destruct (mgmt_step_clients (MgmtClient sg) (h_mgmt h) eq_refl) as (m & Em & Hc & _).
    assert (mgmt_acts m = mgmt_acts (h_mgmt h)) as Ha by (destruct sg; by injection Em as <-).
    unfold present, online, closed_by_user in *. unfold hub_mgmt. cbn [h_mgmt]. rewrite Em. cbn [fst].
    change (nm (mk_hub _ _ _ _ _) c) with (nm h c). cbn [h_loops h_signals h_mgmt].
    rewrite Hc, Ha. rewrite E in Ht1, Ht2.
    by rewrite <- (registered_as_app _ _ [MgmtClient sg] (sigs l)).
  - by apply truthful_mgmt.
  - by apply truthful_mgmt.
  - by apply truthful_mgmt.
Qed.

(** ** All runs *)

Lemma hub_run_cons e es h :
  hub_run conf on_auth (e :: es) h =
  match hub_step conf on_auth e h with
  | (h1, Ok _) => hub_run conf on_auth es h1
  | (h1, Err x) => (h1, Err x)
  | (h1, Panic) => (h1, Panic)
  end.
Proof.
  unfold hub_run. cbn [sfor]. unfold mbind, SM_bind.
  by destruct (hub_step conf on_auth e h) as [h1 [[]|x|]].
Qed.

Lemma peers_ok_prefix ps l : peers_ok (ps ++ l) -> peers_ok ps.
Proof.
  intros [Hnd Hp]. apply NoDup_app in Hnd as [Hnd _]. apply Forall_app in Hp as [Hp _]. done.
Qed.

Lemma published_app (l k : list (hub_event QT)) : published (l ++ k) = published l ++ published k.
Proof. apply omap_app. Qed.

(** A turn that stops the server publishes nothing. *)
Lemma published_stopped e h : went_on (hub_step conf on_auth e h).2 = false -> published [e] = [].
Proof. by destruct e. Qed.

(** An invariant of the turns, which may speak of the events handled, on addresses that are never shared, holds of every run. *)
Lemma hub_run_inv (I : list (hub_event QT) -> hub QT -> Prop) es l h :
  (forall e l h, steady_hub e -> hub_ok h -> peers_ok (h_peers h) -> I l h ->
    let r := hub_step conf on_auth e h in I (l ++ if went_on r.2 then [e] else []) r.1) ->
  hub_ok h -> I l h -> Forall steady_hub es -> peers_ok (h_peers h ++ accepted_peers es) ->
  let h' := (hub_run conf on_auth es h).1 in
  hub_ok h' /\ peers_ok (h_peers h') /\ I (l ++ hub_handled conf on_auth es h) h'.
Proof.
  intros HI. revert l h. induction es as [|e es IH]; intros l h Hh Hi Hes Hp.
  { cbn. unfold accepted_peers in Hp. cbn in Hp. rewrite !app_nil_r in *. done. }
  apply Forall_cons in Hes as [He Hes]. rewrite hub_run_cons. cbn [hub_handled]. cbn zeta.
  pose proof (peers_ok_prefix _ _ Hp) as Hp0.
  pose proof (hub_step_ok e h He Hh) as Hh1. pose proof (HI e l h He Hh Hp0 Hi) as Hi1.
  assert (peers_ok (h_peers (hub_step conf on_auth e h).1 ++ accepted_peers es)) as Hp1.
  { unfold accepted_peers in *. cbn [map concat] in Hp.
    destruct (hub_step_peers e h) as [->|(p & Ep & ->)].
    - destruct Hp as [Hnd Hall]. split.
      + eapply sublist_NoDup; [exact Hnd|]. apply sublist_app; [done|]. by apply sublist_inserts_l.
      + rewrite !Forall_app in *. naive_solver.
    - rewrite Ep in Hp. by rewrite <- app_assoc. }
  destruct (hub_step conf on_auth e h) as [h1 [[]|x|]]; cbn [fst snd went_on] in *.
  - destruct (IH (l ++ [e]) h1) as (? & ? & Hi2); [done..|]. by rewrite <- app_assoc in Hi2.
  - split_and!; [done|by eapply peers_ok_prefix|done].
  - split_and!; [done|by eapply peers_ok_prefix|done].
Qed.

(** C7. The server implements its abstract specification. Take any interleaving of accepts,
    turns of main loops, signals, broadcasts and closings in which no two connections ever
    share an address and each connection authenticates under one name only. At every
    moment the server is in a state of a run of the abstract server that published exactly
    the packets the user published so far, in order. So the members are those in the
    registry, under unique names; a connection is over when its main loop ended or the user
    closed it, and only such a connection leaves; and what the registry put in the
    broadcast channel of each connection is what was published while it was a member, in
    order, each once. It says no more of a packet than that it is put in that channel: a
    connection that reads it too slowly loses packets there. *)
Theorem hub_refines_presence (es : list (hub_event QT)) (Hsteady : Forall steady_hub es)
    (Hpeers : peers_ok (accepted_peers es)) :
  exists P, presence_run presence_init (published (hub_handled conf on_auth es hub_init)) P /\
    implements (hub_run conf on_auth es hub_init).1 P.
Proof.
  refine (proj2 (proj2 (proj2 (hub_run_inv (fun l h => exits_ok h /\
    exists P, presence_run presence_init (published l) P /\ implements h P)
    es [] hub_init _ hub_init_ok _ Hsteady Hpeers)))).
  - intros e l h He Hh Hp (Hx & P & Hr & Hi). cbn zeta. rewrite published_app.
    split; [by apply hub_step_exits|].
    destruct (hub_step_implements e h P He Hh Hx Hp Hi) as (P' & Hr' & Hi').
    exists P'. split; [|done]. eapply presence_run_app; [done|].
    destruct (went_on (hub_step conf on_auth e h).2) eqn:E; [done|].
    by rewrite (published_stopped e h E) in Hr'.
  - split; [by intros n ?%not_elem_of_nil|]. exists presence_init. split; [apply presence_refl|].
    constructor; [|intros c|done].
    + intros c n. cbn. by rewrite !lookup_empty.
    + unfold ended, known, closed_by_user. cbn. set_unfold. split; [done|]. intros [[? _]|[]]. lia.
Qed.

(** C20. The registry tells the truth: in every run on addresses that are never shared, with
    connections that each use one name, once the signals waiting for the registry are
    handled, whoever is registered is a running connection, authenticated, under its own
    name; and every running authenticated connection is registered, unless the user closed
    it. *)
Theorem registry_settles (es : list (hub_event QT)) (Hsteady : Forall steady_hub es)
    (Hpeers : peers_ok (accepted_peers es)) :
  let h := (hub_run conf on_auth es hub_init).1 in
  h_signals h = [] ->
  (forall name c, clients (h_mgmt h) !! name = Some c -> name = nm h c /\ online h c) /\
  (forall c, online h c -> clients (h_mgmt h) !! nm h c = Some c \/ closed_by_user h c).
Proof.
  intros h Hq. destruct (hub_run_inv (fun _ => truthful) es [] hub_init
    (fun e _ => hub_step_truthful e) hub_init_ok) as (Hh & _ & Ht);
    [|exact Hsteady|exact Hpeers|].
  { intros c Hk. unfold known in Hk. cbn in Hk. lia. }
  fold h in Hh, Ht. unfold truthful, present in Ht. rewrite Hq in Ht. cbn in Ht. split.
  - intros name c Hc. destruct (ok_clients _ Hh _ _ Hc) as [Hk ->]. split; [done|]. by apply Ht.
  - intros c Ho. apply Ht; [|done]. destruct Ho as (s & Hs & _). by apply (ok_loops _ Hh) in Hs as [? _].
Qed.

End Inv.

(** * Concrete runs *)

#[local] Instance hub_auth_message : Message AuthRequest := countable_message AuthRequest.

Definition hub_conf : LinkServerConfig :=
  {| listen_addr := "0.0.0.0:9494"; srv_healthy_config := HealthyConfig_default;
     srv_channel_config := ChannelConfig_default; srv_buffer_config := BufferConfig_default;
     srv_quiche_config := QuicheConfig_default; srv_timeout_config := TimeoutConfig_default |}.

Definition cb_chan : counted Packet := ([], 8%nat).

Abbreviation hub0_run es :=
  (hub_run hub_conf (fun _ => handler) es (hub_init : hub (counted Packet))).

(** Two clients; one publishes nothing, is closed by the user, and leaves. *)
Definition busy_day : list (hub_event (counted Packet)) :=
  [HubAccept "1.2.3.4:5" 0 cb_chan; HubMain 0 (RecvPacket (auth_as "a" 1) 10); HubClient;
   HubAccept "6.7.8.9:1" 20 cb_chan; HubMain 1 (RecvPacket (auth_as "b" 1) 30);
   HubPublish sample_request; HubClient; HubPublish (subscribe_all 4);
   HubServer (CloseClient "a@1.2.3.4:5"); HubMain 0 ExitSignal; HubClient;
   HubPublish (subscribe_all 5)].

Definition day_names (c : nat) : string := if decide (c = 0%nat) then "a"%string else "b"%string.

Lemma busy_day_steady : Forall (steady_hub day_names) busy_day.
Proof.
  unfold busy_day. repeat (apply List.Forall_cons; [try exact I|]); [..|apply List.Forall_nil].
  all: intros _ a E; vm_compute in E; by injection E as <-.
Qed.

Lemma busy_day_peers : peers_ok (accepted_peers busy_day).
Proof. split; [apply (bool_decide_unpack _); by vm_compute|]. repeat constructor. Qed.

Lemma hub_refines_presence_witness :
  let h := (hub0_run busy_day).1 in
  broadcasts 0 (mgmt_acts (h_mgmt h)) = [sample_request; subscribe_all 4] /\
  broadcasts 1 (mgmt_acts (h_mgmt h)) = [subscribe_all 4; subscribe_all 5] /\
  exists P, presence_run presence_init (published (hub_handled hub_conf (fun _ => handler) busy_day hub_init)) P /\
    implements h P.
Proof.
  intros h. split; [vm_compute; reflexivity|]. split; [vm_compute; reflexivity|].
  apply (hub_refines_presence hub_conf (fun _ => handler) day_names busy_day);
    [apply busy_day_steady|apply busy_day_peers].
Defined.

Lemma registry_settles_witness :
  let h := (hub0_run busy_day).1 in
  map_to_list (clients (h_mgmt h)) = [("b@6.7.8.9:1"%string, 1%nat)] /\
  (forall name c, clients (h_mgmt h) !! name = Some c -> name = nm day_names h c /\ online h c) /\
  (forall c, online h c -> clients (h_mgmt h) !! nm day_names h c = Some c \/ closed_by_user h c).
Proof.
  intros h. split; [vm_compute; reflexivity|].
  apply (registry_settles hub_conf (fun _ => handler) day_names busy_day);
    [apply busy_day_steady|apply busy_day_peers|vm_compute; reflexivity].
Defined.

(** A client that comes back from the same address, under the same name, while the end of its
    former connection is still on its way. *)
Definition comes_back : list (hub_event (counted Packet)) :=
  [HubAccept "1.2.3.4:5" 0 cb_chan; HubMain 0 (RecvPacket (auth_as "a" 1) 10); HubClient;
   HubAccept "1.2.3.4:5" 20 cb_chan; HubMain 1 (RecvPacket (auth_as "a" 1) 30); HubClient;
   HubMain 0 RecvClosed; HubClient; HubPublish sample_request].

(** A late end unregisters the wrong connection: entries of the registry are removed by
    name alone, so when a client came back from the same address under the same name before
    the end of its former connection was announced, that announcement removes the new
    connection: it runs, is authenticated, was closed by nobody, no signal is waiting, and
    it gets no broadcast any more. *)
Theorem stale_exit_unregisters :
  let h := (hub0_run comes_back).1 in
  (hub0_run comes_back).2 = Ok tt /\ h_signals h = [] /\
  online h 1 /\ ~ closed_by_user h 1 /\
  clients (h_mgmt h) = ∅ /\ broadcasts 1 (mgmt_acts (h_mgmt h)) = [].
Proof.
  intros h. split_and!; try (vm_compute; reflexivity).
  - eexists. split; vm_compute; reflexivity.
  - unfold closed_by_user. replace (mgmt_acts (h_mgmt h)) with (@nil mgmt_action)
      by (vm_compute; reflexivity). apply not_elem_of_nil.
Qed.
