(* ===== verification/Session.v ===== *)
(** One client and its connection to the server, together: the client's two tasks
    ([link/src/client.rs]), the server's main loop for the connection ([link/src/server.rs])
    and the user's handler there, which may send anything to the peer.

    Between them the link keeps packets whole and in order ([EndToEnd]): it is a queue each
    way. Upwards it is what the client handed to its transport, of which the server has taken
    some; downwards it is what the server's side handed to its own, of which the client has
    taken some. *)

From Stdlib Require Import ZArith Lia Strings.Byte.
From stdpp Require Import base list strings gmap.
From S2P Require Import Prelude Deku Protos Packets Channel Config Client Server.

Record session (R PT IT QT : Type) : Type := mk_session {
  se_client : client_state R PT IT;
  se_server : main_state QT;
  se_taken : nat;
  se_down : list Packet;
  se_seen : nat
}.
Arguments mk_session {R PT IT QT}.
Arguments se_client {R PT IT QT}.
Arguments se_server {R PT IT QT}.
Arguments se_taken {R PT IT QT}.
Arguments se_down {R PT IT QT}.
Arguments se_seen {R PT IT QT}.

Inductive session_event (R : Type) : Type :=
(** a turn of a task of the client ([None]: the consumer task), not a packet from the peer *)
| SeClient (e : option (data_event R))
(** the server's main loop takes the client's next packet *)
| SeUp (now : Z)
(** its ticker, the exit signal, the end of the connection *)
| SeServer (e : main_event)
(** the user's handler sends a packet *)
| SeHandler (packet : Packet)
(** the client takes the server's next packet *)
| SeDown (now unix : Z).
Arguments SeClient {R}.
Arguments SeUp {R}.
Arguments SeServer {R}.
Arguments SeHandler {R}.
Arguments SeDown {R}.

Inductive session_end : Type :=
| ClientEnd (e : data_exit)
| ServerEnd (e : main_error).

Definition new_replies (n : nat) (acts : list main_action) : list Packet :=
  omap (fun a => match a with SendPeer p => Some p | _ => None end) (drop n acts).

Section Session.
Context {R PT IT QT : Type} `{TrySender PT Packet} `{!Sender IT Packet}.
Context `{Sender QT Packet, !TrySender QT Packet}.
Context `{!Message AuthRequest, !Message SubscribeRequest, !Message Heartbeat,
  !Message LinkError}.
Context (conf : LinkClientConfig) (srv : HealthyConfig) (conn : nat) (peer_addr : string).
Context (on_auth : Z -> AuthInfo -> bool).

Abbreviation Se := (session R PT IT QT).
Abbreviation SeM := (SM Se session_end unit).

Definition client_turn (e : option (data_event R)) : SeM := fun s =>
  let r := link_step conf e (se_client s) in
  (mk_session r.1 (se_server s) (se_taken s) (se_down s) (se_seen s),
   match r.2 with Ok a => Ok a | Err e => Err (ClientEnd e) | Panic => Panic end).

Definition server_turn (e : main_event) : SeM := fun s =>
  let n := length (main_acts (se_server s)) in
  let r := main_step srv conn peer_addr on_auth e (se_server s) in
  (mk_session (se_client s) r.1 (se_taken s) (se_down s ++ new_replies n (main_acts r.1))
     (se_seen s),
   match r.2 with Ok a => Ok a | Err e => Err (ServerEnd e) | Panic => Panic end).

Definition session_step (e : session_event R) : SeM :=
  match e with
  | SeClient (Some (Recv _ _ _)) => mret tt
  | SeClient e => client_turn e
  | SeUp now => fun s =>
      match accepted (inner_request_tx (se_client s)) !! se_taken s with
      | Some p =>
          server_turn (RecvPacket p now)
            (mk_session (se_client s) (se_server s) (S (se_taken s)) (se_down s) (se_seen s))
      | None => (s, Ok tt)
      end
  | SeServer (RecvPacket _ _) => mret tt
  | SeServer e => server_turn e
  | SeHandler packet => smodify (fun s =>
      mk_session (se_client s) (se_server s) (se_taken s) (se_down s ++ [packet]) (se_seen s))
  | SeDown now unix => fun s =>
      match se_down s !! se_seen s with
      | Some p =>
          client_turn (Some (Recv p now unix))
            (mk_session (se_client s) (se_server s) (se_taken s) (se_down s) (S (se_seen s)))
      | None => (s, Ok tt)
      end
  end.

Definition session_run : list (session_event R) -> SeM := sfor session_step.

(** A new connection of a client that may have had others, and its main loop. *)
Definition session_init (c : connection R IT) (id : Z) (s : client_state R PT IT) (now : Z)
    (tx : QT) : Se :=
  mk_session
    (start_conn c (new_auth id (username conf) (conf_password conf) (conf_client_name conf)) s)
    (main_init peer_addr now tx) 0 [] 0.

End Session.
