(* ===== verification/SessionFacts.v ===== *)
(** A client and its connection to the server agree: whoever the server has authenticated is
    this client under its configured name, round-trip times are true, and nothing panics. *)

From Stdlib Require Import ZArith Lia Strings.Byte.
From stdpp Require Import base list strings gmap.
From S2P Require Import Prelude Deku Protos Packets Wire Quotation Channel Config Client.
From S2P Require Import ClientFacts Server ServerFacts HubFacts Session.

#[local] Set Warnings "-clear-no-such-hyp".

Section Session.
Context {R PT IT QT : Type} `{TrySender PT Packet} `{!Sender IT Packet}.
Context `{Sender QT Packet, !TrySender QT Packet}.
Context `{!SenderLaws PT Packet, !TrySenderLaws PT Packet, !SenderLaws IT Packet}.
Context `{!Message AuthRequest, !Message SubscribeRequest, !Message Heartbeat,
  !Message LinkError}.
Context `{!MessageLaws AuthRequest, !MessageLaws Heartbeat}.
Context (conf : LinkClientConfig) (srv : HealthyConfig) (conn : nat) (peer_addr : string).
Context (on_auth : Z -> AuthInfo -> bool).
(** The id the connection authenticates with, and the clock when it started. *)
Context (id0 lo : Z).

Abbreviation St := (client_state R PT IT).

Definition creds : AuthInfo :=
  {| user_name := username conf; password := conf_password conf;
     Protos.client_name := conf_client_name conf |}.

Definition auth_packet : Packet :=
  new_auth id0 (username conf) (conf_password conf) (conf_client_name conf).

(** What may travel upwards and downwards, the clock being at [hi]: heartbeats carry a reading
    of the clock since the start, and authentication requests are the client's own. *)
Definition stamped (hi : Z) (body : list byte) : Prop :=
  exists t, decode body = Some {| timestamp := t |} /\ lo <= t <= hi.

Definition up_packet (hi : Z) (p : Packet) : Prop :=
  match p with
  | PRequest r =>
      (req_command r = Heartbeat_ -> stamped hi (req_body r)) /\
      (req_command r = Auth -> req_id r = request_id_trim id0 /\
         decode (req_body r) = Some {| auth_info := Some creds |})
  | _ => True
  end.

Definition down_packet (hi : Z) (p : Packet) : Prop :=
  match p with
  | PResponse r => resp_command r = Heartbeat_ -> stamped hi (resp_body r)
  | _ => True
  end.

Definition rtt_ok (hi : Z) (a : action R) : Prop :=
  match a with RttCost d => 0 <= d <= hi - lo | _ => True end.

(** ** The client's side *)

(** What a turn of the client says to the server, and records. *)
Definition says (hi : Z) : relation St := fun s s' =>
  conn_auth_packet s = auth_packet -> conn_auth_packet s' = auth_packet /\
  (exists l, accepted (inner_request_tx s') = accepted (inner_request_tx s) ++ l /\
    Forall (up_packet hi) l) /\
  exists k, acts s' = acts s ++ k /\ Forall (rtt_ok hi) k.

#[local] Instance says_preorder hi : PreOrder (says hi).
Proof.
  constructor.
  - intros s Ha. split; [done|]. split; exists []; rewrite app_nil_r; by split.
  - intros s1 s2 s3 H12 H23 Ha. destruct (H12 Ha) as (Ha2 & (l & El & Hl) & k & Ek & Hk).
    destruct (H23 Ha2) as (Ha3 & (l' & El' & Hl') & k' & Ek' & Hk'). split; [done|]. split.
    + exists (l ++ l'). rewrite El', El, app_assoc. split; [done|]. by apply Forall_app.
    + exists (k ++ k'). rewrite Ek', Ek, app_assoc. split; [done|]. by apply Forall_app.
Qed.

(** Changes that neither speak nor record. *)
Lemma says_same hi (s s' : St) : conn_auth_packet s' = conn_auth_packet s ->
  inner_request_tx s' = inner_request_tx s -> acts s' = acts s -> says hi s s'.
Proof.
  intros A B C Ha. rewrite A, B, C. split; [done|]. split; exists []; rewrite app_nil_r; by split.
Qed.

Lemma says_add_act hi a (s : St) : rtt_ok hi a -> says hi s (add_act a s).
Proof.
  intros Hok Ha. split; [done|]. split; [exists []; rewrite app_nil_r; by split|].
  exists [a]. split; [done|]. by constructor.
Qed.

Lemma keeps_act {E} hi a : rtt_ok hi a -> keeps (says hi) (act (E:=E) a : SM St E unit).
Proof. intros Ha. apply keeps_modify. intros s. by apply says_add_act. Qed.

Lemma keeps_draw {E} hi : keeps (says hi) (draw_id (E:=E) : SM St E Z).
Proof.
  intros s. rewrite draw_id_eq. etrans; [by apply (says_same hi s (set_id_gen (wrap_u32 (request_id_gen s + 1)) s))|].
  by apply says_add_act.
Qed.

Lemma keeps_inner hi p : up_packet hi p -> keeps (says hi) (inner_send p : SM St data_exit bool).
Proof.
  intros Hp. apply keeps_get. intros s. destruct (send p (inner_request_tx s)) as [tx|] eqn:E; [|reflexivity].
  intros Ha. cbn. split; [done|]. split; [|exists []; rewrite app_nil_r; by split].
  exists [p]. split; [by apply send_accepted|by constructor].
Qed.

Lemma keeps_quiet {E} hi f : (forall s : St, conn_auth_packet (f s) = conn_auth_packet s /\
    inner_request_tx (f s) = inner_request_tx s /\ acts (f s) = acts s) ->
  keeps (says hi) (smodify (E:=E) f).
Proof. intros Hf. apply keeps_modify. intros s. destruct (Hf s) as (? & ? & ?). by apply says_same. Qed.

#[local] Hint Resolve keeps_act keeps_draw keeps_inner : core.

Ltac say :=
  match goal with
  | |- keeps _ (sget _ ≫= _) => apply keeps_get; intros ?s; cbn beta
  | |- keeps _ (_ ≫= _) => apply keeps_bind; [apply _| |intros ?]
  | |- keeps _ (mret _) => apply keeps_ret, _
  | |- keeps _ (sfail _) => apply keeps_fail, _
  | |- keeps _ (broke _) => apply keeps_fail, _
  | |- keeps _ (slift _) => apply keeps_lift, _
  | |- keeps _ (smodify _) => by apply keeps_quiet
  | |- keeps _ draw_id => apply keeps_draw
  | |- keeps _ (if ?b then _ else _) => destruct b
  end.

Lemma keeps_process hi p : keeps (says hi) (process_send p : SM St data_exit bool).
Proof. unfold process_send. apply keeps_get. intros s. destruct (send p _); [|reflexivity]. by apply says_same. Qed.

Lemma keeps_try hi p : keeps (says hi) (try_process p : SM St data_exit unit).
Proof.
  unfold try_process. apply keeps_get. intros s. cbn zeta.
  destruct (try_send p (packet_process_tx s)) as [tx []]; cbn [fst snd]; unfold mbind, SM_bind, smodify.
  - by apply says_same.
  - etrans; [by apply (says_same hi s (set_process tx s))|]. by apply says_add_act.
  - by apply says_same.
Qed.

(** The user's calls queue nothing the client manages itself ([send_request_spec]); the
    configuration asks for subscriptions only. *)
Definition api_packet (p : Packet) : Prop :=
  match p with PRequest r => req_command r <> Heartbeat_ /\ req_command r <> Auth | _ => True end.

Definition plain_subscribes : Prop :=
  Forall (fun sub => sub_cmd sub <> Heartbeat_ /\ sub_cmd sub <> Auth) (subscribes conf).

Lemma api_up hi p : api_packet p -> up_packet hi p.
Proof. destruct p as [r|r|r]; cbn; [|done..]. intros [A B]. by split; intros E. Qed.

Lemma auth_up hi : up_packet hi auth_packet.
Proof. cbn. split; [done|]. intros _. by rewrite decode_encode. Qed.

Lemma heartbeat_up hi unix id : lo <= unix <= hi -> up_packet hi (new_heartbeat unix id).
Proof. intros Hu. cbn. split; [|done]. intros _. exists unix. by rewrite decode_encode. Qed.

Lemma keeps_subscribes hi subs : Forall (fun sub => sub_cmd sub <> Heartbeat_ /\ sub_cmd sub <> Auth) subs ->
  forall s : St, match new_subscribes subs s with
    | (s', Ok ps) => says hi s s' /\ Forall (up_packet hi) ps
    | (s', _) => says hi s s'
    end.
Proof.
  induction 1 as [|sub subs [Hh Ha] _ IH]; intros s; cbn [new_subscribes].
  { split; [reflexivity|constructor]. }
  unfold mbind, SM_bind. pose proof (keeps_draw (E:=data_exit) hi s) as Hd.
  rewrite draw_id_eq in *. cbn [fst] in Hd. specialize (IH (drawn_once s)).
  destruct (new_subscribes subs (drawn_once s)) as [s1 [ps|e|]]; [|by etrans..].
  destruct IH as [Hs Hps]. split; [by etrans|]. constructor; [|done]. by apply api_up.
Qed.

Context (Hsubs : plain_subscribes) (Hlo : 0 <= lo).

Definition auth_success (p : Packet) : Prop :=
  match p with PResponse r => resp_command r = Auth /\ resp_status r = Success | _ => False end.

(** What may happen to the client, the clock being at [hi] afterwards. *)
Definition client_event_ok (hi : Z) (e : option (data_event R)) : Prop :=
  match e with
  | Some (PingTick _ unix) => lo <= unix <= hi
  | Some (SendPacket p _ _) => api_packet p
  | Some (Recv p _ unix) => down_packet unix p /\ unix <= hi
  | _ => True
  end.

Lemma keeps_recv_auth hi (r : Response) : keeps (says hi) (
  smodify (set_authed true) ≫= fun _ =>
  ok ← process_send (PResponse r);
  if ok : bool then
    sub_packets ← new_subscribes (subscribes conf);
    sfor send_subscribe sub_packets
  else broke AuthProcessSendFailed : SM St data_exit unit).
Proof.
  say; [say|]. apply keeps_bind; [apply _|apply keeps_process|]. intros []; [|say].
  intros s. unfold mbind, SM_bind. pose proof (keeps_subscribes hi (subscribes conf) Hsubs s) as Hk.
  destruct (new_subscribes _ s) as [s1 [ps|e|]]; [|done..]. destruct Hk as [Hk Hps].
  etrans; [exact Hk|]. clear Hk. revert s1. change (keeps (says hi) (sfor send_subscribe ps : SM St data_exit unit)).
  induction Hps as [|p ps Hp _ IH]; cbn [sfor]; [say|]. say; [|done].
  unfold send_subscribe. say; [by apply keeps_inner|]. repeat say.
Qed.

Lemma link_step_says hi e : hi < 2 ^ 63 -> client_event_ok hi e -> keeps (says hi) (link_step conf e).
Proof.
  intros Hhi He. destruct e as [e|].
  - destruct e as [|[]|now unix|[m]|p w locked|p now unix| | |]; cbn [link_step data_step on_signal];
      try (by repeat say).
    + unfold on_ping_tick. say. apply keeps_bind; [apply _|by repeat say|intros _].
      apply keeps_bind; [apply _|apply keeps_draw|]. intros id.
      apply keeps_bind; [apply _|by apply keeps_inner, heartbeat_up|]. intros ok. by say; say.
    + say; [by apply keeps_act|say].
    + unfold on_send_packet. apply keeps_bind; [apply _|by apply keeps_inner, api_up|]. intros []; [|say].
      destruct locked, p, w; repeat say; by apply keeps_act.
    + destruct He as [Hp Hu]. unfold on_recv. say; [say|].
      destruct p as [r|r|r]; try apply keeps_try. destruct (resp_command r) eqn:Ec; try apply keeps_try.
      * destruct (bool_decide _); [apply keeps_recv_auth|say].
      * destruct (Hp Ec) as (t & -> & Ht). cbn [timestamp].
        assert (isub64 (E:=data_exit) unix t = Ok (unix - t)) as -> by
          (unfold isub64; repeat zcase; try done; lia).
        change (keeps (says hi) (act (RttCost (wrap_u64 (unix - t))) : SM St data_exit unit)).
        apply keeps_act. cbn. unfold wrap_u64. rewrite Z.mod_small; unfold usize_bound; lia.
    + intros s Ha. assert (keeps (says hi) (inner_send auth_packet ≫= fun _ => mret tt : SM St data_exit unit)) as Hk
        by (say; [apply keeps_inner, auth_up|say]).
      specialize (Hk s Ha). cbn [link_step data_step]. change ((p ← sget conn_auth_packet; inner_send p ≫= fun _ => mret tt) s)
        with ((inner_send (conn_auth_packet s) ≫= fun _ => mret tt : SM St data_exit unit) s). rewrite Ha. exact Hk.
  - intros s. cbn [link_step]. rewrite consume_eq. cbn [fst].
    destruct (_ !! _) as [p|]; [|reflexivity]. destruct p as [r|r|r]; cbn [consume_state].
    + etrans; [|by apply says_add_act]. by apply says_same.
    + etrans; [|apply says_add_act; destruct (_ !! _); [done|]; unfold unclaimed; by case_match].
      by apply says_same.
    + etrans; [|by apply says_add_act]. etrans; [|by apply says_add_act]. by apply says_same.
Qed.

Lemma link_step_calm hi e (s : St) : hi < 2 ^ 63 -> client_event_ok hi e -> (link_step conf e s).2 <> Panic.
Proof.
  intros Hhi He Hp. destruct e as [e|]; cbn [link_step] in Hp; [|by rewrite consume_eq in Hp].
  destruct (data_step_panic conf e s Hp) as (r & now & unix & hb & -> & Hc & Hd & Hno).
  destruct He as [Hr Hu]. destruct (Hr Hc) as (t & Ht & Hlt). rewrite Hd in Ht. simplify_eq.
  apply Hno. cbn. lia.
Qed.

(** A turn that leaves the client authenticated found it so, or took the news. *)
Lemma link_step_authed e (s : St) : is_authed (link_step conf e s).1 = true ->
  is_authed s = true \/ exists p now unix, e = Some (Recv p now unix) /\ auth_success p.
Proof.
  set (I := fun s s' : St => is_authed s' = is_authed s).
  assert (closed (fun _ => True) False I) as HI.
  { constructor; [constructor|]; try done.
    { constructor; [done|]. intros a b c. unfold I. congruence. }
    intros t. unfold I. rewrite consume_eq. cbn [fst].
    by destruct (_ !! _) as [[]|]. }
  assert (forall p (t : St), is_authed (try_process p t).1 = is_authed t) as Htry
    by (intros p t; by apply (try_process_keeps _ _ I HI p Logic.I t)).
  destruct e as [e|]; [|intros Ha; left; rewrite <- Ha; symmetry; apply (closed_consume _ _ I HI)].
  assert (received e = [] -> I s (data_step conf e s).1) as Hk
    by (intros E; apply (data_step_keeps conf _ _ I HI); by rewrite E).
  cbn [link_step]. destruct e as [| | | | |p now unix| | |];
    try (intros Ha; left; rewrite <- Ha; symmetry; by apply Hk).
  clear Hk. cbn [data_step]. unfold on_recv, mbind at 1, SM_bind at 1, smodify at 1.
  destruct p as [r|r|r]; try (rewrite Htry; by left).
  destruct (resp_command r) eqn:Ec; try (rewrite Htry; by left).
  - destruct (bool_decide_reflect (resp_status r = Success)); [|by left].
    intros _. right. by eexists _, _, _.
  - destruct (decode _); [|by left]. unfold slift, isub64, mbind, SM_bind. destruct (_ && _); by left.
Qed.

(** ** The server's side *)

Definition act_ok (hi : Z) (a : main_action) : Prop :=
  match a with
  | OnAuth id info ok => info = creds /\ ok = on_auth (request_id_trim id0) creds
  | SendPeer p => down_packet hi p /\ ~ auth_success p
  | _ => True
  end.

Definition acted (hi : Z) : relation (main_state QT) := fun s s' =>
  exists k, main_acts s' = main_acts s ++ k /\ Forall (act_ok hi) k.

#[local] Instance acted_preorder hi : PreOrder (acted hi).
Proof.
  constructor; [intros s; exists []; rewrite app_nil_r; by split|].
  intros s1 s2 s3 (k & E & Hk) (k' & E' & Hk'). exists (k ++ k').
  rewrite E', E, app_assoc. split; [done|]. by apply Forall_app.
Qed.

Lemma keeps_main_act hi a : act_ok hi a -> keeps (acted hi) (main_add (QT:=QT) a).
Proof. intros Ha. apply keeps_modify. intros s. exists [a]. split; [done|]. by constructor. Qed.

Lemma keeps_main_same {E} hi f : (forall s : main_state QT, main_acts (f s) = main_acts s) ->
  keeps (acted hi) (smodify (E:=E) f).
Proof. intros Hf. apply keeps_modify. intros s. exists []. rewrite app_nil_r. by split. Qed.

Lemma keeps_forward hi p : keeps (acted hi) (forward (QT:=QT) p).
Proof.
  apply keeps_get. intros s. apply keeps_bind; [apply _|by apply keeps_main_same|intros _].
  destruct (try_send p (recved_packet_tx s)).2; try (apply keeps_ret, _). by apply keeps_main_act.
Qed.

Lemma main_step_acted hi e : (forall p now, e = RecvPacket p now -> up_packet hi p) ->
  keeps (acted hi) (main_step srv conn peer_addr on_auth e).
Proof.
  intros He. destruct e as [now| |p now|]; cbn [main_step]; try (apply keeps_fail, _).
  - apply keeps_get. intros s. destruct (is_auth_ok s), (_ <? _);
      first [apply keeps_ret|apply keeps_fail]; apply _.
  - specialize (He p now eq_refl). apply keeps_bind; [apply _|by apply keeps_main_same|intros _].
    destruct p as [r|r|r]; try apply keeps_forward. destruct He as [Hh Ha].
    destruct (req_command r) eqn:Ec; try apply keeps_forward.
    + destruct (Ha eq_refl) as [Hid Hd]. intros s. rewrite on_auth_request_eq, Hd. cbn.
      eexists. split; [done|]. constructor; [by rewrite Hid|]. destruct (on_auth _ _); by repeat constructor.
    + apply keeps_main_act. cbn. split; [|by intros [? _]]. intros _. by apply Hh.
Qed.

Lemma main_step_calm e s : (main_step srv conn peer_addr on_auth e s).2 <> Panic.
Proof.
  destruct e as [now| |p now|]; cbn [main_step]; try done.
  - unfold on_heartbeat_tick, mbind, SM_bind, sget. by destruct (is_auth_ok s), (_ <? _).
  - unfold on_packet, set_ping, mbind at 1, SM_bind at 1, smodify at 1.
    assert (forall q t, (forward q t).2 <> Panic) as Hf.
    { intros q t. unfold forward, main_queue, main_add, mbind, SM_bind, sget, smodify.
      by destruct (try_send q (recved_packet_tx t)) as [tx []]. }
    destruct p as [r|r|r]; try apply Hf. destruct (req_command r); try apply Hf; [|done].
    rewrite on_auth_request_eq. by destruct (decode _).
Qed.

Lemma is_auth_ok_stays e s : living conn peer_addr s -> is_auth_ok s = true ->
  is_auth_ok (main_step srv conn peer_addr on_auth e s).1 = true.
Proof.
  intros Hl Ha. pose proof (main_step_living srv conn peer_addr on_auth e s Hl) as Hl'.
  rewrite (living_auth _ _ _ Hl) in Ha. rewrite (living_auth _ _ _ Hl').
  destruct (main_step_extends srv conn peer_addr on_auth e s) as [k ->].
  unfold verdicts in *. by rewrite omap_app, existsb_app, Ha.
Qed.

(** ** Together *)

(** The client before the connection. *)
Context (s0 : St).
Abbreviation Se := (session R PT IT QT).

(** The clock after an event; clocks never run backwards, nor past what an [i64] holds. *)
Definition event_time (hi : Z) (e : session_event R) : Z :=
  match e with SeClient (Some (PingTick _ unix)) | SeDown _ unix => unix | _ => hi end.

(** The server is about to accept the client: what it takes next is an authentication request
    its [on_auth] accepts. While [on_auth] runs the request has been taken and its verdict is not
    recorded yet; a handler that answers from within [on_auth], as that of
    [examples/server.rs] does, sends its answer then. *)
Definition judging (s : Se) : bool :=
  match accepted (inner_request_tx (se_client s)) !! se_taken s with
  | Some (PRequest r) => bool_decide (req_command r = Auth) &&
      match decode (req_body r) with
      | Some a => on_auth (req_id r) (default AuthInfo_default (auth_info a))
      | None => false
      end
  | _ => false
  end.

(** The server has accepted the client, or is about to. *)
Definition recognised (s : Se) : bool := is_auth_ok (se_server s) || judging s.

(** What is asked of the users: callers queue nothing the client manages itself, which
    [send_request] refuses; the server's handler leaves heartbeats alone and announces only
    authentications that its [on_auth] accepted, or is about to accept. *)
Definition fair_event (hi : Z) (s : Se) (e : session_event R) : Prop :=
  hi <= event_time hi e < 2 ^ 63 /\
  match e with
  | SeClient (Some (SendPacket p _ _)) => api_packet p
  | SeHandler p =>
      match p with PResponse r => resp_command r <> Heartbeat_ | _ => True end /\
      (auth_success p -> recognised s = true)
  | _ => True
  end.

Record session_ok (hi : Z) (s : Se) : Prop := {
  so_time : lo <= hi < 2 ^ 63;
  so_auth : conn_auth_packet (se_client s) = auth_packet;
  so_up : Forall (up_packet hi) (accepted (inner_request_tx (se_client s)));
  so_acts : exists k, acts (se_client s) = acts s0 ++ k /\ Forall (rtt_ok hi) k;
  so_living : living conn peer_addr (se_server s);
  so_main : Forall (act_ok hi) (main_acts (se_server s));
  so_down : Forall (down_packet hi) (se_down s);
  so_success : Forall (fun p => auth_success p -> recognised s = true) (se_down s);
  so_authed : is_authed (se_client s) = true -> recognised s = true
}.

(** Once accepted, or about to be, so it stays. *)
Lemma recognised_client s (c : St) n : recognised s = true ->
  (exists l, accepted (inner_request_tx c) = accepted (inner_request_tx (se_client s)) ++ l) ->
  recognised (mk_session c (se_server s) (se_taken s) (se_down s) n) = true.
Proof.
  unfold recognised, judging. cbn. intros Hr [l El]. rewrite El.
  destruct (accepted (inner_request_tx (se_client s)) !! se_taken s) as [p|] eqn:E.
  - by rewrite (lookup_app_l_Some _ _ _ _ E).
  - rewrite orb_false_r in Hr. by rewrite Hr.
Qed.

Lemma recognised_server e s : living conn peer_addr (se_server s) -> recognised s = true ->
  recognised (server_turn srv conn peer_addr on_auth e s).1 = true.
Proof.
  unfold recognised, judging. cbn. intros Hl [Hr|Hr]%orb_true_iff; [by rewrite is_auth_ok_stays|].
  by rewrite Hr, orb_true_r.
Qed.

(** Taking the request that is about to be accepted, the server accepts the client. *)
Lemma recognised_up p now s n : living conn peer_addr (se_server s) ->
  accepted (inner_request_tx (se_client s)) !! se_taken s = Some p -> recognised s = true ->
  recognised (server_turn srv conn peer_addr on_auth (RecvPacket p now)
    (mk_session (se_client s) (se_server s) n (se_down s) (se_seen s))).1 = true.
Proof.
  unfold recognised, judging. cbn [server_turn fst se_server se_client se_taken]. intros Hl E.
  rewrite E. intros [Hr|Hr]%orb_true_iff; [by rewrite is_auth_ok_stays|].
  destruct p as [r|r|r]; [|done..]. apply andb_prop in Hr as [Hc Hv].
  apply bool_decide_eq_true_1 in Hc. cbn [main_step]. unfold on_packet, set_ping, mbind at 1, SM_bind at 1, smodify.
  rewrite Hc, on_auth_request_eq. destruct (decode (req_body r)) as [a|]; [|done]. cbn [fst].
  unfold auth_state. cbn. by rewrite Hv, orb_true_r.
Qed.

Lemma stamped_mono hi hi' body : hi <= hi' -> stamped hi body -> stamped hi' body.
Proof. intros Hle (t & E & Ht). exists t. split; [done|lia]. Qed.

Lemma up_packet_mono hi hi' p : hi <= hi' -> up_packet hi p -> up_packet hi' p.
Proof. destruct p; [|done..]. intros Hle [Hh Ha]. split; [|done]. intros E. by eapply stamped_mono, Hh. Qed.

Lemma down_packet_mono hi hi' p : hi <= hi' -> down_packet hi p -> down_packet hi' p.
Proof. destruct p; [done| |done]. intros Hle Hh E. by eapply stamped_mono, Hh. Qed.

Lemma act_ok_mono hi hi' a : hi <= hi' -> act_ok hi a -> act_ok hi' a.
Proof. destruct a; try done. intros Hle [Hp Hn]. split; [|done]. by eapply down_packet_mono. Qed.

Lemma rtt_ok_mono hi hi' a : hi <= hi' -> rtt_ok hi a -> rtt_ok hi' a.
Proof. destruct a; try done. cbn. lia. Qed.

Lemma session_ok_mono hi hi' s : hi <= hi' < 2 ^ 63 -> session_ok hi s -> session_ok hi' s.
Proof.
  intros Hle [Ht Hau Hup (k & Ek & Hk) Hl Hm Hd Hs Ha]. constructor; try done.
  - lia.
  - eapply Forall_impl; [exact Hup|]. intros p. apply up_packet_mono. lia.
  - exists k. split; [done|]. eapply Forall_impl; [exact Hk|]. intros a. apply rtt_ok_mono. lia.
  - eapply Forall_impl; [exact Hm|]. intros a. apply act_ok_mono. lia.
  - eapply Forall_impl; [exact Hd|]. intros p. apply down_packet_mono. lia.
Qed.

Lemma client_turn_ok hi e s : session_ok hi s -> client_event_ok hi e ->
  (forall p now unix, e = Some (Recv p now unix) -> auth_success p -> recognised s = true) ->
  session_ok hi (client_turn conf e s).1 /\ (client_turn conf e s).2 <> Panic.
Proof.
  intros [Ht Hau Hup (k & Ek & Hk) Hl Hm Hd Hs Ha] He Hp. split.
  - destruct (link_step_says hi e (proj2 Ht) He (se_client s) Hau) as (Hau' & (l & El & Hl') & k' & Ek' & Hk').
    assert (recognised s = true -> recognised (client_turn conf e s).1 = true) as Hstay
      by (intros Hr; apply recognised_client; [done|by exists l]).
    constructor; try done; cbn [client_turn fst se_client se_server se_down]; try done.
    + rewrite El. by apply Forall_app.
    + exists (k ++ k'). rewrite Ek', Ek, app_assoc. split; [done|]. by apply Forall_app.
    + eapply Forall_impl; [exact Hs|]. intros p Hps Hp'. by apply Hstay, Hps.
    + intros Hc. apply Hstay.
      apply link_step_authed in Hc as [Hc|(p & now & unix & -> & Hs')]; [by apply Ha|by eapply Hp].
  - pose proof (link_step_calm hi e (se_client s) (proj2 Ht) He). unfold client_turn. cbn [snd].
    by destruct (link_step conf e (se_client s)).2.
Qed.

(** [t] is [s], or [s] less the packet taken. *)
Lemma server_turn_ok hi e s n : session_ok hi s -> (forall p now, e = RecvPacket p now -> up_packet hi p) ->
  let t := mk_session (se_client s) (se_server s) n (se_down s) (se_seen s) in
  let r := server_turn srv conn peer_addr on_auth e t in
  (recognised s = true -> recognised r.1 = true) -> session_ok hi r.1 /\ r.2 <> Panic.
Proof.
  intros [Ht Hau Hup Hk Hl Hm Hd Hs Ha] He t r Hst. split.
  - destruct (main_step_acted hi e He (se_server s)) as (k & Ek & Hok).
    assert (Forall (fun p => down_packet hi p /\ ~ auth_success p) (new_replies (length (main_acts (se_server s)))
      (main_acts (main_step srv conn peer_addr on_auth e (se_server s)).1))) as Hnew.
    { unfold new_replies. rewrite Ek, drop_app_length. clear -Hok. induction Hok as [|[] k Ha _ IH]; cbn; try done.
      by constructor. }
    constructor; subst r t; cbn [server_turn fst se_client se_server se_down] in *; try done.
    + by apply main_step_living.
    + rewrite Ek. by apply Forall_app.
    + apply Forall_app. split; [done|]. eapply Forall_impl; [exact Hnew|]. by intros p [? _].
    + apply Forall_app. split; [eapply Forall_impl; [exact Hs|]; intros p Hp ?; by apply Hst, Hp|].
      eapply Forall_impl; [exact Hnew|]. by intros p [_ ?] ?.
    + intros ?. by apply Hst, Ha.
  - pose proof (main_step_calm e (se_server s)). subst r t. unfold server_turn. cbn [snd se_server].
    by destruct (main_step srv conn peer_addr on_auth e (se_server s)).2.
Qed.

Lemma session_step_ok hi e s : session_ok hi s -> fair_event hi s e ->
  session_ok (event_time hi e) (session_step conf srv conn peer_addr on_auth e s).1 /\
  (session_step conf srv conn peer_addr on_auth e s).2 <> Panic.
Proof.
  intros Hs [Hle He]. apply (session_ok_mono _ _ _ Hle) in Hs. pose proof (so_time _ _ Hs) as Ht.
  destruct e as [e|now|e|p|now unix]; cbn [session_step event_time] in *.
  - destruct e as [[|rest|now unix|m|p w locked|p now unix| | |]|]; try done;
      apply client_turn_ok; try done; cbn; lia.
  - destruct (accepted _ !! _) as [p|] eqn:E; [|by split].
    apply (server_turn_ok (event_time hi (SeUp (R:=R) now)) (RecvPacket p now) s).
    + done.
    + intros p' now' [= <- <-]. by apply (proj1 (Forall_lookup _ _) (so_up _ _ Hs) _ _ E).
    + intros Hr. by apply recognised_up; [apply Hs| |].
  - destruct s as [cl sv tk dn sn]. destruct e; try done;
      (apply (server_turn_ok hi _ (mk_session cl sv tk dn sn) tk); [done|done|]; intros Hr;
       by apply recognised_server; [apply Hs|]).
  - split; [|done]. destruct He as [Hh Ha]. destruct Hs as [? ? ? ? ? ? Hd Hs ?].
    constructor; cbn; try done; apply Forall_app; (split; [done|]); constructor; try done.
    destruct p; [done| |done]. intros E. by destruct Hh.
  - destruct (se_down s !! se_seen s) as [p|] eqn:E; [|by split].
    apply client_turn_ok; [by destruct Hs; constructor| |].
    + split; [|done]. by apply (proj1 (Forall_lookup _ _) (so_down _ _ Hs) _ _ E).
    + intros p' now' unix' [= <- _ _]. by apply (proj1 (Forall_lookup _ _) (so_success _ _ Hs) _ _ E).
Qed.

(** A run in which every event is fair. *)
Fixpoint fair (hi : Z) (es : list (session_event R)) (s : Se) : Prop :=
  match es with
  | [] => True
  | e :: es => fair_event hi s e /\
      fair (event_time hi e) es (session_step conf srv conn peer_addr on_auth e s).1
  end.

Lemma event_time_le hi e s es : fair hi (e :: es) s -> hi <= event_time hi e.
Proof. intros [[? _] _]. lia. Qed.

Lemma fair_times hi es s : lo <= hi < 2 ^ 63 -> fair hi es s ->
  hi <= fold_left event_time es hi < 2 ^ 63.
Proof.
  revert hi s. induction es as [|e es IH]; intros hi s Hhi; [cbn; lia|]. intros [[Hle _] Hf].
  cbn [fold_left]. enough (event_time hi e <= fold_left event_time es (event_time hi e) < 2 ^ 63) by lia.
  eapply IH; [lia|done].
Qed.

Lemma session_run_ok hi es s : session_ok hi s -> fair hi es s ->
  session_ok (fold_left event_time es hi) (session_run conf srv conn peer_addr on_auth es s).1 /\
  (session_run conf srv conn peer_addr on_auth es s).2 <> Panic.
Proof.
  unfold session_run. revert hi s. induction es as [|e es IH]; intros hi s Hs Hf; [done|].
  destruct Hf as [He Hf]. destruct (session_step_ok _ _ _ Hs He) as [Hs1 Hp].
  cbn [sfor fold_left]. unfold mbind, SM_bind.
  destruct (session_step _ _ _ _ _ e s) as [s1 [[]|?|]]; cbn [fst snd] in *; [by apply IH| |done].
  split; [|done]. apply (session_ok_mono (event_time hi e)); [|done].
  eapply fair_times; [|done]. apply (so_time _ _ Hs1).
Qed.

Lemma session_init_ok (c : connection R IT) (now : Z) (tx : QT) : lo < 2 ^ 63 ->
  accepted (inner_channel c) = [] -> session_ok lo (session_init conf peer_addr c id0 s0 now tx).
Proof.
  intros Hlt Hc. constructor; cbn; try done.
  - by rewrite Hc.
  - exists []. by rewrite app_nil_r.
Qed.

Lemma living_named hi (s : main_state QT) : living conn peer_addr s -> Forall (act_ok hi) (main_acts s) ->
  Forall (fun v => v = (creds, on_auth (request_id_trim id0) creds)) (verdicts (main_acts s)) /\
  Forall (fun sg => sg = SigNew (full_name peer_addr (conf_client_name conf)) conn) (signals (main_acts s)) /\
  (is_auth_ok s = true -> on_auth (request_id_trim id0) creds = true /\
    main_client_name s = full_name peer_addr (conf_client_name conf)).
Proof.
  intros [Ha Hc Hs _] Hok.
  assert (Forall (fun v => v = (creds, on_auth (request_id_trim id0) creds)) (verdicts (main_acts s))) as Hv.
  { clear -Hok. induction Hok as [|[] l Hp _ IH]; cbn; try done. constructor; [|done]. by destruct Hp as [-> ->]. }
  split_and!; [done| |].
  - rewrite Hs. clear -Hv. induction Hv as [|v l -> _ IH]; cbn; [done|].
    destruct (on_auth _ _); cbn; [|done]. by constructor.
  - rewrite Ha. intros He. apply existsb_exists in He as (v & Hin & Hv1). split.
    { apply list_elem_of_In in Hin. rewrite Forall_forall in Hv. by rewrite (Hv _ Hin) in Hv1. }
    destruct (verdicts (main_acts s)) as [|v' l _] using rev_ind; [done|].
    unfold current in Hc. rewrite last_snoc in Hc. apply Forall_app in Hv as [_ Hv].
    rewrite Forall_singleton in Hv. subst v'. by injection Hc.
Qed.

(** Only the configured credentials make the server recognise a client. *)
Lemma recognised_verdict hi s : session_ok hi s -> recognised s = true ->
  on_auth (request_id_trim id0) creds = true.
Proof.
  intros Hok [Hr|Hr]%orb_true_iff.
  - by apply (living_named _ _ (so_living _ _ Hok) (so_main _ _ Hok)) in Hr as [? _].
  - unfold judging in Hr. destruct (_ !! _) as [p|] eqn:E; [|done].
    pose proof (proj1 (Forall_lookup _ _) (so_up _ _ Hok) _ _ E) as Hp.
    destruct p as [r|r|r]; [|done..]. apply andb_prop in Hr as [Hc Hv]. apply bool_decide_eq_true_1 in Hc.
    destruct (proj2 Hp Hc) as [Hid Hdec]. by rewrite Hdec, Hid in Hv.
Qed.


End Session.

(** * A concrete session

    The client authenticates, is answered while the server judges, subscribes, and measures a
    round trip of 60. *)
#[local] Instance ses_auth_message : Message AuthRequest := countable_message AuthRequest.
#[local] Instance ses_subscribe_message : Message SubscribeRequest :=
  countable_message SubscribeRequest.
#[local] Instance ses_heartbeat_message : Message Heartbeat := countable_message Heartbeat.
#[local] Instance ses_link_error_message : Message LinkError := countable_message LinkError.
#[local] Instance ses_auth_laws : MessageLaws AuthRequest := countable_message_laws AuthRequest.
#[local] Instance ses_heartbeat_laws : MessageLaws Heartbeat := countable_message_laws Heartbeat.

Definition chat : list (session_event nat) :=
  [SeClient (Some SendAuth); SeHandler auth_ok; SeDown 10 150; SeUp 5; SeClient None; SeUp 15;
   SeClient (Some (PingTick 300 200)); SeUp 20; SeDown 30 260].

Abbreviation chat_start := (session_init (sample_conf 2) "1.2.3.4:5" (conn_with 0 []) 1 client0 0
  (([], 4%nat) : counted Packet)).

Abbreviation chat_end :=
  (session_run (sample_conf 2) HealthyConfig_default 7 "1.2.3.4:5" handler chat chat_start).

Example chat_outcome :
  is_authed (se_client chat_end.1) = true /\ is_auth_ok (se_server chat_end.1) = true /\
  last (acts (se_client chat_end.1)) = Some (RttCost 60).
Proof. vm_compute. done. Qed.

