(* ===== verification/Calls.v ===== *)
(** A call from one end to the other: [Client::send_request], the client's link task, the
    server's main loop and callback loop, the user's answer, the client's consumer task. *)

From Stdlib Require Import ZArith Lia Strings.Byte.
From stdpp Require Import base list strings gmap.
From S2P Require Import Prelude Deku Protos Packets Wire Quotation Channel Config Client.
From S2P Require Import ClientFacts Server ServerFacts Session.

Section Calls.
Context {R PT IT QT TX : Type} `{TrySender PT Packet} `{!Sender IT Packet}.
Context `{Sender QT Packet, !TrySender QT Packet} `{!Sender TX (Packet * option R)}.
Context `{!SenderLaws PT Packet, !TrySenderLaws PT Packet, !SenderLaws IT Packet, !ReliableSender IT Packet}.
Context `{!SenderLaws QT Packet, !TrySenderLaws QT Packet, !OpenSender QT Packet}.
Context `{!Message AuthRequest, !Message SubscribeRequest, !Message Heartbeat,
  !Message LinkError}.
Context (conf : LinkClientConfig) (srv : HealthyConfig) (conn : nat) (peer_addr : string).
Context (on_auth : Z -> AuthInfo -> bool).
Abbreviation Se := (session R PT IT QT).
Abbreviation step := (session_step (R:=R) (PT:=PT) (IT:=IT) (QT:=QT) conf srv conn peer_addr on_auth).
Abbreviation run := (session_run (R:=R) (PT:=PT) (IT:=IT) (QT:=QT) conf srv conn peer_addr on_auth).

(** Nothing is on its way. *)
Record at_ease (s : Se) : Prop := {
  ease_up : se_taken s = length (accepted (inner_request_tx (se_client s)));
  ease_down : se_seen s = length (se_down s);
  ease_process : consumed (se_client s) = length (accepted (packet_process_tx (se_client s)))
}.

(** The request as the server's handler sees it, and its answer. *)
Definition the_request (cmd : Command) (g : Z) (body : list byte) : Request :=
  match new_request cmd g body with PRequest r => r | _ => Build_Request 0 cmd 0 0 0 [] end.

Definition the_answer (r : Request) (status : ResponseStatus) (body : list byte) : Response :=
  Response_new (req_command r) (req_id r) status body.

(** The events of the call. *)
Definition call_events (cmd : Command) (g : Z) (w : R) (body : list byte) (status : ResponseStatus)
    (answer : list byte) (now1 now2 unix : Z) : list (session_event R) :=
  [SeClient (Some (SendPacket (new_request cmd g body) (Some w) true));
   SeUp now1;
   SeHandler (new_response_from (the_request cmd g body) status answer);
   SeDown now2 unix;
   SeClient None].

Definition managed (cmd : Command) : bool :=
  bool_decide (cmd = Heartbeat_) || bool_decide (cmd = Auth).

Lemma call_sent cmd g w body s : exists itx,
  accepted itx = accepted (inner_request_tx (se_client s)) ++ [new_request cmd g body] /\
  step (SeClient (Some (SendPacket (new_request cmd g body) (Some w) true))) s =
    (mk_session (add_act (Registered (request_id_trim g) w)
       (set_requests (<[request_id_trim g := w]> (requests (se_client s))) (set_inner itx (se_client s))))
       (se_server s) (se_taken s) (se_down s) (se_seen s), Ok tt).
Proof.
  destruct (send_reliable (new_request cmd g body) (inner_request_tx (se_client s))) as [itx Hs].
  exists itx. split; [by apply send_accepted|].
  cbn [session_step]. unfold client_turn. cbn [link_step data_step]. unfold on_send_packet, inner_send.
  unfold mbind, SM_bind, sget, smodify, mret, SM_ret. by rewrite Hs.
Qed.

(** The main loop passes the request on to the callback loop, or has a task of its own do it. *)
Lemma call_forwarded r now s : managed (req_command r) = false ->
  accepted (inner_request_tx (se_client s)) !! se_taken s = Some (PRequest r) ->
  exists srv', step (SeUp now) s = (mk_session (se_client s) srv' (S (se_taken s)) (se_down s) (se_seen s), Ok tt) /\
    (accepted (recved_packet_tx srv') = accepted (recved_packet_tx (se_server s)) ++ [PRequest r] \/
     main_acts srv' = main_acts (se_server s) ++ [Deferred (PRequest r)]).
Proof.
  intros Hm Hp. cbn [session_step]. rewrite Hp. unfold server_turn. cbn [se_server se_client se_taken se_down se_seen].
  cbn [main_step]. unfold on_packet, set_ping, mbind, SM_bind, smodify. cbn [fst snd].
  set (s1 := mk_main _ _ _ _ _ _).
  assert (match req_command r with
          | Heartbeat_ => main_add (SendPeer (new_heartbeat_response r))
          | Auth => on_auth_request conn peer_addr on_auth r
          | _ => forward (PRequest r)
          end = forward (QT := QT) (PRequest r)) as -> by (by destruct (req_command r)).
  unfold forward, main_queue, main_add, mbind, SM_bind, sget, smodify.
  pose proof (open_try_send (PRequest r) (recved_packet_tx s1)) as Ho.
  destruct (try_send (PRequest r) (recved_packet_tx s1)) as [tx []] eqn:E; cbn [fst snd] in *; [| |done].
  - eexists. split; [unfold new_replies; cbn [fst snd main_acts s1]; by rewrite drop_all, app_nil_r|].
    left. exact (try_send_sent _ _ _ E).
  - eexists. split; [unfold new_replies; cbn [fst snd main_acts s1]; by rewrite drop_app_length, app_nil_r|].
    by right.
Qed.

(** The client's loop hands the response over, its consumer task finds the waiter. *)
Lemma call_received r now unix w s : managed (resp_command r) = false -> at_ease s ->
  (exists ptx, try_send (PResponse r) (packet_process_tx (se_client s)) = (ptx, TrySent)) ->
  requests (se_client s) !! resp_id r = Some w ->
  exists s', run [SeHandler (PResponse r); SeDown now unix; SeClient None] s = (s', Ok tt) /\
    acts (se_client s') = acts (se_client s) ++ [Reply w r] /\
    requests (se_client s') = delete (resp_id r) (requests (se_client s)) /\
    se_server s' = se_server s /\ at_ease s'.
Proof.
  intros Hm [Eu Ed Ep] [ptx Hsent] Hw. pose proof (try_send_sent _ _ _ Hsent) as Hacc.
  unfold session_run. cbn [sfor session_step]. unfold mbind, SM_bind, smodify.
  cbn [se_down se_seen se_client se_server se_taken].
  rewrite Ed, lookup_app_r, Nat.sub_diag by done. cbn [lookup list_lookup].
  unfold client_turn. cbn [link_step data_step se_down se_seen se_client se_server se_taken].
  assert (on_recv conf (PResponse r) now unix (se_client s) = (set_process ptx (set_pong now (se_client s)), Ok tt)) as ->.
  { unfold on_recv, mbind at 1, SM_bind at 1, smodify at 1.
    unfold managed in Hm. destruct (resp_command r); try discriminate Hm;
      unfold try_process, mbind, SM_bind, sget, smodify; cbn [set_pong packet_process_tx]; by rewrite Hsent. }
  cbn [fst snd se_down se_seen se_client se_server se_taken link_step]. rewrite consume_eq.
  cbn [set_process set_pong packet_process_tx consumed]. rewrite Hacc, Ep, lookup_app_r, Nat.sub_diag by done.
  cbn [lookup list_lookup consume_state fst snd]. eexists. split; [reflexivity|].
  cbn. rewrite Hw. split_and!; try done. constructor; cbn; rewrite ?length_app, ?Hacc, ?length_app; cbn; lia.
Qed.

(** C11. A call, from one end to the other. When nothing is on its way and the consumer task
    has room, a call of [send_request] that the link takes sends one request; the server's
    main loop hands it to the callback loop, which calls [on_request] with it; the answer the
    user builds from it with [new_response_from] reaches the client, whose consumer task
    gives it to this caller and to no callback, and forgets the waiter; and the caller
    returns what that answer means. *)
Theorem call_returns_answer {Req CE Resp : Type} `{!Message Req}
    (try_from : Response -> outcome CE Resp) (req : Req) (cmd : Command) (g : Z) (w : R) (tx tx' : TX)
    (status : ResponseStatus) (answer : list byte) (now1 now2 unix : Z) (cb : callback_state) (s : Se)
    (Hcmd : managed cmd = false) (Hease : at_ease s)
    (Htake : send (new_request cmd g (encode_to_vec req), Some w) tx = Some tx')
    (Hroom : exists ptx, try_send (PResponse (the_answer (the_request cmd g (encode_to_vec req)) status answer))
       (packet_process_tx (se_client s)) = (ptx, TrySent)) :
  let r := the_request cmd g (encode_to_vec req) in
  let resp := the_answer r status answer in
  exists s', run (call_events cmd g w (encode_to_vec req) status answer now1 now2 unix) s = (s', Ok tt) /\
    (accepted (recved_packet_tx (se_server s')) = accepted (recved_packet_tx (se_server s)) ++ [PRequest r] \/
     main_acts (se_server s') = main_acts (se_server s) ++ [Deferred (PRequest r)]) /\
    callback_step peer_addr (CbPacket (PRequest r)) cb = (cb_add [SpawnOnRequest r] cb, Ok tt) /\
    acts (se_client s') = acts (se_client s) ++ [Registered (req_id r) w; Reply w resp] /\
    requests (se_client s') = delete (req_id r) (requests (se_client s)) /\
    at_ease s' /\
    send_request try_from req cmd w true (WaitGot resp) (g, Some tx) =
      ((wrap_u32 (g + 1), Some tx'), read_response try_from resp).
Proof.
  set (body := encode_to_vec req) in *. cbn zeta.
  destruct (call_sent cmd g w body s) as (itx & Hitx & Hsent).
  set (s1 := mk_session _ _ _ _ _) in Hsent.
  destruct (call_forwarded (the_request cmd g body) now1 s1 Hcmd) as (srv' & Hup & Hfwd).
  { cbn. rewrite Hitx, (ease_up _ Hease), lookup_app_r, Nat.sub_diag by done. done. }
  set (s2 := mk_session _ srv' _ _ _) in Hup.
  assert (at_ease s2) as Hease2.
  { destruct Hease. constructor; cbn; [|done..]. rewrite Hitx, length_app. cbn. lia. }
  destruct (call_received (the_answer (the_request cmd g body) status answer) now2 unix w s2 Hcmd Hease2 Hroom)
    as (s' & Hrun & Hacts & Hreq & Hsrv & Hease'); [apply lookup_insert_eq|].
  exists s'. split.
  { unfold call_events, session_run in *. cbn [sfor] in *. unfold mbind at 1, SM_bind at 1. rewrite Hsent.
    unfold mbind at 1, SM_bind at 1. rewrite Hup. exact Hrun. }
  rewrite Hsrv. split_and!; try done.
  - cbn [callback_step]. unfold on_callback_packet, managed in *.
    destruct (bool_decide_reflect (req_command (the_request cmd g body) = Auth)) as [E|]; [|done].
    cbn in E. subst cmd. discriminate Hcmd.
  - rewrite Hacts. cbn. by rewrite <- app_assoc.
  - rewrite Hreq. cbn. by rewrite delete_insert_eq.
  - unfold send_request, mbind, SM_bind, sget, smodify. unfold managed in Hcmd. rewrite Hcmd. cbn [fst snd].
    fold body. rewrite Htake. done.
Qed.

End Calls.

(** A request for an order book, under id 3, answered with a success. *)
#[local] Instance call_auth_message : Message AuthRequest := countable_message AuthRequest.
#[local] Instance call_subscribe_message : Message SubscribeRequest :=
  countable_message SubscribeRequest.
#[local] Instance call_heartbeat_message : Message Heartbeat := countable_message Heartbeat.
#[local] Instance call_link_error_message : Message LinkError := countable_message LinkError.

Lemma call_returns_answer_witness : exists s' : session nat consumer_chan transport_chan (counted Packet),
  acts (se_client s') = [Registered 3 7%nat;
    Reply 7%nat (Response_new CmdSubOrderBook 3 Success [])] /\
  (send_request (fun r => Ok (resp_id r) : outcome unit Z) {| all := true; counter_ids := []; span_index := 0 |}
    CmdSubOrderBook 7%nat true (WaitGot (Response_new CmdSubOrderBook 3 Success []))
    (3, Some ([] : unlimited (Packet * option nat)))).2 = Ok 3.
Proof.
  set (s := session_init (sample_conf 2) "1.2.3.4:5" (conn_with 0 []) 1 client0 0 (([], 4%nat) : counted Packet)).
  assert (at_ease s) as He by (by constructor).
  destruct (call_returns_answer (R:=nat) (TX := unlimited (Packet * option nat)) (sample_conf 2)
    HealthyConfig_default 7 "1.2.3.4:5" handler
    (fun r => Ok (resp_id r) : outcome unit Z) {| all := true; counter_ids := []; span_index := 0 |}
    CmdSubOrderBook 3 7%nat [] [(new_request CmdSubOrderBook 3
      (encode_to_vec {| all := true; counter_ids := []; span_index := 0 |}), Some 7%nat)] Success [] 5 15 260
    (callback_init "1.2.3.4:5") s eq_refl He) as (s' & _ & _ & _ & Ha & _ & _ & Hc).
  - vm_compute. reflexivity.
  - eexists. vm_compute. reflexivity.
  - exists s'. split; [exact Ha|]. etrans; [exact (f_equal snd Hc)|]. vm_compute. reflexivity.
Defined.
