(* ===== verification/Serving.v ===== *)
(** A connection on the server with the user's handler: the trait [ConnHandler] of
    [link/src/server.rs], and the tasks that call it. The main loop awaits [on_auth] and
    [on_disconnect], the callback loop awaits [on_send], and [on_push], [on_response] and
    [on_request] run each in a task of its own; a packet the callback loop has no room for
    is handed over by a task of its own too.

    [Server] gives each loop and a trace of what it does to the outside; here the traces are
    played: on the handler, on the channel to the peer, on the registry. A callback is one
    step. A callback that panics ends the task that called it, and no other. *)

From Stdlib Require Import ZArith Lia Strings.Byte.
From stdpp Require Import base functions list strings gmap.
From S2P Require Import Prelude Deku Protos Packets Channel Config Server.

(** * The handler

    [H] is the state of the handler behind its locks, [TX] the channel to the peer that the
    factory is given ([SendToPeer]). *)

Abbreviation callback_of H TX A := (SM (H * TX) Empty_set A).

Class ConnHandler (H TX : Type) := {
  on_auth : string -> Z -> AuthInfo -> callback_of H TX bool;
  on_disconnect : string -> AuthInfo -> callback_of H TX unit;
  on_push : Push -> callback_of H TX unit;
  on_response : Response -> callback_of H TX unit;
  on_request : Request -> callback_of H TX unit;
  on_send : Packet -> callback_of H TX unit
}.

Inductive call : Type :=
| CallAuth (request_id : Z) (info : AuthInfo)
| CallDisconnect (info : AuthInfo)
| CallPush (push : Push)
| CallResponse (response : Response)
| CallRequest (request : Request)
| CallSend (packet : Packet).

(** The main loop: whether it runs, the packets it took from the peer, the tasks that wait
    for room in the channel to the callback loop, the signals sent to the registry. *)
Record main_task (QT : Type) : Type := mk_mt {
  mt_state : main_state QT;
  mt_on : bool;
  mt_received : list Packet;
  mt_deferred : list Packet;
  mt_signals : list client_signal
}.
Arguments mk_mt {QT}.
Arguments mt_state {QT}.
Arguments mt_on {QT}.
Arguments mt_received {QT}.
Arguments mt_deferred {QT}.
Arguments mt_signals {QT}.

(** The callback loop: whether it runs, how many packets it took from the main loop, the
    tasks it started that did not run yet. *)
Record cb_task : Type := mk_ct {
  ct_state : callback_state;
  ct_on : bool;
  ct_taken : nat;
  ct_spawned : list call
}.

(** The user's side: the handler and the channel to the peer, the callbacks called so far,
    and those that panicked. *)
Record user (H TX : Type) : Type := mk_user {
  u_world : H * TX;
  u_calls : list call;
  u_panics : list call
}.
Arguments mk_user {H TX}.
Arguments u_world {H TX}.
Arguments u_calls {H TX}.
Arguments u_panics {H TX}.

Record serving (H TX QT : Type) : Type := mk_serving {
  sv_main : main_task QT;
  sv_cb : cb_task;
  sv_user : user H TX
}.
Arguments mk_serving {H TX QT}.
Arguments sv_main {H TX QT}.
Arguments sv_cb {H TX QT}.
Arguments sv_user {H TX QT}.

(** One turn of one task. *)
Inductive serving_event (H : Type) : Type :=
| SvMain (e : main_event)
(** a task that waits for room gets its packet into the channel *)
| SvDeferred (i : nat)
(** the callback loop takes the next packet, or finds the channel closed *)
| SvTake
| SvClosed
(** a packet of the registry, packets missed, the registry gone *)
| SvBroadcast (packet : Packet)
| SvLagged
| SvBroadcastClosed
(** a task that the callback loop started runs *)
| SvRun (i : nat)
(** the handlers of other connections change what is shared *)
| SvOthers (h : H).
Arguments SvMain {H}.
Arguments SvDeferred {H}.
Arguments SvTake {H}.
Arguments SvClosed {H}.
Arguments SvBroadcast {H}.
Arguments SvLagged {H}.
Arguments SvBroadcastClosed {H}.
Arguments SvRun {H}.
Arguments SvOthers {H}.

Section Serving.
Context {H TX QT : Type} `{!ConnHandler H TX, !Sender TX Packet}.
Context `{Closable QT Packet} `{!Message AuthRequest}.
Context (conf : HealthyConfig) (conn : nat) (peer_addr : string).

Abbreviation Sv := (serving H TX QT).
Abbreviation SvM := (SM Sv Empty_set unit).

Definition run_call (c : call) : SM (H * TX) Empty_set unit :=
  match c with
  | CallAuth request_id info => on_auth peer_addr request_id info ≫= fun _ => mret tt
  | CallDisconnect info => on_disconnect peer_addr info
  | CallPush push => on_push push
  | CallResponse response => on_response response
  | CallRequest request => on_request request
  | CallSend packet => on_send packet
  end.

Definition user_call (c : call) (u : user H TX) : user H TX * outcome Empty_set unit :=
  let r := run_call c (u_world u) in
  (mk_user r.1 (u_calls u ++ [c]) (u_panics u ++ if is_ok r.2 then [] else [c]), r.2).

Definition call_user (c : call) : SvM := fun s =>
  let r := user_call c (sv_user s) in (mk_serving (sv_main s) (sv_cb s) r.1, r.2).

(** [send_tx.send(..).await], an error is logged. *)
Definition send_peer (packet : Packet) : SvM := smodify (fun s =>
  let u := sv_user s in
  match send packet (u_world u).2 with
  | Some tx => mk_serving (sv_main s) (sv_cb s)
                 (mk_user ((u_world u).1, tx) (u_calls u) (u_panics u))
  | None => s
  end).

Definition map_main (f : main_task QT -> main_task QT) (s : Sv) : Sv :=
  mk_serving (f (sv_main s)) (sv_cb s) (sv_user s).

Definition map_cb (f : cb_task -> cb_task) (s : Sv) : Sv :=
  mk_serving (sv_main s) (f (sv_cb s)) (sv_user s).

(** ** The main loop *)

Definition play_main (a : main_action) : SvM :=
  match a with
  | SendPeer packet => send_peer packet
  | OnAuth request_id info _ => call_user (CallAuth request_id info)
  | SendSignal sig => smodify (map_main (fun m =>
      mk_mt (mt_state m) (mt_on m) (mt_received m) (mt_deferred m) (mt_signals m ++ [sig])))
  | Deferred packet => smodify (map_main (fun m =>
      mk_mt (mt_state m) (mt_on m) (mt_received m) (mt_deferred m ++ [packet]) (mt_signals m)))
  | OnDisconnect info => call_user (CallDisconnect info)
  end.

(** What [on_auth] would answer now; a panic ends the loop before its answer is used. *)
Definition verdict (w : H * TX) (request_id : Z) (info : AuthInfo) : bool :=
  match on_auth peer_addr request_id info w with (_, Ok ok) => ok | _ => false end.

Definition got (e : main_event) : list Packet :=
  match e with RecvPacket packet _ => [packet] | _ => [] end.

Definition main_ends (s : Sv) : Sv := map_main (fun m =>
  mk_mt (mt_state m) false (mt_received m) (mt_deferred m) (mt_signals m)) s.

Definition main_turn (e : main_event) (s : Sv) : Sv :=
  let m := sv_main s in
  if mt_on m then
    let r := client_main conf conn peer_addr (verdict (u_world (sv_user s))) [e] (mt_state m) in
    let s := map_main (fun m =>
      mk_mt r.1 (mt_on m) (mt_received m ++ got e) (mt_deferred m) (mt_signals m)) s in
    let p := sfor play_main (drop (length (main_acts (mt_state m))) (main_acts r.1)) s in
    match r.2, p.2 with
    | None, Ok _ => p.1
    | _, _ => main_ends p.1
    end
  else s.

(** ** The channel between the loops *)

Definition queue_of (s : Sv) : QT := recved_packet_tx (mt_state (sv_main s)).

Definition set_queue (q : QT) (s : Sv) : Sv := map_main (fun m =>
  let st := mt_state m in
  mk_mt (mk_main (is_auth_ok st) (main_client_name st) (last_ping_at st) (main_auth_info st) q
           (main_acts st))
    (mt_on m) (mt_received m) (mt_deferred m) (mt_signals m)) s.

Definition deferred_turn (i : nat) (s : Sv) : Sv :=
  match mt_deferred (sv_main s) !! i with
  | Some packet =>
      let s := map_main (fun m =>
        mk_mt (mt_state m) (mt_on m) (mt_received m) (delete i (mt_deferred m)) (mt_signals m)) s in
      match send packet (queue_of s) with Some q => set_queue q s | None => s end
  | None => s
  end.

(** ** The callback loop *)

Definition spawn (c : call) : SvM := smodify (map_cb (fun t =>
  mk_ct (ct_state t) (ct_on t) (ct_taken t) (ct_spawned t ++ [c]))).

Definition play_cb (a : callback_action) : SvM :=
  match a with
  | SpawnOnRequest request => spawn (CallRequest request)
  | SpawnOnResponse response => spawn (CallResponse response)
  | SpawnOnPush push => spawn (CallPush push)
  | OnSend packet => call_user (CallSend packet)
  | SendCount _ _ => mret tt
  end.

(** The receiver of the channel goes with the loop. *)
Definition cb_ends (s : Sv) : Sv :=
  set_queue (hang_up (queue_of s)) (map_cb (fun t =>
    mk_ct (ct_state t) false (ct_taken t) (ct_spawned t)) s).

Definition callback_turn (e : callback_event) (s : Sv) : Sv :=
  let t := sv_cb s in
  if ct_on t then
    let r := callback_step peer_addr e (ct_state t) in
    let s := map_cb (fun t => mk_ct r.1 (ct_on t) (ct_taken t) (ct_spawned t)) s in
    match r.2 with
    | Ok _ =>
        let p := sfor play_cb (drop (length (cb_acts (ct_state t))) (cb_acts r.1)) s in
        match p.2 with Ok _ => p.1 | _ => cb_ends p.1 end
    | _ => cb_ends s
    end
  else s.

Definition take_turn (s : Sv) : Sv :=
  match accepted (queue_of s) !! ct_taken (sv_cb s) with
  | Some packet =>
      if ct_on (sv_cb s) then
        callback_turn (CbPacket packet) (map_cb (fun t =>
          mk_ct (ct_state t) (ct_on t) (S (ct_taken t)) (ct_spawned t)) s)
      else s
  | None => s
  end.

(** No sender is left, and nothing in the channel. *)
Definition queue_closed (s : Sv) : bool :=
  negb (mt_on (sv_main s)) && bool_decide (mt_deferred (sv_main s) = [] /\
    (length (accepted (queue_of s)) <= ct_taken (sv_cb s))%nat).

Definition run_turn (i : nat) (s : Sv) : Sv :=
  match ct_spawned (sv_cb s) !! i with
  | Some c =>
      (call_user c (map_cb (fun t =>
         mk_ct (ct_state t) (ct_on t) (ct_taken t) (delete i (ct_spawned t))) s)).1
  | None => s
  end.

Definition serving_step (e : serving_event H) (s : Sv) : Sv :=
  match e with
  | SvMain e => main_turn e s
  | SvDeferred i => deferred_turn i s
  | SvTake => take_turn s
  | SvClosed => if queue_closed s then callback_turn CbPacketsClosed s else s
  | SvBroadcast packet => callback_turn (CbBroadcast packet) s
  | SvLagged => callback_turn CbLagged s
  | SvBroadcastClosed => callback_turn CbBroadcastClosed s
  | SvRun i => run_turn i s
  | SvOthers h => mk_serving (sv_main s) (sv_cb s)
      (mk_user (h, (u_world (sv_user s)).2) (u_calls (sv_user s)) (u_panics (sv_user s)))
  end.

Fixpoint serving_run (es : list (serving_event H)) (s : Sv) : Sv :=
  match es with
  | [] => s
  | e :: es => serving_run es (serving_step e s)
  end.

(** A connection that was just accepted, its handler made by the factory. *)
Definition serving_init (now : Z) (q : QT) (h : H) (tx : TX) : Sv :=
  mk_serving (mk_mt (main_init peer_addr now q) true [] [] [])
    (mk_ct (callback_init peer_addr) true 0 []) (mk_user (h, tx) [] []).

End Serving.
