(* ===== verification/ServingFacts.v ===== *)
(** The correctness of a connection with its handler ([Serving]): whatever the interleaving,
    each packet meant for the handler is handed to it exactly once. *)

From Stdlib Require Import ZArith Lia Strings.Byte.
From stdpp Require Import base functions list strings gmap.
From S2P Require Import Prelude Deku Protos Packets Channel Config Server ServerFacts Serving.

(** * What the handler is given *)

(** The main loop keeps the heartbeats and the authentication requests to itself. *)
Definition call_of (p : Packet) : option call :=
  match p with
  | PRequest r =>
      match req_command r with Heartbeat_ | Auth => None | _ => Some (CallRequest r) end
  | PResponse r => Some (CallResponse r)
  | PPush p => Some (CallPush p)
  end.

Definition from_peer (c : call) : Prop :=
  match c with CallRequest _ | CallResponse _ | CallPush _ => True | _ => False end.

#[export] Instance from_peer_dec c : Decision (from_peer c).
Proof. destruct c; cbn; apply _. Defined.

Lemma call_of_from_peer p c : call_of p = Some c -> from_peer c.
Proof. destruct p as [r| |]; cbn; [destruct (req_command r)|..]; intros; by simplify_eq. Qed.

Lemma filter_from_peer_calls (ps : list Packet) : filter from_peer (omap call_of ps) = omap call_of ps.
Proof.
  induction ps as [|p ps IH]; [done|]. change (p :: ps) with ([p] ++ ps). rewrite omap_app.
  rewrite filter_app, IH. f_equal. cbn -[call_of]. destruct (call_of p) as [c|] eqn:E; [|done].
  by rewrite filter_cons_True by (by eapply call_of_from_peer).
Qed.

Section Turn.
Context {QT : Type} `{TrySender QT Packet} `{!Message AuthRequest}.
Context (conf : HealthyConfig) (conn : nat) (peer_addr : string) (v : Z -> AuthInfo -> bool).

(** The authentication data a request stands for. *)
Definition info_of (a : AuthRequest) : AuthInfo := default AuthInfo_default (auth_info a).

(** The end of the loop leaves the handler and the registry, nothing else. *)
Definition leaving (a : main_action) : Prop :=
  match a with OnDisconnect _ | SendSignal _ => True | _ => False end.

(** What a turn does: to the channel to the callback loop, to the outside, and whether the
    loop goes on. *)
Inductive turn (q : QT) : main_event -> QT -> list main_action -> option main_error -> Prop :=
| turn_idle now : turn q (HeartbeatTick now) q [] None
| turn_ends e new er : (forall p now, e = RecvPacket p now ->
      exists r, p = PRequest r /\ req_command r = Auth /\ decode (A:=AuthRequest) (req_body r) = None) ->
    Forall leaving new -> turn q e q new (Some er)
| turn_heartbeat r now : req_command r = Heartbeat_ ->
    turn q (RecvPacket (PRequest r) now) q [SendPeer (new_heartbeat_response r)] None
| turn_refused r a now : req_command r = Auth -> decode (req_body r) = Some a ->
    v (req_id r) (info_of a) = false ->
    turn q (RecvPacket (PRequest r) now) q [OnAuth (req_id r) (info_of a) false] None
| turn_accepted r a now : req_command r = Auth -> decode (req_body r) = Some a ->
    v (req_id r) (info_of a) = true ->
    turn q (RecvPacket (PRequest r) now) (default q (send (PRequest r) q))
      [OnAuth (req_id r) (info_of a) true;
       SendSignal (SigNew (full_name peer_addr (client_name (info_of a))) conn)] None
| turn_forward p c now : call_of p = Some c ->
    turn q (RecvPacket p now) (try_send p q).1
      (match (try_send p q).2 with TryFull => [Deferred p] | _ => [] end) None.

Abbreviation run1 e s := (client_main conf conn peer_addr v [e] s).
Implicit Types s : main_state QT.

Lemma client_main_one e s :
  run1 e s = match main_step conf conn peer_addr v e s with
             | (s1, Err er) => (main_end s1, Some er)
             | (s1, _) => (s1, None)
             end.
Proof.
  unfold client_main, main_run. cbn [sfor]. unfold mbind, SM_bind.
  by destruct (main_step _ _ _ _ _ _) as [s1 [[]| |]].
Qed.

Lemma main_end_leaves (s : main_state QT) : exists new, main_acts (main_end s) = main_acts s ++ new /\
  Forall leaving new /\ recved_packet_tx (main_end s) = recved_packet_tx s.
Proof.
  unfold main_end, main_add, smodify. destruct (is_auth_ok s); cbn.
  - eexists. rewrite <- app_assoc. split; [done|]. by repeat constructor.
  - eexists. split; [done|]. by repeat constructor.
Qed.

(** A step that fails in state [s1]: the loop ends. *)
Lemma turn_of_end e s s1 er : main_step conf conn peer_addr v e s = (s1, Err er) ->
  main_acts s1 = main_acts s -> recved_packet_tx s1 = recved_packet_tx s ->
  (forall p now, e = RecvPacket p now ->
     exists r, p = PRequest r /\ req_command r = Auth /\ decode (A:=AuthRequest) (req_body r) = None) ->
  exists new, main_acts (run1 e s).1 = main_acts s ++ new /\
    turn (recved_packet_tx s) e (recved_packet_tx (run1 e s).1) new (run1 e s).2.
Proof.
  intros E Ha Hq He. rewrite client_main_one, E. cbn [fst snd].
  destruct (main_end_leaves s1) as (new & Hn & Hl & Hq'). exists new.
  rewrite Hn, Ha, Hq', Hq. split; [done|]. by apply turn_ends.
Qed.

Lemma forward_eq p s : forward p s =
  (mk_main (is_auth_ok s) (main_client_name s) (last_ping_at s) (main_auth_info s)
     (try_send p (recved_packet_tx s)).1
     (main_acts s ++ match (try_send p (recved_packet_tx s)).2 with TryFull => [Deferred p] | _ => [] end),
   Ok tt : outcome main_error unit).
Proof.
  unfold forward, main_queue, main_add, mbind, SM_bind, sget, smodify.
  by destruct (try_send p (recved_packet_tx s)) as [q []]; cbn; rewrite ?app_nil_r.
Qed.

(** Every turn is one of these. *)
Lemma client_main_leaves e s : exists new, main_acts (run1 e s).1 = main_acts s ++ new /\
  turn (recved_packet_tx s) e (recved_packet_tx (run1 e s).1) new (run1 e s).2.
Proof.
  destruct e as [now| |p now|]; [|by eapply turn_of_end| |by eapply turn_of_end].
  - destruct (main_step conf conn peer_addr v (HeartbeatTick now) s) as [s1 r] eqn:E.
    assert (s1 = s /\ (r = Ok tt \/ exists er, r = Err er)) as [-> [->|[er ->]]].
    { revert E. cbn [main_step]. unfold on_heartbeat_tick, mbind, SM_bind, sget, sfail.
      destruct (is_auth_ok s), (_ <? _); intros [= <- <-]; eauto. }
    + rewrite client_main_one, E. exists []. rewrite app_nil_r. split; [done|apply turn_idle].
    + by eapply turn_of_end.
  - destruct (call_of p) as [c|] eqn:Ec.
    + assert (on_packet conn peer_addr v p now s = forward p (set_ping now s).1) as E.
      { unfold on_packet, mbind, SM_bind, set_ping, smodify. cbn [fst].
        destruct p as [r| |]; [|done..]. by destruct (req_command r) eqn:Er; cbn in Ec; rewrite ?Er in Ec. }
      rewrite client_main_one. cbn [main_step]. rewrite E, forward_eq. cbn.
      eexists. split; [done|]. by eapply turn_forward.
    + destruct p as [r| |]; [|done..]. unfold call_of in Ec.
      destruct (req_command r) eqn:Er; try done; clear Ec.
      * destruct (decode (A:=AuthRequest) (req_body r)) as [a|] eqn:Ed.
        -- rewrite client_main_one. cbn [main_step]. unfold on_packet, mbind, SM_bind, set_ping, smodify.
           rewrite Er, on_auth_request_eq, Ed. cbn [fst snd]. unfold auth_state. fold (info_of a).
           eexists. cbn [main_acts recved_packet_tx]. split; [done|].
           destruct (v (req_id r) (info_of a)) eqn:Ev; [eapply turn_accepted; eauto|eapply turn_refused; eauto].
        -- eapply (turn_of_end _ s (set_ping now s).1 MainAuthDecode); [|done..|].
           ++ cbn [main_step]. unfold on_packet, mbind, SM_bind, set_ping, smodify.
              by rewrite Er, on_auth_request_eq, Ed.
           ++ intros p now' [= <- <-]. by exists r.
      * rewrite client_main_one. cbn [main_step]. unfold on_packet, mbind, SM_bind, set_ping, smodify.
        rewrite Er. unfold main_add, smodify. cbn. eexists. split; [done|]. by apply turn_heartbeat.
Qed.

End Turn.

(** * Nothing is lost, nothing is handed over twice *)

Section Flow.
Context {QT : Type} `{ClosableLaws QT Packet, !SenderLaws QT Packet, !TrySenderLaws QT Packet}.
Context `{!Message AuthRequest}.

(** On its way to the handler: in a task of its own already, in the channel, or waiting for
    room there. *)
Definition under_way (q : QT) (deferred : list Packet) (t : cb_task) : list call :=
  ct_spawned t ++ omap call_of (drop (ct_taken t) (accepted q)) ++ omap call_of deferred.

(** The flow of packets from the peer to the handler, which was given [given] so far. *)
Record flow (q : QT) (received deferred : list Packet) (t : cb_task) (given : list call) : Prop := {
  flow_on : is_open q = ct_on t;
  flow_taken : (ct_taken t <= length (accepted q))%nat;
  flow_auth r : PRequest r ∈ drop (ct_taken t) (accepted q) -> req_command r = Auth ->
    is_Some (decode (A:=AuthRequest) (req_body r));
  flow_deferred p : p ∈ deferred -> is_Some (call_of p);
  flow_heartbeat p : p ∈ drop (ct_taken t) (accepted q) -> is_Some (call_of p) \/
    exists r, p = PRequest r /\ req_command r = Auth;
  flow_spawned : Forall from_peer (ct_spawned t);
  flow_conserved : exists lost, (ct_on t = true -> lost = []) /\
    omap call_of received ≡ₚ given ++ under_way q deferred t ++ lost
}.

Lemma drop_snoc_le {A} n (l : list A) a : (n <= length l)%nat -> drop n (l ++ [a]) = drop n l ++ [a].
Proof. intros Hn. by rewrite drop_app_le. Qed.

Lemma rotate_app {A} (a b c : list A) : a ++ b ++ c ≡ₚ c ++ a ++ b.
Proof. rewrite app_assoc. apply Permutation_app_comm. Qed.

(** One more packet in the channel. *)
Lemma flow_push p l q q' rc df df' t g : flow q rc df t g -> is_open q = true ->
  accepted q' = accepted q ++ [p] -> is_open q' = true ->
  (is_Some (call_of p) \/ exists r a, p = PRequest r /\ req_command r = Auth /\
     decode (A:=AuthRequest) (req_body r) = Some a) ->
  (forall x, x ∈ df' -> x ∈ df) ->
  omap call_of l ++ omap call_of df ≡ₚ omap call_of [p] ++ omap call_of df' ->
  flow q' (rc ++ l) df' t g.
Proof.
  intros [Hon Ht Ha Hd Hh Hs (lost & Hl & Hc)] Ho Hq Ho' Hp Hdf Hcons.
  constructor; rewrite ?Hq, ?drop_snoc_le by done; try done.
  - congruence.
  - rewrite length_app. lia.
  - intros r [Hr|Hr]%elem_of_app Er; [by apply Ha|]. apply list_elem_of_singleton in Hr as <-.
    destruct Hp as [[c Hc']|(r' & a & [= ->] & _ & ->)]; [|done].
    unfold call_of in Hc'. by rewrite Er in Hc'.
  - auto.
  - intros x [Hx|Hx]%elem_of_app; [by apply Hh|]. apply list_elem_of_singleton in Hx as ->.
    destruct Hp as [?|(r & a & -> & ? & ?)]; [by left|right; by exists r].
  - exists lost. split; [done|]. rewrite omap_app, Hc. unfold under_way.
    rewrite Hq, drop_snoc_le, omap_app by done.
    rewrite <- !app_assoc. apply Permutation_app_head, Permutation_app_head, Permutation_app_head.
    by rewrite rotate_app, app_assoc, Hcons, app_assoc.
Qed.

(** Nothing more in the channel. *)
Lemma flow_keep l q q' rc df df' t g : flow q rc df t g ->
  accepted q' = accepted q -> is_open q' = is_open q ->
  (forall x, x ∈ df' -> is_Some (call_of x)) ->
  (ct_on t = true -> omap call_of l ++ omap call_of df ≡ₚ omap call_of df') ->
  (ct_on t = false -> exists more, omap call_of l ++ omap call_of df ≡ₚ omap call_of df' ++ more) ->
  flow q' (rc ++ l) df' t g.
Proof.
  intros [Hon Ht Ha Hd Hh Hs (lost & Hl & Hc)] Hq Ho Hdf Hcons Hcons'.
  constructor; rewrite ?Hq; try done; [congruence|].
  assert (exists more, (ct_on t = true -> more = []) /\
    omap call_of l ++ omap call_of df ≡ₚ omap call_of df' ++ more) as (more & Hm & Hc').
  { destruct (ct_on t); [exists []; rewrite app_nil_r; by auto|].
    destruct Hcons' as [more ?]; [done|]. by exists more. }
  exists (more ++ lost). split; [intros Ho'; by rewrite Hm, Hl|].
  rewrite omap_app, Hc. unfold under_way. rewrite Hq, <- !app_assoc.
  apply Permutation_app_head, Permutation_app_head, Permutation_app_head.
  by rewrite rotate_app, app_assoc, Hc', app_assoc.
Qed.

Lemma flow_received l q rc df t g : flow q rc df t g -> omap call_of l = [] ->
  flow q (rc ++ l) df t g.
Proof.
  intros Hf Hl. apply (flow_keep l q q rc df df t g Hf); try done; rewrite ?Hl; [apply Hf|done|].
  intros _. exists []. by rewrite app_nil_r.
Qed.

Lemma flow_accepted r a q rc df t g : flow q rc df t g -> req_command r = Auth ->
  decode (A:=AuthRequest) (req_body r) = Some a ->
  flow (default q (send (PRequest r) q)) (rc ++ [PRequest r]) df t g.
Proof.
  intros Hf Hr Hd. assert (call_of (PRequest r) = None) as Hn by (unfold call_of; by rewrite Hr).
  assert (omap call_of [PRequest r] = []) as Hnil by (cbn -[call_of]; by rewrite Hn).
  destruct (is_open q) eqn:Ho.
  - destruct (open_send_some (PRequest r) q Ho) as (q' & Hq & Ho'). rewrite Hq. cbn [default].
    apply (flow_push (PRequest r) _ q q' rc df df t g); try done; [by apply send_accepted|].
    right. by exists r, a.
  - rewrite closed_send by done. by apply flow_received.
Qed.

Lemma omap_call p c : call_of p = Some c -> omap call_of [p] = [c].
Proof. intros Hp. cbn -[call_of]. by rewrite Hp. Qed.

Lemma flow_forward p c q rc df t g : flow q rc df t g -> call_of p = Some c ->
  flow (try_send p q).1 (rc ++ [p])
    (df ++ match (try_send p q).2 with TryFull => [p] | _ => [] end) t g.
Proof.
  intros Hf Hp. destruct (is_open q) eqn:Ho.
  - destruct (open_try p q Ho) as [Hr Ho']. destruct (try_send p q) as [q' []] eqn:Et; cbn [fst snd] in *.
    + rewrite app_nil_r. apply (flow_push p [p] q q' rc df df t g); try done; [by eapply try_send_sent|].
      left. by exists c.
    + apply (flow_keep [p] q q' rc df (df ++ [p]) t g Hf); [by eapply try_send_other|congruence|..].
      * intros x [Hx|Hx]%elem_of_app; [by eapply flow_deferred|].
        apply list_elem_of_singleton in Hx as ->. by exists c.
      * intros _. rewrite omap_app. apply Permutation_app_comm.
      * intros _. exists []. rewrite omap_app, app_nil_r. apply Permutation_app_comm.
    + done.
  - rewrite closed_try by done. cbn [fst snd]. rewrite app_nil_r.
    assert (ct_on t = false) as Hoff by (by rewrite <- (flow_on _ _ _ _ _ Hf)).
    apply (flow_keep [p] q q rc df df t g Hf); try done; [apply Hf|congruence|].
    intros _. exists [c]. rewrite (omap_call p c Hp). apply Permutation_app_comm.
Qed.

Lemma omap_delete i p df : df !! i = Some p ->
  omap call_of df ≡ₚ omap call_of [p] ++ omap call_of (delete i df).
Proof.
  intros Hi. rewrite delete_take_drop, <- (take_drop_middle df i p Hi) at 1.
  change (p :: drop (S i) df) with ([p] ++ drop (S i) df). rewrite !omap_app, !app_assoc.
  apply Permutation_app_tail, Permutation_app_comm.
Qed.

Lemma flow_arrives i p q rc df t g : flow q rc df t g -> df !! i = Some p ->
  flow (default q (send p q)) rc (delete i df) t g.
Proof.
  intros Hf Hi. pose proof (omap_delete i p df Hi) as Hd.
  assert (forall x, x ∈ delete i df -> x ∈ df) as Hin
    by (intros x Hx; eapply elem_of_submseteq; [exact Hx|apply sublist_submseteq, sublist_delete]).
  rewrite <- (app_nil_r rc). destruct (is_open q) eqn:Ho.
  - destruct (open_send_some p q Ho) as (q' & Hq & Ho'). rewrite Hq. cbn [default].
    apply (flow_push p [] q q' rc df (delete i df) t g); try done; [by apply send_accepted|].
    left. apply (flow_deferred _ _ _ _ _ Hf). by eapply list_elem_of_lookup_2.
  - rewrite closed_send by done. cbn [default].
    assert (ct_on t = false) as Hoff by (by rewrite <- (flow_on _ _ _ _ _ Hf)).
    apply (flow_keep [] q q rc df (delete i df) t g Hf); try done.
    + intros x Hx. apply (flow_deferred _ _ _ _ _ Hf). by apply Hin.
    + congruence.
    + intros _. exists (omap call_of [p]). cbn [omap list_omap app]. rewrite Hd. apply Permutation_app_comm.
Qed.

Lemma flow_hang q rc df t st g : flow q rc df t g ->
  flow (hang_up q) rc df (mk_ct st false (ct_taken t) (ct_spawned t)) g.
Proof.
  intros [Hon Ht Ha Hd Hh Hs (lost & Hl & Hc)].
  constructor; rewrite ?hang_up_accepted; cbn [ct_on ct_taken ct_spawned]; try done.
  - apply hang_up_closed.
  - exists lost. split; [done|]. unfold under_way. by rewrite hang_up_accepted.
Qed.

(** The callback loop takes a packet: a task for the handler, or an authentication request. *)
Lemma flow_take p q rc df t st g : flow q rc df t g -> accepted q !! ct_taken t = Some p ->
  flow q rc df (mk_ct st (ct_on t) (S (ct_taken t)) (ct_spawned t ++ omap call_of [p])) g.
Proof.
  intros [Hon Ht Ha Hd Hh Hs (lost & Hl & Hc)] Hp. pose proof (drop_S _ _ _ Hp) as Hdrop.
  constructor; cbn [ct_on ct_taken ct_spawned]; try done.
  - by apply lookup_lt_Some in Hp.
  - intros r Hr. apply Ha. rewrite Hdrop. by right.
  - intros x Hx. apply Hh. rewrite Hdrop. by right.
  - apply Forall_app. split; [done|]. cbn -[call_of]. destruct (call_of p) as [c|] eqn:E; [|done].
    constructor; [by eapply call_of_from_peer|done].
  - exists lost. split; [done|]. rewrite Hc. unfold under_way. cbn [ct_on ct_taken ct_spawned].
    rewrite Hdrop. change (p :: ?l) with ([p] ++ l). by rewrite omap_app, <- !app_assoc.
Qed.

Lemma flow_run i c q rc df t g : flow q rc df t g -> ct_spawned t !! i = Some c ->
  flow q rc df (mk_ct (ct_state t) (ct_on t) (ct_taken t) (delete i (ct_spawned t))) (g ++ [c]).
Proof.
  intros [Hon Ht Ha Hd Hh Hs (lost & Hl & Hc)] Hi. constructor; cbn [ct_on ct_taken ct_spawned]; try done.
  - by apply Forall_delete.
  - exists lost. split; [done|]. rewrite Hc. unfold under_way. cbn [ct_on ct_taken ct_spawned].
    rewrite (delete_Permutation _ _ _ Hi) at 1. by rewrite <- !app_assoc.
Qed.

End Flow.

(** * A connection as a whole *)

Section Serving.
Context {HD TX QT : Type} `{!ConnHandler HD TX, !Sender TX Packet}.
Context `{ClosableLaws QT Packet, !SenderLaws QT Packet, !TrySenderLaws QT Packet}.
Context `{!Message AuthRequest}.
Context (conf : HealthyConfig) (conn : nat) (peer_addr : string).
Abbreviation Sv := (serving HD TX QT).
Abbreviation step := (serving_step (H:=HD) (TX:=TX) (QT:=QT) conf conn peer_addr).
Abbreviation run := (serving_run (H:=HD) (TX:=TX) (QT:=QT) conf conn peer_addr).
Implicit Types s : Sv.

(** What the handler was given of what the peer sent. *)
Definition given s : list call := filter from_peer (u_calls (sv_user s)).

Definition flows s : Prop :=
  flow (queue_of s) (mt_received (sv_main s)) (mt_deferred (sv_main s)) (sv_cb s) (given s).

Definition flow_view s := (mt_state (sv_main s), mt_received (sv_main s), mt_deferred (sv_main s), sv_cb s, given s).

Definition same_flow s s' : Prop := flow_view s' = flow_view s.

#[local] Instance same_flow_preorder : PreOrder same_flow.
Proof. split; [by intros s|]. intros s1 s2 s3 E1 E2. unfold same_flow in *. congruence. Qed.

Lemma flows_same s s' : same_flow s s' -> flows s -> flows s'.
Proof. unfold same_flow, flow_view, flows, queue_of. intros E. simplify_eq. congruence. Qed.

Lemma call_user_same c : ~ from_peer c -> keeps same_flow (call_user (QT:=QT) peer_addr c).
Proof.
  intros Hc s. unfold same_flow, flow_view, given. cbn. rewrite filter_app, filter_cons_False by done.
  by rewrite app_nil_r.
Qed.

Lemma send_peer_same p : keeps same_flow (send_peer (H:=HD) (QT:=QT) p).
Proof.
  apply keeps_modify. intros s. unfold same_flow. by destruct (send p (u_world (sv_user s)).2).
Qed.

Definition quiet (a : main_action) : Prop := match a with Deferred _ => False | _ => True end.

Lemma play_same l : Forall quiet l -> keeps same_flow (sfor (play_main (QT:=QT) peer_addr) l).
Proof.
  intros Hl. apply keeps_for_all; [apply _|]. eapply Forall_impl; [exact Hl|].
  intros [p|id info ok|sg|p|info] Ha; cbn [play_main].
  - apply send_peer_same.
  - apply call_user_same. by intros [].
  - apply keeps_modify. intros s. by unfold same_flow.
  - done.
  - apply call_user_same. by intros [].
Qed.

(** The main loop's turn, before what it does to the outside. *)
Definition after_turn (st : main_state QT) (l : list Packet) s : Sv := map_main (fun m =>
  mk_mt st (mt_on m) (mt_received m ++ l) (mt_deferred m) (mt_signals m)) s.

Lemma not_passed r : req_command r = Heartbeat_ \/ req_command r = Auth ->
  omap call_of [PRequest r] = [].
Proof. intros [E|E]; cbn -[call_of]; unfold call_of; by rewrite E. Qed.

Lemma turn_flows v e s st new r : flows s ->
  turn conn peer_addr v (queue_of s) e (recved_packet_tx st) new r ->
  flows (sfor (play_main (QT:=QT) peer_addr) new (after_turn st (got e) s)).1.
Proof.
  intros Hf Ht. unfold flows in Hf.
  assert (Forall quiet new ->
    flow (recved_packet_tx st) (mt_received (sv_main s) ++ got e) (mt_deferred (sv_main s)) (sv_cb s) (given s) ->
    flows (sfor (play_main (QT:=QT) peer_addr) new (after_turn st (got e) s)).1) as Hquiet.
  { intros Hq Hf'. eapply flows_same; [by apply play_same|]. exact Hf'. }
  remember (recved_packet_tx st) as q' eqn:Eq.
  destruct Ht as [now|e new er He Hl|r' now Hr|r' a now Hr Ha Hv|r' a now Hr Ha Hv|p c now Hp];
    cbn [got] in *.
  - apply Hquiet; [done|]. by apply flow_received.
  - apply Hquiet; [eapply Forall_impl; [exact Hl|]; by intros []|]. apply flow_received; [done|].
    destruct e as [| |p now|]; cbn [got]; [done..| |done].
    destruct (He p now eq_refl) as (r' & -> & Hr & _). apply not_passed. by right.
  - apply Hquiet; [by repeat constructor|]. apply flow_received; [done|]. apply not_passed. by left.
  - apply Hquiet; [by repeat constructor|]. apply flow_received; [done|]. apply not_passed. by right.
  - apply Hquiet; [by repeat constructor|]. by eapply flow_accepted.
  - pose proof (flow_forward p c _ _ _ _ _ Hf Hp) as Hf'.
    destruct (try_send p (queue_of s)) as [q'' []]; cbn [fst snd] in *; rewrite ?app_nil_r in Hf';
      [by apply Hquiet| |by apply Hquiet].
    cbn [sfor]. unfold mbind, SM_bind, flows, given, queue_of in *. cbn. by rewrite <- Eq.
Qed.

Lemma main_turn_flows e s : flows s -> flows (main_turn conf conn peer_addr e s).
Proof.
  intros Hf. unfold main_turn. destruct (mt_on (sv_main s)); [|done].
  destruct (client_main_leaves conf conn peer_addr (verdict peer_addr (u_world (sv_user s))) e
    (mt_state (sv_main s))) as (new & Hn & Ht).
  destruct (client_main _ _ _ _ _ _) as [st r]. cbn [fst snd] in *.
  rewrite Hn, drop_app_length. fold (after_turn st (got e) s).
  assert (flows (sfor (play_main (QT:=QT) peer_addr) new (after_turn st (got e) s)).1) as Hp.
  { by eapply turn_flows. }
  destruct r as [er|]; [by eapply flows_same|].
  destruct (sfor _ _ _) as [s' [[]|[]|]]; [done|by eapply flows_same].
Qed.

Lemma deferred_turn_flows i s : flows s -> flows (deferred_turn i s).
Proof.
  intros Hf. unfold deferred_turn. destruct (mt_deferred (sv_main s) !! i) as [p|] eqn:Hi; [|done].
  pose proof (flow_arrives i p _ _ _ _ _ Hf Hi) as Hf'. unfold flows, queue_of, given in *. cbn -[delete] in *.
  by destruct (send p (recved_packet_tx (mt_state (sv_main s)))).
Qed.

Lemma cb_ends_flows s : flows s -> flows (cb_ends s).
Proof. intros Hf. by apply (flow_hang _ _ _ _ (ct_state (sv_cb s))) in Hf. Qed.

(** A turn of the callback loop that takes nothing from the main loop. *)
Definition takes (e : callback_event) : bool := match e with CbPacket _ => true | _ => false end.

Lemma callback_turn_flows e s : takes e = false -> flows s -> flows (callback_turn peer_addr e s).
Proof.
  intros He Hf. unfold callback_turn. destruct (ct_on (sv_cb s)) eqn:Eo; [|done].
  set (r := callback_step peer_addr e (ct_state (sv_cb s))).
  set (s0 := map_cb _ s). assert (flows s0) as Hf0.
  { unfold flows in *. destruct Hf as [A B C D F G K]. by constructor. }
  destruct r as [st [[]|er|]] eqn:Er; try by apply cb_ends_flows. cbn [fst snd] in *.
  assert (exists l, cb_acts st = cb_acts (ct_state (sv_cb s)) ++ l /\
    Forall (fun a => match a with OnSend _ | SendCount _ _ => True | _ => False end) l) as (l & -> & Hl).
  { subst r. destruct e as [p| |p| |]; try done; cbn [callback_step] in Er;
      unfold mbind, SM_bind, sget, smodify, cb_add in Er.
    - destruct p; injection Er as <-; eexists; cbn; rewrite <- ?app_assoc; by repeat constructor.
    - injection Er as <-. eexists. by repeat constructor. }
  rewrite drop_app_length.
  assert (flows (sfor (play_cb peer_addr) l s0).1) as Hp.
  { eapply flows_same; [|exact Hf0]. apply keeps_for_all; [apply _|]. eapply Forall_impl; [exact Hl|].
    intros [] Ha; try done; cbn [play_cb].
    apply call_user_same. by intros []. }
  destruct (sfor _ _ _) as [s' [[]|[]|]]; [done|by apply cb_ends_flows].
Qed.

Lemma take_turn_eq s p : flows s -> ct_on (sv_cb s) = true ->
  accepted (queue_of s) !! ct_taken (sv_cb s) = Some p ->
  exists st, take_turn peer_addr s = map_cb (fun t =>
    mk_ct st (ct_on t) (S (ct_taken t)) (ct_spawned t ++ omap call_of [p])) s.
Proof.
  intros Hf Ho Hp. unfold take_turn. rewrite Hp, Ho. unfold callback_turn. cbn [map_cb sv_cb ct_on ct_state].
  rewrite Ho. cbn [callback_step].
  assert (p ∈ drop (ct_taken (sv_cb s)) (accepted (queue_of s))) as Hin.
  { apply (list_elem_of_lookup_2 _ 0). by rewrite lookup_drop, Nat.add_0_r. }
  unfold on_callback_packet.
  destruct p as [r|r|r]; cbn [fst snd smodify cb_add cb_acts].
  - destruct (bool_decide_reflect (req_command r = Auth)) as [Er|Er].
    + destruct (flow_auth _ _ _ _ _ Hf r Hin Er) as [a ->]. cbn [fst snd smodify cb_acts].
      rewrite drop_all. cbn [sfor]. rewrite not_passed by (by right). eexists. unfold map_cb. cbn.
      by rewrite app_nil_r.
    + cbn [fst snd smodify cb_add cb_acts]. rewrite drop_app_length.
      assert (omap call_of [PRequest r] = [CallRequest r]) as ->.
      { destruct (flow_heartbeat _ _ _ _ _ Hf _ Hin) as [[c Hc]|(r' & [= <-] & ?)]; [|done].
        rewrite (omap_call _ _ Hc). unfold call_of in Hc. by destruct (req_command r); simplify_eq. }
      by eexists.
  - rewrite drop_app_length. by eexists.
  - rewrite drop_app_length. by eexists.
Qed.

Lemma take_turn_flows s : flows s -> flows (take_turn peer_addr s).
Proof.
  intros Hf. destruct (accepted (queue_of s) !! ct_taken (sv_cb s)) as [p|] eqn:Hp;
    [|unfold take_turn; by rewrite Hp].
  destruct (ct_on (sv_cb s)) eqn:Ho; [|unfold take_turn; by rewrite Hp, Ho].
  destruct (take_turn_eq s p Hf Ho Hp) as [st ->]. by apply (flow_take p _ _ _ _ st).
Qed.

Lemma run_turn_flows i s : flows s -> flows (run_turn peer_addr i s).
Proof.
  intros Hf. unfold run_turn. destruct (ct_spawned (sv_cb s) !! i) as [c|] eqn:Hi; [|done].
  pose proof (flow_run i c _ _ _ _ _ Hf Hi) as Hf'. unfold flows, given in *. cbn -[delete].
  rewrite filter_app, filter_cons_True; [done|].
  eapply Forall_lookup_1; [|exact Hi]. apply Hf.
Qed.

Lemma serving_step_flows e s : flows s -> flows (step e s).
Proof.
  intros Hf. destruct e as [e|i| | |p| | |i|h]; cbn [serving_step].
  - by apply main_turn_flows.
  - by apply deferred_turn_flows.
  - by apply take_turn_flows.
  - destruct (queue_closed s); [by apply callback_turn_flows|done].
  - by apply callback_turn_flows.
  - by apply callback_turn_flows.
  - by apply callback_turn_flows.
  - by apply run_turn_flows.
  - exact Hf.
Qed.

Lemma serving_run_flows es s : flows s -> flows (run es s).
Proof. revert s. induction es as [|e es IH]; intros s Hf; [done|]. by apply IH, serving_step_flows. Qed.

(** ** What is under way arrives *)

(** The work of the tasks on what the peer sent already. *)
Definition hands_over (e : serving_event HD) : Prop :=
  match e with SvDeferred _ | SvTake | SvRun _ => True | _ => False end.

Definition work_left s : nat :=
  (3 * length (mt_deferred (sv_main s)) +
   2 * (length (accepted (queue_of s)) - ct_taken (sv_cb s)) + length (ct_spawned (sv_cb s)))%nat.

(** While there is work, some task can do its part of it. *)
Lemma work_goes_on s : flows s -> ct_on (sv_cb s) = true -> work_left s <> 0%nat ->
  exists e, hands_over e /\ (work_left (step e s) < work_left s)%nat /\
    ct_on (sv_cb (step e s)) = true /\ mt_received (sv_main (step e s)) = mt_received (sv_main s).
Proof.
  intros Hf Ho Hw. pose proof (flow_taken _ _ _ _ _ Hf) as Ht. unfold work_left in *.
  destruct (mt_deferred (sv_main s)) as [|p df] eqn:Ed.
  - destruct (accepted (queue_of s) !! ct_taken (sv_cb s)) as [p|] eqn:Ep.
    + exists SvTake. cbn [serving_step]. destruct (take_turn_eq s p Hf Ho Ep) as [st ->].
      apply lookup_lt_Some in Ep. unfold queue_of in *. cbn -[omap call_of]. rewrite Ed, length_app.
      assert (length (omap call_of [p]) <= 1)%nat by (cbn -[call_of]; destruct (call_of p); cbn; lia).
      split_and!; [done|cbn -[omap call_of]; lia|done..].
    + apply lookup_ge_None in Ep. destruct (ct_spawned (sv_cb s)) as [|c l] eqn:El; [cbn in Hw; lia|].
      exists (SvRun 0). cbn [serving_step]. unfold run_turn, queue_of in *. rewrite El. cbn -[delete]. rewrite Ed, El.
      split_and!; [done|cbn; lia|done..].
  - exists (SvDeferred 0). cbn [serving_step]. unfold deferred_turn. rewrite Ed. cbn [lookup list_lookup].
    pose proof (flow_on _ _ _ _ _ Hf) as Hq. rewrite Ho in Hq.
    destruct (open_send_some p (queue_of s) Hq) as (q' & Es & _). pose proof (send_accepted _ _ _ Es) as Ha.
    unfold queue_of in *. cbn -[delete]. rewrite Es. cbn -[delete]. rewrite Ed, Ha, length_app. cbn.
    split_and!; [done|lia|done..].
Qed.

Lemma work_gets_done n s : (work_left s <= n)%nat -> flows s -> ct_on (sv_cb s) = true ->
  exists es, Forall hands_over es /\ work_left (run es s) = 0%nat /\
    ct_on (sv_cb (run es s)) = true /\ mt_received (sv_main (run es s)) = mt_received (sv_main s).
Proof.
  revert s. induction n as [|n IH]; intros s Hn Hf Ho; [exists []; split_and!; [done|change (work_left s = 0%nat); lia|done..]|].
  destruct (decide (work_left s = 0%nat)) as [E|E]; [by exists []|].
  destruct (work_goes_on s Hf Ho E) as (e & He & Hlt & Ho' & Hr).
  destruct (IH (step e s)) as (es & Hes & Hw & Ho2 & Hr2); [lia|by apply serving_step_flows|done|].
  exists (e :: es). cbn [serving_run]. split_and!; [by constructor|done..|congruence].
Qed.

Lemma nothing_left s : work_left s = 0%nat ->
  under_way (queue_of s) (mt_deferred (sv_main s)) (sv_cb s) = [].
Proof.
  unfold work_left, under_way. intros Hw.
  rewrite (nil_length_inv (mt_deferred (sv_main s))), (nil_length_inv (ct_spawned (sv_cb s))) by lia.
  by rewrite drop_ge by lia.
Qed.

Lemma serving_init_flows now q h tx : is_open q = true -> accepted q = [] ->
  flows (serving_init peer_addr now q h tx).
Proof.
  intros Ho Hq. unfold flows, queue_of, given. cbn. constructor; cbn; rewrite ?Hq; try done; try lia.
  - by intros r ?%not_elem_of_nil.
  - by intros r ?%not_elem_of_nil.
  - by intros r ?%not_elem_of_nil.
  - exists []. unfold under_way. cbn. by rewrite ?Hq.
Qed.

(** ** Why the callback loop ends *)

(** The registry told it, there is nothing to come, or a callback panicked. *)
Definition may_end (es : list (serving_event HD)) s : Prop :=
  SvBroadcastClosed ∈ es \/ mt_on (sv_main s) = false \/
  exists p, CallSend p ∈ u_panics (sv_user s).

(** What is over stays so: the main loop does not start again, panics are not undone. *)
Definition ages s s' : Prop :=
  (mt_on (sv_main s) = false -> mt_on (sv_main s') = false) /\
  (forall c, c ∈ u_panics (sv_user s) -> c ∈ u_panics (sv_user s')).

#[local] Instance ages_preorder : PreOrder ages.
Proof. split; [by intros s|]. intros s1 s2 s3 [] []. split; auto. Qed.

Lemma ages_call c : keeps ages (call_user (QT:=QT) peer_addr c).
Proof. intros s. split; cbn; [done|]. intros. set_solver. Qed.

Lemma ages_play_main l : keeps ages (sfor (play_main (QT:=QT) peer_addr) l).
Proof.
  apply keeps_for; [apply _|]. intros [p|id info ok|sg|p|info]; cbn [play_main]; try apply ages_call.
  - apply keeps_modify. intros s. unfold ages. by destruct (send p (u_world (sv_user s)).2).
  - apply keeps_modify. by intros s.
  - apply keeps_modify. by intros s.
Qed.

Lemma ages_play_cb l : keeps ages (sfor (play_cb (QT:=QT) peer_addr) l).
Proof.
  apply keeps_for; [apply _|]. intros []; cbn [play_cb]; try apply ages_call;
    apply keeps_modify; by intros s.
Qed.

Lemma ages_callback e s : ages s (callback_turn peer_addr e s).
Proof.
  unfold callback_turn. destruct (ct_on (sv_cb s)); [|done]. set (s0 := map_cb _ s).
  destruct (callback_step _ _ _) as [st [[]|er|]]; cbn [fst snd]; [|done..].
  pose proof (ages_play_cb (drop (length (cb_acts (ct_state (sv_cb s)))) (cb_acts st)) s0) as Ha.
  by destruct (sfor _ _ _) as [s' [[]|[]|]].
Qed.

Lemma ages_step e s : ages s (step e s).
Proof.
  destruct e as [e|i| | |p| | |i|h]; cbn [serving_step]; try apply ages_callback; try done.
  - unfold main_turn. destruct (mt_on (sv_main s)) eqn:Eo; [|done]. set (s0 := map_main _ s).
    set (l := drop _ _). pose proof (ages_play_main l s0) as Ha. etrans; [|].
    + instantiate (1 := s0). by split.
    + destruct (client_main _ _ _ _ _ _).2, (sfor _ l s0) as [s' [[]|[]|]]; try exact Ha; (etrans; [exact Ha|]); by split.
  - unfold deferred_turn. destruct (_ !! i) as [p|]; [|done].
    by destruct (send p (queue_of _)).
  - unfold take_turn. destruct (_ !! _) as [p|]; [|done]. destruct (ct_on (sv_cb s)); [|done].
    etrans; [|apply ages_callback]. by split.
  - destruct (queue_closed s); [apply ages_callback|done].
  - unfold run_turn. destruct (_ !! i); [|done]. etrans; [|apply ages_call]. by split.
Qed.

Lemma callback_turn_end e s : takes e = false -> ct_on (sv_cb s) = true ->
  ct_on (sv_cb (callback_turn peer_addr e s)) = false ->
  e = CbPacketsClosed \/ e = CbBroadcastClosed \/
  exists p, CallSend p ∈ u_panics (sv_user (callback_turn peer_addr e s)).
Proof.
  intros He Ho. unfold callback_turn. rewrite Ho.
  destruct e as [p| |p| |]; [done|by left| | |by auto]; cbn [callback_step];
    unfold mbind, SM_bind, sget, smodify, cb_add.
  - intros Hend. right. right. exists p. revert Hend.
    assert (forall st l, cb_acts st = cb_acts (ct_state (sv_cb s)) ++ l ++ [OnSend p] ->
      Forall (fun a => match a with SendCount _ _ => True | _ => False end) l ->
      let s0 := map_cb (fun t => mk_ct st (ct_on t) (ct_taken t) (ct_spawned t)) s in
      let r := sfor (play_cb peer_addr) (drop (length (cb_acts (ct_state (sv_cb s)))) (cb_acts st)) s0 in
      let s' := match r.2 with Ok _ => r.1 | _ => cb_ends r.1 end in
      ct_on (sv_cb s') = false -> CallSend p ∈ u_panics (sv_user s')) as Hgo.
    { intros st l -> Hl s0. rewrite drop_app_length.
      assert (sfor (play_cb peer_addr) (l ++ [OnSend p]) s0 = sfor (play_cb peer_addr) [OnSend p] s0) as ->.
      { induction Hl as [|a l Ha Hl IH]; [done|]. by destruct a. }
      cbn. unfold mbind, SM_bind, mret, SM_ret, call_user. cbn [sv_user s0 map_cb].
      destruct (user_call peer_addr (CallSend p) (sv_user s)) as [u [[]|[]|]] eqn:Eu;
        subst s0; cbn; [intros E; by rewrite Ho in E|]. intros _.
      unfold user_call in Eu. destruct (run_call _ _ _) as [w [[]|[]|]]; cbn in Eu; [done|].
      injection Eu as <-. cbn. set_solver. }
    destruct p as [r|r|r]; cbn [fst snd].
    + by apply (Hgo _ []).
    + by apply (Hgo _ []).
    + eapply (Hgo _ [_]); [cbn; by rewrite <- app_assoc|by repeat constructor].
  - cbn [fst snd cb_acts]. rewrite drop_app_length. intros E.
    cbn [sfor play_cb] in E. unfold mbind, SM_bind, mret, SM_ret in E. cbn in E. congruence.
Qed.

Lemma play_main_cb l s : sv_cb (sfor (play_main (QT:=QT) peer_addr) l s).1 = sv_cb s.
Proof.
  assert (PreOrder (fun s s' : Sv => sv_cb s' = sv_cb s)) as Hpre.
  { split; [by intros s1|]. intros s1 s2 s3. congruence. }
  revert s. apply (keeps_for (fun s s' : Sv => sv_cb s' = sv_cb s)).
  intros [p|id info ok|sg|p|info] s; cbn; try done. by destruct (send p (u_world (sv_user s)).2).
Qed.

Lemma main_turn_cb e s : sv_cb (main_turn conf conn peer_addr e s) = sv_cb s.
Proof.
  unfold main_turn. destruct (mt_on (sv_main s)); [|done]. set (s0 := map_main _ s). set (l := drop _ _).
  pose proof (play_main_cb l s0) as Hl. destruct (client_main _ _ _ _ _ _).2, (sfor _ l s0) as [s' [[]|[]|]];
    exact Hl.
Qed.

Lemma serving_step_end e s : flows s -> ct_on (sv_cb s) = true -> ct_on (sv_cb (step e s)) = false ->
  may_end [e] (step e s).
Proof.
  intros Hf Ho. assert (forall s', ct_on (sv_cb s') = ct_on (sv_cb s) ->
    ct_on (sv_cb s') = false -> may_end [e] s') as Hsame by (intros s' ? ?; congruence).
  destruct e as [e|i| | |p| | |i|h]; cbn [serving_step].
  - apply Hsame. by rewrite main_turn_cb.
  - apply Hsame. unfold deferred_turn. destruct (_ !! i) as [p|]; [|done].
    by destruct (send p (queue_of _)).
  - destruct (accepted (queue_of s) !! ct_taken (sv_cb s)) as [p|] eqn:Ep.
    + destruct (take_turn_eq s p Hf Ho Ep) as [st ->]. cbn. congruence.
    + unfold take_turn. rewrite Ep. congruence.
  - destruct (queue_closed s) eqn:Eq; [|congruence]. intros _. right. left.
    apply andb_true_iff in Eq as [Eq%negb_true_iff _].
    by apply (ages_callback CbPacketsClosed s).
  - intros [?|[?|?]]%callback_turn_end; try done. right. by right.
  - intros [?|[?|?]]%callback_turn_end; try done. right. by right.
  - intros _. left. left.
  - apply Hsame. unfold run_turn. by destruct (ct_spawned (sv_cb s) !! i).
  - cbn. congruence.
Qed.

Lemma may_end_grows es e s : may_end es s -> may_end (es ++ [e]) (step e s).
Proof.
  destruct (ages_step e s) as [Hm Hp]. intros [?|[?|[p ?]]].
  - left. set_solver.
  - right. left. auto.
  - right. right. exists p. auto.
Qed.

Lemma serving_run_end es0 es s : flows s -> (ct_on (sv_cb s) = false -> may_end es0 s) ->
  ct_on (sv_cb (run es s)) = false -> may_end (es0 ++ es) (run es s).
Proof.
  revert es0 s. induction es as [|e es IH]; intros es0 s Hf Hs; [by rewrite app_nil_r|].
  cbn [serving_run]. rewrite (app_assoc es0 [e] es : es0 ++ e :: es = _).
  apply IH; [by apply serving_step_flows|]. intros He.
  destruct (ct_on (sv_cb s)) eqn:Eo; [|by apply may_end_grows, Hs].
  destruct (serving_step_end e s Hf Eo He) as [?|?]; [|by right].
  left. apply elem_of_app. by right.
Qed.

(** C8. A connection with its handler, in every interleaving of its loops and of the tasks they
    start, whatever the callbacks do. The handler is never given a packet twice nor one the
    peer did not send: what it was given so far is part of what the main loop took from the
    peer and does not answer itself. While the callback loop runs, nothing is missing: the
    rest is in the tasks started, in the channel between the loops or waiting for room
    there, and the tasks involved can always bring it to the handler, so that it was given
    exactly the packets received. The callback loop ends only if the registry is gone,
    after the main loop, or because [on_send] panicked: a request it cannot decode, which
    the code says should not happen, does not. *)
Theorem handler_given_each_once (es : list (serving_event HD)) (now : Z) (q : QT) (h : HD) (tx : TX)
    (Hopen : is_open q = true) (Hempty : accepted q = []) :
  let s := run es (serving_init peer_addr now q h tx) in
  let received := omap call_of (mt_received (sv_main s)) in
  (exists rest, received ≡ₚ given s ++ rest) /\
  (ct_on (sv_cb s) = true ->
    received ≡ₚ given s ++ under_way (queue_of s) (mt_deferred (sv_main s)) (sv_cb s) /\
    exists es', Forall hands_over es' /\
      let s' := run es' s in
      mt_received (sv_main s') = mt_received (sv_main s) /\ received ≡ₚ given s') /\
  (ct_on (sv_cb s) = false -> may_end es s).
Proof.
  intros s received. pose proof (serving_init_flows now q h tx Hopen Hempty) as H0'.
  pose proof (serving_run_flows es _ H0') as Hf. fold s in Hf.
  destruct (flow_conserved _ _ _ _ _ Hf) as (lost & Hl & Hc). split_and!.
  - by eexists.
  - intros Ho. rewrite (Hl Ho), app_nil_r in Hc. split; [exact Hc|].
    destruct (work_gets_done _ s (le_n _) Hf Ho) as (es' & Hes & Hw & Ho' & Hr).
    exists es'. split; [done|]. cbn zeta. split; [done|].
    destruct (flow_conserved _ _ _ _ _ (serving_run_flows es' s Hf)) as (lost' & Hl' & Hc').
    rewrite Hr, nothing_left, (Hl' Ho'), app_nil_r in Hc' by done. exact Hc'.
  - by apply (serving_run_end []).
Qed.

End Serving.

(** * A concrete connection *)

#[local] Instance serving_auth_message : Message AuthRequest := countable_message AuthRequest.

(** A handler that accepts everybody and says nothing. *)
#[local] Instance mute_handler : ConnHandler unit (unlimited Packet) := {|
  on_auth _ _ _ := mret true;
  on_disconnect _ _ := mret tt;
  on_push _ := mret tt;
  on_response _ := mret tt;
  on_request _ := mret tt;
  on_send _ := mret tt
|}.

Definition close_request (id : Z) : Request := Build_Request 0 Close id 5 0 [].

(** A channel with one free place: the second request waits for room in a task of its own. *)
Definition narrow_queue : bounded Packet := {| bd_items := []; bd_room := 1; bd_open := true |}.

Definition two_requests : list (serving_event unit) :=
  [SvMain (RecvPacket (PRequest (close_request 1)) 10);
   SvMain (RecvPacket (PRequest (close_request 2)) 20); SvTake; SvRun 0].

Lemma handler_given_each_once_witness :
  let s := serving_run HealthyConfig_default 7 "1.2.3.4:5" two_requests
             (serving_init "1.2.3.4:5" 0 narrow_queue tt ([] : unlimited Packet)) in
  given s = [CallRequest (close_request 1)] /\ work_left s = 3%nat /\
  exists es', Forall hands_over es' /\
    given (serving_run HealthyConfig_default 7 "1.2.3.4:5" es' s) ≡ₚ
      [CallRequest (close_request 1); CallRequest (close_request 2)].
Proof.
  intros s. split; [vm_compute; reflexivity|]. split; [vm_compute; reflexivity|].
  destruct (handler_given_each_once HealthyConfig_default 7 "1.2.3.4:5" two_requests 0 narrow_queue tt
    ([] : unlimited Packet)) as (_ & Hon & _); [reflexivity|reflexivity|].
  destruct Hon as (_ & es' & Hes & _ & Hr); [vm_compute; reflexivity|].
  exists es'. split; [exact Hes|]. symmetry. exact Hr.
Defined.
