(* ===== verification/ExampleServer.v ===== *)
(** [link/examples/server.rs]: a server on the library. Its [Handler] counts the connections
    of each user in a map shared by all, accepts every authentication, answers every request
    and passes on what is broadcast. *)

From Stdlib Require Import ZArith Lia Strings.Byte.
From stdpp Require Import base functions list strings gmap.
From S2P Require Import Prelude Deku Protos Packets Quotation Channel Config Server Serving.

(** [num += 1] on an [i32], checked. *)
Definition incr_i32 {E} (n : Z) : outcome E Z := if n + 1 <? 2 ^ 31 then Ok (n + 1) else Panic.

Section Handler.
Context {TX : Type} `{!Sender TX Packet}.
Context `{!Message AuthResponse, !Message SubscribeRequest, !Message SubscribeResponse,
  !Message LinkError}.

(** The map [conns], from user names to the number of connections. *)
Abbreviation conns := (gmap string Z).
Abbreviation HM := (SM (conns * TX) Empty_set).

(** [send_to_tx.send(..).await], an error is logged. *)
Definition send_to_tx (packet : Packet) : HM unit := smodify (fun w =>
  match send packet w.2 with Some tx => (w.1, tx) | None => w end).

(** [conns.entry(name).or_insert(0)], then [*num += 1]. *)
Definition count_conn (name : string) : HM unit :=
  smodify (fun w => (<[name := default 0 (w.1 !! name)]> w.1, w.2)) ≫= fun _ =>
  num ← sget (fun w => default 0 (w.1 !! name));
  num ← slift (incr_i32 num);
  smodify (fun w => (<[name := num]> w.1, w.2)).

Definition example_auth_response (request_id : Z) (info : AuthInfo) : Packet :=
  let raw_data := encode_to_vec {| auth_response_info := Some info |} in
  PResponse {| resp_reserved := 0; resp_command := Auth; resp_id := request_id;
               resp_status := Success; resp_body_len := len_u32 raw_data;
               resp_body := raw_data |}.

Definition example_on_auth (request_id : Z) (info : AuthInfo) : HM bool :=
  count_conn (user_name info) ≫= fun _ =>
  send_to_tx (example_auth_response request_id info) ≫= fun _ => mret true.

Definition example_subscribe_response (request : Request) : Packet :=
  let response := encode_to_vec {| sub_success := []; sub_failed := [] |} in
  PResponse {| resp_reserved := 0; resp_command := req_command request; resp_id := req_id request;
               resp_status := Success; resp_body_len := len_u32 response;
               resp_body := response |}.

Definition example_unsupported_response (request : Request) : Packet :=
  let raw_data := encode_to_vec {| code := 400; msg := "unsupported command" |} in
  PResponse {| resp_reserved := 0; resp_command := req_command request; resp_id := req_id request;
               resp_status := BadRequest; resp_body_len := len_u32 raw_data;
               resp_body := raw_data |}.

(** A subscription that does not decode is a panic ([unwrap]). *)
Definition example_on_request (request : Request) : HM unit :=
  match req_command request with
  | CmdSubAllType | CmdSubTrades | CmdSubOrderBook =>
      match decode (A:=SubscribeRequest) (req_body request) with
      | Some _ => send_to_tx (example_subscribe_response request)
      | None => slift Panic
      end
  | _ => send_to_tx (example_unsupported_response request)
  end.

#[export] Instance example_handler : ConnHandler conns TX := {|
  on_auth _ request_id info := example_on_auth request_id info;
  on_disconnect _ _ := mret tt;
  on_push _ := mret tt;
  on_response _ := mret tt;
  on_request := example_on_request;
  on_send := send_to_tx
|}.

(** [new_handler]: the factory gives each connection the same map. *)
Definition new_handler (shared : conns) (client : TX * string) : conns * TX := (shared, client.1).

End Handler.

(** * The tasks of [main] *)

(** The trade published every second, in a push for all types. *)
Definition trade_packet {T} `{Message T} (trade : T) : Packet :=
  quotation_packet (encode_to_vec trade) CmdSubAllType MtTrade.

Section Main.
Context {SX TX : Type} `{!Sender TX Packet, !Sender SX ServerSignal}.

(** The publishing task, for [n] seconds: an error is logged and it goes on. *)
Definition publish (packet : Packet) (n : nat) : SM (Server TX SX) Empty_set unit :=
  sfor (fun _ => fun s => ((send_packet packet s).1, Ok tt)) (replicate n tt).

(** After 120 seconds: [send_signal(Shutdown).unwrap()]. *)
Definition terminate : SM (Server TX SX) Empty_set unit := fun s =>
  match send_signal Shutdown s with (s, Ok _) => (s, Ok tt) | (s, _) => (s, Panic) end.

End Main.
