(* ===== verification/ExampleServerFacts.v ===== *)
(** The correctness of the example server: every request is answered, once. *)

From Stdlib Require Import ZArith Lia Strings.Byte.
From stdpp Require Import base functions list strings gmap.
From S2P Require Import Prelude Deku Protos Packets Quotation Channel Config Server ServerFacts.
From S2P Require Import Serving ServingFacts ExampleServer.

Section Answers.
Context {TX QT : Type} `{!Sender TX Packet, !SenderLaws TX Packet, !ReliableSender TX Packet}.
Context `{ClosableLaws QT Packet, !SenderLaws QT Packet, !TrySenderLaws QT Packet}.
Context `{!Message AuthRequest, !Message AuthResponse, !Message SubscribeRequest,
  !Message SubscribeResponse, !Message LinkError}.
Context (conf : HealthyConfig) (conn : nat) (peer_addr : string).
Abbreviation conns := (gmap string Z).
Abbreviation Sv := (serving conns TX QT).
Abbreviation step := (serving_step (H:=conns) (TX:=TX) (QT:=QT) conf conn peer_addr).
Abbreviation run := (serving_run (H:=conns) (TX:=TX) (QT:=QT) conf conn peer_addr).
Implicit Types (s : Sv) (w : conns * TX).

(** What a callback owes the peer. *)
Definition answer_call (c : call) : list Packet :=
  match c with
  | CallAuth request_id info => [example_auth_response request_id info]
  | CallRequest request =>
      [match req_command request with
       | CmdSubAllType | CmdSubTrades | CmdSubOrderBook => example_subscribe_response request
       | _ => example_unsupported_response request
       end]
  | _ => []
  end.

Definition auth_call (p : Packet) : option call :=
  match p with
  | PRequest r =>
      if bool_decide (req_command r = Auth)
      then (fun a => CallAuth (req_id r) (info_of a)) <$> decode (A:=AuthRequest) (req_body r)
      else None
  | _ => None
  end.

(** What a packet of the peer is owed: the request's response, and nothing for a request to
    authenticate that does not decode, which ends the connection. *)
Definition answer (p : Packet) : list Packet :=
  match p with
  | PRequest r =>
      match req_command r with
      | Heartbeat_ => [new_heartbeat_response r]
      | Auth => default [] (answer_call <$> auth_call p)
      | _ => answer_call (CallRequest r)
      end
  | _ => []
  end.

(** The responses on the channel to the peer. *)
Definition is_response (p : Packet) : bool := match p with PResponse _ => true | _ => false end.

Definition responses s : list Packet := filter is_response (accepted (u_world (sv_user s)).2).

(** The callbacks that panic: a subscription that does not decode, and one connection too
    many of one user. *)
Definition panics_on (c : call) : Prop :=
  match c with
  | CallRequest r =>
      (req_command r = CmdSubAllType \/ req_command r = CmdSubTrades \/
       req_command r = CmdSubOrderBook) /\ decode (A:=SubscribeRequest) (req_body r) = None
  | CallAuth _ _ => True
  | _ => False
  end.

Lemma send_to_tx_eq p w : exists tx, send_to_tx p w = ((w.1, tx), Ok tt) /\
  accepted tx = accepted w.2 ++ [p].
Proof.
  destruct (send_reliable p w.2) as [tx Hs]. exists tx. unfold send_to_tx, smodify. rewrite Hs.
  split; [done|by apply send_accepted].
Qed.

#[local] Arguments send_to_tx : simpl never.

(** A callback that does not panic gives its answer; one that panics gives none. *)
Lemma run_call_answers c w : (forall p, c = CallSend p -> is_response p = false) ->
  let r := run_call peer_addr c w in
  filter is_response (accepted r.1.2) =
    filter is_response (accepted w.2) ++ (if is_ok r.2 then answer_call c else []) /\
  (is_ok r.2 = false -> panics_on c).
Proof.
  intros Hc. assert (forall p w, is_response p = true -> let r := send_to_tx p w in
    r.2 = Ok tt /\ filter is_response (accepted r.1.2) = filter is_response (accepted w.2) ++ [p]) as Hsend.
  { intros p w' Hp. destruct (send_to_tx_eq p w') as (tx & -> & Ha). cbn. rewrite Ha, filter_app.
    split; [done|]. by rewrite filter_cons_True by (by rewrite Hp). }
  destruct c as [id info|info|p|r|r|p]; cbn; rewrite ?app_nil_r; try done.
  - unfold example_on_auth, count_conn, mbind, SM_bind, smodify, sget, slift, mret, SM_ret, incr_i32.
    cbn. destruct (_ <? _); cbn; [|by rewrite app_nil_r].
    match goal with |- context [send_to_tx ?p ?w] => destruct (Hsend p w eq_refl) as [Hr Ha];
      destruct (send_to_tx p w) as [w1 r1] end.
    cbn in *. subst r1. cbn. done.
  - unfold example_on_request.
    destruct (req_command r) eqn:Er; cbn;
      try (match goal with |- context [send_to_tx ?p ?w] => destruct (Hsend p w eq_refl) as [-> ->] end; done);
      (destruct (decode (A:=SubscribeRequest) (req_body r)) eqn:Ed;
       [match goal with |- context [send_to_tx ?p ?w] => destruct (Hsend p w eq_refl) as [-> ->] end; done|]);
      cbn; rewrite app_nil_r; by auto.
  - destruct (send_to_tx_eq p w) as (tx & -> & Ha). cbn. rewrite Ha, filter_app, filter_cons_False.
    + by rewrite app_nil_r.
    + rewrite (Hc p eq_refl). by intros [].
Qed.

(** ** The account of a connection *)

Definition beat (p : Packet) : list Packet :=
  match p with
  | PRequest r => if bool_decide (req_command r = Heartbeat_) then [new_heartbeat_response r] else []
  | _ => []
  end.

Definition is_auth (c : call) : bool := match c with CallAuth _ _ => true | _ => false end.

(** What the peer was sent is what the heartbeats received and the callbacks that did not
    panic owe it; the authentications are those of the requests received. *)
Record account (received : list Packet) (u : user conns TX) : Prop := {
  acc_calls : exists ok, u_calls u ≡ₚ ok ++ u_panics u /\
    filter is_response (accepted (u_world u).2) ≡ₚ (received ≫= beat) ++ (ok ≫= answer_call);
  acc_auth : filter is_auth (u_calls u) = omap auth_call received;
  acc_panics : Forall panics_on (u_panics u)
}.

Definition accounted s : Prop := account (mt_received (sv_main s)) (sv_user s).

(** A callback, on account of the packets [l]. *)
Lemma account_call c l rc u : account rc u -> (forall p, c = CallSend p -> is_response p = false) ->
  l ≫= beat = [] -> omap auth_call l = filter is_auth [c] ->
  account (rc ++ l) (user_call peer_addr c u).1.
Proof.
  intros [(ok & Hc & Hr) Ha Hp] Hs Hb Hl. destruct (run_call_answers c (u_world u) Hs) as [Hans Hpan].
  unfold user_call. destruct (run_call peer_addr c (u_world u)) as [w r]. cbn [fst snd] in *.
  constructor; cbn [u_world u_calls u_panics].
  - exists (ok ++ if is_ok r then [c] else []). rewrite Hc, Hans, Hr, !bind_app, Hb, app_nil_r. split.
    + destruct (is_ok r); rewrite ?app_nil_r, <- ?app_assoc; [|done].
      apply Permutation_app_head, Permutation_app_comm.
    + destruct (is_ok r); cbn; by rewrite ?app_nil_r, <- ?app_assoc.
  - by rewrite filter_app, omap_app, Ha, Hl.
  - apply Forall_app. split; [done|]. destruct (is_ok r); [constructor|]. constructor; [by apply Hpan|done].
Qed.

(** A packet sent outside of the callbacks. *)
Lemma account_beat p l rc u tx : account rc u -> send p (u_world u).2 = Some tx ->
  filter is_response [p] = l ≫= beat -> omap auth_call l = [] ->
  account (rc ++ l) (mk_user ((u_world u).1, tx) (u_calls u) (u_panics u)).
Proof.
  intros [(ok & Hc & Hr) Ha Hp] Hs Hb Hl. constructor; cbn [u_world u_calls u_panics snd].
  - exists ok. split; [done|]. rewrite (send_accepted _ _ _ Hs), filter_app, Hr, Hb, bind_app.
    rewrite <- !app_assoc. apply Permutation_app_head, Permutation_app_comm.
  - by rewrite omap_app, Hl, app_nil_r.
  - done.
Qed.

Lemma account_more l rc u : account rc u -> l ≫= beat = [] -> omap auth_call l = [] -> account (rc ++ l) u.
Proof.
  intros [(ok & Hc & Hr) Ha Hp] Hb Hl. constructor; [|by rewrite omap_app, Hl, app_nil_r|done].
  exists ok. by rewrite bind_app, Hb, app_nil_r.
Qed.

Lemma play_leaving l s : Forall leaving l -> accounted s ->
  accounted (sfor (play_main (QT:=QT) peer_addr) l s).1.
Proof.
  intros Hl. revert s. induction Hl as [|a l Ha Hl IH]; intros s Hs; [done|]. cbn [sfor].
  unfold mbind, SM_bind. destruct a as [p|id info ok|sg|p|info]; try done; cbn [play_main].
  - unfold smodify. by apply IH.
  - unfold call_user. pose proof (account_call (CallDisconnect info) [] _ _ Hs) as Hc.
    rewrite app_nil_r in Hc. destruct (user_call peer_addr (CallDisconnect info) (sv_user s)) as [u [[]|[]|]];
      [apply IH|]; by apply Hc.
Qed.

Lemma call_of_unanswered p c : call_of p = Some c -> [p] ≫= beat = [] /\ omap auth_call [p] = [].
Proof.
  intros Hc. destruct p as [r| |]; [|done..]. unfold call_of in Hc. cbn.
  by destruct (req_command r).
Qed.

Lemma turn_account v e s st new r : accounted s ->
  turn conn peer_addr v (queue_of s) e (recved_packet_tx st) new r ->
  accounted (sfor (play_main (QT:=QT) peer_addr) new (after_turn st (got e) s)).1.
Proof.
  intros Ha Ht. remember (recved_packet_tx st) as q' eqn:Eq.
  assert (forall l, l ≫= beat = [] -> omap auth_call l = [] -> accounted (after_turn st l s)) as Hmore
    by (intros l; by apply account_more).
  assert (forall id info c ok l, auth_call c = Some (CallAuth id info) -> [c] ≫= beat = [] -> Forall (fun a => match a with SendSignal _ => True | _ => False end) l ->
    accounted (sfor (play_main (QT:=QT) peer_addr) (OnAuth id info ok :: l) (after_turn st [c] s)).1) as Hcall.
  { intros id info c ok l Hc Hb Hl. cbn [sfor play_main]. unfold mbind, SM_bind, call_user, after_turn.
    cbn [map_main sv_user sv_main sv_cb].
    pose proof (account_call (CallAuth id info) [c] _ _ Ha) as Hac.
    destruct (user_call peer_addr (CallAuth id info) (sv_user s)) as [u rr]. cbn [fst snd] in *.
    assert (account (mt_received (sv_main s) ++ [c]) u) as Hu.
    { apply Hac; [done..|]. cbn -[auth_call]. by rewrite Hc. }
    destruct rr as [[]|[]|]; [|exact Hu].
    apply play_leaving; [|exact Hu]. eapply Forall_impl; [exact Hl|]. by intros []. }
  destruct Ht as [now|e new er He Hl|r' now Hr|r' a now Hr Hd Hv|r' a now Hr Hd Hv|p c now Hp];
    cbn [got] in *.
  - by apply Hmore.
  - apply play_leaving; [done|]. apply Hmore; destruct e as [| |p now|]; try done;
      destruct (He p now eq_refl) as (r' & -> & Hr & Hd); cbn; rewrite Hr; cbn; by rewrite ?Hd.
  - cbn [sfor play_main]. unfold mbind, SM_bind, send_peer, smodify. cbn [after_turn map_main sv_user].
    destruct (send_reliable (new_heartbeat_response r') (u_world (sv_user s)).2) as [tx Hs]. rewrite Hs.
    apply (account_beat _ [PRequest r'] _ _ tx Ha Hs); cbn; by rewrite Hr.
  - apply Hcall; [cbn; by rewrite Hr, Hd|cbn; by rewrite Hr|constructor].
  - apply Hcall; [cbn; by rewrite Hr, Hd|cbn; by rewrite Hr|by repeat constructor].
  - destruct (call_of_unanswered p c Hp). destruct (try_send p (queue_of s)).2; by apply Hmore.
Qed.

Lemma main_turn_account e s : accounted s -> accounted (main_turn conf conn peer_addr e s).
Proof.
  intros Hs. unfold main_turn. destruct (mt_on (sv_main s)); [|done].
  destruct (client_main_leaves conf conn peer_addr (verdict peer_addr (u_world (sv_user s))) e
    (mt_state (sv_main s))) as (new & Hn & Ht).
  destruct (client_main _ _ _ _ _ _) as [st r]. cbn [fst snd] in *.
  rewrite Hn, drop_app_length. fold (after_turn st (got e) s).
  pose proof (turn_account _ _ _ _ _ _ Hs Ht) as Hp.
  destruct r as [er|]; [exact Hp|]. destruct (sfor _ _ _) as [s' [[]|[]|]]; exact Hp.
Qed.

(** A callback that is no authentication, on no account. *)
Lemma account_other c rc u : account rc u -> (forall p, c = CallSend p -> is_response p = false) ->
  is_auth c = false -> account rc (user_call peer_addr c u).1.
Proof.
  intros Ha Hs Hc. rewrite <- (app_nil_r rc). apply account_call; try done.
  rewrite filter_cons_False; [done|]. rewrite Hc. by intros [].
Qed.

Definition no_response (e : callback_event) : Prop :=
  match e with CbBroadcast p => is_response p = false | _ => True end.

Lemma play_cb_account l s : accounted s ->
  Forall (fun a => match a with OnSend p => is_response p = false | _ => True end) l ->
  accounted (sfor (play_cb (QT:=QT) peer_addr) l s).1.
Proof.
  intros Hs Hl. revert s Hs. induction Hl as [|a l Ha Hl IH]; intros s Hs; [done|]. cbn [sfor].
  unfold mbind, SM_bind. destruct a as [r|r|r|p|]; cbn [play_cb]; try by apply IH.
  unfold call_user. pose proof (account_other (CallSend p) _ _ Hs) as Hc.
  destruct (user_call peer_addr (CallSend p) (sv_user s)) as [u [[]|[]|]]; [apply IH|];
    (apply Hc; [by intros p' [= <-]|done]).
Qed.

Lemma callback_turn_account e s : no_response e -> accounted s -> accounted (callback_turn peer_addr e s).
Proof.
  intros He Hs. unfold callback_turn. destruct (ct_on (sv_cb s)); [|done].
  destruct (callback_step peer_addr e (ct_state (sv_cb s))) as [st [[]|er|]] eqn:Er; cbn [fst snd]; try exact Hs.
  set (s0 := map_cb _ s).
  assert (exists l, cb_acts st = cb_acts (ct_state (sv_cb s)) ++ l /\
    Forall (fun a => match a with OnSend p => is_response p = false | _ => True end) l) as (l & -> & Hl).
  { destruct e as [p| |p| |]; cbn [callback_step] in Er; try done.
    - unfold on_callback_packet, smodify, cb_add, sfail in Er. destruct p as [r|r|r];
        [destruct (bool_decide _); [destruct (decode _)|]|..]; try discriminate Er; injection Er as <-; cbn;
        eexists; (split; [done|by repeat constructor]) || (split; [by rewrite app_nil_r|constructor]).
    - unfold mbind, SM_bind, sget, smodify, cb_add in Er.
      destruct p; injection Er as <-; eexists; cbn; rewrite <- ?app_assoc; (split; [done|by repeat constructor]).
    - unfold mbind, SM_bind, sget, smodify, cb_add in Er. injection Er as <-. eexists.
      split; [done|by repeat constructor]. }
  rewrite drop_app_length. pose proof (play_cb_account l s0 Hs Hl) as Hp.
  destruct (sfor _ _ _) as [s' [[]|[]|]]; exact Hp.
Qed.

(** The server publishes pushes, never responses ([trade_packet]). *)
Definition publishes (e : serving_event conns) : Prop :=
  match e with SvBroadcast p => is_response p = false | _ => True end.

Lemma serving_step_account e s : publishes e -> flows s -> accounted s -> accounted (step e s).
Proof.
  intros He Hf Hs. destruct e as [e|i| | |p| | |i|h]; cbn [serving_step].
  - by apply main_turn_account.
  - unfold deferred_turn. destruct (_ !! i) as [p|]; [|done]. by destruct (send p (queue_of _)).
  - unfold take_turn. destruct (_ !! _) as [p|]; [|done]. destruct (ct_on (sv_cb s)); [|done].
    by apply callback_turn_account.
  - destruct (queue_closed s); [by apply callback_turn_account|done].
  - by apply callback_turn_account.
  - by apply callback_turn_account.
  - by apply callback_turn_account.
  - unfold run_turn. destruct (ct_spawned (sv_cb s) !! i) as [c|] eqn:Ei; [|done].
    pose proof (Forall_lookup_1 _ _ _ _ (flow_spawned _ _ _ _ _ Hf) Ei) as Hc.
    unfold accounted. cbn. apply account_other; [done|by intros p ->|by destruct c].
  - destruct Hs as [(ok & Hc & Hr) Ha Hp]. constructor; [exists ok|..]; done.
Qed.

Lemma serving_run_account es s : Forall publishes es -> flows s -> accounted s -> accounted (run es s).
Proof.
  intros Hes. revert s. induction Hes as [|e es He Hes IH]; intros s Hf Hs; [done|].
  apply IH; [by apply serving_step_flows|by apply serving_step_account].
Qed.

(** ** Every request is answered *)

Lemma answer_parts ps : ps ≫= answer ≡ₚ
  (ps ≫= beat) ++ (omap auth_call ps ≫= answer_call) ++ (omap call_of ps ≫= answer_call).
Proof.
  induction ps as [|p ps IH]; [done|]. change (p :: ps) with ([p] ++ ps).
  rewrite !omap_app, !bind_app, IH.
  assert ([p] ≫= answer = ([p] ≫= beat) ++ (omap auth_call [p] ≫= answer_call) ++
    (omap call_of [p] ≫= answer_call)) as ->.
  { destruct p as [r|r|r]; [|done..]. cbn. unfold call_of. destruct (req_command r) eqn:Er; cbn;
      rewrite ?(bool_decide_eq_false_2 (_ = Heartbeat_)), ?(bool_decide_eq_false_2 (_ = Auth)),
        ?bool_decide_eq_true_2, ?Er by done; try done.
    by destruct (decode (req_body r)). }
  set (b1 := [p] ≫= beat). set (a1 := omap auth_call [p] ≫= answer_call).
  set (c1 := omap call_of [p] ≫= answer_call). rewrite <- !app_assoc. apply Permutation_app_head.
  rewrite (app_assoc c1), (Permutation_app_comm c1), <- app_assoc, (app_assoc a1), (Permutation_app_comm a1).
  rewrite <- !app_assoc. apply Permutation_app_head, Permutation_app_head.
  rewrite (app_assoc c1), (Permutation_app_comm c1). by rewrite <- app_assoc.
Qed.

Lemma calls_parts cs : cs ≫= answer_call ≡ₚ
  (filter is_auth cs ≫= answer_call) ++ (filter from_peer cs ≫= answer_call).
Proof.
  induction cs as [|c cs IH]; [done|]. change (c :: cs) with ([c] ++ cs).
  rewrite !filter_app, !bind_app, IH. rewrite !app_assoc. apply Permutation_app_tail.
  assert ([c] ≫= answer_call = (filter is_auth [c] ≫= answer_call) ++ (filter from_peer [c] ≫= answer_call))
    as -> by (by destruct c).
  rewrite <- !app_assoc. apply Permutation_app_head, Permutation_app_comm.
Qed.

(** The balance: what the packets received are owed was sent, is lost with a callback that
    panicked, or is still to come. *)
Lemma balance s : flows s -> accounted s -> exists lost, (ct_on (sv_cb s) = true -> lost = []) /\
  mt_received (sv_main s) ≫= answer ≡ₚ responses s ++
    (u_panics (sv_user s) ≫= answer_call) ++
    ((under_way (queue_of s) (mt_deferred (sv_main s)) (sv_cb s) ++ lost) ≫= answer_call).
Proof.
  intros Hf [(ok & Hc & Hr) Ha Hp]. destruct (flow_conserved _ _ _ _ _ Hf) as (lost & Hl & Hcons).
  exists lost. split; [done|]. unfold responses. rewrite answer_parts, Hr, Hcons, <- Ha.
  rewrite (bind_app answer_call (given s)). unfold given.
  rewrite <- !app_assoc. apply Permutation_app_head.
  rewrite (app_assoc (filter is_auth _ ≫= _)), <- calls_parts, Hc, bind_app. by rewrite <- !app_assoc.
Qed.

(** C10. The example server answers every request once. In every interleaving, whatever the peer
    sends, as long as the server publishes pushes: the responses sent to the peer are among
    those the requests received call for, heartbeats and authentications included, each
    under the id and the command of its request; while the callback loop runs, what is
    missing is still on its way to the handler or was lost by a callback that panicked, and
    the tasks involved can always bring the rest. Only a subscription that does not decode
    and the count of an authentication panic: they are never answered. *)
Theorem example_server_answers_all (es : list (serving_event conns)) (now : Z) (q : QT)
    (h : conns) (tx : TX) (Hpub : Forall publishes es) (Hopen : is_open q = true)
    (Hq : accepted q = []) (Htx : accepted tx = []) :
  let s := run es (serving_init peer_addr now q h tx) in
  let owed := mt_received (sv_main s) ≫= answer in
  (exists rest, owed ≡ₚ responses s ++ rest) /\
  (ct_on (sv_cb s) = true ->
    owed ≡ₚ responses s ++ (u_panics (sv_user s) ≫= answer_call) ++
      (under_way (queue_of s) (mt_deferred (sv_main s)) (sv_cb s) ≫= answer_call) /\
    exists es', Forall hands_over es' /\
      let s' := run es' s in
      mt_received (sv_main s') = mt_received (sv_main s) /\
      owed ≡ₚ responses s' ++ (u_panics (sv_user s') ≫= answer_call)) /\
  Forall panics_on (u_panics (sv_user s)).
Proof.
  intros s owed. pose proof (serving_init_flows (HD:=conns) (TX:=TX) peer_addr now q h tx Hopen Hq) as Hf0.
  assert (accounted (serving_init peer_addr now q h tx)) as Ha0.
  { constructor; [exists []; split; [done|by cbn; rewrite Htx]|done..]. }
  pose proof (serving_run_flows conf conn peer_addr es _ Hf0) as Hf.
  pose proof (serving_run_account es _ Hpub Hf0 Ha0) as Ha. fold s in Hf, Ha.
  destruct (balance s Hf Ha) as (lost & Hl & Hb). split_and!; [by eexists| |apply Ha].
  intros Ho. rewrite (Hl Ho), app_nil_r in Hb. split; [exact Hb|].
  destruct (work_gets_done conf conn peer_addr _ s (le_n _) Hf Ho) as (es' & Hes & Hw & Ho' & Hr).
  exists es'. split; [done|]. cbn zeta. split; [done|].
  assert (Forall publishes es') as Hpub' by (eapply Forall_impl; [exact Hes|]; by intros []).
  destruct (balance (run es' s)) as (lost' & Hl' & Hb').
  - by apply serving_run_flows.
  - by apply serving_run_account.
  - unfold owed. rewrite <- Hr. rewrite (Hl' Ho'), nothing_left in Hb' by done.
    cbn [app mbind list_bind] in Hb'. by rewrite app_nil_r in Hb'.
Qed.

End Answers.

(** * A concrete run *)

#[local] Instance ex_auth_request : Message AuthRequest := countable_message AuthRequest.
#[local] Instance ex_auth_response : Message AuthResponse := countable_message AuthResponse.
#[local] Instance ex_subscribe : Message SubscribeRequest := countable_message SubscribeRequest.
#[local] Instance ex_subscribed : Message SubscribeResponse := countable_message SubscribeResponse.
#[local] Instance ex_link_error : Message LinkError := countable_message LinkError.

Definition ex_request (cmd : Command) (id : Z) (body : list byte) : Request :=
  Build_Request 0 cmd id 5 (len_u32 body) body.

Definition ex_login : Request := ex_request Auth 1
  (encode_to_vec {| auth_info := Some (Build_AuthInfo "u" "p" "a") |}).
Definition ex_sub : Request := ex_request CmdSubTrades 2
  (encode_to_vec {| all := true; counter_ids := []; span_index := 0 |}).
Definition ex_bad_sub : Request := ex_request CmdSubOrderBook 3 [xff].

(** A trade, as the protobuf library encoded it. *)
#[local] Instance ex_trade : Message (list byte) := {| encode_to_vec l := l; decode := Some |}.

(** A login, a subscription, one that does not decode, a heartbeat, a command nobody
    supports, and a trade in between; two places in the channel. *)
Definition ex_queue : bounded Packet := {| bd_items := []; bd_room := 2; bd_open := true |}.

Definition ex_events : list (serving_event (gmap string Z)) :=
  [SvMain (RecvPacket (PRequest ex_login) 10); SvTake;
   SvMain (RecvPacket (PRequest ex_sub) 20); SvBroadcast (trade_packet [x2a]);
   SvMain (RecvPacket (PRequest ex_bad_sub) 30); SvTake;
   SvMain (RecvPacket (PRequest (ex_request Heartbeat_ 4 [])) 40); SvDeferred 0; SvTake; SvRun 1;
   SvMain (RecvPacket (PRequest (ex_request Close 5 [])) 50)].

Abbreviation ex_run es s := (serving_run (QT:=bounded Packet) HealthyConfig_default 7 "1.2.3.4:5" es s).
Abbreviation ex_start := (serving_init (TX:=unlimited Packet) "1.2.3.4:5" 0 ex_queue
  (∅ : gmap string Z) []).

Lemma example_server_answers_all_witness :
  let s := ex_run ex_events ex_start in
  responses s = [example_auth_response 1 (Build_AuthInfo "u" "p" "a");
                 new_heartbeat_response (ex_request Heartbeat_ 4 [])] /\
  u_panics (sv_user s) = [CallRequest ex_bad_sub] /\
  exists es', Forall hands_over es' /\
    responses (ex_run es' s) ++ (u_panics (sv_user (ex_run es' s)) ≫= answer_call) ≡ₚ
      [example_auth_response 1 (Build_AuthInfo "u" "p" "a"); example_subscribe_response ex_sub;
       example_subscribe_response ex_bad_sub; new_heartbeat_response (ex_request Heartbeat_ 4 []);
       example_unsupported_response (ex_request Close 5 [])].
Proof.
  intros s. split; [vm_compute; reflexivity|]. split; [vm_compute; reflexivity|].
  destruct (example_server_answers_all (TX:=unlimited Packet) HealthyConfig_default 7 "1.2.3.4:5" ex_events 0
    ex_queue ∅ []) as (_ & Hon & _).
  - repeat (apply List.Forall_cons; [exact I || reflexivity|]). apply List.Forall_nil.
  - reflexivity.
  - reflexivity.
  - reflexivity.
  - destruct Hon as (_ & es' & Hes & _ & Hr); [vm_compute; reflexivity|].
    exists es'. split; [exact Hes|]. symmetry. exact Hr.
Defined.
