(* ===== verification/Broadcast.v ===== *)
(** The interface of [tokio::sync::broadcast] with one receiver, as the example clients use it:
    a value sent is kept until it is received or until newer ones need its place; the receiver
    is told how many it missed, before it is given the oldest one kept. *)

From Stdlib Require Import ZArith Lia.
From stdpp Require Import base list.
From S2P Require Import Prelude.

(** [Ok(value)], [Err(Lagged(n))], [Err(Closed)] *)
Inductive recv_result (A : Type) : Type :=
| Received (a : A)
| Lagged (n : Z)
| RecvClosed.
Arguments Received {A}.
Arguments Lagged {A}.
Arguments RecvClosed {A}.

Class Broadcast (B A : Type) := {
  (** [None]: an error, there is no receiver *)
  bc_send : A -> B -> option B;
  (** [None]: the receiver waits *)
  bc_recv : B -> option (recv_result A * B);
  (** the receiver, and the last sender, are dropped *)
  bc_leave : B -> B;
  bc_close : B -> B;
  bc_listening : B -> bool;
  bc_closed : B -> bool;
  (** how many values the receiver missed, and the values kept for it, oldest first *)
  bc_missed : B -> nat;
  bc_kept : B -> list A
}.

Class BroadcastLaws (B A : Type) `{Broadcast B A} : Prop := {
  bc_send_kept a b : bc_listening b = true -> exists b' k,
    bc_send a b = Some b' /\ bc_listening b' = true /\ bc_closed b' = bc_closed b /\
    (k <= length (bc_kept b))%nat /\ bc_missed b' = (bc_missed b + k)%nat /\
    bc_kept b' = drop k (bc_kept b ++ [a]);
  bc_send_alone a b : bc_listening b = false -> bc_send a b = None;
  bc_recv_missed b : bc_missed b <> O -> exists b',
    bc_recv b = Some (Lagged (Z.of_nat (bc_missed b)), b') /\
    bc_listening b' = bc_listening b /\ bc_closed b' = bc_closed b /\
    bc_missed b' = O /\ bc_kept b' = bc_kept b;
  bc_recv_kept a l b : bc_missed b = O -> bc_kept b = a :: l -> exists b',
    bc_recv b = Some (Received a, b') /\
    bc_listening b' = bc_listening b /\ bc_closed b' = bc_closed b /\
    bc_missed b' = O /\ bc_kept b' = l;
  bc_recv_empty b : bc_missed b = O -> bc_kept b = [] ->
    bc_recv b = if bc_closed b then Some (RecvClosed, b) else None;
  bc_left b : bc_listening (bc_leave b) = false;
  bc_closes b : bc_closed (bc_close b) = true /\ bc_listening (bc_close b) = bc_listening b /\
    bc_missed (bc_close b) = bc_missed b /\ bc_kept (bc_close b) = bc_kept b
}.

(** A channel with [S rg_more] places. *)
Record ring (A : Type) : Type := mk_ring {
  rg_more : nat;
  rg_missed : nat;
  rg_kept : list A;
  rg_listening : bool;
  rg_closed : bool
}.
Arguments mk_ring {A}.
Arguments rg_more {A}.
Arguments rg_missed {A}.
Arguments rg_kept {A}.
Arguments rg_listening {A}.
Arguments rg_closed {A}.

Definition ring_new {A} (more : nat) : ring A := mk_ring more 0 [] true false.

Definition ring_send {A} (a : A) (b : ring A) : option (ring A) :=
  if rg_listening b then
    let k := (length (rg_kept b) - rg_more b)%nat in
    Some (mk_ring (rg_more b) (rg_missed b + k) (drop k (rg_kept b ++ [a])) true (rg_closed b))
  else None.

Definition ring_recv {A} (b : ring A) : option (recv_result A * ring A) :=
  let with_kept l := mk_ring (rg_more b) 0 l (rg_listening b) (rg_closed b) in
  match rg_missed b, rg_kept b with
  | S n, l => Some (Lagged (Z.of_nat (S n)), with_kept l)
  | O, a :: l => Some (Received a, with_kept l)
  | O, [] => if rg_closed b then Some (RecvClosed, b) else None
  end.

#[export] Instance ring_broadcast A : Broadcast (ring A) A := {|
  bc_send := ring_send;
  bc_recv := ring_recv;
  bc_leave b := mk_ring (rg_more b) (rg_missed b) (rg_kept b) false (rg_closed b);
  bc_close b := mk_ring (rg_more b) (rg_missed b) (rg_kept b) (rg_listening b) true;
  bc_listening := rg_listening;
  bc_closed := rg_closed;
  bc_missed := rg_missed;
  bc_kept := rg_kept
|}.

#[export] Instance ring_broadcast_laws A : BroadcastLaws (ring A) A.
Proof.
  constructor.
  - intros a [more n l o c]; cbn; intros ->. eexists _, (length l - more)%nat.
    split_and!; try reflexivity. apply Nat.le_sub_l.
  - intros a [more n l o c]; cbn; by intros ->.
  - intros [more [|n] l o c]; cbn; [done|]. intros _. eexists. by split_and!.
  - intros a l [more n k o c]; cbn; intros -> ->. eexists. by split_and!.
  - intros [more n k o c]; cbn; by intros -> ->.
  - done.
  - done.
Qed.
