(* ===== verification/Consuming.v ===== *)
(** The client with the user's consumer: the trait [LinkConsumer] of [link/src/client.rs], and
    the two tasks that call it. The consumer task awaits [on_connected], [on_push],
    [on_response] and [on_request], one after the other; the link task awaits
    [on_conn_event].

    [Client] gives the two tasks and a trace of what they do; here the callbacks of the trace
    are called. A callback is one step. One that panics ends the task that called it: the
    consumer task's end closes the channel between the two tasks. *)

From Stdlib Require Import ZArith Lia Strings.Byte.
From stdpp Require Import base functions list strings gmap.
From S2P Require Import Prelude Deku Protos Packets Channel Config Client.

(** * The consumer

    [G] is the state of the consumer: what it shares with the rest of the user's program. *)

Abbreviation consumer_of G A := (SM G Empty_set A).

Class LinkConsumer (G : Type) := {
  on_conn_event : ClientConnEvent -> consumer_of G unit;
  on_connected : string -> consumer_of G unit;
  on_push : Push -> consumer_of G unit;
  on_response : Response -> consumer_of G unit;
  on_request : Request -> consumer_of G unit
}.

Inductive consumer_call : Type :=
| CcConnEvent (event : ClientConnEvent)
| CcConnected
| CcPush (push : Push)
| CcResponse (response : Response)
| CcRequest (request : Request).

(** The callback an action of the trace is. *)
Definition consumer_call_of {R} (a : action R) : option consumer_call :=
  match a with
  | OnConnEvent event => Some (CcConnEvent event)
  | OnConnected => Some CcConnected
  | OnPush push => Some (CcPush push)
  | OnResponse response => Some (CcResponse response)
  | OnRequest request => Some (CcRequest request)
  | _ => None
  end.

(** The client, the consumer, whether the consumer task runs, the callbacks called. *)
Record consuming (R PT IT G : Type) : Type := mk_consuming {
  cs_client : client_state R PT IT;
  cs_user : G;
  cs_alive : bool;
  cs_calls : list consumer_call
}.
Arguments mk_consuming {R PT IT G}.
Arguments cs_client {R PT IT G}.
Arguments cs_user {R PT IT G}.
Arguments cs_alive {R PT IT G}.
Arguments cs_calls {R PT IT G}.

Section Consuming.
Context {R PT IT G : Type} `{Closable PT Packet} `{!Sender IT Packet, !LinkConsumer G}.
Context `{!Message AuthRequest, !Message SubscribeRequest, !Message Heartbeat,
  !Message LinkError}.
Context (conf : LinkClientConfig) (peer : string).

Abbreviation Co := (consuming R PT IT G).

Definition run_consumer_call (c : consumer_call) : consumer_of G unit :=
  match c with
  | CcConnEvent event => on_conn_event event
  | CcConnected => on_connected peer
  | CcPush push => on_push push
  | CcResponse response => on_response response
  | CcRequest request => on_request request
  end.

Definition call_consumer (c : consumer_call) : SM Co Empty_set unit := fun s =>
  let r := run_consumer_call c (cs_user s) in
  (mk_consuming (cs_client s) r.1 (cs_alive s) (cs_calls s ++ [c]), r.2).

(** The callbacks among what a task did since the trace was [n] long. *)
Definition new_calls (n : nat) (s : client_state R PT IT) : list consumer_call :=
  omap consumer_call_of (drop n (acts s)).

Definition set_client (c : client_state R PT IT) (s : Co) : Co :=
  mk_consuming c (cs_user s) (cs_alive s) (cs_calls s).

(** A turn of the link task; a callback that panics ends it. *)
Definition link_turn (e : data_event R) : SM Co data_exit unit := fun s =>
  let n := length (acts (cs_client s)) in
  let r := data_step conf e (cs_client s) in
  let p := sfor call_consumer (new_calls n r.1) (set_client r.1 s) in
  (p.1, match p.2 with Ok _ => r.2 | _ => Panic end).

(** The consumer task is gone, and with it the receiver of its channel. *)
Definition consumer_dies (s : Co) : Co :=
  mk_consuming (set_process (hang_up (packet_process_tx (cs_client s))) (cs_client s))
    (cs_user s) false (cs_calls s).

Definition consumer_turn : SM Co data_exit unit := fun s =>
  if cs_alive s then
    let n := length (acts (cs_client s)) in
    let r := consume (cs_client s) in
    let p := sfor call_consumer (new_calls n r.1) (set_client r.1 s) in
    match p.2 with Ok _ => (p.1, Ok tt) | _ => (consumer_dies p.1, Ok tt) end
  else (s, Ok tt).

Definition consuming_step (e : option (data_event R)) : SM Co data_exit unit :=
  match e with Some e => link_turn e | None => consumer_turn end.

(** The two tasks interleaved on one connection. *)
Definition consuming_run : list (option (data_event R)) -> SM Co data_exit unit :=
  sfor consuming_step.

Definition consuming_init (c : client_state R PT IT) (g : G) : Co := mk_consuming c g true [].

End Consuming.
