(* ===== verification/ConsumingFacts.v ===== *)
(** The client with its consumer ([Consuming]): what the consumer is given, and what becomes of
    a client whose consumer panicked. *)

From Stdlib Require Import ZArith Lia Strings.Byte.
From stdpp Require Import base functions list strings gmap.
From S2P Require Import Prelude Deku Protos Packets Channel Config Client ClientFacts Consuming.

Section Facts.
Context {R PT IT G : Type} `{ClosableLaws PT Packet, !SenderLaws PT Packet, !TrySenderLaws PT Packet}.
Context `{!Sender IT Packet, !LinkConsumer G}.
Context `{!Message AuthRequest, !Message SubscribeRequest, !Message Heartbeat,
  !Message LinkError}.
Context (conf : LinkClientConfig) (peer : string).
Abbreviation St := (client_state R PT IT).
Abbreviation Co := (consuming R PT IT G).
Implicit Types (s : St) (t : Co).

(** * The link task without a consumer *)

(** Nobody takes packets any more. *)
Definition dead s : Prop := is_open (packet_process_tx s) = false.

(** What only the consumer task does: its callbacks, and the answers to callers. *)
Definition served (a : action R) : bool :=
  match a with
  | OnConnected | OnPush _ | OnResponse _ | OnRequest _ | Reply _ _ => true
  | _ => false
  end.

Definition quiet s s' : Prop :=
  filter served (acts s') = filter served (acts s) /\ acts s `prefix_of` acts s'.

#[local] Instance quiet_preorder : PreOrder quiet.
Proof. split; [by intros s|]. intros s1 s2 s3 [] []. split; [congruence|by etrans]. Qed.

Lemma quiet_act a s : served a = false -> quiet s (add_act a s).
Proof.
  intros Ha. split; [|by eexists]. cbn. rewrite filter_app, filter_cons_False, app_nil_r; [done|].
  rewrite Ha. by intros [].
Qed.

Lemma quiet_stable : stable (fun _ => True) True quiet.
Proof.
  constructor; try done; [apply _|..].
  - intros s. apply (quiet_act (Drew _) (set_id_gen _ s) eq_refl).
  - intros s a Ha. apply quiet_act. by destruct a.
  - intros s id w. apply (quiet_act (Registered _ _) (set_requests _ s) eq_refl).
Qed.

(** The link task serves nobody. *)
Lemma data_step_quiet e : keeps quiet (data_step (R:=R) (PT:=PT) (IT:=IT) conf e).
Proof. apply (data_step_keeps conf _ _ _ quiet_stable). by destruct e; repeat constructor. Qed.

Definition unserved s s' : Prop := packet_process_tx s' = packet_process_tx s /\ quiet s s'.

#[local] Instance unserved_preorder : PreOrder unserved.
Proof. split; [by intros s|]. intros s1 s2 s3 [] []. split; [congruence|by etrans]. Qed.

Lemma unserved_dead s s' : unserved s s' -> dead s -> dead s'.
Proof. unfold dead. by intros [-> _]. Qed.

Lemma unserved_act a s : served a = false -> unserved s (add_act a s).
Proof. intros Ha. split; [done|by apply quiet_act]. Qed.

(** The packets the consumer task was too slow for, which are counted and dropped. *)
Definition slow_act (a : action R) : bool :=
  match a with ExceptionCount sample _ => String.eqb sample "client_broadcast_rx" | _ => false end.

Definition slow (l : list (action R)) : nat := length (filter slow_act l).

Lemma slow_app l k : slow (l ++ k) = (slow l + slow k)%nat.
Proof. unfold slow. by rewrite filter_app, length_app. Qed.

Lemma not_slow a l : slow_act a = false -> slow (l ++ [a]) = slow l.
Proof.
  intros Ha. rewrite slow_app. unfold slow at 2. rewrite filter_cons_False; [cbn; lia|].
  rewrite Ha. by intros [].
Qed.

(** Nor is the connection authenticated meanwhile, nor a packet dropped. *)
Definition alike s s' : Prop :=
  unserved s s' /\ is_authed s' = is_authed s /\ slow (acts s') = slow (acts s).

#[export] Instance alike_preorder : PreOrder alike.
Proof.
  split; [by intros s|]. intros s1 s2 s3 (? & ? & ?) (? & ? & ?). split_and!; [by etrans|congruence..].
Qed.

Lemma alike_act a s s0 : served a = false -> slow_act a = false -> alike s s0 -> alike s (add_act a s0).
Proof.
  intros Ha Hw (Hs & Hb & Hn). split_and!; [|done|].
  - etrans; [exact Hs|]. by apply unserved_act.
  - etrans; [by apply (not_slow a (acts s0))|exact Hn].
Qed.

Lemma alike_draw {E} : keeps alike (draw_id (E:=E) : SM St E Z).
Proof. intros s. by apply (alike_act (Drew _) s (set_id_gen _ s)). Qed.

Lemma alike_inner p : keeps alike (inner_send (R:=R) (PT:=PT) (IT:=IT) p).
Proof. apply keeps_get. intros s. by destruct (send p (inner_request_tx s)). Qed.

Lemma alike_inner_then p (f : bool -> SM St data_exit unit) : (forall b, keeps alike (f b)) ->
  keeps alike (inner_send p ≫= f).
Proof. intros Hf. apply keeps_bind; [apply _|apply alike_inner|done]. Qed.

(** The packets that do not concern the consumer: answers to heartbeats. *)
Definition heartbeat_response (p : Packet) : bool :=
  match p with PResponse r => bool_decide (resp_command r = Heartbeat_) | _ => false end.

Lemma dead_recv p now unix s : dead s ->
  let r := on_recv conf p now unix s in
  unserved s r.1 /\
  (r.2 = Ok tt -> is_authed r.1 = is_authed s /\ Forall heartbeat_response [p]).
Proof.
  intros Hd. assert (forall q (P : Prop), let r := try_process q (set_pong now s) in
    unserved s r.1 /\ (r.2 = Ok tt -> P)) as Htry.
  { intros q P. unfold try_process, mbind, SM_bind, sget, smodify. cbn [packet_process_tx set_pong].
    by rewrite closed_try by done. }
  unfold on_recv, mbind at 1, SM_bind at 1, smodify at 1.
  cbn zeta.
  destruct p as [q|r|q]; try apply Htry. destruct (resp_command r) eqn:Er; try apply Htry.
  - unfold mbind, SM_bind, smodify. destruct (bool_decide (resp_status r = Success)); [|done].
    unfold process_send, mbind, SM_bind, sget. cbn [set_authed set_pong packet_process_tx].
    by rewrite closed_send by done.
  - destruct (decode (A:=Heartbeat) (resp_body r)) as [hb|]; [|done].
    unfold mbind, SM_bind, slift, act, smodify. destruct (isub64 unix (timestamp hb)) as [d|[]|]; [|done..].
    split; [by apply (alike_act (RttCost _) s (set_pong now s))|]. intros _. split; [done|].
    constructor; [|done]. cbn. by rewrite Er.
Qed.

(** A turn of the link task that takes no packet. *)
Lemma data_step_alike e : received e = [] -> keeps alike (data_step (R:=R) (PT:=PT) (IT:=IT) conf e).
Proof.
  intros He. destruct e as [|[]|now unix|[m]|p w locked|p now unix| | |]; try done; cbn [data_step].
  - unfold on_ping_tick. apply keeps_get. intros s0.
    assert (keeps alike (id ← draw_id; ok ← inner_send (new_heartbeat unix id);
      if ok : bool then mret tt else broke HeartbeatSendFailed) ) as Hsend.
    { apply keeps_bind; [apply _|apply alike_draw|]. intros id. apply alike_inner_then. by intros []. }
    unfold mbind at 1, SM_bind at 1. destruct (is_authed s0), (_ <? _); cbn [broke sfail mret SM_ret]; try done; apply Hsend.
  - intros s0. by apply (alike_act (OnConnEvent (DisconnectedForever (inl m))) s0 s0).
  - apply alike_inner_then. intros []; [|done].
    destruct locked, p as [r| |], w; try done. intros s0. by apply (alike_act (Registered _ _) s0 (set_requests _ s0)).
  - apply keeps_get. intros s0. by apply (alike_inner_then _ (fun _ => mret tt)).
  - intros s0. by apply (alike_act (Drew _) s0 (set_id_gen _ s0)).
Qed.

(** A turn of the link task, when nobody takes packets: any packet but the answer to a
    heartbeat ends the connection. *)
Lemma dead_data_step e s : dead s ->
  let r := data_step conf e s in
  unserved s r.1 /\
  (r.2 = Ok tt -> is_authed r.1 = is_authed s /\ Forall heartbeat_response (received e)).
Proof.
  intros Hd. assert (received e = [] -> let r := data_step conf e s in unserved s r.1 /\
    (r.2 = Ok tt -> is_authed r.1 = is_authed s /\ Forall heartbeat_response (received e))) as Hk.
  { intros He. destruct (data_step_alike e He s) as (Hs & Ha & _). rewrite He. by split. }
  destruct e; try (by apply Hk). by apply dead_recv.
Qed.

(** ** On a connection, and on all that follow *)

(** The consumer task takes no turn. *)
Definition alone (es : list (option (data_event R))) : Prop := Forall is_Some es.

Definition incoming (es : list (option (data_event R))) : list Packet :=
  es ≫= from_option received [].

Lemma dead_link_run es s : alone es -> dead s ->
  let r := link_run conf es s in
  unserved s r.1 /\
  (r.2 = Ok tt -> is_authed r.1 = is_authed s /\ Forall heartbeat_response (incoming es)).
Proof.
  intros Hes. revert s. induction Hes as [|e es [e' ->] Hes IH]; intros s Hd; [by cbn|].
  destruct (dead_data_step e' s Hd) as [Hs Hr]. unfold link_run. cbn [sfor link_step].
  unfold mbind, SM_bind. destruct (data_step conf e' s) as [s1 [[]|x|]]; cbn [fst snd] in *; [|done..].
  destruct (IH s1) as [Hs' Hr']; [by eapply unserved_dead|]. split; [by etrans|].
  intros E. destruct (Hr eq_refl) as [Ha Hf], (Hr' E) as [Ha' Hf']. split; [by rewrite <- Ha|].
  unfold incoming. cbn. by apply Forall_app.
Qed.

Lemma end_conn_unserved e n : keeps unserved (end_conn (R:=R) (PT:=PT) (IT:=IT) conf e n).
Proof.
  unfold end_conn. apply keeps_bind; [apply _|by apply keeps_modify|]. intros _.
  apply keeps_bind; [apply _|apply keeps_lift, _|]. intros k. cbn zeta. destruct (_ && _); [apply keeps_fail, _|].
  do 3 (apply keeps_bind; [apply _|apply keeps_modify; intros s; by apply unserved_act|intros _]).
  apply keeps_ret, _.
Qed.

Lemma idle_unserved n : keeps unserved (idle (R:=R) (PT:=PT) (IT:=IT) n).
Proof.
  apply keeps_for; [apply _|]. intros _. apply keeps_bind; [apply _| |intros ?; apply keeps_ret, _].
  intros s. apply alike_draw.
Qed.

Lemma dead_conn_loop n cs s : Forall (fun c => alone (events c)) cs -> dead s ->
  unserved s (conn_loop conf n cs s).1.
Proof.
  intros Hcs. revert n s. induction Hcs as [|c cs Hc Hcs IH]; intros n s Hd; [by cbn|].
  cbn [conn_loop]. unfold mbind at 1, SM_bind at 1. pose proof (idle_unserved (idle_draws c) s) as Hi.
  destruct (idle (idle_draws c) s) as [s1 [[]|x|]]; cbn [fst] in Hi; [|done..].
  destruct (cid_ok c); [|done].
  unfold act, mbind, SM_bind, smodify, sget. cbn zeta. pose proof (alike_draw (E:=conn_error) s1) as [Hdr _].
  destruct (draw_id s1) as [s2 [id|x|]]; cbn [fst] in Hdr; [|by etrans..].
  set (auth := new_auth _ _ _ _). set (s3 := start_conn c auth (add_act (Connect auth) s2)).
  assert (unserved s s3) as H3 by (etrans; [exact Hi|etrans; [exact Hdr|by apply (unserved_act (Connect auth))]]).
  destruct (dead_link_run (events c) s3 Hc (unserved_dead _ _ H3 Hd)) as [Hs _].
  destruct (link_run conf (events c) s3) as [s4 [[]|[|e]|]]; cbn [fst snd] in *;
    try (etrans; [exact H3|exact Hs]).
  pose proof (end_conn_unserved e n s4) as He. destruct (end_conn conf e n s4) as [s5 [k|x|]]; cbn [fst] in *.
  - assert (unserved s s5) as H5 by (etrans; [exact H3|etrans; [exact Hs|exact He]]).
    etrans; [exact H5|]. apply IH. by eapply unserved_dead.
  - etrans; [exact H3|etrans; [exact Hs|exact He]].
  - etrans; [exact H3|etrans; [exact Hs|exact He]].
Qed.

(** * The consumer's tasks *)

Definition of_packet (c : consumer_call) : bool :=
  match c with CcConnEvent _ => false | _ => true end.

(** Calling does not touch the client. *)
Lemma call_consumer_client l t :
  let t' := (sfor (call_consumer (R:=R) (PT:=PT) (IT:=IT) peer) l t).1 in
  cs_client t' = cs_client t /\ cs_alive t' = cs_alive t /\
  exists k, k `prefix_of` l /\ cs_calls t' = cs_calls t ++ k.
Proof.
  revert t. induction l as [|c l IH]; intros t.
  { split_and!; [done..|]. exists []. split; [done|by rewrite app_nil_r]. }
  cbn [sfor]. unfold mbind, SM_bind. destruct (call_consumer peer c t) as [t1 r] eqn:E.
  assert (cs_client t1 = cs_client t /\ cs_alive t1 = cs_alive t /\ cs_calls t1 = cs_calls t ++ [c])
    as (Hc & Ha & Hl) by (by injection E as <- _).
  destruct r as [[]|[]|]; cbn [fst snd].
  - destruct (IH t1) as (A & B & k & Hk & C). split_and!; [congruence..|]. exists (c :: k).
    split; [by apply prefix_cons|]. by rewrite C, Hl, <- app_assoc.
  - split_and!; [done..|]. exists [c]. split; [by apply prefix_cons, prefix_nil|done].
Qed.

(** An action that is no service calls nothing for a packet. *)
Lemma quiet_calls n s s' : quiet s s' -> n = length (acts s) ->
  Forall (fun c => of_packet c = false) (new_calls n s').
Proof.
  intros (Hf & l & Hl) ->. unfold new_calls. rewrite Hl, drop_app_length.
  rewrite Hl, filter_app in Hf. assert (filter served l = []) as Hn.
  { apply (app_inv_head (filter served (acts s))). by rewrite app_nil_r. }
  clear Hl Hf. induction l as [|a l IH]; [constructor|]. change (a :: l) with ([a] ++ l) in *.
  rewrite filter_app in Hn. apply app_nil in Hn as [Ha Hl]. rewrite omap_app. apply Forall_app.
  split; [|by apply IH]. destruct a; try done; by repeat constructor.
Qed.

Definition push_of (c : consumer_call) : option Push :=
  match c with CcPush push => Some push | _ => None end.

Definition push_packet (p : Packet) : option Push := match p with PPush p => Some p | _ => None end.

(** The consumer task takes the next packet, if there is one, and makes one callback for it or
    none. *)
Lemma consume_calls s : let l := new_calls (length (acts s)) (consume s).1 in
  (l = [] \/ exists c, of_packet c = true /\ l = [c]) /\
  match accepted (packet_process_tx s) !! consumed s with
  | Some p => consumed (consume s).1 = S (consumed s) /\ omap push_of l = omap push_packet [p]
  | None => (consume s).1 = s /\ l = []
  end.
Proof.
  rewrite consume_eq. unfold new_calls. cbn [fst]. destruct (_ !! _) as [[r|r|p]|]; cbn.
  - rewrite drop_app_length. split; [|done]. right. by eexists; split; [|reflexivity].
  - destruct (requests s !! resp_id r); cbn; rewrite drop_app_length; [split; [by left|done]|].
    unfold unclaimed. destruct (_ && _); (split; [right; by eexists; split; [|reflexivity]|done]).
  - rewrite <- app_assoc, drop_app_length. split; [|done]. right. by eexists; split; [|reflexivity].
  - rewrite drop_all. split; [by left|done].
Qed.

(** What the consumer task leaves alone. *)
Lemma consume_leaves s : packet_process_tx (consume s).1 = packet_process_tx s /\
  inner_request_tx (consume s).1 = inner_request_tx s.
Proof.
  rewrite consume_eq. cbn [fst]. destruct (_ !! _) as [[r|r|p]|]; [done| |done|done].
  unfold consume_state. by destruct (requests _ !! _).
Qed.

(** A consumer task that is gone left its channel closed. *)
Definition gone_closed t : Prop := cs_alive t = false -> dead (cs_client t).

Lemma consuming_step_gone e t : gone_closed t -> gone_closed (consuming_step conf peer e t).1.
Proof.
  unfold gone_closed. intros Ht. destruct e as [e|]; cbn [consuming_step].
  - unfold link_turn. cbn zeta. cbn [fst].
    match goal with |- context [sfor _ ?l ?t0] =>
      destruct (call_consumer_client l t0) as (-> & -> & _) end.
    cbn. intros Ha. eapply unserved_dead; [apply dead_data_step|]; by apply Ht.
  - unfold consumer_turn. destruct (cs_alive t) eqn:Ea; [|cbn; by auto].
    match goal with |- context [sfor _ ?l ?t0] =>
      destruct (call_consumer_client l t0) as (_ & Hal & _); destruct (sfor _ l t0) as [t1 [[]|[]|]] end;
      cbn in *; [congruence|]. intros _. apply hang_up_closed.
Qed.

(** Without its consumer task, the client calls nothing for a packet any more. *)
Lemma consuming_step_silent e t : cs_alive t = false -> dead (cs_client t) ->
  let r := consuming_step conf peer e t in
  cs_alive r.1 = false /\ unserved (cs_client t) (cs_client r.1) /\
  filter of_packet (cs_calls r.1) = filter of_packet (cs_calls t) /\
  (r.2 = Ok tt -> is_authed (cs_client r.1) = is_authed (cs_client t) /\
     Forall heartbeat_response (from_option received [] e)).
Proof.
  intros Ha Hd. destruct e as [e|]; cbn [consuming_step].
  - unfold link_turn. cbn zeta. destruct (dead_data_step e _ Hd) as [Hs Hr].
    match goal with |- context [sfor _ ?l ?t0] => destruct (call_consumer_client l t0) as (Hc & Hal & k & Hk & Hcalls);
      destruct (sfor _ l t0) as [t1 o] end.
    cbn [fst snd set_client cs_client cs_alive cs_calls] in *. rewrite Hc, Hal, Hcalls.
    split_and!; [done|exact Hs| |].
    + rewrite filter_app. rewrite <- (app_nil_r (filter _ (cs_calls t))) at 2. f_equal.
      pose proof (quiet_calls _ _ _ (proj2 Hs) eq_refl) as Hq. destruct Hk as [k' Hk]. rewrite Hk in Hq.
      apply Forall_app in Hq as [Hq _]. clear Hk Hcalls.
      induction Hq as [|c k0 Hc0 _ IH]; [done|]. rewrite filter_cons_False; [exact IH|].
      rewrite Hc0. by intros [].
    + destruct o; [exact Hr|done..].
  - unfold consumer_turn. rewrite Ha. cbn. by split_and!.
Qed.

Lemma consuming_run_gone es t : gone_closed t -> gone_closed (consuming_run conf peer es t).1.
Proof.
  revert t. induction es as [|e es IH]; intros t Ht; [done|].
  unfold consuming_run. cbn [sfor]. unfold mbind, SM_bind. pose proof (consuming_step_gone e t Ht) as Hg.
  destruct (consuming_step conf peer e t) as [t1 [[]|x|]]; [|done..]. by apply IH.
Qed.

Lemma consuming_run_silent es t : cs_alive t = false -> dead (cs_client t) ->
  let r := consuming_run conf peer es t in
  unserved (cs_client t) (cs_client r.1) /\
  filter of_packet (cs_calls r.1) = filter of_packet (cs_calls t) /\
  (r.2 = Ok tt -> is_authed (cs_client r.1) = is_authed (cs_client t) /\
     Forall heartbeat_response (incoming es)).
Proof.
  revert t. induction es as [|e es IH]; intros t Ha Hd; [by cbn|].
  unfold consuming_run. cbn [sfor]. unfold mbind, SM_bind.
  destruct (consuming_step_silent e t Ha Hd) as (Ha1 & Hs1 & Hc1 & Hr1).
  destruct (consuming_step conf peer e t) as [t1 [[]|x|]]; cbn [fst snd] in *; [|by split_and!..].
  destruct (IH t1 Ha1) as (Hs2 & Hc2 & Hr2); [by eapply unserved_dead|].
  split_and!; [by etrans|by etrans|]. intros E. destruct (Hr1 eq_refl) as [Hb1 Hf1], (Hr2 E) as [Hb2 Hf2].
  split; [by rewrite <- Hb1|]. unfold incoming. cbn. by apply Forall_app.
Qed.

(** C9. A callback of the consumer that panics is the last one: nothing restarts the consumer
    task, and the link task only learns of it when it cannot hand a packet over. Whatever
    happens from then on, the consumer is given no packet and no caller an answer, and the
    first packet that arrives on the connection, the answers to heartbeats apart, ends it. So
    does every later connection end, with no client authenticated: the answer to its
    authentication request cannot be handed over either. *)
Theorem consumer_panic_is_final es t0 : cs_alive t0 = true ->
  let t := (consuming_run conf peer es t0).1 in
  cs_alive t = false ->
  (forall es', let r := consuming_run conf peer es' t in
     filter of_packet (cs_calls r.1) = filter of_packet (cs_calls t) /\
     filter served (acts (cs_client r.1)) = filter served (acts (cs_client t)) /\
     (r.2 = Ok tt -> is_authed (cs_client r.1) = is_authed (cs_client t) /\
        Forall heartbeat_response (incoming es'))) /\
  (forall n cs, Forall (fun c => alone (events c)) cs ->
     let s := (conn_loop conf n cs (cs_client t)).1 in
     filter served (acts s) = filter served (acts (cs_client t)) /\
     forall c auth, alone (events c) ->
       let r := link_run conf (events c) (start_conn c auth s) in
       r.2 = Ok tt -> is_authed r.1 = false /\ Forall heartbeat_response (incoming (events c))).
Proof.
  intros Ha0 t Ha. assert (dead (cs_client t)) as Hd.
  { apply (consuming_run_gone es t0); [|done]. intros Ha1. congruence. }
  split.
  - intros es'. destruct (consuming_run_silent es' t Ha Hd) as ((_ & [Hs _]) & Hc & Hr). by split_and!.
  - intros n cs Hcs. pose proof (dead_conn_loop n cs (cs_client t) Hcs Hd) as Hs.
    split; [apply Hs|]. intros c auth Hc.
    exact (proj2 (dead_link_run (events c) (start_conn c auth _) Hc (unserved_dead _ _ Hs Hd))).
Qed.

End Facts.

(** * A concrete run

    A consumer that takes one push and panics at the second. *)

#[local] Instance cs_auth : Message AuthRequest := countable_message AuthRequest.
#[local] Instance cs_subscribe : Message SubscribeRequest := countable_message SubscribeRequest.
#[local] Instance cs_heartbeat : Message Heartbeat := countable_message Heartbeat.
#[local] Instance cs_link_error : Message LinkError := countable_message LinkError.

Definition fragile : LinkConsumer nat := {|
  on_conn_event _ := mret tt;
  on_connected _ := mret tt;
  on_push _ n := match n with O => (n, Panic) | S k => (k, Ok tt) end;
  on_response _ := mret tt;
  on_request _ := mret tt
|}.

Definition push_with (body : list byte) : Push :=
  Build_Push 0 CmdSubAllType MtTrade (len_u32 body) body.
Definition a_push (body : list byte) : Packet := PPush (push_with body).

Definition fragile_events : list (option (data_event nat)) :=
  [Some SendAuth; Some (Recv auth_ok 100 0); Some (Recv (a_push [x01]) 101 0);
   Some (Recv (a_push [x02]) 102 0); None; None; None].

Lemma consumer_panic_is_final_witness :
  let run := consuming_run (PT:=consumer_chan) (LinkConsumer0:=fragile) (sample_conf 0) "1.2.3.4:5" in
  let t := (run fragile_events (consuming_init client0 1%nat)).1 in
  cs_calls t = [CcConnected; CcPush (push_with [x01]); CcPush (push_with [x02])] /\
  cs_alive t = false /\
  let r := run [Some (Recv (a_push [x03]) 103 0)] t in
  filter of_packet (cs_calls r.1) = filter of_packet (cs_calls t) /\ r.2 <> Ok tt.
Proof.
  intros run t. split; [vm_compute; reflexivity|]. split; [vm_compute; reflexivity|]. intros r.
  destruct (consumer_panic_is_final (LinkConsumer0:=fragile) (sample_conf 0) "1.2.3.4:5" fragile_events
    (consuming_init client0 1%nat)) as [Hany _].
  - reflexivity.
  - vm_compute. reflexivity.
  - destruct (Hany [Some (Recv (a_push [x03]) 103 0)]) as (Hc & _ & Hr). split; [exact Hc|].
    intros E. destruct (Hr E) as [_ Hf]. inversion Hf as [|p l Hp Hl]. vm_compute in Hp. exact Hp.
Defined.
