(* ===== verification/Reconnect.v ===== *)
(** What a connection of the client inherits from the one before: the counter of request ids
    starts again, the map of waiters stays. Who learns of the authentication of the new
    connection is decided by what is left in the map. *)

From Stdlib Require Import ZArith Lia Strings.Byte.
From stdpp Require Import base functions list strings gmap.
From S2P Require Import Prelude Deku Protos Packets Wire Channel Config Client ClientFacts Consuming ConsumingFacts.

Section Reconnect.
Context {R PT IT : Type} `{TrySender PT Packet, !SenderLaws PT Packet, !TrySenderLaws PT Packet}.
Context `{!Sender IT Packet}.
Context `{!Message AuthRequest, !Message SubscribeRequest, !Message Heartbeat,
  !Message LinkError}.
Context (conf : LinkClientConfig).
Abbreviation St := (client_state R PT IT).
Abbreviation queue s := (accepted (packet_process_tx s)).
Implicit Types s : St.

(** * The waiter under an id *)

(** A request under [id] that the link task is given to send. *)
Definition asks (id : Z) (e : option (data_event R)) : Prop :=
  match e with Some (SendPacket (PRequest q) _ _) => req_id q = id | _ => False end.

Definition waiter_kept (id : Z) (s s' : St) : Prop := requests s' !! id = requests s !! id.

#[local] Instance waiter_kept_order id : PreOrder (waiter_kept id).
Proof. split; unfold waiter_kept; congruence. Qed.

Ltac kept_step :=
  match goal with
  | |- keeps _ (_ ≫= _) => apply keeps_bind; [apply _| |intros ?]
  | |- keeps _ (smodify _) => apply keeps_modify; by intros ?
  | |- keeps _ (act _) => apply keeps_modify; by intros ?
  | |- keeps _ (mret _) => apply keeps_ret, _
  | |- keeps _ (sfail _) => apply keeps_fail, _
  | |- keeps _ (broke _) => apply keeps_fail, _
  | |- keeps _ (slift _) => apply keeps_lift, _
  | |- keeps _ (if ?b then _ else _) => destruct b
  | |- keeps _ (match ?b with _ => _ end) => destruct b
  end.

Lemma kept_draw {E} id : keeps (waiter_kept id) (draw_id (E:=E) : SM St E Z).
Proof. by intros s. Qed.

Lemma kept_inner id p : keeps (waiter_kept id) (inner_send (R:=R) (PT:=PT) (IT:=IT) p).
Proof. apply keeps_get. intros s. by destruct (send p (inner_request_tx s)). Qed.

Lemma kept_process id p : keeps (waiter_kept id) (process_send (R:=R) (PT:=PT) (IT:=IT) p).
Proof. apply keeps_get. intros s. by destruct (send p (packet_process_tx s)). Qed.

Lemma kept_try id p : keeps (waiter_kept id) (try_process (R:=R) (PT:=PT) (IT:=IT) p).
Proof. apply keeps_get. intros s. cbn zeta. by destruct (try_send p _) as [tx []]. Qed.

Lemma kept_subscribes id subs :
  keeps (waiter_kept id) (new_subscribes (R:=R) (PT:=PT) (IT:=IT) subs).
Proof.
  induction subs as [|sub subs IH]; cbn [new_subscribes]; [kept_step|].
  kept_step; [apply kept_draw|]. kept_step; [apply IH|kept_step].
Qed.

(** Only a request under the id changes who waits under it. *)
Lemma data_step_waiter id e : ~ asks id (Some e) ->
  keeps (waiter_kept id) (data_step (R:=R) (PT:=PT) (IT:=IT) conf e).
Proof.
  intros He. pose proof (kept_draw (E:=data_exit) id) as Hd. pose proof (kept_inner id) as Hi.
  destruct e as [|[]|now unix|[m]|p w locked|p now unix| | |]; cbn [data_step];
    try (by repeat first [apply Hd|apply Hi|kept_step]).
  - unfold on_ping_tick. apply keeps_get. intros s. cbn beta.
    apply keeps_bind; [apply _|by repeat kept_step|]. intros _.
    by repeat first [apply Hd|apply Hi|kept_step].
  - unfold on_send_packet. kept_step; [apply Hi|]. kept_step; [|kept_step].
    destruct locked, p as [q| |], w; try (by kept_step). intros s.
    unfold waiter_kept. by apply lookup_insert_ne.
  - unfold on_recv. kept_step; [kept_step|]. destruct p as [q|r|q]; try apply kept_try.
    destruct (resp_command r); try apply kept_try; [|by repeat kept_step].
    kept_step; [|kept_step]. kept_step; [kept_step|]. kept_step; [apply kept_process|].
    kept_step; [|kept_step]. kept_step; [apply kept_subscribes|]. apply keeps_for; [apply _|].
    intros q. unfold send_subscribe. by repeat first [apply Hi|kept_step].
Qed.

(** * Who learns of the authentication *)

(** The packets the consumer task may use the waiter under [id] for, or [on_connected]. *)
Definition greets (id : Z) (p : Packet) : bool :=
  match p with
  | PResponse r => bool_decide (resp_id r = id) ||
      bool_decide (resp_command r = Auth) && bool_decide (resp_status r = Success)
  | _ => false
  end.

(** What it then does. *)
Definition greeting (id : Z) (a : action R) : bool :=
  match a with
  | OnConnected => true
  | OnResponse r | Reply _ r => bool_decide (resp_id r = id)
  | _ => false
  end.

Definition greetings (id : Z) (b : list (action R)) s : list (action R) :=
  filter (greeting id) (drop (length b) (acts s)).

(** What the consumer task has not taken yet. *)
Definition pending s : list Packet := drop (consumed s) (queue s).

(** The welcome of a connection on which [m] is the waiter under its id: the consumer task has
    used it, once, or it has not taken it yet. [b] is the trace and [k] the length of the
    queue when the connection began, [l] is what is still to come from the peer. *)
Definition told (m : option R) (r : Response) : action R :=
  match m with Some w => Reply w r | None => OnConnected end.

Definition taken (k : nat) s : list Packet := drop k (take (consumed s) (queue s)).

Record welcomed (m : option R) (r : Response) (b : list (action R)) (k : nat) (l : list Packet) (used : bool) s : Prop := {
  wl_greetings : greetings (resp_id r) b s = (if used then [told m r] else []);
  wl_taken : filter (greets (resp_id r)) (taken k s) = (if used then [PResponse r] else []);
  wl_waiter : used = false -> requests s !! resp_id r = m;
  wl_once : (if used then [PResponse r] else []) ++ filter (greets (resp_id r)) (pending s) ++
    filter (greets (resp_id r)) l `sublist_of` [PResponse r];
  wl_queue : (k <= consumed s <= length (queue s))%nat;
  wl_acts : b `prefix_of` acts s;
  wl_authed : used = true \/ filter (greets (resp_id r)) (pending s) <> [] -> is_authed s = true
}.

Lemma filter_finer {A} (f g : A -> bool) l : (forall a, g a = true -> f a = true) ->
  filter f l = [] -> filter g l = [].
Proof.
  intros Hfg. induction l as [|a l IH]; [done|]. rewrite !filter_cons. destruct (g a) eqn:E.
  - by rewrite (Hfg a E).
  - destruct (decide (f a)); [done|]. exact IH.
Qed.

Lemma sublist_finer {A} (f : A -> bool) l k : l `sublist_of` k -> filter f l `sublist_of` filter f k.
Proof.
  induction 1 as [|x l k _ IH|x l k _ IH]; [done|..]; rewrite ?filter_cons; destruct (decide (f x));
    try constructor; exact IH.
Qed.

Lemma greetings_app id b s l : acts s = b ++ l -> greetings id b s = filter (greeting id) l.
Proof. unfold greetings. intros ->. by rewrite drop_app_length. Qed.

Lemma greetings_more id b s s' l : b `prefix_of` acts s -> acts s' = acts s ++ l ->
  greetings id b s' = greetings id b s ++ filter (greeting id) l /\ b `prefix_of` acts s'.
Proof.
  intros [k Hk] Hl. rewrite Hk, <- app_assoc in Hl.
  rewrite (greetings_app _ _ _ _ Hk), (greetings_app _ _ _ _ Hl), filter_app. split; [done|by eexists].
Qed.

Lemma quiet_greetings id b s s' : b `prefix_of` acts s -> quiet s s' ->
  greetings id b s' = greetings id b s /\ b `prefix_of` acts s'.
Proof.
  intros Hb (Hf & l & Hl). destruct (greetings_more id b s s' l Hb Hl) as [-> ?]. split; [|done].
  rewrite Hl, filter_app in Hf. rewrite <- (app_nil_r (filter _ (acts s))) in Hf at 2.
  apply app_inv_head in Hf. rewrite (filter_finer served (greeting id) l); [apply app_nil_r| |exact Hf].
  by intros [].
Qed.

Definition same_consumed s s' : Prop := consumed s' = consumed s.

#[local] Instance same_consumed_order : PreOrder same_consumed.
Proof. split; unfold same_consumed; congruence. Qed.

Lemma data_step_consumed e s : consumed (data_step conf e s).1 = consumed s.
Proof.
  assert (stable (R:=R) (PT:=PT) (IT:=IT) (fun _ => True) True same_consumed) as HI
    by (constructor; [apply _|done..]).
  refine (data_step_keeps conf _ _ _ HI e _ s). by destruct e; repeat constructor.
Qed.

(** A successful authentication response marks the connection, even if nobody takes it. *)
Lemma data_step_authed e s :
  is_authed (data_step conf e s).1 = is_authed s || existsb auth_success (received e).
Proof.
  pose proof (fun He => proj1 (proj2 (data_step_alike conf e He s))) as Hk.
  destruct e as [| | | | |p now unix| | |]; cbn [received existsb] in *; rewrite ?orb_false_r;
    try exact (Hk eq_refl). clear Hk.
  pose proof (same_clocks_closed (R:=R) (PT:=PT) (IT:=IT)) as HI.
  pose proof (closed_order _ _ _ (closed_stable _ _ _ HI)) as Hpre.
  assert (forall (m : SM St data_exit unit) s', keeps same_clocks m -> is_authed (m s').1 = is_authed s') as Hsame.
  { intros m s' Hm. specialize (Hm s'). unfold same_clocks in Hm. by injection Hm. }
  assert (forall q, keeps same_clocks (try_process (R:=R) (PT:=PT) (IT:=IT) q)) as Htry
    by (intros q; by apply (try_process_keeps _ _ _ HI)).
  cbn [data_step]. unfold on_recv. unfold mbind at 1, SM_bind at 1, smodify at 1.
  destruct p as [?|r|?]; cbn [auth_success]; rewrite ?orb_false_r; try (by rewrite Hsame).
  destruct (resp_command r) eqn:Hc; rewrite ?(bool_decide_eq_false_2 (_ = Auth)) by done;
    cbn [andb]; rewrite ?orb_false_r; try (by rewrite Hsame).
  - rewrite (bool_decide_eq_true_2 (Auth = Auth)) by done. cbn [andb].
    destruct (bool_decide (resp_status r = Success)); [|by rewrite orb_false_r].
    unfold mbind at 1, SM_bind at 1, smodify at 1. rewrite orb_true_r. apply Hsame.
    apply keeps_bind; [apply _|by apply (process_send_keeps _ _ _ HI)|]. intros []; [|apply keeps_fail, _].
    apply keeps_bind; [apply _|apply (new_subscribes_keeps _ _ _ HI)|]. intros ps.
    apply keeps_for; [apply _|]. apply (send_subscribe_keeps _ _ _ HI).
  - destruct (decode _); [|done]. unfold mbind, SM_bind, slift. by destruct (isub64 _ _).
Qed.

(** A turn of the link task. *)
Lemma data_step_welcomed m r b k l used e s : ~ asks (resp_id r) (Some e) ->
  auth_success (PResponse r) = true ->
  welcomed m r b k (received e ++ l) used s -> welcomed m r b k l used (data_step conf e s).1.
Proof.
  intros He Hr [Hg Ht Hw Ho Hq Hn Ha].
  destruct (data_step_queue conf e s) as (qs & Eq & Hqs).
  pose proof (data_step_consumed e s) as Ec.
  destruct (quiet_greetings (resp_id r) b s _ Hn (data_step_quiet conf e s)) as [Eg Hn'].
  assert (pending (data_step conf e s).1 = pending s ++ qs) as Ep.
  { unfold pending. rewrite Ec, Eq. apply drop_app_le. lia. }
  rewrite filter_app in Ho.
  constructor; [by rewrite Eg| | | | |done|].
  - unfold taken. rewrite Ec, Eq, take_app_le by lia. exact Ht.
  - intros E. rewrite (data_step_waiter (resp_id r) e He s). by apply Hw.
  - rewrite Ep, filter_app, <- app_assoc. etrans; [|exact Ho].
    do 2 (apply sublist_app; [done|]). apply sublist_app; [|done]. by apply sublist_finer.
  - rewrite Ec, Eq, length_app. lia.
  - rewrite data_step_authed, Ep, filter_app. intros E.
    assert (filter (greets (resp_id r)) qs = [] \/ qs = [PResponse r] /\ received e = qs) as [Eqs|[-> ->]].
    { destruct e as [| | | | |p now unix| | |]; try (apply sublist_nil_r in Hqs as ->; by left).
      cbn [received] in *. destruct qs as [|q qs]; [by left|].
      apply sublist_cons_r in Hqs as [Hqs|(l' & [= -> ->] & Hqs)]; [by apply sublist_nil_r in Hqs|].
      apply sublist_nil_r in Hqs as ->. rewrite filter_cons. destruct (decide (greets (resp_id r) p)) as [Hp|];
        [right|by left].
      assert ([p] `sublist_of` [PResponse r]) as Hpr.
      { etrans; [|exact Ho]. rewrite filter_cons_True by done. apply sublist_inserts_l, sublist_inserts_l,
          sublist_inserts_r. by apply sublist_skip. }
      apply sublist_cons_r in Hpr as [Hpr|(l' & [= -> _] & _)]; [by apply sublist_nil_r in Hpr|done]. }
    + rewrite Ha; [done|]. by rewrite Eqs, app_nil_r in E.
    + cbn [existsb]. by rewrite Hr, orb_true_r.
Qed.

(** What the consumer task does with a packet that is not a welcome. *)
Lemma consume_other id p s : greets id p = false ->
  requests (consume_state s p) !! id = requests s !! id /\
  exists new, acts (consume_state s p) = acts s ++ new /\ filter (greeting id) new = [].
Proof.
  intros Hp. destruct p as [q|q|q]; cbn [consume_state].
  - split; [done|]. by exists [OnRequest q].
  - cbn in Hp. apply orb_false_iff in Hp as [Hid Hs].
    split; [by apply lookup_delete_ne, (bool_decide_eq_false_1 _ Hid)|]. eexists. split; [reflexivity|].
    cbn [requests set_consumed]. unfold unclaimed. rewrite Hs.
    destruct (requests s !! resp_id q); rewrite filter_cons_False; try done; cbn;
      rewrite Hid; by intros [].
  - split; [done|]. eexists [_; _]. split; [cbn; by rewrite <- app_assoc|done].
Qed.

(** A turn of the consumer task. *)
Lemma consume_welcomed m r b k l used s : auth_success (PResponse r) = true ->
  welcomed m r b k l used s -> exists used', welcomed m r b k l used' (consume s).1.
Proof.
  intros Hr [Hg Ht Hw Ho Hq Hn Ha]. rewrite consume_eq. cbn [fst].
  destruct (queue s !! consumed s) as [p|] eqn:Ep; [|by exists used].
  assert (pending s = p :: drop (S (consumed s)) (queue s)) as Epend by (by apply drop_S).
  pose proof (lookup_lt_Some _ _ _ Ep) as Hlt.
  assert (queue (consume_state s p) = queue s /\ consumed (consume_state s p) = S (consumed s) /\
    is_authed (consume_state s p) = is_authed s) as (Eq & Ec & Ea) by (by destruct p).
  assert (taken k (consume_state s p) = taken k s ++ [p]) as Etk.
  { unfold taken. rewrite Eq, Ec, (take_S_r _ _ _ Ep), drop_app_le; [done|]. rewrite length_take. lia. }
  assert (pending (consume_state s p) = drop (S (consumed s)) (queue s)) as Epd by (unfold pending; by rewrite Eq, Ec).
  rewrite Epend, filter_cons in Ho, Ha.
  destruct (decide (greets (resp_id r) p)) as [Hp|Hp].
  - assert (used = false /\ p = PResponse r /\
      filter (greets (resp_id r)) (drop (S (consumed s)) (queue s)) ++ filter (greets (resp_id r)) l = [])
      as (-> & -> & Hrest).
    { destruct used; cbn [app] in Ho.
      - apply sublist_length in Ho. cbn in Ho. lia.
      - apply sublist_cons_l in Ho as ([|] & k2 & E & Ho); [|by destruct l0].
        injection E as -> <-. by apply sublist_nil_r in Ho. }
    exists true. constructor; try done.
    + destruct (greetings_more (resp_id r) b s (consume_state s (PResponse r)) _ Hn eq_refl) as [-> _].
      cbn [requests set_consumed]. rewrite Hg, Hw by done. cbn [app]. cbn [auth_success] in Hr. unfold told, unclaimed. rewrite Hr.
      destruct m; rewrite filter_cons_True; try done. cbn. by rewrite bool_decide_eq_true_2.
    + by rewrite Etk, filter_app, Ht, filter_cons_True.
    + rewrite Eq, Ec. lia.
    + by destruct (greetings_more (resp_id r) b s (consume_state s (PResponse r)) _ Hn eq_refl).
    + intros _. rewrite Ea. apply Ha. by right.
  - exists used. destruct (consume_other (resp_id r) p s) as (Ew & new & Enew & Hnew);
      [by apply Is_true_false|].
    constructor.
    + destruct (greetings_more (resp_id r) b _ _ _ Hn Enew) as [-> _]. by rewrite Hnew, app_nil_r.
    + by rewrite Etk, filter_app, filter_cons_False, app_nil_r.
    + by rewrite Ew.
    + by rewrite Epd.
    + rewrite Eq, Ec. lia.
    + by destruct (greetings_more (resp_id r) b _ _ _ Hn Enew).
    + by rewrite Ea, Epd.
Qed.

Lemma link_run_welcomed m r b k es used s : auth_success (PResponse r) = true ->
  Forall (fun e => ~ asks (resp_id r) e) es -> welcomed m r b k (incoming es) used s ->
  exists l used', welcomed m r b k l used' (link_run conf es s).1.
Proof.
  intros Hr Hes. revert used s. induction Hes as [|e es He Hes IH]; intros used s Hs.
  { exists [], used. exact Hs. }
  unfold link_run. cbn [sfor]. unfold mbind, SM_bind.
  assert (exists used', welcomed m r b k (incoming es) used' (link_step conf e s).1) as [u Hu].
  { destruct e as [e|].
    - exists used. apply data_step_welcomed; [done|done|exact Hs].
    - by apply (consume_welcomed m r b k (incoming es) used). }
  destruct (link_step conf e s) as [s1 [[]|x|]]; [|by exists (incoming es), u..].
  by apply (IH u s1).
Qed.

(** What the end of a connection leaves alone, but for the counter. *)
Lemma end_conn_leaves e n s : let r := end_conn conf e n s in
  requests r.1 = requests s /\ queue r.1 = queue s /\ consumed r.1 = consumed s /\
  is_authed r.1 = is_authed s /\ request_id_gen r.1 = 1 /\
  exists l, acts r.1 = acts s ++ l /\ forall id, filter (greeting id) l = [].
Proof.
  unfold end_conn, act, mbind, SM_bind, slift, smodify. cbn zeta.
  destruct (incr_u32 n) as [k|x|];
    [|cbn; split_and!; try done; exists []; by rewrite app_nil_r..].
  destruct (_ && _); cbn; split_and!; try done.
  - exists []. by rewrite app_nil_r.
  - eexists [_; _; _]. by rewrite <- !app_assoc.
Qed.

(** One connection, of a link task that does not go on to another. *)
Lemma one_conn k c s1 : idle_draws c = O -> cid_ok c = true ->
  let auth := new_auth (request_id_gen s1) (username conf) (conf_password conf) (conf_client_name conf) in
  let s2 := start_conn c auth (add_act (Connect auth) (drawn_once s1)) in
  let s3 := (link_run conf (events c) s2).1 in
  let s := (conn_loop conf k [c] s1).1 in
  queue s = queue s3 /\ consumed s = consumed s3 /\ is_authed s = is_authed s3 /\
  exists l, acts s = acts s3 ++ l /\ forall id, filter (greeting id) l = [].
Proof.
  intros Hd Hcid auth s2 s3. cbn [conn_loop]. unfold act, mbind, SM_bind, smodify, sget.
  rewrite idle_eq, Hd, Hcid. cbv beta iota zeta. rewrite draw_id_eq.
  cbv beta iota zeta. change (Nat.iter 0 drawn_once s1) with s1. fold auth. fold s2.
  subst s3. destruct (link_run conf (events c) s2) as [s3 [[]|[|e]|]]; cbn [fst snd slift];
    try (split_and!; [done..|]; exists []; by rewrite app_nil_r).
  destruct (end_conn_leaves e k s3) as (_ & Eq & Ec & Ea & _ & Hl).
  destruct (end_conn conf e k s3) as [s4 [k'|x|]]; by split_and!.
Qed.

(** C39. Who learns that a connection was authenticated. When a connection ends, the counter of
    request ids starts again at 1, but the map of waiters is kept. Let the consumer task have
    nothing left to take, let nobody draw an id before the next connection, whose authentication
    request then has the id 1, let its user send no request under that id, and let the peer send
    at most the one response to it, a success [r]. Then, however the connection goes and ends,
    once the consumer task has taken [r], the connection is marked authenticated; but
    [on_connected] is called, once, exactly if nobody was left waiting under the id 1 by an
    earlier connection. Otherwise that stale waiter is handed [r], and [on_connected] is not
    called. Before [r] is taken, neither happens. *)
Theorem stale_waiter_swallows_auth e n0 k s0 s1 c r :
  end_conn conf e n0 s0 = (s1, Ok k) ->
  consumed s0 = length (queue s0) ->
  idle_draws c = O -> cid_ok c = true ->
  auth_success (PResponse r) = true -> resp_id r = 1 ->
  Forall (fun e => ~ asks 1 e) (events c) ->
  filter (greets 1) (incoming (events c)) `sublist_of` [PResponse r] ->
  let s := (conn_loop conf k [c] s1).1 in
  let took := PResponse r ∈ drop (length (queue s0)) (take (consumed s) (queue s)) in
  Connect (new_auth 1 (username conf) (conf_password conf) (conf_client_name conf))
    ∈ drop (length (acts s0)) (acts s) /\
  (~ took -> greetings 1 (acts s0) s = []) /\
  (took -> is_authed s = true /\
     greetings 1 (acts s0) s =
       [match requests s0 !! 1 with Some w => Reply w r | None => OnConnected end]).
Proof.
  intros He Hidle Hd Hcid Hr Hid Hes Hin.
  pose proof (end_conn_leaves e n0 s0) as Hend. rewrite He in Hend. cbn [fst] in Hend.
  destruct Hend as (Er & Eq & Ec & _ & Eg & l0 & El & Hl0).
  destruct (one_conn k c s1 Hd Hcid) as (Fq & Fc & Fa & l2 & Fl & Hl2). revert Fq Fc Fa Fl. rewrite Eg.
  set (auth := new_auth _ _ _ _). set (s2 := start_conn _ _ _). set (s := (conn_loop _ _ _ _).1).
  cbn zeta. intros Fq Fc Fa Fl.
  assert (acts s2 = acts s0 ++ l0 ++ [Drew (request_id_gen s1); Connect auth]) as E2
    by (cbn; by rewrite El, <- !app_assoc).
  assert (welcomed (requests s0 !! 1) r (acts s2) (length (queue s0)) (incoming (events c)) false s2) as H2.
  { assert (queue s2 = queue s0 /\ consumed s2 = length (queue s0)) as [Q2 C2].
    { split; [exact Eq|]. cbn. by rewrite Ec. }
    constructor; unfold taken, pending; rewrite ?Q2, ?C2, ?Hid, ?drop_all, ?firstn_all, ?drop_all; try done.
    - unfold greetings. by rewrite drop_all.
    - intros _. cbn. by rewrite Er.
    - by intros [].  }
  destruct (link_run_welcomed _ _ _ _ _ _ _ Hr ltac:(by rewrite Hid) H2) as (l & used & [Hg Ht _ _ _ [l1 Hn] Ha]).
  rewrite Hid in *. rewrite Hn, E2 in Fl. rewrite (greetings_app _ _ _ _ Hn) in Hg.
  assert (greetings 1 (acts s0) s = if used then [told (requests s0 !! 1) r] else []) as Hs.
  { rewrite <- !app_assoc in Fl. rewrite (greetings_app _ _ _ _ Fl), !filter_app, Hl0, Hl2, app_nil_r. exact Hg. }
  assert (PResponse r ∈ drop (length (queue s0)) (take (consumed s) (queue s)) <-> used = true) as Hu.
  { rewrite Fq, Fc. unfold taken in Ht. split.
    - intros Hin'. destruct used; [done|]. exfalso. eapply filter_nil_not_elem_of; [exact Ht| |exact Hin'].
      cbn. by rewrite bool_decide_eq_true_2.
    - intros ->. assert (PResponse r ∈ [PResponse r]) as Hs1 by constructor. rewrite <- Ht in Hs1.
      apply list_elem_of_filter in Hs1 as [_ Hs1]. exact Hs1. }
  split.
  - rewrite Fl, <- !app_assoc, drop_app_length, !elem_of_app. right. left. apply list_elem_of_further. constructor.
  - rewrite Hs, Fa, Hu. split; [by destruct used|]. intros ->. split; [by apply Ha; left|done].
Qed.

End Reconnect.

(** * Concrete runs

    With a caller left waiting under the id 1 by the first connection, and without. *)

#[local] Instance rc_auth : Message AuthRequest := countable_message AuthRequest.
#[local] Instance rc_subscribe : Message SubscribeRequest := countable_message SubscribeRequest.
#[local] Instance rc_heartbeat : Message Heartbeat := countable_message Heartbeat.
#[local] Instance rc_link_error : Message LinkError := countable_message LinkError.

Example stale_waiter_after_broken_conn :
  deliveries (acts (client_link (sample_conf 0) [broken_conn; quiet_conn] client0).1) =
    [Reply 7%nat (Response_new Auth 1 Success [])] /\
  deliveries (acts (client_link (sample_conf 0) [conn_with 0 [Some RecvEnd]; quiet_conn] client0).1) =
    [OnConnected].
Proof. split; vm_compute; reflexivity. Qed.

(** The end of [broken_conn], and of the connection after it. *)
Definition left_waiting : client_state nat consumer_chan transport_chan :=
  (link_run (sample_conf 0) (events broken_conn) (start_conn broken_conn sample_request client0)).1.

Definition broken_off : client_state nat consumer_chan transport_chan :=
  (end_conn (sample_conf 0) ResponseChanClosed 0 left_waiting).1.

Lemma stale_waiter_swallows_auth_witness :
  let s := (conn_loop (sample_conf 0) 1 [quiet_conn] broken_off).1 in
  is_authed s = true /\
  greetings 1 (acts left_waiting) s = [Reply 7%nat (Response_new Auth 1 Success [])].
Proof.
  intros s. destruct (stale_waiter_swallows_auth (sample_conf 0) ResponseChanClosed 0 1 left_waiting
    broken_off quiet_conn (Response_new Auth 1 Success [])) as (_ & _ & Ht); try (vm_compute; reflexivity).
  - repeat constructor; by intros ?.
  - destruct Ht as [Ha Hg]; [vm_compute; repeat constructor|]. split; [exact Ha|exact Hg].
Defined.
