(* ===== verification/ExampleClient.v ===== *)
(** [link/examples/client.rs], [quotation_client.rs] and [async_client.rs]: three clients on the
    library. Each has a task that reads a broadcast channel, and a consumer whose callbacks
    fill it: with the parsed quotations in the first two, with the packets in the third. The
    first also sends every push back, counts what it reads and asks for a subscription of its
    own. *)

From Stdlib Require Import ZArith Lia Strings.Byte.
From stdpp Require Import base functions list strings gmap.
From S2P Require Import Prelude Deku Protos Packets Quotation Channel Config Client.
From S2P Require Import ExampleServer Broadcast Consuming.

(** * The reading task *)

(** Whether it runs, its counter, what it was told. *)
Record reader (A : Type) : Type := mk_reader {
  rd_alive : bool;
  rd_count : Z;
  rd_log : list (recv_result A)
}.
Arguments mk_reader {A}.
Arguments rd_alive {A}.
Arguments rd_count {A}.
Arguments rd_log {A}.

(** The channel and its reader. *)
Record audience (B A : Type) : Type := mk_audience {
  au_chan : B;
  au_reader : reader A
}.
Arguments mk_audience {B A}.
Arguments au_chan {B A}.
Arguments au_reader {B A}.

Section Reader.
Context {B A : Type} `{!Broadcast B A}.

(** The counter of [client.rs]: [count += 1] on an [i32], checked. *)
Definition count_item (count : Z) : outcome Empty_set Z := incr_i32 count.

(** [quotation_client.rs] and [async_client.rs] only print. *)
Definition print_item (count : Z) : outcome Empty_set Z := Ok count.

(** One turn of the loop around [recv().await]. *)
Definition read_turn (on_item : Z -> outcome Empty_set Z) (w : audience B A) : audience B A :=
  let r := au_reader w in
  if rd_alive r then
    match bc_recv (au_chan w) with
    | None => w
    | Some (Received a, b) =>
        let log := rd_log r ++ [Received a] in
        match on_item (rd_count r) with
        | Ok count => mk_audience b (mk_reader true count log)
        | _ => mk_audience (bc_leave b) (mk_reader false (rd_count r) log)
        end
    | Some (Lagged n, b) => mk_audience b (mk_reader true (rd_count r) (rd_log r ++ [Lagged n]))
    | Some (RecvClosed, b) =>
        mk_audience (bc_leave b) (mk_reader false (rd_count r) (rd_log r ++ [RecvClosed]))
    end
  else w.

(** [let _ = tx.send(..)] *)
Definition offer (a : A) : consumer_of (audience B A) unit := smodify (fun w =>
  match bc_send a (au_chan w) with Some b => mk_audience b (au_reader w) | None => w end).

(** [tx.send(..).unwrap()] *)
Definition offer_unwrap (a : A) : consumer_of (audience B A) unit := fun w =>
  match bc_send a (au_chan w) with
  | Some b => (mk_audience b (au_reader w), Ok tt)
  | None => (w, Panic)
  end.

Definition audience_init (b : B) (count : Z) : audience B A :=
  mk_audience b (mk_reader true count []).

End Reader.

(** * The consumers *)

(** [async_client.rs] *)
Section AsyncClient.
Context {B : Type} `{!Broadcast B Packet}.

Definition async_consumer : LinkConsumer (audience B Packet) := {|
  on_conn_event _ := mret tt;
  on_connected _ := mret tt;
  on_push push := offer (PPush push);
  on_response response := offer (PResponse response);
  on_request request := offer (PRequest request)
|}.

End AsyncClient.

Section Quotations.
Context {Trade Snapshot Depths Brokers Kline OrderBook : Type}.
Context `{!Message Trade, !Message Snapshot, !Message Depths, !Message Brokers,
  !Message Kline, !Message OrderBook}.
Abbreviation Q := (Quotation Trade Snapshot Depths Brokers Kline OrderBook).
Context {B : Type} `{!Broadcast B Q}.

(** [parse_quotation(&push.msg_type, &push.body)] *)
Definition quotation_of (push : Push) : option Q :=
  parse_quotation (push_msg_type push) (push_body push).

(** [quotation_client.rs] *)
Definition quotation_consumer : LinkConsumer (audience B Q) := {|
  on_conn_event _ := mret tt;
  on_connected _ := mret tt;
  on_push push := match quotation_of push with Some q => offer q | None => mret tt end;
  on_response _ := mret tt;
  on_request _ := mret tt
|}.

(** [client.rs]: the consumer also holds the client, and spawns tasks that ask for a
    subscription. *)
Context {R TX : Type} `{!Sender TX (Packet * option R)}.
Context `{!Message SubscribeRequest, !Message SubscribeResponse, !Message LinkError}.

Record demo : Type := mk_demo {
  dm_link : api_state (TX:=TX);
  dm_audience : audience B Q;
  dm_spawned : nat
}.

Definition on_audience (m : consumer_of (audience B Q) unit) : consumer_of demo unit := fun g =>
  let r := m (dm_audience g) in (mk_demo (dm_link g) r.1 (dm_spawned g), r.2).

(** [link_cli.send_push(push).await], an error is logged. *)
Definition echo (push : Push) : consumer_of demo unit := smodify (fun g =>
  mk_demo (send_push push (dm_link g)).1 (dm_audience g) (dm_spawned g)).

(** The task spawned by [on_connected]; its result is logged. *)
Definition manual_request (response_tx : R) (sent : bool) (waited : wait_result)
    : SM api_state (request_error convert_error) SubscribeResponse :=
  send_request SubscribeResponse_try_from {| all := true; counter_ids := []; span_index := 0 |}
    CmdSubOrderBook response_tx sent waited.

Definition demo_on_push (push : Push) : consumer_of demo unit :=
  (match quotation_of push with
   | Some q => on_audience (offer_unwrap q)
   | None => mret tt
   end) ≫= fun _ => echo push.

(** A turn of its reading task. *)
Definition demo_read (g : demo) : demo :=
  mk_demo (dm_link g) (read_turn count_item (dm_audience g)) (dm_spawned g).

Definition demo_init (link : api_state (TX:=TX)) (b : B) (count : Z) : demo :=
  mk_demo link (audience_init b count) 0.

Definition demo_consumer : LinkConsumer demo := {|
  on_conn_event _ := mret tt;
  on_connected _ := smodify (fun g => mk_demo (dm_link g) (dm_audience g) (S (dm_spawned g)));
  on_push := demo_on_push;
  on_response _ := mret tt;
  on_request _ := mret tt
|}.

End Quotations.

Arguments demo : clear implicits.

(** * The tasks together

    The two tasks of the client ([Some]) and the reading task ([None]) of one connection. *)

Section Together.
Context {R PT IT G : Type} `{Closable PT Packet} `{!Sender IT Packet} {consumer : LinkConsumer G}.
Context `{!Message AuthRequest, !Message SubscribeRequest, !Message Heartbeat,
  !Message LinkError}.
Context (read : G -> G) (conf : LinkClientConfig) (peer : string).

Abbreviation Co := (consuming R PT IT G).

Definition set_user (g : G) (s : Co) : Co :=
  mk_consuming (cs_client s) g (cs_alive s) (cs_calls s).

Definition example_step (e : option (option (data_event R))) : SM Co data_exit unit :=
  match e with
  | Some e => consuming_step conf peer e
  | None => smodify (fun s => set_user (read (cs_user s)) s)
  end.

Definition example_run : list (option (option (data_event R))) -> SM Co data_exit unit :=
  sfor example_step.

End Together.
