(* ===== verification/ExampleClientFacts.v ===== *)
(** The example clients ([ExampleClient]): what their reading tasks are told of the packets the
    library hands to the callbacks, and what stops the fuller one. *)

From Stdlib Require Import ZArith Lia Strings.Byte.
From stdpp Require Import base functions list strings gmap.
From S2P Require Import Prelude Deku Protos Packets Quotation Channel Config Client ClientFacts.
From S2P Require Import ExampleServer Broadcast Consuming ConsumingFacts ExampleClient.

(** * What a reader was told *)

(** The values the results account for: each one received, or among the number missed. *)
Inductive tells {A} : list (recv_result A) -> list A -> Prop :=
| tells_nil : tells [] []
| tells_received log l a : tells log l -> tells (log ++ [Received a]) (l ++ [a])
| tells_lagged log l k n : tells log l -> Z.of_nat (length k) = n -> tells (log ++ [Lagged n]) (l ++ k).

Definition was_received {A} (r : recv_result A) : bool :=
  match r with Received _ => true | _ => false end.

Definition received_count {A} (log : list (recv_result A)) : Z := zlen (filter was_received log).

Lemma filter_snoc {A} (f : A -> bool) l a :
  length (filter f (l ++ [a])) = (length (filter f l) + (if f a then 1 else 0))%nat.
Proof. rewrite filter_app, length_app. f_equal. cbn. by destruct (f a). Qed.

Lemma received_count_app {A} (log : list (recv_result A)) r :
  received_count (log ++ [r]) = received_count log + (if was_received r then 1 else 0).
Proof.
  unfold received_count, zlen. rewrite filter_snoc. destruct (was_received r); lia.
Qed.

Section Audience.
Context {B A : Type} `{BroadcastLaws B A}.
Implicit Types w : audience B A.

(** All that was sent was told, or was missed but not told yet, or is kept. *)
Definition accounted w (sent : list A) : Prop := exists told lost,
  tells (rd_log (au_reader w)) told /\ length lost = bc_missed (au_chan w) /\
  sent = told ++ lost ++ bc_kept (au_chan w).

Lemma send_accounted a b r sent : bc_listening b = true -> accounted (mk_audience b r) sent ->
  exists b', bc_send a b = Some b' /\ bc_listening b' = true /\ bc_closed b' = bc_closed b /\
    accounted (mk_audience b' r) (sent ++ [a]).
Proof.
  intros Hl (told & lost & Ht & Hlost & ->). destruct (bc_send_kept a b Hl) as (b' & k & E & Hl' & Hc & Hk & Hm & Hkept).
  exists b'. split_and!; try done. exists told, (lost ++ take k (bc_kept b ++ [a])). split_and!; [done| |].
  - cbn in *. rewrite length_app, length_take, length_app, Hm, Hlost. cbn. lia.
  - cbn. rewrite Hkept, <- !app_assoc, take_drop. done.
Qed.

(** A turn of the reader: it waits, is told how many it missed, given a value, or ended. *)
Inductive turned (f : Z -> outcome Empty_set Z) w : audience B A -> Prop :=
| turned_waits : bc_missed (au_chan w) = O -> bc_kept (au_chan w) = [] -> bc_closed (au_chan w) = false ->
    turned f w w
| turned_lagged b : bc_missed (au_chan w) <> O ->
    bc_listening b = bc_listening (au_chan w) -> bc_closed b = bc_closed (au_chan w) ->
    bc_missed b = O -> bc_kept b = bc_kept (au_chan w) ->
    turned f w (mk_audience b (mk_reader true (rd_count (au_reader w))
      (rd_log (au_reader w) ++ [Lagged (Z.of_nat (bc_missed (au_chan w)))])))
| turned_received a l b alive count : bc_missed (au_chan w) = O -> bc_kept (au_chan w) = a :: l ->
    bc_listening b = (alive && bc_listening (au_chan w)) ->
    (alive = true -> bc_closed b = bc_closed (au_chan w) /\ bc_missed b = O /\ bc_kept b = l) ->
    (if alive then f (rd_count (au_reader w)) = Ok count
     else f (rd_count (au_reader w)) = Panic /\ count = rd_count (au_reader w)) ->
    turned f w (mk_audience b (mk_reader alive count (rd_log (au_reader w) ++ [Received a])))
| turned_closed b : bc_missed (au_chan w) = O -> bc_kept (au_chan w) = [] -> bc_closed (au_chan w) = true ->
    bc_listening b = false ->
    turned f w (mk_audience b (mk_reader false (rd_count (au_reader w))
      (rd_log (au_reader w) ++ [RecvClosed]))).

Lemma read_turn_turned f w : rd_alive (au_reader w) = true -> turned f w (read_turn f w).
Proof.
  intros Ha. unfold read_turn. rewrite Ha. destruct (decide (bc_missed (au_chan w) = O)) as [Hm|Hm].
  - destruct (bc_kept (au_chan w)) as [|a l] eqn:Ek.
    + rewrite bc_recv_empty by done. destruct (bc_closed (au_chan w)) eqn:Ec; [|by constructor].
      constructor; try done. apply bc_left.
    + destruct (bc_recv_kept a l _ Hm Ek) as (b & -> & Hl & Hc & Hm' & Hk).
      destruct (f (rd_count (au_reader w))) as [count|[]|] eqn:Ef; eapply turned_received; try done.
      apply bc_left.
  - destruct (bc_recv_missed _ Hm) as (b & -> & Hl & Hc & Hm' & Hk). by apply turned_lagged.
Qed.

Lemma turned_accounted f w w' sent : turned f w w' -> rd_alive (au_reader w') = true ->
  accounted w sent -> accounted w' sent.
Proof.
  intros Ht Ha (told & lost & Htell & Hlost & ->).
  destruct Ht as [|b Hm Hl Hc Hm' Hk|a l b alive count Hm Hk Hl Hb Hf|]; cbn in Ha; try done.
  - by exists told, lost.
  - exists (told ++ lost), []. cbn. rewrite Hm', Hk, <- app_assoc. split_and!; [|done..].
    apply tells_lagged; [done|]. by rewrite Hlost.
  - subst alive. destruct Hb as (_ & Hm' & Hk'); [done|]. rewrite Hm in Hlost.
    apply length_zero_iff_nil in Hlost as ->. exists (told ++ [a]), []. cbn. rewrite Hm', Hk', Hk, <- app_assoc.
    split_and!; [by apply tells_received|done..].
Qed.

(** ** The reader catches up *)

Definition pending w : nat := (length (bc_kept (au_chan w)) + (if decide (bc_missed (au_chan w) = O) then 0 else 1))%nat.

(** Once the senders are gone, a reader that only prints ends, when it has told everything. *)
Lemma reader_ends w sent : rd_alive (au_reader w) = true -> bc_closed (au_chan w) = true -> accounted w sent ->
  exists n log, let r := au_reader (Nat.iter n (read_turn print_item) w) in
    rd_alive r = false /\ rd_log r = log ++ [RecvClosed] /\ tells log sent.
Proof.
  remember (pending w) as n eqn:En. revert w En. induction n as [n IH] using lt_wf_ind. intros w -> Ha Hc Hs.
  pose proof (read_turn_turned print_item w Ha) as Ht. 
  assert (rd_alive (au_reader (read_turn print_item w)) = true -> bc_closed (au_chan (read_turn print_item w)) = true ->
    (pending (read_turn print_item w) < pending w)%nat -> exists n log, let r := au_reader (Nat.iter n (read_turn print_item) w) in
    rd_alive r = false /\ rd_log r = log ++ [RecvClosed] /\ tells log sent) as Hgo.
  { intros Ha' Hc' Hlt. destruct (IH _ Hlt _ eq_refl Ha' Hc') as (n & log & Hn).
    - by eapply turned_accounted.
    - exists (S n), log. by rewrite Nat.iter_succ_r. }
  unfold pending in Hgo. 
  inversion Ht as [Hm Hk Hc'|b Hm Hl Hcb Hm' Hk E|a l b alive count Hm Hk Hl Hb Hf E|b Hm Hk Hc' Hl E]; rewrite <- ?E in Hgo; cbn in *.
  - congruence.
  - apply Hgo; [done|congruence|]. rewrite Hk, Hm'. rewrite (decide_False (P := bc_missed (au_chan w) = O)) by done.
    rewrite decide_True by done. lia.
  - destruct alive; [|by destruct Hf]. destruct (Hb eq_refl) as (Hcb & Hm' & Hk').
    apply Hgo; [done|congruence|]. rewrite Hk, Hk', Hm, Hm'. cbn. lia.
  - destruct Hs as (told & lost & Htell & Hlost & ->). rewrite Hm in Hlost.
    apply length_zero_iff_nil in Hlost as ->. exists 1%nat, (rd_log (au_reader w)). cbn. rewrite <- E, Hk, !app_nil_r. done.
Qed.

End Audience.

(** * The callbacks and the user's state *)

Section Calls.
Context {R PT IT G : Type} `{ClosableLaws PT Packet, !SenderLaws PT Packet, !TrySenderLaws PT Packet}.
Context `{!Sender IT Packet} {consumer : LinkConsumer G}.
Context `{!Message AuthRequest, !Message SubscribeRequest, !Message Heartbeat,
  !Message LinkError}.
Context (read : G -> G) (conf : LinkClientConfig) (peer : string).
Abbreviation Co := (consuming R PT IT G).
Implicit Types (t : Co).

(** An invariant of the consumer's state, the callbacks called and whether the consumer task
    runs. *)
Context (P : bool -> G -> list consumer_call -> Prop).

Definition holds t : Prop := P (cs_alive t) (cs_user t) (cs_calls t).

Definition call_keeps (c : consumer_call) : Prop := forall g l, P true g l ->
  let r := run_consumer_call peer c g in
  P (is_ok r.2) r.1 (l ++ [c]).

Context (Hevent : forall e a g l, P a g l -> exists g',
  on_conn_event e g = (g', Ok tt) /\ P a g' (l ++ [CcConnEvent e])).
Context (Hcall : forall c, of_packet c = true -> call_keeps c).
Context (Hread : forall a g l, P a g l -> P a (read g) l).

Lemma events_hold l t : Forall (fun c => of_packet c = false) l -> holds t ->
  holds (sfor (call_consumer peer) l t).1 /\ (sfor (call_consumer peer) l t).2 = Ok tt.
Proof.
  intros Hl. revert t. induction Hl as [|c l Hc _ IH]; intros t Ht; [done|].
  destruct c as [e| | | |]; try done. destruct (Hevent e _ _ _ Ht) as (g' & E & Hp).
  cbn [sfor]. unfold mbind, SM_bind, call_consumer at 1 3. cbn [run_consumer_call]. rewrite E. by apply IH.
Qed.

Lemma link_turn_holds e t : holds t -> holds (link_turn conf peer e t).1.
Proof.
  intros Ht. unfold link_turn. cbn zeta.
  destruct (events_hold (new_calls (length (acts (cs_client t))) (data_step conf e (cs_client t)).1)
    (set_client (data_step conf e (cs_client t)).1 t)) as [Hh _]; [|done|done].
  eapply quiet_calls; [apply data_step_quiet|done].
Qed.

Lemma consumer_turn_holds t : holds t -> holds (consumer_turn peer t).1.
Proof.
  intros Ht. unfold consumer_turn. destruct (cs_alive t) eqn:Ea; [|done].
  destruct (consume_calls (cs_client t)) as [[->|(c & Hc & ->)] _]; cbn [sfor]; [done|].
  unfold mbind, SM_bind, call_consumer. cbn. unfold holds in Ht. rewrite Ea in Ht.
  pose proof (Hcall c Hc _ _ Ht) as Hk. cbn zeta in Hk.
  destruct (run_consumer_call peer c (cs_user t)) as [g' [[]|[]|]]; cbn [fst snd] in *; [|exact Hk].
  unfold holds. cbn. by rewrite Ea.
Qed.

Lemma example_run_holds es t : holds t -> holds (example_run read conf peer es t).1.
Proof.
  unfold example_run. revert t. induction es as [|e es IH]; intros t Ht; [done|].
  cbn [sfor]. unfold mbind, SM_bind.
  assert (holds (example_step read conf peer e t).1) as Hs.
  { destruct e as [[e|]|]; [by apply link_turn_holds|by apply consumer_turn_holds|by apply Hread]. }
  destruct (example_step read conf peer e t) as [t1 [[]|x|]]; [|done..]. by apply IH.
Qed.

End Calls.

(** * The clients that only print *)

Section Printing.
Context {R PT IT B A : Type} `{ClosableLaws PT Packet, !SenderLaws PT Packet, !TrySenderLaws PT Packet}.
Context `{!Sender IT Packet, !Broadcast B A, !BroadcastLaws B A}.
Context `{!Message AuthRequest, !Message SubscribeRequest, !Message Heartbeat,
  !Message LinkError}.

(** What the client promises: the reader ends once the consumer is dropped, and by then it was
    told every item made of the packets the callbacks were given, in order. *)
Definition tells_all (consumer : LinkConsumer (audience B A)) (item : consumer_call -> option A)
    : Prop :=
  forall conf peer (es : list (option (option (data_event R)))) (c : client_state R PT IT) (b : B),
  bc_listening b = true -> bc_closed b = false -> bc_missed b = O -> bc_kept b = [] ->
  let t := (example_run (read_turn print_item) conf peer es (consuming_init c (audience_init b 0))).1 in
  let w := cs_user t in
  cs_alive t = true /\ accounted w (omap item (cs_calls t)) /\
  exists n log,
    let r := au_reader (Nat.iter n (read_turn print_item) (mk_audience (bc_close (au_chan w)) (au_reader w))) in
    rd_alive r = false /\ rd_log r = log ++ [RecvClosed] /\ tells log (omap item (cs_calls t)).

(** Each callback offers its item, or does nothing. *)
Class Offers (consumer : LinkConsumer (audience B A)) (item : consumer_call -> option A) : Prop := {
  offers_event e : on_conn_event e = mret tt /\ item (CcConnEvent e) = None;
  offers_call peer c : of_packet c = true ->
    run_consumer_call peer c = match item c with Some a => offer a | None => mret tt end
}.

Definition listening (item : consumer_call -> option A) (alive : bool) (w : audience B A)
    (l : list consumer_call) : Prop :=
  alive = true /\ rd_alive (au_reader w) = true /\ bc_listening (au_chan w) = true /\
  bc_closed (au_chan w) = false /\ accounted w (omap item l).

Lemma offers_listening consumer item `{!Offers consumer item} peer c : of_packet c = true ->
  call_keeps peer (listening item) c.
Proof.
  intros Hc w l (_ & Ha & Hl & Hcl & Hs). rewrite (offers_call peer c Hc). cbn zeta.
  unfold listening. rewrite omap_app. cbn. destruct (item c) as [a|]; cbn; [|by rewrite app_nil_r].
  destruct w as [b r]. cbn in *. destruct (send_accounted a b r _ Hl Hs) as (b' & -> & Hl' & Hc' & Hs').
  cbn. split_and!; [done..|congruence|done].
Qed.

Lemma print_listening item a w l : listening item a w l -> listening item a (read_turn print_item w) l.
Proof.
  intros (-> & Ha & Hl & Hc & Hs). pose proof (read_turn_turned print_item w Ha) as Ht.
  assert (rd_alive (au_reader (read_turn print_item w)) = true /\
    bc_listening (au_chan (read_turn print_item w)) = true /\
    bc_closed (au_chan (read_turn print_item w)) = false) as (Ha' & Hl' & Hc').
  { destruct Ht as [|b Hm Hlb Hcb|a l' b alive count Hm Hk Hlb Hb Hf|]; cbn; [done|by rewrite Hlb, Hcb| |congruence].
    destruct alive; [|by destruct Hf]. destruct (Hb eq_refl) as (-> & _). by rewrite Hlb. }
  split_and!; try done. by eapply turned_accounted.
Qed.

Lemma offers_tell_all consumer item `{!Offers consumer item} : tells_all consumer item.
Proof.
  intros conf peer es c b Hl Hc Hm Hk t w.
  assert (holds (listening item) t) as (Ha & Hr & Hlw & Hcw & Hs).
  { apply example_run_holds.
    - intros e a g l (Ha & Hr & Hlw & Hcw & Hs). destruct (offers_event (item:=item) e) as [-> Hi]. exists g.
      split; [done|]. unfold listening. rewrite omap_app. cbn. by rewrite Hi, app_nil_r.
    - intros c'. by apply (offers_listening consumer).
    - apply print_listening.
    - split_and!; try done. exists [], []. cbn. rewrite Hm, Hk. by split_and!; [constructor|..]. }
  split_and!; [done..|]. destruct (bc_closes (au_chan w)) as (Hcc & _ & Hmc & Hkc).
  apply reader_ends; [done..|]. destruct Hs as (told & lost & Ht & Hlost & E). exists told, lost. cbn. by rewrite Hmc, Hkc.
Qed.

End Printing.

(** The items of the two clients. *)
Definition packet_of (c : consumer_call) : option Packet :=
  match c with
  | CcPush push => Some (PPush push)
  | CcResponse response => Some (PResponse response)
  | CcRequest request => Some (PRequest request)
  | _ => None
  end.

#[export] Instance async_offers {B} `{!Broadcast B Packet} : Offers async_consumer packet_of.
Proof. split; [done|]. by intros peer [| |p|r|r]. Qed.

Section Quotations.
Context {Trade Snapshot Depths Brokers Kline OrderBook : Type}.
Context `{!Message Trade, !Message Snapshot, !Message Depths, !Message Brokers,
  !Message Kline, !Message OrderBook}.
Abbreviation Q := (Quotation Trade Snapshot Depths Brokers Kline OrderBook).

Definition quotation_item (c : consumer_call) : option Q := push_of c ≫= quotation_of.

#[export] Instance quotation_offers {B} `{!Broadcast B Q} : Offers quotation_consumer quotation_item.
Proof. split; [done|]. by intros peer [| |p|r|r]. Qed.

(** C25. The two small clients lose nothing silently. However the tasks interleave, neither
    consumer panics; what the reading task printed, with the numbers it printed of what it
    missed, accounts in order for every packet the callbacks were given ([async_client]), for
    every push that parses ([quotation_client]), up to what the channel still keeps; and once
    the consumer is dropped the reader prints the rest and ends. *)
Theorem example_readers_tell_all {R PT IT BP BQ : Type}
    `{ClosableLaws PT Packet, !SenderLaws PT Packet, !TrySenderLaws PT Packet, !Sender IT Packet}
    `{!Broadcast BP Packet, !BroadcastLaws BP Packet, !Broadcast BQ Q, !BroadcastLaws BQ Q}
    `{!Message AuthRequest, !Message SubscribeRequest, !Message Heartbeat, !Message LinkError} :
  tells_all (R:=R) (PT:=PT) (IT:=IT) (B:=BP) async_consumer packet_of /\
  tells_all (R:=R) (PT:=PT) (IT:=IT) (B:=BQ) quotation_consumer quotation_item.
Proof. split; apply offers_tell_all, _. Qed.

(** * The fuller client *)

Section Demo.
Context {R PT IT B TX : Type} `{ClosableLaws PT Packet, !SenderLaws PT Packet, !TrySenderLaws PT Packet}.
Context `{!Sender IT Packet, !Broadcast B Q, !BroadcastLaws B Q}.
Context `{!Sender TX (Packet * option R), !SenderLaws TX (Packet * option R),
  !ReliableSender TX (Packet * option R)}.
Context `{!Message AuthRequest, !Message SubscribeRequest, !Message Heartbeat, !Message LinkError}.
Context (n0 : Z) (tx : TX).
Abbreviation Demo := (demo Trade Snapshot Depths Brokers Kline OrderBook B TX).
Implicit Types g : Demo.

Definition pushes : list consumer_call -> list Push := omap push_of.

Definition is_connected (c : consumer_call) : bool :=
  match c with CcConnected => true | _ => false end.

(** The pushes sent back so far. *)
Definition echoed g (l : list Push) : Prop := exists n tx', dm_link g = (n, Some tx') /\
  accepted tx' = accepted tx ++ map (fun p => (PPush p, None)) l.

Lemma echo_echoed p l g : echoed g l -> exists g', echo (R:=R) p g = (g', Ok tt) /\ echoed g' (l ++ [p]) /\
  dm_audience g' = dm_audience g /\ dm_spawned g' = dm_spawned g.
Proof.
  intros (n & tx1 & E & Ha). eexists. split; [reflexivity|]. cbn. split; [|done].
  unfold send_push, send_to_link, mbind, SM_bind, sget, smodify, echoed. rewrite E. cbn [snd dm_link].
  destruct (send_reliable (PPush p, None : option R) tx1) as [tx2 E2]. rewrite E2. cbn.
  exists n, tx2. split; [done|]. by rewrite (send_accepted _ _ _ E2), Ha, map_app, <- app_assoc.
Qed.

(** The counter of the reader: one for each quotation received, but for the one at which it
    overflowed. *)
Definition counts (r : reader Q) : Prop :=
  rd_count r < 2 ^ 31 /\
  rd_count r + (if rd_alive r then 0 else 1) = n0 + received_count (rd_log r) /\
  (rd_alive r = false -> rd_count r = 2 ^ 31 - 1).

(** The consumer task died of the push it was last given, a quotation nobody listened for. *)
Definition died_of_last g (l : list Push) : Prop := exists l' p,
  l = l' ++ [p] /\ (quotation_of p : option Q) <> None /\ echoed g l' /\
  rd_alive (au_reader (dm_audience g)) = false.

Definition demo_inv (alive : bool) g (l : list consumer_call) : Prop :=
  let w := dm_audience g in
  bc_listening (au_chan w) = rd_alive (au_reader w) /\
  (rd_alive (au_reader w) = true -> bc_closed (au_chan w) = false) /\ counts (au_reader w) /\ dm_spawned g = length (filter is_connected l) /\
  (rd_alive (au_reader w) = true -> accounted w (omap quotation_item l)) /\
  (if alive then echoed g (pushes l) else died_of_last g (pushes l)).

Lemma items_snoc p l : omap quotation_item (l ++ [CcPush p]) =
  omap quotation_item l ++ option_list (quotation_of p).
Proof. rewrite omap_app. done. Qed.

Lemma silent_call alive g l c : push_of c = None -> is_connected c = false -> demo_inv alive g l ->
  demo_inv alive g (l ++ [c]).
Proof.
  intros Hp Hc Hi. unfold demo_inv, pushes in *. rewrite !omap_app, filter_app.
  assert (omap quotation_item [c] = []) as -> by (unfold quotation_item; cbn; by rewrite Hp).
  assert (omap push_of [c] = []) as -> by (cbn; by rewrite Hp).
  rewrite filter_cons_False, filter_nil, !app_nil_r; [exact Hi|]. rewrite Hc. by intros [].
Qed.

Lemma demo_calls peer c : of_packet c = true -> call_keeps (consumer:=demo_consumer (R:=R)) peer demo_inv c.
Proof.
  intros Hc g l Hi. destruct c as [| |p|r|r]; try done; cbn [run_consumer_call on_connected on_push on_response
    on_request demo_consumer]; try by apply silent_call.
  - unfold demo_inv, pushes in *. rewrite filter_snoc, !omap_app. cbn. rewrite !app_nil_r.
    destruct Hi as (? & ? & ? & Hs & ? & ?). split_and!; try done. rewrite Hs. lia.
  - unfold demo_inv, pushes in *. rewrite filter_snoc, items_snoc, omap_app. cbn. rewrite Nat.add_0_r.
    destruct Hi as (Hl & Hcl & Hn & Hs & Hacc & He). unfold demo_on_push, mbind, SM_bind.
    destruct (quotation_of p) as [q|] eqn:Eq.
    + unfold on_audience, offer_unwrap. destruct (rd_alive (au_reader (dm_audience g))) eqn:Er.
      * destruct (dm_audience g) as [b r] eqn:Ew. cbn in *.
        destruct (send_accounted q b r _ Hl (Hacc eq_refl)) as (b' & -> & Hl' & Hc' & Hs').
        cbn [fst snd]. destruct (echo_echoed p (pushes l) (mk_demo (dm_link g) (mk_audience b' r) (dm_spawned g)))
          as (g' & -> & He' & Hg' & Hsp); [exact He|]. cbn. rewrite Hg', Hsp. cbn.
        rewrite Er, Hc'. by split_and!.
      * rewrite bc_send_alone by done. cbn. rewrite Er. split_and!; try done.
        exists (pushes l), p. split_and!; [done|by rewrite Eq|exact He|done].
    + unfold mret, SM_ret. cbn [option_list]. destruct (echo_echoed p (pushes l) g He) as (g' & -> & He' & Hg' & Hsp). cbn.
      rewrite Hg', Hsp, !app_nil_r. by split_and!.
Qed.

(** A quotation nobody listens for. *)
Lemma push_unheard p g : (quotation_of p : option Q) <> None ->
  bc_listening (au_chan (dm_audience g)) = false -> (demo_on_push (R:=R) p g).2 = Panic.
Proof.
  intros Hp Hl. unfold demo_on_push, mbind, SM_bind. destruct (quotation_of p) as [q|]; [|done].
  unfold on_audience, offer_unwrap. by rewrite bc_send_alone.
Qed.

Lemma count_item_eq n : count_item n = if decide (n + 1 < 2 ^ 31) then Ok (n + 1) else Panic.
Proof.
  unfold count_item, incr_i32. destruct (decide _) as [Hn|Hn]; [by rewrite (proj2 (Z.ltb_lt _ _) Hn)|].
  by rewrite (proj2 (Z.ltb_ge _ _)) by lia.
Qed.

Lemma read_counts w : counts (au_reader w) -> rd_alive (au_reader w) = true -> bc_closed (au_chan w) = false ->
  counts (au_reader (read_turn count_item w)).
Proof.
  intros (Hb & Hn & _) Ha Hc. rewrite Ha, Z.add_0_r in Hn.
  destruct (read_turn_turned count_item w Ha) as [|b|a l b alive count Hm Hk Hl Hcb Hf|]; [| | |congruence];
    unfold counts; cbn [au_reader rd_alive rd_count rd_log].
  - rewrite Ha. split_and!; [done|lia|done].
  - rewrite received_count_app. cbn [was_received]. split_and!; [done|lia|done].
  - rewrite received_count_app, count_item_eq in *. cbn [was_received].
    destruct (decide (rd_count (au_reader w) + 1 < 2 ^ 31)), alive; simplify_eq; try (by destruct Hf);
      try destruct Hf as [_ ->]; split_and!; try done; lia.
Qed.

Lemma read_listens w : rd_alive (au_reader w) = true -> bc_closed (au_chan w) = false ->
  bc_listening (au_chan w) = rd_alive (au_reader w) ->
  bc_listening (au_chan (read_turn count_item w)) = rd_alive (au_reader (read_turn count_item w)) /\
  (rd_alive (au_reader (read_turn count_item w)) = true -> bc_closed (au_chan (read_turn count_item w)) = false).
Proof.
  intros Ha Hc Hl. destruct (read_turn_turned count_item w Ha) as [|b Hm Hlb Hcb|a l b alive count Hm Hk Hlb Hb Hf|];
    cbn; [done|split; congruence| |congruence].
  rewrite Hlb, Hl, Ha, andb_true_r. split; [done|]. intros E. by destruct (Hb E) as (-> & _).
Qed.

Lemma demo_read_keeps alive g l : demo_inv alive g l -> demo_inv alive (demo_read g) l.
Proof.
  intros (Hl & Hc & Hn & Hs & Hacc & He). unfold demo_inv, demo_read. cbn [dm_audience dm_spawned].
  destruct (rd_alive (au_reader (dm_audience g))) eqn:Ea.
  - destruct (read_listens _ Ea (Hc eq_refl)) as [Hl' Hc']; [by rewrite Ea|].
    split_and!; try done; [by apply read_counts; auto|..].
    + intros Ha'. eapply turned_accounted; [by apply read_turn_turned|done|by apply Hacc].
    + destruct alive; [exact He|]. destruct He as (l' & p & _ & _ & _ & Hd). cbn in Hd. congruence.
  - assert (read_turn count_item (dm_audience g) = dm_audience g) as -> by (unfold read_turn; by rewrite Ea).
    rewrite Ea. by split_and!.
Qed.

End Demo.

(** C24. The fuller client, however its tasks interleave: the task spawned by [on_connected] is
    spawned once for each; the counter is the number of quotations the reading task received;
    and as long as that task runs, the consumer runs, what the reader was told accounts for
    every quotation and every push was sent back, in order. Only the overflow of the counter
    ends the reading task, under overflow checks, at the quotation after 2^31 - 1. The
    consumer then panics at the next push that parses, before it is sent back, and for no
    other reason. *)
Theorem example_client_echoes {R PT IT B TX : Type}
    `{ClosableLaws PT Packet, !SenderLaws PT Packet, !TrySenderLaws PT Packet, !Sender IT Packet}
    `{!Broadcast B Q, !BroadcastLaws B Q, !Sender TX (Packet * option R), !SenderLaws TX (Packet * option R)}
    `{!ReliableSender TX (Packet * option R), !Message AuthRequest, !Message SubscribeRequest}
    `{!Message Heartbeat, !Message LinkError} conf peer (es : list (option (option (data_event R))))
    (c : client_state R PT IT) (b : B) (n : Z) (tx : TX) (count : Z) :
  count < 2 ^ 31 ->
  bc_listening b = true -> bc_closed b = false -> bc_missed b = O -> bc_kept b = [] ->
  let t := (example_run (consumer:=demo_consumer (R:=R)) demo_read conf peer es
    (consuming_init c (demo_init (n, Some tx) b count))).1 in
  let g := cs_user t in
  let r := au_reader (dm_audience g) in
  dm_spawned g = length (filter is_connected (cs_calls t)) /\
  rd_count r + (if rd_alive r then 0 else 1) = count + received_count (rd_log r) /\
  (rd_alive r = true -> cs_alive t = true /\ accounted (dm_audience g) (omap quotation_item (cs_calls t))) /\
  (rd_alive r = false -> rd_count r = 2 ^ 31 - 1 /\
     forall p, (quotation_of p : option Q) <> None -> (demo_on_push (R:=R) p g).2 = Panic) /\
  (if cs_alive t then echoed tx g (pushes (cs_calls t)) else died_of_last tx g (pushes (cs_calls t))).
Proof.
  intros Hcount Hl Hc Hm Hk t g r.
  assert (holds (demo_inv (R:=R) count tx) t) as (Hlis & _ & (_ & Hn & Hmax) & Hs & Hacc & He).
  { apply example_run_holds.
    - intros e a g0 l Hi. exists g0. split; [done|]. by apply silent_call.
    - intros c'. apply demo_calls.
    - intros a g0 l. apply demo_read_keeps.
    - unfold holds, demo_inv, counts. cbn. split_and!; try done.
      + intros _. exists [], []. cbn. rewrite Hm, Hk. by split_and!; [constructor|..].
      + exists n, tx. by rewrite app_nil_r. }
  fold g r in Hlis, Hn, Hmax, Hs, Hacc, He. split_and!; try done; intros Ha; (split; [|try by apply Hacc]).
  - destruct (cs_alive t); [done|]. destruct He as (l' & p & _ & _ & _ & Hd). fold r in Hd. congruence.
  - by apply Hmax.
  - intros p Hp. apply push_unheard; [done|congruence].
Qed.

End Quotations.

(** * Concrete runs *)

#[local] Instance ec_auth : Message AuthRequest := countable_message AuthRequest.
#[local] Instance ec_subscribe : Message SubscribeRequest := countable_message SubscribeRequest.
#[local] Instance ec_heartbeat : Message Heartbeat := countable_message Heartbeat.
#[local] Instance ec_link_error : Message LinkError := countable_message LinkError.

(** Market data, as the protobuf library encoded it. *)
#[local] Instance ec_data : Message (list byte) := {| encode_to_vec l := l; decode := Some |}.
Abbreviation data := (list byte).
Abbreviation quote := (Quotation data data data data data data).

(** Three trades in a channel with two places, and the reader late. *)
Definition late_events : list (option (option (data_event nat))) :=
  [Some (Some SendAuth); Some (Some (Recv auth_ok 100 0)); Some None;
   Some (Some (Recv (a_push [x01]) 101 0)); Some (Some (Recv (a_push [x02]) 102 0));
   Some (Some (Recv (a_push [x03]) 103 0)); Some None; Some None; Some None; None].

Lemma example_readers_tell_all_witness :
  let t := (example_run (consumer:=quotation_consumer) (read_turn print_item) (sample_conf 0) "1.2.3.4:5" late_events
    (consuming_init client0 (audience_init (ring_new (A:=quote) 1) 0))).1 in
  let w := cs_user t in
  rd_log (au_reader w) = [Lagged 1] /\ accounted w [QTrade [x01]; QTrade [x02]; QTrade [x03]] /\
  exists n log,
    let r := au_reader (Nat.iter n (read_turn print_item) (mk_audience (bc_close (au_chan w)) (au_reader w))) in
    rd_log r = log ++ [RecvClosed] /\ tells log [QTrade [x01]; QTrade [x02]; QTrade [x03]].
Proof.
  intros t w. split; [vm_compute; reflexivity|].
  destruct (example_readers_tell_all (R:=nat) (PT:=consumer_chan) (IT:=transport_chan) (BP:=ring Packet) (BQ:=ring quote))
    as [_ Hq].
  destruct (Hq (sample_conf 0) "1.2.3.4:5" late_events client0 (ring_new 1) eq_refl eq_refl eq_refl eq_refl)
    as (_ & Ha & n & log & _ & Hlog & Ht).
  split; [exact Ha|]. exists n, log. split; [exact Hlog|exact Ht].
Defined.

(** The counter at its last value: the next quotation ends the reader, the one after it the
    consumer. *)
Definition overflow_events : list (option (option (data_event nat))) :=
  [Some (Some SendAuth); Some (Some (Recv auth_ok 100 0)); Some None;
   Some (Some (Recv (a_push [x01]) 101 0)); Some None; None;
   Some (Some (Recv (a_push [x02]) 102 0)); Some None].

Lemma example_client_echoes_witness :
  let t := (example_run (consumer:=demo_consumer (R:=nat)) demo_read (sample_conf 0) "1.2.3.4:5" overflow_events
    (consuming_init client0 (demo_init (1, Some ([] : unlimited (Packet * option nat)))
      (ring_new (A:=quote) 1023) (2 ^ 31 - 1)))).1 in
  let g := cs_user t in
  cs_alive t = false /\ dm_spawned g = 1%nat /\ rd_count (au_reader (dm_audience g)) = 2 ^ 31 - 1 /\
  died_of_last ([] : unlimited (Packet * option nat)) g [push_with [x01]; push_with [x02]].
Proof.
  intros t g. split; [vm_compute; reflexivity|].
  destruct (example_client_echoes (R:=nat) (PT:=consumer_chan) (IT:=transport_chan) (B:=ring quote)
    (sample_conf 0) "1.2.3.4:5" overflow_events client0 (ring_new (A:=quote) 1023) 1 ([] : unlimited (Packet * option nat))
    (2 ^ 31 - 1)) as (Hs & _ & _ & Hc & He); [reflexivity..|].
  split; [exact Hs|]. split; [|exact He]. destruct Hc as [Hc _]; [vm_compute; reflexivity|exact Hc].
Defined.
