(* ===== verification/System.v ===== *)
(** The program with its users: a client and its consumer ([Consuming]), the server's tasks for
    its connection and their handler ([Serving]), and the link between them.

    As in [Session] the link is a queue each way, which is what [EndToEnd] shows of it.
    Upwards it is what the client handed to its transport, of which the server's main loop
    has taken some; downwards it is what was handed to the server's transport, by the main
    loop or by the handler, of which the client has taken some. The two sides end apart: the
    server goes on when the client's link task has ended, and the other way round. *)

From Stdlib Require Import ZArith Lia Strings.Byte.
From stdpp Require Import base functions list strings gmap.
From S2P Require Import Prelude Deku Protos Packets Channel Config Client Server Serving Consuming.

Record system (R PT IT G H TX QT : Type) : Type := mk_system {
  sy_client : consuming R PT IT G;
  (** the link task of the client runs *)
  sy_on : bool;
  sy_server : serving H TX QT;
  sy_taken : nat;
  sy_seen : nat
}.
Arguments mk_system {R PT IT G H TX QT}.
Arguments sy_client {R PT IT G H TX QT}.
Arguments sy_on {R PT IT G H TX QT}.
Arguments sy_server {R PT IT G H TX QT}.
Arguments sy_taken {R PT IT G H TX QT}.
Arguments sy_seen {R PT IT G H TX QT}.

Inductive system_event (R H : Type) : Type :=
(** a turn of a task of the client, or of the server, that takes nothing from the link *)
| SyClient (e : option (data_event R))
| SyServer (e : serving_event H)
(** the server's main loop takes the client's next packet *)
| SyUp (now : Z)
(** the client's link task takes the server's next packet *)
| SyDown (now unix : Z).
Arguments SyClient {R H}.
Arguments SyServer {R H}.
Arguments SyUp {R H}.
Arguments SyDown {R H}.

Section System.
Context {R PT IT G H TX QT : Type} `{Closable PT Packet} `{!Sender IT Packet} {consumer : LinkConsumer G}.
Context `{Closable QT Packet} `{!Sender TX Packet} {handler : ConnHandler H TX}.
Context `{!Message AuthRequest, !Message SubscribeRequest, !Message Heartbeat,
  !Message LinkError}.
Context (conf : LinkClientConfig) (peer : string).
Context (srv : HealthyConfig) (conn : nat) (peer_addr : string).

Abbreviation Sy := (system R PT IT G H TX QT).

Definition up (s : Sy) : list Packet := accepted (inner_request_tx (cs_client (sy_client s))).
Definition down (s : Sy) : list Packet := accepted (u_world (sv_user (sy_server s))).2.

Definition client_side (e : option (data_event R)) (s : Sy) : Sy :=
  if sy_on s then
    let r := consuming_step conf peer e (sy_client s) in
    mk_system r.1 (is_ok r.2) (sy_server s) (sy_taken s) (sy_seen s)
  else s.

Definition server_side (e : serving_event H) (s : Sy) : Sy :=
  mk_system (sy_client s) (sy_on s) (serving_step srv conn peer_addr e (sy_server s))
    (sy_taken s) (sy_seen s).

Definition system_step (e : system_event R H) (s : Sy) : Sy :=
  match e with
  | SyClient (Some (Recv _ _ _)) => s
  | SyClient e => client_side e s
  | SyServer (SvMain (RecvPacket _ _)) => s
  | SyServer e => server_side e s
  | SyUp now =>
      match up s !! sy_taken s with
      | Some p =>
          if mt_on (sv_main (sy_server s)) then
            server_side (SvMain (RecvPacket p now))
              (mk_system (sy_client s) (sy_on s) (sy_server s) (S (sy_taken s)) (sy_seen s))
          else s
      | None => s
      end
  | SyDown now unix =>
      match down s !! sy_seen s with
      | Some p =>
          if sy_on s then
            client_side (Some (Recv p now unix))
              (mk_system (sy_client s) (sy_on s) (sy_server s) (sy_taken s) (S (sy_seen s)))
          else s
      | None => s
      end
  end.

Fixpoint system_run (es : list (system_event R H)) (s : Sy) : Sy :=
  match es with
  | [] => s
  | e :: es => system_run es (system_step e s)
  end.

(** The first connection of a client, as [conn_loop] starts it: callers may have drawn ids
    before. *)
Definition first_conn (c : connection R IT) (ptx : PT) : client_state R PT IT :=
  let new_auth id := new_auth id (username conf) (conf_password conf) (conf_client_name conf) in
  let s := (idle (idle_draws c) (client_init ptx (inner_channel c) (new_auth 1))).1 in
  let auth := new_auth (request_id_gen s) in
  start_conn c auth (add_act (Connect auth) (draw_id (E:=conn_error) s).1).

(** That connection, just accepted by the server. *)
Definition system_init (c : connection R IT) (ptx : PT) (g : G) (now : Z) (q : QT) (h : H) (tx : TX)
    : Sy :=
  mk_system (consuming_init (first_conn c ptx) g) true (serving_init peer_addr now q h tx) 0 0.

End System.
