(* ===== verification/SystemFacts.v ===== *)
(** The program with its users ([System]): what each side shows of itself alone ([ConsumingFacts],
    [ServingFacts], [ExampleServerFacts]) composed over the link. *)

From Stdlib Require Import ZArith Lia Strings.Byte.
From stdpp Require Import base functions list strings gmap.
From S2P Require Import Prelude Deku Protos Packets Quotation Channel Config Client ClientFacts Server ServerFacts.
From S2P Require Import Serving ServingFacts ExampleServer ExampleServerFacts Consuming ConsumingFacts System.

(** * The client's side *)

Section ClientSide.
Context {R PT IT G : Type} `{ClosableLaws PT Packet, !SenderLaws PT Packet, !TrySenderLaws PT Packet}.
Context `{!Sender IT Packet, !SenderLaws IT Packet} {consumer : LinkConsumer G}.
Context `{!Message AuthRequest, !Message SubscribeRequest, !Message Heartbeat,
  !Message LinkError}.
Context (conf : LinkClientConfig) (peer : string).
Abbreviation St := (client_state R PT IT).
Abbreviation Co := (consuming R PT IT G).
Implicit Types (s : St) (t : Co).
Abbreviation queue s := (accepted (packet_process_tx s)).

(** What the consumer task did with the packets [rc] received: the callbacks and the answers are
    those of a sub-sequence of them, in order. *)
Record consumed_ok (rc : list Packet) t : Prop := {
  co_order : in_order (cs_client t);
  co_queue : queue (cs_client t) `sublist_of` rc;
  co_pushes : omap push_of (cs_calls t) =
    omap push_packet (take (consumed (cs_client t)) (queue (cs_client t)))
}.

(** Nothing is taken from the channel upwards. *)
Definition talks s s' : Prop := consumed s' = consumed s /\
  accepted (inner_request_tx s) `prefix_of` accepted (inner_request_tx s').

#[local] Instance talks_preorder : PreOrder talks.
Proof. split; [by intros s|]. intros s1 s2 s3 [] []. split; [congruence|by etrans]. Qed.

Lemma talks_stable : stable (fun _ => True) True talks.
Proof.
  constructor; try done; [apply _|]. intros s p tx E. split; [done|]. cbn.
  rewrite (send_accepted _ _ _ E). by eexists.
Qed.

Lemma data_step_talks e : keeps talks (data_step (R:=R) (PT:=PT) (IT:=IT) conf e).
Proof. apply (data_step_keeps conf _ _ _ talks_stable). by destruct e; repeat constructor. Qed.

Lemma call_all l t : (length l <= 1)%nat ->
  let t' := (sfor (call_consumer (R:=R) (PT:=PT) (IT:=IT) peer) l t).1 in
  cs_client t' = cs_client t /\ cs_calls t' = cs_calls t ++ l.
Proof.
  destruct l as [|c [|? ?]]; cbn; intros Hl; [by rewrite app_nil_r| |lia].
  unfold mbind, SM_bind, call_consumer. by destruct (run_consumer_call peer c (cs_user t)) as [g [[]|[]|]].
Qed.

Lemma no_push l k : Forall (fun c => of_packet c = false) l -> k `prefix_of` l -> omap push_of k = [].
Proof.
  intros Hl [k' ->]. apply Forall_app in Hl as [Hk _]. induction Hk as [|c k Hc _ IH]; [done|]. by destruct c.
Qed.

Lemma link_turn_ok e rc t : consumed_ok rc t -> consumed_ok (rc ++ received e) (link_turn conf peer e t).1.
Proof.
  intros [Ho Hq Hp]. unfold link_turn. cbn zeta. cbn [fst].
  match goal with |- context [sfor _ ?l ?t0] => destruct (call_consumer_client peer l t0) as (Hc & _ & k & Hk & Hcalls) end.
  cbn [set_client cs_client cs_calls] in Hc, Hcalls.
  destruct (data_step_queue conf e (cs_client t)) as (qs & Eq & Hqs).
  destruct (data_step_talks e (cs_client t)) as [Econs _].
  constructor; rewrite ?Hc, ?Hcalls.
  - pose proof (data_step_keeps conf _ _ _ (order_kept_closed (R:=R) (PT:=PT) (IT:=IT)) e) as Hkeep.
    apply Hkeep; [by destruct e; repeat constructor|exact Ho].
  - rewrite Eq. by apply sublist_app.
  - rewrite omap_app, (no_push _ _ (quiet_calls _ _ _ (data_step_quiet conf e (cs_client t)) eq_refl) Hk), app_nil_r.
    rewrite Hp, Econs, Eq, take_app_le; [done|]. apply Ho.
Qed.

Lemma consumer_turn_ok rc t : consumed_ok rc t -> consumed_ok rc (consumer_turn peer t).1.
Proof.
  intros [Ho Hq Hp]. unfold consumer_turn. destruct (cs_alive t); [|by split].
  assert (in_order (consume (cs_client t)).1) as Ho' by (by apply (closed_consume _ _ _ order_kept_closed)).
  destruct (consume_calls (cs_client t)) as [Hl Htake]. destruct (consume_leaves (cs_client t)) as [Hpt _].
  set (l := new_calls _ _) in *. set (s' := (consume (cs_client t)).1) in *.
  destruct (call_all l (set_client s' t)) as [Hcl Hcs]; [destruct Hl as [->|(c & _ & ->)]; cbn; lia|].
  assert (omap push_of (cs_calls t ++ l) = omap push_packet (take (consumed s') (queue s'))) as Hnew.
  { rewrite omap_app, Hp, Hpt. destruct (queue (cs_client t) !! consumed (cs_client t)) as [p|] eqn:Ep.
    - destruct Htake as [-> ->]. by rewrite (take_S_r _ _ _ Ep), omap_app.
    - destruct Htake as [-> ->]. by rewrite app_nil_r. }
  rewrite <- Hpt in Hq. destruct (sfor _ l _) as [t1 r]. cbn [fst set_client cs_client cs_calls] in Hcl, Hcs.
  assert (consumed_ok rc t1) as Ht1 by (constructor; rewrite ?Hcl, ?Hcs; done).
  destruct r as [[]|[]|]; [exact Ht1|]. destruct Ht1 as [Ho1 Hq1 Hp1].
  constructor; cbn; unfold in_order; cbn; rewrite ?hang_up_accepted; done.
Qed.

Lemma consuming_step_ok e rc t : consumed_ok rc t ->
  consumed_ok (rc ++ from_option received [] e) (consuming_step conf peer e t).1.
Proof.
  intros Ht. destruct e as [e|]; cbn [from_option consuming_step]; [by apply link_turn_ok|].
  rewrite app_nil_r. by apply consumer_turn_ok.
Qed.

(** The client only adds to what it handed to its transport. *)
Lemma consuming_step_up e t : accepted (inner_request_tx (cs_client t)) `prefix_of`
  accepted (inner_request_tx (cs_client (consuming_step conf peer e t).1)).
Proof.
  destruct e as [e|]; cbn [consuming_step].
  - unfold link_turn. cbn zeta. cbn [fst].
    match goal with |- context [sfor _ ?l ?t0] => destruct (call_consumer_client peer l t0) as (-> & _) end.
    apply data_step_talks.
  - unfold consumer_turn. destruct (cs_alive t); [|done].
    match goal with |- context [sfor _ ?l ?t0] => destruct (call_consumer_client peer l t0) as (Hc & _);
      destruct (sfor _ l t0) as [t1 [[]|[]|]] end; cbn in *; rewrite Hc; cbn;
      by rewrite (proj2 (consume_leaves (cs_client t))).
Qed.

End ClientSide.

(** * The server's side, with the example's handler *)

Section ServerSide.
Context {TX QT : Type} `{!Sender TX Packet, !SenderLaws TX Packet, !ReliableSender TX Packet}.
Context `{ClosableLaws QT Packet, !SenderLaws QT Packet, !TrySenderLaws QT Packet}.
Context `{!Message AuthRequest, !Message AuthResponse, !Message SubscribeRequest,
  !Message SubscribeResponse, !Message LinkError}.
Context (srv : HealthyConfig) (conn : nat) (peer_addr : string).
Abbreviation Sv := (serving (gmap string Z) TX QT).
Implicit Types s : Sv.

(** A main loop that runs receives; nothing else does. *)
Definition receives (e : serving_event (gmap string Z)) s : list Packet :=
  match e with SvMain e => if mt_on (sv_main s) then got e else [] | _ => [] end.

Definition same_received s s' : Prop := mt_received (sv_main s') = mt_received (sv_main s).

#[local] Instance same_received_preorder : PreOrder same_received.
Proof. split; unfold same_received; [by intros s|congruence]. Qed.

Lemma play_main_received l : keeps same_received (sfor (play_main (QT:=QT) peer_addr) l).
Proof.
  apply keeps_for; [apply _|]. intros []; cbn [play_main]; try done; intros s; unfold same_received; cbn.
  by destruct (send packet _).
Qed.

Lemma play_cb_received l : keeps same_received (sfor (play_cb (QT:=QT) peer_addr) l).
Proof. apply keeps_for; [apply _|]. by intros []. Qed.

Lemma callback_turn_received e s : same_received s (callback_turn peer_addr e s).
Proof.
  unfold callback_turn. destruct (ct_on (sv_cb s)); [|done].
  destruct (callback_step peer_addr e (ct_state (sv_cb s))) as [st [[]|er|]]; cbn [fst snd]; [|done..].
  match goal with |- context [sfor _ ?l ?s0] => pose proof (play_cb_received l s0) as Hk;
    destruct (sfor _ l s0) as [s' [[]|[]|]]; exact Hk end.
Qed.

Lemma serving_step_received e s : mt_received (sv_main (serving_step srv conn peer_addr e s)) =
  mt_received (sv_main s) ++ receives e s.
Proof.
  destruct e as [e|i| | |p| | |i|h]; cbn [serving_step receives]; rewrite ?app_nil_r; try apply callback_turn_received.
  - unfold main_turn. destruct (mt_on (sv_main s)); [|by rewrite app_nil_r].
    destruct (client_main _ _ _ _ _ _) as [st r]. cbn [fst snd].
    match goal with |- context [sfor _ ?l ?s0] => pose proof (play_main_received l s0) as Hk;
      destruct (sfor _ l s0) as [s' r'] end.
    unfold same_received in Hk. destruct r, r'; exact Hk.
  - unfold deferred_turn. destruct (_ !! i) as [p|]; [|done]. by destruct (send p (queue_of _)).
  - unfold take_turn. destruct (_ !! _) as [p|]; [|done]. destruct (ct_on (sv_cb s)); [|done].
    exact (callback_turn_received (CbPacket p) (map_cb _ s)).
  - destruct (queue_closed s); [apply callback_turn_received|done].
  - unfold run_turn. by destruct (_ !! i).
  - done.
Qed.

(** ** What is handed to the transport *)

(** Packets that are no responses: those broadcast, and no other. *)
Definition plain (p : Packet) : bool := negb (is_response p).

Definition down_of s : list Packet := accepted (u_world (sv_user s)).2.

Definition sends (bs : list Packet) s s' : Prop :=
  exists l, down_of s' = down_of s ++ l /\ filter plain l `sublist_of` bs.

Lemma sends_trans bs bs' s1 s2 s3 : sends bs s1 s2 -> sends bs' s2 s3 -> sends (bs ++ bs') s1 s3.
Proof.
  intros (l & E & Hl) (l' & E' & Hl'). exists (l ++ l'). rewrite E', E, app_assoc, filter_app.
  split; [done|by apply sublist_app].
Qed.

#[local] Instance sends_preorder : PreOrder (sends []).
Proof.
  split; [|intros s1 s2 s3; apply (sends_trans [] [])]. intros s. exists []. by rewrite app_nil_r.
Qed.

Lemma sends_same bs s s' : down_of s' = down_of s -> sends bs s s'.
Proof. intros E. exists []. rewrite app_nil_r. split; [done|apply sublist_nil_l]. Qed.

Definition sent_call (c : call) : list Packet := match c with CallSend p => [p] | _ => [] end.

Lemma run_call_sends c (w : gmap string Z * TX) : exists l,
  accepted (run_call peer_addr c w).1.2 = accepted w.2 ++ l /\ filter plain l `sublist_of` sent_call c.
Proof.
  assert (forall p (w : gmap string Z * TX), exists l, accepted (send_to_tx p w).1.2 = accepted w.2 ++ l /\ l = [p]) as Hsend.
  { intros p w'. destruct (send_to_tx_eq p w') as (tx & -> & Ha). by exists [p]. }
  assert (forall p (w : gmap string Z * TX), is_response p = true -> exists l,
    accepted (send_to_tx p w).1.2 = accepted w.2 ++ l /\ filter plain l `sublist_of` []) as Hresp.
  { intros p w' Hp. destruct (Hsend p w') as (l & E & ->). exists [p]. split; [done|].
    rewrite filter_cons_False; [done|]. unfold plain. rewrite Hp. by intros []. }
  assert (forall w' : gmap string Z * TX, accepted w'.2 = accepted w.2 -> exists l,
    accepted w'.2 = accepted w.2 ++ l /\ filter plain l `sublist_of` []) as Hnone.
  { intros w' E. exists []. by rewrite app_nil_r. }
  destruct c as [id info|info|p|r|r|p]; cbn [run_call sent_call on_disconnect Serving.on_push Serving.on_response
    Serving.on_request on_send on_auth example_handler]; try by apply Hnone.
  - unfold example_on_auth, count_conn, mbind, SM_bind, smodify, sget, slift, mret, SM_ret, incr_i32.
    cbn -[send_to_tx]. destruct (_ <? _); cbn -[send_to_tx]; [|by apply Hnone].
    match goal with |- context [send_to_tx ?p ?w] => destruct (Hresp p w eq_refl) as (l & E & Hl);
      destruct (send_to_tx p w) as [w1 [[]|[]|]] end; by exists l.
  - unfold example_on_request. destruct (req_command r); try (apply Hresp; reflexivity);
      (destruct (decode (A:=SubscribeRequest) (req_body r)); [(apply Hresp; reflexivity)|by apply Hnone]).
  - destruct (Hsend p w) as (l & E & ->). exists [p]. split; [done|]. apply sublist_filter.
Qed.

Lemma sends_more bs bs' s s' : sends bs s s' -> sends (bs ++ bs') s s'.
Proof. intros (l & E & Hl). exists l. split; [done|by apply sublist_inserts_r]. Qed.

Lemma call_user_sends c s : sends (sent_call c) s (call_user (QT:=QT) peer_addr c s).1.
Proof. apply run_call_sends. Qed.

Definition polite (a : main_action) : Prop :=
  match a with SendPeer p => is_response p = true | _ => True end.

Lemma play_main_sends l : Forall polite l -> keeps (sends []) (sfor (play_main (QT:=QT) peer_addr) l).
Proof.
  intros Hl. apply keeps_for_all; [apply _|]. eapply Forall_impl; [exact Hl|].
  intros [p|id info ok|sg|p|info] Ha s; cbn [play_main]; try (by apply sends_same);
    [|apply (call_user_sends (CallAuth id info))].
  unfold send_peer, smodify. cbn. destruct (send p _) as [tx|] eqn:E; [|by apply sends_same].
  exists [p]. split; [by apply send_accepted|].
  rewrite filter_cons_False; [done|]. unfold plain. cbn in Ha. rewrite Ha. by intros [].
Qed.

Definition sent_action (a : callback_action) : list Packet :=
  match a with OnSend p => [p] | _ => [] end.

Lemma play_cb_sends l s : sends (l ≫= sent_action) s (sfor (play_cb (QT:=QT) peer_addr) l s).1.
Proof.
  revert s. induction l as [|a l IH]; intros s; [by apply sends_same|].
  change ((a :: l) ≫= sent_action) with (sent_action a ++ (l ≫= sent_action)).
  cbn [sfor]. unfold mbind, SM_bind.
  assert (sends (sent_action a) s (play_cb (QT:=QT) peer_addr a s).1) as Ha.
  { destruct a; cbn [play_cb sent_action]; try (by apply sends_same). apply (call_user_sends (CallSend packet)). }
  destruct (play_cb peer_addr a s) as [s1 [[]|[]|]]; cbn [fst] in *; [|by apply sends_more].
  eapply sends_trans; [exact Ha|apply IH].
Qed.

Definition broadcast_of (e : callback_event) : list Packet :=
  match e with CbBroadcast p => [p] | _ => [] end.

Lemma callback_step_sends e st st' : callback_step peer_addr e st = (st', Ok tt) ->
  exists l, cb_acts st' = cb_acts st ++ l /\ l ≫= sent_action = broadcast_of e.
Proof.
  intros Er. destruct e as [p| |p| |]; cbn [callback_step broadcast_of] in *; try done.
  - unfold on_callback_packet, smodify, cb_add, sfail in Er. destruct p as [r|r|r];
      [destruct (bool_decide _); [destruct (decode _)|]|..]; try discriminate Er; injection Er as <-; cbn;
      by eexists; (split; [done || by rewrite app_nil_r|]).
  - unfold mbind, SM_bind, sget, smodify, cb_add in Er.
    destruct p; injection Er as <-; eexists; cbn; rewrite <- ?app_assoc; by split.
  - unfold mbind, SM_bind, sget, smodify, cb_add in Er. injection Er as <-. eexists. by split.
Qed.

Lemma callback_turn_sends e s : sends (broadcast_of e) s (callback_turn peer_addr e s).
Proof.
  unfold callback_turn. destruct (ct_on (sv_cb s)); [|by apply sends_same].
  destruct (callback_step peer_addr e (ct_state (sv_cb s))) as [st [[]|er|]] eqn:Er; cbn [fst snd];
    [|by apply sends_same..].
  destruct (callback_step_sends _ _ _ Er) as (l & -> & <-). rewrite drop_app_length.
  pose proof (play_cb_sends l (map_cb (fun t => mk_ct st (ct_on t) (ct_taken t) (ct_spawned t)) s)) as Hp.
  destruct (sfor _ l _) as [s' [[]|[]|]]; exact Hp.
Qed.

Lemma turn_polite v (q q' : QT) e new r : turn conn peer_addr v q e q' new r -> Forall polite new.
Proof.
  intros Ht. destruct Ht as [now|e new er He Hl|r' now Hr|r' a now Hr Hd Hv|r' a now Hr Hd Hv|p c now Hp];
    try (by repeat constructor).
  - eapply Forall_impl; [exact Hl|]. by intros [].
  - destruct (try_send p q).2; by repeat constructor.
Qed.

Definition published_by (e : serving_event (gmap string Z)) : list Packet :=
  match e with SvBroadcast p => [p] | _ => [] end.

Lemma serving_step_sends e s : flows s ->
  sends (published_by e) s (serving_step srv conn peer_addr e s).
Proof.
  intros Hf. destruct e as [e|i| | |p| | |i|h]; cbn [serving_step published_by].
  - unfold main_turn. destruct (mt_on (sv_main s)); [|by apply sends_same].
    destruct (client_main_leaves srv conn peer_addr (verdict peer_addr (u_world (sv_user s))) e
      (mt_state (sv_main s))) as (new & Hn & Ht).
    destruct (client_main _ _ _ _ _ _) as [st r]. cbn [fst snd] in *. rewrite Hn, drop_app_length.
    match goal with |- context [sfor _ new ?s0] => pose proof (play_main_sends new (turn_polite _ _ _ _ _ _ Ht) s0) as Hp;
      destruct (sfor _ new s0) as [s' r'] end.
    destruct r, r' as [[]|[]|]; exact Hp.
  - apply sends_same. unfold deferred_turn. destruct (_ !! i) as [p|]; [|done]. by destruct (send p (queue_of _)).
  - unfold take_turn. destruct (_ !! _) as [p|]; [|by apply sends_same].
    destruct (ct_on (sv_cb s)); [|by apply sends_same]. exact (callback_turn_sends (CbPacket p) (map_cb _ s)).
  - destruct (queue_closed s); [apply callback_turn_sends|by apply sends_same].
  - apply callback_turn_sends.
  - apply callback_turn_sends.
  - apply callback_turn_sends.
  - unfold run_turn. destruct (ct_spawned (sv_cb s) !! i) as [c|] eqn:Ei; [|by apply sends_same].
    pose proof (Forall_lookup_1 _ _ _ _ (flow_spawned _ _ _ _ _ Hf) Ei) as Hc.
    assert (sent_call c = []) as <- by (by destruct c).
    match goal with |- context [call_user peer_addr c ?s0] => exact (call_user_sends c s0) end.
  - by apply sends_same.
Qed.

End ServerSide.

(** * Both sides *)

Section Whole.
Context {R PT IT G TX QT : Type} `{ClosableLaws PT Packet, !SenderLaws PT Packet, !TrySenderLaws PT Packet}.
Context `{!Sender IT Packet, !SenderLaws IT Packet} {consumer : LinkConsumer G}.
Context `{!Sender TX Packet, !SenderLaws TX Packet, !ReliableSender TX Packet}.
Context `{ClosableLaws QT Packet, !SenderLaws QT Packet, !TrySenderLaws QT Packet}.
Context `{!Message AuthRequest, !Message AuthResponse, !Message SubscribeRequest,
  !Message SubscribeResponse, !Message Heartbeat, !Message LinkError}.
Context (conf : LinkClientConfig) (peer : string).
Context (srv : HealthyConfig) (conn : nat) (peer_addr : string).
Abbreviation Sy := (system R PT IT G (gmap string Z) TX QT).
Abbreviation run := (system_run (R:=R) (PT:=PT) (IT:=IT) (G:=G) (H:=gmap string Z) (TX:=TX) (QT:=QT)
  conf peer srv conn peer_addr).
Abbreviation step := (system_step (R:=R) (PT:=PT) (IT:=IT) (G:=G) (H:=gmap string Z) (TX:=TX) (QT:=QT)
  conf peer srv conn peer_addr).
Implicit Types s : Sy.

(** What the registry gave this connection to send. *)
Definition published (e : system_event R (gmap string Z)) : list Packet :=
  match e with SyServer e => published_by e | _ => [] end.

(** Pushes are published, never responses. *)
Definition publishes_only (e : system_event R (gmap string Z)) : Prop :=
  match e with SyServer e => publishes e | _ => True end.

Record whole (bs : list Packet) s : Prop := {
  wh_consumed : consumed_ok (take (sy_seen s) (down s)) (sy_client s);
  wh_seen : (sy_seen s <= length (down s))%nat;
  wh_flows : flows (sy_server s);
  wh_account : accounted (sy_server s);
  wh_received : mt_received (sv_main (sy_server s)) = take (sy_taken s) (up s);
  wh_taken : (sy_taken s <= length (up s))%nat;
  wh_published : filter plain (down s) `sublist_of` bs
}.

Lemma take_prefix {A} n (l k : list A) : (n <= length l)%nat -> l `prefix_of` k ->
  take n k = take n l /\ (n <= length k)%nat.
Proof. intros Hn [m ->]. rewrite take_app_le, length_app by done. split; [done|lia]. Qed.

(** A turn of the client, which may take a packet of the link. *)
Lemma client_side_whole bs e s seen : whole bs s -> (seen <= length (down s))%nat ->
  take seen (down s) = take (sy_seen s) (down s) ++ from_option received [] e -> sy_on s = true ->
  whole bs (client_side conf peer e (mk_system (sy_client s) (sy_on s) (sy_server s) (sy_taken s) seen)).
Proof.
  intros [Hc Hs Hf Ha Hr Ht Hp] Hn Etake Hon. unfold client_side. cbn. rewrite Hon.
  destruct (take_prefix _ _ _ Ht (consuming_step_up conf peer e (sy_client s))) as [Eup Hup].
  constructor; try done.
  - change (down _) with (down s). cbn [sy_seen sy_client]. rewrite Etake. by apply consuming_step_ok.
  - etrans; [exact Hr|]. symmetry. exact Eup.
Qed.

(** A turn of the server, the same. *)
Lemma server_side_whole bs e s taken : whole bs s -> publishes e -> (taken <= length (up s))%nat ->
  take taken (up s) = take (sy_taken s) (up s) ++ receives e (sy_server s) ->
  whole (bs ++ published_by e)
    (server_side srv conn peer_addr e (mk_system (sy_client s) (sy_on s) (sy_server s) taken (sy_seen s))).
Proof.
  intros [Hc Hs Hf Ha Hr Ht Hp] He Hn Etake. unfold server_side. cbn.
  destruct (serving_step_sends srv conn peer_addr e (sy_server s) Hf) as (l & Hl & Hsub).
  destruct (take_prefix (sy_seen s) (down s) (down s ++ l)) as [Edown Hdown]; [done|by eexists|].
  match goal with |- whole _ ?s' => assert (down s' = down s ++ l) as Ed by exact Hl end.
  constructor; cbn [sy_client sy_server sy_taken sy_seen]; rewrite ?Ed.
  - by rewrite Edown.
  - done.
  - by apply serving_step_flows.
  - by apply serving_step_account.
  - rewrite serving_step_received, Hr. symmetry. exact Etake.
  - exact Hn.
  - rewrite filter_app. by apply sublist_app.
Qed.

Lemma system_step_whole bs e s : whole bs s -> publishes_only e -> whole (bs ++ published e) (step e s).
Proof.
  intros Hs He. assert (whole (bs ++ published e) s) as Hmore.
  { destruct Hs. constructor; try done. by apply sublist_inserts_r. }
  assert (forall e', (forall p now unix, e' <> Some (Recv p now unix)) -> published e = [] ->
    whole (bs ++ published e) (client_side conf peer e' s)) as Hclient.
  { intros e' Hno ->. rewrite app_nil_r. destruct (sy_on s) eqn:Eon.
    - destruct s as [cl on sv tk sn]. apply (client_side_whole bs e' (mk_system cl on sv tk sn) sn Hs); [apply Hs| |done].
      destruct e' as [[]|]; cbn; rewrite ?app_nil_r; try done. by destruct (Hno packet now unix).
    - unfold client_side. by rewrite Eon. }
  assert (forall e', (forall p now, e' <> SvMain (RecvPacket p now)) -> published_by e' = published e -> publishes e' ->
    whole (bs ++ published e) (server_side srv conn peer_addr e' s)) as Hserver.
  { intros e' Hno <- Hpub. destruct s as [cl on sv tk sn].
    apply (server_side_whole bs e' (mk_system cl on sv tk sn) tk Hs Hpub); [apply Hs|].
    destruct e' as [[]| | | | | | | |]; cbn; rewrite ?app_nil_r; try done; try by destruct (mt_on _); rewrite ?app_nil_r.
    by destruct (Hno packet now). }
  destruct e as [e|e|now|now unix]; cbn [system_step].
  - destruct e as [[]|]; try exact Hmore; by apply Hclient.
  - destruct e as [[]| | | | | | | |]; try exact Hmore; by apply Hserver.
  - destruct (up s !! sy_taken s) as [p|] eqn:Ep; [|exact Hmore].
    destruct (mt_on (sv_main (sy_server s))) eqn:Em; [|exact Hmore].
    apply (server_side_whole bs (SvMain (RecvPacket p now)) s (S (sy_taken s)) Hs); [done| |].
    + by eapply lookup_lt_Some.
    + cbn. rewrite Em. by apply take_S_r.
  - destruct (down s !! sy_seen s) as [p|] eqn:Ep; [|exact Hmore].
    destruct (sy_on s) eqn:Eon; [|exact Hmore]. rewrite <- Eon at 1. cbn [published]. rewrite app_nil_r.
    apply (client_side_whole bs (Some (Recv p now unix)) s (S (sy_seen s)) Hs); [|by apply take_S_r|done].
    by eapply lookup_lt_Some.
Qed.

Lemma system_run_whole es bs s : whole bs s -> Forall publishes_only es -> whole (bs ++ (es ≫= published)) (run es s).
Proof.
  intros Hs Hes. revert bs s Hs. induction Hes as [|e es He Hes IH]; intros bs s Hs; [by rewrite app_nil_r|].
  change ((e :: es) ≫= published) with (published e ++ (es ≫= published)). rewrite app_assoc.
  apply IH. by apply system_step_whole.
Qed.

Lemma drawn_fresh n (s : client_state R PT IT) : let s' := Nat.iter n drawn_once s in
  packet_process_tx s' = packet_process_tx s /\ consumed s' = consumed s /\
  deliveries (acts s') = deliveries (acts s).
Proof.
  induction n as [|n (Et & Ec & Ed)]; [done|]. split_and!; [exact Et|exact Ec|].
  etrans; [apply (deliveries_app _ [_])|]. etrans; [apply app_nil_r|exact Ed].
Qed.

Lemma first_conn_fresh (c : connection R IT) (ptx : PT) : let s := first_conn conf c ptx in
  packet_process_tx s = ptx /\ consumed s = 0%nat /\ deliveries (acts s) = [].
Proof.
  cbn zeta. unfold first_conn. rewrite idle_eq, draw_id_eq. cbn [fst].
  match goal with |- context [Nat.iter ?n _ ?s] => destruct (drawn_fresh (S n) s) as (Et & Ec & Ed) end.
  cbn [Nat.iter] in *. split_and!; [exact Et|exact Ec|].
  etrans; [apply (deliveries_app _ [_])|]. etrans; [apply app_nil_r|exact Ed].
Qed.

Lemma system_init_whole (c : connection R IT) (ptx : PT) (g : G) (now : Z) (q : QT) h (tx : TX) :
  is_open q = true -> accepted q = [] -> accepted tx = [] -> accepted ptx = [] ->
  whole [] (system_init conf peer_addr c ptx g now q h tx).
Proof.
  intros Hopen Hq Htx Hptx. constructor; cbn [system_init sy_client sy_server sy_taken sy_seen]; try lia.
  - destruct (first_conn_fresh c ptx) as (Et & Ec & Ed).
    constructor; unfold in_order; cbn [cs_client cs_calls consuming_init]; rewrite ?Et, ?Ec, ?Ed, ?take_0, ?Hptx;
      [split; [cbn; lia|constructor]|done..].
  - by apply serving_init_flows.
  - constructor; [exists []; split; [done|by cbn; rewrite Htx]|done..].
  - done.
  - unfold down. cbn. by rewrite Htx.
Qed.

(** What a client is told is owed to it. *)
Lemma whole_responses bs s : whole bs s -> filter is_response (down s) ⊆+ up s ≫= answer.
Proof.
  intros [_ _ Hf Ha Hr _ _]. destruct (balance _ Hf Ha) as (lost & _ & Hb).
  etrans; [|apply (sublist_submseteq (take (sy_taken s) (up s) ≫= answer))].
  - rewrite <- Hr, Hb. apply submseteq_inserts_r. done.
  - rewrite <- (take_drop (sy_taken s) (up s)) at 2. rewrite bind_app. by apply sublist_inserts_r.
Qed.

(** The answers callers were given, as packets. *)
Definition reply_packet (a : action R) : option Packet :=
  match a with Reply _ r => Some (PResponse r) | _ => None end.

Lemma replies_delivered (l : list (action R)) : omap reply_packet (deliveries l) = omap reply_packet l.
Proof. induction l as [|[] l IH]; cbn; by rewrite ?IH. Qed.

Lemma replies_of_packets ps ds : Forall2 (delivered_as (R:=R)) ps ds ->
  omap reply_packet ds `sublist_of` filter is_response ps.
Proof.
  induction 1 as [|[r|r|r] d ps ds Hd _ IH]; [done|cbn in Hd; by subst d| |cbn in Hd; by subst d].
  rewrite filter_cons_True by done. destruct Hd as [[w ->]|[(-> & _)|[-> _]]]; cbn; by constructor.
Qed.

Lemma pushes_plain (l : list Packet) : omap push_packet (filter plain l) = omap push_packet l.
Proof.
  induction l as [|[r|r|r] l IH]; [done|..].
  - rewrite filter_cons_True by done. exact IH.
  - rewrite filter_cons_False; [exact IH|]. by intros [].
  - rewrite filter_cons_True by done. cbn. by f_equal.
Qed.

Lemma sublist_omap {A B} (f : A -> option B) (l k : list A) : l `sublist_of` k -> omap f l `sublist_of` omap f k.
Proof. induction 1; cbn; [done|destruct (f x); by try constructor..]. Qed.

Lemma sublist_filter_mono {A} (P : A -> Prop) `{!forall x, Decision (P x)} (l k : list A) :
  l `sublist_of` k -> filter P l `sublist_of` filter P k.
Proof.
  induction 1 as [|x l k _ IH|x l k _ IH]; [done|rewrite !filter_cons; destruct (decide (P x)); [by constructor|done]|].
  rewrite filter_cons. by destruct (decide (P x)); [constructor|].
Qed.

(** C1. What the program comes to, in every interleaving of the tasks of a client, of the
    server's connection and of the link between them, with whatever consumer and the example
    server's handler, as long as what the registry has broadcast are no responses, as it is
    for quotations: the answers callers were given are, as a multiset, among those that the
    packets the client sent call for, each request answered at most once and under its own
    id; so are all the responses that arrived at the client, claimed or not; and the pushes
    the consumer was given are pushes that were broadcast, in that order, none invented,
    repeated or swapped. *)
Theorem program_end_to_end (es : list (system_event R (gmap string Z))) (c : connection R IT)
    (ptx : PT) (g : G) (now : Z) (q : QT) h (tx : TX)
    (Hpub : Forall publishes_only es) (Hopen : is_open q = true)
    (Hq : accepted q = []) (Htx : accepted tx = []) (Hptx : accepted ptx = []) :
  let s := run es (system_init conf peer_addr c ptx g now q h tx) in
  let owed := up s ≫= answer in
  omap reply_packet (acts (cs_client (sy_client s))) ⊆+ owed /\
  filter is_response (take (sy_seen s) (down s)) ⊆+ owed /\
  omap push_of (cs_calls (sy_client s)) `sublist_of` omap push_packet (es ≫= published).
Proof.
  intros s owed.
  pose proof (system_run_whole es [] _ (system_init_whole c ptx g now q h tx Hopen Hq Htx Hptx) Hpub) as Hs.
  fold s in Hs. pose proof (whole_responses _ _ Hs) as Hresp. destruct Hs as [[[_ Ho] Hqu Hp] _ _ _ _ _ Hsub].
  assert (filter is_response (take (sy_seen s) (down s)) ⊆+ owed) as Harrived.
  { etrans; [|exact Hresp]. apply sublist_submseteq, sublist_filter_mono, sublist_take. }
  split_and!; [|exact Harrived|].
  - etrans; [|exact Harrived]. apply sublist_submseteq. rewrite <- replies_delivered.
    etrans; [by apply replies_of_packets|]. apply sublist_filter_mono.
    etrans; [apply sublist_take|exact Hqu].
  - rewrite Hp. etrans; [by apply sublist_omap, sublist_take|].
    etrans; [by apply sublist_omap|]. etrans; [by apply sublist_omap, sublist_take|].
    rewrite <- pushes_plain. by apply sublist_omap.
Qed.

End Whole.

(** * A concrete run

    A client subscribes and asks for something; two trades are published meanwhile. *)

#[local] Instance sy_auth_request : Message AuthRequest := countable_message AuthRequest.
#[local] Instance sy_auth_response : Message AuthResponse := countable_message AuthResponse.
#[local] Instance sy_subscribe : Message SubscribeRequest := countable_message SubscribeRequest.
#[local] Instance sy_subscribed : Message SubscribeResponse := countable_message SubscribeResponse.
#[local] Instance sy_heartbeat : Message Heartbeat := countable_message Heartbeat.
#[local] Instance sy_link_error : Message LinkError := countable_message LinkError.

Abbreviation sample_system := (system nat consumer_chan transport_chan nat (gmap string Z)
  (unlimited Packet) (bounded Packet)).
Abbreviation sy_run es := (system_run (consumer:=fragile) (sample_conf 0) "1.2.3.4:5"
  HealthyConfig_default 7 "5.6.7.8:9" es).
Abbreviation sy_start := (system_init (sample_conf 0) "5.6.7.8:9" (conn_with 0 []) consumer_tx 5%nat 0
  consumer_tx (∅ : gmap string Z) ([] : unlimited Packet) : sample_system).

Definition sy_events : list (system_event nat (gmap string Z)) :=
  [SyClient (Some SendAuth); SyUp 10; SyDown 11 0; SyClient None; SyServer SvTake; SyUp 12;
   SyServer SvTake; SyServer (SvRun 0); SyServer (SvBroadcast (a_push [x01])); SyDown 13 0;
   SyDown 14 0; SyClient (Some DrawId);
   SyClient (Some (SendPacket (new_request CmdSubDepth 3 []) (Some 7%nat) true));
   SyServer (SvBroadcast (a_push [x02])); SyUp 15; SyServer SvTake; SyServer (SvRun 0); SyDown 16 0;
   SyDown 17 0; SyClient None; SyClient None; SyClient None; SyClient None].

Lemma program_end_to_end_witness :
  let s := sy_run sy_events sy_start in
  omap reply_packet (acts (cs_client (sy_client s))) =
    [example_unsupported_response (ex_request CmdSubDepth 3 [])] /\
  omap push_of (cs_calls (sy_client s)) = [push_with [x01]; push_with [x02]] /\
  omap reply_packet (acts (cs_client (sy_client s))) ⊆+ up s ≫= answer /\
  omap push_of (cs_calls (sy_client s)) `sublist_of` [push_with [x01]; push_with [x02]].
Proof.
  intros s. split; [vm_compute; reflexivity|]. split; [vm_compute; reflexivity|].
  destruct (program_end_to_end (consumer:=fragile) (PT:=consumer_chan) (IT:=transport_chan) (TX:=unlimited Packet)
    (QT:=bounded Packet) (sample_conf 0) "1.2.3.4:5" HealthyConfig_default 7 "5.6.7.8:9" sy_events (conn_with 0 [])
    consumer_tx 5%nat 0 consumer_tx ∅ []) as (Hr & _ & Hp).
  - repeat (apply List.Forall_cons; [exact I || reflexivity|]). apply List.Forall_nil.
  - reflexivity.
  - reflexivity.
  - reflexivity.
  - reflexivity.
  - split; [exact Hr|exact Hp].
Defined.
