(* ===== verification/SystemLive.v ===== *)
(** The program with its users ([System]) goes on: with a consumer that does not panic, the
    client takes all that the server sent, and what is missing is what it counted as lost. *)

From Stdlib Require Import ZArith Lia Strings.Byte.
From stdpp Require Import base functions list strings gmap.
From S2P Require Import Prelude Deku Protos Packets Channel Config Client ClientFacts Server ServerFacts.
From S2P Require Import Serving ServingFacts ExampleServer ExampleServerFacts.
From S2P Require Import Consuming ConsumingFacts Broadcast ExampleClient System SystemFacts.

(** * The link task with a consumer *)

Section Client.
Context {R PT IT G : Type} `{ClosableLaws PT Packet, !SenderLaws PT Packet, !TrySenderLaws PT Packet}.
Context `{!Sender IT Packet, !SenderLaws IT Packet} {consumer : LinkConsumer G}.
Context `{!Message AuthRequest, !Message SubscribeRequest, !Message Heartbeat,
  !Message LinkError}.
Context (conf : LinkClientConfig) (peer : string).
Abbreviation St := (client_state R PT IT).
Abbreviation Co := (consuming R PT IT G).
Implicit Types (s : St) (t : Co).
Abbreviation queue s := (accepted (packet_process_tx s)).
Abbreviation opened s := (is_open (packet_process_tx s) = true).

(** What is for the consumer: all but the answers to heartbeats. *)
Definition concerns (p : Packet) : bool := negb (heartbeat_response p).

(** Of the packets [l] some got to the consumer task, the others were counted as lost. *)
Definition shared_out (l : list Packet) s s' : Prop := exists got lost,
  queue s' = queue s ++ got /\ filter concerns l ≡ₚ got ++ lost /\
  slow (acts s') = (slow (acts s) + length lost)%nat.

Lemma shared_none l s s' : filter concerns l = [] -> queue s' = queue s ->
  slow (acts s') = slow (acts s) -> shared_out l s s'.
Proof. intros El Eq Es. exists [], []. rewrite app_nil_r, El. split_and!; [done..|by rewrite Nat.add_0_r]. Qed.

Lemma shared_one p s s' got lost : concerns p = true -> [p] = got ++ lost ->
  queue s' = queue s ++ got -> slow (acts s') = (slow (acts s) + length lost)%nat -> shared_out [p] s s'.
Proof.
  intros Hp E Eq Es. exists got, lost. split_and!; [done| |done]. rewrite <- E.
  by rewrite filter_cons_True by (by rewrite Hp).
Qed.

Lemma alike_shared l s1 s2 s3 : shared_out l s1 s2 -> alike s2 s3 -> shared_out l s1 s3.
Proof.
  intros (got & lost & Eq & El & Es) ((Et & _) & _ & Ew). exists got, lost. by rewrite Et, Ew.
Qed.

Lemma new_subscribes_alike subs : keeps alike (new_subscribes (R:=R) (PT:=PT) (IT:=IT) subs).
Proof.
  induction subs as [|sub subs IH]; cbn [new_subscribes]; [apply keeps_ret, _|].
  apply keeps_bind; [apply _|apply alike_draw|]. intros id.
  apply keeps_bind; [apply _|exact IH|]. intros ?. apply keeps_ret, _.
Qed.

Lemma subscribe_all_alike subs : keeps alike
  (sub_packets ← new_subscribes (R:=R) (PT:=PT) (IT:=IT) subs; sfor send_subscribe sub_packets).
Proof.
  apply keeps_bind; [apply _|apply new_subscribes_alike|]. intros ps. apply keeps_for; [apply _|].
  intros p. apply alike_inner_then. by intros [].
Qed.

(** A packet for a consumer task that runs. *)
Lemma try_process_shared p now s : opened s -> concerns p = true ->
  let r := try_process (R:=R) (PT:=PT) (IT:=IT) p (set_pong now s) in
  opened r.1 /\ r.2 = Ok tt /\ shared_out [p] s r.1.
Proof.
  intros Ho Hp. unfold try_process, mbind, SM_bind, sget, smodify. cbn [packet_process_tx set_pong].
  destruct (open_try p _ Ho) as [Hc Ho']. destruct (try_send p (packet_process_tx s)) as [tx []] eqn:E; [..|done].
  - split_and!; [exact Ho'|done|]. apply (shared_one p s _ [p] []); [done|done|by apply try_send_sent in E|by rewrite Nat.add_0_r].
  - split_and!; [exact Ho'|done|]. apply (shared_one p s _ [] [p]); [done|done| |].
    + rewrite app_nil_r. by eapply try_send_other.
    + etrans; [apply (slow_app (acts s) [_])|done].
Qed.

(** The client is authenticated, the consumer told, the subscriptions sent. *)
Lemma recv_auth_eq r now unix s tx : resp_command r = Auth -> resp_status r = Success ->
  send (PResponse r) (packet_process_tx s) = Some tx ->
  on_recv conf (PResponse r) now unix s =
    (sub_packets ← new_subscribes (R:=R) (PT:=PT) (IT:=IT) (subscribes conf); sfor send_subscribe sub_packets)
      (set_process tx (set_authed true (set_pong now s))).
Proof.
  intros Hr Hst E. unfold on_recv, process_send, mbind, SM_bind, smodify, sget.
  rewrite Hr, bool_decide_true by done. cbn [packet_process_tx set_authed set_pong]. by rewrite E.
Qed.

Lemma recv_shared p now unix s : opened s -> let r := on_recv conf p now unix s in
  opened r.1 /\ (r.2 = Ok tt -> shared_out [p] s r.1).
Proof.
  intros Ho. assert (forall q, concerns q = true -> let r := try_process q (set_pong now s) in
    opened r.1 /\ (r.2 = Ok tt -> shared_out [q] s r.1)) as Htry.
  { intros q Hq. by destruct (try_process_shared q now s Ho Hq) as (A & _ & B). }
  destruct p as [q|r|q]; [by apply (Htry (PRequest q))| |by apply (Htry (PPush q))].
  destruct (decide (resp_command r = Auth)) as [Er|Hna].
  - destruct (decide (resp_status r = Success)) as [Es|Hns].
    + destruct (open_send_some (PResponse r) _ Ho) as (tx & E & Ho'). cbn zeta.
      rewrite (recv_auth_eq r now unix s tx Er Es E).
      destruct (subscribe_all_alike (subscribes conf) (set_process tx (set_authed true (set_pong now s)))) as [[Et Hq] Hk].
      split; [by rewrite Et|]. intros _. eapply alike_shared; [|split; [split; [exact Et|exact Hq]|exact Hk]].
      apply (shared_one (PResponse r) s _ [PResponse r] []);
        [unfold concerns; cbn; by rewrite Er|done|by apply send_accepted|by rewrite Nat.add_0_r].
    + unfold on_recv, mbind, SM_bind, smodify. rewrite Er, bool_decide_false by done. done.
  - destruct (decide (resp_command r = Heartbeat_)) as [Er|Hnh].
    + unfold on_recv, mbind, SM_bind, smodify, slift, act. cbn zeta. rewrite Er.
      destruct (decode (A:=Heartbeat) (resp_body r)) as [hb|]; [|done].
      destruct (isub64 unix (timestamp hb)) as [d|[]|]; [|done..].
      split; [done|]. intros _. apply shared_none; [|done|by apply not_slow].
      unfold concerns. rewrite filter_cons_False; [done|]. cbn. rewrite Er. by intros [].
    + assert (on_recv conf (PResponse r) now unix s = try_process (PResponse r) (set_pong now s)) as ->.
      { unfold on_recv, mbind, SM_bind, smodify. by destruct (resp_command r). }
      apply (Htry (PResponse r)). unfold concerns. cbn. by rewrite bool_decide_false.
Qed.

Lemma data_step_shared e s : opened s -> let r := data_step conf e s in
  opened r.1 /\ (r.2 = Ok tt -> shared_out (received e) s r.1).
Proof.
  intros Ho. assert (received e = [] -> let r := data_step conf e s in
    opened r.1 /\ (r.2 = Ok tt -> shared_out (received e) s r.1)) as Hk.
  { intros He. destruct (data_step_alike conf e He s) as ((Et & _) & _ & Ew). rewrite He.
    split; [by rewrite Et|]. intros _. apply shared_none; [done|by rewrite Et|done]. }
  destruct e; try (by apply Hk). by apply recv_shared.
Qed.

(** Packets that end no connection: no refusal, and answers to heartbeats that decode. *)
Definition digestible (p : Packet) : Prop :=
  match p with
  | PResponse r => (resp_command r = Auth -> resp_status r = Success) /\
      (resp_command r = Heartbeat_ -> is_Some (decode (A:=Heartbeat) (resp_body r)))
  | _ => True
  end.

Lemma subscribe_all_ok `{!ReliableSender IT Packet} subs s :
  ((sub_packets ← new_subscribes (R:=R) (PT:=PT) (IT:=IT) subs; sfor send_subscribe sub_packets) s).2 = Ok tt.
Proof.
  assert (exists s' ps, new_subscribes (R:=R) (PT:=PT) (IT:=IT) subs s = (s', Ok ps)) as (s1 & ps & E).
  { revert s. induction subs as [|sub subs IH]; intros s; [by eexists _, _|].
    cbn [new_subscribes]. unfold mbind, SM_bind. rewrite draw_id_eq.
    destruct (IH (drawn_once s)) as (s' & ps & ->). by eexists _, _. }
  unfold mbind, SM_bind. rewrite E. by destruct (send_subscribes_eq ps s1) as (s2 & -> & _).
Qed.

Lemma recv_goes_on `{!ReliableSender IT Packet} p now s : opened s -> digestible p ->
  exists unix, (data_step conf (Recv p now unix) s).2 = Ok tt.
Proof.
  intros Ho Hp. assert (forall q, concerns q = true -> (try_process q (set_pong now s)).2 = Ok tt) as Htry.
  { intros q Hq. by destruct (try_process_shared q now s Ho Hq) as (_ & A & _). }
  cbn [data_step]. destruct p as [q|r|q]; [exists 0; by apply (Htry (PRequest q))| |exists 0; by apply (Htry (PPush q))].
  destruct Hp as [Ha Hh]. destruct (decide (resp_command r = Auth)) as [Er|Hna].
  { exists 0. destruct (open_send_some (PResponse r) _ Ho) as (tx & E & Ho').
    rewrite (recv_auth_eq r now 0 s tx Er (Ha Er) E). apply subscribe_all_ok. }
  destruct (decide (resp_command r = Heartbeat_)) as [Er|Hnh].
  - destruct (Hh Er) as [hb Hhb]. exists (timestamp hb).
    unfold on_recv, mbind, SM_bind, smodify, slift, act. rewrite Er, Hhb.
    unfold isub64. by rewrite Z.sub_diag.
  - exists 0. etrans; [|apply (Htry (PResponse r)); unfold concerns; cbn; by rewrite bool_decide_false].
    unfold on_recv, mbind, SM_bind, smodify. by destruct (resp_command r).
Qed.

(** ** A consumer that never panics *)

Context (calm : forall c g, (run_consumer_call peer c g).2 = Ok tt).

Lemma calls_calm l t : (sfor (call_consumer (R:=R) (PT:=PT) (IT:=IT) peer) l t).2 = Ok tt.
Proof.
  revert t. induction l as [|c l IH]; intros t; [done|]. cbn [sfor]. unfold mbind, SM_bind.
  destruct (call_consumer peer c t) as [t1 r] eqn:E. pose proof (calm c (cs_user t)) as Hc.
  injection E as <- Er. rewrite Hc in Er. subst r. apply IH.
Qed.

Lemma link_turn_result e t : (link_turn conf peer e t).2 = (data_step conf e (cs_client t)).2.
Proof. unfold link_turn. cbn zeta. cbn [snd]. by rewrite calls_calm. Qed.

(** Of the packets [rc] received, all but those counted as lost are with the consumer task. *)
Record catching_up (rc : list Packet) (on : bool) t : Prop := {
  cu_alive : cs_alive t = true;
  cu_open : opened (cs_client t);
  cu_told : on = true -> exists lost, filter concerns rc ≡ₚ queue (cs_client t) ++ lost /\
    slow (acts (cs_client t)) = length lost
}.

Lemma consume_slow s : slow (acts (consume s).1) = slow (acts s).
Proof.
  rewrite consume_eq. cbn [fst]. destruct (_ !! _) as [p|]; [|done].
  unfold consume_state. destruct p as [r|r|p].
  - by apply (not_slow (OnRequest r) (acts s)).
  - match goal with |- slow (acts (add_act ?a _)) = _ => apply (not_slow a (acts s)) end.
    destruct (requests _ !! _); [done|]. unfold unclaimed. by destruct (_ && _).
  - etrans; [by apply (not_slow (OnPush p) (acts s ++ [_]))|by apply not_slow].
Qed.

Lemma consuming_step_catching_up e rc on t : catching_up rc on t ->
  let r := consuming_step conf peer e t in
  catching_up (rc ++ from_option received [] e) (on && is_ok r.2) r.1.
Proof.
  intros [Ha Ho Ht]. destruct e as [e|]; cbn [from_option consuming_step]; cbn zeta.
  - rewrite link_turn_result. unfold link_turn. cbn zeta. cbn [fst].
    match goal with |- context [sfor _ ?l ?t0] => destruct (call_consumer_client peer l t0) as (Hc & Hal & _) end.
    cbn [set_client cs_client cs_alive] in Hc, Hal. destruct (data_step_shared e _ Ho) as [Ho' Hs].
    constructor; rewrite ?Hc, ?Hal; [done|done|]. intros [-> Hok]%andb_prop.
    destruct (Ht eq_refl) as (lost & El & Es).
    destruct Hs as (got & lost' & Eq & El' & Es'); [by destruct (data_step conf e (cs_client t)).2 as [[]| |]|].
    exists (lost ++ lost'). rewrite filter_app, El, El', Eq, Es', Es, length_app. split; [|done].
    rewrite <- !app_assoc. apply Permutation_app_head, Permutation_app_swap_app.
  - rewrite app_nil_r. unfold consumer_turn. rewrite Ha.
    destruct (consume_leaves (cs_client t)) as [Et _]. pose proof (consume_slow (cs_client t)) as Ew.
    match goal with |- context [sfor _ ?l ?t0] => destruct (call_consumer_client peer l t0) as (Hc & Hal & _);
      pose proof (calls_calm l t0) as Hr; destruct (sfor _ l t0) as [t1 r] end.
    cbn [fst snd set_client cs_client cs_alive] in *. subst r.
    constructor; cbn [fst snd]; rewrite ?Hc, ?Et, ?Ew, ?Hal; [done..|]. by rewrite andb_true_r.
Qed.

(** The consumer task takes the next packet. *)
Lemma consumer_turn_takes t : cs_alive t = true -> (consumed (cs_client t) < length (queue (cs_client t)))%nat ->
  let t' := (consumer_turn peer t).1 in
  packet_process_tx (cs_client t') = packet_process_tx (cs_client t) /\
  consumed (cs_client t') = S (consumed (cs_client t)).
Proof.
  intros Ha [p Hp]%lookup_lt_is_Some. unfold consumer_turn. rewrite Ha.
  destruct (consume_leaves (cs_client t)) as [Et _]. destruct (consume_calls (cs_client t)) as [_ Hc].
  rewrite Hp in Hc. destruct Hc as [Hc _].
  match goal with |- context [sfor _ ?l ?t0] => destruct (call_consumer_client peer l t0) as (Ec & _);
    pose proof (calls_calm l t0) as Hr; destruct (sfor _ l t0) as [t1 r] end.
  cbn [fst snd set_client cs_client] in *. subst r. cbn [fst]. by rewrite Ec.
Qed.

End Client.

(** * The system *)

Section Live.
Context {R PT IT G TX QT : Type} `{ClosableLaws PT Packet, !SenderLaws PT Packet, !TrySenderLaws PT Packet}.
Context `{!Sender IT Packet, !SenderLaws IT Packet, !ReliableSender IT Packet} {consumer : LinkConsumer G}.
Context `{!Sender TX Packet, !SenderLaws TX Packet, !ReliableSender TX Packet}.
Context `{ClosableLaws QT Packet, !SenderLaws QT Packet, !TrySenderLaws QT Packet}.
Context `{!Message AuthRequest, !Message AuthResponse, !Message SubscribeRequest,
  !Message SubscribeResponse, !Message Heartbeat, !Message LinkError}.
Context (conf : LinkClientConfig) (peer : string).
Context (srv : HealthyConfig) (conn : nat) (peer_addr : string).
Context (calm : forall c g, (run_consumer_call peer c g).2 = Ok tt).
Abbreviation Sy := (system R PT IT G (gmap string Z) TX QT).
Abbreviation run := (system_run (R:=R) (PT:=PT) (IT:=IT) (G:=G) (H:=gmap string Z) (TX:=TX) (QT:=QT)
  conf peer srv conn peer_addr).
Abbreviation step := (system_step (R:=R) (PT:=PT) (IT:=IT) (G:=G) (H:=gmap string Z) (TX:=TX) (QT:=QT)
  conf peer srv conn peer_addr).
Implicit Types s : Sy.

Abbreviation client s := (cs_client (sy_client s)).
Abbreviation queue s := (accepted (packet_process_tx (client s))).

Definition live s : Prop := catching_up (take (sy_seen s) (down s)) (sy_on s) (sy_client s).

Lemma client_side_live e rc (cl : consuming R PT IT G) (sv : serving (gmap string Z) TX QT) tk sn :
  catching_up rc true cl ->
  let s' := client_side conf peer e (mk_system cl true sv tk sn) in
  catching_up (rc ++ from_option received [] e) (sy_on s') (sy_client s').
Proof. intros Hc. exact (consuming_step_catching_up conf peer calm e rc true cl Hc). Qed.

Lemma server_side_down bs e s tk : whole bs s ->
  down s `prefix_of` down (server_side srv conn peer_addr e (mk_system (sy_client s) (sy_on s) (sy_server s) tk (sy_seen s))).
Proof.
  intros [_ _ Hf _ _ _ _]. destruct (serving_step_sends srv conn peer_addr e (sy_server s) Hf) as (l & Hl & _).
  exists l. exact Hl.
Qed.

Lemma server_side_live bs e s tk : whole bs s -> live s ->
  live (server_side srv conn peer_addr e (mk_system (sy_client s) (sy_on s) (sy_server s) tk (sy_seen s))).
Proof.
  intros Hw Hl. destruct (take_prefix (sy_seen s) _ _ (wh_seen _ _ Hw) (server_side_down bs e s tk Hw)) as [E _].
  unfold live. cbn [server_side sy_seen sy_on sy_client]. by rewrite E.
Qed.

Lemma system_step_live bs e s : whole bs s -> live s -> live (step e s).
Proof.
  intros Hw Hs. assert (forall e', from_option received [] e' = [] -> live (client_side conf peer e' s)) as Hclient.
  { intros e' He. destruct s as [cl [] sv tk sn]; [|exact Hs].
    pose proof (client_side_live e' _ cl sv tk sn Hs) as Hc. rewrite He, app_nil_r in Hc. exact Hc. }
  assert (forall e', live (server_side srv conn peer_addr e' s)) as Hserver.
  { intros e'. destruct s as [cl on sv tk sn]. exact (server_side_live bs e' _ tk Hw Hs). }
  destruct e as [e|e|now|now unix]; cbn [system_step].
  - destruct e as [[]|]; try exact Hs; by apply Hclient.
  - destruct e as [[]| | | | | | | |]; try exact Hs; apply Hserver.
  - destruct (up s !! sy_taken s); [|exact Hs]. destruct (mt_on _); [|exact Hs].
    exact (server_side_live bs _ s _ Hw Hs).
  - destruct (down s !! sy_seen s) as [p|] eqn:Ep; [|exact Hs]. destruct (sy_on s) eqn:Eon; [|exact Hs].
    unfold live in Hs. rewrite Eon in Hs. pose proof (client_side_live (Some (Recv p now unix)) _ _ (sy_server s)
      (sy_taken s) (S (sy_seen s)) Hs) as Hc. unfold live. cbn [from_option received] in Hc.
    rewrite <- (take_S_r _ _ _ Ep) in Hc. exact Hc.
Qed.

Lemma system_run_live es bs s : whole bs s -> live s -> Forall publishes_only es -> live (run es s).
Proof.
  intros Hw Hs Hes. revert bs s Hw Hs. induction Hes as [|e es He Hes IH]; intros bs s Hw Hs; [done|].
  apply (IH (bs ++ published e)); [by apply system_step_whole|by eapply system_step_live].
Qed.

Lemma system_run_app es es' s : run (es ++ es') s = run es' (run es s).
Proof. revert s. induction es as [|e es IH]; intros s; [done|apply IH]. Qed.

Lemma first_conn_slow (c : connection R IT) (ptx : PT) : slow (acts (first_conn conf c ptx)) = 0%nat.
Proof.
  unfold first_conn. rewrite idle_eq, draw_id_eq. cbn [fst].
  etrans; [by apply not_slow|]. etrans; [by apply not_slow|].
  induction (idle_draws c) as [|n IH]; [done|]. etrans; [by apply not_slow|exact IH].
Qed.

(** ** Taking what is there *)

(** The client's own turns: nobody sends, nobody asks. *)
Definition only_takes (e : system_event R (gmap string Z)) : Prop :=
  match e with SyDown _ _ | SyClient None => True | _ => False end.

Lemma only_takes_quiet es : Forall only_takes es ->
  Forall publishes_only es /\ es ≫= published = [].
Proof.
  induction 1 as [|e es He _ [IH IH']]; [by split|]. destruct e as [[]|[]| |]; try done;
    (split; [by constructor|exact IH']).
Qed.

(** What is kept while the client takes. *)
Record going_on bs s : Prop := {
  go_whole : whole bs s;
  go_live : live s;
  go_on : sy_on s = true
}.

Lemma going_on_step bs e s : going_on bs s -> only_takes e -> sy_on (step e s) = true -> going_on bs (step e s).
Proof.
  intros [Hw Hl _] He Hon. constructor; [|by eapply system_step_live|exact Hon].
  pose proof (system_step_whole conf peer srv conn peer_addr bs e s Hw) as Hs.
  destruct e as [[]|[]| |]; try done; cbn [published] in Hs; rewrite app_nil_r in Hs; by apply Hs.
Qed.

(** The link task takes the next packet. *)
Lemma takes_one bs s p : going_on bs s -> down s !! sy_seen s = Some p -> digestible p ->
  exists e, only_takes e /\ going_on bs (step e s) /\
    down (step e s) = down s /\ sy_seen (step e s) = S (sy_seen s).
Proof.
  intros Hg Ep Hp. pose proof Hg as [_ [_ Ho _] Hon].
  destruct (recv_goes_on conf p 0 (client s) Ho Hp) as [unix Hr].
  exists (SyDown 0 unix). split; [done|].
  assert (step (SyDown 0 unix) s = client_side conf peer (Some (Recv p 0 unix))
    (mk_system (sy_client s) true (sy_server s) (sy_taken s) (S (sy_seen s)))) as E
    by (cbn [system_step]; by rewrite Ep, Hon).
  split; [|by rewrite E]. apply going_on_step; [done|done|]. rewrite E. cbn [client_side sy_on sy_client consuming_step].
  by rewrite (link_turn_result conf peer calm), Hr.
Qed.

Lemma takes_down bs s : going_on bs s -> Forall digestible (drop (sy_seen s) (down s)) ->
  exists es, Forall only_takes es /\ let s' := run es s in
    going_on bs s' /\ down s' = down s /\ sy_seen s' = length (down s').
Proof.
  remember (drop (sy_seen s) (down s)) as ps eqn:Eps. intros Hg Hps. revert s Eps Hg.
  induction Hps as [|p ps Hp _ IH]; intros s Eps Hg; pose proof (wh_seen _ _ (go_whole _ _ Hg)) as Hle.
  - exists []. split; [constructor|]. cbn zeta. split_and!; [exact Hg|done|].
    apply (f_equal length) in Eps. rewrite length_drop in Eps. cbn in *. lia.
  - assert (down s !! sy_seen s = Some p) as Ep.
    { rewrite <- (Nat.add_0_r (sy_seen s)), <- lookup_drop, <- Eps. done. }
    destruct (takes_one bs s p Hg Ep Hp) as (e & He & Hg' & Ed & Es).
    destruct (IH (step e s)) as (es & Hes & Hrest); [|done|].
    { rewrite Ed, Es. rewrite <- Nat.add_1_r, <- drop_drop, <- Eps. done. }
    exists (e :: es). split; [by constructor|]. destruct Hrest as (A & B & C). by rewrite Ed in B.
Qed.

(** The consumer task takes all there is. *)
Lemma takes_queue bs s : going_on bs s -> exists es, Forall only_takes es /\ let s' := run es s in
  going_on bs s' /\ down s' = down s /\ sy_seen s' = sy_seen s /\
  packet_process_tx (client s') = packet_process_tx (client s) /\
  consumed (client s') = length (queue s').
Proof.
  remember (length (queue s) - consumed (client s))%nat as n eqn:En. revert s En.
  induction n as [|n IH]; intros s En Hg.
  { exists []. split; [constructor|]. cbn zeta. split_and!; [exact Hg|done..|].
    pose proof (proj1 (co_order _ _ (wh_consumed _ _ (go_whole _ _ Hg)))). cbn in *. lia. }
  pose proof Hg as [_ [Ha _ _] Hon].
  destruct (consumer_turn_takes peer calm (sy_client s) Ha) as [Et Ec]; [lia|].
  assert (step (SyClient None) s = client_side conf peer None s) as E by done.
  assert (sy_client (step (SyClient None) s) = (consumer_turn peer (sy_client s)).1) as Ecl
    by (rewrite E; unfold client_side; by rewrite Hon).
  assert (sy_on (step (SyClient None) s) = true) as Hon'.
  { rewrite E. unfold client_side. rewrite Hon. cbn [sy_on consuming_step]. unfold consumer_turn. rewrite Ha.
    by destruct (sfor _ _ _) as [? [| |]]. }
  assert (down (step (SyClient None) s) = down s /\ sy_seen (step (SyClient None) s) = sy_seen s) as [Ed Es]
    by (rewrite E; unfold client_side; by rewrite Hon).
  destruct (IH (step (SyClient None) s)) as (es & Hes & Hg' & Ed' & Es' & Et' & Hq).
  - rewrite Ecl, Et, Ec. lia.
  - by apply going_on_step.
  - exists (SyClient None :: es). split; [by constructor|]. cbn zeta. cbn [system_run].
    rewrite Ecl, Et in Et'. split_and!; [exact Hg'|by etrans|by etrans|exact Et'|exact Hq].
Qed.

(** ** What the server answers can be taken *)

(** A heartbeat whose body decodes, as those of the ticker do. *)
Definition sane_heartbeat (p : Packet) : Prop :=
  match p with
  | PRequest r => req_command r = Heartbeat_ -> is_Some (decode (A:=Heartbeat) (req_body r))
  | _ => True
  end.

Lemma answer_digestible p : sane_heartbeat p -> Forall digestible (answer p).
Proof.
  destruct p as [r|r|r]; cbn [answer sane_heartbeat]; [|constructor..]. intros Hh.
  destruct (req_command r) eqn:Er; cbn [answer_call]; rewrite ?Er;
    try (apply Forall_singleton; split; cbn; rewrite ?Er; done).
  unfold auth_call. rewrite bool_decide_true by done.
  destruct (decode (A:=AuthRequest) (req_body r)); [|constructor]. by apply Forall_singleton.
Qed.

Lemma down_digestible bs s : whole bs s -> Forall sane_heartbeat (up s) -> Forall digestible (down s).
Proof.
  intros Hw Hup. assert (Forall digestible (up s ≫= answer)) as Hans.
  { apply Forall_bind. eapply Forall_impl; [exact Hup|]. apply answer_digestible. }
  pose proof (whole_responses _ _ Hw) as Hr. rewrite Forall_forall in Hans |- *. intros p Hp.
  destruct (is_response p) eqn:Ep; [|by destruct p].
  apply Hans. eapply elem_of_submseteq; [|exact Hr]. apply list_elem_of_filter. by rewrite Ep.
Qed.

(** C2. The program goes on. With a consumer that does not panic and the example server's
    handler, wherever a run is on a connection that the client's link task has not given up,
    the client's two tasks can take everything the server sent, with nobody else doing
    anything, and the connection still holds. Every packet the server sent, the answers to
    heartbeats apart, was then delivered, in order: a push or a request to the consumer, a
    response to the caller waiting for it or to the consumer; or else it was dropped for want
    of room, and the drops are exactly those counted. The heartbeats sent must decode, as
    those of the ticker do. *)
Theorem program_goes_on (es : list (system_event R (gmap string Z))) (c : connection R IT)
    (ptx : PT) (g : G) (now : Z) (q : QT) h (tx : TX)
    (Hpub : Forall publishes_only es) (Hopen : is_open q = true) (Hopen' : is_open ptx = true)
    (Hq : accepted q = []) (Htx : accepted tx = []) (Hptx : accepted ptx = []) :
  let s := run es (system_init conf peer_addr c ptx g now q h tx) in
  forall (Hon : sy_on s = true) (Hbeat : Forall sane_heartbeat (up s)),
  exists es', Forall only_takes es' /\ let s' := run es' s in
    sy_on s' = true /\ down s' = down s /\ exists got lost,
      filter concerns (down s) ≡ₚ got ++ lost /\ got `sublist_of` down s /\
      length lost = slow (acts (client s')) /\
      Forall2 delivered_as got (deliveries (acts (client s'))) /\
      omap push_of (cs_calls (sy_client s')) = omap push_packet got.
Proof.
  intros s Hon Hbeat. pose proof (system_init_whole conf peer_addr c ptx g now q h tx Hopen Hq Htx Hptx) as Hw0.
  assert (live (system_init conf peer_addr c ptx g now q h tx)) as Hl0.
  { destruct (first_conn_fresh conf c ptx) as (Et & _ & _). pose proof (first_conn_slow c ptx) as Ew.
    constructor; cbn [sy_client system_init cs_client consuming_init]; rewrite ?Et, ?Ew, ?Hptx; [done|done|].
    intros _. exists []. by rewrite app_nil_r. }
  assert (going_on ([] ++ (es ≫= published)) s) as Hg.
  { constructor; [by apply system_run_whole|by eapply system_run_live|exact Hon]. }
  destruct (takes_down _ s Hg) as (es1 & Hes1 & Hg1 & Ed1 & Hs1).
  { apply Forall_drop. eapply down_digestible; [apply Hg|exact Hbeat]. }
  destruct (takes_queue _ _ Hg1) as (es2 & Hes2 & Hg2 & Ed2 & Hs2 & Et2 & Hq2).
  exists (es1 ++ es2). split; [by apply Forall_app|]. cbn zeta. rewrite system_run_app.
  split_and!; [apply Hg2|by rewrite Ed2|].
  destruct (go_live _ _ Hg2) as [_ _ Ht]. destruct (Ht (go_on _ _ Hg2)) as (lost & Hl & Hw).
  rewrite Hs2, Hs1, Ed2, Ed1, firstn_all in Hl.
  destruct (wh_consumed _ _ (go_whole _ _ Hg2)) as [[_ Hdel] Hsub Hpush].
  rewrite Hs2, Hs1, Ed2, Ed1, firstn_all in Hsub. cbn in Hdel, Hpush, Hsub.
  rewrite Hq2, firstn_all in Hdel, Hpush.
  exists (queue (run es2 (run es1 s))), lost. split_and!; [exact Hl|exact Hsub|done|exact Hdel|exact Hpush].
Qed.

End Live.

(** * A concrete run

    [async_client.rs] with the example server: two trades and the answer to a heartbeat are on
    the way. *)

#[local] Instance sl_auth_request : Message AuthRequest := countable_message AuthRequest.
#[local] Instance sl_auth_response : Message AuthResponse := countable_message AuthResponse.
#[local] Instance sl_subscribe : Message SubscribeRequest := countable_message SubscribeRequest.
#[local] Instance sl_subscribed : Message SubscribeResponse := countable_message SubscribeResponse.
#[local] Instance sl_heartbeat : Message Heartbeat := countable_message Heartbeat.
#[local] Instance sl_link_error : Message LinkError := countable_message LinkError.

Abbreviation sl_run es := (system_run (R:=nat) (PT:=consumer_chan) (IT:=transport_chan) (TX:=unlimited Packet)
  (QT:=bounded Packet) (consumer:=async_consumer) (sample_conf 0) "1.2.3.4:5" HealthyConfig_default 7 "5.6.7.8:9" es).
Abbreviation sl_start := (system_init (sample_conf 0) "5.6.7.8:9" (conn_with 0 []) consumer_tx
  (audience_init (ring_new (A:=Packet) 1023) 0) 0 consumer_tx (∅ : gmap string Z) ([] : unlimited Packet)).

Definition sl_events : list (system_event nat (gmap string Z)) :=
  [SyClient (Some SendAuth); SyUp 10; SyDown 11 0; SyClient None; SyServer (SvBroadcast (a_push [x01]));
   SyClient (Some (PingTick 12 5)); SyUp 13; SyUp 14; SyServer SvTake; SyServer SvTake;
   SyServer (SvBroadcast (a_push [x02]))].

Lemma program_goes_on_witness :
  let s := sl_run sl_events sl_start in
  sy_seen s = 1%nat /\ length (down s) = 4%nat /\
  cs_calls (sy_client s) = [CcConnected] /\ exists es', Forall only_takes es' /\
    let s' := sl_run es' s in
    sy_on s' = true /\ down s' = down s /\ exists got lost,
      filter concerns (down s) ≡ₚ got ++ lost /\ got `sublist_of` down s /\
      length lost = slow (acts (cs_client (sy_client s'))) /\
      Forall2 delivered_as got (deliveries (acts (cs_client (sy_client s')))) /\
      omap push_of (cs_calls (sy_client s')) = omap push_packet got.
Proof.
  intros s. split; [vm_compute; reflexivity|]. split; [vm_compute; reflexivity|].
  split; [vm_compute; reflexivity|].
  apply (program_goes_on (R:=nat) (PT:=consumer_chan) (IT:=transport_chan) (TX:=unlimited Packet)
    (QT:=bounded Packet) (consumer:=async_consumer) (sample_conf 0) "1.2.3.4:5" HealthyConfig_default 7 "5.6.7.8:9").
  - intros [] g; reflexivity.
  - repeat (apply List.Forall_cons; [exact I || reflexivity|]). apply List.Forall_nil.
  - reflexivity.
  - reflexivity.
  - reflexivity.
  - reflexivity.
  - reflexivity.
  - vm_compute. reflexivity.
  - assert (exists a b c, up s = [PRequest a; PRequest b; PRequest c] /\ req_command a = Auth /\
      req_command b = CmdSubAllType /\ is_Some (decode (A:=Heartbeat) (req_body c))) as (a & b & c & Eu & Ea & Eb & Ec).
    { vm_compute. eexists _, _, _. split; [reflexivity|]. split; [reflexivity|]. split; [reflexivity|].
      eexists. reflexivity. }
    change (Forall sane_heartbeat (up s)). rewrite Eu. repeat apply List.Forall_cons; [| | |apply List.Forall_nil]; cbn;
      [rewrite Ea; discriminate|rewrite Eb; discriminate|intros _; exact Ec].
Defined.
