(* ===== verification/Transport.v ===== *)
(** [link/src/transport/transport.rs], [transport/server.rs], [transport/client.rs] and
    [link/src/utils.rs]: address resolution, connection ids and tokens, the UDP loops, the
    handshakes, the dispatch of datagrams to connections, and the sizes the tasks of a
    connection are started with. *)

From Stdlib Require Import ZArith Lia Strings.Byte.
From stdpp Require Import base list strings gmap.
From S2P Require Import Prelude Packets Channel Config Quic Process.

(** * Addresses ([utils.rs])

    A socket address is an IP address, as its octets, and a port. *)

Inductive IpAddr : Type :=
| V4 (octets : list byte)
| V6 (octets : list byte).

Definition octets (a : IpAddr) : list byte := match a with V4 o | V6 o => o end.

Record SocketAddr : Type := { ip : IpAddr; port : Z }.

Definition is_ipv4 (a : SocketAddr) : bool := match ip a with V4 _ => true | V6 _ => false end.

Record PeerAddr : Type := { socket_addr : SocketAddr; raw_addr : string }.

Inductive resolve_error : Type := ResolveFailed | ResolveEmpty.

Section Resolve.
(** [ToSocketAddrs]: the DNS. *)
Context (to_socket_addrs : string -> option (list SocketAddr)).

Definition resolve_v4 (addr : string) : outcome resolve_error (list PeerAddr) :=
  match to_socket_addrs addr with
  | Some l => Ok (map (fun a => {| socket_addr := a; raw_addr := addr |})
                    (List.filter is_ipv4 l))
  | None => Err ResolveFailed
  end.

Definition addr_resolve (addr : string) (backup_config : option BackupConfig)
    : outcome resolve_error (PeerAddr * list PeerAddr) :=
  peer_addrs ← resolve_v4 addr;
  match peer_addrs with
  | [] => Err ResolveEmpty
  | first :: rest =>
      match backup_config with
      | Some backup_cfg =>
          addrs ← resolve_v4 (backup_addr backup_cfg); Ok (first, rest ++ addrs)
      | None => Ok (first, rest)
      end
  end.

End Resolve.

(** * Connection ids *)

(** [quiche::MAX_CONN_ID_LEN] *)
Definition MAX_CONN_ID_LEN : Z := 20.

(** [fill]: whether the random generator filled the 20 bytes, and with what. *)
Definition random_cid (fill : option (list byte)) : outcome unit (list byte) :=
  match fill with Some scid => Ok scid | None => Err tt end.

(** [sign] is the keyed hash. *)
Definition sign_cid {K} (sign : K -> list byte -> list byte) (seed : K) (cid : list byte)
    : outcome unit (list byte) :=
  slice (sign seed cid) 0 MAX_CONN_ID_LEN.

(** * Retry tokens ([transport/server.rs]) *)

Definition TOKEN_PREFIX : list byte := String.list_byte_of_string "link-rs".
Definition TOKEN_PREFIX_LEN : Z := zlen TOKEN_PREFIX.

Definition mint_token (dcid : list byte) (src : SocketAddr) : list byte :=
  TOKEN_PREFIX ++ octets (ip src) ++ dcid.

(** The inner [None] of the source is [Ok None]; a slice out of range would be a panic. *)
Definition validate_token (src : SocketAddr) (token : list byte)
    : outcome unit (option (list byte)) :=
  if zlen token <? TOKEN_PREFIX_LEN then Ok None
  else
    head ← slice token 0 TOKEN_PREFIX_LEN;
    if bool_decide (head <> TOKEN_PREFIX) then Ok None
    else
      token ← slice token TOKEN_PREFIX_LEN (zlen token);
      let addr := octets (ip src) in
      if zlen token <? zlen addr then Ok None
      else
        head ← slice token 0 (zlen addr);
        if bool_decide (head <> addr) then Ok None
        else cid ← slice token (zlen addr) (zlen token); Ok (Some cid).

(** * The UDP loops *)

(** A connected UDP socket: [send] tells how many bytes were sent. *)
Class UdpSocket (K : Type) := {
  udp_send : list byte -> K -> K * option Z;
  (** what was sent so far, datagram by datagram *)
  udp_sent : K -> list (list byte)
}.

Class UdpSocketLaws (K : Type) `{UdpSocket K} : Prop := {
  udp_send_ok b k k' n : udp_send b k = (k', Some n) -> b <> [] ->
    0 < n <= zlen b /\ udp_sent k' = udp_sent k ++ [take (Z.to_nat n) b];
  udp_send_err b k k' : udp_send b k = (k', None) -> udp_sent k' = udp_sent k
}.

(** A concrete socket: it sends at most [sk_cut] bytes at a time, [sk_budget] times. *)
Record cut_socket : Type := { sk_cut : nat; sk_budget : nat; sk_sent : list (list byte) }.

#[export] Instance cut_socket_udp : UdpSocket cut_socket := {|
  udp_send b k :=
    match sk_budget k with
    | O => (k, None)
    | S n =>
        let d := take (S (sk_cut k)) b in
        ({| sk_cut := sk_cut k; sk_budget := n; sk_sent := sk_sent k ++ [d] |}, Some (zlen d))
    end;
  udp_sent := sk_sent
|}.

#[export] Instance cut_socket_laws : UdpSocketLaws cut_socket.
Proof.
  constructor.
  - intros b [cut [|n] out] k' z; cbn -[take]; intros E Hb; simplify_eq. cbn [sk_sent].
    destruct b as [|x b]; [done|]. unfold zlen. rewrite length_take, Nat2Z.id. split; [simpl; lia|].
    do 2 f_equal. destruct (Nat.min_spec (S cut) (length (x :: b))) as [[? ->]|[? ->]]; [done|].
    by rewrite !take_ge by lia.
  - intros b [cut [|n] out] k'; cbn; intros; by simplify_eq.
Qed.

Inductive udp_error : Type := UdpSendFailed | UdpRxEnded | UdpFuel | UdpChanClosed | UdpReadFailed.

Section Udp.
Context {K : Type} `{UdpSocket K}.

(** [while sent < total { socket.send(&b[sent..total]) }] *)
Fixpoint udp_write_fuel (fuel : nat) (b : list byte) (sent : Z) : SM K udp_error unit :=
  match fuel with
  | O => sfail UdpFuel
  | S fuel =>
      if sent <? zlen b then
        rest ← slift (slice b sent (zlen b));
        r ← (fun k => let '(k, r) := udp_send rest k in (k, Ok r));
        match r with
        | Some v => n ← slift (uadd sent v); udp_write_fuel fuel b n
        | None => sfail UdpSendFailed
        end
      else mret tt
  end.

Definition udp_write_one (b : list byte) : SM K udp_error unit :=
  udp_write_fuel (S (length b)) b 0.

(** Both [udp_write_loop]s, on the datagrams their channel yields until it closes. *)
Definition udp_write_loop (bs : list (list byte)) : SM K udp_error unit :=
  sfor udp_write_one bs ≫= fun _ => sfail UdpRxEnded.

End Udp.

Section UdpRead.
Context {TX : Type} `{Sender TX (list byte)}.

(** The client's [udp_read_loop], on what the socket gives: a datagram cut to the buffer, or
    an error. *)
Fixpoint udp_read_loop (buffer_size : Z) (reads : list (option (list byte)))
    : SM TX udp_error unit :=
  match reads with
  | [] => mret tt
  | Some d :: reads =>
      tx ← sget (fun tx => tx);
      match send (take (Z.to_nat buffer_size) d) tx with
      | Some tx => smodify (fun _ => tx) ≫= fun _ => udp_read_loop buffer_size reads
      | None => sfail UdpChanClosed
      end
  | None :: _ => sfail UdpReadFailed
  end.

End UdpRead.

(** * The handshakes *)

Inductive handshake_error : Type :=
| HsConnSend
| HsUdpSend
| HsRecv
| HsConnRecv
| HsHeader
| HsAccept
| HsRxClosed
| HsFuel.

(** What a handshake ends with; [Waiting]: it needs more input. *)
Inductive handshake (C : Type) : Type := Established (c : C) | Waiting.
Arguments Established {C}.
Arguments Waiting {C}.

Section Handshake.
Context {C K : Type} `{QuicConn C} `{UdpSocket K}.

(** [client::quic_handshake], on what [socket.recv] gives: a datagram, or a failure (an
    error or the time-out). *)
Fixpoint quic_handshake (buffer_size : Z) (recvs : list (option (list byte))) (c : C)
    : SM K handshake_error (handshake C) :=
  if conn_is_established c then mret (Established c)
  else
    let '(c, r) := conn_send buffer_size c in
    (match r with
     | QOk d => r ← (fun k => let '(k, r) := udp_send d k in (k, Ok r));
                match r with Some _ => mret tt | None => sfail HsUdpSend end
     | QDone => mret tt
     | QErr => sfail HsConnSend
     end) ≫= fun _ =>
    match recvs with
    | [] => mret Waiting
    | Some d :: recvs =>
        let '(c, r) := conn_recv (take (Z.to_nat buffer_size) d) c in
        match r with
        | QOk _ => quic_handshake buffer_size recvs c
        | _ => sfail HsConnRecv
        end
    | None :: _ => sfail HsRecv
    end.

(** [server::accept_new_conn]: the header of a datagram, the connection created for it. *)
Context (header_dcid : list byte -> option (list byte)) (accept : list byte -> option C)
  (sign : list byte -> outcome unit (list byte)).

Fixpoint hs_recv_fuel (fuel : nat) (data : list byte) (read : Z) (c : C)
    : outcome handshake_error C :=
  match fuel with
  | O => Err HsFuel
  | S fuel =>
      if read <? zlen data then
        rest ← slice data read (zlen data);
        let '(c, r) := conn_recv rest c in
        match r with
        | QOk n => read ← uadd read n; hs_recv_fuel fuel data read c
        | _ => Err HsConnRecv
        end
      else Ok c
  end.

(** The responses: every datagram of the connection is written out. *)
Fixpoint hs_send_fuel (fuel : nat) (buffer_size : Z) (c : C) : SM K handshake_error C :=
  match fuel with
  | O => sfail HsFuel
  | S fuel =>
      let '(c, r) := conn_send buffer_size c in
      match r with
      | QOk d => (fun k => match udp_write_one d k with
                           | (k, Ok _) => (k, Ok tt)
                           | (k, Err UdpFuel) => (k, Err HsFuel)
                           | (k, Err _) => (k, Err HsUdpSend)
                           | (k, Panic) => (k, Panic)
                           end) ≫= fun _ => hs_send_fuel fuel buffer_size c
      | QDone => mret c
      | QErr => sfail HsConnSend
      end
  end.

(** One datagram of the handshake. *)
Definition hs_datagram (buffer_size : Z) (data : list byte) (conn : option C)
    : SM K handshake_error C :=
  match header_dcid data with
  | None => sfail HsHeader
  | Some dcid =>
      c ← match conn with
          | Some c => mret c
          | None =>
              match sign dcid with
              | Ok scid => match accept scid with Some c => mret c | None => sfail HsAccept end
              | _ => slift Panic
              end
          end;
      c ← slift (hs_recv_fuel (S (length data)) data 0 c);
      hs_send_fuel (S (send_bound c)) buffer_size c
  end.

Definition established (conn : option C) : option C :=
  match conn with Some c => if conn_is_established c then Some c else None | None => None end.

(** The loop, on the datagrams of the channel ([None]: it closed). *)
Fixpoint accept_handshake (buffer_size : Z) (datas : list (option (list byte)))
    (conn : option C) : SM K handshake_error (handshake C) :=
  match established conn with
  | Some c => mret (Established c)
  | None =>
      match datas with
      | [] => mret Waiting
      | Some data :: datas =>
          c ← hs_datagram buffer_size data conn; accept_handshake buffer_size datas (Some c)
      | None :: _ => sfail HsRxClosed
      end
  end.

End Handshake.

(** * The dispatch of datagrams ([Transport::listen_at])

    The channel of each connection is a number. An event that looks at a channel comes with
    what the runtime says of it at that moment: closed, or full. A datagram for a full channel is
    handed to a task of its own, which waits until there is room; the tasks that wait are a
    list, and an event lets the one at some place in it go on. *)

Record channels : Type := { closed_now : nat -> bool; full_now : nat -> bool }.

Inductive listen_event (A : Type) : Type :=
| ListenTick (st : channels)
| Datagram (data : list byte) (from : A) (st : channels)
| ReadError
(** the task that sends the [i]-th deferred datagram is woken *)
| ListenDeferred (i : nat) (st : channels).
Arguments ListenTick {A}.
Arguments Datagram {A}.
Arguments ReadError {A}.
Arguments ListenDeferred {A}.

Inductive listen_action (A : Type) : Type :=
(** a datagram put in a channel; given to a task of its own when the channel is full; put in
    the channel by that task *)
| Enqueue (chan : nat) (data : list byte)
| EnqueueLater (chan : nat) (data : list byte)
| EnqueueDeferred (chan : nat) (data : list byte)
(** a connection is started and announced to the server *)
| Accepted (from : A) (chan : nat).
Arguments Enqueue {A}.
Arguments EnqueueLater {A}.
Arguments EnqueueDeferred {A}.
Arguments Accepted {A}.

Record listen_state (A : Type) `{Countable A} : Type := mk_listen {
  client_socket_data_tx_map : gmap A nat;
  next_chan : nat;
  listen_acts : list (listen_action A);
  listen_deferred : list (nat * list byte)
}.
Arguments mk_listen {A _ _}.
Arguments client_socket_data_tx_map {A _ _}.
Arguments next_chan {A _ _}.
Arguments listen_acts {A _ _}.
Arguments listen_deferred {A _ _}.

Section Listen.
Context {A : Type} `{Countable A}.
Context (max_udp_read_size recv_chan_size send_chan_size : Z).

Abbreviation LM := (SM (listen_state A) unit).

Definition listen_add (l : list (listen_action A)) : LM unit := smodify (fun s =>
  mk_listen (client_socket_data_tx_map s) (next_chan s) (listen_acts s ++ l) (listen_deferred s)).

Definition set_deferred (f : list (nat * list byte) -> list (nat * list byte)) : LM unit :=
  smodify (fun s => mk_listen (client_socket_data_tx_map s) (next_chan s) (listen_acts s)
    (f (listen_deferred s))).

Definition retain_open (st : channels) (m : gmap A nat) : gmap A nat :=
  filter (fun kv : A * nat => closed_now st kv.2 = false) m.

Definition listen_tick (st : channels) : LM unit := smodify (fun s =>
  mk_listen (retain_open st (client_socket_data_tx_map s)) (next_chan s) (listen_acts s)
    (listen_deferred s)).

(** A datagram from an unknown address. A channel of no capacity is a panic, that of the
    packets to send as well; a fresh one has room, and the connection is set up by a task of
    its own: [accept_new_conn] itself never fails. *)
Definition new_client (data : list byte) (from : A) (st : channels) : LM unit :=
  if recv_chan_size =? 0 then slift Panic
  else
    chan ← sget next_chan;
    smodify (fun s => mk_listen (client_socket_data_tx_map s) (S chan) (listen_acts s)
      (listen_deferred s)) ≫= fun _ =>
    listen_add [Enqueue chan data] ≫= fun _ =>
    (if send_chan_size =? 0 then slift Panic else mret tt) ≫= fun _ =>
    smodify (fun s => mk_listen (<[from := chan]> (retain_open st (client_socket_data_tx_map s)))
      (next_chan s) (listen_acts s) (listen_deferred s)) ≫= fun _ =>
    listen_add [Accepted from chan].

Definition on_datagram (data : list byte) (from : A) (st : channels) : LM unit :=
  (* the read is cut to the buffer *)
  let data := take (Z.to_nat max_udp_read_size) data in
  m ← sget client_socket_data_tx_map;
  match m !! from with
  | None => new_client data from st
  | Some chan =>
      if closed_now st chan then mret tt
      else if full_now st chan then
        listen_add [EnqueueLater chan data] ≫= fun _ =>
        set_deferred (fun l => l ++ [(chan, data)])
      else listen_add [Enqueue chan data]
  end.

(** A task that sends a deferred datagram: it waits while the channel is full; if the channel is
    closed the datagram is lost. *)
Definition on_deferred (i : nat) (st : channels) : LM unit :=
  l ← sget listen_deferred;
  match l !! i with
  | Some (chan, data) =>
      if closed_now st chan then set_deferred (delete i)
      else if full_now st chan then mret tt
      else set_deferred (delete i) ≫= fun _ => listen_add [EnqueueDeferred chan data]
  | None => mret tt
  end.

Definition listen_step (e : listen_event A) : LM unit :=
  match e with
  | ListenTick st => listen_tick st
  | Datagram data from st => on_datagram data from st
  | ReadError => sfail tt
  | ListenDeferred i st => on_deferred i st
  end.

Definition listen_run : list (listen_event A) -> LM unit := sfor listen_step.

Definition listen_init : listen_state A := mk_listen ∅ 0 [] [].

End Listen.

(** * The sizes the tasks of a connection are started with

    The same in [Transport::connect] and in [accept_new_conn]. *)

Definition task_cfg (t : Transport) : proc_cfg :=
  {| udp_data_buffer_size := Z.max (max_udp_read_size (tr_buffer_config t))
                                   (max_udp_write_size (tr_buffer_config t));
     stream_read_buffer_size := max_stream_read_size (tr_buffer_config t);
     stream_send_buffer_size := max_stream_send_size (tr_buffer_config t) |}.

(** The buffer of [link_read_loop]. *)
Definition link_read_size (t : Transport) : Z := max_stream_read_size (tr_buffer_config t).

(** The client's UDP read buffer. *)
Definition udp_read_size (t : Transport) : Z :=
  Z.max (max_udp_read_size (tr_buffer_config t))
    (default DEFAULT_MAX_UDP_PACKET_SIZE (max_recv_udp_payload_size (tr_quiche_config t))).

(** * The client's connection ([Transport::connect]) *)

Inductive connect_error : Type :=
| ConnHandshake (e : handshake_error)
| ConnAuthNotSent
| ConnTaskPanicked.

(** How each of the five tasks ended: it returned, with success or with an error. *)
Inductive joined : Type := TaskReturned (ok : bool) | TaskPanic.

Section Connect.
Context {C K TX : Type} `{QuicConn C} `{UdpSocket K} `{Sender TX Packet}.

(** The handshake, then the authentication packet, the first of all. *)
Definition connect_start (t : Transport) (auth_packet : Packet) (recvs : list (option (list byte)))
    (c : C) : SM (K * TX) connect_error (handshake C) := fun '(k, request_tx) =>
  match quic_handshake (max_udp_read_size (tr_buffer_config t)) recvs c k with
  | (k, Ok (Established c)) =>
      match send auth_packet request_tx with
      | Some request_tx => ((k, request_tx), Ok (Established c))
      | None => ((k, request_tx), Err ConnAuthNotSent)
      end
  | (k, Ok Waiting) => ((k, request_tx), Ok Waiting)
  | (k, Err e) => ((k, request_tx), Err (ConnHandshake e))
  | (k, Panic) => ((k, request_tx), Panic)
  end.

(** [try_join!] of the handles of the tasks ([None]: still running). Waiting for a handle
    fails only when its task panicked: an error the task returned is not looked at. *)
Definition connect_join (tasks : list (option joined)) : option (outcome connect_error unit) :=
  if existsb (fun t => match t with Some TaskPanic => true | _ => false end) tasks
  then Some (Err ConnTaskPanicked)
  else if existsb (fun t => match t with None => true | _ => false end) tasks then None
  else Some (Ok tt).

End Connect.
