(* ===== verification/TransportFacts.v ===== *)
(** The correctness of the transport: tokens, UDP writing, handshakes, and the dispatch of
    datagrams to connections. *)

From Stdlib Require Import ZArith Lia Strings.Byte.
From stdpp Require Import base list strings gmap.
From S2P Require Import Prelude Packets Deku Protos Channel Config Quic Process Client Transport.

#[local] Set Warnings "-clear-no-such-hyp".

(** * Addresses and tokens *)

(** Resolution keeps the IPv4 addresses only, in the order of the DNS: when it succeeds,
    the master followed by the backups are the IPv4 addresses of the main name, then those
    of the backup name, each with the name it came from; it fails exactly when a name does
    not resolve or the main one has no IPv4 address. *)
Theorem addr_resolve_spec (dns : string -> option (list SocketAddr)) (addr : string)
    (backup : option BackupConfig) :
  let peers name l := map (fun a => {| socket_addr := a; raw_addr := name |})
    (List.filter is_ipv4 l) in
  match addr_resolve dns addr backup with
  | Ok (master, backups) => exists l, dns addr = Some l /\
      match backup with
      | None => master :: backups = peers addr l
      | Some b => exists l', dns (backup_addr b) = Some l' /\
          master :: backups = peers addr l ++ peers (backup_addr b) l'
      end
  | Err ResolveEmpty => exists l, dns addr = Some l /\ Forall (fun a => is_ipv4 a = false) l
  | Err ResolveFailed => dns addr = None \/
      exists b, backup = Some b /\ dns (backup_addr b) = None
  | Panic => False
  end.
Proof.
  unfold addr_resolve, resolve_v4. destruct (dns addr) as [l|] eqn:E; [|by left].
  cbn [mbind outcome_bind]. destruct (List.filter is_ipv4 l) as [|x xs] eqn:Ef; cbn [map].
  - exists l. split; [done|]. apply Forall_forall. intros a Ha.
    destruct (is_ipv4 a) eqn:Ei; [|done].
    assert (In a (List.filter is_ipv4 l)) as Hin
      by (apply List.filter_In; split; [by apply list_elem_of_In|done]).
    by rewrite Ef in Hin.
  - destruct backup as [b|]; [|exists l; by rewrite Ef].
    destruct (dns (backup_addr b)) as [l'|] eqn:E'; cbn [mbind outcome_bind];
      [|right; by exists b].
    exists l. split; [done|]. exists l'. by rewrite Ef.
Qed.

Lemma slice_app_l {E A} (l k : list A) : slice (E:=E) (l ++ k) 0 (zlen l) = Ok l.
Proof.
  rewrite slice_ok; rewrite ?zlen_app; pose proof (zlen_nonneg l); pose proof (zlen_nonneg k);
    try lia. f_equal. rewrite Z.sub_0_r. unfold zlen. rewrite Nat2Z.id.
  change (Z.to_nat 0) with 0%nat. by rewrite drop_0, take_app_length.
Qed.

Lemma slice_app_r {E A} (l k : list A) : slice (E:=E) (l ++ k) (zlen l) (zlen (l ++ k)) = Ok k.
Proof.
  rewrite slice_ok; rewrite ?zlen_app; pose proof (zlen_nonneg l); pose proof (zlen_nonneg k);
    try lia. f_equal. rewrite Z.add_simpl_l. unfold zlen. rewrite !Nat2Z.id, drop_app_length, take_ge; [done|]. lia.
Qed.

(** The head of a slice that is long enough. *)
Lemma split_at {E A} (l : list A) n : 0 <= n <= zlen l -> exists a b, l = a ++ b /\ zlen a = n /\
  slice (E:=E) l 0 n = Ok a /\ slice (E:=E) l n (zlen l) = Ok b.
Proof.
  intros Hn. exists (take (Z.to_nat n) l), (drop (Z.to_nat n) l).
  assert (zlen (take (Z.to_nat n) l) = n) as Hl
    by (unfold zlen in *; rewrite length_take; lia).
  split_and!; [by rewrite take_drop|done|..].
  - pose proof (slice_app_l (E:=E) (take (Z.to_nat n) l) (drop (Z.to_nat n) l)) as Hs.
    by rewrite Hl, take_drop in Hs.
  - pose proof (slice_app_r (E:=E) (take (Z.to_nat n) l) (drop (Z.to_nat n) l)) as Hs.
    by rewrite Hl, take_drop in Hs.
Qed.

(** Retry tokens: validation never panics, whatever the token; it accepts exactly the
    tokens minted for the address it checks, and gives back the connection id put in. *)
Theorem validate_token_iff (src : SocketAddr) (token : list byte) :
  match validate_token src token with
  | Ok (Some dcid) => token = mint_token dcid src
  | Ok None => forall dcid, token <> mint_token dcid src
  | _ => False
  end.
Proof.
  unfold validate_token, mint_token, TOKEN_PREFIX_LEN.
  generalize TOKEN_PREFIX. intros prefix. pose proof (zlen_nonneg prefix).
  pose proof (zlen_nonneg (octets (ip src))). zcase.
  { intros dcid ->. rewrite zlen_app in *. pose proof (zlen_nonneg (octets (ip src) ++ dcid)). lia. }
  destruct (split_at (E:=unit) token (zlen prefix)) as (a & b & -> & La & Ea & Eb); [lia|].
  rewrite Ea. cbn [mbind outcome_bind].
  destruct (bool_decide_reflect (a <> prefix)) as [Hne|Heq].
  { intros dcid E. apply app_inj_1 in E as [-> _]; [done|]. unfold zlen in La. lia. }
  rewrite Eb. cbn [mbind outcome_bind]. apply dec_stable in Heq as ->. zcase.
  { intros dcid E. apply app_inv_head in E as ->. rewrite zlen_app in *.
    pose proof (zlen_nonneg dcid). lia. }
  destruct (split_at (E:=unit) b (zlen (octets (ip src)))) as (c & d & -> & Lc & Ec & Ed); [lia|].
  rewrite Ec. cbn [mbind outcome_bind].
  destruct (bool_decide_reflect (c <> octets (ip src))) as [Hne|Heq].
  { intros dcid E. apply app_inv_head, app_inj_1 in E as [-> _]; [done|]. unfold zlen in Lc. lia. }
  rewrite Ed. cbn [mbind outcome_bind]. by apply dec_stable in Heq as ->.
Qed.

(** * UDP writing *)

Section UdpFacts.
Context {K : Type} `{UdpSocketLaws K}.

(** However it ends, the bytes written are those before and part of the datagram, all of it
    when it succeeds; it never runs forever. *)
Lemma udp_write_fuel_spec fuel b n k : zlen b < usize_bound -> 0 <= n <= zlen b ->
  (Z.to_nat (zlen b - n) < fuel)%nat ->
  exists out, out `prefix_of` drop (Z.to_nat n) b /\
    concat (udp_sent (udp_write_fuel fuel b n k).1) = concat (udp_sent k) ++ out /\
    match (udp_write_fuel fuel b n k).2 with
    | Ok _ => out = drop (Z.to_nat n) b
    | Err e => e = UdpSendFailed
    | Panic => False
    end.
Proof.
  revert n k. induction fuel as [|fuel IH]; intros n k Hb Hn Hf; [lia|]. cbn [udp_write_fuel].
  destruct (Z.ltb_spec n (zlen b)) as [Hlt|Hge]; cycle 1.
  { exists []. rewrite app_nil_r. cbn [fst snd mret SM_ret]. split_and!; [apply prefix_nil|done|].
    rewrite drop_ge; [done|]. unfold zlen in *. lia. }
  destruct (split_at (E:=udp_error) b n) as (x & y & Eb & Lx & _ & Es); [lia|].
  unfold mbind, SM_bind, slift. rewrite Es.
  assert (drop (Z.to_nat n) b = y) as Hd.
  { rewrite Eb, <- Lx. unfold zlen. rewrite Nat2Z.id. apply drop_app_length. }
  assert (zlen y = zlen b - n) as Ly by (rewrite Eb, zlen_app; lia). rewrite Hd.
  assert (y <> []) as Hy by (intros ->; change (zlen []) with 0 in Ly; lia).
  destruct (udp_send y k) as [k1 [v|]] eqn:E; cycle 1.
  { exists []. apply udp_send_err in E. cbn [fst snd sfail]. rewrite app_nil_r, E.
    split_and!; [apply prefix_nil|done|done]. }
  apply udp_send_ok in E as [Hv Hsent]; [|done].
  unfold uadd. rewrite (proj2 (Z.ltb_lt (n + v) usize_bound)) by lia.
  destruct (IH (n + v) k1 Hb ltac:(lia) ltac:(lia)) as (out & Hp & Ho & Hr).
  replace (Z.to_nat (n + v)) with (Z.to_nat n + Z.to_nat v)%nat in Hp, Hr by lia.
  rewrite <- drop_drop, Hd in Hp, Hr.
  exists (take (Z.to_nat v) y ++ out). split_and!.
  - destruct Hp as [z Hz]. exists z. by rewrite <- app_assoc, <- Hz, take_drop.
  - rewrite Ho, Hsent, concat_app. cbn [concat]. by rewrite app_nil_r, <- app_assoc.
  - destruct (udp_write_fuel fuel b (n + v) k1).2; try done. by rewrite Hr, take_drop.
Qed.

(** The UDP write loop writes every byte it is given, in order: however the socket cuts
    the writes, the loop never spins or panics; when its input ends it has written exactly
    the datagrams, and when the socket fails it has written a prefix of their bytes. *)
Theorem udp_write_loop_correct (bs : list (list byte)) (k : K)
    (Hbs : Forall (fun b => zlen b < usize_bound) bs) :
  exists out, out `prefix_of` concat bs /\
    concat (udp_sent (udp_write_loop bs k).1) = concat (udp_sent k) ++ out /\
    match (udp_write_loop bs k).2 with
    | Err UdpRxEnded => out = concat bs
    | Err UdpSendFailed => True
    | _ => False
    end.
Proof.
  unfold udp_write_loop, mbind, SM_bind. revert k.
  induction Hbs as [|b bs Hb Hbs IH]; intros k; cbn [sfor concat].
  { exists []. by rewrite app_nil_r. }
  unfold mbind, SM_bind.
  destruct (udp_write_fuel_spec (S (length b)) b 0 k) as (out & Hp & Ho & Hr);
    [done|pose proof (zlen_nonneg b); lia|unfold zlen; lia|].
  change (Z.to_nat 0) with 0%nat in *. rewrite drop_0 in *.
  change (udp_write_fuel (S (length b)) b 0 k) with (udp_write_one b k) in *.
  destruct (udp_write_one b k) as [k1 [[]|e|]]; cbn [fst snd] in *; [| |done].
  - subst out. destruct (IH k1) as (out & Hp2 & Ho2 & Hr2). exists (b ++ out).
    destruct (sfor udp_write_one bs k1) as [k2 [[]|e|]]; cbn [fst snd sfail] in *.
    + rewrite Hr2, Ho2, Ho, <- app_assoc. by subst out.
    + rewrite Ho2, Ho, <- app_assoc. split_and!; [by apply prefix_app|done|].
      destruct e; try done. by subst out.
    + done.
  - subst e. exists out. split_and!; [|done|done]. by apply prefix_app_r.
Qed.

End UdpFacts.

(** * Handshakes *)

Section HandshakeFacts.
Context {C K : Type} `{QuicLaws C} `{UdpSocketLaws K}.

(** A connection got from another by receiving and sending datagrams: no application data
    moved. *)
Definition conn_drive (c c' : C) : Prop :=
  exists n, c' = (conn_send n c).1 \/ exists b, c' = (conn_recv b c).1.

Lemma drive_send n c : rtc conn_drive c (conn_send n c).1.
Proof. apply rtc_once. exists n. by left. Qed.

Lemma drive_recv b c : rtc conn_drive c (conn_recv b c).1.
Proof. apply rtc_once. exists 0. right. by exists b. Qed.

Lemma drive_frame c c' : rtc conn_drive c c' ->
  stream_sent c' = stream_sent c /\ stream_read c' = stream_read c.
Proof.
  induction 1 as [|c1 c2 c3 (n & [->|[b ->]]) _ [IHs IHr]]; [done|..]; rewrite IHs, IHr;
    [apply conn_send_frame|apply conn_recv_frame].
Qed.

Lemma hs_recv_fuel_spec fuel data n c : zlen data < usize_bound -> 0 <= n <= zlen data ->
  (Z.to_nat (zlen data - n) < fuel)%nat ->
  match hs_recv_fuel fuel data n c with
  | Ok c' => rtc conn_drive c c'
  | Err e => e = HsConnRecv
  | Panic => False
  end.
Proof.
  revert n c. induction fuel as [|fuel IH]; intros n c Hd Hn Hf; [lia|]. cbn [hs_recv_fuel].
  zcase; [|apply rtc_refl].
  destruct (split_at (E:=handshake_error) data n) as (x & y & Eb & Lx & _ & Es); [lia|].
  rewrite Es. cbn [mbind outcome_bind].
  assert (zlen y = zlen data - n) as Ly by (rewrite Eb, zlen_app; lia).
  assert (y <> []) as Hy by (intros ->; change (zlen []) with 0 in Ly; lia).
  pose proof (drive_recv y c) as Hdr.
  destruct (conn_recv y c) as [c1 [v| |]] eqn:E; [|done|done].
  apply conn_recv_ok in E as [Hv1 Hv2]. specialize (Hv2 Hy).
  unfold uadd. rewrite (proj2 (Z.ltb_lt (n + v) usize_bound)) by lia. cbn [mbind outcome_bind].
  specialize (IH (n + v) c1 Hd ltac:(lia) ltac:(lia)).
  destruct (hs_recv_fuel fuel data (n + v) c1); [|done|done]. by etrans.
Qed.

Lemma udp_write_one_ends d (k : K) : zlen d < usize_bound ->
  match (udp_write_one d k).2 with Ok _ => True | Err e => e = UdpSendFailed | Panic => False end.
Proof.
  intros Hd. destruct (udp_write_fuel_spec (S (length d)) d 0 k) as (out & _ & _ & Hr);
    [done|pose proof (zlen_nonneg d); lia|unfold zlen; lia|].
  unfold udp_write_one. by destruct (udp_write_fuel _ _ _ _).2.
Qed.

Lemma hs_send_fuel_spec fuel size c k : 0 <= size < usize_bound -> (send_bound c < fuel)%nat ->
  match (hs_send_fuel fuel size c k).2 with
  | Ok c' => rtc conn_drive c c'
  | Err e => e <> HsFuel /\ e <> HsRxClosed
  | Panic => False
  end.
Proof.
  revert c k. induction fuel as [|fuel IH]; intros c k Hs Hf; [lia|]. cbn [hs_send_fuel].
  pose proof (drive_send size c) as Hdr.
  destruct (conn_send size c) as [c1 [d| |]] eqn:E; [|by apply Hdr|done].
  pose proof (conn_send_fits _ _ _ _ E ltac:(lia)) as Hd.
  apply conn_send_bound in E. unfold mbind, SM_bind.
  pose proof (udp_write_one_ends d k ltac:(lia)) as Hu.
  destruct (udp_write_one d k) as [k1 [[]|e|]]; cbn [snd] in *; [|by subst e|done].
  specialize (IH c1 k1 Hs ltac:(lia)).
  destruct (hs_send_fuel fuel size c1 k1).2; [by etrans|done|done].
Qed.

(** The client's handshake always ends: it never panics; it succeeds only with an
    established connection, the one it was given driven by datagrams alone, no application
    data sent or consumed; it waits only when everything it received was accepted. *)
Lemma quic_handshake_spec (buffer_size : Z) (recvs : list (option (list byte))) (c : C)
    (k : K) :
  match (quic_handshake buffer_size recvs c k).2 with
  | Ok (Established c') => conn_is_established c' = true /\ rtc conn_drive c c' /\
      stream_sent c' = stream_sent c /\ stream_read c' = stream_read c
  | Ok Waiting => Forall is_Some recvs
  | Err e => e = HsConnSend \/ e = HsUdpSend \/ e = HsRecv \/ e = HsConnRecv
  | Panic => False
  end.
Proof.
  revert c k. induction recvs as [|r recvs IH]; intros c k; cbn [quic_handshake];
    (destruct (conn_is_established c) eqn:Ee;
      [cbn; split_and!; [done|apply rtc_refl|done|done]|]);
    pose proof (drive_send buffer_size c) as Hs;
    (destruct (conn_send buffer_size c) as [c1 [d| |]]; unfold mbind, SM_bind; cbn [fst] in Hs;
      [destruct (udp_send d k) as [k1 [v|]]; cbn [snd sfail]; [|tauto]| |cbn; tauto]);
    cbn [snd mret SM_ret sfail]; try by apply Forall_nil.
  1, 2: destruct r as [b|]; cbn [snd sfail]; [|tauto];
    pose proof (drive_recv (take (Z.to_nat buffer_size) b) c1) as Hr;
    destruct (conn_recv _ c1) as [c2 [v'| |]]; cbn [snd sfail fst] in *; try tauto.
  - specialize (IH c2 k1). destruct (quic_handshake buffer_size recvs c2 k1).2 as [[c'|]|e|];
      [|constructor; [by eexists|done]|done|done].
    destruct IH as (? & Hd & _). assert (rtc conn_drive c c') by (by etrans; [|etrans]).
    split_and!; [done|done|by apply drive_frame..].
  - specialize (IH c2 k). destruct (quic_handshake buffer_size recvs c2 k).2 as [[c'|]|e|];
      [|constructor; [by eexists|done]|done|done].
    destruct IH as (? & Hd & _). assert (rtc conn_drive c c') by (by etrans; [|etrans]).
    split_and!; [done|done|by apply drive_frame..].
Qed.

(** Connecting: the handshake never panics and its outcome is one of the listed; a
    connection is handed to the tasks only when it is established, and then it is the one
    that was created, driven by datagrams alone with no application data sent or consumed,
    and the authentication packet is the one packet queued for it; in every other case
    nothing was queued. *)
Theorem connect_start_correct {TX} `{SenderLaws TX Packet} (t : Transport) (auth_packet : Packet)
    (recvs : list (option (list byte))) (c : C) (k : K) (tx : TX) :
  let '((_, tx'), r) := connect_start t auth_packet recvs c (k, tx) in
  match r with
  | Ok (Established c') => accepted tx' = accepted tx ++ [auth_packet] /\
      conn_is_established c' = true /\ rtc conn_drive c c' /\
      stream_sent c' = stream_sent c /\ stream_read c' = stream_read c
  | Ok Waiting => accepted tx' = accepted tx /\ Forall is_Some recvs
  | Err e => accepted tx' = accepted tx /\
      (e = ConnAuthNotSent \/ exists h, e = ConnHandshake h /\ h <> HsFuel)
  | Panic => False
  end.
Proof.
  unfold connect_start.
  pose proof (quic_handshake_spec (max_udp_read_size (tr_buffer_config t)) recvs c k) as Hq.
  destruct (quic_handshake _ recvs c k) as [k1 [[c'|]|e|]]; cbn [snd] in Hq; try done.
  - destruct (send auth_packet tx) as [tx'|] eqn:Es; [|split; [done|by left]].
    split; [by apply send_accepted|done].
  - split; [done|right]. exists e. split; [done|]. intuition congruence.
Qed.

(** ** The server's *)

Section Accepting.
Context (header_dcid : list byte -> option (list byte)) (accept : list byte -> option C)
  {HK : Type} (hash : HK -> list byte -> list byte) (seed : HK).

(** A connection the server made for a datagram of the handshake, under the id signed from
    the datagram's destination, then driven. *)
Definition accepted_conn (data : list byte) (c : C) : Prop :=
  exists dcid c0, header_dcid data = Some dcid /\
    accept (take (Z.to_nat MAX_CONN_ID_LEN) (hash seed dcid)) = Some c0 /\ rtc conn_drive c0 c.

Hypothesis hash_len : forall b, MAX_CONN_ID_LEN <= zlen (hash seed b).

Lemma sign_cid_ok dcid :
  sign_cid hash seed dcid = Ok (take (Z.to_nat MAX_CONN_ID_LEN) (hash seed dcid)).
Proof.
  unfold sign_cid. rewrite slice_ok; [by rewrite Z.sub_0_r|done|done|apply hash_len].
Qed.

Lemma hs_datagram_spec size data conn k : 0 <= size < usize_bound -> zlen data < usize_bound ->
  match (hs_datagram header_dcid accept (sign_cid hash seed) size data conn k).2 with
  | Ok c => match conn with Some c0 => rtc conn_drive c0 c | None => accepted_conn data c end
  | Err e => e <> HsFuel /\ e <> HsRxClosed
  | Panic => False
  end.
Proof.
  intros Hs Hd. unfold hs_datagram, accepted_conn.
  destruct (header_dcid data) as [dcid|] eqn:Eh; [|done]. rewrite sign_cid_ok.
  unfold mbind, SM_bind, slift.
  assert (forall c0 : C, match hs_recv_fuel (S (length data)) data 0 c0 with
    | Ok c => rtc conn_drive c0 c | Err e => e = HsConnRecv | Panic => False end) as Hrecv.
  { intros c0. apply hs_recv_fuel_spec; [done|pose proof (zlen_nonneg data); lia|unfold zlen; lia]. }
  destruct conn as [c0|]; [|destruct (accept _) as [c0|] eqn:Ea; [|done]]; cbn [mret SM_ret snd];
    specialize (Hrecv c0);
    (destruct (hs_recv_fuel _ _ _ c0) as [c1|e|]; [|by subst e|done]);
    pose proof (hs_send_fuel_spec (S (send_bound c1)) size c1 k Hs ltac:(lia)) as Hsend;
    (destruct (hs_send_fuel _ _ c1 k) as [k2 [c2|e|]]; cbn [snd] in *; [|done|done]).
  - by etrans.
  - exists dcid, c0. split_and!; [done|done|by etrans].
Qed.

(** Once there is a connection, it is the one that is driven. *)
Lemma accept_handshake_some size datas c k : 0 <= size < usize_bound ->
  Forall (fun d => forall b, d = Some b -> zlen b < usize_bound) datas ->
  match (accept_handshake header_dcid accept (sign_cid hash seed) size datas (Some c) k).2 with
  | Ok (Established c') => conn_is_established c' = true /\ rtc conn_drive c c'
  | Ok Waiting => Forall is_Some datas
  | Err e => e <> HsFuel /\ (e = HsRxClosed -> None ∈ datas)
  | Panic => False
  end.
Proof.
  intros Hs Hds. revert c k. induction Hds as [|d ds Hd Hds IH]; intros c k;
    cbn [accept_handshake established];
    (destruct (conn_is_established c) eqn:Ee; [by split; [|apply rtc_refl]|]); [constructor|].
  destruct d as [d|]; [|split; [done|intros _; constructor]].
  pose proof (hs_datagram_spec size d (Some c) k Hs (Hd d eq_refl)) as Hh.
  unfold mbind, SM_bind.
  destruct (hs_datagram _ _ _ size d (Some c) k) as [k1 [c1|e|]]; cbn [snd] in *;
    [|split; [apply Hh|intros ->; by destruct Hh]|done].
  specialize (IH c1 k1). destruct (accept_handshake _ _ _ size ds (Some c1) k1).2 as [[c'|]|e|];
    [|constructor; [by eexists|done]|split; [apply IH|intros E; by apply list_elem_of_further, IH]|done].
  destruct IH. split; [done|by etrans].
Qed.

(** A handshake that waits goes on from the connection it has, with nothing but more datagrams
    or the closing of its channel to make it go on. *)
Lemma accept_handshake_resumes size datas conn k k' :
  accept_handshake header_dcid accept (sign_cid hash seed) size datas conn k = (k', Ok Waiting) ->
  exists conn', established conn' = None /\ (datas = [] -> conn' = conn) /\
    (datas <> [] -> is_Some conn') /\ forall more,
      accept_handshake header_dcid accept (sign_cid hash seed) size (datas ++ more) conn k =
      accept_handshake header_dcid accept (sign_cid hash seed) size more conn' k'.
Proof.
  revert conn k. induction datas as [|d datas IH]; intros conn k; cbn [accept_handshake app];
    (destruct (established conn) as [c|] eqn:Ee; [done|]).
  { intros [= ->]. exists conn. by split_and!. }
  destruct d as [d|]; [|done]. unfold mbind, SM_bind.
  destruct (hs_datagram _ _ _ size d conn k) as [k1 [c1|e|]]; [|done..].
  intros E. destruct (IH (Some c1) k1 E) as (conn' & He & Hnil & Hne & Hmore).
  exists conn'. split_and!; [done|done| |exact Hmore]. intros _.
  destruct datas; [by rewrite Hnil|by apply Hne].
Qed.

Lemma accept_handshake_first size data ds k : 0 <= size < usize_bound -> zlen data < usize_bound ->
  Forall (fun d => forall b, d = Some b -> zlen b < usize_bound) ds ->
  match (accept_handshake header_dcid accept (sign_cid hash seed) size (Some data :: ds) None k).2 with
  | Ok (Established c) => conn_is_established c = true /\ accepted_conn data c
  | Ok Waiting => Forall is_Some ds
  | Err e => e <> HsFuel /\ (e = HsRxClosed -> None ∈ ds)
  | Panic => False
  end.
Proof.
  intros Hsize Hd Hds. cbn [accept_handshake established].
  pose proof (hs_datagram_spec size data None k Hsize Hd) as Hh. unfold mbind, SM_bind.
  destruct (hs_datagram _ _ _ size data None k) as [k1 [c1|e|]]; cbn [snd] in *;
    [|split; [apply Hh|intros ->; by destruct Hh]|done].
  pose proof (accept_handshake_some size ds c1 k1 Hsize Hds) as Ha.
  destruct (accept_handshake _ _ _ size ds (Some c1) k1).2 as [[c'|]|e|]; try done.
  destruct Ha as [? Hr], Hh as (dcid & c0 & ? & ? & ?). split; [done|].
  exists dcid, c0. split_and!; [done|done|by etrans].
Qed.


End Accepting.

End HandshakeFacts.

(** * The end of a connection *)

(** Errors of the tasks are not reported: [connect] fails after the handshake exactly when a
    task panicked, and succeeds when all returned, whatever they returned. *)
Lemma connect_join_spec (tasks : list joined) :
  (TaskPanic ∈ tasks -> connect_join (map Some tasks) = Some (Err ConnTaskPanicked)) /\
  (TaskPanic ∉ tasks -> connect_join (map Some tasks) = Some (Ok tt)).
Proof.
  unfold connect_join.
  assert (existsb (fun t => match t with None => true | _ => false end) (map Some tasks) = false)
    as -> by (by induction tasks).
  destruct (existsb _ _) eqn:E; split; intros Hx; try done.
  - destruct Hx. apply existsb_exists in E as (x & Hx & E). apply in_map_iff in Hx as (y & <- & Hy).
    destruct y; [done|]. by apply list_elem_of_In.
  - apply list_elem_of_In in Hx.
    assert (existsb (fun t => match t with Some TaskPanic => true | _ => false end)
      (map Some tasks) = true) as E'; [|congruence].
    apply existsb_exists. exists (Some TaskPanic). split; [by apply in_map|done].
Qed.

(** A failed transport can end the client: when the five tasks of a connection have
    returned, even every one of them with an error, [connect] reports success, and a client
    that sees this report stops for good: it returns [Ok], without reconnecting and without
    telling the consumer. *)
Theorem task_errors_end_client {R PT IT} `{TrySender PT Packet} `{!Sender IT Packet}
    `{!Message AuthRequest, !Message SubscribeRequest, !Message Heartbeat, !Message LinkError}
    (conf : LinkClientConfig) (s : client_state R PT IT) (c : connection R IT)
    (oks : list bool) :
  match connect_join (map (fun ok => Some (TaskReturned ok)) oks) with
  | Some (Ok _) =>
      let c := {| idle_draws := 0; cid_ok := true; created_at := created_at c;
                  inner_channel := inner_channel c; events := [Some (TransportDone TransportOk)] |} in
      let '(s', r) := client_link conf [c] s in
      r = Ok Returned /\ exists id p, acts s' = acts s ++ [Drew id; Connect p]
  | _ => False
  end.
Proof.
  assert (connect_join (map (fun ok => Some (TaskReturned ok)) oks) = Some (Ok tt)) as ->.
  { rewrite <- (map_map TaskReturned Some). apply connect_join_spec.
    intros (x & Hx & _)%list_elem_of_In%in_map_iff. done. }
  cbn. split; [done|].
  do 2 eexists. unfold add_act, start_conn. cbn. by rewrite <- app_assoc.
Qed.

(** * The dispatch of datagrams *)

Section ListenFacts.
Context {A : Type} `{Countable A}.
Context (max_udp_read_size recv_chan_size send_chan_size : Z).

Abbreviation lrun := (listen_run max_udp_read_size recv_chan_size send_chan_size).
Abbreviation lstep := (listen_step max_udp_read_size recv_chan_size send_chan_size).

(** What was dispatched to a channel, directly or to a task, in the order dispatched. *)
Definition dispatched (c : nat) (acts : list (listen_action A)) : list (list byte) :=
  omap (fun x => match x with
                 | Enqueue c' d | EnqueueLater c' d => if decide (c' = c) then Some d else None
                 | EnqueueDeferred _ _ | Accepted _ _ => None
                 end) acts.

(** What the dispatch itself put in a channel, in order. *)
Definition put_directly (c : nat) (acts : list (listen_action A)) : list (list byte) :=
  omap (fun x => match x with
                 | Enqueue c' d => if decide (c' = c) then Some d else None
                 | _ => None
                 end) acts.

(** What was put in a channel, by the dispatch or by a task, in the order put. *)
Definition chan_data (c : nat) (acts : list (listen_action A)) : list (list byte) :=
  omap (fun x => match x with
                 | Enqueue c' d | EnqueueDeferred c' d => if decide (c' = c) then Some d else None
                 | EnqueueLater _ _ | Accepted _ _ => None
                 end) acts.

(** What tasks wait to put in a channel. *)
Definition held_back (c : nat) (l : list (nat * list byte)) : list (list byte) :=
  omap (fun '(c', d) => if decide (c' = c) then Some d else None) l.

(** The datagrams of an address, cut to the read buffer. *)
Definition datagrams_of (a : A) (evs : list (listen_event A)) : list (list byte) :=
  omap (fun e => match e with
                 | Datagram d a' _ =>
                     if decide (a' = a) then Some (take (Z.to_nat max_udp_read_size) d) else None
                 | _ => None
                 end) evs.

Definition accepted_chans (acts : list (listen_action A)) : list nat :=
  omap (fun x => match x with Accepted _ c => Some c | _ => None end) acts.

Definition act_chan (x : listen_action A) : nat :=
  match x with
  | Enqueue c _ | EnqueueLater c _ | EnqueueDeferred c _ | Accepted _ c => c
  end.

Record listen_inv (evs : list (listen_event A)) (s : listen_state A) : Prop := {
  li_map a c : client_socket_data_tx_map s !! a = Some c -> Accepted a c ∈ listen_acts s;
  li_fresh : Forall (fun x => act_chan x < next_chan s)%nat (listen_acts s);
  li_nodup : NoDup (accepted_chans (listen_acts s));
  li_owner x : x ∈ listen_acts s -> exists a, Accepted a (act_chan x) ∈ listen_acts s;
  li_data a c : Accepted a c ∈ listen_acts s ->
    dispatched c (listen_acts s) `sublist_of` datagrams_of a evs;
  li_held : Forall (fun q => exists a, Accepted a q.1 ∈ listen_acts s) (listen_deferred s)
}.

Lemma accepted_chans_elem a c acts : Accepted a c ∈ acts -> c ∈ accepted_chans acts.
Proof. intros Hx. apply list_elem_of_omap. by exists (Accepted a c). Qed.

Lemma accepted_inj a a' c acts : NoDup (accepted_chans acts) ->
  Accepted a c ∈ acts -> Accepted a' c ∈ acts -> a = a'.
Proof.
  induction acts as [|x acts IH]; cbn; intros Hnd Ha Ha'; [by apply not_elem_of_nil in Ha|].
  apply elem_of_cons in Ha as [Hx|Ha], Ha' as [Hx'|Ha'].
  - congruence.
  - subst x. apply accepted_chans_elem in Ha'. by apply NoDup_cons in Hnd as [[] _].
  - subst x. apply accepted_chans_elem in Ha. by apply NoDup_cons in Hnd as [[] _].
  - destruct x; [by apply IH..|]. apply NoDup_cons in Hnd as [_ Hnd]. by apply IH.
Qed.

(** No action on a channel, no data in it. *)
Lemma dispatched_fresh c n acts : Forall (fun x => act_chan x < n)%nat acts -> (n <= c)%nat ->
  dispatched c acts = [].
Proof.
  intros Hf Hc. induction Hf as [|x acts Hx Hf IH]; [done|]. cbn. unfold dispatched in IH.
  rewrite IH. destruct x; cbn in Hx; try done; case_decide; by lia || done.
Qed.

Lemma accepted_chans_fresh c n acts : Forall (fun x => act_chan x < n)%nat acts -> (n <= c)%nat ->
  c ∉ accepted_chans acts.
Proof.
  intros Hf Hc Hin. apply list_elem_of_omap in Hin as (x & Hx & E).
  rewrite Forall_forall in Hf. specialize (Hf x Hx). destruct x; simplify_eq. cbn in Hf. lia.
Qed.

Lemma retain_open_lookup st (m : gmap A nat) a c : retain_open st m !! a = Some c ->
  m !! a = Some c.
Proof. unfold retain_open. by intros [? _]%map_lookup_filter_Some. Qed.

Lemma datagrams_of_app a evs e : datagrams_of a (evs ++ [e]) = datagrams_of a evs ++ datagrams_of a [e].
Proof. apply omap_app. Qed.

Lemma listen_inv_mono evs e s : listen_inv evs s -> listen_inv (evs ++ [e]) s.
Proof.
  intros [Hm Hf Hn Ho Hd Hh]. split; try done. intros a c Hx. rewrite datagrams_of_app.
  by apply sublist_inserts_r, Hd.
Qed.

Lemma owned_app (l k : list (listen_action A)) (q : list (nat * list byte)) :
  Forall (fun q => exists a, Accepted a q.1 ∈ l) q -> Forall (fun q => exists a, Accepted a q.1 ∈ l ++ k) q.
Proof.
  intros Hq. eapply Forall_impl; [exact Hq|]. cbn. intros x [a Ha]. exists a. apply elem_of_app. by left.
Qed.

(** One more action on the channel of a connection; what tasks hold back may change. *)
Lemma listen_inv_push evs e a x l s : listen_inv evs s -> Accepted a (act_chan x) ∈ listen_acts s ->
  (forall b c, x <> Accepted b c) ->
  dispatched (act_chan x) [x] `sublist_of` datagrams_of a [e] ->
  Forall (fun q => exists b, Accepted b q.1 ∈ listen_acts s) l ->
  listen_inv (evs ++ [e])
    (mk_listen (client_socket_data_tx_map s) (next_chan s) (listen_acts s ++ [x]) l).
Proof.
  intros [Hm Hf Hn Ho Hd _] Ha Hx Hsub Hl.
  split; cbn [client_socket_data_tx_map next_chan listen_acts listen_deferred].
  - intros b c' Hb. apply elem_of_app. left. by apply Hm.
  - apply Forall_app. split; [done|]. apply Forall_singleton.
    rewrite Forall_forall in Hf. apply (Hf (Accepted a (act_chan x)) Ha).
  - unfold accepted_chans. rewrite omap_app. replace (omap _ [x]) with (@nil nat); [by rewrite app_nil_r|].
    destruct x; try done. by destruct (Hx from chan).
  - intros y [Hy|Hy]%elem_of_app.
    + destruct (Ho y Hy) as [b Hb]. exists b. apply elem_of_app. by left.
    + apply list_elem_of_singleton in Hy as ->. exists a. apply elem_of_app. by left.
  - intros b c' [Hb|Hb]%elem_of_app; [|apply list_elem_of_singleton in Hb; by destruct (Hx b c')].
    unfold dispatched. rewrite omap_app, datagrams_of_app. apply sublist_app; [by apply Hd|].
    destruct (decide (act_chan x = c')) as [<-|Hne].
    + by rewrite (accepted_inj b a _ _ Hn Hb Ha).
    + replace (omap _ [x]) with (@nil (list byte)); [apply sublist_nil_l|].
      destruct x; cbn in *; by rewrite ?decide_False.
  - by apply owned_app.
Qed.

(** A connection set up for an unknown address: its channel is a fresh one. *)
Lemma listen_inv_new evs d a st s : listen_inv evs s ->
  listen_inv (evs ++ [Datagram d a st])
    (mk_listen (<[a := next_chan s]> (retain_open st (client_socket_data_tx_map s)))
       (S (next_chan s))
       ((listen_acts s ++ [Enqueue (next_chan s) (take (Z.to_nat max_udp_read_size) d)])
          ++ [Accepted a (next_chan s)]) (listen_deferred s)).
Proof.
  intros [Hm Hf Hn Ho Hd Hh].
  split; cbn [client_socket_data_tx_map next_chan listen_acts listen_deferred]; rewrite <- ?app_assoc; cbn [app].
  - intros b c Hb. apply elem_of_app. destruct (decide (a = b)) as [<-|Hne].
    + rewrite lookup_insert_eq in Hb. simplify_eq. right. set_solver.
    + rewrite lookup_insert_ne in Hb by done. left. by apply Hm, (retain_open_lookup st).
  - apply Forall_app. split; [|by repeat constructor].
    eapply Forall_impl; [exact Hf|]. cbn. lia.
  - unfold accepted_chans. rewrite omap_app. cbn. apply NoDup_app. split_and!; [done| |apply NoDup_singleton].
    intros c Hc ->%list_elem_of_singleton. by eapply accepted_chans_fresh in Hc.
  - intros x [Hx|Hx]%elem_of_app.
    + destruct (Ho x Hx) as [b Hb]. exists b. apply elem_of_app. by left.
    + exists a. apply elem_of_app. right.
      apply elem_of_cons in Hx as [->|[->|[]%not_elem_of_nil]%elem_of_cons]; set_solver.
  - intros b c Hb. rewrite datagrams_of_app. unfold dispatched. rewrite omap_app.
    apply elem_of_app in Hb as [Hb|Hb].
    + apply sublist_app; [by apply Hd|]. rewrite Forall_forall in Hf. specialize (Hf _ Hb).
      cbn in Hf |- *. rewrite decide_False by lia. apply sublist_nil_l.
    + apply elem_of_cons in Hb as [Hb|[Hb|[]%not_elem_of_nil]%elem_of_cons]; simplify_eq.
      apply sublist_app; [|cbn; by rewrite !(decide_True _ _ eq_refl)].
      change (omap _ (listen_acts s)) with (dispatched (next_chan s) (listen_acts s)).
      rewrite (dispatched_fresh _ (next_chan s)) by done. apply sublist_nil_l.
  - by apply owned_app.
Qed.

Context (Hrecv : recv_chan_size <> 0) (Hsend : send_chan_size <> 0).

Lemma listen_step_inv evs e s : listen_inv evs s ->
  listen_inv (evs ++ [e]) (lstep e s).1 /\
  (lstep e s).2 = match e with ReadError => Err tt | _ => Ok tt end.
Proof.
  intros Hi. destruct e as [st|d a st| |i st]; cbn [listen_step].
  - split; [|done]. apply listen_inv_mono. destruct Hi as [Hm Hf Hn Ho Hd Hh].
    split; try done. cbn. intros a c Ha%retain_open_lookup. by apply Hm.
  - unfold on_datagram, mbind, SM_bind, sget, set_deferred, smodify.
    destruct (client_socket_data_tx_map s !! a) as [c|] eqn:Ea.
    + pose proof (li_map _ _ Hi _ _ Ea) as Hc. pose proof (li_held _ _ Hi) as Hh.
      destruct (closed_now st c); [split; [by apply listen_inv_mono|done]|].
      destruct (full_now st c); (split; [|done]); cbn; apply (listen_inv_push evs _ a); try done;
        try (cbn; by rewrite !(decide_True _ _ eq_refl)).
      apply Forall_app. split; [done|]. apply Forall_singleton. by exists a.
    + unfold new_client, mbind, SM_bind, sget, smodify, listen_add.
      rewrite (proj2 (Z.eqb_neq recv_chan_size 0)), (proj2 (Z.eqb_neq send_chan_size 0)) by done.
      split; [|done]. cbn. by apply listen_inv_new.
  - split; [by apply listen_inv_mono|done].
  - unfold on_deferred, mbind, SM_bind, sget, set_deferred, smodify.
    destruct (listen_deferred s !! i) as [[c d]|] eqn:Ei; [|split; [by apply listen_inv_mono|done]].
    pose proof (li_held _ _ Hi) as Hh.
    assert (Forall (fun q => exists b, Accepted b q.1 ∈ listen_acts s) (delete i (listen_deferred s))) as Hdel
      by (by apply Forall_delete).
    rewrite Forall_lookup in Hh. destruct (Hh _ _ Ei) as [a Ha]. cbn in Ha.
    destruct (closed_now st c); [|destruct (full_now st c)]; (split; [|done]); cbn.
    + apply listen_inv_mono. by destruct Hi.
    + by apply listen_inv_mono.
    + apply (listen_inv_push evs _ a); try done.
Qed.

Lemma listen_run_inv evs0 evs s : listen_inv evs0 s ->
  listen_inv (evs0 ++ evs) (lrun evs s).1 /\
  ((lrun evs s).2 = Ok tt \/ ((lrun evs s).2 = Err tt /\ ReadError ∈ evs)).
Proof.
  revert evs0 s. induction evs as [|e evs IH]; intros evs0 s Hi.
  { rewrite app_nil_r. split; [done|by left]. }
  unfold listen_run. cbn [sfor]. unfold mbind, SM_bind.
  destruct (listen_step_inv evs0 e s Hi) as [Hi1 Hr].
  destruct (lstep e s) as [s1 [[]|[]|]]; cbn [fst snd] in *.
  - destruct (IH (evs0 ++ [e]) s1 Hi1) as [Hi2 Hr2]. rewrite <- app_assoc in Hi2.
    split; [exact Hi2|]. destruct Hr2 as [?|[? ?]]; [by left|right]. split; [done|set_solver].
  - split; [|right; split; [done|destruct e; [done|done|set_solver|done]]].
    clear -Hi1. replace (evs0 ++ e :: evs) with ((evs0 ++ [e]) ++ evs) by (by rewrite <- app_assoc).
    induction evs as [|e' evs IH] using rev_ind; [by rewrite app_nil_r|].
    rewrite app_assoc. by apply listen_inv_mono.
  - by destruct e.
Qed.

Lemma listen_init_inv : listen_inv [] listen_init.
Proof.
  split; cbn.
  - intros a c. by rewrite lookup_empty.
  - constructor.
  - constructor.
  - by intros x ?%not_elem_of_nil.
  - by intros a c ?%not_elem_of_nil.
  - constructor.
Qed.

(** *** What becomes of what was dispatched *)

(** A task found its channel closed. *)
Definition finds_closed (c : nat) (e : listen_event A) : Prop :=
  match e with ListenDeferred _ st => closed_now st c = true | _ => False end.

Definition accounted (evs : list (listen_event A)) (c : nat) (s : listen_state A) : Prop :=
  exists lost,
    chan_data c (listen_acts s) ++ held_back c (listen_deferred s) ++ lost ≡ₚ dispatched c (listen_acts s) /\
    (lost <> [] -> Exists (finds_closed c) evs).

Lemma accounted_mono evs e c s : accounted evs c s -> accounted (evs ++ [e]) c s.
Proof. intros (l & Hp & Hl). exists l. split; [done|]. intros Hne. apply Exists_app. by auto. Qed.

Lemma put_directly_sublist c acts : put_directly c acts `sublist_of` dispatched c acts.
Proof.
  induction acts as [|[c' d|c' d|c' d|b c'] acts IH]; cbn; [done|case_decide..|done|done];
    by repeat constructor.
Qed.

Lemma held_delete c l i q : l !! i = Some q ->
  held_back c l ≡ₚ held_back c [q] ++ held_back c (delete i l).
Proof.
  intros Hi. unfold held_back. rewrite <- omap_app. apply omap_Permutation. by apply delete_Permutation.
Qed.

(** What was put in a channel or is held back for it changes by what is dispatched, and by what
    a task loses. *)
Definition balanced (c : nat) (e : listen_event A) (s s' : listen_state A) : Prop :=
  exists new lost, dispatched c (listen_acts s') = dispatched c (listen_acts s) ++ new /\
    chan_data c (listen_acts s') ++ held_back c (listen_deferred s') ++ lost ≡ₚ
      (chan_data c (listen_acts s) ++ held_back c (listen_deferred s)) ++ new /\
    (lost <> [] -> finds_closed c e).

Lemma balanced_more c e s m n k l lost :
  chan_data c k ++ held_back c l ++ lost ≡ₚ dispatched c k ++ held_back c (listen_deferred s) ->
  (lost <> [] -> finds_closed c e) -> balanced c e s (mk_listen m n (listen_acts s ++ k) l).
Proof.
  intros Hk Hl. exists (dispatched c k), lost. cbn [listen_acts listen_deferred].
  assert (dispatched c (listen_acts s ++ k) = dispatched c (listen_acts s) ++ dispatched c k) as ->
    by apply omap_app.
  assert (chan_data c (listen_acts s ++ k) = chan_data c (listen_acts s) ++ chan_data c k) as ->
    by apply omap_app.
  split_and!; [done| |done]. rewrite <- !app_assoc. apply Permutation_app_head. rewrite Hk.
  apply Permutation_app_comm.
Qed.

Lemma balanced_same c e s s' : listen_acts s' = listen_acts s -> listen_deferred s' = listen_deferred s ->
  balanced c e s s'.
Proof. intros Ha Hd. exists [], []. by rewrite Ha, Hd, !app_nil_r. Qed.

Lemma listen_step_balanced e c s : balanced c e s (lstep e s).1.
Proof.
  destruct e as [st|d a st| |i st]; cbn [listen_step]; [by apply balanced_same| |by apply balanced_same|].
  - unfold on_datagram, mbind, SM_bind, sget, set_deferred, smodify.
    destruct (client_socket_data_tx_map s !! a) as [c'|].
    + destruct (closed_now st c'); [by apply balanced_same|]. destruct (full_now st c'); cbn;
        apply (balanced_more _ _ _ _ _ _ _ []); try done; rewrite app_nil_r; [|done].
      unfold held_back. rewrite omap_app. cbn. case_decide; [apply Permutation_app_comm|by rewrite app_nil_r].
    + unfold new_client, mbind, SM_bind, sget, smodify, listen_add.
      rewrite (proj2 (Z.eqb_neq recv_chan_size 0)), (proj2 (Z.eqb_neq send_chan_size 0)) by done.
      cbn. rewrite <- app_assoc. apply (balanced_more _ _ _ _ _ _ _ []); try done. by rewrite app_nil_r.
  - unfold on_deferred, mbind, SM_bind, sget, set_deferred, smodify.
    destruct (listen_deferred s !! i) as [[c' d]|] eqn:Ei; [|by apply balanced_same].
    pose proof (held_delete c _ _ _ Ei) as Hdel.
    destruct (closed_now st c') eqn:Ec; [|destruct (full_now st c'); [by apply balanced_same|]]; cbn.
    + rewrite <- (app_nil_r (listen_acts s)).
      apply (balanced_more _ _ _ _ _ _ _ (held_back c [(c', d)])).
      * rewrite Hdel. cbn [chan_data dispatched omap list_omap app]. apply Permutation_app_comm.
      * cbn. case_decide; [|done]. by subst c'.
    + apply (balanced_more _ _ _ _ _ _ _ []); [|done]. rewrite app_nil_r, Hdel. done.
Qed.

Lemma listen_run_accounted evs0 evs c s : accounted evs0 c s -> accounted (evs0 ++ evs) c (lrun evs s).1.
Proof.
  revert evs0 s. induction evs as [|e evs IH]; intros evs0 s Hs; [by rewrite app_nil_r|].
  assert (accounted (evs0 ++ [e]) c (lstep e s).1) as Hs1.
  { destruct Hs as (l & Hp & Hl), (listen_step_balanced e c s) as (new & lost & Hn & Hb & Hc).
    exists (lost ++ l). split.
    - rewrite Hn, <- Hp. rewrite !app_assoc in *. rewrite Hb. solve_Permutation.
    - intros Hne. apply Exists_app. destruct lost as [|d lost]; [by left; apply Hl|].
      right. apply Exists_cons_hd. by apply Hc. }
  replace (evs0 ++ e :: evs) with ((evs0 ++ [e]) ++ evs) by (by rewrite <- app_assoc).
  unfold listen_run. cbn [sfor]. unfold mbind, SM_bind.
  destruct (lstep e s) as [s1 [[]|[]|]]; [by apply IH| |]; clear -Hs1; cbn [fst] in *;
    (induction evs as [|e' evs IH] using rev_ind; [by rewrite app_nil_r|rewrite app_assoc; by apply accounted_mono]).
Qed.

(** C32. No crosstalk between connections: whatever the datagrams, the ticks and the state of
    the channels, the dispatch never panics, as long as the channels have a size, and ends only
    on a socket error; each channel belongs to one address, every datagram put somewhere is put
    in the channel of a connection announced to the server, and what a connection is given is
    datagrams of its own address, each at most once. Those the dispatch puts itself come in
    order; those it leaves to tasks, when the channel is full, come when a task finds room, in
    any order; what was dispatched is in the channel, or held back by a task, or was lost to a
    task that found the channel closed. *)
Theorem listen_no_crosstalk (evs : list (listen_event A)) :
  let '(s, r) := lrun evs listen_init in
  (r = Ok tt \/ (r = Err tt /\ ReadError ∈ evs)) /\
  NoDup (accepted_chans (listen_acts s)) /\
  (forall x, x ∈ listen_acts s -> exists a, Accepted a (act_chan x) ∈ listen_acts s) /\
  (forall a c, Accepted a c ∈ listen_acts s ->
     put_directly c (listen_acts s) `sublist_of` datagrams_of a evs /\
     exists lost, (lost <> [] -> Exists (finds_closed c) evs) /\
       chan_data c (listen_acts s) ++ held_back c (listen_deferred s) ++ lost ⊆+ datagrams_of a evs).
Proof.
  pose proof (listen_run_inv [] evs listen_init listen_init_inv) as [Hi Hr].
  pose proof (fun c => listen_run_accounted [] evs c listen_init) as Hacc. cbn [app] in *.
  destruct (lrun evs listen_init) as [s r]. cbn [fst snd] in *. destruct Hi as [_ _ Hn Ho Hd _].
  split_and!; try done. intros a c Ha. specialize (Hd a c Ha). split.
  - etrans; [apply put_directly_sublist|exact Hd].
  - destruct (Hacc c) as (lost & Hp & Hl); [by exists []|]. exists lost. split; [exact Hl|].
    rewrite Hp. by apply sublist_submseteq.
Qed.

(** The events during which a channel stays open. *)
Definition open_in (c : nat) (e : listen_event A) : Prop :=
  match e with
  | ListenTick st | Datagram _ _ st | ListenDeferred _ st => closed_now st c = false
  | ReadError => False
  end.

Lemma dispatched_app c l k : dispatched c (l ++ k) = dispatched c l ++ dispatched c k.
Proof. apply omap_app. Qed.

Lemma dispatched_put c c' d (x : listen_action A) : x = Enqueue c' d \/ x = EnqueueLater c' d ->
  dispatched c [x] = if decide (c' = c) then [d] else [].
Proof. by intros [->| ->]; cbn; case_decide. Qed.

(** One event: an open channel keeps its address, and gets the address' datagrams. *)
Lemma listen_step_live evs e s a c : listen_inv evs s ->
  client_socket_data_tx_map s !! a = Some c -> open_in c e ->
  client_socket_data_tx_map (lstep e s).1 !! a = Some c /\
  dispatched c (listen_acts (lstep e s).1) = dispatched c (listen_acts s) ++ datagrams_of a [e].
Proof.
  intros Hi Ha Ho.
  assert (forall st, closed_now st c = false ->
    retain_open st (client_socket_data_tx_map s) !! a = Some c) as Hret
    by (intros st Hst; by apply map_lookup_filter_Some).
  pose proof (li_map _ _ Hi _ _ Ha) as Hacc.
  assert (c < next_chan s)%nat as Hlt
    by (pose proof (li_fresh _ _ Hi) as Hf; rewrite Forall_forall in Hf; apply (Hf _ Hacc)).
  destruct e as [st|d b st| |i st]; cbn [open_in] in Ho; [| |done|].
  - cbn. rewrite app_nil_r. split; [by apply Hret|done].
  - cbn [listen_step]. unfold on_datagram, mbind, SM_bind, sget.
    destruct (decide (b = a)) as [->|Hne].
    + rewrite Ha, Ho. cbn [datagrams_of omap list_omap]. rewrite (decide_True _ _ eq_refl).
      destruct (full_now st c); cbn -[dispatched]; rewrite dispatched_app; (split; [done|]); f_equal;
        (erewrite dispatched_put; [by rewrite decide_True|by auto]).
    + replace (datagrams_of a [Datagram d b st]) with (@nil (list byte))
        by (cbn; by rewrite decide_False).
      rewrite app_nil_r.
      destruct (client_socket_data_tx_map s !! b) as [c'|] eqn:Eb.
      * destruct (closed_now st c'); [done|].
        assert (c' <> c) as Hc.
        { intros ->. pose proof (li_map _ _ Hi _ _ Eb) as Hacc'.
          by pose proof (accepted_inj _ _ _ _ (li_nodup _ _ Hi) Hacc Hacc'). }
        destruct (full_now st c'); cbn -[dispatched]; rewrite dispatched_app; (split; [done|]);
          (erewrite dispatched_put; [by rewrite decide_False, app_nil_r|by auto]).
      * unfold new_client, mbind, SM_bind, sget, smodify, listen_add.
        rewrite (proj2 (Z.eqb_neq recv_chan_size 0)), (proj2 (Z.eqb_neq send_chan_size 0)) by done.
        cbn -[dispatched]. rewrite lookup_insert_ne by done. split; [by apply Hret|].
        rewrite !dispatched_app. erewrite dispatched_put; [|by auto].
        rewrite decide_False by lia. cbn. by rewrite !app_nil_r.
  - cbn [listen_step]. unfold on_deferred, mbind, SM_bind, sget, set_deferred, smodify.
    rewrite app_nil_r. destruct (listen_deferred s !! i) as [[c' d]|]; [|done].
    destruct (closed_now st c'); [done|]. destruct (full_now st c'); [done|].
    cbn -[dispatched]. rewrite dispatched_app. split; [done|]. apply app_nil_r.
Qed.

(** C33. A live connection is never replaced or starved: while its channel is open, whatever
    else arrives, its address keeps it and each datagram of the address, cut to the read buffer,
    is dispatched to it, in order; what was dispatched is put in its channel or is held back for
    it by a task: nothing is lost. *)
Theorem listen_live (evs0 evs : list (listen_event A)) (s : listen_state A) (a : A) (c : nat)
    (Hreach : lrun evs0 listen_init = (s, Ok tt))
    (Hmap : client_socket_data_tx_map s !! a = Some c) (Hopen : Forall (open_in c) evs) :
  exists s', lrun evs s = (s', Ok tt) /\
    client_socket_data_tx_map s' !! a = Some c /\
    dispatched c (listen_acts s') = dispatched c (listen_acts s) ++ datagrams_of a evs /\
    chan_data c (listen_acts s') ++ held_back c (listen_deferred s') ≡ₚ
      (chan_data c (listen_acts s) ++ held_back c (listen_deferred s)) ++ datagrams_of a evs.
Proof.
  pose proof (proj1 (listen_run_inv [] evs0 listen_init listen_init_inv)) as Hi.
  rewrite Hreach in Hi. cbn [fst app] in Hi. clear Hreach. revert evs0 s Hi Hmap.
  induction Hopen as [|e evs He Hopen IH]; intros evs0 s Hi Hmap.
  { exists s. by rewrite !app_nil_r. }
  destruct (listen_step_inv evs0 e s Hi) as [Hi1 Hr].
  destruct (listen_step_live evs0 e s a c Hi Hmap He) as [Hm1 Hd1].
  destruct (listen_step_balanced e c s) as (new & lost & Hn & Hb & Hc).
  rewrite Hd1 in Hn. apply app_inv_head in Hn as <-.
  assert (lost = []) as ->.
  { destruct lost as [|d lost]; [done|]. specialize (Hc ltac:(done)). destruct e; try done.
    cbn in He, Hc. congruence. }
  rewrite app_nil_r in Hb.
  destruct (IH (evs0 ++ [e]) (lstep e s).1 Hi1 Hm1) as (s' & Hrun & Hm' & Hd' & Hb').
  assert (datagrams_of a (e :: evs) = datagrams_of a [e] ++ datagrams_of a evs) as ->
    by apply (omap_app _ [e] evs).
  exists s'. split_and!; [|done| |].
  - unfold listen_run. cbn [sfor]. unfold mbind, SM_bind.
    destruct (lstep e s) as [s1 r1]. cbn [fst snd] in *. subst r1. destruct e; try done.
  - by rewrite Hd', Hd1, <- app_assoc.
  - by rewrite Hb', Hb, <- !app_assoc.
Qed.

End ListenFacts.

(** * Witnesses *)

Definition sample_socket : cut_socket := {| sk_cut := 1; sk_budget := 10; sk_sent := [] |}.

(** A socket that takes two bytes at a time sends both datagrams in pieces. *)
Lemma udp_write_loop_correct_witness :
  udp_sent (udp_write_loop [[x01; x02; x03]; [x04]] sample_socket).1 = [[x01; x02]; [x03]; [x04]] /\
  exists out, out `prefix_of` concat [[x01; x02; x03]; [x04]] /\
    concat (udp_sent (udp_write_loop [[x01; x02; x03]; [x04]] sample_socket).1)
      = concat (udp_sent sample_socket) ++ out /\
    match (udp_write_loop [[x01; x02; x03]; [x04]] sample_socket).2 with
    | Err UdpRxEnded => out = concat [[x01; x02; x03]; [x04]]
    | Err UdpSendFailed => True
    | _ => False
    end.
Proof.
  split; [reflexivity|].
  apply (udp_write_loop_correct [[x01; x02; x03]; [x04]] sample_socket).
  repeat constructor.
Defined.

Definition sample_conn : loopback :=
  {| credit := 0; owed := 1; lb_sent := []; lb_read := []; inbox := [] |}.

Definition sample_transport : Transport :=
  {| tr_buffer_config := BufferConfig_default; tr_channel_config := ChannelConfig_default;
     tr_quiche_config := QuicheConfig_default; tr_timeout_config := TimeoutConfig_default |}.

Definition sample_auth : Packet :=
  PPush {| push_reserved := 0; push_command := Auth; push_msg_type := MtUnknown; push_body_len := 0;
           push_body := [] |}.

(** The client sends its first datagram, gets the server's, and queues the packet. *)
Lemma connect_start_correct_witness :
  exists k' (tx' : unlimited Packet) c',
    connect_start sample_transport sample_auth [Some [x07]] sample_conn
      (sample_socket, []) = ((k', tx'), Ok (Established c')) /\
    udp_sent k' = [[x40]] /\ accepted tx' = [sample_auth] /\
    conn_is_established c' = true /\ rtc conn_drive sample_conn c'.
Proof.
  pose proof (connect_start_correct (TX:=unlimited Packet) sample_transport sample_auth
    [Some [x07]] sample_conn sample_socket []) as H.
  destruct (connect_start _ _ _ _ _) as [[k' tx'] r] eqn:E.
  assert (udp_sent k' = [[x40]] /\ exists c', r = Ok (Established c')) as [Hk [c' ->]].
  { vm_compute in E. injection E as <- _ <-. split; [reflexivity|by eexists]. }
  exists k', tx', c'. destruct H as (H1 & H2 & H3 & _). by split_and!.
Defined.


Definition quiet : channels := {| closed_now := fun _ => false; full_now := fun _ => false |}.

(** Two clients, one of which sends again, when its channel is full, and again when there is
    room: the last datagram overtakes the one before. *)
Definition sample_events : list (listen_event nat) :=
  [Datagram [x01] 7%nat quiet; Datagram [x02] 8%nat quiet;
   Datagram [x03] 7%nat {| closed_now := fun _ => false; full_now := fun c => (c =? 0)%nat |};
   ListenTick quiet; Datagram [x04] 7%nat quiet; ListenDeferred 0 quiet].

Lemma listen_no_crosstalk_witness :
  let '(s, r) := listen_run 100 1 1 sample_events listen_init in
  listen_acts s = [Enqueue 0 [x01]; Accepted 7%nat 0; Enqueue 1 [x02]; Accepted 8%nat 1;
                   EnqueueLater 0 [x03]; Enqueue 0 [x04]; EnqueueDeferred 0 [x03]] /\
  (r = Ok tt \/ (r = Err tt /\ ReadError ∈ sample_events)) /\
  NoDup (accepted_chans (listen_acts s)) /\
  (forall x, x ∈ listen_acts s -> exists a, Accepted a (act_chan x) ∈ listen_acts s) /\
  (forall a c, Accepted a c ∈ listen_acts s ->
     put_directly c (listen_acts s) `sublist_of` datagrams_of 100 a sample_events /\
     exists lost, (lost <> [] -> Exists (finds_closed c) sample_events) /\
       chan_data c (listen_acts s) ++ held_back c (listen_deferred s) ++ lost ⊆+
         datagrams_of 100 a sample_events).
Proof.
  pose proof (listen_no_crosstalk (A:=nat) 100 1 1 ltac:(done) ltac:(done) sample_events) as H.
  destruct (listen_run 100 1 1 sample_events listen_init) as [s r] eqn:E.
  split; [|exact H]. vm_compute in E. by injection E as <- _.
Defined.

Lemma listen_live_witness :
  exists s s', listen_run 100 1 1 (take 2 sample_events) listen_init = (s, Ok tt) /\
    listen_run 100 1 1 (drop 2 sample_events) s = (s', Ok tt) /\
    client_socket_data_tx_map s' !! 7%nat = Some 0%nat /\
    dispatched 0 (listen_acts s') = [[x01]; [x03]; [x04]] /\
    chan_data 0 (listen_acts s') = [[x01]; [x04]; [x03]].
Proof.
  pose proof (listen_live (A:=nat) 100 1 1 ltac:(done) ltac:(done)
    (take 2 sample_events) (drop 2 sample_events)
    (listen_run 100 1 1 (take 2 sample_events) listen_init).1 7%nat 0%nat
    eq_refl eq_refl) as H.
  destruct H as (s' & Hr & Hm & Hd & _); [repeat constructor|].
  exists (listen_run 100 1 1 (take 2 sample_events) listen_init).1, s'.
  split_and!; [reflexivity|exact Hr|exact Hm|rewrite Hd; reflexivity|].
  vm_compute in Hr. injection Hr as <-. reflexivity.
Defined.
