(* ===== verification/Connect.v ===== *)
(** [Transport::connect] ([link/src/transport/transport.rs]) and the end of
    [accept_new_conn] ([link/src/transport/server.rs]) as wholes: from the address of the
    server to the running tasks. Sockets and [quiche::connect] are interfaces. *)

From Stdlib Require Import ZArith Lia Strings.Byte.
From stdpp Require Import base list strings relations.
From S2P Require Import Prelude Buffer Deku Channel Protos Packets Wire Link Config Quic Process.
From S2P Require Import Transport TransportFacts.

(** Making a connected UDP socket. *)
Class UdpSockets (K : Type) := {
  udp_bind : string -> option K;
  udp_connect : SocketAddr -> K -> option K;
  udp_local_addr : K -> option SocketAddr
}.

(** [quiche::connect(None, scid, local, peer, cfg)] *)
Class QuicheConnect (C CFG : Type) := {
  quiche_connect : list byte -> SocketAddr -> SocketAddr -> CFG -> option C
}.

Inductive connect_failure : Type :=
| BindFailed | UdpConnectFailed | LocalAddrFailed | QuicheConnectFailed
| StartFailed (e : connect_error).

(** The tasks as they start: the QUIC task, the read loop, the size of the buffer of the
    client's UDP reader. The writing tasks have no state of their own. *)
Record started (C U Q S : Type) : Type := mk_started {
  st_proc : proc C U Q;
  st_reader : read_state S;
  st_udp_buffer : Z
}.
Arguments mk_started {C U Q S}.
Arguments st_proc {C U Q S}.
Arguments st_reader {C U Q S}.
Arguments st_udp_buffer {C U Q S}.

Section Connect.
Context {C K TX CFG U Q S : Type} `{QuicConn C} `{UdpSocket K, !UdpSockets K}.
Context `{Sender TX Packet} `{QuicheCfg CFG} `{!QuicheConnect C CFG}.

Definition bind_addr (peer_addr : SocketAddr) : string :=
  if is_ipv4 peer_addr then "0.0.0.0:0" else "[::]:0".

(** A channel of no capacity is a panic. So is one beyond the runtime's largest capacity, which is
    taken not to be asked for. *)
Definition has_capacity {E} (n : Z) : outcome E unit := if n =? 0 then Panic else Ok tt.

(** The channels are made in this order: [udp_data_recv], [quic_data_recv], [quic_data_send],
    [udp_data_send]. *)
Definition spawn_tasks (t : Transport) (c : C) (udp_tx : U) (quic_tx : Q) (response_tx : S)
    : outcome connect_failure (started C U Q S) :=
  let recv_chan_size := recv_chan_size (tr_channel_config t) in
  let send_chan_size := send_chan_size (tr_channel_config t) in
  has_capacity recv_chan_size ≫= fun _ =>
  has_capacity recv_chan_size ≫= fun _ =>
  has_capacity send_chan_size ≫= fun _ =>
  has_capacity send_chan_size ≫= fun _ =>
  Ok (mk_started (process_init (task_cfg t) c udp_tx quic_tx)
        (link_read_init response_tx (link_read_size t)) (udp_read_size t)).

(** The tasks of a connection the server accepted: the datagrams come from [listen_at]. *)
Definition accept_tasks (t : Transport) (c : C) (udp_tx : U) (quic_tx : Q) (response_tx : S)
    : outcome unit (proc C U Q * read_state S) :=
  has_capacity (recv_chan_size (tr_channel_config t)) ≫= fun _ =>
  has_capacity (send_chan_size (tr_channel_config t)) ≫= fun _ =>
  has_capacity (send_chan_size (tr_channel_config t)) ≫= fun _ =>
  Ok (process_init (task_cfg t) c udp_tx quic_tx, link_read_init response_tx (link_read_size t)).

Definition or_failed {A} (e : connect_failure) (o : option A) : SM TX connect_failure A :=
  slift (match o with Some a => Ok a | None => Err e end).

Definition panics {A} (m : outcome unit A) : SM TX connect_failure A :=
  slift (match m with Ok a => Ok a | _ => Panic end).

Definition start (t : Transport) (auth_packet : Packet) (recvs : list (option (list byte)))
    (c : C) (k : K) : SM TX connect_failure (handshake C) := fun request_tx =>
  match connect_start t auth_packet recvs c (k, request_tx) with
  | ((_, request_tx), r) =>
      (request_tx, match r with Ok h => Ok h | Err e => Err (StartFailed e) | Panic => Panic end)
  end.

(** On what the socket gives during the handshake. The state is [request_tx]. *)
Definition connect (t : Transport) (peer_addr : SocketAddr) (scid : list byte)
    (auth_packet : Packet) (udp_tx : U) (quic_tx : Q) (response_tx : S)
    (recvs : list (option (list byte)))
    : SM TX connect_failure (handshake (started C U Q S)) :=
  socket ← or_failed BindFailed (udp_bind (bind_addr peer_addr));
  socket ← or_failed UdpConnectFailed (udp_connect peer_addr socket);
  local_addr ← or_failed LocalAddrFailed (udp_local_addr socket);
  cfg ← panics (quiche_Config_from (tr_quiche_config t));
  conn ← or_failed QuicheConnectFailed (quiche_connect scid local_addr peer_addr cfg);
  h ← start t auth_packet recvs conn socket;
  match h with
  | Established conn => st ← slift (spawn_tasks t conn udp_tx quic_tx response_tx); mret (Established st)
  | Waiting => mret Waiting
  end.

End Connect.

(** * What is started *)

Section Facts.
Context {C K TX CFG U Q S : Type} `{QuicLaws C} `{UdpSocketLaws K, !UdpSockets K}.
Context `{SenderLaws TX Packet} `{QuicheCfg CFG} `{!QuicheConnect C CFG}.

Lemma quiche_Config_no_err (q : QuicheConfig) e : quiche_Config_from (K:=CFG) q <> Err e.
Proof.
  unfold quiche_Config_from, unwrap. destruct cfg_new as [cfg|]; [|done].
  cbn [mbind outcome_bind]. destruct (application_protos q); [|done].
  by destruct (cfg_set_application_protos _ cfg).
Qed.

(** The task that starts on an established connection: the connection [c0] was made for the
    socket, and driven by datagrams only. *)
Definition fresh_start (t : Transport) (peer_addr : SocketAddr) (scid : list byte) (response_tx : S)
    (st : started C U Q S) : Prop :=
  exists k k' local_addr cfg c0,
    udp_bind (bind_addr peer_addr) = Some k /\ udp_connect peer_addr k = Some k' /\
    udp_local_addr k' = Some local_addr /\
    quiche_Config_from (tr_quiche_config t) = Ok cfg /\
    quiche_connect scid local_addr peer_addr cfg = Some c0 /\
    rtc conn_drive c0 (conn (st_proc st)) /\ conn_is_established (conn (st_proc st)) = true /\
    stream_sent (conn (st_proc st)) = stream_sent c0 /\
    stream_read (conn (st_proc st)) = stream_read c0 /\
    send_buf (st_proc st) = SimpleBuf.new (max_stream_send_size (tr_buffer_config t)) /\
    st_reader st = link_read_init response_tx (max_stream_read_size (tr_buffer_config t)).

(** C21. Connecting, as a whole. The tasks run only on an established connection, made for the
    socket bound in the family of the peer's address and driven by nothing but the datagrams
    of the handshake, with empty buffers of the sizes configured; the authentication packet is
    then the one packet queued for it, and the UDP reader's buffer holds every datagram the
    configuration lets the peer send. In every other case no packet is queued, unless a
    channel has no capacity: then, and when the QUIC configuration cannot be made, [connect]
    panics. *)
Theorem connect_correct (t : Transport) (peer_addr : SocketAddr) (scid : list byte)
    (auth_packet : Packet) (udp_tx : U) (quic_tx : Q) (response_tx : S)
    (recvs : list (option (list byte))) (tx : TX) :
  let '(tx', r) := connect (K:=K) (CFG:=CFG) t peer_addr scid auth_packet udp_tx quic_tx
                     response_tx recvs tx in
  let cc := tr_channel_config t in
  match r with
  | Ok (Established st) => fresh_start t peer_addr scid response_tx st /\
      accepted tx' = accepted tx ++ [auth_packet] /\
      default DEFAULT_MAX_UDP_PACKET_SIZE (max_recv_udp_payload_size (tr_quiche_config t))
        <= st_udp_buffer st
  | Ok Waiting => accepted tx' = accepted tx /\ Forall is_Some recvs
  | Err e => accepted tx' = accepted tx
  | Panic => quiche_Config_from (K:=CFG) (tr_quiche_config t) = Panic \/
      accepted tx' = accepted tx ++ [auth_packet] /\ (recv_chan_size cc = 0 \/ send_chan_size cc = 0)
  end.
Proof.
  unfold connect, or_failed, panics, slift, mbind, SM_bind.
  destruct (udp_bind (bind_addr peer_addr)) as [k|] eqn:Ek; [|done].
  destruct (udp_connect peer_addr k) as [k'|] eqn:Ek'; [|done].
  destruct (udp_local_addr k') as [la|] eqn:Ela; [|done].
  destruct (quiche_Config_from (tr_quiche_config t)) as [cfg|[]|] eqn:Ecfg; [|by destruct (quiche_Config_no_err _ _ Ecfg)|by left].
  destruct (quiche_connect scid la peer_addr cfg) as [c0|] eqn:Ec; [|done].
  unfold start. pose proof (connect_start_correct t auth_packet recvs c0 k' tx) as Hs.
  destruct (connect_start t auth_packet recvs c0 (k', tx)) as [[k1 tx1] [[c|]|e|]]; [|done|by destruct Hs|done].
  destruct Hs as (Htx & Hest & Hdrive & Hsent & Hread). unfold spawn_tasks, has_capacity.
  destruct (Z.eqb_spec (recv_chan_size (tr_channel_config t)) 0); [cbn; by auto|].
  destruct (Z.eqb_spec (send_chan_size (tr_channel_config t)) 0); [cbn; by auto|].
  cbn. split_and!; [|done|unfold udp_read_size; lia].
  by exists k, k', la, cfg, c0.
Qed.

End Facts.

(** * A concrete connection

    The sockets of [Transport] and the connection of [Quic]; two datagrams do. *)

#[local] Instance sample_sockets : UdpSockets cut_socket := {|
  udp_bind a := if decide (a = "0.0.0.0:0"%string) then Some sample_socket else None;
  udp_connect _ k := Some k;
  udp_local_addr _ := Some {| ip := V4 [x7f; x00; x00; x01]; port := 40000 |}
|}.

#[local] Instance sample_quiche : QuicheConnect loopback recorder := {|
  quiche_connect _ _ _ _ := Some sample_conn
|}.

Definition server_addr : SocketAddr := {| ip := V4 [x0a; x00; x00; x01]; port := 9494 |}.

Definition small_transport : Transport :=
  {| tr_buffer_config := {| max_udp_read_size := 1200; max_udp_write_size := 1200;
       max_stream_read_size := 64; max_stream_send_size := 64; peer_conn_init_size := 1 |};
     tr_channel_config := ChannelConfig_default; tr_quiche_config := QuicheConfig_default;
     tr_timeout_config := TimeoutConfig_default |}.

Definition sample_connect :=
  connect (K:=cut_socket) (CFG:=recorder) small_transport server_addr [x01] sample_auth
    ([] : unlimited (list byte)) ([] : unlimited (list byte)) ([] : unlimited Packet) [Some [x07]]
    ([] : unlimited Packet).

Lemma connect_correct_witness :
  exists st, sample_connect.2 = Ok (Established st) /\ accepted sample_connect.1 = [sample_auth] /\
    conn_is_established (conn (st_proc st)) = true /\ 65535 <= st_udp_buffer st.
Proof.
  assert (exists st, sample_connect.2 = Ok (Established st)) as [st Hst] by (eexists; vm_compute; reflexivity).
  pose proof (connect_correct (C:=loopback) (K:=cut_socket) (TX:=unlimited Packet) (CFG:=recorder)
    (U:=unlimited (list byte)) (Q:=unlimited (list byte)) (S:=unlimited Packet) small_transport server_addr [x01] sample_auth [] [] []
    [Some [x07]] []) as H.
  change (connect _ _ _ _ _ _ _ _ _) with sample_connect in H.
  destruct sample_connect as [tx' r]. cbn [snd fst] in *. subst r. destruct H as [Hf [Ht Hb]].
  exists st. split_and!; [done|exact Ht|by destruct Hf as (? & ? & ? & ? & ? & _ & _ & _ & _ & _ & _ & He & _)|].
  etrans; [|exact Hb]. vm_compute. discriminate.
Defined.
