(* ===== verification/Entry.v ===== *)
(** The ways in: [Client::link] ([link/src/client.rs]) and [Server::serve_linker]
    ([link/src/server.rs]), from the configuration to the running tasks, and the [main]
    functions of the examples.

    What these make and start can fail in the caller, in the task started, or leave a handle
    with an error: a channel of no capacity and a ticker of no period are panics, as is an
    address that does not resolve. *)

From Stdlib Require Import ZArith Lia Strings.Byte.
From stdpp Require Import base functions list strings gmap.
From S2P Require Import Prelude Deku Protos Packets Channel Config Client Server Consuming.
From S2P Require Import Transport Connect.

(** * What start-up uses *)

(** [mpsc::channel(n)]: the sending half. *)
Class NewChannel (S : Type) := { channel : Z -> S }.

#[export] Instance bounded_new A : NewChannel (bounded A) := {|
  channel n := {| bd_items := []; bd_room := Z.to_nat n; bd_open := true |}
|}.
#[export] Instance unlimited_new A : NewChannel (unlimited A) := {| channel _ := [] |}.

Definition make_channel {S E} `{NewChannel S} (n : Z) : outcome E S :=
  has_capacity n ≫= fun _ => Ok (channel n).

(** [tokio::time::interval]: a period of zero is a panic. *)
Definition interval {E} (period : duration) : outcome E unit :=
  if period =? 0 then Panic else Ok tt.

(** A [Duration] has 64 bits of seconds; [*] is checked. *)
Definition duration_mul {E} (d : duration) (k : Z) : outcome E duration :=
  if d * k <? from_secs usize_bound then Ok (d * k) else Panic.

Definition expect {E A} (m : outcome E A) : outcome Empty_set A :=
  match m with Ok a => Ok a | _ => Panic end.

(** * The client *)

Section Client.
Context {R PT IT TX SX G : Type} `{TrySender PT Packet} `{!Sender IT Packet}.
Context `{!NewChannel PT, !NewChannel IT, !NewChannel TX, !NewChannel SX}.
Context `{!Message AuthRequest, !Message SubscribeRequest, !Message Heartbeat,
  !Message LinkError}.
Context (to_socket_addrs : string -> option (list SocketAddr)).

(** [Client]: the configuration, the counter of request ids with [request_tx], [signal_tx]. *)
Record Client : Type := mk_Client {
  cl_conf : LinkClientConfig;
  cl_api : api_state (TX:=TX);
  cl_signal_tx : option SX
}.

Definition Client_new (conf : LinkClientConfig) : Client := mk_Client conf (1, None) None.

(** What [link] starts: the peer, the tasks' state. The counter is shared with the client. *)
Record linked : Type := mk_linked {
  lk_master : PeerAddr;
  lk_backups : list PeerAddr;
  lk_tasks : consuming R PT IT G
}.

(** The consumer is made with the client, both senders set. The map of waiters starts empty; that
    there is memory for the entries it reserves is taken for granted. The link task makes the channel
    and the authentication packet of each connection: [itx] and [auth] stand for none. *)
Definition link (factory : Client -> G) (itx : IT) (auth : Packet) (self : Client)
    : outcome Empty_set linked :=
  let conf := cl_conf self in
  '(master, backups) ← expect (addr_resolve to_socket_addrs (addr conf) (backup_config conf));
  signal_tx ← make_channel (signal_chan_size (channel_config conf));
  request_tx ← make_channel (send_chan_size (channel_config conf));
  let self := mk_Client conf ((cl_api self).1, Some request_tx) (Some signal_tx) in
  let consumer := factory self in
  packet_process_tx ← make_channel (process_chan_size (channel_config conf));
  let client := set_id_gen (cl_api self).1 (client_init packet_process_tx itx auth) in
  Ok (mk_linked master backups (consuming_init client consumer)).

(** The link task makes two channels, starts [connect] and makes its ticker, for each
    connection; the sizes and the period are those of the configuration. *)
Definition first_setup (conf : LinkClientConfig) (c : connection R IT)
    : SM (client_state R PT IT) conn_error unit :=
  idle (idle_draws c) ≫= fun _ =>
  if cid_ok c then
    id ← draw_id;
    slift (has_capacity (send_chan_size (channel_config conf))) ≫= fun _ =>
    slift (has_capacity (recv_chan_size (channel_config conf))) ≫= fun _ =>
    let auth_packet := new_auth id (username conf) (conf_password conf) (conf_client_name conf) in
    act (Connect auth_packet) ≫= fun _ =>
    slift (interval (heartbeat_interval (healthy_config conf)))
  else mret tt.

(** The link task with the set-up of its connections: it panics at the first or never. *)
Definition link_task (conf : LinkClientConfig) (cs : list (connection R IT))
    (s : client_state R PT IT) : client_state R PT IT * outcome conn_error link_status :=
  match cs with
  | [] => client_link conf cs s
  | c :: _ =>
      match first_setup conf c s with
      | (s', Panic) => (s', Panic)
      | _ => client_link conf cs s
      end
  end.

(** The mains of the three example clients: how the link task ended is logged. *)
Inductive main_exit : Type := MainRunning | MainOk | MainErr | MainJoinErr.

Definition example_client_main (config : outcome config_error LinkClientConfig) (factory : Client -> G)
    (itx : IT) (auth : Packet) (cs : list (connection R IT)) : outcome Empty_set main_exit :=
  client_config ← expect config;
  l ← link factory itx auth (Client_new client_config);
  match (link_task client_config cs (cs_client (lk_tasks l))).2 with
  | Ok Running => Ok MainRunning
  | Ok Returned => Ok MainOk
  | Ok (Ended _) | Err _ => Ok MainErr
  | Panic => Ok MainJoinErr
  end.

End Client.

Arguments Client : clear implicits.
Arguments linked : clear implicits.

(** * The server *)

Section Server.
Context {K TX SX : Type} `{!NewChannel TX, !NewChannel SX}.
Context (to_socket_addrs : string -> option (list SocketAddr)) (bind : SocketAddr -> bool).

(** [key]: what [hmac::Key::generate] gave. The senders are set, the task is spawned with the
    address and the key. *)
Definition serve_linker (key : option K) (self : Server TX SX)
    : outcome Empty_set (Server TX SX * SocketAddr * K) :=
  let conf := srv_conf self in
  '(listen_addr, _) ← expect (addr_resolve to_socket_addrs (listen_addr conf) None);
  match key with
  | Some seed =>
      send_tx ← make_channel (send_chan_size (srv_channel_config conf));
      signal_tx ← make_channel (signal_chan_size (srv_channel_config conf));
      Ok (serve_linker_init send_tx signal_tx self, socket_addr listen_addr, seed)
  | None => Panic
  end.

(** The start of [listen_at]: the socket, the ticker; how it ends if it ends there. *)
Definition listen_start (conf : LinkServerConfig) (addr : SocketAddr) : option task_end :=
  if bind addr then
    match (d ← duration_mul (idle_interval (srv_timeout_config conf)) 10; interval d) : outcome unit unit with
    | Ok _ => None
    | _ => Some TaskPanicked
    end
  else Some TaskErr.

(** The start of [conn_mgmt_task]. *)
Definition mgmt_start (conf : LinkServerConfig) : option task_end :=
  match interval (heartbeat_timeout (srv_healthy_config conf)) : outcome unit unit with
  | Ok _ => None
  | _ => Some TaskPanicked
  end.

(** Whether the tasks started this way can give the listening loop this event. *)
Definition can_happen (conf : LinkServerConfig) (addr : SocketAddr) (e : serve_event) : Prop :=
  match e with
  | CtrlC => True
  | ListenTaskEnd t => from_option (eq t) True (listen_start conf addr)
  | MgmtTaskEnd t => from_option (eq t) (t = TaskOk) (mgmt_start conf)
  | AcceptConn _ => listen_start conf addr = None
  end.

(** The task [serve_linker] spawns. *)
Definition serve_task (conf : LinkServerConfig) (es : list serve_event)
    : SM serve_state serve_end unit :=
  slift (has_capacity (signal_chan_size (srv_channel_config conf))) ≫= fun _ =>
  slift (has_capacity (signal_chan_size (srv_channel_config conf))) ≫= fun _ =>
  serve_run conf es.

(** [main] of the example server, up to the end of the server's task. *)
Definition example_server_main (config : outcome config_error LinkServerConfig) (key : option K)
    (es : list serve_event) : outcome Empty_set main_exit :=
  server_config ← expect config;
  '(server, addr, seed) ← serve_linker key (Server_new server_config);
  match (serve_task server_config es []).2 with
  | Ok _ => Ok MainRunning
  | Err ServeOk => Ok MainOk
  | Err _ => Ok MainErr
  | Panic => Ok MainJoinErr
  end.

(** The set-up of the main loop of a connection: its ticker. *)
Definition main_setup (conf : LinkServerConfig) : outcome main_error unit :=
  interval (heartbeat_interval (srv_healthy_config conf)).

(** The two channels [accept_new_conn] makes and gives to the listening loop. *)
Definition accept_channels {IT RT : Type} `{!NewChannel IT, !NewChannel RT} (conf : LinkServerConfig)
    : outcome unit (IT * RT) :=
  response ← make_channel (recv_chan_size (srv_channel_config conf));
  request_tx ← make_channel (send_chan_size (srv_channel_config conf));
  Ok (request_tx, response).

End Server.
