(* ===== verification/EntryFacts.v ===== *)
(** Start-up ([Entry]): which configurations and environments start, what is running then, and
    where the others fail. *)

From Stdlib Require Import ZArith Lia Strings.Byte.
From stdpp Require Import base functions list strings gmap.
From S2P Require Import Prelude Deku Protos Packets Channel Config Client ClientFacts Server Consuming.
From S2P Require Import Packets Wire Transport Connect Entry.

Lemma make_channel_eq {S E} `{NewChannel S} n :
  make_channel (E:=E) n = (if decide (n = 0) then Panic else Ok (channel n)) :> outcome E S.
Proof. unfold make_channel, has_capacity. destruct (decide (n = 0)) as [->|Hn]; [done|]. by rewrite (proj2 (Z.eqb_neq n 0) Hn). Qed.

Lemma interval_eq {E} d : interval d = (if decide (d = 0) then Panic else Ok tt) :> outcome E unit.
Proof. unfold interval. destruct (decide (d = 0)) as [->|Hn]; [done|]. by rewrite (proj2 (Z.eqb_neq d 0) Hn). Qed.

(** * The client *)

Section ClientFacts.
Context {R PT IT TX SX G : Type} `{TrySender PT Packet} `{!Sender IT Packet}.
Context `{!NewChannel PT, !NewChannel IT, !NewChannel TX, !NewChannel SX}.
Context `{!Message AuthRequest, !Message SubscribeRequest, !Message Heartbeat,
  !Message LinkError}.
Context (to_socket_addrs : string -> option (list SocketAddr)).

Definition unresolved (address : string) (backup : option BackupConfig) : Prop :=
  forall l, addr_resolve to_socket_addrs address backup <> Ok l.

Lemma expect_panics {E A} (m : outcome E A) : expect m = Panic <-> forall a, m <> Ok a.
Proof. destruct m; cbn; split; try done. intros Ha. by destruct (Ha a). Qed.

Lemma first_setup_panics (conf : LinkClientConfig) (c : connection R IT) (s : client_state R PT IT) :
  cid_ok c = true ->
  (first_setup conf c s).2 = Panic <-> send_chan_size (channel_config conf) = 0 \/
    recv_chan_size (channel_config conf) = 0 \/ heartbeat_interval (healthy_config conf) = 0.
Proof.
  intros Hc. unfold first_setup, mbind, SM_bind. rewrite Hc.
  rewrite idle_eq. unfold draw_id, slift, act, smodify, sget, mbind, SM_bind.
  unfold has_capacity, interval.
  destruct (Z.eqb_spec (send_chan_size (channel_config conf)) 0), (Z.eqb_spec (recv_chan_size (channel_config conf)) 0),
    (Z.eqb_spec (heartbeat_interval (healthy_config conf)) 0); cbn; intuition congruence.
Qed.

(** Nothing is said to the consumer meanwhile. *)
Lemma first_setup_silent (conf : LinkClientConfig) (c : connection R IT) :
  keeps (fun s s' : client_state R PT IT => omap consumer_call_of (acts s') = omap consumer_call_of (acts s))
    (first_setup conf c).
Proof.
  set (I := fun s s' : client_state R PT IT => _).
  assert (PreOrder I) as HI by (split; [by intros s|]; intros s1 s2 s3; unfold I; congruence).
  assert (forall s a, consumer_call_of a = None -> I s (add_act a s)) as Hact.
  { intros s a Ha. unfold I. cbn. rewrite omap_app. cbn. by rewrite Ha, app_nil_r. }
  assert (forall E, keeps I (draw_id (E:=E))) as Hdraw by (intros E s; by apply (Hact (set_id_gen _ s))).
  unfold first_setup. apply keeps_bind; [done| |].
  { apply keeps_for; [done|]. intros _. apply keeps_bind; [done|apply Hdraw|intros _; by apply keeps_ret]. }
  intros _. destruct (cid_ok c); [|by apply keeps_ret]. apply keeps_bind; [done|apply Hdraw|]. intros id.
  do 2 (apply keeps_bind; [done|by apply keeps_lift|intros _]). cbn zeta.
  apply keeps_bind; [done|apply keeps_modify; intros s; by apply Hact|intros _]. by apply keeps_lift.
Qed.

Lemma link_task_started (conf : LinkClientConfig) cs (s : client_state R PT IT) :
  send_chan_size (channel_config conf) <> 0 -> recv_chan_size (channel_config conf) <> 0 ->
  heartbeat_interval (healthy_config conf) <> 0 -> link_task conf cs s = client_link conf cs s.
Proof.
  intros Hs Hr Hh. unfold link_task. destruct cs as [|c cs]; [done|].
  destruct (first_setup conf c s) as [s' [|e|]] eqn:E; try done. exfalso.
  destruct (cid_ok c) eqn:Ec.
  - assert ((first_setup conf c s).2 = Panic) as Hp by by rewrite E.
    apply first_setup_panics in Hp; [|done]. tauto.
  - revert E. unfold first_setup, mbind, SM_bind. rewrite Ec, idle_eq. done.
Qed.

(** C27. Starting a client. [link] panics, in its caller, exactly when the address or the backup
    address does not resolve, or a channel it makes would have no capacity. Otherwise the
    consumer is made with a client whose calls reach the link task, both tasks run, and the
    link task is the one of [client_link], unless the channel of received packets has no
    capacity or the heartbeats no interval: then it panics at its first connection, and the
    consumer is told nothing. *)
Theorem client_start_up (factory : @Client TX SX -> G) (itx : IT) (auth : Packet)
    (conf : LinkClientConfig) :
  let chans := channel_config conf in
  let start := link (R:=R) (PT:=PT) to_socket_addrs factory itx auth (Client_new conf) in
  (start = Panic <-> unresolved (addr conf) (backup_config conf) \/ signal_chan_size chans = 0 \/
    send_chan_size chans = 0 \/ process_chan_size chans = 0) /\
  forall l, start = Ok l ->
    addr_resolve to_socket_addrs (addr conf) (backup_config conf) = Ok (lk_master l, lk_backups l) /\
    (exists self, cs_user (lk_tasks l) = factory self /\ cl_conf self = conf /\
       (cl_api self).2 = Some (channel (send_chan_size chans)) /\
       cl_signal_tx self = Some (channel (signal_chan_size chans))) /\
    let s := cs_client (lk_tasks l) in
    cs_alive (lk_tasks l) = true /\ packet_process_tx s = channel (process_chan_size chans) /\
    forall cs,
      if decide (recv_chan_size chans = 0 \/ heartbeat_interval (healthy_config conf) = 0)
      then forall c cs', cs = c :: cs' -> cid_ok c = true ->
        let r := link_task conf cs s in
        r.2 = Panic /\ omap consumer_call_of (acts r.1) = []
      else link_task conf cs s = client_link conf cs s.
Proof.
  intros chans start. unfold start, link. cbn [cl_conf Client_new cl_api fst].
  pose proof (expect_panics (addr_resolve to_socket_addrs (addr conf) (backup_config conf))) as Hres.
  fold (unresolved (addr conf) (backup_config conf)) in Hres.
  destruct (addr_resolve to_socket_addrs (addr conf) (backup_config conf)) as [[master backups]|e|] eqn:Ea.
  2, 3: cbn; split; [split; [intros _; left; by apply Hres|done]|done].
  assert (~ unresolved (addr conf) (backup_config conf)) as Hn by (intros Hu; by apply (Hu (master, backups))).
  cbn [expect mbind outcome_bind]. fold chans. rewrite !make_channel_eq.
  destruct (decide (signal_chan_size chans = 0)), (decide (send_chan_size chans = 0)),
    (decide (process_chan_size chans = 0)); cbn [mbind outcome_bind]; (split; [intuition congruence|]);
    intros l E; simplify_eq.
  cbn [lk_master lk_backups lk_tasks consuming_init cs_client cs_user cs_alive].
  split_and!; [done|by eexists|done|done|]. intros cs. case_decide as Hbad.
  - intros c cs' -> Hc. unfold link_task. 
    match goal with |- context [first_setup conf c ?s] => pose proof (first_setup_silent conf c s) as Hs;
      assert ((first_setup conf c s).2 = Panic) as Hp by (apply first_setup_panics; tauto) end.
    destruct (first_setup conf c _) as [s' r]. cbn in Hp. subst r. by split.
  - apply link_task_started; tauto.
Qed.

End ClientFacts.

(** * The server *)

Section ServerFacts.
Context {K TX SX IT RT : Type} `{!NewChannel TX, !NewChannel SX, !NewChannel IT, !NewChannel RT}.
Context (to_socket_addrs : string -> option (list SocketAddr)) (bind : SocketAddr -> bool).

(** How the listening loop may end, given the events the tasks can give it. *)
Definition ends_as (conf : LinkServerConfig) (a : SocketAddr) (s : serve_state) (e : serve_end) : Prop :=
  match e with
  | ServeOk => True
  | ServeListenFailed => listen_start bind conf a = None \/ (listen_start bind conf a = Some TaskErr /\ s = [])
  | ServeListenPanicked => listen_start bind conf a = None \/ (listen_start bind conf a = Some TaskPanicked /\ s = [])
  | ServeMgmtFailed => False
  | ServeMgmtPanicked => heartbeat_timeout (srv_healthy_config conf) = 0
  end.

(** The loop goes on only by accepting, and accepts only when the socket's task runs. *)
Lemma serve_run_ends (conf : LinkServerConfig) a es s : Forall (can_happen bind conf a) es ->
  (listen_start bind conf a <> None -> s = []) -> signal_chan_size (srv_channel_config conf) <> 0 ->
  let r := serve_run conf es s in
  (listen_start bind conf a <> None -> r.1 = []) /\
  match r.2 with
  | Ok _ => True
  | Err e => ends_as conf a r.1 e
  | Panic => process_chan_size (srv_channel_config conf) = 0
  end.
Proof.
  intros Hes Hl Hsig. revert s Hl. induction Hes as [|e es He Hes IH]; intros s Hl; [done|].
  unfold serve_run. cbn [sfor]. unfold mbind, SM_bind. destruct e as [|t|t|peer]; cbn [serve_step].
  - done.
  - cbn in He. destruct t; cbn; (split; [done|]); try done; destruct (listen_start bind conf a) as [t'|]; cbn in He;
      subst; auto.
  - cbn in He. unfold mgmt_start in He. rewrite interval_eq in He.
    destruct (decide (heartbeat_timeout (srv_healthy_config conf) = 0)); cbn in He; subst t; cbn; by split.
  - unfold conn_channels_ok. rewrite (proj2 (Z.eqb_neq _ _) Hsig).
    destruct (Z.eqb_spec (process_chan_size (srv_channel_config conf)) 0); cbn; [by split|].
    apply IH. intros Hn. by destruct (Hn He).
Qed.

(** C26. Starting a server. [serve_linker] panics, in its caller, exactly when the address does
    not resolve, the key cannot be drawn, or a channel it makes would have no capacity.
    Otherwise the server has its two senders, and the task started listens on the address
    resolved: it panics only for a channel of received packets of no capacity; it never
    fails through the registry, which panics only for a heartbeat time-out of zero; and when
    the socket cannot be bound, or the clean-up has no interval, no connection is accepted.
    The channels of a connection are a panic exactly when that of received packets has no
    capacity, its main loop exactly when its heartbeat has no interval. *)
Theorem server_start_up (key : option K) (conf : LinkServerConfig) :
  let chans := srv_channel_config conf in
  let start := serve_linker (TX:=TX) (SX:=SX) to_socket_addrs key (Server_new conf) in
  (start = Panic <-> unresolved to_socket_addrs (listen_addr conf) None \/ key = None \/
    send_chan_size chans = 0 \/ signal_chan_size chans = 0) /\
  forall self a seed, start = Ok (self, a, seed) ->
    (exists first rest, addr_resolve to_socket_addrs (listen_addr conf) None = Ok (first, rest) /\
       socket_addr first = a) /\
    key = Some seed /\ srv_conf self = conf /\
    send_tx self = Some (channel (send_chan_size chans)) /\
    signal_tx self = Some (channel (signal_chan_size chans)) /\
    (accept_channels (IT:=IT) (RT:=RT) conf = Panic <-> recv_chan_size chans = 0) /\
    (main_setup conf = Panic <-> heartbeat_interval (srv_healthy_config conf) = 0) /\
    forall es, Forall (can_happen bind conf a) es ->
      let r := serve_task conf es [] in
      (listen_start bind conf a <> None -> r.1 = []) /\
      match r.2 with
      | Ok _ => True
      | Err e => ends_as conf a r.1 e
      | Panic => process_chan_size chans = 0
      end.
Proof.
  intros chans start. unfold start, serve_linker. cbn [srv_conf Server_new].
  pose proof (expect_panics (addr_resolve to_socket_addrs (listen_addr conf) None)) as Hres.
  fold (unresolved to_socket_addrs (listen_addr conf) None) in Hres.
  destruct (addr_resolve to_socket_addrs (listen_addr conf) None) as [[first rest]|e|] eqn:Ea.
  2, 3: cbn; split; [split; [intros _; left; by apply Hres|done]|done].
  assert (~ unresolved to_socket_addrs (listen_addr conf) None) as Hn by (intros Hu; by apply (Hu (first, rest))).
  cbn [expect mbind outcome_bind]. fold chans. rewrite !make_channel_eq.
  destruct key as [k|]; [|split; [intuition congruence|done]].
  destruct (decide (send_chan_size chans = 0)), (decide (signal_chan_size chans = 0)) as [|Hsig];
    cbn [mbind outcome_bind]; (split; [intuition congruence|]); intros self a seed E; simplify_eq.
  split_and!; [by eexists _, _|done..| | |].
  { unfold accept_channels. rewrite !make_channel_eq. fold chans.
    destruct (decide (recv_chan_size chans = 0)), (decide (send_chan_size chans = 0)); cbn; by split. }
  { unfold main_setup. rewrite interval_eq. by case_decide. }
  intros es Hes. unfold serve_task, slift, mbind, SM_bind, has_capacity.
  fold chans. rewrite (proj2 (Z.eqb_neq _ _) Hsig). by apply serve_run_ends.
Qed.

End ServerFacts.

(** * Concrete starts *)

#[local] Instance en_auth : Message AuthRequest := countable_message AuthRequest.
#[local] Instance en_subscribe : Message SubscribeRequest := countable_message SubscribeRequest.
#[local] Instance en_heartbeat : Message Heartbeat := countable_message Heartbeat.
#[local] Instance en_link_error : Message LinkError := countable_message LinkError.

Definition localhost : SocketAddr := {| ip := V4 [x7f; x00; x00; x01]; port := 9494 |}.
Definition hosts (name : string) : option (list SocketAddr) :=
  if String.eqb name "127.0.0.1:9494" then Some [localhost] else None.

(** A client whose heartbeats have no interval: everything starts, and the link task panics. *)
Definition restless : LinkClientConfig :=
  let c := sample_conf 0 in
  {| addr := addr c; username := username c; conf_password := conf_password c;
     conf_client_name := conf_client_name c; subscribes := subscribes c; backup_config := None;
     healthy_config := {| heartbeat_interval := 0; heartbeat_timeout := from_secs 3; auth_timeout := from_secs 10;
       conf_retry_times := 0; retry_interval := from_secs 3 |};
     channel_config := channel_config c; buffer_config := buffer_config c;
     quiche_config := quiche_config c; timeout_config := timeout_config c |}.

Lemma client_start_up_witness :
  match link (R:=nat) (PT:=bounded Packet) (IT:=transport_chan) (TX:=unlimited (Packet * option nat))
    (SX:=unlimited string) hosts (fun _ => tt) [] sample_request (Client_new restless) with
  | Ok l => socket_addr (lk_master l) = localhost /\
      (link_task restless [quiet_conn] (cs_client (lk_tasks l))).2 = Panic
  | _ => False
  end.
Proof.
  destruct (client_start_up (R:=nat) (PT:=bounded Packet) (IT:=transport_chan) (TX:=unlimited (Packet * option nat))
    (SX:=unlimited string) hosts (fun _ => tt) [] sample_request restless) as [_ Hl].
  destruct (link _ _ _ _ _) as [l|e|] eqn:E; [|discriminate E..].
  destruct (Hl l eq_refl) as (Hr & _ & _ & _ & Ht). split.
  - injection Hr as <-. reflexivity.
  - specialize (Ht [quiet_conn]). rewrite decide_True in Ht by (right; reflexivity).
    destruct (Ht quiet_conn [] eq_refl eq_refl) as [Hp _]. exact Hp.
Defined.

(** A server whose heartbeat time-out is zero: its registry panics, and its task ends with it. *)
Definition timeless : LinkServerConfig :=
  {| listen_addr := "127.0.0.1:9494";
     srv_healthy_config := {| heartbeat_interval := from_millis 500; heartbeat_timeout := 0;
       auth_timeout := from_secs 10; conf_retry_times := 0; retry_interval := from_secs 3 |};
     srv_channel_config := ChannelConfig_default; srv_buffer_config := BufferConfig_default;
     srv_quiche_config := QuicheConfig_default; srv_timeout_config := TimeoutConfig_default |}.

Lemma server_start_up_witness :
  exists self, serve_linker (K:=nat) (TX:=unlimited Packet) (SX:=unlimited ServerSignal) hosts (Some 7%nat)
      (Server_new timeless) = Ok (self, localhost, 7%nat) /\
    let r := serve_task timeless [AcceptConn "1.2.3.4:5"; MgmtTaskEnd TaskPanicked] [] in
    r = (["1.2.3.4:5"], Err ServeMgmtPanicked) /\ ends_as (fun _ => true) timeless localhost r.1 ServeMgmtPanicked.
Proof.
  eexists. split; [reflexivity|]. cbn zeta. split; [reflexivity|].
  destruct (server_start_up (K:=nat) (TX:=unlimited Packet) (SX:=unlimited ServerSignal) (IT:=unlimited Packet)
    (RT:=unlimited Packet) hosts (fun _ => true)
    (Some 7%nat) timeless) as [_ Hs].
  destruct (Hs _ localhost 7%nat eq_refl) as (_ & _ & _ & _ & _ & _ & _ & He).
  destruct (He [AcceptConn "1.2.3.4:5"; MgmtTaskEnd TaskPanicked]) as [_ Hends].
  - repeat (apply List.Forall_cons; [reflexivity|]). apply List.Forall_nil.
  - exact Hends.
Defined.
