(* ===== verification/Tasks.v ===== *)
(** [Transport::connect] ([link/src/transport/transport.rs], from line 138), after the
    handshake: the five tasks of a connection, the bounded channels between them, and the
    loop ['data] of [link/src/client.rs] that feeds them and is fed by them.

    What the tasks say to each other is the subject of the files [Link], [Process],
    [Transport] and [Client]; here is when they say it. A turn of a task is started by a
    message it takes or by an event of its own (the socket, a ticker, the user), and comes
    down to the messages it sends, one after the other, each waiting for room in its
    channel, and to the error that may cut it short. A task ends on an error, when it sends
    to a channel whose receiver is gone, and when it takes from an empty channel whose
    senders are gone. *)

From Stdlib Require Import ZArith Lia.
From stdpp Require Import base functions list.
From S2P Require Import Prelude Config.

(** The tasks, and the loop ['data] of the client. *)
Inductive task : Type := UdpRead | Quic | LinkRead | LinkWrite | UdpWrite | Conn.

Inductive chan : Type :=
| UdpDataRecv | QuicDataRecv | Responses | Requests | QuicDataSend | UdpDataSend.

#[export] Instance task_eq_dec : EqDecision task.
Proof. solve_decision. Defined.
#[export] Instance chan_eq_dec : EqDecision chan.
Proof. solve_decision. Defined.

(** Each channel has one sender and one receiver. The copy of the request channel that
    [connect] keeps goes with the loop, which aborts it when it ends. *)
Definition sender_of (c : chan) : task :=
  match c with
  | UdpDataRecv => UdpRead
  | QuicDataRecv => Quic
  | Responses => LinkRead
  | Requests => Conn
  | QuicDataSend => LinkWrite
  | UdpDataSend => Quic
  end.

Definition receiver_of (c : chan) : task :=
  match c with
  | UdpDataRecv => Quic
  | QuicDataRecv => LinkRead
  | Responses => Conn
  | Requests => LinkWrite
  | QuicDataSend => Quic
  | UdpDataSend => UdpWrite
  end.

(** What a turn does, seen from the channels: a message sent ([fatal]: the task gives up if
    the receiver is gone; otherwise it is logged), or an error. *)
Inductive op : Type := Push (c : chan) (fatal : bool) | Crash.

Inductive trigger : Type := Got (c : chan) | Own.

(** What a turn of each task may do. *)
Definition allowed (t : task) (by_ : trigger) (o : op) : bool :=
  match o with
  | Crash => true
  | Push c fatal =>
      match t, by_, c with
      | UdpRead, Own, UdpDataRecv => fatal
      | Quic, Got UdpDataRecv, QuicDataRecv => fatal
      | Quic, _, UdpDataSend => fatal
      | LinkRead, Got QuicDataRecv, Responses => fatal
      | LinkWrite, Got Requests, QuicDataSend => fatal
      (* the subscriptions *)
      | Conn, Got Responses, Requests => fatal
      (* the heartbeats; a packet of the user is only logged *)
      | Conn, Own, Requests => true
      | _, _, _ => false
      end
  end.

Inductive phase : Type :=
| Idle
(** in a turn, with this left to do *)
| Busy (todo : list op)
| Done.

Record tasks : Type := mk_tasks {
  phases : task -> phase;
  pending : chan -> nat
}.

(** The sizes of the channels. *)
Definition chan_size (cc : ChannelConfig) (c : chan) : nat :=
  Z.to_nat (match c with
            | UdpDataRecv | QuicDataRecv | Responses => recv_chan_size cc
            | Requests | QuicDataSend | UdpDataSend => send_chan_size cc
            end).

Section Tasks.
Context (cc : ChannelConfig).

Inductive tasks_event : Type :=
(** the receiver of a channel takes a message and starts a turn *)
| Take (c : chan) (todo : list op)
(** the next thing a task has to do in its turn *)
| Go (t : task)
(** the receiver of a channel finds it closed *)
| Hangup (c : chan)
(** an event of the task's own starts a turn *)
| OwnTurn (t : task) (todo : list op)
(** the client is asked to stop *)
| Stop.

Definition set_phase (t : task) (p : phase) (s : tasks) : tasks :=
  mk_tasks (<[t := p]> (phases s)) (pending s).

Definition set_pending (c : chan) (n : nat) (s : tasks) : tasks :=
  mk_tasks (phases s) (<[c := n]> (pending s)).

(** [None]: the task waits, or is not there to do it. *)
Definition go (t : task) (s : tasks) : option tasks :=
  match phases s t with
  | Busy [] => Some (set_phase t Idle s)
  | Busy (Crash :: _) => Some (set_phase t Done s)
  | Busy (Push c fatal :: todo) =>
      match phases s (receiver_of c) with
      | Done => Some (set_phase t (if fatal then Done else Busy todo) s)
      | _ =>
          if decide (pending s c < chan_size cc c)%nat
          then Some (set_phase t (Busy todo) (set_pending c (S (pending s c)) s))
          else None
      end
  | _ => None
  end.

Definition tasks_next (e : tasks_event) (s : tasks) : option tasks :=
  match e with
  | Take c todo =>
      match phases s (receiver_of c), pending s c with
      | Idle, S n =>
          if forallb (allowed (receiver_of c) (Got c)) todo
          then Some (set_phase (receiver_of c) (Busy todo) (set_pending c n s)) else None
      | _, _ => None
      end
  | Go t => go t s
  | Hangup c =>
      match phases s (receiver_of c), pending s c, phases s (sender_of c) with
      | Idle, O, Done => Some (set_phase (receiver_of c) Done s)
      | _, _, _ => None
      end
  | OwnTurn t todo =>
      match phases s t with
      | Idle => if forallb (allowed t Own) todo then Some (set_phase t (Busy todo) s) else None
      | _ => None
      end
  | Stop => match phases s Conn with Idle => Some (set_phase Conn Done s) | _ => None end
  end.

Fixpoint tasks_run (es : list tasks_event) (s : tasks) : option tasks :=
  match es with
  | [] => Some s
  | e :: es => tasks_next e s ≫= tasks_run es
  end.

(** The authentication packet is in its channel when the tasks start. *)
Definition tasks_init : tasks :=
  mk_tasks (fun _ => Idle) (fun c => match c with Requests => 1%nat | _ => O end).

(** Work left over from what came from outside: the rest. *)
Definition internal (e : tasks_event) : bool :=
  match e with Take _ _ | Go _ | Hangup _ => true | _ => false end.

Definition works (s s' : tasks) : Prop := exists e, internal e = true /\ tasks_next e s = Some s'.

Definition at_rest (s : tasks) : Prop := forall e, internal e = true -> tasks_next e s = None.

(** Each of four tasks waits for room in the channel to the next. *)
Definition waits (t : task) (c : chan) (s : tasks) : Prop :=
  (chan_size cc c <= pending s c)%nat /\ exists fatal todo, phases s t = Busy (Push c fatal :: todo).

Definition deadlocked (s : tasks) : Prop :=
  waits Conn Requests s /\ waits LinkWrite QuicDataSend s /\ waits Quic QuicDataRecv s /\
  waits LinkRead Responses s.

End Tasks.
