(* ===== verification/TasksFacts.v ===== *)
(** The tasks of a connection come to rest: whatever is under way, they settle without
    outside events, and then either all run idle, or all but perhaps one have ended, or
    they are in the one deadlock their channels allow. *)

From Stdlib Require Import ZArith Lia Strings.Byte.
From stdpp Require Import base functions list relations.
From S2P Require Import Prelude Channel Quic Process Config Tasks.

(** * A well-founded order on lists of numbers of one length *)

Fixpoint lexlt (l k : list nat) : Prop :=
  match l, k with
  | x :: l, y :: k => (x < y)%nat /\ length l = length k \/ x = y /\ lexlt l k
  | _, _ => False
  end.

Lemma lexlt_length l k : lexlt l k -> length l = length k.
Proof.
  revert k. induction l as [|x l IH]; intros [|y k]; [intros []..|]. cbn [lexlt length].
  intros [[_ ->]|[_ Hl]]; [reflexivity|]. f_equal. by apply IH.
Qed.

Lemma lexlt_acc n l : length l = n -> Acc lexlt l.
Proof.
  revert l. induction n as [|n IHn]; intros [|x l] Hn; try discriminate Hn.
  { constructor. by intros [|] []. }
  injection Hn as Hn. revert l Hn. induction x as [x IHx] using lt_wf_ind. intros l Hn.
  induction (IHn l Hn) as [l _ IHl]. constructor. intros [|y k]; [intros []|]. cbn [lexlt].
  intros [[Hlt Hlen]|[-> Hlt]].
  - apply IHx; [assumption|]. congruence.
  - apply IHl; [assumption|]. apply lexlt_length in Hlt. congruence.
Qed.

Lemma lexlt_le l k : Forall2 le l k -> forall x y, (x < y)%nat -> lexlt (l ++ [x]) (k ++ [y]).
Proof.
  induction 1 as [|a b l k Hab Hl IH]; intros x y Hxy; cbn; [by left|].
  destruct (Nat.eq_dec a b) as [->|]; [right; split; [done|by apply IH]|].
  left. split; [lia|]. rewrite !length_app. cbn. f_equal. by eapply Forall2_length.
Qed.

(** The messages of the channels. *)
#[local] Abbreviation chunk := (Push QuicDataRecv true).
#[local] Abbreviation answer := (Push Responses true).
#[local] Abbreviation bytes := (Push QuicDataSend true).
#[local] Abbreviation request := (Push Requests true).
#[local] Abbreviation datagram := (Push UdpDataRecv true).

Section Facts.
Context (cc : ChannelConfig).

(** * The tasks settle *)

Fixpoint pushes (c : chan) (todo : list op) : nat :=
  match todo with
  | [] => 0
  | Push c' _ :: todo => (if decide (c' = c) then 1 else 0) + pushes c todo
  | Crash :: todo => pushes c todo
  end.

(** The messages in a channel, and those its sender is about to put there. *)
Definition msgs (c : chan) (s : tasks) : nat :=
  pending s c + match phases s (sender_of c) with Busy todo => pushes c todo | _ => O end.

Definition phase_weight (p : phase) : nat :=
  match p with Done => 0 | Idle => 1 | Busy todo => 2 + length todo end.

Definition weight (s : tasks) : nat :=
  sum_list_with (fun t => phase_weight (phases s t)) [UdpRead; Quic; LinkRead; LinkWrite; UdpWrite; Conn].

(** Messages make messages further down this list only. *)
Definition downstream : list chan :=
  [UdpDataRecv; QuicDataRecv; Responses; Requests; QuicDataSend; UdpDataSend].

Definition measure (s : tasks) : list nat := map (fun c => msgs c s) downstream ++ [weight s].

Lemma weight_set t p s : (phase_weight p < phase_weight (phases s t))%nat ->
  (weight (set_phase t p s) < weight s)%nat.
Proof.
  unfold weight, set_phase. cbn [sum_list_with phases]. intros Hp.
  destruct t; rewrite fn_lookup_insert, !fn_lookup_insert_ne by done; lia.
Qed.

Lemma measure_lighter s s' : (forall c, msgs c s' <= msgs c s)%nat -> (weight s' < weight s)%nat ->
  lexlt (measure s') (measure s).
Proof. intros Hm Hw. apply lexlt_le; [|done]. unfold downstream. cbn. by repeat constructor. Qed.

Lemma pushes_cons c o todo : (pushes c todo <= pushes c (o :: todo))%nat.
Proof. destruct o; cbn; lia. Qed.

(** A phase that sends less. *)
Lemma msgs_set_phase c t p s : (forall c', sender_of c' = t ->
    match p with Busy todo => pushes c' todo | _ => O end <=
    match phases s t with Busy todo => pushes c' todo | _ => O end)%nat ->
  (msgs c (set_phase t p s) <= msgs c s)%nat.
Proof.
  intros Hp. unfold msgs, set_phase. cbn [phases pending].
  destruct (decide (t = sender_of c)) as [->|Hne].
  - rewrite fn_lookup_insert. specialize (Hp c eq_refl). lia.
  - by rewrite fn_lookup_insert_ne.
Qed.

(** A turn sends to the channels of its task. *)
Definition own_op (t : task) (o : op) : Prop :=
  match o with Push c _ => sender_of c = t | Crash => True end.

Definition well_formed (s : tasks) : Prop :=
  forall t todo, phases s t = Busy todo -> Forall (own_op t) todo.

Lemma allowed_own t tr todo : forallb (allowed t tr) todo = true -> Forall (own_op t) todo.
Proof.
  intros Ha. rewrite forallb_forall in Ha. apply Forall_forall. intros [c fatal|] Hin; [|done].
  apply list_elem_of_In in Hin. specialize (Ha _ Hin). cbn in *.
  by destruct t, tr as [c'|], c; try destruct c'.
Qed.

Lemma well_formed_phase t p s : well_formed s -> (forall todo, p = Busy todo -> Forall (own_op t) todo) ->
  well_formed (set_phase t p s).
Proof.
  intros Hs Hp t' todo. unfold set_phase. cbn [phases].
  destruct (decide (t = t')) as [<-|Hne]; [rewrite fn_lookup_insert; apply Hp|].
  rewrite fn_lookup_insert_ne by done. apply Hs.
Qed.

Lemma go_well_formed t s s' : well_formed s -> go cc t s = Some s' -> well_formed s'.
Proof.
  intros Hs. unfold go. destruct (phases s t) as [|[|[c fatal|] todo]|] eqn:Et; try discriminate.
  - intros [= <-]. by apply well_formed_phase.
  - pose proof (Hs _ _ Et) as Hop. apply Forall_cons in Hop as [_ Ht].
    assert (well_formed (set_phase t (if fatal then Done else Busy todo) s)) as Hgone
      by (apply well_formed_phase; [done|]; intros ? E; destruct fatal; by simplify_eq).
    assert (well_formed (set_phase t (Busy todo) (set_pending c (S (pending s c)) s))) as Hput
      by (apply well_formed_phase; [done|]; intros ? E; by simplify_eq).
    destruct (phases s (receiver_of c)); try case_decide; intros; by simplify_eq.
  - intros [= <-]. by apply well_formed_phase.
Qed.

Lemma next_well_formed e s s' : well_formed s -> tasks_next cc e s = Some s' -> well_formed s'.
Proof.
  intros Hs. destruct e as [c todo|t|c|t todo|]; cbn [tasks_next].
  - destruct (phases s (receiver_of c)), (pending s c); try done.
    destruct (forallb _ todo) eqn:Ea; [|done]. intros [= <-]. apply well_formed_phase; [done|].
    intros ? [= <-]. by eapply allowed_own.
  - by apply go_well_formed.
  - destruct (phases s (receiver_of c)), (pending s c), (phases s (sender_of c)); try done.
    intros [= <-]. by apply well_formed_phase.
  - destruct (phases s t); try done. destruct (forallb _ todo) eqn:Ea; [|done].
    intros [= <-]. apply well_formed_phase; [done|]. intros ? [= <-]. by eapply allowed_own.
  - destruct (phases s Conn); try done. intros [= <-]. by apply well_formed_phase.
Qed.

Lemma run_well_formed es s s' : well_formed s -> tasks_run cc es s = Some s' -> well_formed s'.
Proof.
  revert s. induction es as [|e es IH]; intros s Hs; cbn [tasks_run]; [by intros [= <-]|].
  destruct (tasks_next cc e s) as [s1|] eqn:E; [|done]. apply IH. by eapply next_well_formed.
Qed.

Lemma init_well_formed : well_formed tasks_init.
Proof. done. Qed.

Lemma go_measure t s s' : well_formed s -> go cc t s = Some s' -> lexlt (measure s') (measure s).
Proof.
  intros Hwf. unfold go. destruct (phases s t) as [|[|[c fatal|] todo]|] eqn:Et; try discriminate.
  - intros [= <-]. apply measure_lighter; [|apply weight_set; rewrite Et; cbn; lia].
    intros c. apply msgs_set_phase. lia.
  - assert (lexlt (measure (set_phase t (if fatal then Done else Busy todo) s)) (measure s)) as Hgone.
    { apply measure_lighter; [|apply weight_set; rewrite Et; destruct fatal; cbn; lia].
      intros c0. apply msgs_set_phase. intros c' _. rewrite Et. destruct fatal; cbn; lia. }
    assert (lexlt (measure (set_phase t (Busy todo) (set_pending c (S (pending s c)) s))) (measure s)) as Hput.
    { apply measure_lighter; [|apply (weight_set t (Busy todo) (set_pending c _ s)); cbn [phases set_pending]; rewrite Et; cbn; lia].
      pose proof (Hwf _ _ Et) as Hop. apply Forall_cons in Hop as [Hc _]. cbn in Hc. intros c'. unfold msgs, set_phase, set_pending.
      cbn [phases pending]. destruct (decide (c = c')) as [<-|Hne].
      - rewrite fn_lookup_insert, Hc, fn_lookup_insert, Et. cbn. rewrite decide_True by done. lia.
      - rewrite fn_lookup_insert_ne by done. destruct (decide (sender_of c' = t)) as [->|Hne'].
        + rewrite fn_lookup_insert, Et. cbn. lia.
        + by rewrite fn_lookup_insert_ne. }
    destruct (phases s (receiver_of c)); try case_decide; intros; by simplify_eq.
  - intros [= <-]. apply measure_lighter; [|apply weight_set; rewrite Et; cbn; lia].
    intros c. apply msgs_set_phase. lia.
Qed.

Lemma lexlt_app l k l' k' : length l = length k -> lexlt l k -> length l' = length k' ->
  lexlt (l ++ l') (k ++ k').
Proof.
  revert k. induction l as [|x l IH]; intros [|y k] Hlen Hl Hlen'; try done. cbn in *.
  destruct Hl as [[Hxy Hk]|[-> Hl]]; [left|right].
  - split; [done|]. rewrite !length_app. congruence.
  - split; [done|]. apply IH; [congruence|done..].
Qed.

(** Taking a message: fewer in its channel, more only downstream. *)
Lemma take_measure c todo n s : phases s (receiver_of c) = Idle -> pending s c = S n ->
  forallb (allowed (receiver_of c) (Got c)) todo = true ->
  lexlt (measure (set_phase (receiver_of c) (Busy todo) (set_pending c n s))) (measure s).
Proof.
  intros Hi Hp Ha. assert (forall c', (forall fatal, allowed (receiver_of c) (Got c) (Push c' fatal) = false) ->
    pushes c' todo = O) as Hno.
  { intros c' Hc'. rewrite forallb_forall in Ha. clear -Ha Hc'. induction todo as [|[c0 fatal|] todo IH]; cbn; [done| |].
    - rewrite IH by (intros; apply Ha; by right). case_decide; [subst|done].
      specialize (Ha _ (or_introl eq_refl)). by rewrite Hc' in Ha.
    - apply IH. intros; apply Ha; by right. }
  set (s' := set_phase _ _ _).
  assert (forall c', (forall fatal, allowed (receiver_of c) (Got c) (Push c' fatal) = false) ->
    msgs c' s' = msgs c' (set_pending c n s)) as Hm.
  { intros c' Hc'. unfold msgs, s', set_phase. cbn [phases pending set_pending].
    destruct (decide (receiver_of c = sender_of c')) as [E|Hne].
    - rewrite <- E, (fn_lookup_insert (phases s)), Hno, Hi by done. lia.
    - by rewrite (fn_lookup_insert_ne (phases s)). }
  assert (msgs c (set_pending c n s) < msgs c s)%nat as Hlt.
  { unfold msgs, set_pending. cbn [phases pending]. rewrite fn_lookup_insert, Hp. lia. }
  assert (forall c', c' <> c -> msgs c' (set_pending c n s) = msgs c' s) as Heq.
  { intros c' Hne. unfold msgs, set_pending. cbn [phases pending]. by rewrite fn_lookup_insert_ne. }
  clearbody s'. unfold measure. apply lexlt_app; [done| |done]. unfold downstream. cbn [map lexlt].
  destruct c; repeat (right; split; [by rewrite Hm, Heq|]); left; (split; [by rewrite Hm|done]).
Qed.

Lemma works_measure s s' : well_formed s -> works cc s s' -> lexlt (measure s') (measure s).
Proof.
  intros Hwf (e & He & Hn). destruct e as [c todo|t|c|t todo|]; try discriminate He; cbn [tasks_next] in Hn.
  - destruct (phases s (receiver_of c)) eqn:Ep; try done. destruct (pending s c) eqn:Eq; [done|].
    destruct (forallb _ todo) eqn:Ea; [|done]. injection Hn as <-. by apply take_measure.
  - by eapply go_measure.
  - destruct (phases s (receiver_of c)) eqn:Ep; try done.
    destruct (pending s c), (phases s (sender_of c)); try done. injection Hn as <-.
    apply measure_lighter; [|apply weight_set; rewrite Ep; cbn; lia].
    intros c'. apply msgs_set_phase. lia.
Qed.

Lemma works_acc s : well_formed s -> Acc (fun s' s => works cc s s') s.
Proof.
  remember (measure s) as m eqn:Hm. revert s Hm.
  induction (lexlt_acc _ m eq_refl) as [m _ IH]. intros s -> Hwf. constructor. intros s' Hs'.
  eapply IH; [by apply works_measure|done|]. destruct Hs' as (e & _ & Hn). by eapply next_well_formed.
Qed.

(** * How they rest *)

Definition settled (s : tasks) : Prop :=
  (forall t, t <> UdpWrite -> phases s t = Idle) \/
  (forall t, t <> UdpRead -> phases s t = Done).

Context (Hrecv : 0 < recv_chan_size cc) (Hsend : 0 < send_chan_size cc).

Lemma chan_size_pos c : (0 < chan_size cc c)%nat.
Proof. destruct c; unfold chan_size; lia. Qed.

(** A task still in a turn waits for room, and its reader does not read. *)
Lemma rest_busy s t todo : well_formed s -> at_rest cc s -> phases s t = Busy todo ->
  exists c, sender_of c = t /\ waits cc t c s /\ exists todo', phases s (receiver_of c) = Busy todo'.
Proof.
  intros Hwf Hr Et. pose proof (Hr (Go t) eq_refl) as Hg. cbn [tasks_next] in Hg. unfold go in Hg.
  rewrite Et in Hg. destruct todo as [|[c fatal|] todo]; try done. exists c.
  pose proof (Hwf _ _ Et) as Hop. apply Forall_cons in Hop as [Hc _]. split; [done|].
  destruct (phases s (receiver_of c)) as [|todo'|] eqn:Er; [| |done]; (case_decide as Hlt; [done|]).
  - pose proof (Hr (Take c []) eq_refl) as Ht. cbn [tasks_next forallb] in Ht. rewrite Er in Ht.
    pose proof (chan_size_pos c). destruct (pending s c); [lia|done].
  - split; [|by eexists]. split; [lia|]. by eexists _, _.
Qed.

Lemma rest_idle s c : at_rest cc s -> phases s (receiver_of c) = Idle -> phases s (sender_of c) <> Done.
Proof.
  intros Hr Hi Hd. pose proof (Hr (Take c []) eq_refl) as Ht. pose proof (Hr (Hangup c) eq_refl) as Hh.
  cbn [tasks_next forallb] in Ht, Hh. rewrite Hi in Ht, Hh. rewrite Hd in Hh. by destruct (pending s c).
Qed.

Lemma udp_write_not_busy s todo : well_formed s -> at_rest cc s -> phases s UdpWrite <> Busy todo.
Proof. intros Hwf Hr Eb. destruct (rest_busy _ _ _ Hwf Hr Eb) as (c & Hc & _). by destruct c. Qed.

(** Waiting is passed on around the cycle. *)
Lemma busy_cycle s : well_formed s -> at_rest cc s ->
  (forall todo, phases s Quic = Busy todo ->
    waits cc Quic QuicDataRecv s /\ exists todo', phases s LinkRead = Busy todo') /\
  (forall todo, phases s LinkRead = Busy todo ->
    waits cc LinkRead Responses s /\ exists todo', phases s Conn = Busy todo') /\
  (forall todo, phases s Conn = Busy todo ->
    waits cc Conn Requests s /\ exists todo', phases s LinkWrite = Busy todo') /\
  (forall todo, phases s LinkWrite = Busy todo ->
    waits cc LinkWrite QuicDataSend s /\ exists todo', phases s Quic = Busy todo') /\
  (forall todo, phases s UdpRead = Busy todo -> exists todo', phases s Quic = Busy todo').
Proof.
  intros Hwf Hr. split_and!; intros todo Eb;
    destruct (rest_busy _ _ _ Hwf Hr Eb) as (c & Hc & Hw & todo' & Hb); destruct c; try discriminate Hc;
    cbn [receiver_of] in Hb; try done; eauto.
  by destruct (udp_write_not_busy _ _ Hwf Hr Hb).
Qed.

Lemma nobody_busy s : well_formed s -> at_rest cc s -> (forall todo, phases s Quic <> Busy todo) ->
  forall t todo, phases s t <> Busy todo.
Proof.
  intros Hwf Hr HnQ. destruct (busy_cycle s Hwf Hr) as (_ & HR & HC & HW & HU).
  assert (forall todo, phases s LinkWrite <> Busy todo) as NW
    by (intros todo E; destruct (HW _ E) as (_ & ? & E'); by apply HnQ in E').
  assert (forall todo, phases s Conn <> Busy todo) as NC
    by (intros todo E; destruct (HC _ E) as (_ & ? & E'); by apply NW in E').
  assert (forall todo, phases s LinkRead <> Busy todo) as NR
    by (intros todo E; destruct (HR _ E) as (_ & ? & E'); by apply NC in E').
  intros [] todo; auto.
  - intros E. destruct (HU _ E) as (? & E'). by apply HnQ in E'.
  - by apply udp_write_not_busy.
Qed.

Lemma rest_cases s : well_formed s -> at_rest cc s -> deadlocked cc s \/ settled s.
Proof.
  intros Hwf Hr. destruct (phases s Quic) as [|todo|] eqn:Eq.
  - right. left. pose proof (nobody_busy s Hwf Hr) as Hn. rewrite Eq in Hn. specialize (Hn ltac:(done)).
    assert (forall c, phases s (receiver_of c) = Idle -> phases s (sender_of c) = Idle) as Hi.
    { intros c Ei. pose proof (rest_idle s c Hr Ei) as Hd.
      destruct (phases s (sender_of c)) eqn:E; [done|by apply Hn in E|done]. }
    pose proof (Hi QuicDataSend Eq) as EW. pose proof (Hi Requests EW) as EC.
    pose proof (Hi Responses EC) as ER. pose proof (Hi UdpDataRecv Eq) as EU. by intros [].
  - left. destruct (busy_cycle s Hwf Hr) as (HQ & HR & HC & HW & _).
    destruct (HQ _ Eq) as (? & ? & E1). destruct (HR _ E1) as (? & ? & E2).
    destruct (HC _ E2) as (? & ? & E3). by destruct (HW _ E3).
  - right. right. pose proof (nobody_busy s Hwf Hr) as Hn. rewrite Eq in Hn. specialize (Hn ltac:(done)).
    assert (forall c, phases s (sender_of c) = Done -> phases s (receiver_of c) = Done) as Hd.
    { intros c Ed. pose proof (rest_idle s c Hr) as Hi.
      destruct (phases s (receiver_of c)) eqn:E; [by destruct Hi|by apply Hn in E|done]. }
    pose proof (Hd QuicDataRecv Eq) as ER. pose proof (Hd Responses ER) as EC.
    pose proof (Hd Requests EC) as EW. pose proof (Hd UdpDataSend Eq) as EU. by intros [].
Qed.

(** A task that ended stays so. *)
Lemma set_phase_done t p s t' : phases s t <> Done -> phases s t' = Done ->
  phases (set_phase t p s) t' = Done.
Proof.
  intros Hn Hd. unfold set_phase. cbn [phases].
  rewrite fn_lookup_insert_ne; [done|]. intros ->. by apply Hn.
Qed.

Lemma next_done e s s' t : tasks_next cc e s = Some s' -> phases s t = Done -> phases s' t = Done.
Proof.
  destruct e as [c todo|t'|c|t' todo|]; cbn [tasks_next].
  - destruct (phases s (receiver_of c)) eqn:E; try done. destruct (pending s c); [done|].
    destruct (forallb _ _); [|done]. intros [= <-] Hd. apply (set_phase_done _ _ (set_pending _ _ s)); cbn; congruence.
  - unfold go. destruct (phases s t') as [|[|[c fatal|] todo]|] eqn:E; try done.
    + intros [= <-]. apply set_phase_done. congruence.
    + destruct (phases s (receiver_of c)); try case_decide; try done; intros [= <-] Hd;
        try (apply (set_phase_done _ _ (set_pending _ _ s)); cbn; congruence); apply set_phase_done; congruence.
    + intros [= <-]. apply set_phase_done. congruence.
  - destruct (phases s (receiver_of c)) eqn:E, (pending s c), (phases s (sender_of c)); try done.
    intros [= <-]. apply set_phase_done. congruence.
  - destruct (phases s t') eqn:E; try done. destruct (forallb _ _); [|done].
    intros [= <-]. apply set_phase_done. congruence.
  - destruct (phases s Conn) eqn:E; try done. intros [= <-]. apply set_phase_done. congruence.
Qed.

Lemma works_keeps s s' : rtc (works cc) s s' -> well_formed s ->
  well_formed s' /\ forall t, phases s t = Done -> phases s' t = Done.
Proof.
  induction 1 as [s|s s1 s' (e & _ & Hn) _ IH]; intros Hwf; [done|].
  destruct IH as [Hwf' Hd]; [by eapply next_well_formed|]. split; [done|].
  intros t Ht. by eapply Hd, next_done.
Qed.

(** * The deadlock *)

Lemma waits_set_phase t c t' p s : t' <> t -> waits cc t c s -> waits cc t c (set_phase t' p s).
Proof.
  intros Hne [Hf (fatal & todo & Ht)]. split; [done|]. exists fatal, todo. unfold set_phase. cbn [phases].
  by rewrite fn_lookup_insert_ne.
Qed.

Lemma waits_set_pending t c c' n s : (c' = c -> pending s c <= n)%nat -> waits cc t c s ->
  waits cc t c (set_pending c' n s).
Proof.
  intros Hn [Hf Ht]. split; [|done]. unfold set_pending. cbn [pending].
  destruct (decide (c' = c)) as [->|Hne]; [rewrite fn_lookup_insert; specialize (Hn eq_refl); lia|].
  by rewrite fn_lookup_insert_ne.
Qed.

Lemma waits_stays e s s' t c : tasks_next cc e s = Some s' -> waits cc t c s ->
  (exists todo, phases s (receiver_of c) = Busy todo) -> waits cc t c s'.
Proof.
  intros Hn Hw [todo' Hr]. assert (exists fatal todo, phases s t = Busy (Push c fatal :: todo)) as (fatal & todo & Ht) by apply Hw.
  destruct e as [c0 l|t0|c0|t0 l|]; cbn [tasks_next] in Hn.
  - destruct (phases s (receiver_of c0)) eqn:E; try done. destruct (pending s c0) eqn:E0; [done|].
    destruct (forallb _ _); [|done]. injection Hn as <-. apply waits_set_phase; [congruence|].
    apply waits_set_pending; [congruence|done].
  - destruct (decide (t0 = t)) as [->|Hne].
    { unfold go in Hn. destruct Hw as [Hf _]. rewrite Ht, Hr, decide_False in Hn by lia. done. }
    unfold go in Hn. destruct (phases s t0) as [|[|[c0 f|] l]|]; try done;
      try (injection Hn as <-; by apply waits_set_phase).
    destruct (phases s (receiver_of c0)); try case_decide; try done; injection Hn as <-;
      (apply waits_set_phase; [done|]); try done; apply waits_set_pending; try done; intros ->; lia.
  - destruct (phases s (receiver_of c0)) eqn:E, (pending s c0), (phases s (sender_of c0)); try done.
    injection Hn as <-. apply waits_set_phase; [congruence|done].
  - destruct (phases s t0) eqn:E; try done. destruct (forallb _ _); [|done]. injection Hn as <-.
    apply waits_set_phase; [congruence|done].
  - destruct (phases s Conn) eqn:E; try done. injection Hn as <-. apply waits_set_phase; [congruence|done].
Qed.

Lemma deadlocked_next e s s' : tasks_next cc e s = Some s' -> deadlocked cc s -> deadlocked cc s'.
Proof.
  intros Hn (HC & HW & HQ & HR).
  assert (forall t c, waits cc t c s -> exists todo, phases s t = Busy todo) as Hb
    by (intros t c [_ (? & ? & ->)]; by eexists).
  split_and!; eapply waits_stays; eauto.
Qed.

Lemma deadlocked_run es s s' : tasks_run cc es s = Some s' -> deadlocked cc s -> deadlocked cc s'.
Proof.
  revert s. induction es as [|e es IH]; intros s; cbn [tasks_run]; [by intros [= <-]|].
  destruct (tasks_next cc e s) as [s1|] eqn:E; [|done]. intros Hr Hd. eapply IH; [done|]. by eapply deadlocked_next.
Qed.

(** States that look the same. *)
#[local] Instance tasks_equiv : Equiv tasks := fun s s' =>
  (forall t, phases s t = phases s' t) /\ (forall c, pending s c = pending s' c).

#[local] Instance tasks_equivalence : Equivalence (≡@{tasks}).
Proof.
  constructor; [by split|by intros s s' [? ?]|]. intros s1 s2 s3 [A B] [A' B'].
  split; intros; by rewrite ?A, ?B.
Qed.

#[local] Instance set_phase_proper t p : Proper ((≡) ==> (≡)) (set_phase t p).
Proof.
  intros s s' [A B]. split; [|done]. intros t'. unfold set_phase. cbn [phases].
  destruct (decide (t = t')) as [->|]; by rewrite ?fn_lookup_insert, ?fn_lookup_insert_ne.
Qed.

#[local] Instance set_pending_proper c n : Proper ((≡) ==> (≡)) (set_pending c n).
Proof.
  intros s s' [A B]. split; [done|]. intros c'. unfold set_pending. cbn [pending].
  destruct (decide (c = c')) as [->|]; by rewrite ?fn_lookup_insert, ?fn_lookup_insert_ne.
Qed.

#[local] Instance next_proper e : Proper ((≡) ==> (≡)) (tasks_next cc e).
Proof.
  intros s s' Hs. pose proof Hs as [A B]. destruct e as [c l|t|c|t l|]; cbn [tasks_next]; unfold go.
  - rewrite A, B. repeat case_match; try done; constructor. by rewrite Hs.
  - rewrite A. destruct (phases s' t) as [|[|[c f|] l]|]; try done; try (constructor; by rewrite Hs).
    rewrite A, B. repeat case_match; try done; constructor; by rewrite Hs.
  - rewrite !A, B. repeat case_match; try done; constructor. by rewrite Hs.
  - rewrite A. repeat case_match; try done; constructor. by rewrite Hs.
  - rewrite A. repeat case_match; try done; constructor. by rewrite Hs.
Qed.

#[local] Instance run_proper es : Proper ((≡) ==> (≡)) (tasks_run cc es).
Proof.
  induction es as [|e es IH]; intros s s' Hs; cbn [tasks_run]; [by constructor|].
  destruct (next_proper e s s' Hs) as [r r' Hr|]; [by apply IH|done].
Qed.

#[local] Instance deadlocked_proper : Proper ((≡) ==> iff) (deadlocked cc).
Proof.
  intros s s' [A B]. unfold deadlocked, waits. by setoid_rewrite A; setoid_rewrite B.
Qed.

Lemma run_app es es' s : tasks_run cc (es ++ es') s = tasks_run cc es s ≫= tasks_run cc es'.
Proof.
  revert s. induction es as [|e es IH]; intros s; [done|]. cbn [tasks_run app].
  destruct (tasks_next cc e s) as [s1|]; [apply IH|done].
Qed.

Definition reach (s s' : tasks) : Prop := exists es, tasks_run cc es s ≡ Some s'.

#[local] Instance reach_preorder : PreOrder reach.
Proof.
  constructor; [intros s; by exists []|]. intros s1 s2 s3 [es E] [es' E']. exists (es ++ es').
  rewrite run_app. destruct (tasks_run cc es s1) as [s|]; [|by inversion E].
  apply (inj Some) in E. cbn. by rewrite E.
Qed.

Lemma reach_next e s r s' : tasks_next cc e s = Some r -> r ≡ s' -> reach s s'.
Proof. intros E Hr. exists [e]. cbn [tasks_run]. rewrite E. cbn. by constructor. Qed.

(** The states on the way; the UDP writer idles. *)
Definition at_state (udp_read quic link_read link_write conn : phase) (u q r m w : nat) : tasks :=
  mk_tasks (fun t => match t with
                     | UdpRead => udp_read | Quic => quic | LinkRead => link_read
                     | LinkWrite => link_write | UdpWrite => Idle | Conn => conn
                     end)
    (fun c => match c with
              | UdpDataRecv => u | QuicDataRecv => q | Responses => r | Requests => m
              | QuicDataSend => w | UdpDataSend => 0
              end)%nat.


(** One event, to the state given. *)
Ltac by_event e :=
  eapply (reach_next e); [cbn; rewrite ?decide_True by lia;
    repeat match goal with H : forallb _ _ = true |- _ => rewrite H; clear H end; reflexivity|split; by intros []].
Ltac then_do e s := transitivity s; [by_event e|].

Lemma fill_quic_data k U l lr W C u q r m w : (q + k <= chan_size cc QuicDataRecv)%nat ->
  reach (at_state U (Busy (replicate k chunk ++ l)) (Busy lr) W C u q r m w)
        (at_state U (Busy l) (Busy lr) W C u (k + q) r m w).
Proof.
  revert q. induction k as [|k IH]; intros q Hk; [reflexivity|]. cbn [replicate app].
  replace (S k + q)%nat with (k + S q)%nat by lia. etrans; [|apply IH; lia]. by_event (Go Quic).
Qed.

Lemma fill_responses k U Q l W u q r m w : (r + k <= chan_size cc Responses)%nat ->
  reach (at_state U Q (Busy (replicate k answer ++ l)) W Idle u q r m w)
        (at_state U Q (Busy l) W Idle u q (k + r) m w).
Proof.
  revert r. induction k as [|k IH]; intros r Hk; [reflexivity|]. cbn [replicate app].
  replace (S k + r)%nat with (k + S r)%nat by lia. etrans; [|apply IH; lia]. by_event (Go LinkRead).
Qed.

(** A packet of the user, as far as its channel. *)
Lemma one_request U Q R W u q r m w : W <> Done -> (m < chan_size cc Requests)%nat ->
  reach (at_state U Q R W Idle u q r m w) (at_state U Q R W Idle u q r (S m) w).
Proof.
  intros HW Hm. then_do (OwnTurn Conn [request]) (at_state U Q R W (Busy [request]) u q r m w).
  transitivity (at_state U Q R W (Busy []) u q r (S m) w); [|by_event (Go Conn)].
  destruct W; [by_event (Go Conn)..|done].
Qed.

Lemma fill_requests k U Q R l u q r m w : (m + k <= chan_size cc Requests)%nat ->
  reach (at_state U Q R (Busy l) Idle u q r m w) (at_state U Q R (Busy l) Idle u q r (k + m) w).
Proof.
  revert m. induction k as [|k IH]; intros m Hk; [reflexivity|]. etrans; [apply one_request; [done|lia]|].
  replace (S k + m)%nat with (k + S m)%nat by lia. apply IH. lia.
Qed.

(** The writer takes packets as long as the channel to the QUIC task has room. *)
Lemma fill_quic_send k U lq R u q r w : (w + k <= chan_size cc QuicDataSend)%nat ->
  reach (at_state U (Busy lq) R Idle Idle u q r 1 w) (at_state U (Busy lq) R Idle Idle u q r 1 (k + w)).
Proof.
  revert w. induction k as [|k IH]; intros w Hk; [reflexivity|].
  then_do (Take Requests [bytes]) (at_state U (Busy lq) R (Busy [bytes]) Idle u q r 0 w).
  then_do (Go LinkWrite) (at_state U (Busy lq) R (Busy []) Idle u q r 0 (S w)).
  then_do (Go LinkWrite) (at_state U (Busy lq) R Idle Idle u q r 0 (S w)).
  etrans; [apply one_request; [done|apply chan_size_pos]|].
  replace (S k + w)%nat with (k + S w)%nat by lia. apply IH. lia.
Qed.

Lemma forallb_again {A} (f : A -> bool) n a : f a = true -> forallb f (replicate n a ++ [a]) = true.
Proof. intros Ha. induction n as [|n IH]; cbn; by rewrite Ha. Qed.

Lemma init_state : tasks_init ≡ at_state Idle Idle Idle Idle Idle 0 0 0 1 0.
Proof. split; by intros []. Qed.

(** A datagram that makes many chunks readable, a chunk of many packets, and a user who
    sends as much meanwhile. *)
Lemma deadlock_reach : exists s, reach tasks_init s /\ deadlocked cc s.
Proof.
  pose proof (chan_size_pos UdpDataRecv) as HU. pose proof (chan_size_pos QuicDataRecv) as HQ.
  remember (chan_size cc QuicDataRecv) as nq eqn:Eq. remember (chan_size cc Responses) as nr eqn:Er.
  remember (chan_size cc QuicDataSend) as ns eqn:Es. remember (chan_size cc Requests) as nm eqn:Em.
  exists (at_state Idle (Busy [chunk]) (Busy [answer]) (Busy [bytes]) (Busy [request]) 0 nq nr nm ns).
  split; [|split_and!; (split; [cbn; lia|by eexists _, _])].
  transitivity (at_state Idle Idle Idle Idle Idle 0 0 0 1 0); [exists []; cbn; constructor; apply init_state|].
  then_do (OwnTurn UdpRead [datagram]) (at_state (Busy [datagram]) Idle Idle Idle Idle 0 0 0 1 0).
  then_do (Go UdpRead) (at_state (Busy []) Idle Idle Idle Idle 1 0 0 1 0).
  then_do (Go UdpRead) (at_state Idle Idle Idle Idle Idle 1 0 0 1 0).
  pose proof (forallb_again (allowed Quic (Got UdpDataRecv)) nq chunk eq_refl) as Hlq.
  pose proof (forallb_again (allowed LinkRead (Got QuicDataRecv)) nr answer eq_refl) as Hlr.
  set (lq := replicate nq chunk ++ [chunk]) in *. set (lr := replicate nr answer ++ [answer]) in *.
  then_do (Take UdpDataRecv (chunk :: lq)) (at_state Idle (Busy (chunk :: lq)) Idle Idle Idle 0 0 0 1 0).
  then_do (Go Quic) (at_state Idle (Busy lq) Idle Idle Idle 0 1 0 1 0).
  then_do (Take QuicDataRecv lr) (at_state Idle (Busy lq) (Busy lr) Idle Idle 0 0 0 1 0).
  etrans; [apply (fill_quic_data nq); lia|]. etrans; [apply (fill_responses nr); lia|].
  etrans; [apply (fill_quic_send ns); lia|].
  rewrite !Nat.add_0_r.
  then_do (Take Requests [bytes])
    (at_state Idle (Busy [chunk]) (Busy [answer]) (Busy [bytes]) Idle 0 nq nr 0 ns).
  etrans; [apply (fill_requests nm); lia|]. rewrite !Nat.add_0_r. by_event (OwnTurn Conn [request]).
Qed.

(** C6. The tasks of a connection come to rest, and how. From every state they can reach, the
    work left over ends after finitely many steps, in whatever order they are taken; and where
    it ends, one of three things holds: the four tasks of the deadlock wait for each other; or
    every task runs idle, but perhaps the UDP writer, which may have ended alone; or every task
    has ended, but perhaps the UDP reader, which waits for a datagram. Once the QUIC task, the
    reading task, the writing task or the client's loop has ended, the last is the case: nothing
    of the connection is left but perhaps the UDP reader, which ends at the next datagram, if
    one comes. *)
Theorem connection_comes_to_rest (es : list tasks_event) (s : tasks)
    (Hrun : tasks_run cc es tasks_init = Some s) :
  Acc (fun s' s => works cc s s') s /\
  forall s', rtc (works cc) s s' -> at_rest cc s' ->
    (deadlocked cc s' \/ (forall t, t <> UdpWrite -> phases s' t = Idle) \/
     (forall t, t <> UdpRead -> phases s' t = Done)) /\
    forall t, t <> UdpRead -> t <> UdpWrite -> phases s t = Done ->
      forall t', t' <> UdpRead -> phases s' t' = Done.
Proof.
  pose proof (run_well_formed _ _ _ init_well_formed Hrun) as Hwf. split; [by apply works_acc|].
  intros s' Hs' Hr. destruct (works_keeps s s' Hs' Hwf) as [Hwf' Hd].
  destruct (rest_cases s' Hwf' Hr) as [Hdl|Hst]; (split; [by auto|]); intros t Ht Ht' Hdt; apply Hd in Hdt.
  - destruct Hdl as ([_ (? & ? & EC)] & [_ (? & ? & EW)] & [_ (? & ? & EQ)] & [_ (? & ? & ER)]).
    destruct t; congruence.
  - destruct Hst as [Hi|]; [|done]. rewrite Hi in Hdt; done.
Qed.

(** C38. The tasks can stop each other for ever. Whatever the sizes of the channels, they can
    all come to wait for room: the client's loop for the writing task, that one for the
    QUIC task, that one for the reading task, and that one for the client's loop. Nothing
    that can happen then, not even a request to stop, gets them out of it. *)
Theorem tasks_can_deadlock : exists es s, tasks_run cc es tasks_init = Some s /\ deadlocked cc s /\
  forall es' s', tasks_run cc es' s = Some s' -> deadlocked cc s'.
Proof.
  destruct deadlock_reach as (s & [es Hes] & Hd). inversion Hes as [s0 s1 Hs E|]; subst.
  exists es, s0. split; [done|]. apply (deadlocked_proper s0 s Hs) in Hd. split; [done|].
  intros es' s' Hr. by eapply deadlocked_run.
Qed.

Lemma run_works es s s' : forallb internal es = true -> tasks_run cc es s = Some s' -> rtc (works cc) s s'.
Proof.
  revert s. induction es as [|e es IH]; intros s Hi; cbn [tasks_run]; [by intros [= <-]|].
  cbn in Hi. apply andb_true_iff in Hi as [He Hi].
  destruct (tasks_next cc e s) as [s1|] eqn:E; [|done]. intros Hr. eapply rtc_l; [by exists e|by apply IH].
Qed.

End Facts.

(** * The turns of the QUIC task

    [allowed] has the QUIC task send received data only in a turn on a datagram: so does
    [process_step]. That the other tasks send to one channel each is plain from their types. *)

Section QuicTurn.
Context {C U Q : Type} `{QuicConn C} `{!Sender U (list byte)} `{!Sender Q (list byte)}.
Context (cfg : proc_cfg).

Definition silent {A} (m : PM C U Q A) : Prop := forall s, quic_tx (m s).1 = quic_tx s.

Lemma silent_bind {A B} (m : PM C U Q A) (f : A -> PM C U Q B) :
  silent m -> (forall a, silent (f a)) -> silent (m ≫= f).
Proof.
  intros Hm Hf s. specialize (Hm s). unfold mbind, PM_bind.
  destruct (m s) as [s1 [a|e|]]; [|done..]. by rewrite Hf.
Qed.

Lemma silent_on_conn {A} (f : C -> C * A) : silent (on_conn f).
Proof. intros s. unfold on_conn. by destruct (f (conn s)). Qed.

Lemma silent_send_udp d : silent (send_udp d).
Proof. intros s. unfold send_udp. by destruct (send d (udp_tx s)). Qed.

Ltac silent_step :=
  match goal with
  | |- silent (_ ≫= _) => apply silent_bind; [|intros ?]
  | |- silent (on_conn _) => apply silent_on_conn
  | |- silent (send_udp _) => apply silent_send_udp
  | |- silent (match ?x with _ => _ end) => destruct x
  | |- silent _ => assumption || (intros ?; reflexivity)
  end.

Lemma silent_send_fuel fuel timed : silent (conn_send_fuel cfg fuel timed).
Proof. induction fuel as [|fuel IH]; cbn [conn_send_fuel]; repeat silent_step. Qed.

Lemma silent_send_loop timed : silent (conn_send_loop cfg timed).
Proof. apply silent_bind; [done|]. intros n. apply silent_send_fuel. Qed.

Lemma silent_send_pending : silent (send_pending cfg).
Proof.
  apply silent_bind; [done|]. intros n. generalize (S n). clear n. intros fuel.
  pose proof (silent_send_loop true). induction fuel as [|fuel IH]; cbn [send_pending_fuel]; repeat silent_step.
Qed.

Lemma silent_send_new fuel b n : silent (send_new_fuel cfg fuel b n).
Proof.
  pose proof (silent_send_loop true).
  revert n. induction fuel as [|fuel IH]; intros n; cbn [send_new_fuel]; repeat silent_step. apply IH.
Qed.

Lemma quic_turn_silent (e : process_event) : (forall b, e <> UdpData b) -> silent (process_step cfg e).
Proof.
  intros He. pose proof (silent_send_loop false). pose proof silent_send_pending.
  destruct e as [| |b| | |b|]; cbn [process_step]; try (intros ?; reflexivity).
  - unfold on_timeout_signal. repeat silent_step.
  - by destruct (He b).
  - unfold on_tick. repeat silent_step.
  - unfold on_quic_data, make_room_or_drop, keep_unsent. pose proof (silent_send_new (S (length b)) b 0).
    repeat silent_step.
Qed.

End QuicTurn.

(** * A connection that is taken down

    The reading task meets bytes that are no packet. *)

Definition bad_bytes : list tasks_event :=
  [Take Requests [bytes]; Go LinkWrite; Go LinkWrite; Take QuicDataSend []; Go Quic;
   OwnTurn UdpRead [datagram]; Go UdpRead; Go UdpRead; Take UdpDataRecv [chunk]; Go Quic; Go Quic;
   Take QuicDataRecv [Crash]; Go LinkRead].

Definition take_down : list tasks_event :=
  [Hangup Responses; Hangup Requests; Hangup QuicDataSend; Hangup UdpDataSend].

Definition broken : tasks :=
  default tasks_init (tasks_run ChannelConfig_default bad_bytes tasks_init).

Definition taken_down : tasks := default tasks_init (tasks_run ChannelConfig_default take_down broken).

Lemma connection_comes_to_rest_witness :
  tasks_run ChannelConfig_default bad_bytes tasks_init = Some broken /\
  phases broken LinkRead = Done /\ phases broken Quic = Idle /\
  phases taken_down Quic = Done.
Proof.
  assert (tasks_run ChannelConfig_default bad_bytes tasks_init = Some broken) as Hrun by (vm_compute; reflexivity).
  assert (tasks_run ChannelConfig_default take_down broken = Some taken_down) as Hdown by (vm_compute; reflexivity).
  assert (at_rest ChannelConfig_default taken_down) as Hrest.
  { intros [[] todo|[]|[]| |] He; try discriminate He; vm_compute; reflexivity. }
  split_and!; [done|vm_compute; reflexivity..|].
  destruct (connection_comes_to_rest ChannelConfig_default ltac:(done) ltac:(done) bad_bytes broken Hrun)
    as [_ Hend].
  destruct (Hend taken_down (run_works _ take_down _ _ eq_refl Hdown) Hrest) as [_ Hall].
  apply (Hall LinkRead); [done|done|vm_compute; reflexivity|done].
Defined.

Lemma tasks_can_deadlock_witness : exists es s,
  tasks_run ChannelConfig_default es tasks_init = Some s /\ deadlocked ChannelConfig_default s.
Proof.
  destruct (tasks_can_deadlock ChannelConfig_default ltac:(done) ltac:(done)) as (es & s & Hr & Hd & _).
  by exists es, s.
Defined.
