(* ===== verification/Metrics.v ===== *)
(** [metrics/src]: the metric families, the functions that record in them, their registration
    and the state timer. The families themselves are those of the prometheus library. *)

From Stdlib Require Import ZArith Lia Sorting.Sorted Strings.Ascii.
From stdpp Require Import base list strings gmap.
From S2P Require Import Prelude Config.

(** * Labels ([lib.rs], [dconf.rs]) *)

Record StreamLabel : Type := { sl_upstream : string; sl_sample : string }.
Record DownstreamLabel : Type := { dl_downstream : string; dl_sample : string }.
Record StreamWithMsgLabel : Type := {
  sm_upstream : string; sm_sample : string; sm_msg : string
}.
Record LogLabel : Type := { ll_msg : string }.
Record DconfLabel : Type := {
  app_name : string; namespace : string; env : string; version : string; dc_id : string;
  dc_msg : string
}.

Inductive label : Type :=
| ByStream (l : StreamLabel)
| ByDownstream (l : DownstreamLabel)
| ByStreamMsg (l : StreamWithMsgLabel)
| ByLog (l : LogLabel)
| ByDconf (l : DconfLabel).

(** The label as its list of values, with the family of labels it belongs to. *)
Definition label_values (l : label) : nat * list string :=
  match l with
  | ByStream l => (0%nat, [sl_upstream l; sl_sample l])
  | ByDownstream l => (1%nat, [dl_downstream l; dl_sample l])
  | ByStreamMsg l => (2%nat, [sm_upstream l; sm_sample l; sm_msg l])
  | ByLog l => (3%nat, [ll_msg l])
  | ByDconf l => (4%nat, [app_name l; namespace l; env l; version l; dc_id l; dc_msg l])
  end.

#[export] Instance label_values_inj : Inj (=) (=) label_values.
Proof. intros [[]|[]|[]|[]|[]] [[]|[]|[]|[]|[]] E; cbn in E; by simplify_eq. Qed.

#[export] Instance label_eq_dec : EqDecision label.
Proof.
  intros l k. destruct (decide (label_values l = label_values k)) as [E|E].
  - left. by apply (inj label_values).
  - right. by intros ->.
Defined.

(** * The families

    The statics of the modules, by kind. *)

Inductive counter_family : Type :=
| INFO_MSG_COUNTER | WARNING_MSG_COUNTER | FATAL_MSG_COUNTER
| OPERATION_COUNTER | EXCEPTION_COUNTER
| RECEIVE_COUNTER | RECEIVE_BYTES_COUNTER | RECEIVE_STATUS_COUNTER
| SEND_COUNTER | SEND_BYTES_COUNTER | SEND_STATUS_COUNTER
| DCONF_CLIENT_CONFIG_COUNTER | DCONF_CLIENT_RECONNECT_COUNTER.

Inductive histogram_family : Type :=
| COST_MICRO_SEC_HISTOGRAM | COST_MILLI_SEC_HISTOGRAM
| RECEIVE_LATENCY_HISTOGRAM | SEND_LATENCY_HISTOGRAM.

Inductive family : Type :=
| CounterOf (f : counter_family)
| GaugeOf (* MSG_GAUGE *)
| HistogramOf (f : histogram_family).

#[export] Instance counter_family_eq_dec : EqDecision counter_family.
Proof. solve_decision. Defined.
#[export] Instance histogram_family_eq_dec : EqDecision histogram_family.
Proof. solve_decision. Defined.
#[export] Instance family_eq_dec : EqDecision family.
Proof. solve_decision. Defined.

(** What the library offers: each family gives a metric per label, created on demand.
    Counters are [u64] and wrap; an observation is the integer that the code casts to a
    float. *)
Class MetricStore (M : Type) := {
  inc_by : counter_family -> label -> Z -> M -> M;
  gauge_set : label -> Z -> M -> M;
  observe : histogram_family -> label -> Z -> M -> M;
  counter_value : counter_family -> label -> M -> Z;
  gauge_value : label -> M -> option Z;
  observations : histogram_family -> label -> M -> list Z
}.

Class MetricStoreLaws (M : Type) `{MetricStore M} : Prop := {
  counter_inc_by f l g k n m : counter_value f l (inc_by g k n m) =
    if decide ((g, k) = (f, l)) then wrap_u64 (counter_value f l m + n) else counter_value f l m;
  counter_gauge_set f l k n m : counter_value f l (gauge_set k n m) = counter_value f l m;
  counter_observe f l g k n m : counter_value f l (observe g k n m) = counter_value f l m;
  gauge_inc_by l g k n m : gauge_value l (inc_by g k n m) = gauge_value l m;
  gauge_gauge_set l k n m : gauge_value l (gauge_set k n m) =
    if decide (k = l) then Some n else gauge_value l m;
  gauge_observe l g k n m : gauge_value l (observe g k n m) = gauge_value l m;
  observations_inc_by f l g k n m : observations f l (inc_by g k n m) = observations f l m;
  observations_gauge_set f l k n m : observations f l (gauge_set k n m) = observations f l m;
  observations_observe f l g k n m : observations f l (observe g k n m) =
    if decide ((g, k) = (f, l)) then observations f l m ++ [n] else observations f l m;
  counter_u64 f l m : 0 <= counter_value f l m < usize_bound
}.

(** * The recording functions *)

Definition as_micros (d : duration) : Z := d / 1000.
Definition as_millis (d : duration) : Z := d / 1000000.

Section Recording.
Context {M : Type} `{MetricStore M}.

Definition inc (f : counter_family) (l : label) : M -> M := inc_by f l 1.

(** [general.rs] *)
Definition info_msg_count (msg : string) : M -> M := inc INFO_MSG_COUNTER (ByLog {| ll_msg := msg |}).
Definition warning_msg_count (msg : string) : M -> M :=
  inc WARNING_MSG_COUNTER (ByLog {| ll_msg := msg |}).
Definition fatal_msg_count (msg : string) : M -> M :=
  inc FATAL_MSG_COUNTER (ByLog {| ll_msg := msg |}).
Definition msg_gauge (msg : string) (set_to : Z) : M -> M :=
  gauge_set (ByLog {| ll_msg := msg |}) set_to.

(** [process.rs] *)
Definition operation_count (upstream sample : string) : M -> M :=
  inc OPERATION_COUNTER (ByStream {| sl_upstream := upstream; sl_sample := sample |}).
Definition exception_count (upstream sample msg : string) : M -> M :=
  inc EXCEPTION_COUNTER
    (ByStreamMsg {| sm_upstream := upstream; sm_sample := sample; sm_msg := msg |}).
Definition cost_micro_sec (upstream sample : string) (cost : duration) : M -> M :=
  observe COST_MICRO_SEC_HISTOGRAM (ByStream {| sl_upstream := upstream; sl_sample := sample |})
    (as_micros cost).
Definition cost_milli_sec (upstream sample : string) (cost : duration) : M -> M :=
  observe COST_MILLI_SEC_HISTOGRAM (ByStream {| sl_upstream := upstream; sl_sample := sample |})
    (as_millis cost).

(** [receive.rs] *)
Definition receive_count (upstream sample : string) : M -> M :=
  inc RECEIVE_COUNTER (ByStream {| sl_upstream := upstream; sl_sample := sample |}).
Definition receive_bytes_count (upstream sample : string) (bytes_size : Z) : M -> M :=
  inc_by RECEIVE_BYTES_COUNTER (ByStream {| sl_upstream := upstream; sl_sample := sample |})
    bytes_size.
Definition receive_status_count (upstream sample : string) : M -> M :=
  inc RECEIVE_STATUS_COUNTER (ByStream {| sl_upstream := upstream; sl_sample := sample |}).
Definition receive_at_latency (upstream sample : string) (cost : duration) : M -> M :=
  observe RECEIVE_LATENCY_HISTOGRAM (ByStream {| sl_upstream := upstream; sl_sample := sample |})
    (as_millis cost).

(** [send.rs] *)
Definition send_count (downstream sample : string) : M -> M :=
  inc SEND_COUNTER (ByDownstream {| dl_downstream := downstream; dl_sample := sample |}).
Definition send_bytes_count (downstream sample : string) (bytes_size : Z) : M -> M :=
  inc_by SEND_BYTES_COUNTER (ByDownstream {| dl_downstream := downstream; dl_sample := sample |})
    bytes_size.
Definition send_status_count (downstream sample : string) : M -> M :=
  inc SEND_STATUS_COUNTER (ByDownstream {| dl_downstream := downstream; dl_sample := sample |}).
Definition send_at_latency (downstream sample : string) (cost : duration) : M -> M :=
  observe SEND_LATENCY_HISTOGRAM
    (ByDownstream {| dl_downstream := downstream; dl_sample := sample |}) (as_millis cost).

(** [dconf.rs] *)
Definition dconf_client_config_count (app ns env_ ver id : string) : M -> M :=
  inc DCONF_CLIENT_CONFIG_COUNTER
    (ByDconf {| app_name := app; namespace := ns; env := env_; version := ver; dc_id := id;
                dc_msg := EmptyString |}).
Definition dconf_client_reconnect_conut (app ns env_ ver id msg : string) : M -> M :=
  inc DCONF_CLIENT_RECONNECT_COUNTER
    (ByDconf {| app_name := app; namespace := ns; env := env_; version := ver; dc_id := id;
                dc_msg := msg |}).

End Recording.

(** The calls the program can make. *)
Inductive metric_call : Type :=
| InfoMsg (msg : string) | WarningMsg (msg : string) | FatalMsg (msg : string)
| MsgGauge (msg : string) (set_to : Z)
| Operation (upstream sample : string)
| Exception (upstream sample msg : string)
| CostMicro (upstream sample : string) (cost : duration)
| CostMilli (upstream sample : string) (cost : duration)
| Receive (upstream sample : string)
| ReceiveBytes (upstream sample : string) (bytes_size : Z)
| ReceiveStatus (upstream sample : string)
| ReceiveLatency (upstream sample : string) (cost : duration)
| Send (downstream sample : string)
| SendBytes (downstream sample : string) (bytes_size : Z)
| SendStatus (downstream sample : string)
| SendLatency (downstream sample : string) (cost : duration)
| DconfConfig (app ns env_ ver id : string)
| DconfReconnect (app ns env_ ver id msg : string).

Definition record_call {M} `{MetricStore M} (c : metric_call) : M -> M :=
  match c with
  | InfoMsg msg => info_msg_count msg
  | WarningMsg msg => warning_msg_count msg
  | FatalMsg msg => fatal_msg_count msg
  | MsgGauge msg n => msg_gauge msg n
  | Operation u s => operation_count u s
  | Exception u s msg => exception_count u s msg
  | CostMicro u s d => cost_micro_sec u s d
  | CostMilli u s d => cost_milli_sec u s d
  | Receive u s => receive_count u s
  | ReceiveBytes u s n => receive_bytes_count u s n
  | ReceiveStatus u s => receive_status_count u s
  | ReceiveLatency u s d => receive_at_latency u s d
  | Send u s => send_count u s
  | SendBytes u s n => send_bytes_count u s n
  | SendStatus u s => send_status_count u s
  | SendLatency u s d => send_at_latency u s d
  | DconfConfig a n e v i => dconf_client_config_count a n e v i
  | DconfReconnect a n e v i msg => dconf_client_reconnect_conut a n e v i msg
  end.

Definition record_calls {M} `{MetricStore M} (cs : list metric_call) (m : M) : M :=
  fold_left (fun m c => record_call c m) cs m.

(** * Registration ([register] of each module, [register_and_server_at]) *)

Record registration : Type := { reg_name : string; reg_help : string; reg_family : family }.

Definition registry : Type := list registration.

Definition reg_add (name help : string) (f : family) (reg : registry) : registry :=
  reg ++ [{| reg_name := name; reg_help := help; reg_family := f |}].

Open Scope string_scope.

Definition general_register (reg : registry) : registry :=
  let reg := reg_add "info_msg_count" "How many info msg" (CounterOf INFO_MSG_COUNTER) reg in
  let reg := reg_add "warning_msg_count" "How many warning msg" (CounterOf WARNING_MSG_COUNTER) reg in
  let reg := reg_add "fatal_msg_count" "How many fatal msg" (CounterOf FATAL_MSG_COUNTER) reg in
  reg_add "gauge_msg_count" "How many gauge msg" GaugeOf reg.

Definition process_register (reg : registry) : registry :=
  let reg := reg_add "data_handle_operation" "Operation in data handle process"
               (CounterOf OPERATION_COUNTER) reg in
  let reg := reg_add "data_handle_exception" "How many exception case during handle data"
               (CounterOf EXCEPTION_COUNTER) reg in
  let reg := reg_add "data_handle_cost_microsecond"
               "When handle data finish, record time.Now - time.Begin"
               (HistogramOf COST_MICRO_SEC_HISTOGRAM) reg in
  reg_add "data_handle_cost_millisecond"
    "When handle data finish, record time.Now - time.Begin"
    (HistogramOf COST_MILLI_SEC_HISTOGRAM) reg.

Definition receive_register (reg : registry) : registry :=
  let reg := reg_add "upstream_data_receive" "How many data received from upstream"
               (CounterOf RECEIVE_COUNTER) reg in
  let reg := reg_add "upstream_data_receive_bytes" "How many data received from upstream"
               (CounterOf RECEIVE_BYTES_COUNTER) reg in
  let reg := reg_add "upstream_data_receive_status" "Status of upstream receive process"
               (CounterOf RECEIVE_STATUS_COUNTER) reg in
  reg_add "upstream_data_receive_latency_millisecond"
    "When handle data finish, record time.Now - time.Begin"
    (HistogramOf RECEIVE_LATENCY_HISTOGRAM) reg.

Definition send_register (reg : registry) : registry :=
  let reg := reg_add "downstream_data_send" "How many data send to downstream"
               (CounterOf SEND_COUNTER) reg in
  let reg := reg_add "downstream_data_send_status" "Status of downstream send data process"
               (CounterOf SEND_STATUS_COUNTER) reg in
  let reg := reg_add "downstream_data_send_bytes" "How many data send to upstream"
               (CounterOf SEND_BYTES_COUNTER) reg in
  reg_add "downstream_data_send_latency_millisecond"
    "When send quote data to downstream, record time.Now - data.TimeSequence"
    (HistogramOf SEND_LATENCY_HISTOGRAM) reg.

Definition dconf_register (reg : registry) : registry :=
  let reg := reg_add "dconf_client_rs_config_count" "information about client current configuration"
               (CounterOf DCONF_CLIENT_CONFIG_COUNTER) reg in
  reg_add "dconf_client_rs_reconnect" "how many times dconf client reconnect occur"
    (CounterOf DCONF_CLIENT_RECONNECT_COUNTER) reg.

(** The registry that is served; [reg_fns] are the caller's own. *)
Definition served_registry (reg_fns : list (registry -> registry)) : registry :=
  let reg := general_register [] in
  let reg := receive_register reg in
  let reg := process_register reg in
  let reg := send_register reg in
  let reg := dconf_register reg in
  fold_left (fun reg f => f reg) reg_fns reg.

Definition DEFAULT_METRIC_SERVER_AT : string := "0.0.0.0:9102".
Definition DEFAULT_METRIC_ROUTE_PATH : string := "/metrics".

(** The address and the path that are served. *)
Definition served_at (addr path : string) : string * string :=
  let path := if decide (path = "") then DEFAULT_METRIC_ROUTE_PATH else path in
  let addr := if decide (addr = "") then DEFAULT_METRIC_SERVER_AT else addr in
  (addr, path).

(** ** The HTTP server

    The router is axum's. Registering a path panics ([None]) unless the path starts with a
    slash and is free. *)

Inductive http_handler : Type :=
| MetricHandler (reg : registry)
| HealthyCheck.

Class HttpRouter (RT : Type) := {
  router_new : RT;
  router_route : string -> http_handler -> RT -> option RT;
  router_get : string -> RT -> option http_handler
}.

(** A path that names itself: no captures. *)
Fixpoint plain_path (p : string) : bool :=
  match p with
  | String.EmptyString => true
  | String.String a p =>
      negb (bool_decide (a ∈ [":"; "*"; "{"; "}"]%char)) && plain_path p
  end.

Definition absolute (p : string) : bool :=
  match p with String.String "/"%char _ => true | _ => false end.

Class HttpRouterLaws (RT : Type) `{HttpRouter RT} : Prop := {
  router_get_new p : router_get p router_new = None;
  router_route_some p h r : plain_path p = true -> absolute p = true -> router_get p r = None ->
    exists r', router_route p h r = Some r' /\
      forall q, router_get q r' = if decide (q = p) then Some h else router_get q r;
  router_route_none p h r : absolute p = false \/ is_Some (router_get p r) -> router_route p h r = None
}.

(** What a handler answers; [encode] is the library's text form of a registry. *)
Definition healthy_check : Z * string := (200, "Hello I'm fine!").

Definition metric_handler_call (encode : registry -> option string) (reg : registry)
    : outcome unit (Z * string) :=
  buf ← unwrap (encode reg); Ok (200, buf).

Definition http_get {RT} `{HttpRouter RT} (encode : registry -> option string) (path : string)
    (router : RT) : option (outcome unit (Z * string)) :=
  match router_get path router with
  | Some (MetricHandler reg) => Some (metric_handler_call encode reg)
  | Some HealthyCheck => Some (Ok healthy_check)
  | None => None
  end.

(** Up to the call of [serve]: the address listened at and the router. *)
Definition register_and_server_at {RT} `{HttpRouter RT} (bind : string -> bool) (addr path : string)
    (reg_fns : list (registry -> registry)) : outcome unit (string * RT) :=
  let reg := served_registry reg_fns in
  let '(addr, path) := served_at addr path in
  router ← unwrap (router_route path (MetricHandler reg) router_new);
  router ← unwrap (router_route "/healthz" HealthyCheck router);
  if bind addr then Ok (addr, router) else Panic.

(** A router as a map. *)
#[export] Instance map_router : HttpRouter (gmap string http_handler) := {|
  router_new := ∅;
  router_route p h r := if absolute p && bool_decide (r !! p = None) then Some (<[p := h]> r) else None;
  router_get p r := r !! p
|}.

Close Scope string_scope.

(** * The buckets of the histograms

    [LATENCY_BUCKET], in tenths. *)
Definition LATENCY_BUCKET : list Z :=
  [2; 4; 6; 8; 10;
   20; 40; 60; 80; 100; 120; 140; 160; 180; 200;
   250; 300; 350; 400; 450; 500; 550; 600; 650; 700; 750; 800; 850; 900; 950;
   1000; 1050; 1100; 1150; 1200; 1250; 1300; 1350; 1400; 1450; 1500;
   1600; 1700; 1800; 1900; 2000; 2100; 2200; 2300; 2400; 2500; 2600; 2700; 2800;
   2900; 3000; 3100; 3200; 3300; 3400; 3500; 3600; 3700; 3800; 3900; 4000; 4100;
   4200; 4300; 4400; 4500; 4600; 4700; 4800; 4900; 5000;
   5500; 6000; 6500; 7000; 7500; 8000; 8500; 9000; 9500; 10000; 10500; 11000;
   11500; 12000; 12500; 13000; 13500; 14000; 14500; 15000; 15500; 16000;
   19000; 22000; 25000; 28000; 31000; 34000; 37000; 40000; 43000; 46000; 49000;
   50000;
   55000; 60000; 65000; 70000; 75000; 80000; 85000; 90000; 95000;
   100000].

(** * The state timer ([state_metric.rs]) *)

Module StateMetric.

Record t : Type := {
  name : string;
  last_state : string;
  last_at : Z;
  init_state : string;
  refresh_at : Z
}.

Definition new (name init_state : string) (now : Z) : t :=
  {| name := name; last_state := init_state; last_at := now; init_state := init_state;
     refresh_at := now |}.

(** [format!("{}_2_{}", a, b)] *)
Definition sample (a b : string) : string := (a +:+ "_2_" +:+ b)%string.

Section Ops.
Context {M : Type} `{MetricStore M}.

(** The clock is read twice by the operations that record: before, and for the new mark. *)
Definition state_to (curr_state : string) (now : Z) (s : t) : t :=
  {| name := name s; last_state := curr_state; last_at := now; init_state := init_state s;
     refresh_at := refresh_at s |}.

Definition metric_to (curr_state : string) (now now' : Z) (s : t) (m : M) : t * M :=
  let m := cost_milli_sec (name s) (sample (last_state s) curr_state) (elapsed now (last_at s)) m in
  ({| name := name s; last_state := curr_state; last_at := now'; init_state := init_state s;
      refresh_at := refresh_at s |}, m).

Definition state_reset (now now' : Z) (s : t) (m : M) : t * M :=
  let m := cost_milli_sec (name s) (sample (init_state s) (init_state s))
             (elapsed now (refresh_at s)) m in
  ({| name := name s; last_state := init_state s; last_at := last_at s;
      init_state := init_state s; refresh_at := now' |}, m).

End Ops.

Inductive op : Type :=
| StateTo (curr_state : string) (now : Z)
| MetricTo (curr_state : string) (now now' : Z)
| Reset (now now' : Z).

Definition step {M} `{MetricStore M} (sm : t * M) (o : op) : t * M :=
  let '(s, m) := sm in
  match o with
  | StateTo st now => (state_to st now s, m)
  | MetricTo st now now' => metric_to st now now' s m
  | Reset now now' => state_reset now now' s m
  end.

Definition run {M} `{MetricStore M} (os : list op) (sm : t * M) : t * M := fold_left step os sm.

End StateMetric.

(** * What the recording functions do *)

(** What a call adds to a counter, and what it adds to a histogram. *)
Definition call_count (f : counter_family) (l : label) (c : metric_call) : Z :=
  let one g k := if decide ((g, k) = (f, l)) then 1 else 0 in
  let by_ g k n := if decide ((g, k) = (f, l)) then n else 0 in
  match c with
  | InfoMsg msg => one INFO_MSG_COUNTER (ByLog (Build_LogLabel msg))
  | WarningMsg msg => one WARNING_MSG_COUNTER (ByLog (Build_LogLabel msg))
  | FatalMsg msg => one FATAL_MSG_COUNTER (ByLog (Build_LogLabel msg))
  | Operation u s => one OPERATION_COUNTER (ByStream (Build_StreamLabel u s))
  | Exception u s msg => one EXCEPTION_COUNTER (ByStreamMsg (Build_StreamWithMsgLabel u s msg))
  | Receive u s => one RECEIVE_COUNTER (ByStream (Build_StreamLabel u s))
  | ReceiveBytes u s n => by_ RECEIVE_BYTES_COUNTER (ByStream (Build_StreamLabel u s)) n
  | ReceiveStatus u s => one RECEIVE_STATUS_COUNTER (ByStream (Build_StreamLabel u s))
  | Send d s => one SEND_COUNTER (ByDownstream (Build_DownstreamLabel d s))
  | SendBytes d s n => by_ SEND_BYTES_COUNTER (ByDownstream (Build_DownstreamLabel d s)) n
  | SendStatus d s => one SEND_STATUS_COUNTER (ByDownstream (Build_DownstreamLabel d s))
  | DconfConfig a n e v i => one DCONF_CLIENT_CONFIG_COUNTER (ByDconf (Build_DconfLabel a n e v i ""))
  | DconfReconnect a n e v i msg =>
      one DCONF_CLIENT_RECONNECT_COUNTER (ByDconf (Build_DconfLabel a n e v i msg))
  | _ => 0
  end.

Definition call_observations (f : histogram_family) (l : label) (c : metric_call) : list Z :=
  let obs g k n := if decide ((g, k) = (f, l)) then [n] else [] in
  match c with
  | CostMicro u s d => obs COST_MICRO_SEC_HISTOGRAM (ByStream (Build_StreamLabel u s)) (d / 1000)
  | CostMilli u s d => obs COST_MILLI_SEC_HISTOGRAM (ByStream (Build_StreamLabel u s)) (d / 1000000)
  | ReceiveLatency u s d =>
      obs RECEIVE_LATENCY_HISTOGRAM (ByStream (Build_StreamLabel u s)) (d / 1000000)
  | SendLatency dn s d =>
      obs SEND_LATENCY_HISTOGRAM (ByDownstream (Build_DownstreamLabel dn s)) (d / 1000000)
  | _ => []
  end.

Definition total_count (f : counter_family) (l : label) (cs : list metric_call) : Z :=
  foldr (fun c n => call_count f l c + n) 0 cs.

Definition all_observations (f : histogram_family) (l : label) (cs : list metric_call) : list Z :=
  concat (map (call_observations f l) cs).

Section RecordingFacts.
Context {M : Type} `{MetricStoreLaws M}.

Lemma record_call_counter f l c (m : M) :
  counter_value f l (record_call c m) = wrap_u64 (counter_value f l m + call_count f l c).
Proof.
  assert (counter_value f l m = wrap_u64 (counter_value f l m + 0)) as Hz.
  { unfold wrap_u64. rewrite Z.add_0_r, Z.mod_small; [done|apply counter_u64]. }
  destruct c; cbn [record_call call_count];
    unfold info_msg_count, warning_msg_count, fatal_msg_count, msg_gauge, operation_count,
      exception_count, cost_micro_sec, cost_milli_sec, receive_count, receive_bytes_count,
      receive_status_count, receive_at_latency, send_count, send_bytes_count, send_status_count,
      send_at_latency, dconf_client_config_count, dconf_client_reconnect_conut, inc;
    rewrite ?counter_inc_by, ?counter_gauge_set, ?counter_observe; try done;
    by destruct (decide _).
Qed.

Lemma record_call_observations f l c (m : M) :
  observations f l (record_call c m) = observations f l m ++ call_observations f l c.
Proof.
  destruct c; cbn [record_call call_observations];
    unfold info_msg_count, warning_msg_count, fatal_msg_count, msg_gauge, operation_count,
      exception_count, cost_micro_sec, cost_milli_sec, receive_count, receive_bytes_count,
      receive_status_count, receive_at_latency, send_count, send_bytes_count, send_status_count,
      send_at_latency, dconf_client_config_count, dconf_client_reconnect_conut, inc;
    rewrite ?observations_inc_by, ?observations_gauge_set, ?observations_observe, ?app_nil_r;
    try done; destruct (decide _); by rewrite ?app_nil_r.
Qed.

Lemma record_calls_counter f l cs (m : M) :
  counter_value f l (record_calls cs m) = wrap_u64 (counter_value f l m + total_count f l cs).
Proof.
  unfold record_calls. revert m. induction cs as [|c cs IH]; intros m; cbn [fold_left total_count foldr].
  - unfold wrap_u64. rewrite Z.add_0_r, Z.mod_small; [done|apply counter_u64].
  - rewrite IH, record_call_counter. unfold wrap_u64. rewrite Zplus_mod_idemp_l.
    by rewrite Z.add_assoc.
Qed.

Lemma record_calls_observations f l cs (m : M) :
  observations f l (record_calls cs m) = observations f l m ++ all_observations f l cs.
Proof.
  unfold record_calls, all_observations. revert m.
  induction cs as [|c cs IH]; intros m; cbn [fold_left map concat]; [by rewrite app_nil_r|].
  by rewrite IH, record_call_observations, <- app_assoc.
Qed.

(** The metrics of the tasks do not depend on how the tasks are interleaved: for every
    counter, the value after any calls is the initial one plus what each call counts under
    that family and label, on 64 bits; for every histogram the observations are those of the
    calls; so two interleavings of the same calls give equal counters, and histograms equal
    up to order. *)
Theorem metrics_interleaving (cs cs' : list metric_call) (m : M) (Hperm : cs ≡ₚ cs') :
  (forall f l,
     counter_value f l (record_calls cs m) = wrap_u64 (counter_value f l m + total_count f l cs) /\
     counter_value f l (record_calls cs' m) = counter_value f l (record_calls cs m)) /\
  (forall f l,
     observations f l (record_calls cs m) = observations f l m ++ all_observations f l cs /\
     observations f l (record_calls cs' m) ≡ₚ observations f l (record_calls cs m)).
Proof.
  split; intros f l.
  - rewrite !record_calls_counter. split; [done|]. do 2 f_equal. symmetry.
    unfold total_count. induction Hperm; cbn [foldr]; lia.
  - rewrite !record_calls_observations. split; [done|]. f_equiv. unfold all_observations.
    apply Permutation_flat_map with (g := call_observations f l) in Hperm.
    by rewrite <- !flat_map_concat_map, Hperm.
Qed.

(** ** The state timer *)

Import StateMetric.

(** Where the timer stands after a history: the state, when it was entered (a reset does not
    count), and when the timer was last reset. *)
Definition state_after (init : string) (os : list op) : string :=
  match last os with
  | None | Some (Reset _ _) => init
  | Some (StateTo st _) | Some (MetricTo st _ _) => st
  end.

Definition mark (o : op) : option Z :=
  match o with StateTo _ now => Some now | MetricTo _ _ now' => Some now' | Reset _ _ => None end.

Definition reset_mark (o : op) : option Z :=
  match o with Reset _ now' => Some now' | _ => None end.

Definition last_mark (f : op -> option Z) (t0 : Z) (os : list op) : Z :=
  default t0 (last (omap f os)).

Lemma last_mark_snoc f t0 os o : last_mark f t0 (os ++ [o]) =
  match f o with Some t => t | None => last_mark f t0 os end.
Proof.
  unfold last_mark. rewrite omap_app. cbn. destruct (f o); [by rewrite last_snoc|].
  by rewrite app_nil_r.
Qed.

Lemma run_snoc os o (sm : t * M) : run (os ++ [o]) sm = step (run os sm) o.
Proof. unfold run. by rewrite fold_left_app. Qed.

Lemma timer_state nm init t0 os (m : M) :
  (run os (new nm init t0, m)).1 =
    {| name := nm; last_state := state_after init os; last_at := last_mark mark t0 os;
       init_state := init; refresh_at := last_mark reset_mark t0 os |}.
Proof.
  induction os as [|o os IH] using rev_ind; [done|].
  rewrite run_snoc. destruct (run os _) as [s m1]. cbn [fst] in IH. subst s.
  unfold state_after. rewrite last_snoc, !last_mark_snoc.
  by destruct o.
Qed.

(** The state timer: after any history of a timer, a transition records the whole
    milliseconds since the state was last entered (a state set without a record counts, a
    reset does not), under the names of the state left and of the new one; a reset records
    the time since the previous reset; nothing else is recorded. *)
Theorem state_timer_records (nm init : string) (t0 : Z) (os : list op) (o : op) (m : M) :
  let before := (run os (new nm init t0, m)).2 in
  let after := (run (os ++ [o]) (new nm init t0, m)).2 in
  let key a b := ByStream {| sl_upstream := nm; sl_sample := sample a b |} in
  (forall f l, counter_value f l after = counter_value f l before) /\
  forall f l, observations f l after = observations f l before ++
    match o with
    | StateTo _ _ => []
    | MetricTo st now _ =>
        if decide ((COST_MILLI_SEC_HISTOGRAM, key (state_after init os) st) = (f, l))
        then [Z.max 0 (now - last_mark mark t0 os) / 1000000] else []
    | Reset now _ =>
        if decide ((COST_MILLI_SEC_HISTOGRAM, key init init) = (f, l))
        then [Z.max 0 (now - last_mark reset_mark t0 os) / 1000000] else []
    end.
Proof.
  intros before after key. subst before after. rewrite run_snoc.
  pose proof (timer_state nm init t0 os m) as Hs.
  destruct (run os (new nm init t0, m)) as [s m1]. cbn [fst snd] in *. subst s.
  destruct o; cbn [step state_to metric_to state_reset snd]; unfold cost_milli_sec;
    cbn [name last_state last_at init_state refresh_at];
    (split; intros f l; rewrite ?counter_observe, ?observations_observe, ?app_nil_r; try done);
    fold (key (state_after init os) curr_state) || fold (key init init);
    destruct (decide _); by rewrite ?app_nil_r.
Qed.

End RecordingFacts.

(** Every family is served: the registry holds each of the eighteen families exactly
    once, under distinct names, and the buckets of the histograms are strictly increasing
    from 0.2 to 10000. *)
Theorem registry_complete :
  (forall f : family, exists r, r ∈ served_registry [] /\ reg_family r = f /\
     forall r', r' ∈ served_registry [] -> reg_family r' = f \/ reg_name r' = reg_name r -> r' = r) /\
  length (served_registry []) = 18%nat /\
  Sorted Z.lt LATENCY_BUCKET /\ head LATENCY_BUCKET = Some 2 /\ last LATENCY_BUCKET = Some 100000.
Proof.
  split_and!; try reflexivity; cycle 1.
  { unfold LATENCY_BUCKET. repeat constructor. }
  intros f.
  assert (exists r, r ∈ served_registry [] /\ reg_family r = f) as (r & Hr & Hf).
  { destruct (list_find (fun r => reg_family r = f) (served_registry [])) as [[i r]|] eqn:E.
    - exists r. apply list_find_Some in E as (Hi & Hf & _). split; [|done].
      by eapply list_elem_of_lookup_2.
    - exfalso. destruct f as [[]| |[]]; by vm_compute in E. }
  exists r. split_and!; [done|done|].
  assert (NoDup (map reg_family (served_registry [])) /\ NoDup (map reg_name (served_registry [])))
    as [Nf Nn] by (split; apply (bool_decide_unpack _); by vm_compute).
  assert (forall (B : Type) (g : registration -> B) l x y, NoDup (map g l) -> x ∈ l -> y ∈ l -> g x = g y -> x = y)
    as Hinj.
  { intros B g l x y Hnd Hx Hy E. apply list_elem_of_lookup in Hx as [i Hi], Hy as [j Hj].
    assert (i = j) as ->; [|congruence].
    apply (NoDup_lookup (g <$> l) i j (g x) Hnd); rewrite list_lookup_fmap, ?Hi, ?Hj; cbn; congruence. }
  intros r' Hr' [E|E];
    [apply (Hinj _ reg_family _ _ _ Nf Hr' Hr)|apply (Hinj _ reg_name _ _ _ Nn Hr' Hr)]; congruence.
Qed.

(** * A concrete store, and witnesses *)

(** A log of what was recorded. *)
Inductive log_entry : Type :=
| LogInc (f : counter_family) (l : label) (n : Z)
| LogSet (l : label) (n : Z)
| LogObs (f : histogram_family) (l : label) (n : Z).

Definition log_count (f : counter_family) (l : label) (m : list log_entry) : Z :=
  foldr (fun e n => match e with
                    | LogInc g k v => if decide ((g, k) = (f, l)) then wrap_u64 (n + v) else n
                    | _ => n
                    end) 0 m.

(** Newest first. *)
#[export] Instance log_store : MetricStore (list log_entry) := {|
  inc_by f l n m := LogInc f l n :: m;
  gauge_set l n m := LogSet l n :: m;
  observe f l n m := LogObs f l n :: m;
  counter_value := log_count;
  gauge_value l m := head (omap (fun e => match e with
    | LogSet k n => if decide (k = l) then Some n else None | _ => None end) m);
  observations f l m := reverse (omap (fun e => match e with
    | LogObs g k n => if decide ((g, k) = (f, l)) then Some n else None | _ => None end) m)
|}.

#[export] Instance log_store_laws : MetricStoreLaws (list log_entry).
Proof.
  constructor; intros; cbn -[reverse]; try done; try (case_decide; by rewrite ?reverse_cons).
  induction m as [|[] m IH]; cbn; try done.
  case_decide; [|done]. unfold wrap_u64. by apply Z.mod_pos_bound.
Qed.

Lemma metrics_interleaving_witness :
  let a := Send "app"%string "on_send_Quote"%string in
  let b := SendBytes "app"%string "on_send_Quote"%string 7 in
  let l := ByDownstream {| dl_downstream := "app"; dl_sample := "on_send_Quote" |} in
  counter_value (M:=list log_entry) SEND_COUNTER l (record_calls [a; b; a] []) = 2 /\
  counter_value (M:=list log_entry) SEND_COUNTER l (record_calls [b; a; a] []) = 2.
Proof.
  intros a b l.
  assert ([a; b; a] ≡ₚ [b; a; a]) as Hp by constructor.
  destruct (metrics_interleaving (M:=list log_entry) [a; b; a] [b; a; a] [] Hp) as [Hc _].
  destruct (Hc SEND_COUNTER l) as [H1 H2]. rewrite H2, H1. split; reflexivity.
Defined.

Open Scope string_scope.

(** The link connects at 3ms, is reset at 4ms, and is down at 10ms. *)
Lemma state_timer_records_witness :
  let os := [StateMetric.MetricTo "up" 3000000 3000000; StateMetric.Reset 4000000 4000000] in
  let o := StateMetric.MetricTo "down" 10000000 10000000 in
  let key := ByStream {| sl_upstream := "link"; sl_sample := "init_2_down" |} in
  observations (M:=list log_entry) COST_MILLI_SEC_HISTOGRAM key
    (StateMetric.run (os ++ [o]) (StateMetric.new "link" "init" 0, [])).2 = [7%Z].
Proof.
  intros os o key.
  pose proof (state_timer_records (M:=list log_entry) "link" "init" 0 os o []) as [_ H].
  specialize (H COST_MILLI_SEC_HISTOGRAM key). etrans; [exact H|]. reflexivity.
Defined.

Close Scope string_scope.

(** * The server of the metrics *)

#[export] Instance map_router_laws : HttpRouterLaws (gmap string http_handler).
Proof.
  constructor; cbn.
  - intros p. apply lookup_empty.
  - intros p h r _ -> ->. eexists. split; [done|]. intros q.
    destruct (decide (q = p)) as [->|]; [apply lookup_insert_eq|by apply lookup_insert_ne].
  - intros p h r [->|[x E]]; [done|]. rewrite E. by destruct (absolute p).
Qed.

Section Server.
Context {RT : Type} `{HttpRouterLaws RT}.
Context (encode : registry -> option string) (bind : string -> bool).

(** The server that is started: it listens at the address given, or the default one, answers
    the path given, or [/metrics], with the text of all the metrics registered, the caller's
    included, and [/healthz] with a greeting, and nothing else. It panics when the path is
    not absolute, when it is [/healthz] itself, and when the address cannot be bound. *)
Theorem metric_server_spec (addr path : string) (reg_fns : list (registry -> registry))
    (Hplain : plain_path path = true) :
  let '(at_, served) := served_at addr path in
  match register_and_server_at (RT:=RT) bind addr path reg_fns with
  | Ok (a, router) => a = at_ /\ bind at_ = true /\ absolute served = true /\ served <> "/healthz"%string /\
      forall q, http_get encode q router =
        if decide (q = "/healthz"%string) then Some (Ok healthy_check)
        else if decide (q = served) then Some (metric_handler_call encode (served_registry reg_fns))
        else None
  | Err _ => False
  | Panic => bind at_ = false \/ absolute served = false \/ served = "/healthz"%string
  end.
Proof.
  unfold register_and_server_at. destruct (served_at addr path) as [at_ served] eqn:Es. cbn zeta.
  assert (plain_path served = true) as Hs.
  { unfold served_at in Es. injection Es as _ <-. by case_decide. }
  destruct (absolute served) eqn:Ea; [|rewrite router_route_none by (by left); cbn; by right; left].
  destruct (router_route_some served (MetricHandler (served_registry reg_fns)) router_new Hs Ea
    (router_get_new _)) as (r & -> & Hr). cbn.
  destruct (decide (served = "/healthz"%string)) as [->|Hne].
  { rewrite router_route_none; [cbn; by right; right|]. right. rewrite Hr, decide_True by done. by eexists. }
  destruct (router_route_some "/healthz" HealthyCheck r eq_refl eq_refl) as (r' & -> & Hr').
  { rewrite Hr, decide_False by done. apply router_get_new. }
  cbn. destruct (bind at_) eqn:Eb; [|by left]. split_and!; try done. intros q. unfold http_get.
  rewrite Hr'. case_decide; [done|]. rewrite Hr. case_decide; [done|]. by rewrite router_get_new.
Qed.

End Server.

(** The defaults, and a path that is taken. *)
Example metric_server_defaults :
  (exists r : gmap string http_handler, register_and_server_at (fun _ => true) "" "" [] = Ok ("0.0.0.0:9102"%string, r)) /\
  register_and_server_at (RT:=gmap string http_handler) (fun _ => true) "" "/healthz" [] = Panic.
Proof. split; [eexists; vm_compute; reflexivity|vm_compute; reflexivity]. Qed.
